(* ===== verification/_CoqProject ===== *)
-Q . S2P
Prelude.v
Address.v
Predicate.v
State.v
Extern.v
Chain.v
Sandbox.v
ChainProps.v
Collect.v
Execution.v
ExecutionProps.v
Schedule.v
Forest.v
ScheduleProps.v
SynCell.v
Stdpred.v
Library.v
Token.v
Query.v
Pgqf.v
PgqfProps.v
PgqfExamples.v
Campaign.v
Guest.v
Derive.v
Machine.v
Format.v
Donations.v
UnitTests.v
TokenOps.v
TokenTests.v
Builder.v
Watcher.v
Cache.v
Wire.v
Behaviour.v
Muxer.v
Topic.v
TopicProps.v
TopicCommands.v
Network.v
NetworkProps.v
NetworkSpec.v
Codec.v
Stream.v
StreamProps.v
Delivery.v
Broadcast.v
Triangle.v
Start.v
Devnode.v
Client.v
Runloop.v
