(* ===== verification/Prelude.v ===== *)
(** * Anoma alpha: a verification library

    The program under [src/] is a prototype of a node for an intent-centric ledger.
    This library models its core in Rocq and proves what makes the parts correct.
    Definitions keep the names of the code where they can; where two files of the
    code use one name, the second gets a prefix ([em_], [bh_], [mux_], [net_], ...).
    Each file opens with what it holds.

    ** The program and its parts

    - [primitives]: addresses, accounts, predicates as trees of WASM calls, intents,
      transactions and blocks.
    - [vm]: executes a transaction.  [collect] finds what the proposed accounts and
      intents demand, [execution] runs the predicates in parallel and combines
      their verdicts, [schedule] runs the transactions of a block in parallel
      along their dependencies, [state] holds diffs of the account state,
      [syncell] is a cell with borrows checked at run time.
    - [stdpred] and the token example: predicates that accounts use.
    - [sdk]: builds the state block by block ([offchain/builder]), waits for events of
      the chain ([offchain/watcher]), matches intents against templates
      ([offchain/query]), and collects transactions into blocks ([devnode/mempool]);
      [devnode/main] is the node that does so and publishes the blocks.  The example of
      public goods quadratic funding ([examples/pgqf]) is a client that runs a funding
      campaign on all of that, and a solver.
    - [network]: gossip between nodes.  A [Topic] keeps a HyParView overlay of peers; the
      [Network] object owns the topics and, through the [Muxer], decides which
      connection belongs to which topic; it exchanges commands and events with the
      background thread, where libp2p's swarm drives the [Behaviour] and, for each
      connection, a [SubstreamHandler] that writes messages with the [Codec].

    ** Files, and the code they follow

    - [Prelude]: results, loops that may fail or panic, bytes and strings, ordered and
      hash maps, and the lemmas and tactics that the components share.
    - [Address] ([primitives/src/address.rs]), [Predicate] ([predicate.rs], [lib.rs],
      [account.rs]), [Chain] and [ChainProps] ([intent.rs], [transaction.rs],
      [block.rs], with the cells that hold hashes).
    - [State] ([vm/src/state.rs]): diffs and the interface [State] with its laws, which
      the in-memory store, the diff and the builder implement and all clients use.
    - [Extern]: third-party code as type classes - hashing, MessagePack, base 58,
      wasmer, petgraph, ed25519, libp2p's identities and addresses, random
      generators - each with a second class for what its documentation promises,
      and machine integers.  [Sandbox] has concrete instances, so that examples
      evaluate and no set of hypotheses is empty.
    - [Collect], [Execution], [ExecutionProps] ([vm/src/collect.rs], [execution.rs]).
    - [Schedule], [Forest], [ScheduleProps] ([vm/src/schedule.rs]): the schedule, the
      graph facts about it, and the run of a block.  [SynCell] ([vm/src/syncell.rs]).
    - [Stdpred] ([stdpred/src]), [Token] ([sdk/predicates/examples/token.rs]).
    - [Library] ([stdpred/src/lib.rs]): the standard predicates as exports of a module
      in the virtual machine.
    - [Pgqf], [PgqfProps], [PgqfExamples] ([sdk/examples/pgqf/src]): the transactions,
      intents and templates of the example; what an accepted transaction with them did;
      a chain on which they run.  [Campaign] ([client.rs]): what the client's [main]
      sends, in order, and how it ends.  [Donations]: what stands behind that end.
    - [Guest] ([sdk/predicates/src]): the predicate SDK inside a WASM instance, against
      the virtual machine outside.  [Derive] ([sdk/predicates/derive/src/lib.rs]): when its
      attribute accepts a function.  [Machine]: the virtual machine with the binaries of
      the standard library and of the two examples, and the SDK's codec in it.
    - [TokenOps], [TokenTests] ([vm/tests]): the transactions that the tests of the
      token build, and what the virtual machine answers to them.
    - [Query], [Builder], [Watcher] ([sdk/offchain/src]; [Builder] also has
      [sdk/devnode/src/mempool.rs]).
    - [Cache] ([network/src/cache.rs]), [Wire] ([wire.rs], [config.rs]), [Behaviour]
      ([behaviour.rs], [channel.rs]), [Muxer] ([muxer.rs]), [Topic], [TopicProps] and
      [TopicCommands] ([topic.rs]), [Network], [NetworkProps] and [NetworkSpec]
      ([network.rs] and the commands of [runloop.rs]), [Codec] ([codec.rs]), [Stream]
      and [StreamProps] ([stream.rs], [upgrade.rs]), [Delivery] (a topic's gossip
      through handler and codec), [Broadcast] (a topic's gossip across many nodes) and
      [Triangle] (three of them, evaluated).  [Runloop] ([runloop.rs]) composes the background
      thread with the behaviour and the network object.
    - [Start] ([settings.rs], [start_network] of client and node): how programs join the
      network.  [Devnode] ([sdk/devnode/src/main.rs]): the loop of the node, and a
      follower of its blocks.  [Client] ([sdk/examples/pgqf/src/io.rs]): sending with
      a wait, next to the watcher.
    - [Format] ([primitives/src/b58.rs] and all [Debug] and [Display] of [primitives/src]).
      [UnitTests]: the modules [tests] of the crates, which the definitions pass.

    ** Conventions

    A function that may panic returns an [option], and [None] is the panic; an error it
    returns is [Err] of a [Result].  State is passed explicitly: a method of a type
    is a function on its record.  What runs concurrently is a step relation, or a
    function of a schedule that the theorems quantify over: the tasks of a parallel
    run of predicates, the order in which the trees of a block are taken, the
    threads at a [SynCell], the watcher and its callers, the network object among
    topics, users and swarm.  The clock is an argument; so are the outcomes of
    random choices and the iteration orders of hash maps and sets, about which
    nothing is assumed but that they are permutations.  Integers are [Z] in the
    range of their width; sums wrap around or panic as the build profile says.

    ** What the theorems show

    - Execution: an accepted transaction yields exactly the proposed diff, and every
      predicate of every account it touches and of its intents accepted it, under
      every schedule; without crashes acceptance is exact.  A block runs like its
      transactions one by one along the trees of the schedule.  The module cache
      never matters.  Diffs merge as they apply.
    - Tokens: an accepted transfer conserves the supply unless the mint authority signed.
    - Funding: what an accepted transaction did, from the predicates of its accounts
      and intents down to the functions of the standard library: donations pay, wallets
      are spent by their owners only, installed code does not change in place; and
      where the example misses what it means to do, such as the treasury, which nobody
      guards.
    - Predicates as binaries: whatever the allocator does, what the virtual machine gets
      from an entry point of the SDK is what the function behind it computes.  The token
      that the tests create refuses the very transactions that they expect to pass.
    - Off the chain: the builder takes exactly the blocks that link up, waiters are
      signalled once and for what they asked for, a query match is a valuation.
    - Membership: no sequence of events makes a topic panic; how peers enter and leave
      its views; who receives gossip.
    - Network: the multiplexer refines a table of connections.  In every reachable
      state of the network object the invariants of all topics and of the
      multiplexer hold together, commands are carried out in turn, messages go to
      the topic of their connection, and one race is the only way to panic.  The
      composition rests on [TopicCommands]: topics speak for themselves only, which
      is what [TopicProps] in turn assumes of the events it is given.  The thread between
      network object and swarm ([Runloop]) keeps the contract that the invariants rest
      on, and catches up with all commands and events, in order.
    - Connections: polls end, messages are written in order, and what is written is what
      the peer decodes, up to the size limit.
    - Overlay: on any number of nodes, in every interleaving, a wave of gossip ends after a
      bounded number of steps, and then everyone that links lead to has received it,
      once; the sender may hear itself.
    - Text: an address is what is parsed from its printed form, and never from its
      conversion into a string; printing intents and blocks has the effect that they
      keep a hash.
    - Programs: the node never stops while transactions have proper addresses, and its
      blocks hold what arrived; who receives them all has the same accounts; a
      transaction that reaches the node is confirmed to a client that waits, and what a
      client is told is true; the transactions of the example's client are accepted,
      and its donations would not be: nothing creates the little wallets that they come from.
    - Where the code does not do what it means to, a theorem says what it does.

    ** Fuel

    Every recursion that is not structural has fuel, and the theorems about it show that
    the fuel is enough.  The ancestors of an address ([drain], [visit_ancestors]) are
    fewer than its characters; the loops over the schedule ([bfs_loop], [climb],
    [tree_loop]) take at most one step per node of the graph, and one more; the tasks of
    a parallel run take [task_fuel] steps each, and [par_reduce] halves its list;
    [log10_ceil] stops before the size of the network; [digits] of a number are fewer than
    the number and one.  On a connection, [poll_loop]
    needs two turns to read, and three per queued message and four more to write;
    [bh_drain] polls once per queued item and once more, [decode_all] decodes at most
    one message per byte.  Only [take_tree], of the codec with which the examples of
    [Machine] and [TokenTests] evaluate, is bounded by a constant: trees of 20 levels.

    ** Not modelled, and why

    Logging and metrics change no state but where they print an intent or a block, and the
    layout of what is printed is the standard library's: [Format] has the trees that the
    [Debug] implementations of [primitives] describe, not those of the network and of the schedule.
    The transport that [build_swarm] configures and the swarm are libp2p's; the swarm
    appears as the contract [NetworkProps.announce], which [Runloop.callback_ok] states
    for its callbacks.  Wakers are left out: a poll may happen at any time.  Of
    the predicate SDK, [debug_log] and the tokens that the attribute emits are left out,
    as are the build scripts that put the binaries in place: what a binary exports is
    written down in [Library], [Token] and [Guest].  Reading the command line is left out:
    the settings are inputs.  [await_block_height] and [stop] of the watcher are [todo!()] in
    the code, and so are [create_funding_redistribution_intent] and
    [_verify_redistribution] of the example; what its [main] has behind the first call
    of [await_block_height] never runs, and [Donations] follows it up to the second.
    [Broadcast] has no ticks and no connections that come or go while a wave of gossip
    is on its way, and its channels lose nothing: what a lossy link and a changing view do to
    gossip is not shown.
    Hash sets are encoded in an order of their own by the code, and in a fixed one by
    the model, so that nothing is concluded from the encoding of messages with sets. *)
From stdpp Require Export base tactics list gmap sets strings sorting.
From Stdlib Require Export ZArith Lia.
From Stdlib Require Strings.Byte Strings.Ascii Strings.String.

#[global] Set Default Goal Selector "!".

(** ** Results: Rust's [Result<A, E>]

    A panic ([expect], [unwrap], [assert!], [unreachable!], an arithmetic
    overflow that is checked) is [None] of an [option] wrapped around the value
    a function returns; an error a function returns is [Err]. *)

Inductive Result (A E : Type) : Type :=
| Ok (a : A)
| Err (e : E).
Arguments Ok {A E} a.
Arguments Err {A E} e.

Definition result_bind {A B E} (r : Result A E) (k : A → Result B E) : Result B E :=
  match r with
  | Ok a => k a
  | Err e => Err e
  end.

Definition result_map {A B E} (f : A → B) (r : Result A E) : Result B E :=
  match r with
  | Ok a => Ok (f a)
  | Err e => Err e
  end.

Definition map_err {A E F} (f : E → F) (r : Result A E) : Result A F :=
  match r with
  | Ok a => Ok a
  | Err e => Err (f e)
  end.

Definition ok_or {A E} (o : option A) (e : E) : Result A E :=
  match o with
  | Some a => Ok a
  | None => Err e
  end.

Definition result_ok {A E} (r : Result A E) : option A :=
  match r with
  | Ok a => Some a
  | Err _ => None
  end.

Definition is_ok {A E} (r : Result A E) : bool :=
  match r with
  | Ok _ => true
  | Err _ => false
  end.

Declare Scope anoma_scope.
Delimit Scope anoma_scope with anoma.
#[global] Open Scope anoma_scope.

(** [let? x := e in k] is Rust's [let x = e?; k]. *)
Notation "'let?' x := e 'in' k" := (result_bind e (fun x => k))
  (at level 10, x name, e at level 100, k at level 200) : anoma_scope.

#[global] Instance Result_eq_dec `{EqDecision A, EqDecision E} : EqDecision (Result A E).
Proof. solve_decision. Defined.

(** ** Loops that stop at the first error *)

(** [for x in xs { s = f(s, x)?; }] *)
Fixpoint try_fold {S A E} (f : S → A → Result S E) (s : S) (xs : list A) : Result S E :=
  match xs with
  | [] => Ok s
  | x :: xs => let? s' := f s x in try_fold f s' xs
  end.

(** [for x in xs { out.push(f(x)?); }] *)
Fixpoint try_map_list {A B E} (f : A → Result B E) (xs : list A) : Result (list B) E :=
  match xs with
  | [] => Ok []
  | x :: xs =>
      let? y := f x in
      let? ys := try_map_list f xs in
      Ok (y :: ys)
  end.

(** A loop over the items whose body may panic. *)
Fixpoint foldM {S A} (f : S → A → option S) (s : S) (l : list A) : option S :=
  match l with
  | [] => Some s
  | x :: l => s' ← f s x; foldM f s' l
  end.

Lemma foldM_app {S A} (f : S → A → option S) s l1 l2 :
  foldM f s (l1 ++ l2) = s' ← foldM f s l1; foldM f s' l2.
Proof.
  revert s. induction l1 as [|x l1 IH]; intros s; [done|]. cbn [app foldM].
  destruct (f s x); [apply IH|done].
Qed.

Lemma foldM_invariant {S A} (f : S → A → option S) (P : S → Prop) (Q : A → Prop) l s s' :
  (∀ s a s', Q a → P s → f s a = Some s' → P s') → Forall Q l → P s → foldM f s l = Some s' → P s'.
Proof.
  intros Hf Hl. revert s. induction Hl as [|a l Ha _ IH]; intros s Hs; cbn [foldM]; [by intros [= <-]|].
  destruct (f s a) as [s1|] eqn:Hs1; [|done]. apply IH. by eapply Hf.
Qed.

(** A loop whose body may fail, where [?] leaves it, or panic ([None]). *)
Fixpoint try_fold_panic {S A E} (f : S → A → option (Result S E)) (s : S) (xs : list A) :
    option (Result S E) :=
  match xs with
  | [] => Some (Ok s)
  | x :: xs =>
      match f s x with
      | None => None
      | Some (Err e) => Some (Err e)
      | Some (Ok s') => try_fold_panic f s' xs
      end
  end.

Lemma result_bind_Ok {A B E} (r : Result A E) (k : A → Result B E) b :
  result_bind r k = Ok b ↔ ∃ a, r = Ok a ∧ k a = Ok b.
Proof. destruct r as [a|e]; simpl; [|by split; [|intros (? & ? & ?)]]. naive_solver. Qed.

Lemma result_bind_Err {A B E} (r : Result A E) (k : A → Result B E) e :
  result_bind r k = Err e ↔ r = Err e ∨ ∃ a, r = Ok a ∧ k a = Err e.
Proof. destruct r as [a|e']; simpl; split; naive_solver. Qed.

Section try_lemmas.
Context {St A B E : Type}.

Lemma try_fold_app (f : St → A → Result St E) s xs ys :
  try_fold f s (xs ++ ys) = let? s' := try_fold f s xs in try_fold f s' ys.
Proof.
  revert s. induction xs as [|x xs IH]; intros s; [done|]. simpl.
  destruct (f s x); simpl; [apply IH | done].
Qed.

(** A failing loop fails at the first element whose step fails. *)
Lemma try_fold_Err (f : St → A → Result St E) s xs e :
  try_fold f s xs = Err e →
  ∃ pre x post s', xs = pre ++ x :: post ∧ try_fold f s pre = Ok s' ∧ f s' x = Err e.
Proof.
  revert s. induction xs as [|x xs IH]; intros s; simpl; [done|].
  intros [He | (s1 & Hf & Hrest)]%result_bind_Err.
  - exists [], x, xs, s. done.
  - destruct (IH _ Hrest) as (pre & y & post & s2 & -> & Hpre & He).
    exists (x :: pre), y, post, s2. simpl. by rewrite Hf.
Qed.

(** An invariant of the body is an invariant of the loop. *)
Lemma try_fold_inv (P : St → Prop) (f : St → A → Result St E) s xs s' :
  (∀ s x s', x ∈ xs → P s → f s x = Ok s' → P s') →
  P s → try_fold f s xs = Ok s' → P s'.
Proof.
  revert s. induction xs as [|x xs IH]; intros s Hstep Hs; simpl.
  - by intros [= <-].
  - intros (s1 & Hf & Hrest)%result_bind_Ok.
    eapply IH; [| |exact Hrest].
    + intros s2 y s3 Hy. apply Hstep. by right.
    + eapply Hstep; [left | exact Hs | exact Hf].
Qed.

Lemma try_map_list_Ok (f : A → Result B E) xs ys :
  try_map_list f xs = Ok ys ↔ Forall2 (λ x y, f x = Ok y) xs ys.
Proof.
  revert ys. induction xs as [|x xs IH]; intros ys; simpl.
  - split; [intros [= <-]; constructor | by inversion_clear 1].
  - rewrite result_bind_Ok. split.
    + intros (y & Hy & (ys' & Hys & [= <-])%result_bind_Ok).
      constructor; [done | by apply IH].
    + inversion_clear 1 as [|? y ? ys' Hy Hys]. exists y. split; [done|].
      apply result_bind_Ok. exists ys'. split; [by apply IH | done].
Qed.

(** The error of the loop is the error of the first failing element. *)
Lemma try_map_list_Err (f : A → Result B E) xs e :
  try_map_list f xs = Err e ↔
  ∃ pre x post, xs = pre ++ x :: post ∧ f x = Err e ∧ Forall (λ y, is_ok (f y) = true) pre.
Proof.
  induction xs as [|x xs IH]; simpl.
  - split; [done | intros (pre & x & post & Heq & _)]. by destruct pre.
  - rewrite result_bind_Err. split.
    + intros [He | (y & Hy & [He%IH | (? & _ & [=])]%result_bind_Err)].
      * exists [], x, xs. by repeat split.
      * destruct He as (pre & x' & post & -> & He & Hpre).
        exists (x :: pre), x', post. split; [done|]. split; [done|].
        constructor; [by rewrite Hy | done].
    + intros (pre & x' & post & Heq & He & Hpre).
      destruct pre as [|p pre]; simplify_eq/=; [by left|].
      inversion_clear Hpre as [|? ? Hp Hpre'].
      destruct (f p) as [y|] eqn:Hfp; [|done]. right. exists y. split; [done|].
      apply result_bind_Err. left. apply IH. by exists pre, x', post.
Qed.
End try_lemmas.

Lemma try_fold_ext {S A E} (f g : S → A → Result S E) s xs :
  (∀ s x, f s x = g s x) → try_fold f s xs = try_fold g s xs.
Proof.
  intros Hfg. revert s. induction xs as [|x xs IH]; intros s; simpl; [done|].
  rewrite Hfg. destruct (g s x); simpl; [apply IH|done].
Qed.

Lemma try_map_list_ext {A B E} (f g : A → Result B E) xs :
  (∀ x, f x = g x) → try_map_list f xs = try_map_list g xs.
Proof. intros Hfg. induction xs as [|x xs IH]; simpl; [done|]. by rewrite Hfg, IH. Qed.

Lemma try_fold_panic_ext {S A E} (f g : S → A → option (Result S E)) s xs :
  (∀ s x, f s x = g s x) → try_fold_panic f s xs = try_fold_panic g s xs.
Proof.
  intros Hfg. revert s. induction xs as [|x xs IH]; intros s; simpl; [done|].
  rewrite Hfg. destruct (g s x) as [[|]|]; [apply IH|done..].
Qed.

(** ** Bytes, characters and strings

    A byte is [Byte.byte].  A Rust [char] is its Unicode scalar value in [N];
    a Rust [String] is the list of its characters.  [str::len] counts the bytes
    of the UTF-8 encoding, [chars().count()] the characters, so the two are kept
    apart ([byte_len] and [length]). *)

#[global] Instance byte_eq_dec : EqDecision Byte.byte := Byte.byte_eq_dec.
#[global] Instance byte_countable : Countable Byte.byte :=
  inj_countable Byte.to_N Byte.of_N Byte.of_to_N.

Notation bytes := (list Byte.byte).
Notation rchar := N.
Notation rstring := (list N).

(** The string literal "..." of the source. *)
Definition str (s : string) : rstring := Ascii.N_of_ascii <$> String.list_ascii_of_string s.

(** [b"..."] of the source. *)
Definition bstr (s : string) : bytes := String.list_byte_of_string s.

(** [char::len_utf8] *)
Definition len_utf8 (c : rchar) : nat :=
  if (c <? 128)%N then 1
  else if (c <? 2048)%N then 2
  else if (c <? 65536)%N then 3
  else 4.

(** [str::len] *)
Definition byte_len (s : rstring) : nat := sum_list (len_utf8 <$> s).

(** [slice::starts_with] and [str::starts_with] *)
Fixpoint starts_with `{EqDecision A} (s prefix : list A) {struct prefix} : bool :=
  match prefix, s with
  | [], _ => true
  | p :: ps, c :: cs => bool_decide (p = c) && starts_with cs ps
  | _ :: _, [] => false
  end.

Lemma starts_with_spec `{EqDecision A} (s p : list A) :
  starts_with s p = true ↔ ∃ k, s = p ++ k.
Proof.
  revert s. induction p as [|x p IH]; intros s; simpl.
  - split; [by exists s | done].
  - destruct s as [|y s]; [by split; [|intros [k [=]]]|].
    rewrite andb_true_iff, bool_decide_eq_true, IH.
    split; [intros [-> [k ->]]; by exists k | intros [k [= -> ->]]; eauto].
Qed.

(** ** Ordered maps and sets: [BTreeMap] and [BTreeSet]

    A [BTreeMap] is a [gmap]; what distinguishes it from a [HashMap] is that it
    is iterated in the order of its keys, which is what [btree_iter] does. *)

Class BTreeKey (K : Type) := {
  key_le : relation K;
  key_le_dec :: RelDecision key_le;
  key_le_total :: Total key_le;
  key_le_trans :: Transitive key_le;
  key_le_antisymm :: AntiSymm (=) key_le;
}.

Definition entry_le {K V} `{BTreeKey K} : relation (K * V) :=
  λ p q, key_le p.1 q.1.

#[global] Instance entry_le_dec {K V} `{BTreeKey K} : RelDecision (@entry_le K V _).
Proof. intros p q. unfold entry_le. apply _. Defined.
#[global] Instance entry_le_total {K V} `{BTreeKey K} : Total (@entry_le K V _).
Proof. intros p q. apply key_le_total. Qed.
#[global] Instance entry_le_trans {K V} `{BTreeKey K} : Transitive (@entry_le K V _).
Proof. intros p q r. apply key_le_trans. Qed.

(** [BTreeMap::iter], [BTreeMap::keys], [BTreeMap::values], [BTreeSet::iter] *)
Definition btree_iter {K V} `{Countable K, !BTreeKey K} (m : gmap K V) : list (K * V) :=
  merge_sort entry_le (map_to_list m).
Definition btree_keys {K V} `{Countable K, !BTreeKey K} (m : gmap K V) : list K :=
  fst <$> btree_iter m.
Definition btree_values {K V} `{Countable K, !BTreeKey K} (m : gmap K V) : list V :=
  snd <$> btree_iter m.
Definition btree_elems {K} `{Countable K, !BTreeKey K} (s : gset K) : list K :=
  merge_sort key_le (elements s).

Section btree.
Context {K V : Type} `{Countable K, !BTreeKey K}.
Implicit Types (m : gmap K V) (s : gset K).

Lemma btree_iter_perm m : btree_iter m ≡ₚ map_to_list m.
Proof. apply merge_sort_Permutation. Qed.

Lemma elem_of_btree_iter m k v : (k, v) ∈ btree_iter m ↔ m !! k = Some v.
Proof. rewrite btree_iter_perm. apply elem_of_map_to_list. Qed.

Lemma elem_of_btree_keys m k : k ∈ btree_keys m ↔ is_Some (m !! k).
Proof.
  unfold btree_keys. rewrite list_elem_of_fmap. split.
  - intros ([k' v] & -> & Hv%elem_of_btree_iter). by exists v.
  - intros [v Hv]. exists (k, v). by rewrite elem_of_btree_iter.
Qed.

Lemma elem_of_btree_values m v : v ∈ btree_values m ↔ ∃ k, m !! k = Some v.
Proof.
  unfold btree_values. rewrite list_elem_of_fmap. split.
  - intros ([k v'] & -> & Hv%elem_of_btree_iter). by exists k.
  - intros [k Hk]. exists (k, v). by rewrite elem_of_btree_iter.
Qed.

Lemma NoDup_btree_keys m : NoDup (btree_keys m).
Proof. unfold btree_keys. rewrite btree_iter_perm. apply NoDup_fst_map_to_list. Qed.

Lemma btree_iter_sorted m : StronglySorted entry_le (btree_iter m).
Proof. apply StronglySorted_merge_sort; apply _. Qed.

Lemma btree_keys_sorted m : StronglySorted key_le (btree_keys m).
Proof.
  unfold btree_keys. eapply StronglySorted_fmap; [|apply btree_iter_sorted]. done.
Qed.

Lemma btree_elems_sorted s : StronglySorted key_le (btree_elems s).
Proof. apply StronglySorted_merge_sort; apply _. Qed.

Lemma btree_elems_perm s : btree_elems s ≡ₚ elements s.
Proof. apply merge_sort_Permutation. Qed.

Lemma elem_of_btree_elems s k : k ∈ btree_elems s ↔ k ∈ s.
Proof. rewrite btree_elems_perm. apply elem_of_elements. Qed.

Lemma NoDup_btree_elems s : NoDup (btree_elems s).
Proof. rewrite btree_elems_perm. apply NoDup_elements. Qed.

(** Collecting the entries back gives the map. *)
Lemma list_to_map_btree_iter m : list_to_map (btree_iter m) = m.
Proof.
  trans (list_to_map (map_to_list m) : gmap K V); [|apply list_to_map_to_list].
  apply list_to_map_proper; [apply NoDup_btree_keys | apply btree_iter_perm].
Qed.

Lemma btree_iter_singleton k v : btree_iter ({[k := v]} : gmap K V) = [(k, v)].
Proof. apply Permutation_singleton_r. by rewrite btree_iter_perm, map_to_list_singleton. Qed.

Lemma btree_iter_empty : btree_iter (∅ : gmap K V) = [].
Proof. unfold btree_iter. by rewrite map_to_list_empty. Qed.
End btree.

(** ** Unordered maps: [HashMap]

    The iteration order of a [HashMap] is unspecified: it is a parameter, any
    order that lists each entry once. *)

Class HashOrder (K : Type) `{Countable K} := {
  hash_iter : ∀ {V}, gmap K V → list (K * V);
  hash_iter_perm : ∀ {V} (m : gmap K V), hash_iter m ≡ₚ map_to_list m;
}.

(** A concrete order, for evaluation on examples. *)
Definition map_order (K : Type) `{Countable K} : HashOrder K :=
  {| hash_iter V m := map_to_list m; hash_iter_perm V m := reflexivity _ |}.

(** [for x in set] over a [HashSet]. *)
Definition hash_elems `{Countable K, !HashOrder K} (s : gset K) : list K :=
  (hash_iter (gset_to_gmap tt s)).*1.
Definition hash_keys `{Countable K, !HashOrder K} {V} (m : gmap K V) : list K := (hash_iter m).*1.

Lemma elem_of_hash_iter {K V} `{Countable K, !HashOrder K} (m : gmap K V) k v :
  (k, v) ∈ hash_iter m ↔ m !! k = Some v.
Proof. rewrite hash_iter_perm. apply elem_of_map_to_list. Qed.

Lemma hash_iter_nil `{Countable K, !HashOrder K} {V} (m : gmap K V) :
  m ≠ ∅ → hash_iter m ≠ [].
Proof.
  intros Hm Hnil. apply map_choose in Hm as (k & v & Hk). apply elem_of_hash_iter in Hk.
  rewrite Hnil in Hk. by apply elem_of_nil in Hk.
Qed.

Lemma elem_of_hash_elems `{Countable K, !HashOrder K} (s : gset K) x : x ∈ hash_elems s ↔ x ∈ s.
Proof.
  unfold hash_elems. rewrite list_elem_of_fmap. split.
  - intros ([y []] & -> & Hy%elem_of_hash_iter). by apply lookup_gset_to_gmap_Some in Hy as [? _].
  - intros Hx. exists (x, ()). rewrite elem_of_hash_iter. by rewrite lookup_gset_to_gmap_Some.
Qed.

Lemma hash_elems_perm `{Countable K, !HashOrder K} (s : gset K) : hash_elems s ≡ₚ elements s.
Proof.
  apply NoDup_Permutation.
  - unfold hash_elems. rewrite hash_iter_perm. apply NoDup_fst_map_to_list.
  - apply NoDup_elements.
  - intros x. by rewrite elem_of_hash_elems, elem_of_elements.
Qed.

Lemma elem_of_hash_keys `{Countable K, !HashOrder K} {V} (m : gmap K V) x :
  x ∈ hash_keys m ↔ x ∈ dom m.
Proof.
  unfold hash_keys. rewrite list_elem_of_fmap, elem_of_dom. split.
  - intros ([y v] & -> & Hy%elem_of_hash_iter). by eexists.
  - intros [v Hv]. exists (x, v). by rewrite elem_of_hash_iter.
Qed.

(** ** The order of strings

    Rust compares strings by the bytes of their UTF-8 encoding, which is the
    lexicographic order of their characters. *)

Fixpoint lex_leb {A} (ltb : A → A → bool) (l k : list A) : bool :=
  match l, k with
  | [], _ => true
  | _ :: _, [] => false
  | x :: l, y :: k => ltb x y || (negb (ltb y x) && lex_leb ltb l k)
  end.

Section lex.
Context {A : Type} (ltb : A → A → bool).
Hypothesis ltb_irrefl : ∀ x, ltb x x = false.
Hypothesis ltb_trans : ∀ x y z, ltb x y = true → ltb y z = true → ltb x z = true.
Hypothesis ltb_tricho : ∀ x y, ltb x y = false → ltb y x = false → x = y.

Lemma lex_leb_total l k : lex_leb ltb l k = true ∨ lex_leb ltb k l = true.
Proof.
  revert k. induction l as [|x l IH]; intros [|y k]; simpl; auto.
  destruct (ltb x y) eqn:Hxy, (ltb y x) eqn:Hyx; simpl; auto.
Qed.

Lemma lex_leb_antisymm l k :
  lex_leb ltb l k = true → lex_leb ltb k l = true → l = k.
Proof.
  revert k. induction l as [|x l IH]; intros [|y k]; simpl; try done.
  destruct (ltb x y) eqn:Hxy, (ltb y x) eqn:Hyx; simpl; try done.
  - pose proof (ltb_trans _ _ _ Hxy Hyx) as Hc. by rewrite ltb_irrefl in Hc.
  - intros. f_equal; [by apply ltb_tricho | by apply IH].
Qed.

Lemma lex_leb_trans l k j :
  lex_leb ltb l k = true → lex_leb ltb k j = true → lex_leb ltb l j = true.
Proof.
  revert k j. induction l as [|x l IH]; intros [|y k] [|z j]; simpl; try done.
  destruct (ltb x y) eqn:Hxy; simpl.
  - intros _. destruct (ltb y z) eqn:Hyz; simpl.
    + by rewrite (ltb_trans _ _ _ Hxy Hyz).
    + destruct (ltb z y) eqn:Hzy; simpl; [done|].
      rewrite <-(ltb_tricho _ _ Hyz Hzy), Hxy. done.
  - destruct (ltb y x) eqn:Hyx; simpl; [done|].
    rewrite (ltb_tricho _ _ Hxy Hyx).
    destruct (ltb y z), (ltb z y); simpl; try done; eauto.
Qed.
End lex.

Lemma Nltb_tricho x y : (x <? y)%N = false → (y <? x)%N = false → x = y.
Proof. rewrite !N.ltb_ge. lia. Qed.
Lemma Nltb_trans x y z : (x <? y)%N = true → (y <? z)%N = true → (x <? z)%N = true.
Proof. rewrite !N.ltb_lt. lia. Qed.

#[global] Program Instance rstring_key : BTreeKey rstring :=
  {| key_le s t := Is_true (lex_leb N.ltb s t) |}.
Next Obligation. intros s t. simpl. apply _. Defined.
Next Obligation.
  intros s t. simpl. rewrite !Is_true_true.
  apply lex_leb_total.
Qed.
Next Obligation.
  intros s t u. simpl. rewrite !Is_true_true.
  apply lex_leb_trans; [apply Nltb_trans | apply Nltb_tricho].
Qed.
Next Obligation.
  intros s t. simpl. rewrite !Is_true_true.
  apply lex_leb_antisymm; [apply N.ltb_irrefl | apply Nltb_trans | apply Nltb_tricho].
Qed.

Definition byte_ltb (x y : Byte.byte) : bool := (Byte.to_N x <? Byte.to_N y)%N.

#[global] Program Instance bytes_key : BTreeKey bytes :=
  {| key_le s t := Is_true (lex_leb byte_ltb s t) |}.
Next Obligation. intros s t. simpl. apply _. Defined.
Next Obligation.
  intros s t. simpl. rewrite !Is_true_true. apply lex_leb_total.
Qed.
Next Obligation.
  intros s t u. simpl. rewrite !Is_true_true. apply lex_leb_trans.
  - intros x y z. apply Nltb_trans.
  - intros x y ? ?. assert (Byte.to_N x = Byte.to_N y) as Heq by by apply Nltb_tricho.
    pose proof (Byte.of_to_N x) as Hx. rewrite Heq, Byte.of_to_N in Hx. congruence.
Qed.
Next Obligation.
  intros s t. simpl. rewrite !Is_true_true. apply lex_leb_antisymm.
  - intros x. apply N.ltb_irrefl.
  - intros x y z. apply Nltb_trans.
  - intros x y ? ?. assert (Byte.to_N x = Byte.to_N y) as Heq by by apply Nltb_tricho.
    pose proof (Byte.of_to_N x) as Hx. rewrite Heq, Byte.of_to_N in Hx. congruence.
Qed.

(** Entries before a given one in the iteration order are those with a smaller
    key. *)
Lemma btree_iter_before {K V} `{Countable K, !BTreeKey K} (m : gmap K V) pre k v post k' v' :
  btree_iter m = pre ++ (k, v) :: post → m !! k' = Some v' → key_le k' k → k' ≠ k →
  (k', v') ∈ pre.
Proof.
  intros Heq Hk' Hle Hne. apply elem_of_btree_iter in Hk'. rewrite Heq in Hk'.
  apply elem_of_app in Hk' as [|[[= -> ->]|Hpost]%elem_of_cons]; [done|done|].
  pose proof (btree_iter_sorted m) as Hs. rewrite Heq in Hs.
  assert (∀ l, StronglySorted entry_le (l ++ (k, v) :: post) → key_le k k') as Hin.
  { induction l as [|e l IH]; simpl; inversion_clear 1 as [|? ? Hs' Hall]; [|auto].
    eapply Forall_forall in Hall; [|exact Hpost]. exact Hall. }
  destruct Hne. apply (anti_symm key_le); [done|]. by eapply Hin.
Qed.

Lemma list_to_map_elem {K V} `{Countable K} (l : list (K * V)) k v :
  NoDup l.*1 → (k, v) ∈ l → (list_to_map l : gmap K V) !! k = Some v.
Proof. intros. by apply elem_of_list_to_map. Qed.

Lemma Forall_ex_Forall2 {A B} (P : A → B → Prop) l :
  Forall (λ x, ∃ y, P x y) l → ∃ k, Forall2 P l k.
Proof.
  induction 1 as [|x l [y Hy] _ [k IH]]; [by exists []|]. exists (y :: k). by constructor.
Qed.

Lemma elem_of_concat {A} (ls : list (list A)) x : x ∈ concat ls ↔ ∃ l, x ∈ l ∧ l ∈ ls.
Proof.
  induction ls as [|k ls IH]; simpl.
  - split; [by intros ?%elem_of_nil|by intros (? & _ & ?%elem_of_nil)].
  - rewrite elem_of_app, IH. split.
    + intros [|(l & ? & ?)]; [exists k|exists l]; (split; [done|]); by constructor.
    + intros (l & Hx & [->|Hl]%elem_of_cons); [by left|right; eauto].
Qed.
