(* ===== verification/Address.v ===== *)
(** Account addresses: [primitives/src/address.rs].

    [Address.new] is the scanner of [Address::new]; [next] is one step of the
    [AncestorIterator], [ancestors] the list it yields.  The theorems relate
    both to paths seen as lists of segments. *)
From S2P Require Import Prelude.

Inductive AddressError :=
| EmptyPath
| EmptyPathSegment
| MissingStartingSlash
| InvalidEndingSlash
| InvalidCharacter (c : rchar).

(** [pub struct Address(String)] *)
Record Address := mkAddress { addr_path : rstring }.

#[global] Instance AddressError_eq_dec : EqDecision AddressError.
Proof. solve_decision. Defined.
#[global] Instance Address_eq_dec : EqDecision Address.
Proof. solve_decision. Defined.
#[global] Instance Address_countable : Countable Address.
Proof.
  refine (inj_countable' addr_path mkAddress _). by intros [].
Defined.

(** The derived [Ord]. *)
#[global] Program Instance Address_key : BTreeKey Address :=
  {| key_le a b := key_le (addr_path a) (addr_path b) |}.
Next Obligation. intros a b. simpl. apply _. Defined.
Next Obligation. intros a b. apply key_le_total. Qed.
Next Obligation. intros a b c. apply key_le_trans. Qed.
Next Obligation.
  intros [a] [b] Hab Hba. f_equal. exact (key_le_antisymm _ _ Hab Hba).
Qed.

Definition slash : rchar := 47%N.

(** [char::is_ascii_alphanumeric] *)
Definition is_ascii_alphanumeric (c : rchar) : bool :=
  ((48 <=? c) && (c <=? 57) || (65 <=? c) && (c <=? 90) || (97 <=? c) && (c <=? 122))%N.

(** [static ALLOWED_SYMBOLS: [char; 3] = ['.', '-', '_'];] *)
Definition ALLOWED_SYMBOLS : list rchar := [46; 45; 95]%N.

Definition allowed_char (c : rchar) : bool :=
  is_ascii_alphanumeric c || (c =? slash)%N || existsb (fun s => (s =? c)%N) ALLOWED_SYMBOLS.

(** The loop of [Address::new] over the characters after the first one; the
    accumulator is [segment_len]. *)
Definition new_loop_body (segment_len : nat) (c : rchar) : Result nat AddressError :=
  let? segment_len' :=
    if (c =? slash)%N
    then if (segment_len =? 0)%nat then Err EmptyPathSegment else Ok 0
    else Ok (S segment_len) in
  if negb (allowed_char c) then Err (InvalidCharacter c) else Ok segment_len'.

(** [Address::new] *)
Definition new (path : rstring) : Result Address AddressError :=
  match path with
  | [] => Err EmptyPath
  | first :: chars =>
      if negb (first =? slash)%N then Err MissingStartingSlash
      else
        let? segment_len := try_fold new_loop_body 0 chars in
        if (segment_len =? 0)%nat then Err InvalidEndingSlash
        else Ok (mkAddress path)
  end.

(** [<Address as FromStr>::from_str] *)
Definition from_str (s : rstring) : Result Address AddressError := new s.

(** [Address::combine] *)
Definition combine (self : Address) (segment : rstring) : Result Address AddressError :=
  new (addr_path self ++ [slash] ++ segment).

(** [Address::is_parent_of] *)
Definition is_parent_of (self other : Address) : bool :=
  starts_with (addr_path other) (addr_path self ++ [slash]).

(** [Iterator::position] *)
Fixpoint position {A} (p : A → bool) (l : list A) : option nat :=
  match l with
  | [] => None
  | x :: l => if p x then Some 0 else S <$> position p l
  end.

(** [struct AncestorIterator { current: Address }] *)
Record AncestorIterator := mkAncestors { current : Address }.

(** [AncestorIterator::next]: the outer [None] is the panic of [expect] (or of
    the underflow of [path.len() - 1], on the empty path).  The position counts
    characters from the end and [len] counts bytes, as in the code. *)
Definition next (it : AncestorIterator) : option (option Address * AncestorIterator) :=
  let path := addr_path (current it) in
  match position (fun c => (c =? slash)%N) (reverse path) with
  | None => None
  | Some pos =>
      let slash_pos := byte_len path - 1 - pos in
      if (slash_pos =? 0)%nat then Some (None, it)
      else
        let a := mkAddress (take slash_pos path) in
        Some (Some a, mkAncestors a)
  end.

(** The items of the iterator, by its first [fuel] calls of [next]: [None] if
    one of them panics or if the iterator has not ended by then. *)
Fixpoint drain (fuel : nat) (it : AncestorIterator) : option (list Address) :=
  match fuel with
  | 0 => None
  | S fuel =>
      match next it with
      | None => None
      | Some (None, _) => Some []
      | Some (Some a, it') => (cons a) <$> drain fuel it'
      end
  end.

(** [Address::ancestors], drained.  Every step of a terminating run shortens the
    path, so the length of the path bounds the number of calls. *)
Definition ancestors (self : Address) : option (list Address) :=
  drain (length (addr_path self)) (mkAncestors self).

(** ** Paths as lists of segments *)

Definition seg_char (c : rchar) : Prop := allowed_char c = true ∧ c ≠ slash.
Definition seg_ok (s : rstring) : Prop := s ≠ [] ∧ Forall seg_char s.
Definition segs_ok (segs : list rstring) : Prop := segs ≠ [] ∧ Forall seg_ok segs.

(** The path with the given segments. *)
Definition join (segs : list rstring) : rstring := segs ≫= λ s, slash :: s.

(** The addresses the constructor lets through. *)
Definition valid (a : Address) : Prop := ∃ segs, segs_ok segs ∧ addr_path a = join segs.

Lemma join_app segs segs' : join (segs ++ segs') = join segs ++ join segs'.
Proof. apply bind_app. Qed.

Lemma join_snoc segs s : join (segs ++ [s]) = join segs ++ slash :: s.
Proof. rewrite join_app. unfold join at 2. simpl. by rewrite app_nil_r. Qed.

Lemma join_nil_inv segs : join segs = [] → segs = [].
Proof. by destruct segs. Qed.

Lemma allowed_char_ascii c : allowed_char c = true → len_utf8 c = 1.
Proof.
  unfold allowed_char, is_ascii_alphanumeric, ALLOWED_SYMBOLS, len_utf8, slash.
  cbn [existsb]. intros Hc.
  destruct (N.ltb_spec c 128) as [|Hge]; [done|]. exfalso.
  rewrite !orb_true_iff, !andb_true_iff, !N.leb_le, !N.eqb_eq in Hc.
  destruct_or?; destruct_and?; try done; lia.
Qed.

Lemma new_loop_body_slash n :
  new_loop_body n slash = if (n =? 0)%nat then Err EmptyPathSegment else Ok 0.
Proof. unfold new_loop_body. rewrite N.eqb_refl. by destruct (n =? 0)%nat. Qed.

Lemma new_loop_body_char n c :
  c ≠ slash →
  new_loop_body n c = if allowed_char c then Ok (S n) else Err (InvalidCharacter c).
Proof.
  intros Hc. unfold new_loop_body. rewrite (proj2 (N.eqb_neq _ _) Hc). simpl.
  by destruct (allowed_char c).
Qed.

(** The scanner accepts the rest of a segment followed by whole segments. *)
Lemma new_loop_spec chars n :
  (∃ m, try_fold new_loop_body n chars = Ok m ∧ m ≠ 0) ↔
  ∃ s rest, chars = s ++ join rest ∧ Forall seg_char s ∧ n + length s ≠ 0 ∧ Forall seg_ok rest.
Proof.
  revert n. induction chars as [|c chars IH]; intros n; simpl.
  - split.
    + intros (m & [= <-] & Hm). exists [], []. simpl. repeat split; try constructor. lia.
    + intros (s & rest & Heq & _ & Hn & _). exists n. split; [done|].
      symmetry in Heq. apply app_nil in Heq as [-> _]. simpl in Hn. lia.
  - destruct (decide (c = slash)) as [->|Hc].
    + rewrite new_loop_body_slash. destruct (Nat.eqb_spec n 0) as [->|Hn]; simpl.
      * split; [by intros (? & ? & ?)|]. intros (s & rest & Heq & Hs & Hn & _).
        destruct s as [|x s]; [done|]. simplify_eq/=.
        inversion_clear Hs as [|? ? [_ Hx] _]. done.
      * rewrite IH. split.
        -- intros (s & rest & -> & Hs & Hlen & Hrest). exists [], (s :: rest). simpl.
           repeat split; [constructor | lia |]. constructor; [|done].
           split; [by destruct s | done].
        -- intros (s & rest & Heq & Hs & _ & Hrest). destruct s as [|x s]; simplify_eq/=.
           ++ destruct rest as [|s rest]; [done|]. simplify_eq/=.
              inversion_clear Hrest as [|? ? [Hne Hs'] Hrest'].
              exists s, rest. repeat split; try done. by destruct s.
           ++ inversion_clear Hs as [|? ? [_ Hx] _]. done.
    + rewrite new_loop_body_char by done. destruct (allowed_char c) eqn:Hal; simpl.
      * rewrite IH. split.
        -- intros (s & rest & -> & Hs & _ & Hrest). exists (c :: s), rest. simpl.
           repeat split; try done; [by constructor | lia].
        -- intros (s & rest & Heq & Hs & _ & Hrest). destruct s as [|x s]; simplify_eq/=.
           ++ destruct rest; simplify_eq/=.
           ++ inversion_clear Hs. exists s, rest. by repeat split.
      * split; [by intros (? & ? & ?)|]. intros (s & rest & Heq & Hs & _ & Hrest).
        destruct s as [|x s]; simplify_eq/=; [destruct rest; simplify_eq/=|].
        inversion_clear Hs as [|? ? [Hx _] _]. congruence.
Qed.

Lemma new_Ok_iff p a : new p = Ok a ↔ valid (mkAddress p) ∧ a = mkAddress p.
Proof.
  unfold new, valid. destruct p as [|first chars]; simpl.
  - split; [done|]. intros [(segs & [Hne _] & Heq) _]. symmetry in Heq.
    by apply join_nil_inv in Heq.
  - destruct (N.eqb_spec first slash) as [->|Hf]; simpl.
    + assert ((∃ segs, segs_ok segs ∧ slash :: chars = join segs) ↔
        ∃ m, try_fold new_loop_body 0 chars = Ok m ∧ m ≠ 0) as ->.
      { rewrite new_loop_spec. split.
        - intros (segs & [Hne Hsegs] & Heq). destruct segs as [|s rest]; [done|].
          simplify_eq/=. inversion_clear Hsegs as [|? ? [Hs Hall] Hrest].
          exists s, rest. repeat split; try done. by destruct s.
        - intros (s & rest & -> & Hs & Hlen & Hrest). exists (s :: rest). split; [|done].
          split; [done|]. constructor; [split; [by destruct s|done] | done]. }
      destruct (try_fold new_loop_body 0 chars) as [m|e]; simpl.
      * destruct (Nat.eqb_spec m 0) as [->|Hm]; naive_solver.
      * naive_solver.
    + split; [done|]. intros [(segs & _ & Heq) _]. destruct segs; simplify_eq/=.
Qed.

Lemma valid_new a : valid a → new (addr_path a) = Ok a.
Proof. intros Ha. apply new_Ok_iff. by destruct a. Qed.

Lemma new_valid p a : new p = Ok a → valid a ∧ addr_path a = p.
Proof. intros [Hv ->]%new_Ok_iff. done. Qed.

Lemma join_allowed segs : Forall seg_ok segs → Forall (λ c, allowed_char c = true) (join segs).
Proof.
  induction 1 as [|s segs [_ Hs] _ IH]; simpl; [constructor|].
  constructor; [done|]. apply Forall_app. split; [|done].
  eapply Forall_impl; [exact Hs|]. by intros c [? _].
Qed.

Lemma byte_len_ascii s : Forall (λ c, allowed_char c = true) s → byte_len s = length s.
Proof.
  unfold byte_len. induction 1 as [|c s Hc _ IH]; simpl; [done|].
  rewrite allowed_char_ascii by done. by f_equal.
Qed.

Lemma position_app {A} (p : A → bool) l x k :
  Forall (λ y, p y = false) l → p x = true → position p (l ++ x :: k) = Some (length l).
Proof.
  intros Hl Hx. induction Hl as [|y l Hy _ IH]; simpl; [by rewrite Hx|].
  by rewrite Hy, IH.
Qed.

(** One step of the iterator drops the last segment. *)
Lemma next_join segs s :
  Forall seg_ok segs → seg_ok s →
  next (mkAncestors (mkAddress (join (segs ++ [s])))) =
    if decide (segs = [])
    then Some (None, mkAncestors (mkAddress (join [s])))
    else Some (Some (mkAddress (join segs)), mkAncestors (mkAddress (join segs))).
Proof.
  intros Hsegs [Hne Hs]. unfold next. cbn [current addr_path].
  assert (Forall seg_ok (segs ++ [s])) as Hall.
  { apply Forall_app. by repeat constructor. }
  rewrite (byte_len_ascii _ (join_allowed _ Hall)), join_snoc.
  rewrite reverse_app, reverse_cons, <-app_assoc. simpl.
  rewrite position_app; [|apply Forall_reverse; eapply Forall_impl; [exact Hs|]|].
  - rewrite length_reverse, length_app. simpl.
    replace (length (join segs) + S (length s) - 1 - length s) with (length (join segs)) by lia.
    rewrite take_app_length. case_decide as Hseg.
    + subst. simpl. by rewrite app_nil_r.
    + destruct (Nat.eqb_spec (length (join segs)) 0) as [H0|]; [|done].
      by apply nil_length_inv, join_nil_inv in H0.
  - intros c [_ Hc]. by apply N.eqb_neq.
  - apply N.eqb_refl.
Qed.

(** The paths above [segs], the nearest first. *)
Fixpoint above (n : nat) (segs : list rstring) : list Address :=
  match n with
  | 0 => []
  | S n => mkAddress (join (take (S n) segs)) :: above n segs
  end.

Lemma above_app n segs l : n ≤ length segs → above n (segs ++ l) = above n segs.
Proof.
  induction n as [|n IH]; intros Hn; simpl; [done|].
  rewrite take_app_le, IH by lia. done.
Qed.

Lemma drain_join segs fuel :
  segs_ok segs → length segs ≤ fuel →
  drain fuel (mkAncestors (mkAddress (join segs))) = Some (above (length segs - 1) segs).
Proof.
  revert fuel. induction segs as [|s segs IH] using rev_ind; intros fuel [Hne Hall] Hfuel; [done|].
  rewrite length_app in Hfuel. simpl in Hfuel.
  apply Forall_app in Hall as [Hsegs Hs]. inversion_clear Hs.
  destruct fuel as [|fuel]; [lia|]. simpl. rewrite next_join by done.
  rewrite length_app. simpl. replace (length segs + 1 - 1) with (length segs) by lia.
  case_decide as Hnil; [by subst|].
  rewrite IH by (try split; try done; lia).
  destruct (length segs) as [|n] eqn:Hlen; [by apply nil_length_inv in Hlen|].
  simpl. rewrite Nat.sub_0_r, above_app by lia. rewrite take_app_le by lia.
  by rewrite take_ge by lia.
Qed.

(** Where the scanner stands at a slash, the path read so far is a valid address
    followed by that slash. *)
Lemma new_loop_at_slash chars :
  try_fold new_loop_body 0 chars = Ok 0 →
  ∃ q, slash :: chars = q ++ [slash] ∧ (q = [] ∨ valid (mkAddress q)).
Proof.
  destruct chars as [|c chars _] using rev_ind; intros Hloop; [exists []; auto|].
  rewrite try_fold_app in Hloop. apply result_bind_Ok in Hloop as (m & Hm & Hc).
  simpl in Hc. apply result_bind_Ok in Hc as (m' & Hc & [= ->]).
  destruct (decide (c = slash)) as [->|Hns].
  - rewrite new_loop_body_slash in Hc. destruct (Nat.eqb_spec m 0) as [|Hm0]; [done|].
    exists (slash :: chars). split; [done|]. right.
    destruct (proj1 (new_loop_spec chars 0)) as (s & rest & -> & Hs & Hlen & Hrest); [eauto|].
    exists (s :: rest). split; [|done]. split; [done|].
    constructor; [split; [by destruct s|done]|done].
  - rewrite new_loop_body_char in Hc by done. by destruct (allowed_char c).
Qed.

Lemma new_loop_allowed chars n m :
  try_fold new_loop_body n chars = Ok m → Forall (λ c, allowed_char c = true) chars.
Proof.
  revert n. induction chars as [|c chars IH]; intros n; simpl; [constructor|].
  intros (n' & Hc & Hrest)%result_bind_Ok. constructor; [|by eapply IH].
  destruct (decide (c = slash)) as [->|Hns]; [done|].
  rewrite new_loop_body_char in Hc by done. by destruct (allowed_char c).
Qed.

Lemma slash_split x y u v :
  Forall seg_char x → Forall seg_char y → (v = [] ∨ head v = Some slash) →
  x ++ slash :: u = y ++ v → x = y ∧ v = slash :: u.
Proof.
  revert y. induction x as [|c x IH]; intros [|d y] Hx Hy Hv Heq; simplify_eq/=.
  - done.
  - inversion_clear Hy as [|? ? [_ Hd] _]. done.
  - destruct Hv as [|[= ->]]; [done|]. inversion_clear Hx as [|? ? [_ Hd] _]. done.
  - inversion_clear Hx. inversion_clear Hy. destruct (IH y) as [-> ->]; done.
Qed.

Lemma join_head segs : join segs = [] ∨ head (join segs) = Some slash.
Proof. destruct segs; auto. Qed.

(** A path extended by a slash is a prefix of another one exactly when its
    segments are. *)
Lemma join_prefix segs segs' k :
  Forall seg_ok segs → Forall seg_ok segs' →
  join segs' = join segs ++ slash :: k →
  ∃ s rest, segs' = segs ++ s :: rest.
Proof.
  revert segs'. induction segs as [|x segs IH]; intros segs' Hs Hs' Heq.
  - destruct segs' as [|s rest]; [done|]. by exists s, rest.
  - destruct segs' as [|y segs']; [done|]. injection Heq as Heq.
    fold (join segs) (join segs') in Heq.
    inversion_clear Hs as [|? ? [_ Hx] Hsegs]. inversion_clear Hs' as [|? ? [_ Hy] Hsegs'].
    assert (∃ u, join segs ++ slash :: k = slash :: u) as [u Hu].
    { destruct (join_head segs) as [->|Hh]; [by eexists|].
      destruct (join segs); simplify_eq/=. by eexists. }
    rewrite <-app_assoc, Hu in Heq. symmetry in Heq.
    apply slash_split in Heq as [-> Hj]; [|done|done|apply join_head].
    rewrite <-Hu in Hj. destruct (IH _ Hsegs Hsegs' Hj) as (s & rest & ->).
    by exists s, rest.
Qed.

Lemma is_parent_of_segs segs segs' :
  Forall seg_ok segs → Forall seg_ok segs' →
  is_parent_of (mkAddress (join segs)) (mkAddress (join segs')) = true ↔
  ∃ s rest, segs' = segs ++ s :: rest.
Proof.
  intros Hs Hs'. unfold is_parent_of. simpl. rewrite starts_with_spec. split.
  - intros [k Heq]. rewrite <-app_assoc in Heq. by eapply join_prefix.
  - intros (s & rest & ->). rewrite join_app. simpl. eexists. by rewrite <-app_assoc.
Qed.

Lemma elem_of_above n segs a :
  a ∈ above n segs ↔ ∃ j, 1 ≤ j ≤ n ∧ a = mkAddress (join (take j segs)).
Proof.
  induction n as [|n IH]; simpl.
  - split; [by intros ?%elem_of_nil | intros (j & ? & _); lia].
  - rewrite elem_of_cons, IH. split.
    + intros [-> | (j & ? & ->)]; [exists (S n) | exists j]; (split; [lia|done]).
    + intros (j & Hj & ->). destruct (decide (j = S n)) as [->|]; [by left|].
      right. exists j. split; [lia|done].
Qed.

Lemma is_parent_of_take segs i j :
  Forall seg_ok segs → i < j ≤ length segs →
  is_parent_of (mkAddress (join (take i segs))) (mkAddress (join (take j segs))) = true.
Proof.
  intros Hall Hij. apply is_parent_of_segs; [by apply Forall_take..|].
  destruct (lookup_lt_is_Some_2 segs i) as [s Hs]; [lia|].
  exists s, (drop (S i) (take j segs)). rewrite <-(take_drop_middle (take j segs) i s) at 1.
  - by rewrite take_take, Nat.min_l by lia.
  - by rewrite lookup_take_lt by lia.
Qed.

Lemma valid_above self :
  valid self → ∃ segs, segs_ok segs ∧ self = mkAddress (join segs) ∧
    ancestors self = Some (above (length segs - 1) segs).
Proof.
  intros (segs & [Hne Hall] & Hpath). destruct self as [p]. simpl in Hpath. subst p.
  exists segs. split; [done|]. split; [done|]. apply drain_join; [done|].
  clear. cbn [addr_path]. induction segs as [|s segs IH]; simpl; [lia|]. rewrite length_app. lia.
Qed.

Lemma elem_of_above_parent segs a :
  segs_ok segs →
  a ∈ above (length segs - 1) segs ↔ valid a ∧ is_parent_of a (mkAddress (join segs)) = true.
Proof.
  intros [Hne Hall]. assert (length segs ≠ 0) as Hlen by by destruct segs.
  rewrite elem_of_above. split.
  - intros (j & Hj & ->). split.
    + exists (take j segs). split; [|done]. split; [|by apply Forall_take].
      destruct segs; [done|]. destruct j; [lia|done].
    + rewrite <-(take_ge segs (length segs)) at 2 by done.
      apply is_parent_of_take; [done|lia].
  - destruct a as [p]. intros [(segs' & [Hne' Hall'] & Hp) Hpar]. simpl in Hp. subst p.
    apply is_parent_of_segs in Hpar as (s & rest & ->); [|done..].
    exists (length segs'). rewrite length_app, take_app_length. simpl.
    split; [|done]. destruct segs'; [done|]. simpl. lia.
Qed.

(** The ancestors of a valid address, as a set. *)
Lemma elem_of_ancestors self :
  valid self →
  ∃ l, ancestors self = Some l ∧ ∀ a, a ∈ l ↔ valid a ∧ is_parent_of a self = true.
Proof.
  intros (segs & Hok & -> & Hanc)%valid_above.
  eexists. split; [exact Hanc|]. intros a. by apply elem_of_above_parent.
Qed.

Lemma above_sorted segs n :
  Forall seg_ok segs → n ≤ length segs →
  StronglySorted (λ a b, is_parent_of b a = true) (above n segs).
Proof.
  intros Hall. induction n as [|n IH]; intros Hn; simpl; [constructor|].
  constructor; [apply IH; lia|]. apply Forall_forall. intros a (j & ? & ->)%elem_of_above.
  apply is_parent_of_take; [done|lia].
Qed.

(** Being a parent is irreflexive, so a list sorted by it has no duplicates. *)
Lemma is_parent_irrefl a : is_parent_of a a = false.
Proof.
  apply not_true_iff_false. intros [k Hk]%starts_with_spec.
  apply (f_equal length) in Hk. rewrite !length_app in Hk. simpl in Hk. lia.
Qed.

Lemma parent_sorted_NoDup l : StronglySorted (λ a b, is_parent_of b a = true) l → NoDup l.
Proof.
  induction 1 as [|a l _ IH Ha]; constructor; [|done].
  intros Hin. eapply Forall_forall in Ha; [|exact Hin]. by rewrite is_parent_irrefl in Ha.
Qed.

(** ** Theorems *)

(** C39: the constructor accepts exactly the paths made of one or more nonempty
    segments of allowed characters, each after a slash, and it stores the path
    unchanged; on any other path its error says what is wrong at the first
    offending place: nothing but a valid address and a slash precedes an empty
    segment or an ending slash, and nothing but allowed characters precedes an
    invalid one. *)
Theorem new_spec p :
  (valid (mkAddress p) → new p = Ok (mkAddress p)) ∧
  match new p with
  | Ok a => valid a ∧ addr_path a = p
  | Err EmptyPath => p = []
  | Err MissingStartingSlash => ∃ c chars, p = c :: chars ∧ c ≠ slash
  | Err EmptyPathSegment =>
      ∃ q post, p = q ++ [slash; slash] ++ post ∧ (q = [] ∨ valid (mkAddress q))
  | Err InvalidEndingSlash =>
      ∃ q, p = q ++ [slash] ∧ (q = [] ∨ valid (mkAddress q))
  | Err (InvalidCharacter c) =>
      allowed_char c = false ∧
      ∃ pre post, p = slash :: pre ++ c :: post ∧ Forall (λ c, allowed_char c = true) pre
  end.
Proof.
  split; [intros Hv; by apply new_Ok_iff|].
  destruct (new p) as [a|e] eqn:Hnew; [by apply new_valid|].
  unfold new in Hnew. destruct p as [|first chars]; [by simplify_eq|].
  destruct (N.eqb_spec first slash) as [->|Hf]; simpl in Hnew; [|simplify_eq; eauto].
  apply result_bind_Err in Hnew as [Hloop | (m & Hloop & Hend)].
  - apply try_fold_Err in Hloop as (pre & c & post & m & -> & Hpre & Hc).
    destruct (decide (c = slash)) as [->|Hns].
    + rewrite new_loop_body_slash in Hc.
      destruct (Nat.eqb_spec m 0) as [->|]; simplify_eq.
      destruct (new_loop_at_slash _ Hpre) as (q & Heq & Hq).
      exists q, post. split; [|done]. rewrite app_comm_cons, Heq. by rewrite <-app_assoc.
    + rewrite new_loop_body_char in Hc by done.
      destruct (allowed_char c) eqn:Hal; simplify_eq. split; [done|].
      exists pre, post. split; [done|]. by eapply new_loop_allowed.
  - destruct (Nat.eqb_spec m 0) as [->|]; simplify_eq. by apply new_loop_at_slash.
Qed.

Lemma new_spec_witness :
  new (str "/token/usda") = Ok (mkAddress (str "/token/usda")) ∧
  new (str "//token") = Err EmptyPathSegment.
Proof.
  split; [|by vm_compute]. apply (proj1 (new_spec (str "/token/usda"))).
  exists [str "token"; str "usda"]. split; [|by vm_compute].
  split; [done|]. apply (bool_decide_unpack _). by vm_compute.
Defined.

(** C37: on every address the constructor lets through, the iterator of ancestors
    ends without a panic, and its items are exactly the valid addresses that
    [is_parent_of] says are above it, each once and the nearest first. *)
Theorem ancestors_spec self :
  valid self →
  ∃ l, ancestors self = Some l ∧ NoDup l ∧
    (∀ a, a ∈ l ↔ valid a ∧ is_parent_of a self = true) ∧
    StronglySorted (λ a b, is_parent_of b a = true) l.
Proof.
  intros (segs & Hok & -> & Hanc)%valid_above. eexists. split; [exact Hanc|].
  assert (StronglySorted (λ a b, is_parent_of b a = true) (above (length segs - 1) segs)) as Hs.
  { apply above_sorted; [apply Hok|lia]. }
  split; [by apply parent_sorted_NoDup|]. split; [|done].
  intros a. by apply elem_of_above_parent.
Qed.

Lemma ancestors_spec_witness :
  ∃ l, ancestors (mkAddress (str "/token/usda/w1")) = Some l ∧ length l = 2.
Proof.
  destruct (ancestors_spec (mkAddress (str "/token/usda/w1"))) as (l & Hl & _).
  - exists [str "token"; str "usda"; str "w1"]. split; [|by vm_compute].
    split; [done|]. apply (bool_decide_unpack _). by vm_compute.
  - exists l. split; [exact Hl|]. vm_compute in Hl. by injection Hl as <-.
Defined.

(** [combine] accepts exactly the segments that would make an address of
    their own after a slash, and the result is a child of the address, whose
    ancestors therefore include it. *)
Theorem combine_spec self segment b :
  valid self →
  combine self segment = Ok b ↔
    valid (mkAddress (slash :: segment)) ∧
    b = mkAddress (addr_path self ++ slash :: segment) ∧
    valid b ∧ is_parent_of self b = true.
Proof.
  intros (segs & [Hne Hall] & Hpath). destruct self as [p]. simpl in Hpath. subst p.
  unfold combine. rewrite new_Ok_iff. simpl. split.
  - intros [Hv ->]. split; [|split; [done|split; [done|]]].
    + destruct Hv as (segs' & [_ Hall'] & Heq). simpl in Heq.
      symmetry in Heq. destruct (join_prefix _ _ _ Hall Hall' Heq) as (s & rest & ->).
      rewrite join_app in Heq. apply app_inv_head in Heq.
      exists (s :: rest). split; [|done]. split; [done|]. by apply Forall_app in Hall' as [_ ?].
    + unfold is_parent_of. apply starts_with_spec. simpl. exists segment.
      by rewrite <-app_assoc.
  - intros ((segs' & [_ Hall'] & Heq) & -> & Hv & _). done.
Qed.

Lemma combine_spec_witness :
  combine (mkAddress (str "/token")) (str "usda") = Ok (mkAddress (str "/token/usda")).
Proof.
  assert (∀ s, bool_decide (Forall (λ s, s ≠ [] ∧ Forall seg_char s) [s]) = true →
    valid (mkAddress (slash :: s))) as Hval.
  { intros s Hs. exists [s]. split; [|simpl; by rewrite app_nil_r].
    split; [done|]. by apply bool_decide_eq_true in Hs. }
  apply (combine_spec (mkAddress (str "/token"))); [by apply (Hval (str "token"))|].
  split; [by apply Hval|]. split; [done|]. split; [|by vm_compute].
  exists [str "token"; str "usda"]. split; [|by vm_compute].
  split; [done|]. apply (bool_decide_unpack _). by vm_compute.
Defined.

(** An address that did not go through the constructor (the type derives
    [Deserialize]) can make the iterator endless: on ["/éé/"], whose byte length
    exceeds its character count, every call of [next] yields the same address,
    so no number of calls ends the iteration. *)
Theorem ancestors_endless :
  let a := mkAddress [slash; 233; 233; slash]%N in
  next (mkAncestors a) = Some (Some a, mkAncestors a) ∧ ∀ fuel, drain fuel (mkAncestors a) = None.
Proof.
  intros a. assert (next (mkAncestors a) = Some (Some a, mkAncestors a)) as Hnext by by vm_compute.
  split; [done|]. induction fuel as [|fuel IH]; [done|].
  cbn [drain]. by rewrite Hnext, IH.
Qed.
