(* ===== verification/Predicate.v ===== *)
(** Predicates and accounts: [primitives/src/predicate.rs],
    [primitives/src/account.rs], the account changes of
    [primitives/src/transaction.rs] and the [Repr] of [primitives/src/lib.rs].

    The expression tree comes with its four traversals; the theorems say what
    [map], [try_map], [for_each] and [reduce] compute in terms of the leaves of
    the tree, read from left to right. *)
From S2P Require Import Prelude Address.

(** ** Data *)

(** [pub enum Param] *)
Inductive Param :=
| Inline (v : bytes)
| AccountRef (addr : Address)
| ProposalRef (addr : Address)
| CalldataRef (key : rstring).

(** [pub enum Code] *)
Inductive Code :=
| CodeInline (wasm : bytes)
| CodeAccountRef (addr : Address) (entrypoint : rstring).

(** [pub struct ExpandedCode] *)
Record ExpandedCode := mkExpandedCode { ec_code : bytes; ec_entrypoint : rstring }.

(** [pub struct Predicate<R: Repr>]: the code and the parameters of the
    representation. *)
Record Predicate (C P : Type) := mkPredicate { code : C; params : list P }.
Arguments mkPredicate {C P} code params.
Arguments code {C P} _.
Arguments params {C P} _.

(** [pub enum ExpressionTree<T>] *)
Inductive ExpressionTree (T : Type) :=
| Id (t : T)
| Not (t : ExpressionTree T)
| And (l r : ExpressionTree T)
| Or (l r : ExpressionTree T).
Arguments Id {T} t.
Arguments Not {T} t.
Arguments And {T} l r.
Arguments Or {T} l r.

(** [PredicateTree<Basic>] *)
Notation BasicPredicate := (Predicate Code Param).
Notation BasicTree := (ExpressionTree BasicPredicate).

(** [pub struct Account] *)
Record Account := mkAccount { acc_state : bytes; acc_predicates : BasicTree }.

(** [pub enum AccountChange] *)
Inductive AccountChange :=
| CreateAccount (acc : Account)
| ReplaceState (s : bytes)
| ReplacePredicates (p : BasicTree)
| DeleteAccount.

(** [pub enum ExpandedAccountChange] *)
Inductive ExpandedAccountChange :=
| ECreateAccount (acc : Account)
| EReplaceState (current proposed : bytes)
| EReplacePredicates (current proposed : BasicTree)
| EDeleteAccount (current : Account).

(** [pub enum ExpandedParam] *)
Inductive ExpandedParam :=
| EInline (v : bytes)
| EAccountRef (addr : Address) (v : bytes)
| EProposalRef (addr : Address) (change : ExpandedAccountChange)
| ECalldataRef (key : rstring) (v : bytes).

(** [Predicate<Expanded>] and [PredicateTree<Expanded>] *)
Notation ExpandedPredicate := (Predicate ExpandedCode ExpandedParam).
Notation ExpandedTree := (ExpressionTree ExpandedPredicate).

(** [pub trait Repr]: the types of a representation; [Basic] and [Expanded] are
    its implementations. *)
Record Repr := mkRepr { rParam : Type; rCode : Type; rAccountChange : Type }.
Definition Basic : Repr := mkRepr Param Code AccountChange.
Definition Expanded : Repr := mkRepr ExpandedParam ExpandedCode ExpandedAccountChange.

(** [type PredicateTree<R>] *)
Definition PredicateTree (R : Repr) : Type := ExpressionTree (Predicate (rCode R) (rParam R)).

(** [pub type Calldata = BTreeMap<String, Vec<u8>>] *)
Notation Calldata := (gmap rstring bytes).

#[global] Instance Param_eq_dec : EqDecision Param.
Proof. solve_decision. Defined.
#[global] Instance Code_eq_dec : EqDecision Code.
Proof. solve_decision. Defined.
#[global] Instance ExpandedCode_eq_dec : EqDecision ExpandedCode.
Proof. solve_decision. Defined.
#[global] Instance Predicate_eq_dec `{EqDecision C, EqDecision P} : EqDecision (Predicate C P).
Proof. solve_decision. Defined.
#[global] Instance ExpressionTree_eq_dec `{EqDecision T} : EqDecision (ExpressionTree T).
Proof. solve_decision. Defined.
#[global] Instance Account_eq_dec : EqDecision Account.
Proof. solve_decision. Defined.
#[global] Instance AccountChange_eq_dec : EqDecision AccountChange.
Proof. solve_decision. Defined.
#[global] Instance ExpandedAccountChange_eq_dec : EqDecision ExpandedAccountChange.
Proof. solve_decision. Defined.
#[global] Instance ExpandedParam_eq_dec : EqDecision ExpandedParam.
Proof. solve_decision. Defined.

(** [ExpandedParam::data] *)
Definition data (self : ExpandedParam) : bytes :=
  match self with
  | EInline v => v
  | EAccountRef _ v => v
  | EProposalRef _ ac =>
      match ac with
      | ECreateAccount acc => acc_state acc
      | EReplaceState _ proposed => proposed
      | EReplacePredicates _ _ => []
      | EDeleteAccount _ => []
      end
  | ECalldataRef _ v => v
  end.

(** ** Traversals *)

(** [ExpressionTree::map] *)
Fixpoint map {T V} (op : T → V) (self : ExpressionTree T) : ExpressionTree V :=
  match self with
  | Id p => Id (op p)
  | Not pt => Not (map op pt)
  | And l r => And (map op l) (map op r)
  | Or l r => Or (map op l) (map op r)
  end.

(** [ExpressionTree::try_map] *)
Fixpoint try_map {T V E} (op : T → Result V E) (self : ExpressionTree T) :
    Result (ExpressionTree V) E :=
  match self with
  | Id p => let? v := op p in Ok (Id v)
  | Not pt => let? t := try_map op pt in Ok (Not t)
  | And l r => let? l' := try_map op l in let? r' := try_map op r in Ok (And l' r')
  | Or l r => let? l' := try_map op l in let? r' := try_map op r in Ok (Or l' r')
  end.

(** [ExpressionTree::for_each]; what the closure mutates is the state [s]. *)
Fixpoint for_each {T S} (op : S → T → S) (self : ExpressionTree T) (s : S) : S :=
  match self with
  | Id p => op s p
  | Not pt => for_each op pt s
  | And l r => for_each op r (for_each op l s)
  | Or l r => for_each op r (for_each op l s)
  end.

(** [ExpressionTree::reduce] *)
Fixpoint reduce {T R} (id : T → R) (not : R → R) (and or : R → R → R)
    (self : ExpressionTree T) : R :=
  match self with
  | Id v => id v
  | Not t => not (reduce id not and or t)
  | And t1 t2 => and (reduce id not and or t1) (reduce id not and or t2)
  | Or t1 t2 => or (reduce id not and or t1) (reduce id not and or t2)
  end.

(** ** Leaves *)

Fixpoint leaves {T} (t : ExpressionTree T) : list T :=
  match t with
  | Id x => [x]
  | Not t => leaves t
  | And l r | Or l r => leaves l ++ leaves r
  end.

(** Two trees of the same shape with related leaves. *)
Inductive tree_rel {T V} (R : T → V → Prop) : ExpressionTree T → ExpressionTree V → Prop :=
| rel_Id x y : R x y → tree_rel R (Id x) (Id y)
| rel_Not t u : tree_rel R t u → tree_rel R (Not t) (Not u)
| rel_And t1 t2 u1 u2 : tree_rel R t1 u1 → tree_rel R t2 u2 → tree_rel R (And t1 t2) (And u1 u2)
| rel_Or t1 t2 u1 u2 : tree_rel R t1 u1 → tree_rel R t2 u2 → tree_rel R (Or t1 t2) (Or u1 u2).

#[export] Hint Constructors tree_rel : core.

(** The boolean value of a tree. *)
Definition holds {T} (v : T → bool) (t : ExpressionTree T) : bool := reduce v negb andb orb t.

Lemma leaves_map {T V} (f : T → V) t : leaves (map f t) = f <$> leaves t.
Proof. induction t as [x|t IH|l IHl r IHr|l IHl r IHr]; simpl; rewrite ?fmap_app; congruence. Qed.

Lemma map_rel {T V} (f : T → V) t : tree_rel (λ x y, f x = y) t (map f t).
Proof. induction t; simpl; auto. Qed.

Lemma for_each_leaves {T S} (op : S → T → S) t s : for_each op t s = foldl op s (leaves t).
Proof.
  revert s. induction t as [x|t IH|l IHl r IHr|l IHl r IHr]; intros s; simpl; [done|done|..];
    by rewrite foldl_app, IHl, IHr.
Qed.

Lemma reduce_map {T V R} (f : T → V) (id : V → R) not and or t :
  reduce id not and or (map f t) = reduce (λ x, id (f x)) not and or t.
Proof. induction t; simpl; congruence. Qed.

Lemma reduce_rel {T V R} (P : T → V → Prop) (id : T → R) (id' : V → R) not and or t u :
  tree_rel P t u → (∀ x y, P x y → id x = id' y) →
  reduce id not and or t = reduce id' not and or u.
Proof. intros Ht Hid. induction Ht; simpl; auto with f_equal. Qed.

Lemma tree_rel_impl {T V} (P Q : T → V → Prop) t u :
  (∀ x y, P x y → Q x y) → tree_rel P t u → tree_rel Q t u.
Proof. intros HPQ. induction 1; auto. Qed.

Lemma try_map_Ok_iff {T V E} (op : T → Result V E) t u :
  try_map op t = Ok u ↔ tree_rel (λ x y, op x = Ok y) t u.
Proof.
  split.
  - revert u. induction t as [x|t IH|l IHl r IHr|l IHl r IHr]; intros u; simpl.
    + intros (v & Hv & [= <-])%result_bind_Ok. auto.
    + intros (v & Hv & [= <-])%result_bind_Ok. auto.
    + intros (v & Hv & (w & Hw & [= <-])%result_bind_Ok)%result_bind_Ok. auto.
    + intros (v & Hv & (w & Hw & [= <-])%result_bind_Ok)%result_bind_Ok. auto.
  - induction 1 as [x y Hxy|t u _ IH|t1 t2 u1 u2 _ IH1 _ IH2|t1 t2 u1 u2 _ IH1 _ IH2]; simpl.
    + by rewrite Hxy.
    + by rewrite IH.
    + by rewrite IH1; simpl; rewrite IH2.
    + by rewrite IH1; simpl; rewrite IH2.
Qed.

Lemma try_map_ext {T V E} (f g : T → Result V E) t :
  (∀ x, f x = g x) → try_map f t = try_map g t.
Proof.
  intros Hfg. induction t as [x|t IH|l IHl r IHr|l IHl r IHr]; simpl;
    rewrite ?Hfg, ?IH, ?IHl, ?IHr; done.
Qed.

(** [try_map] visits the leaves from left to right and stops at the first error. *)
Lemma try_map_list_leaves {T V E} (op : T → Result V E) t :
  result_map leaves (try_map op t) = try_map_list op (leaves t).
Proof.
  assert (∀ xs ys, try_map_list op (xs ++ ys) =
    let? xs' := try_map_list op xs in let? ys' := try_map_list op ys in Ok (xs' ++ ys')) as Happ.
  { intros xs ys. induction xs as [|x xs IH]; simpl.
    - by destruct (try_map_list op ys).
    - destruct (op x); simpl; [|done]. rewrite IH.
      destruct (try_map_list op xs); simpl; [|done]. by destruct (try_map_list op ys). }
  induction t as [x|t IH|l IHl r IHr|l IHl r IHr]; simpl.
  - by destruct (op x).
  - rewrite <-IH. by destruct (try_map op t).
  - rewrite Happ, <-IHl, <-IHr. destruct (try_map op l), (try_map op r); done.
  - rewrite Happ, <-IHl, <-IHr. destruct (try_map op l), (try_map op r); done.
Qed.
