(* ===== verification/State.v ===== *)
(** Account state: [vm/src/state.rs].

    [StateDiff] is the change set, [State] the interface of everything that
    stores accounts ([dyn State] is [dyn_state]), [StateLaws] what a store
    promises to its clients: looking an account up after [apply] gives what the
    diff says, and what was there before where the diff says nothing. *)
From S2P Require Import Prelude Address Predicate.

(** [pub struct StateDiff] *)
Record StateDiff := mkDiff { upserts : gmap Address Account; deletes : gset Address }.

#[global] Instance StateDiff_eq_dec : EqDecision StateDiff.
Proof. solve_decision. Defined.

(** [StateDiff::default] *)
Definition empty_diff : StateDiff := mkDiff ∅ ∅.

(** [StateDiff::set]: the returned old value and the new diff. *)
Definition set (self : StateDiff) (address : Address) (account : Account) :
    option Account * StateDiff :=
  let deletes' := deletes self ∖ {[address]} in
  (upserts self !! address, mkDiff (<[address := account]> (upserts self)) deletes').

(** [StateDiff::remove] *)
Definition remove (self : StateDiff) (address : Address) : option Account * StateDiff :=
  let deletes' := {[address]} ∪ deletes self in
  (upserts self !! address, mkDiff (delete address (upserts self)) deletes').

(** [StateDiff::merge]: the two loops over the newer diff. *)
Definition merge (self newer : StateDiff) : StateDiff :=
  let step1 := fun d (e : Address * Account) =>
    mkDiff (<[e.1 := e.2]> (upserts d)) (deletes d ∖ {[e.1]}) in
  let step2 := fun d addr =>
    mkDiff (delete addr (upserts d)) ({[addr]} ∪ deletes d) in
  let d1 := foldl step1 self (btree_iter (upserts newer)) in
  foldl step2 d1 (btree_elems (deletes newer)).

(** [StateDiff::iter] *)
Definition iter (self : StateDiff) : list (Address * option Account) :=
  ((λ e, (e.1, Some e.2)) <$> btree_iter (upserts self)) ++
  ((λ addr, (addr, None)) <$> btree_elems (deletes self)).

(** [pub trait State]; [apply] gives [None] where it panics. *)
Class State (S : Type) := {
  get : S → Address → option Account;
  apply : S → StateDiff → option S;
}.

(** [&dyn State]: a shared reference, through which only [get] can be called. *)
Record dyn_state := mkDyn { dyn_get : Address → option Account }.
Definition Dyn {S} `{State S} (s : S) : dyn_state := mkDyn (get s).

(** Two states that give the same answers. *)
#[global] Instance dyn_state_equiv : Equiv dyn_state :=
  λ s t, ∀ a, dyn_get s a = dyn_get t a.
#[global] Instance dyn_state_equivalence : Equivalence (≡@{dyn_state}).
Proof.
  split.
  - intros s a. done.
  - intros s t H a. by rewrite (H a).
  - intros s t u H H' a. by rewrite (H a), (H' a).
Qed.

(** [impl State for StateDiff] *)
#[global] Instance StateDiff_State : State StateDiff := {|
  get self address := upserts self !! address;
  apply self diff := Some (merge self diff);
|}.

(** [pub struct Overlayed] *)
Record Overlayed := mkOverlayed { base : dyn_state; overlay : dyn_state }.

(** [impl State for Overlayed]: [apply] is [unimplemented!]. *)
#[global] Instance Overlayed_State : State Overlayed := {|
  get self address :=
    match dyn_get (overlay self) address with
    | None => dyn_get (base self) address
    | Some value => Some value
    end;
  apply self _ := None;
|}.

(** [pub struct InMemoryStateStore { data: HashMap<Address, Account> }] *)
Record InMemoryStateStore := mkStore { store_data : gmap Address Account }.

(** [impl State for InMemoryStateStore]: the two loops of [apply]. *)
Definition store_apply (self : InMemoryStateStore) (diff : StateDiff) : InMemoryStateStore :=
  let d1 := foldl (λ d (e : Address * Account), <[e.1 := e.2]> d)
              (store_data self) (btree_iter (upserts diff)) in
  mkStore (foldl (λ d addr, delete addr d) d1 (btree_elems (deletes diff))).

#[global] Instance InMemoryStateStore_State : State InMemoryStateStore := {|
  get self address := store_data self !! address;
  apply self diff := Some (store_apply self diff);
|}.

(** ** What a diff says about an address *)

(** The account at [a] after the diff, given the one [before] it. *)
Definition after (d : StateDiff) (a : Address) (before : option Account) : option Account :=
  if decide (a ∈ deletes d) then None
  else match upserts d !! a with
       | Some acc => Some acc
       | None => before
       end.

(** No address is both written and deleted: an invariant of the diffs the code
    builds. *)
Definition diff_wf (d : StateDiff) : Prop := dom (upserts d) ## deletes d.

(** The contract of a store. *)
Class StateLaws (S : Type) `{State S} := {
  apply_total : ∀ (s : S) d, is_Some (apply s d);
  get_apply : ∀ (s s' : S) d a, apply s d = Some s' → get s' a = after d a (get s a);
}.

(** ** Loops over the diff *)

Lemma foldl_insert_lookup (l : list (Address * Account)) (m : gmap Address Account) a :
  NoDup l.*1 →
  foldl (λ d e, <[e.1 := e.2]> d) m l !! a =
    match (list_to_map l : gmap Address Account) !! a with
    | Some acc => Some acc
    | None => m !! a
    end.
Proof.
  revert m. induction l as [|[k v] l IH]; intros m Hl; simpl; [done|].
  inversion_clear Hl as [|? ? Hk Hnd]. rewrite IH by done.
  destruct (decide (a = k)) as [->|Hne]; [|by rewrite !lookup_insert_ne by done].
  rewrite not_elem_of_list_to_map_1 by done. by rewrite !lookup_insert_eq.
Qed.

Lemma foldl_delete_lookup (l : list Address) (m : gmap Address Account) a :
  foldl (λ d addr, delete addr d) m l !! a = if decide (a ∈ l) then None else m !! a.
Proof.
  revert m. induction l as [|k l IH]; intros m; simpl; [done|].
  rewrite IH. destruct (decide (a ∈ l)) as [Hin|Hin].
  - by rewrite decide_True by by right.
  - destruct (decide (a = k)) as [->|Hne].
    + rewrite decide_True by left. apply lookup_delete_eq.
    + rewrite lookup_delete_ne by done. rewrite decide_False; [done|].
      by rewrite elem_of_cons; intros [|].
Qed.

Lemma foldl_upserts_lookup (m m' : gmap Address Account) a :
  foldl (λ d e, <[e.1 := e.2]> d) m (btree_iter m') !! a =
    match m' !! a with Some acc => Some acc | None => m !! a end.
Proof.
  rewrite foldl_insert_lookup by apply NoDup_btree_keys.
  by rewrite list_to_map_btree_iter.
Qed.

Lemma foldl_deletes_lookup (m : gmap Address Account) (s : gset Address) a :
  foldl (λ d addr, delete addr d) m (btree_elems s) !! a =
    if decide (a ∈ s) then None else m !! a.
Proof.
  rewrite foldl_delete_lookup.
  destruct (decide (a ∈ s)), (decide (a ∈ btree_elems s)) as [Hin|Hin];
    rewrite elem_of_btree_elems in Hin; done.
Qed.

(** ** The two components of a merge *)

Lemma merge_components self newer :
  upserts (merge self newer) =
    foldl (λ d addr, delete addr d)
      (foldl (λ d e, <[e.1 := e.2]> d) (upserts self) (btree_iter (upserts newer)))
      (btree_elems (deletes newer)) ∧
  deletes (merge self newer) = (deletes self ∖ dom (upserts newer)) ∪ deletes newer.
Proof.
  unfold merge. set (step1 := λ d (e : Address * Account), _). set (step2 := λ d addr, _).
  assert (∀ l d, upserts (foldl step1 d l) = foldl (λ d e, <[e.1 := e.2]> d) (upserts d) l ∧
    deletes (foldl step1 d l) = deletes d ∖ list_to_set l.*1) as H1.
  { induction l as [|e l IH]; intros d; simpl; [split; [done|set_solver]|].
    destruct (IH (step1 d e)) as [-> ->]. split; [done|]. simpl. set_solver. }
  assert (∀ l d, upserts (foldl step2 d l) = foldl (λ d a, delete a d) (upserts d) l ∧
    deletes (foldl step2 d l) = deletes d ∪ list_to_set l) as H2.
  { induction l as [|a l IH]; intros d; simpl; [split; [done|set_solver]|].
    destruct (IH (step2 d a)) as [-> ->]. split; [done|]. simpl. set_solver. }
  destruct (H2 (btree_elems (deletes newer)) (foldl step1 self (btree_iter (upserts newer))))
    as [-> ->].
  destruct (H1 (btree_iter (upserts newer)) self) as [-> ->]. split; [done|].
  f_equal.
  - f_equal. apply set_eq. intros a. rewrite elem_of_list_to_set, elem_of_dom.
    apply elem_of_btree_keys.
  - apply set_eq. intros a. rewrite elem_of_list_to_set. apply elem_of_btree_elems.
Qed.

Lemma upserts_merge_lookup self newer a :
  upserts (merge self newer) !! a =
    if decide (a ∈ deletes newer) then None
    else match upserts newer !! a with
         | Some acc => Some acc
         | None => upserts self !! a
         end.
Proof.
  destruct (merge_components self newer) as [-> _].
  by rewrite foldl_deletes_lookup, foldl_upserts_lookup.
Qed.

Lemma deletes_merge self newer :
  deletes (merge self newer) = (deletes self ∖ dom (upserts newer)) ∪ deletes newer.
Proof. apply merge_components. Qed.

Lemma diff_eq d1 d2 :
  (∀ a, upserts d1 !! a = upserts d2 !! a) → (∀ a, a ∈ deletes d1 ↔ a ∈ deletes d2) → d1 = d2.
Proof.
  destruct d1, d2; simpl. intros Hu Hd. f_equal; [by apply map_eq | by apply set_eq].
Qed.

Lemma after_merge d1 d2 a before :
  after (merge d1 d2) a before = after d2 a (after d1 a before).
Proof.
  unfold after. rewrite upserts_merge_lookup.
  destruct (decide (a ∈ deletes d2)) as [Hd2|Hd2].
  { rewrite decide_True; [done|]. rewrite deletes_merge. set_solver. }
  destruct (upserts d2 !! a) as [acc|] eqn:Hu2.
  - rewrite decide_False; [done|]. rewrite deletes_merge.
    assert (a ∈ dom (upserts d2)) by (apply elem_of_dom; eauto). set_solver.
  - assert (a ∉ dom (upserts d2)) by by apply not_elem_of_dom.
    destruct (decide (a ∈ deletes d1)).
    + rewrite decide_True; [done|]. rewrite deletes_merge. set_solver.
    + rewrite decide_False; [done|]. rewrite deletes_merge. set_solver.
Qed.

(** ** The stores keep the contract *)

#[global] Instance InMemoryStateStore_laws : StateLaws InMemoryStateStore.
Proof.
  split; [by eexists|]. intros s s' d a [= <-]. simpl.
  by rewrite foldl_deletes_lookup, foldl_upserts_lookup.
Qed.

#[global] Instance StateDiff_laws : StateLaws StateDiff.
Proof. split; [by eexists|]. intros s s' d a [= <-]. apply upserts_merge_lookup. Qed.

(** ** Well-formed diffs *)

Lemma empty_diff_wf : diff_wf empty_diff.
Proof. unfold diff_wf. simpl. set_solver. Qed.

Lemma set_wf d a acc : diff_wf d → diff_wf (set d a acc).2.
Proof. unfold diff_wf, set. simpl. rewrite dom_insert_L. set_solver. Qed.

Lemma remove_wf d a : diff_wf d → diff_wf (remove d a).2.
Proof. unfold diff_wf, remove. simpl. rewrite dom_delete_L. set_solver. Qed.

Lemma merge_wf d1 d2 : diff_wf d1 → diff_wf d2 → diff_wf (merge d1 d2).
Proof.
  unfold diff_wf. intros H1 H2 a [acc Ha]%elem_of_dom Hd.
  rewrite upserts_merge_lookup in Ha. rewrite deletes_merge in Hd.
  destruct (decide (a ∈ deletes d2)); [done|].
  destruct (upserts d2 !! a) eqn:Hu2.
  - assert (a ∈ dom (upserts d2)) by (apply elem_of_dom; eauto). set_solver.
  - assert (a ∈ dom (upserts d1)) by (apply elem_of_dom; eauto). set_solver.
Qed.

Lemma merge_empty_l_wf d : diff_wf (merge empty_diff d).
Proof.
  unfold diff_wf. intros a [acc Ha]%elem_of_dom Hd.
  rewrite upserts_merge_lookup in Ha. rewrite deletes_merge in Hd. simpl in *.
  destruct (decide (a ∈ deletes d)); [done|]. set_solver.
Qed.

#[export] Hint Resolve empty_diff_wf set_wf remove_wf merge_wf : diff.

(** ** Theorems *)

(** C23: on every store that keeps the contract of [State], applying the merge
    of two diffs is the same as applying them one after the other: no lookup
    tells the two resulting stores apart. *)
Theorem apply_merge `{StateLaws St} (s s1 s2 s12 : St) d1 d2 :
  apply s d1 = Some s1 → apply s1 d2 = Some s2 → apply s (merge d1 d2) = Some s12 →
  ∀ a, get s12 a = get s2 a.
Proof.
  intros H1 H2 H12 a.
  by rewrite (get_apply _ _ _ _ H12), (get_apply _ _ _ _ H2), (get_apply _ _ _ _ H1), after_merge.
Qed.

Definition example_account : Account :=
  mkAccount (bstr "x") (Id (mkPredicate (CodeInline (bstr "c")) [])).
Definition example_diff : StateDiff :=
  (set empty_diff (mkAddress (str "/a")) example_account).2.
Definition example_removal : StateDiff :=
  (remove empty_diff (mkAddress (str "/a"))).2.

Lemma apply_merge_witness :
  let s := mkStore ∅ in let a := mkAddress (str "/a") in
  get (store_apply s (merge example_diff example_removal)) a =
    get (store_apply (store_apply s example_diff) example_removal) a.
Proof.
  intros s a. apply (apply_merge s (store_apply s example_diff) _ _ example_diff example_removal);
    reflexivity.
Defined.

(** Merging is associative and the empty diff is its unit (on the left for
    diffs that do not both write and delete an address, which every diff built
    with [set], [remove] and [merge] satisfies), so that the diffs of a block
    can be merged in any grouping. *)
Theorem merge_monoid :
  (∀ d1 d2 d3, merge (merge d1 d2) d3 = merge d1 (merge d2 d3)) ∧
  (∀ d, merge d empty_diff = d) ∧
  (∀ d, merge empty_diff d = d ↔ diff_wf d).
Proof.
  split; [|split].
  - intros d1 d2 d3. apply diff_eq; intros a.
    + rewrite !upserts_merge_lookup, deletes_merge.
      destruct (decide (a ∈ deletes d3)) as [Hd3|Hd3].
      { by rewrite decide_True by set_solver. }
      destruct (upserts d3 !! a) as [acc|] eqn:Hu3.
      * assert (a ∈ dom (upserts d3)) by (apply elem_of_dom; eauto).
        by rewrite decide_False by set_solver.
      * assert (a ∉ dom (upserts d3)) by by apply not_elem_of_dom.
        by destruct (decide (a ∈ deletes d2));
          [rewrite decide_True by set_solver | rewrite decide_False by set_solver].
    + rewrite !deletes_merge.
      assert (a ∈ dom (upserts (merge d2 d3)) ↔
        a ∉ deletes d3 ∧ (a ∈ dom (upserts d3) ∨ a ∉ deletes d3 ∧ a ∈ dom (upserts d2))) as Hdom.
      { rewrite !elem_of_dom, upserts_merge_lookup.
        destruct (decide (a ∈ deletes d3)), (upserts d3 !! a); naive_solver. }
      rewrite !elem_of_union, !elem_of_difference, Hdom, elem_of_union, elem_of_difference.
      destruct (decide (a ∈ deletes d3)); tauto.
  - intros d. apply diff_eq; intros a.
    + rewrite upserts_merge_lookup. simpl. by rewrite lookup_empty.
    + rewrite deletes_merge. simpl. rewrite dom_empty_L. set_solver.
  - intros d. split.
    + intros Heq. rewrite <-Heq. apply merge_empty_l_wf.
    + intros Hwf. apply diff_eq; intros a.
      * rewrite upserts_merge_lookup. simpl. rewrite lookup_empty.
        destruct (decide (a ∈ deletes d)).
        -- symmetry. apply not_elem_of_dom. set_solver.
        -- by destruct (upserts d !! a).
      * rewrite deletes_merge. simpl. set_solver.
Qed.

(** Reading through an overlay.  Where the overlaid diff does not delete
    the address, the view agrees with applying the diff to the base.  Where it
    does, the view still shows the account of the base, although applying the
    diff removes it: [Overlayed::get] cannot see a deletion. *)
Theorem overlay_get `{StateLaws St} (s s' : St) (d : StateDiff) a :
  apply s d = Some s' → diff_wf d →
  let view := mkOverlayed (Dyn s) (Dyn d) in
  (a ∉ deletes d → get view a = get s' a) ∧
  (a ∈ deletes d → get view a = get s a ∧ get s' a = None).
Proof.
  intros Happ Hwf view. rewrite (get_apply _ _ _ _ Happ). simpl. unfold dyn_get, after. simpl.
  split; intros Ha.
  - by rewrite decide_False.
  - rewrite decide_True by done. split; [|done].
    assert (upserts d !! a = None) as ->; [|done]. apply not_elem_of_dom. set_solver.
Qed.

Lemma overlay_get_witness :
  let s := store_apply (mkStore ∅) example_diff in
  get (mkOverlayed (Dyn s) (Dyn example_removal)) (mkAddress (str "/a")) = Some example_account ∧
  get (store_apply s example_removal) (mkAddress (str "/a")) = None.
Proof.
  intros s.
  destruct (overlay_get s (store_apply s example_removal) example_removal (mkAddress (str "/a")))
    as [_ Hdel]; [done | apply remove_wf, empty_diff_wf |].
  destruct Hdel as [-> ->]; [|split; by vm_compute].
  apply (bool_decide_unpack _). by vm_compute.
Defined.

Lemma elem_of_iter_some d a acc : (a, Some acc) ∈ iter d ↔ upserts d !! a = Some acc.
Proof.
  unfold iter. rewrite elem_of_app, !list_elem_of_fmap. split.
  - intros [([a' acc'] & [= -> ->] & Hin) | (? & [=] & _)]. by apply elem_of_btree_iter.
  - intros Ha. left. exists (a, acc). by rewrite elem_of_btree_iter.
Qed.

(** [iter] lists exactly the changes of the diff, writes before deletions,
    each in the order of the addresses, and every address once precisely when
    the diff is well-formed. *)
Theorem iter_spec d :
  (∀ a acc, (a, Some acc) ∈ iter d ↔ upserts d !! a = Some acc) ∧
  (∀ a, (a, None) ∈ iter d ↔ a ∈ deletes d) ∧
  (NoDup (iter d).*1 ↔ diff_wf d) ∧
  (∃ ws ds, iter d = ws ++ ds ∧ Forall (λ e, is_Some e.2) ws ∧ Forall (λ e, e.2 = None) ds ∧
    StronglySorted key_le ws.*1 ∧ StronglySorted key_le ds.*1).
Proof.
  split; [apply elem_of_iter_some|]. unfold iter. split; [|split].
  - intros a. rewrite elem_of_app, !list_elem_of_fmap. split.
    + intros [([? ?] & [=] & _) | (a' & [= ->] & Hin)]. by apply elem_of_btree_elems.
    + intros Ha. right. exists a. by rewrite elem_of_btree_elems.
  - rewrite fmap_app, <-!list_fmap_compose. unfold compose. simpl.
    rewrite list_fmap_id. fold (btree_keys (upserts d)).
    rewrite NoDup_app. unfold diff_wf. split.
    + intros (_ & Hdisj & _) a Ha Hd. apply (Hdisj a).
      * by apply elem_of_btree_keys, elem_of_dom.
      * by apply elem_of_btree_elems.
    + intros Hwf. split; [apply NoDup_btree_keys|]. split; [|apply NoDup_btree_elems].
      intros a Ha%elem_of_btree_keys%elem_of_dom Hd%elem_of_btree_elems. by apply (Hwf a).
  - eexists _, _. split; [done|]. split; [apply Forall_fmap, Forall_true; by eexists|].
    split; [by apply Forall_fmap, Forall_true|].
    rewrite <-!list_fmap_compose. unfold compose. simpl. rewrite list_fmap_id.
    split; [exact (btree_keys_sorted (upserts d)) | exact (btree_elems_sorted (deletes d))].
Qed.
