(* ===== verification/Extern.v ===== *)
(** What the program uses of third-party crates.

    Each class is the interface of one of them, with the documented behaviour
    the theorems rely on as its laws; nothing here models code of the
    repository.  [Sandbox] gives concrete functions for all of them, on which
    the witnesses are evaluated. *)
From Stdlib Require QArith.
From stdpp Require Import relations.
From S2P Require Import Prelude Address.

(** [multihash]: the type of hashes, its order, its bytes, the hash of a byte
    string with SHA3-256 ([Sha3_256::update], [finalize] and [wrap], or
    [Code::Sha3_256.digest]) and [Multihash::default()]. *)
Class MultihashCrate := {
  Multihash : Type;
  Multihash_eq_dec :: EqDecision Multihash;
  Multihash_countable :: Countable Multihash;
  Multihash_key :: BTreeKey Multihash;
  to_bytes : Multihash → bytes;
  default_multihash : Multihash;
  sha3_256 : bytes → Multihash;
}.

(** A multihash starts with the code of its function, so it has bytes. *)
Class MultihashLaws `{!MultihashCrate} := {
  to_bytes_sha3 : ∀ b, to_bytes (sha3_256 b) ≠ [];
}.

(** [rmp_serde] at the type [A]: [to_vec] and [from_slice].  Serialising the
    types of this program into a [Vec] cannot fail (every length is known and
    every map key is a string or a byte string), so [to_vec] is total. *)
Class Rmp (A : Type) := {
  to_vec : A → bytes;
  from_slice : bytes → option A;
}.

(** What serde derives for both directions: decoding an encoding gives back the
    value. *)
Class RmpLaws (A : Type) `{Rmp A} := {
  from_slice_to_vec : ∀ x : A, from_slice (to_vec x) = Some x;
}.

(** [bs58::encode(_).into_string()]: the digits are letters and figures, and
    there is one at least for a byte string that is not empty. *)
Class Bs58Crate := { bs58_encode : bytes → rstring }.
Class Bs58Laws `{!Bs58Crate} := {
  bs58_alphabet : ∀ b, Forall (λ c, is_ascii_alphanumeric c = true) (bs58_encode b);
  bs58_nonempty : ∀ b, b ≠ [] → bs58_encode b ≠ [];
}.

(** [ed25519_dalek]: public keys, signatures and their verification. *)
Class Ed25519 := {
  PublicKey : Type;
  public_key_from_bytes : bytes → option PublicKey;
  public_key_as_bytes : PublicKey → bytes;
  Signature : Type;
  signature_from_bytes : bytes → option Signature;
  verify : PublicKey → bytes → Signature → bool;
}.

(** [Keypair] and [Signer::sign]; both formats can be read back, and a signature
    verifies for the message that was signed. *)
Class Ed25519Signing `{!Ed25519} := {
  Keypair : Type;
  keypair_public : Keypair → PublicKey;
  sign : Keypair → bytes → Signature;
  signature_to_bytes : Signature → bytes;
}.
Class Ed25519SigningLaws `{!Ed25519, !Ed25519Signing} := {
  public_key_from_as_bytes : ∀ pk, public_key_from_bytes (public_key_as_bytes pk) = Some pk;
  signature_from_to_bytes : ∀ s, signature_from_bytes (signature_to_bytes s) = Some s;
  verify_sign : ∀ kp m, verify (keypair_public kp) m (sign kp m) = true;
}.

(** [rayon]: which of the runnable tasks takes the next step at a given time, and
    where a parallel reduction splits the range of items that starts at an index
    and has a length.  Nothing is assumed of either: a theorem that holds for
    every instance holds for every schedule and every grouping. *)
Class Rayon := {
  pick : nat → list nat → nat;
  split_range : nat → nat → nat;
}.

(** [wasmer], as far as [invoke] uses it: the types of its objects and errors,
    and its operations on a store. *)
Inductive FnType :=
| AllocateFn  (** [u32 -> WasmPtr<u8>] *)
| IngestFn    (** [(WasmPtr<u8>, u32) -> WasmPtr<u8>] *)
| EntryFn.    (** [(WasmPtr<u8>, WasmPtr<u8>) -> u32] *)

Class Wasmer := {
  WStore : Type; WModule : Type; WMemory : Type; WEnv : Type; WExtern : Type;
  WInstance : Type; WFunction : Type;
  MemoryError : Type; CompileError : Type; InstantiationError : Type; ExportError : Type;
  RuntimeError : Type; MemoryAccessError : Type;
  EncodeError : Type;  (** [rmp_serde::encode::Error] *)
  store_new : WStore;
  module_deserialize : WStore → bytes → option WModule;
  module_from_binary : WStore → bytes → Result WModule CompileError;
  memory_new : WStore → N → Result (WMemory * WStore) MemoryError;
  function_env_new : WStore → WMemory → WEnv * WStore;
  memory_extern : WMemory → WExtern;
  host_function : WStore → WEnv → WExtern * WStore;
  instance_new : WStore → WModule → list (rstring * rstring * WExtern) →
    Result (WInstance * WStore) InstantiationError;
  get_typed_function : WStore → WInstance → FnType → rstring → Result WFunction ExportError;
  fn_call : WStore → WFunction → list Z → Result (Z * WStore) RuntimeError;
  view_write : WStore → WMemory → Z → bytes → Result WStore MemoryAccessError;
  runtime_of_access : MemoryAccessError → RuntimeError;
}.

(** [Module::serialize]: the bytes that [Module::deserialize] takes. *)
Class WasmerSerialize `{!Wasmer} := {
  SerializeError : Type;
  module_serialize : WModule → Result bytes SerializeError;
}.

(** What [serialize] wrote is read back as the same module, if it is read. *)
Class WasmerSerializeLaws `{!Wasmer, !WasmerSerialize} := {
  deserialize_serialize : ∀ m b m',
    module_serialize m = Ok b → module_deserialize store_new b = Some m' → m' = m;
}.

(** [petgraph]: directed graphs whose nodes are numbered in the order in which
    they are added, and disjoint sets.  The order in which neighbours are listed
    is left open. *)
Class Petgraph := {
  DiGraph : Type;
  graph_new : DiGraph;
  add_node : DiGraph → nat * DiGraph;
  add_edge : DiGraph → nat → nat → DiGraph;
  node_bound : DiGraph → nat;
  edge_references : DiGraph → list (nat * nat);
  neighbors : DiGraph → nat → list nat;
  incoming_sources : DiGraph → nat → list nat;  (** sources of [edges_directed(_, Incoming)] *)
  UnionFind : Type;
  union_find_new : nat → UnionFind;
  uf_union : UnionFind → nat → nat → UnionFind;
  into_labeling : UnionFind → list nat;
}.

(** Two nodes are connected when a path of edges, taken either way, joins them. *)
Definition connected (edges : list (nat * nat)) : relation nat :=
  rtsc (λ i j, (i, j) ∈ edges).

Class PetgraphLaws `{!Petgraph} := {
  node_bound_new : node_bound graph_new = 0;
  edges_new : edge_references graph_new = [];
  add_node_index : ∀ g, (add_node g).1 = node_bound g;
  add_node_bound : ∀ g, node_bound (add_node g).2 = S (node_bound g);
  add_node_edges : ∀ g, edge_references (add_node g).2 = edge_references g;
  add_edge_bound : ∀ g a b, node_bound (add_edge g a b) = node_bound g;
  add_edge_edges : ∀ g a b, edge_references (add_edge g a b) ≡ₚ (a, b) :: edge_references g;
  neighbors_edges : ∀ g n,
    neighbors g n ≡ₚ (filter (λ e, e.1 = n) (edge_references g)).*2;
  incoming_edges : ∀ g n,
    incoming_sources g n ≡ₚ (filter (λ e, e.2 = n) (edge_references g)).*1;
  labeling_sets : ∀ n es,
    Forall (λ e, e.1 < n ∧ e.2 < n) es →
    let labels := into_labeling (foldl (λ u e, uf_union u e.1 e.2) (union_find_new n) es) in
    length labels = n ∧
    (∀ i l, labels !! i = Some l → l < n ∧ connected es i l) ∧
    (∀ i j l, labels !! i = Some l → connected es i j → j < n → labels !! j = Some l);
}.

(** [libp2p]: the identities of peers and connections, and addresses as sequences
    of protocols ([Multiaddr::iter]), of which only IP addresses and ports matter here,
    and the two ends of a connection. *)
Inductive Protocol := Ip4 (addr : N) | Ip6 (addr : N) | Tcp (port : Z) | OtherProtocol.
#[global] Instance Protocol_eq_dec : EqDecision Protocol.
Proof. solve_decision. Defined.
#[global] Instance Protocol_countable : Countable Protocol.
Proof.
  refine (inj_countable'
    (λ p, match p with Ip4 a => inl (inl a) | Ip6 a => inl (inr a) | Tcp n => inr (inl n)
          | OtherProtocol => inr (inr tt) end)
    (λ s, match s with inl (inl a) => Ip4 a | inl (inr a) => Ip6 a | inr (inl n) => Tcp n
          | inr (inr _) => OtherProtocol end) _).
  by intros [].
Defined.

Class Libp2p := {
  PeerId : Type;
  PeerId_eq_dec :: EqDecision PeerId;
  PeerId_countable :: Countable PeerId;
  ConnectionId : Type;
  ConnectionId_eq_dec :: EqDecision ConnectionId;
  ConnectionId_countable :: Countable ConnectionId;
  Multiaddr : Type;
  Multiaddr_eq_dec :: EqDecision Multiaddr;
  Multiaddr_countable :: Countable Multiaddr;
  protocols : Multiaddr → list Protocol;
  ConnectedPoint : Type;
  is_dialer : ConnectedPoint → bool;
  get_remote_address : ConnectedPoint → Multiaddr;
}.

(** Building addresses: [Multiaddr::empty] and [push]. *)
Class MultiaddrBuild `{!Libp2p} := {
  multiaddr_empty : Multiaddr;
  multiaddr_push : Multiaddr → Protocol → Multiaddr;
}.
Class MultiaddrBuildLaws `{!Libp2p, !MultiaddrBuild} := {
  protocols_empty : protocols multiaddr_empty = [];
  protocols_push : ∀ a p, protocols (multiaddr_push a p) = protocols a ++ [p];
}.

(** [rand]: the [draw]-th use of a generator.  [choose] picks an index below the
    number of items, [choose_multiple] as many distinct ones as asked for, or all
    there are; a sample of [Standard] at [f32] is a number from 0 to 1. *)
Class Rand := {
  choose_index : nat → nat → nat;
  choose_indices : nat → nat → nat → list nat;
  toss : nat → QArith_base.Q;
}.
Class RandLaws `{!Rand} := {
  choose_index_lt : ∀ draw n, 0 < n → choose_index draw n < n;
  choose_indices_NoDup : ∀ draw n amount, NoDup (choose_indices draw n amount);
  choose_indices_lt : ∀ draw n amount i, i ∈ choose_indices draw n amount → i < n;
  choose_indices_length : ∀ draw n amount, length (choose_indices draw n amount) = min amount n;
}.

Definition choose `{!Rand} {A} (draw : nat) (l : list A) : option A :=
  l !! choose_index draw (length l).
Definition choose_multiple `{!Rand} {A} (draw : nat) (l : list A) (amount : nat) : list A :=
  omap (l !!.) (choose_indices draw (length l) amount).

Lemma choose_Some `{!Rand, !RandLaws} {A} draw (l : list A) : l ≠ [] → ∃ x, choose draw l = Some x ∧ x ∈ l.
Proof.
  intros Hl. unfold choose. destruct (lookup_lt_is_Some_2 l (choose_index draw (length l))) as [x Hx].
  - apply choose_index_lt. by destruct l; [|simpl; lia].
  - exists x. split; [done|]. by eapply list_elem_of_lookup_2.
Qed.

Lemma elem_of_choose_multiple `{!Rand} {A} draw (l : list A) amount x :
  x ∈ choose_multiple draw l amount → x ∈ l.
Proof. intros (i & _ & Hi)%list_elem_of_omap. by eapply list_elem_of_lookup_2. Qed.

Lemma length_choose_multiple `{!Rand, !RandLaws} {A} draw (l : list A) amount :
  length (choose_multiple draw l amount) = min amount (length l).
Proof.
  unfold choose_multiple. rewrite <-(choose_indices_length draw (length l) amount).
  pose proof (choose_indices_lt draw (length l) amount) as Hlt.
  induction (choose_indices draw (length l) amount) as [|i ixs IH]; simpl; [done|].
  destruct (lookup_lt_is_Some_2 l i) as [x Hx]; [apply Hlt; by left|]. rewrite Hx. simpl. f_equal.
  apply IH. intros j Hj. apply Hlt. by right.
Qed.

(** ** Unsigned 64-bit integers

    A [u64] is a [Z] in range; [from_slice] at [u64] yields integers in range.
    Addition and subtraction either wrap around (the release profile, where
    overflow checks are off) or panic (the debug profile). *)

Definition u64_modulus : Z := 2 ^ 64.
Definition u64_max : Z := 18446744073709551615.
Definition is_u64 (x : Z) : Prop := (0 ≤ x ≤ u64_max)%Z.

(** Whether the build checks arithmetic for overflow. *)
Inductive Profile := Release | Debug.

Definition u64_add (p : Profile) (x y : Z) : option Z :=
  if (x + y <=? u64_max)%Z then Some (x + y)%Z
  else match p with
       | Release => Some ((x + y) mod u64_modulus)%Z
       | Debug => None
       end.

Definition u64_sub (p : Profile) (x y : Z) : option Z :=
  if (y <=? x)%Z then Some (x - y)%Z
  else match p with
       | Release => Some ((x - y) mod u64_modulus)%Z
       | Debug => None
       end.

(** [u64::saturating_sub] *)
Definition u64_saturating_sub (x y : Z) : Z := Z.max 0 (x - y).

(** [rmp_serde] at [u64], as a separate class since the type is a range of [Z]. *)
Class RmpU64 := {
  u64_to_vec : Z → bytes;
  u64_from_slice : bytes → option Z;
  u64_from_slice_range : ∀ b x, u64_from_slice b = Some x → is_u64 x;
  u64_from_slice_to_vec : ∀ x, is_u64 x → u64_from_slice (u64_to_vec x) = Some x;
  u64_from_slice_nil : u64_from_slice [] = None;
}.

Lemma u64_modulus_max : u64_modulus = (u64_max + 1)%Z.
Proof. done. Qed.

Lemma u64_add_range p x y z : is_u64 x → is_u64 y → u64_add p x y = Some z → is_u64 z.
Proof.
  unfold u64_add, is_u64. intros Hx Hy. destruct (Z.leb_spec (x + y) u64_max).
  - intros [= <-]. lia.
  - destruct p; [|done]. intros [= <-].
    pose proof (Z.mod_pos_bound (x + y) u64_modulus). rewrite u64_modulus_max in *.
    unfold u64_max in *. lia.
Qed.

Lemma u64_add_debug x y z : u64_add Debug x y = Some z → z = (x + y)%Z.
Proof. unfold u64_add. by destruct (x + y <=? u64_max)%Z; intros [= <-]. Qed.

Lemma u64_sub_debug x y z : u64_sub Debug x y = Some z → z = (x - y)%Z ∧ (y ≤ x)%Z.
Proof. unfold u64_sub. destruct (Z.leb_spec y x); [by intros [= <-]|done]. Qed.
