(* ===== verification/Chain.v ===== *)
(** Intents, transactions and blocks: [primitives/src/intent.rs],
    [primitives/src/transaction.rs], [primitives/src/block.rs].

    Each carries a [OnceCell] that caches its hash.  The cell is part of the
    record, and a method that fills it returns the object with the cell filled:
    the interior mutation of [&self] is explicit.  [#[serde(skip)]] keeps the cell
    out of the serialised form, so what is serialised is the content of the
    object, and a decoded object has an empty cell. *)
From S2P Require Import Prelude Address Predicate Extern.

(** [OnceCell::get_or_init]: the value and the cell afterwards. *)
Definition get_or_init {A} (cell : option A) (f : A) : A * option A :=
  match cell with
  | Some v => (v, cell)
  | None => (f, Some f)
  end.

Section chain.
Context `{!MultihashCrate}.

(** [pub struct Intent<R>] *)
Record Intent (R : Repr) := mkIntent {
  recent_blockhash : Multihash;
  expectations : PredicateTree R;
  calldata : Calldata;
  intent_cache : option Multihash;
}.

(** What serde sees of an intent. *)
Definition IntentContent (R : Repr) : Type := Multihash * PredicateTree R * Calldata.
Definition intent_content {R} (self : Intent R) : IntentContent R :=
  (recent_blockhash R self, expectations R self, calldata R self).

(** [Intent::new], [Intent::with_calldata] *)
Definition intent_new {R} (recent_blockhash : Multihash) (expectations : PredicateTree R) :
    Intent R :=
  mkIntent R recent_blockhash expectations ∅ None.
Definition with_calldata {R} (recent_blockhash : Multihash) (expectations : PredicateTree R)
    (calldata : Calldata) : Intent R :=
  mkIntent R recent_blockhash expectations calldata None.

(** The derived [Serialize] and [Deserialize]. *)
Definition intent_to_vec {R} `{Rmp (IntentContent R)} (self : Intent R) : bytes :=
  to_vec (intent_content self).
Definition intent_of_content {R} (c : IntentContent R) : Intent R :=
  let '(h, e, c) := c in mkIntent R h e c None.
Definition intent_from_slice {R} `{Rmp (IntentContent R)} (b : bytes) : option (Intent R) :=
  intent_of_content <$> from_slice b.

Definition with_intent_cache {R} (self : Intent R) (c : option Multihash) : Intent R :=
  mkIntent R (recent_blockhash R self) (expectations R self) (calldata R self) c.

(** [Intent::hash] *)
Definition intent_hash {R} `{Rmp (IntentContent R)} (self : Intent R) : Multihash * Intent R :=
  let '(h, c) := get_or_init (intent_cache R self) (sha3_256 (intent_to_vec self)) in
  (h, with_intent_cache self c).

(** [Intent::signing_hash]: the hasher is fed the two encodings in turn. *)
Definition signing_hash {R} `{Rmp Multihash, Rmp (PredicateTree R)} (self : Intent R) :
    Multihash * Intent R :=
  let '(h, c) := get_or_init (intent_cache R self)
    (sha3_256 (to_vec (recent_blockhash R self) ++ to_vec (expectations R self))) in
  (h, with_intent_cache self c).

(** [self.calldata.insert(key, value)]: the field is public. *)
Definition calldata_insert {R} (self : Intent R) (key : rstring) (value : bytes) : Intent R :=
  mkIntent R (recent_blockhash R self) (expectations R self)
    (<[key := value]> (calldata R self)) (intent_cache R self).

(** [pub struct Transaction<R>] *)
Record Transaction (R : Repr) := mkTransaction {
  intents : list (Intent R);
  proposals : gmap Address (rAccountChange R);
  tx_cache : option Multihash;
}.

Definition TxContent (R : Repr) : Type :=
  list (IntentContent R) * gmap Address (rAccountChange R).
Definition tx_content {R} (self : Transaction R) : TxContent R :=
  (intent_content <$> intents R self, proposals R self).

Definition tx_of_content {R} (c : TxContent R) : Transaction R :=
  mkTransaction R (intent_of_content <$> c.1) c.2 None.
Definition tx_to_vec {R} `{Rmp (TxContent R)} (self : Transaction R) : bytes :=
  to_vec (tx_content self).
Definition tx_from_slice {R} `{Rmp (TxContent R)} (b : bytes) : option (Transaction R) :=
  tx_of_content <$> from_slice b.

(** [Transaction::new] *)
Definition transaction_new {R} (intents : list (Intent R))
    (proposals : gmap Address (rAccountChange R)) : Transaction R :=
  mkTransaction R intents proposals None.

(** [Transaction::hash] *)
Definition tx_hash {R} `{Rmp (TxContent R)} (self : Transaction R) :
    Multihash * Transaction R :=
  let '(h, c) := get_or_init (tx_cache R self) (sha3_256 (to_vec (tx_content self))) in
  (h, mkTransaction R (intents R self) (proposals R self) c).

(** [<Transaction as PartialEq>::eq] compares the hashes. *)
Definition tx_eq {R} `{Rmp (TxContent R)} (self other : Transaction R) : bool :=
  bool_decide ((tx_hash self).1 = (tx_hash other).1).

(** [pub struct Block] *)
Record Block := mkBlock {
  height : Z;
  parent : Multihash;
  transactions : list (Transaction Basic);
  block_cache : option Multihash;
}.

Definition BlockContent : Type := Z * Multihash * list (TxContent Basic).
Definition block_content (self : Block) : BlockContent :=
  (height self, parent self, tx_content <$> transactions self).
Definition block_of_content (c : BlockContent) : Block :=
  let '(h, p, txs) := c in mkBlock h p (tx_of_content <$> txs) None.
Definition block_to_vec `{Rmp BlockContent} (self : Block) : bytes := to_vec (block_content self).
Definition block_from_slice `{Rmp BlockContent} (b : bytes) : option Block :=
  block_of_content <$> from_slice b.

(** [Block::hash] *)
Definition block_hash `{Rmp BlockContent} (self : Block) : Multihash * Block :=
  let '(h, c) := get_or_init (block_cache self) (sha3_256 (to_vec (block_content self))) in
  (h, mkBlock (height self) (parent self) (transactions self) c).

(** [Block::new]: [parent.height + 1] is checked for overflow in the debug
    profile only. *)
Definition block_new `{Rmp BlockContent} (prof : Profile) (parent : Block)
    (txs : list (Transaction Basic)) : option Block :=
  (λ h, mkBlock h (block_hash parent).1 txs None) <$> u64_add prof (height parent) 1.

(** [Block::zero] *)
Definition block_zero : Block := mkBlock 0 default_multihash [] None.
End chain.

Arguments mkIntent {_ R}.
Arguments recent_blockhash {_ R} _.
Arguments expectations {_ R} _.
Arguments calldata {_ R} _.
Arguments intent_cache {_ R} _.
Arguments mkTransaction {_ R}.
Arguments intents {_ R} _.
Arguments proposals {_ R} _.
Arguments tx_cache {_ R} _.

Lemma get_or_init_value {A} (cell : option A) f :
  (get_or_init cell f).1 = default f cell ∧ (get_or_init cell f).2 = Some (get_or_init cell f).1.
Proof. by destruct cell. Qed.

(** Decoding gives back the content, with an empty cell. *)
Lemma intent_decode `{!MultihashCrate} {R} `{!Rmp (IntentContent R), !RmpLaws (IntentContent R)}
    (i : Intent R) : intent_from_slice (intent_to_vec i) = Some (with_intent_cache i None).
Proof. unfold intent_from_slice, intent_to_vec. by rewrite from_slice_to_vec. Qed.

Lemma tx_of_content_content `{!MultihashCrate} {R} (c : TxContent R) :
  tx_content (tx_of_content c) = c.
Proof.
  destruct c as [cs ps]. unfold tx_content, tx_of_content. simpl. f_equal.
  induction cs as [|[[h e] cd] cs IH]; [done|]. rewrite !fmap_cons. by f_equal.
Qed.

(** An object as decoding makes it: no cell, at any depth, is filled. *)
Definition tx_fresh `{!MultihashCrate} {R} (tx : Transaction R) : Prop :=
  tx_of_content (tx_content tx) = tx.

Lemma tx_decoded_fresh `{!MultihashCrate} {R} `{!Rmp (TxContent R)} b (tx : Transaction R) :
  tx_from_slice b = Some tx → tx_fresh tx.
Proof.
  unfold tx_from_slice. intros (c & _ & ->)%fmap_Some. unfold tx_fresh.
  by rewrite tx_of_content_content.
Qed.

Lemma tx_decode `{!MultihashCrate} {R} `{!Rmp (TxContent R), !RmpLaws (TxContent R)}
    (tx : Transaction R) :
  tx_from_slice (tx_to_vec tx) = Some (tx_of_content (tx_content tx)).
Proof. unfold tx_from_slice, tx_to_vec. by rewrite from_slice_to_vec. Qed.

(** A block of fresh transactions arrives as it was sent, but for its own cell. *)
Lemma block_decode `{!MultihashCrate, !Rmp BlockContent, !RmpLaws BlockContent} (b : Block) :
  Forall tx_fresh (transactions b) →
  block_from_slice (block_to_vec b) = Some (mkBlock (height b) (parent b) (transactions b) None).
Proof.
  intros Hf. unfold block_from_slice, block_to_vec. rewrite from_slice_to_vec. simpl. do 2 f_equal.
  induction Hf as [|tx txs Htx _ IH]; [done|]. rewrite !fmap_cons. by f_equal.
Qed.

Section hashing.
Context `{!MultihashCrate, !Rmp (IntentContent Basic), !Rmp (TxContent Basic), !Rmp BlockContent}.

(** A block whose cell is empty or right: every block [Block::new] and decoding
    make, hashed or not. *)
Definition block_cache_ok (b : Block) : Prop :=
  block_cache b = None ∨ block_cache b = Some (sha3_256 (to_vec (block_content b))).

Lemma block_hash_ok b :
  block_cache_ok b → (block_hash b).1 = sha3_256 (to_vec (block_content b)) ∧
    block_cache_ok (block_hash b).2.
Proof. unfold block_cache_ok, block_hash. intros [-> | ->]; simpl; auto. Qed.

Lemma block_hash_content b : block_content (block_hash b).2 = block_content b.
Proof. unfold block_hash. by destruct (get_or_init _ _). Qed.

Lemma tx_hash_content (tx : Transaction Basic) : tx_content (tx_hash tx).2 = tx_content tx.
Proof. unfold tx_hash. by destruct (get_or_init _ _). Qed.
End hashing.
