(* ===== verification/Sandbox.v ===== *)
(** Concrete functions for the third-party crates of [Extern], on which the
    witnesses are evaluated: the hash of a byte string is that string
    after the code of the hash function, a value is
    serialised as the bits of its code, and base 58 is replaced by one letter
    per half byte.  They satisfy every law of [Extern]; no theorem depends on
    them. *)
From S2P Require Import Prelude Address Predicate Extern Chain.
From stdpp Require Import countable relations.
From Stdlib Require Strings.Byte QArith.

(** ** Serialisation of countable types *)

Fixpoint pos_bytes (p : positive) : bytes :=
  match p with
  | xH => []
  | xO p => Byte.x00 :: pos_bytes p
  | xI p => Byte.x01 :: pos_bytes p
  end.

Fixpoint bytes_pos (b : bytes) : positive :=
  match b with
  | [] => xH
  | Byte.x01 :: b => xI (bytes_pos b)
  | _ :: b => xO (bytes_pos b)
  end.

Lemma bytes_pos_bytes p : bytes_pos (pos_bytes p) = p.
Proof. induction p; simpl; congruence. Qed.

Definition rmp_countable (A : Type) `{Countable A} : Rmp A :=
  {| to_vec x := pos_bytes (encode x); from_slice b := decode (bytes_pos b) |}.

Lemma rmp_countable_laws (A : Type) `{Countable A} : @RmpLaws A (rmp_countable A).
Proof. split. intros x. simpl. by rewrite bytes_pos_bytes, decode_encode. Qed.

(** An integer is a marker and its bits. *)
#[global] Instance sandbox_u64 : RmpU64.
Proof.
  refine {| u64_to_vec x := Byte.xcf :: pos_bytes (encode x);
            u64_from_slice b :=
              match b with
              | Byte.xcf :: b =>
                  x ← decode (bytes_pos b);
                  if decide (0 ≤ x ≤ u64_max)%Z then Some x else None
              | _ => None
              end |}.
  - intros [|[] b] x Hx; try done. destruct (decode (bytes_pos b)) as [y|]; [|done]. simpl in Hx.
    case_decide; simplify_eq. done.
  - intros x Hx. cbv beta iota. rewrite bytes_pos_bytes, decode_encode. simpl. by rewrite decide_True.
  - done.
Defined.

(** ** The data of the program is countable *)

#[global] Instance Param_countable : Countable Param.
Proof.
  refine (inj_countable'
    (λ p, match p with
          | Inline v => inl (inl v) | AccountRef a => inl (inr a)
          | ProposalRef a => inr (inl a) | CalldataRef k => inr (inr k) end)
    (λ s, match s with
          | inl (inl v) => Inline v | inl (inr a) => AccountRef a
          | inr (inl a) => ProposalRef a | inr (inr k) => CalldataRef k end) _).
  by intros [].
Defined.

#[global] Instance Code_countable : Countable Code.
Proof.
  refine (inj_countable'
    (λ c, match c with CodeInline w => inl w | CodeAccountRef a e => inr (a, e) end)
    (λ s, match s with inl w => CodeInline w | inr (a, e) => CodeAccountRef a e end) _).
  by intros [].
Defined.

#[global] Instance ExpandedCode_countable : Countable ExpandedCode.
Proof.
  refine (inj_countable' (λ c, (ec_code c, ec_entrypoint c)) (λ '(c, e), mkExpandedCode c e) _).
  by intros [].
Defined.

#[global] Instance Predicate_countable `{Countable C, Countable P} : Countable (Predicate C P).
Proof.
  refine (inj_countable' (λ p, (code p, params p)) (λ '(c, ps), mkPredicate c ps) _).
  by intros [].
Defined.

Fixpoint tree_gen {T} (t : ExpressionTree T) : gen_tree T :=
  match t with
  | Id x => GenLeaf x
  | Not t => GenNode 0 [tree_gen t]
  | And l r => GenNode 1 [tree_gen l; tree_gen r]
  | Or l r => GenNode 2 [tree_gen l; tree_gen r]
  end.

Fixpoint gen_to_tree {T} (g : gen_tree T) : option (ExpressionTree T) :=
  match g with
  | GenLeaf x => Some (Id x)
  | GenNode 0 [t] => Not <$> gen_to_tree t
  | GenNode 1 [l; r] => l ← gen_to_tree l; r ← gen_to_tree r; Some (And l r)
  | GenNode 2 [l; r] => l ← gen_to_tree l; r ← gen_to_tree r; Some (Or l r)
  | _ => None
  end.

#[global] Instance ExpressionTree_countable `{Countable T} : Countable (ExpressionTree T).
Proof.
  refine (inj_countable tree_gen gen_to_tree _).
  intros t. induction t as [x|t IH|l IHl r IHr|l IHl r IHr]; simpl;
    rewrite ?IH, ?IHl; simpl; rewrite ?IHr; done.
Defined.

#[global] Instance Account_countable : Countable Account.
Proof.
  refine (inj_countable' (λ a, (acc_state a, acc_predicates a)) (λ '(s, p), mkAccount s p) _).
  by intros [].
Defined.

#[global] Instance AccountChange_countable : Countable AccountChange.
Proof.
  refine (inj_countable'
    (λ c, match c with
          | CreateAccount a => inl (inl a) | ReplaceState s => inl (inr s)
          | ReplacePredicates p => inr (inl p) | DeleteAccount => inr (inr tt) end)
    (λ s, match s with
          | inl (inl a) => CreateAccount a | inl (inr s) => ReplaceState s
          | inr (inl p) => ReplacePredicates p | inr (inr tt) => DeleteAccount end) _).
  by intros [].
Defined.

#[global] Instance ExpandedAccountChange_countable : Countable ExpandedAccountChange.
Proof.
  refine (inj_countable'
    (λ c, match c with
          | ECreateAccount a => inl (inl a) | EReplaceState s t => inl (inr (s, t))
          | EReplacePredicates p q => inr (inl (p, q)) | EDeleteAccount a => inr (inr a) end)
    (λ s, match s with
          | inl (inl a) => ECreateAccount a | inl (inr (s, t)) => EReplaceState s t
          | inr (inl (p, q)) => EReplacePredicates p q | inr (inr a) => EDeleteAccount a end) _).
  by intros [].
Defined.

#[global] Instance ExpandedParam_countable : Countable ExpandedParam.
Proof.
  refine (inj_countable'
    (λ p, match p with
          | EInline v => inl (inl v) | EAccountRef a v => inl (inr (a, v))
          | EProposalRef a c => inr (inl (a, c)) | ECalldataRef k v => inr (inr (k, v)) end)
    (λ s, match s with
          | inl (inl v) => EInline v | inl (inr (a, v)) => EAccountRef a v
          | inr (inl (a, c)) => EProposalRef a c | inr (inr (k, v)) => ECalldataRef k v end) _).
  by intros [].
Defined.

(** ** Hashes and base 58 *)

#[global] Instance sandbox_multihash : MultihashCrate := {|
  Multihash := bytes;
  to_bytes h := h;
  default_multihash := [];
  sha3_256 b := Byte.x16 :: b;
|}.

#[global] Instance sandbox_multihash_laws : MultihashLaws.
Proof. by split. Qed.

Definition half_byte (n : N) : rchar := (97 + n)%N.

#[global] Instance sandbox_bs58 : Bs58Crate := {|
  bs58_encode b :=
    b ≫= λ x, [half_byte (Byte.to_N x / 16)%N; half_byte (Byte.to_N x mod 16)%N];
|}.

#[global] Instance sandbox_bs58_laws : Bs58Laws.
Proof.
  split.
  - intros b. induction b as [|x b IH]; [constructor|].
    change (bs58_encode (x :: b)) with
      (half_byte (Byte.to_N x / 16)%N :: half_byte (Byte.to_N x mod 16)%N :: bs58_encode b).
    constructor; [by destruct x|]. constructor; [by destruct x | exact IH].
  - by intros [|x b].
Qed.

#[global] Instance sandbox_rmp_multihash : Rmp Multihash := rmp_countable bytes.
#[global] Instance sandbox_rmp_tree : Rmp (PredicateTree Basic) := rmp_countable BasicTree.
#[global] Instance sandbox_rmp_intent : Rmp (IntentContent Basic) :=
  rmp_countable (bytes * BasicTree * Calldata).
#[global] Instance sandbox_rmp_intent_laws : RmpLaws (IntentContent Basic) :=
  rmp_countable_laws (bytes * BasicTree * Calldata).
#[global] Instance sandbox_rmp_tx : Rmp (TxContent Basic) :=
  rmp_countable (list (bytes * BasicTree * Calldata) * gmap Address AccountChange).
#[global] Instance sandbox_rmp_block : Rmp BlockContent :=
  rmp_countable (Z * bytes * list (list (bytes * BasicTree * Calldata) * gmap Address AccountChange)).
#[global] Instance sandbox_rmp_tx_laws : RmpLaws (TxContent Basic) :=
  rmp_countable_laws (list (bytes * BasicTree * Calldata) * gmap Address AccountChange).
#[global] Instance sandbox_rmp_block_laws : RmpLaws BlockContent :=
  rmp_countable_laws
    (Z * bytes * list (list (bytes * BasicTree * Calldata) * gmap Address AccountChange)).

(** An intent, for the examples. *)
Definition example_intent : Intent Basic :=
  intent_new (R := Basic) (bstr "bh") (Id (mkPredicate (CodeInline (bstr "c")) [])).


(** ** A toy WebAssembly runtime

    A module is its code, whose first byte is what its entry point returns; a
    byte from [x03] on traps. *)

#[global] Instance sandbox_wasmer : Wasmer := {|
  WStore := unit; WModule := bytes; WMemory := unit; WEnv := unit; WExtern := unit;
  WInstance := bytes; WFunction := FnType * bytes;
  MemoryError := unit; CompileError := unit; InstantiationError := unit; ExportError := unit;
  RuntimeError := unit; MemoryAccessError := unit; EncodeError := unit;
  store_new := tt;
  module_deserialize _ b := Some b;
  module_from_binary _ b := match b with [] => Err tt | _ => Ok b end;
  memory_new _ _ := Ok (tt, tt);
  function_env_new _ _ := (tt, tt);
  memory_extern _ := tt;
  host_function _ _ := (tt, tt);
  instance_new _ m _ := Ok (m, tt);
  get_typed_function _ i ty _ := Ok (ty, i);
  fn_call _ f _ :=
    match f with
    | (EntryFn, b :: _) => if (Byte.to_N b <? 3)%N then Ok (Z.of_N (Byte.to_N b), tt) else Err tt
    | _ => Ok (0%Z, tt)
    end;
  view_write _ _ _ _ := Ok tt;
  runtime_of_access _ := tt;
|}.

#[global] Instance sandbox_serialize : WasmerSerialize :=
  {| SerializeError := unit; module_serialize m := Ok m |}.
#[global] Instance sandbox_serialize_laws : WasmerSerializeLaws.
Proof. split. by intros m b m' [= <-] [= <-]. Qed.

(** One task after the other, and the other way round. *)
Definition sequential : Rayon := {| pick _ r := default 0 (head r); split_range _ _ := 0 |}.
Definition last_first : Rayon := {| pick _ r := default 0 (head (reverse r)); split_range _ _ := 0 |}.

(** ** A toy graph library *)

Definition toy_union (u : list nat) (a b : nat) : list nat :=
  match u !! a, u !! b with
  | Some la, Some lb => (λ l, if (l =? lb)%nat then la else l) <$> u
  | _, _ => u
  end.

#[global] Instance sandbox_petgraph : Petgraph := {|
  DiGraph := nat * list (nat * nat);
  graph_new := (0, []);
  add_node g := (g.1, (S g.1, g.2));
  add_edge g a b := (g.1, (a, b) :: g.2);
  node_bound g := g.1;
  edge_references g := g.2;
  neighbors g n := (filter (λ e, e.1 = n) g.2).*2;
  incoming_sources g n := (filter (λ e, e.2 = n) g.2).*1;
  UnionFind := list nat;
  union_find_new n := seq 0 n;
  uf_union := toy_union;
  into_labeling u := u;
|}.

Lemma connected_mono es es' i j :
  (∀ e, e ∈ es → e ∈ es') → connected es i j → connected es' i j.
Proof.
  intros Hsub. apply rtc_congruence with (f := id). intros x y [H|H]; [left|right]; by apply Hsub.
Qed.

(** The labels after some unions: labels are in range and connected to what they
    label, and both ends of an edge have the same one. *)
Definition labels_ok (n : nat) (es : list (nat * nat)) (u : list nat) : Prop :=
  length u = n ∧ (∀ i l, u !! i = Some l → l < n ∧ connected es i l) ∧
  ∀ a b, (a, b) ∈ es → u !! a = u !! b.

Lemma toy_union_ok n es u a b :
  a < n → b < n → labels_ok n es u → labels_ok n (es ++ [(a, b)]) (toy_union u a b).
Proof.
  intros Ha Hb (Hlen & Hl & He). unfold toy_union.
  destruct (lookup_lt_is_Some_2 u a) as [la Hla]; [lia|].
  destruct (lookup_lt_is_Some_2 u b) as [lb Hlb]; [lia|]. rewrite Hla, Hlb.
  assert (∀ i j, connected es i j → connected (es ++ [(a, b)]) i j) as Hup.
  { intros i j. apply connected_mono. set_solver. }
  split; [by rewrite length_fmap|]. split.
  - intros i l. rewrite list_lookup_fmap_Some. intros (l0 & -> & Hi).
    destruct (Nat.eqb_spec l0 lb) as [->|_].
    + split; [by apply (Hl a)|]. destruct (Hl _ _ Hi) as [_ Hc], (Hl _ _ Hlb) as [_ Hcb],
        (Hl _ _ Hla) as [_ Hca].
      trans lb; [by apply Hup|]. trans b; [symmetry; by apply Hup|].
      trans a; [|by apply Hup]. apply rtc_once. right. set_solver.
    + destruct (Hl _ _ Hi) as [? Hc]. split; [done|by apply Hup].
  - intros x y [Hxy|[= -> ->]%list_elem_of_singleton]%elem_of_app; rewrite !list_lookup_fmap.
    + by rewrite (He x y Hxy).
    + rewrite Hla, Hlb. simpl. rewrite Nat.eqb_refl. by destruct (Nat.eqb la lb).
Qed.

#[global] Instance sandbox_petgraph_laws : PetgraphLaws.
Proof.
  split; try done. intros n es Hes labels.
  assert (labels_ok n es labels) as (Hlen & Hl & He).
  { unfold labels. clear labels. induction es as [|[a b] es IH] using rev_ind.
    - split; [apply length_seq|]. split; [|by intros ? ? ?%elem_of_nil].
      intros i l [-> ?]%lookup_seq. split; [lia|apply rtc_refl].
    - apply Forall_app in Hes as [Hes Hab]. apply Forall_singleton in Hab as [Ha Hb].
      rewrite foldl_app. by apply toy_union_ok; [..|apply IH]. }
  split; [done|]. split; [done|]. intros i j l Hi Hc Hj. rewrite <-Hi. symmetry.
  clear Hi Hj. induction Hc as [|x y z [Hxy|Hxy] _ IH]; [done|..]; rewrite <-IH.
  - by apply He.
  - symmetry. by apply He.
Qed.

(** A toy signature scheme: the signature of a message is the key and the message. *)
#[global] Instance sandbox_ed25519 : Ed25519 := {|
  PublicKey := bytes;
  public_key_from_bytes b := Some b;
  public_key_as_bytes k := k;
  Signature := bytes;
  signature_from_bytes b := Some b;
  verify k m s := bool_decide (s = k ++ m);
|}.

(** A key pair is a letter, its public key the word of that letter. *)
#[global] Instance sandbox_signing : Ed25519Signing := {|
  Keypair := Byte.byte; keypair_public k := [k]; sign k m := k :: m; signature_to_bytes s := s;
|}.
#[global] Instance sandbox_signing_laws : Ed25519SigningLaws.
Proof. split; try done. intros kp m. by apply bool_decide_eq_true. Qed.

Definition toy_key : @PublicKey sandbox_ed25519 := bstr "k".
Definition toy_signature : @Signature sandbox_ed25519 := bstr "kh2".

(** Peers and connections are numbers, an address is an IPv4 address, an end of a
    connection says whether it dialed and to whom it is connected; the first
    items are chosen, and a toss is zero. *)
#[global] Instance sandbox_libp2p : Libp2p := {|
  PeerId := nat; ConnectionId := nat; Multiaddr := N; protocols a := [Ip4 a];
  ConnectedPoint := bool * N; is_dialer e := e.1; get_remote_address e := e.2;
|}.
#[global] Instance sandbox_rand : Rand := {|
  choose_index _ _ := 0; choose_indices _ n amount := seq 0 (min amount n); toss _ := QArith_base.Qmake 0 1;
|}.
#[global] Instance sandbox_rand_laws : RandLaws.
Proof.
  split; simpl; try done; intros.
  - apply NoDup_seq.
  - apply elem_of_seq in H. lia.
  - apply length_seq.
Qed.

(** The hash maps of the examples are iterated in the order of their lookups. *)
#[global] Instance peer_order : HashOrder (@PeerId sandbox_libp2p) := map_order nat.
#[global] Instance addr_order : HashOrder (@Multiaddr sandbox_libp2p) := map_order N.
#[global] Instance protocol_order : HashOrder Protocol := map_order Protocol.
#[global] Instance rstring_order : HashOrder rstring := map_order rstring.
