(* ===== verification/ChainProps.v ===== *)
(** What the hash of an intent, a transaction and a block depends on: the
    theorems about the definitions of [Chain]. *)
From S2P Require Import Prelude Address Predicate Extern Chain Sandbox.

(** The two hashes of an intent share one cache.  On an intent whose cache is
    empty each method hashes what it says: the whole content for [hash], the
    block hash and the expectations for [signing_hash].  Whichever is called
    first fixes what both return from then on, also after the calldata is
    changed; and an intent sent over the wire has its cache emptied, so its
    [hash] is again the one of the whole content. *)
Theorem intent_hashes_share_cache
    `{!MultihashCrate, !Rmp Multihash, !Rmp (PredicateTree Basic),
      !Rmp (IntentContent Basic), !RmpLaws (IntentContent Basic)} (i : Intent Basic) key value :
  intent_cache i = None →
  let content_hash := sha3_256 (intent_to_vec i) in
  let message_hash := sha3_256 (to_vec (recent_blockhash i) ++ to_vec (expectations i)) in
  (intent_hash i).1 = content_hash ∧
  (signing_hash i).1 = message_hash ∧
  (intent_hash (signing_hash i).2).1 = message_hash ∧
  (signing_hash (intent_hash i).2).1 = content_hash ∧
  (intent_hash (calldata_insert (signing_hash i).2 key value)).1 = message_hash ∧
  (fst ∘ intent_hash <$> intent_from_slice (intent_to_vec (signing_hash i).2)) = Some content_hash.
Proof.
  intros Hc content_hash message_hash. destruct i as [h e c []]; [done|].
  repeat split; try done.
  unfold intent_from_slice, intent_to_vec. rewrite from_slice_to_vec. done.
Qed.

(** On this intent the signing hash and the content hash do differ. *)
Lemma intent_hashes_share_cache_witness :
  (intent_hash (signing_hash example_intent).2).1 ≠ (intent_hash example_intent).1.
Proof.
  destruct (intent_hashes_share_cache example_intent [] [] eq_refl) as (-> & _ & -> & _).
  apply (bool_decide_unpack _). by vm_compute.
Defined.

(** [Block::new] makes the next block: its height is the parent's plus one,
    its parent hash is the SHA3 hash of the parent's content whether or not the
    parent's cell was filled already, and its own cell is empty; it fails (the
    overflow panic of the debug profile) only on a parent of the last height. *)
Theorem block_new_spec `{!MultihashCrate, !Rmp BlockContent} prof (p : Block) txs :
  is_u64 (height p) → block_cache_ok p →
  (∀ b, block_new prof p txs = Some b →
    parent b = sha3_256 (to_vec (block_content p)) ∧ transactions b = txs ∧ block_cache_ok b ∧
    (height p < u64_max → height b = height p + 1)%Z ∧
    (height p = u64_max → height b = 0)%Z) ∧
  (block_new prof p txs = None ↔ prof = Debug ∧ height p = u64_max).
Proof.
  intros Hh Hok. unfold block_new, u64_add, is_u64 in *.
  destruct (block_hash_ok _ Hok) as [-> _].
  destruct (Z.leb_spec (height p + 1) u64_max) as [Hle|Hgt]; simpl.
  - split; [|split; [done|intros [_ ?]; lia]]. intros b [= <-]. simpl.
    repeat split; try done; [by left|lia].
  - destruct prof; simpl; [|split; [done|split; [intros _; split; [done|lia]|done]]].
    split; [|split; [done|intros [? _]; done]]. intros b [= <-]. simpl.
    repeat split; try done; [by left|lia|]. intros ->. by vm_compute.
Qed.

Lemma block_new_spec_witness :
  ∃ b, block_new Debug block_zero [] = Some b ∧ height b = 1%Z.
Proof.
  destruct (block_new Debug block_zero []) as [b|] eqn:Hb.
  - exists b. split; [done|].
    destruct (block_new_spec Debug block_zero []) as [H _]; [done | by left |].
    destruct (H b Hb) as (_ & _ & _ & Hh & _). by apply Hh.
  - by vm_compute in Hb.
Defined.
