(* ===== verification/Collect.v ===== *)
(** Collecting what a transaction needs before it runs: [vm/src/collect.rs], and
    the [PredicateContext] of [primitives/src/predicate.rs].

    [outputs] computes the state diff a transaction proposes,
    [predicate_context] what its predicates are shown, [accounts_predicates] and
    [intents_predicates] the predicate trees that have to accept it. *)
From S2P Require Import Prelude Address Predicate State Extern Chain Sandbox.

Section collect.
Context `{!MultihashCrate, !Rmp (IntentContent Basic), !HashOrder Address}.

(** [pub enum Error] *)
Inductive CollectError :=
| AccountAlreadyExists (addr : Address)
| AccountDoesNotExist (addr : Address)
| CodeDoesNotExist (addr : Address) (pred : BasicPredicate)
| AccountRefDoesNotExist (addr : Address) (pred : BasicPredicate)
| ProposalDoesNotExist (addr : Address) (pred : BasicPredicate)
| CalldataNotFound (key : rstring) (pred : BasicPredicate).

(** [pub struct PredicateContext] *)
Record PredicateContext := mkContext {
  ctx_calldata : gmap Multihash Calldata;
  ctx_proposals : gmap Address ExpandedAccountChange;
}.

(** The body of the loop of [outputs]. *)
Definition outputs_body (state : dyn_state) (output : StateDiff)
    (entry : Address * AccountChange) : Result StateDiff CollectError :=
  let '(addr, change) := entry in
  match change with
  | CreateAccount acc =>
      match dyn_get state addr with
      | Some _ => Err (AccountAlreadyExists addr)
      | None => Ok (set output addr acc).2
      end
  | ReplaceState s =>
      match dyn_get state addr with
      | Some acc => Ok (set output addr (mkAccount s (acc_predicates acc))).2
      | None => Err (AccountDoesNotExist addr)
      end
  | ReplacePredicates p =>
      match dyn_get state addr with
      | Some acc => Ok (set output addr (mkAccount (acc_state acc) p)).2
      | None => Err (AccountDoesNotExist addr)
      end
  | DeleteAccount =>
      match dyn_get state addr with
      | None => Err (AccountDoesNotExist addr)
      | Some _ => Ok (remove output addr).2
      end
  end.

(** [collect::outputs] *)
Definition outputs (state : dyn_state) (transaction : Transaction Basic) :
    Result StateDiff CollectError :=
  try_fold (outputs_body state) empty_diff (btree_iter (proposals transaction : gmap Address AccountChange)).

(** [expand_account_change] *)
Definition expand_account_change (addr : Address) (state : dyn_state) (change : AccountChange) :
    Result ExpandedAccountChange CollectError :=
  match change with
  | CreateAccount acc => Ok (ECreateAccount acc)
  | ReplaceState s =>
      match dyn_get state addr with
      | Some acc => Ok (EReplaceState (acc_state acc) s)
      | None => Err (AccountDoesNotExist addr)
      end
  | ReplacePredicates p =>
      match dyn_get state addr with
      | Some acc => Ok (EReplacePredicates (acc_predicates acc) p)
      | None => Err (AccountDoesNotExist addr)
      end
  | DeleteAccount =>
      match dyn_get state addr with
      | Some acc => Ok (EDeleteAccount acc)
      | None => Err (AccountDoesNotExist addr)
      end
  end.

(** The body of the loop over the proposals in [predicate_context]. *)
Definition context_body (state : dyn_state) (ps : gmap Address ExpandedAccountChange)
    (entry : Address * AccountChange) : Result (gmap Address ExpandedAccountChange) CollectError :=
  let? change := expand_account_change entry.1 state entry.2 in
  Ok (<[entry.1 := change]> ps).

(** [collect::predicate_context]; [collect()] into a map keeps the last entry of
    a key. *)
Definition predicate_context (state : dyn_state) (transaction : Transaction Basic) :
    Result PredicateContext CollectError :=
  let cd := foldl (λ m (intent : Intent Basic), <[(intent_hash intent).1 := calldata intent]> m)
    ∅ (intents transaction) in
  let? ps := try_fold (context_body state) ∅
    (btree_iter (proposals transaction : gmap Address AccountChange)) in
  Ok (mkContext cd ps).

(** The [code] field of an expanded predicate. *)
Definition expand_code (state : dyn_state) (pred : BasicPredicate) :
    Result ExpandedCode CollectError :=
  match code pred with
  | CodeInline wasm => Ok (mkExpandedCode wasm (str "invoke"))
  | CodeAccountRef addr entrypoint =>
      match dyn_get state addr with
      | Some acc => Ok (mkExpandedCode (acc_state acc) entrypoint)
      | None => Err (CodeDoesNotExist addr pred)
      end
  end.

(** One parameter of an expanded predicate. *)
Definition expand_param (state : dyn_state) (context : PredicateContext) (calldata : Calldata)
    (pred : BasicPredicate) (param : Param) : Result ExpandedParam CollectError :=
  match param with
  | Inline v => Ok (EInline v)
  | AccountRef addr =>
      match dyn_get state addr with
      | Some acc => Ok (EAccountRef addr (acc_state acc))
      | None => Err (AccountRefDoesNotExist addr pred)
      end
  | ProposalRef addr =>
      match ctx_proposals context !! addr with
      | Some change => Ok (EProposalRef addr change)
      | None => Err (ProposalDoesNotExist addr pred)
      end
  | CalldataRef key =>
      match calldata !! key with
      | Some val => Ok (ECalldataRef key val)
      | None => Err (CalldataNotFound key pred)
      end
  end.

(** The closure of [expand_predicate_tree]. *)
Definition expand_predicate (state : dyn_state) (context : PredicateContext)
    (calldata : Calldata) (pred : BasicPredicate) : Result ExpandedPredicate CollectError :=
  let? c := expand_code state pred in
  let? ps := try_map_list (expand_param state context calldata pred) (params pred) in
  Ok (mkPredicate c ps).

(** [expand_predicate_tree] *)
Definition expand_predicate_tree (state : dyn_state) (tree : BasicTree)
    (context : PredicateContext) (calldata : Calldata) : Result ExpandedTree CollectError :=
  try_map (expand_predicate state context calldata) tree.

(** The calldata account predicates see: the entries of all intents merged, in
    the order of the intent hashes, a later entry replacing an earlier one. *)
Definition merged_calldata (context : PredicateContext) : Calldata :=
  match btree_values (ctx_calldata context) with
  | [] => ∅
  | c :: cs => foldl (λ prev current, current ∪ prev) c cs
  end.

(** [if !output.contains_key(addr) { if let Some(acc) = state.get(addr) { .. } }] *)
Definition visit_account (state : dyn_state) (context : PredicateContext) (calldata : Calldata)
    (output : gmap Address ExpandedTree) (addr : Address) :
    Result (gmap Address ExpandedTree) CollectError :=
  match output !! addr with
  | Some _ => Ok output
  | None =>
      match dyn_get state addr with
      | Some acc =>
          let? t := expand_predicate_tree state (acc_predicates acc) context calldata in
          Ok (<[addr := t]> output)
      | None => Ok output
      end
  end.

(** [for addr in addr.ancestors() { .. }]: the iterator is advanced as the loop
    goes, so an error of the body ends the loop before a later panic of the
    iterator. *)
Fixpoint visit_ancestors (fuel : nat) (state : dyn_state) (context : PredicateContext)
    (calldata : Calldata) (it : AncestorIterator) (output : gmap Address ExpandedTree) :
    option (Result (gmap Address ExpandedTree) CollectError) :=
  match fuel with
  | 0 => None
  | S fuel =>
      match next it with
      | None => None
      | Some (None, _) => Some (Ok output)
      | Some (Some addr, it') =>
          match visit_account state context calldata output addr with
          | Err e => Some (Err e)
          | Ok output' => visit_ancestors fuel state context calldata it' output'
          end
      end
  end.

(** The body of the loop over the proposed addresses. *)
Definition accounts_body (state : dyn_state) (context : PredicateContext) (calldata : Calldata)
    (output : gmap Address ExpandedTree) (addr : Address) :
    option (Result (gmap Address ExpandedTree) CollectError) :=
  match visit_account state context calldata output addr with
  | Err e => Some (Err e)
  | Ok output' =>
      visit_ancestors (length (addr_path addr)) state context calldata (mkAncestors addr) output'
  end.

(** [collect::accounts_predicates] *)
Definition accounts_predicates (state : dyn_state) (context : PredicateContext)
    (transaction : Transaction Basic) : option (Result (list ExpandedTree) CollectError) :=
  let calldata := merged_calldata context in
  result_map (λ output, snd <$> hash_iter output) <$>
    try_fold_panic (accounts_body state context calldata) ∅
      (btree_keys (proposals transaction : gmap Address AccountChange)).

(** [collect::intents_predicates] *)
Definition intents_predicates (state : dyn_state) (context : PredicateContext)
    (tx : Transaction Basic) : Result (list ExpandedTree) CollectError :=
  try_map_list (λ intent : Intent Basic,
    expand_predicate_tree state (expectations intent) context (calldata intent)) (intents tx).
End collect.

(** ** What a change does to an account *)

(** The account after a change, given the one before it; [None] where the change
    does not apply. *)
Definition change_effect (c : AccountChange) (before : option Account) : option (option Account) :=
  match c, before with
  | CreateAccount acc, None => Some (Some acc)
  | ReplaceState s, Some acc => Some (Some (mkAccount s (acc_predicates acc)))
  | ReplacePredicates p, Some acc => Some (Some (mkAccount (acc_state acc) p))
  | DeleteAccount, Some _ => Some None
  | _, _ => None
  end.

Definition change_error (addr : Address) (c : AccountChange) : CollectError :=
  match c with
  | CreateAccount _ => AccountAlreadyExists addr
  | _ => AccountDoesNotExist addr
  end.

(** An address whose predicates a transaction triggers: a proposed one, or an
    ancestor of one. *)
Definition covered `{!MultihashCrate} (tx : Transaction Basic) (a : Address) : Prop :=
  ∃ p, p ∈ dom (proposals tx : gmap Address AccountChange) ∧
    (a = p ∨ valid a ∧ is_parent_of a p = true).

(** The addresses of a transaction that was built with [Address::new]. *)
Definition tx_valid `{!MultihashCrate} (tx : Transaction Basic) : Prop :=
  ∀ p, p ∈ dom (proposals tx : gmap Address AccountChange) → valid p.

Lemma tx_valid_check `{!MultihashCrate} (tx : Transaction Basic) :
  forallb (λ e, is_ok (new (addr_path e.1)))
    (map_to_list (proposals tx : gmap Address AccountChange)) = true → tx_valid tx.
Proof.
  intros Hall p [c Hc%elem_of_map_to_list]%elem_of_dom.
  assert (is_ok (new (addr_path p)) = true) as Hp.
  { rewrite forallb_forall in Hall. by apply (Hall (p, c)), list_elem_of_In. }
  destruct (new (addr_path p)) as [a|] eqn:Ha; [|done]. apply new_Ok_iff in Ha as [Hv _]. by destruct p.
Qed.

Section collect_lemmas.
Context `{!MultihashCrate, !Rmp (IntentContent Basic), !HashOrder Address}.
Implicit Types (state : dyn_state) (tx : Transaction Basic) (ctx : PredicateContext).

Lemma outputs_body_eq state d a c :
  outputs_body state d (a, c) =
    match change_effect c (dyn_get state a) with
    | None => Err (change_error a c)
    | Some (Some acc) => Ok (set d a acc).2
    | Some None => Ok (remove d a).2
    end.
Proof. simpl. destruct c, (dyn_get state a); done. Qed.

Lemma outputs_loop state l d0 d :
  NoDup l.*1 → try_fold (outputs_body state) d0 l = Ok d →
  (diff_wf d0 → diff_wf d) ∧
  ∀ a, match (list_to_map l : gmap Address AccountChange) !! a with
       | None => upserts d !! a = upserts d0 !! a ∧ (a ∈ deletes d ↔ a ∈ deletes d0)
       | Some c => ∃ r, change_effect c (dyn_get state a) = Some r ∧
           upserts d !! a = r ∧ (a ∈ deletes d ↔ r = None)
       end.
Proof.
  revert d0. induction l as [|[k c] l IH]; intros d0; cbn [try_fold].
  - intros _ [= <-]. split; [done|]. intros a. simpl. by rewrite lookup_empty.
  - intros Hnd (d1 & Hbody & Hrest)%result_bind_Ok. inversion_clear Hnd as [|? ? Hk Hnd'].
    destruct (IH _ Hnd' Hrest) as [Hwf Hl]. rewrite outputs_body_eq in Hbody.
    assert ((list_to_map l : gmap Address AccountChange) !! k = None) as Hnone.
    { by apply not_elem_of_list_to_map_1. }
    destruct (change_effect c (dyn_get state k)) as [r|] eqn:Hr; [|done].
    assert ((diff_wf d0 → diff_wf d1) ∧ upserts d1 !! k = r ∧ (k ∈ deletes d1 ↔ r = None) ∧
      ∀ a, a ≠ k → upserts d1 !! a = upserts d0 !! a ∧ (a ∈ deletes d1 ↔ a ∈ deletes d0))
      as (Hwf1 & Hu1 & Hd1 & Hother).
    { destruct r as [acc|]; simplify_eq; simpl.
      - split; [apply set_wf|]. split; [apply lookup_insert_eq|].
        split; [split; [set_solver|done]|]. intros a Ha.
        rewrite lookup_insert_ne by done. split; [done|set_solver].
      - split; [apply remove_wf|]. split; [apply lookup_delete_eq|].
        split; [split; [done|set_solver]|]. intros a Ha.
        rewrite lookup_delete_ne by done. split; [done|set_solver]. }
    split; [auto|]. intros a. specialize (Hl a).
    destruct (decide (a = k)) as [->|Hne].
    + rewrite Hnone in Hl. destruct Hl as [Hu Hd].
      simpl. rewrite lookup_insert_eq. exists r. rewrite Hu, Hd. done.
    + simpl. rewrite lookup_insert_ne by done.
      destruct ((list_to_map l : gmap Address AccountChange) !! a); [done|].
      destruct Hl as [-> ->]. by apply Hother.
Qed.

(** A successful [outputs] does at every address what the proposed change says. *)
Lemma outputs_after state tx d :
  outputs state tx = Ok d →
  diff_wf d ∧ ∀ a,
    match (proposals tx : gmap Address AccountChange) !! a with
    | None => upserts d !! a = None ∧ a ∉ deletes d
    | Some c => change_effect c (dyn_get state a) = Some (after d a (dyn_get state a)) ∧
        (a ∈ dom (upserts d) ∨ a ∈ deletes d)
    end.
Proof.
  intros [Hwf Hl]%outputs_loop; [|apply NoDup_btree_keys].
  split; [apply Hwf, empty_diff_wf|]. intros a. specialize (Hl a).
  rewrite list_to_map_btree_iter in Hl.
  destruct ((proposals tx : gmap Address AccountChange) !! a) as [c|]; [|set_solver].
  destruct Hl as (r & -> & Hu & Hd). unfold after. rewrite Hu.
  destruct (decide (a ∈ deletes d)) as [Ha|Ha]; [rewrite (proj1 Hd Ha); auto|].
  destruct r as [acc|]; [|by destruct Ha; apply Hd].
  split; [done|]. left. apply elem_of_dom. eauto.
Qed.
End collect_lemmas.

(** ** The proposals as a diff *)

(** C5: what [outputs] computes.  When it succeeds, the diff writes and deletes
    each address at most once, does at every proposed address what the change
    says to the account the state has there, and says nothing about any other
    address.  When it fails, the error names the smallest proposed address whose
    change does not apply: a creation over an existing account, or a change of an
    account that does not exist. *)
Theorem outputs_spec `{!MultihashCrate} (state : dyn_state) (tx : Transaction Basic) :
  let ps : gmap Address AccountChange := proposals tx in
  match outputs state tx with
  | Ok d =>
      diff_wf d ∧ ∀ a,
        match ps !! a with
        | None => upserts d !! a = None ∧ a ∉ deletes d
        | Some c => change_effect c (dyn_get state a) = Some (after d a (dyn_get state a)) ∧
            (a ∈ dom (upserts d) ∨ a ∈ deletes d)
        end
  | Err e =>
      ∃ a c, ps !! a = Some c ∧ change_effect c (dyn_get state a) = None ∧ e = change_error a c ∧
        ∀ a' c', ps !! a' = Some c' → key_le a' a → a' ≠ a →
          is_Some (change_effect c' (dyn_get state a'))
  end.
Proof.
  intros ps. destruct (outputs state tx) as [d|e] eqn:Hrun; [by apply outputs_after|].
  unfold outputs in Hrun. fold ps in Hrun.
  apply try_fold_Err in Hrun as (pre & [a c] & post & d & Heq & Hpre & Hbody).
  rewrite outputs_body_eq in Hbody.
  destruct (change_effect c (dyn_get state a)) as [[]|] eqn:Hc; simplify_eq.
  exists a, c. split; [apply elem_of_btree_iter; rewrite Heq; set_solver|].
  split; [done|]. split; [done|]. intros a' c' Hps Hle Hne.
  pose proof (btree_iter_before _ _ _ _ _ _ _ Heq Hps Hle Hne) as Hin.
  pose proof (NoDup_btree_keys ps) as Hnd. unfold btree_keys in Hnd.
  rewrite Heq, fmap_app in Hnd. apply NoDup_app in Hnd as [Hnd _].
  destruct (outputs_loop _ _ _ _ Hnd Hpre) as [_ Hl]. specialize (Hl a').
  rewrite (list_to_map_elem _ _ _ Hnd Hin) in Hl. destruct Hl as (r & -> & _). eauto.
Qed.

(** On a transaction: creating [/a] in the empty store, and deleting it there. *)
Definition example_tx : Transaction Basic :=
  transaction_new (R := Basic) [example_intent] {[mkAddress (str "/a") := CreateAccount example_account]}.
Definition example_bad_tx : Transaction Basic :=
  transaction_new (R := Basic) [] {[mkAddress (str "/a") := DeleteAccount]}.

Example outputs_example :
  outputs (Dyn (mkStore ∅)) example_tx = Ok example_diff ∧
  outputs (Dyn (mkStore ∅)) example_bad_tx = Err (AccountDoesNotExist (mkAddress (str "/a"))).
Proof. split; by vm_compute. Qed.

(** ** What predicates are shown *)

(** The change with the current version of what it replaces. *)
Definition change_view (c : AccountChange) (before : option Account) :
    option ExpandedAccountChange :=
  match c, before with
  | CreateAccount acc, _ => Some (ECreateAccount acc)
  | ReplaceState s, Some acc => Some (EReplaceState (acc_state acc) s)
  | ReplacePredicates p, Some acc => Some (EReplacePredicates (acc_predicates acc) p)
  | DeleteAccount, Some acc => Some (EDeleteAccount acc)
  | _, None => None
  end.

Lemma expand_account_change_eq a state c :
  expand_account_change a state c = ok_or (change_view c (dyn_get state a)) (AccountDoesNotExist a).
Proof. destruct c; simpl; try done; by destruct (dyn_get state a). Qed.

Lemma change_view_effect c before :
  is_Some (change_effect c before) → is_Some (change_view c before).
Proof. destruct c, before; simpl; intros [? ?]; simplify_eq; eauto. Qed.

Lemma context_loop state l m0 :
  (∀ a c, (a, c) ∈ l → is_Some (change_view c (dyn_get state a))) → NoDup l.*1 →
  ∃ m, try_fold (context_body state) m0 l = Ok m ∧
    ∀ a, m !! a = match (list_to_map l : gmap Address AccountChange) !! a with
                  | Some c => change_view c (dyn_get state a)
                  | None => m0 !! a
                  end.
Proof.
  revert m0. induction l as [|[k c] l IH]; intros m0 Hl Hnd; cbn [try_fold].
  - exists m0. split; [done|]. intros a. simpl. by rewrite lookup_empty.
  - inversion_clear Hnd as [|? ? Hk Hnd'].
    destruct (Hl k c) as [v Hv]; [by left|].
    unfold context_body at 1. simpl. rewrite expand_account_change_eq, Hv. simpl.
    destruct (IH (<[k:=v]> m0)) as (m & Hm & Hlook); [set_solver|done|].
    exists m. split; [done|]. intros a. rewrite Hlook.
    destruct (decide (a = k)) as [->|Hne].
    + rewrite not_elem_of_list_to_map_1 by done. by rewrite !lookup_insert_eq.
    + by rewrite !lookup_insert_ne by done.
Qed.

Lemma calldata_loop `{!MultihashCrate, !Rmp (IntentContent Basic)} (l : list (Intent Basic))
    (m : gmap Multihash Calldata) h :
  foldl (λ m (i : Intent Basic), <[(intent_hash i).1 := calldata i]> m) m l !! h =
    match last (filter (λ i, (intent_hash i).1 = h) l) with
    | Some i => Some (calldata i)
    | None => m !! h
    end.
Proof.
  revert m. induction l as [|i l IH] using rev_ind; intros m; simpl; [done|].
  rewrite foldl_app, filter_app. simpl. rewrite filter_cons, filter_nil.
  case_decide as Hh.
  - by rewrite last_snoc, <-Hh, lookup_insert_eq.
  - by rewrite app_nil_r, lookup_insert_ne, IH.
Qed.

(** Once [outputs] has succeeded, [predicate_context] succeeds too.  It shows
    for every proposed address, and for no other, the proposed change together
    with the current version of what it replaces; and under the hash of each
    intent the calldata of the last intent with that hash. *)
Theorem predicate_context_spec `{!MultihashCrate, !Rmp (IntentContent Basic)}
    (state : dyn_state) (tx : Transaction Basic) d :
  outputs state tx = Ok d →
  ∃ ctx, predicate_context state tx = Ok ctx ∧
    (∀ a, ctx_proposals ctx !! a =
      (proposals tx : gmap Address AccountChange) !! a ≫= λ c, change_view c (dyn_get state a)) ∧
    dom (ctx_proposals ctx) = dom (proposals tx : gmap Address AccountChange) ∧
    (∀ h, ctx_calldata ctx !! h =
      calldata <$> last (filter (λ i : Intent Basic, (intent_hash i).1 = h) (intents tx))).
Proof.
  intros Hout. apply outputs_loop in Hout as [_ Hl]; [|apply NoDup_btree_keys].
  unfold predicate_context. rewrite list_to_map_btree_iter in Hl.
  change (gmap Address (rAccountChange Basic)) with (gmap Address AccountChange).
  change (rAccountChange Basic) with AccountChange in *.
  revert Hl. generalize (proposals tx : gmap Address AccountChange). intros ps Hl.
  assert (∀ a c, ps !! a = Some c → is_Some (change_view c (dyn_get state a))) as Hview.
  { intros a c Hc. specialize (Hl a). rewrite Hc in Hl. destruct Hl as (r & Hr & _).
    apply change_view_effect. eauto. }
  destruct (context_loop state (btree_iter ps) ∅)
    as (m & -> & Hm); [by intros a c Hc%elem_of_btree_iter; apply Hview|apply NoDup_btree_keys|].
  rewrite list_to_map_btree_iter in Hm.
  assert (∀ a, m !! a = ps !! a ≫= λ c, change_view c (dyn_get state a)) as Hm'.
  { intros a. rewrite Hm. destruct (ps !! a); [done|]. by rewrite lookup_empty. }
  eexists. split; [reflexivity|]. split; [exact Hm'|]. split; simpl.
  - apply set_eq. intros a. rewrite !elem_of_dom, Hm'.
    destruct (ps !! a) as [c|] eqn:Hc; simpl; [|done].
    split; [eauto|]. intros _. by eapply Hview.
  - intros h. rewrite calldata_loop. by destruct (last _).
Qed.

Lemma predicate_context_spec_witness :
  ∃ ctx, predicate_context (Dyn (mkStore ∅)) example_tx = Ok ctx ∧
    ctx_proposals ctx !! mkAddress (str "/a") = Some (ECreateAccount example_account).
Proof.
  destruct (predicate_context_spec (Dyn (mkStore ∅)) example_tx example_diff)
    as (ctx & Hctx & Hps & _); [by vm_compute|].
  exists ctx. split; [done|]. by rewrite Hps.
Defined.

(** ** Expanded predicates *)

(** What a predicate embeds for a reference. *)
Inductive code_resolves (state : dyn_state) : Code → ExpandedCode → Prop :=
| resolve_inline wasm : code_resolves state (CodeInline wasm) (mkExpandedCode wasm (str "invoke"))
| resolve_account addr entry acc :
    dyn_get state addr = Some acc →
    code_resolves state (CodeAccountRef addr entry) (mkExpandedCode (acc_state acc) entry).

Inductive param_resolves `{!MultihashCrate} (state : dyn_state) (ctx : PredicateContext)
    (cd : Calldata) : Param → ExpandedParam → Prop :=
| resolve_param_inline v : param_resolves state ctx cd (Inline v) (EInline v)
| resolve_param_account addr acc :
    dyn_get state addr = Some acc →
    param_resolves state ctx cd (AccountRef addr) (EAccountRef addr (acc_state acc))
| resolve_param_proposal addr change :
    ctx_proposals ctx !! addr = Some change →
    param_resolves state ctx cd (ProposalRef addr) (EProposalRef addr change)
| resolve_param_calldata key val :
    cd !! key = Some val → param_resolves state ctx cd (CalldataRef key) (ECalldataRef key val).

Definition predicate_resolves `{!MultihashCrate} (state : dyn_state) (ctx : PredicateContext)
    (cd : Calldata) (p : BasicPredicate) (q : ExpandedPredicate) : Prop :=
  code_resolves state (code p) (code q) ∧
  Forall2 (param_resolves state ctx cd) (params p) (params q).

(** A reference of a predicate that points to nothing, and the error it gives. *)
Inductive dangling `{!MultihashCrate} (state : dyn_state) (ctx : PredicateContext)
    (cd : Calldata) (p : BasicPredicate) : CollectError → Prop :=
| dangling_code addr entry :
    code p = CodeAccountRef addr entry → dyn_get state addr = None →
    dangling state ctx cd p (CodeDoesNotExist addr p)
| dangling_account addr :
    AccountRef addr ∈ params p → dyn_get state addr = None →
    dangling state ctx cd p (AccountRefDoesNotExist addr p)
| dangling_proposal addr :
    ProposalRef addr ∈ params p → ctx_proposals ctx !! addr = None →
    dangling state ctx cd p (ProposalDoesNotExist addr p)
| dangling_calldata key :
    CalldataRef key ∈ params p → cd !! key = None →
    dangling state ctx cd p (CalldataNotFound key p).

Section expansion.
Context `{!MultihashCrate} (state : dyn_state) (ctx : PredicateContext) (cd : Calldata).

Lemma expand_code_Ok p c : expand_code state p = Ok c ↔ code_resolves state (code p) c.
Proof.
  unfold expand_code. destruct (code p) as [wasm|addr entry].
  - split; [by intros [= <-]; constructor | by inversion 1].
  - destruct (dyn_get state addr) as [acc|] eqn:Hacc.
    + split; [intros [= <-]; by constructor | inversion 1; congruence].
    + split; [done | inversion 1; congruence].
Qed.

Lemma expand_param_Ok p x y :
  expand_param state ctx cd p x = Ok y ↔ param_resolves state ctx cd x y.
Proof.
  destruct x as [v|addr|addr|key]; simpl.
  - split; [by intros [= <-]; constructor | by inversion 1].
  - destruct (dyn_get state addr) eqn:Hx;
      (split; [by intros; simplify_eq; constructor | by inversion 1; simplify_eq]).
  - destruct (ctx_proposals ctx !! addr) eqn:Hx;
      (split; [by intros; simplify_eq; constructor | by inversion 1; simplify_eq]).
  - destruct (cd !! key) eqn:Hx;
      (split; [by intros; simplify_eq; constructor | by inversion 1; simplify_eq]).
Qed.

Lemma expand_param_Err p x e :
  x ∈ params p → expand_param state ctx cd p x = Err e → dangling state ctx cd p e.
Proof.
  intros Hx. destruct x as [v|addr|addr|key]; simpl; [done|..].
  - destruct (dyn_get state addr) eqn:?; intros [= <-]. by apply dangling_account.
  - destruct (ctx_proposals ctx !! addr) eqn:?; intros [= <-]. by apply dangling_proposal.
  - destruct (cd !! key) eqn:?; intros [= <-]. by apply dangling_calldata.
Qed.

Lemma expand_predicate_Ok p q :
  expand_predicate state ctx cd p = Ok q ↔ predicate_resolves state ctx cd p q.
Proof.
  unfold expand_predicate, predicate_resolves. split.
  - intros (c & Hc & (ps & Hps & [= <-])%result_bind_Ok)%result_bind_Ok.
    split; [by apply expand_code_Ok|]. apply try_map_list_Ok in Hps.
    eapply Forall2_impl; [exact Hps|]. intros x y. apply expand_param_Ok.
  - destruct q as [c ps]. simpl. intros [Hc%(expand_code_Ok p) Hps]. rewrite Hc. simpl.
    assert (try_map_list (expand_param state ctx cd p) (params p) = Ok ps) as ->; [|done].
    apply try_map_list_Ok. eapply Forall2_impl; [exact Hps|]. intros x y. apply expand_param_Ok.
Qed.

Lemma expand_predicate_Err p e :
  expand_predicate state ctx cd p = Err e → dangling state ctx cd p e.
Proof.
  unfold expand_predicate. intros [Hc | (c & _ & [Hps | (? & _ & [=])]%result_bind_Err)]%result_bind_Err.
  - unfold expand_code in Hc. destruct (code p) as [|addr entry] eqn:Hcode; [done|].
    destruct (dyn_get state addr) eqn:?; simplify_eq. by eapply dangling_code.
  - apply try_map_list_Err in Hps as (pre & x & post & Hp & Hx & _).
    eapply expand_param_Err; [|exact Hx]. rewrite Hp. set_solver.
Qed.

Lemma predicate_resolves_not_dangling p q e :
  predicate_resolves state ctx cd p q → ¬ dangling state ctx cd p e.
Proof.
  intros [Hc Hps] Hd.
  assert (∀ x, x ∈ params p → ∃ y, param_resolves state ctx cd x y) as Hall.
  { intros x [i Hi]%list_elem_of_lookup.
    destruct (Forall2_lookup_l _ _ _ _ _ Hps Hi) as (y & _ & Hy). eauto. }
  destruct Hd as [addr entry Hcode|addr Hin|addr Hin|key Hin].
  - rewrite Hcode in Hc. inversion Hc; congruence.
  - destruct (Hall _ Hin) as [y Hy]. inversion Hy; congruence.
  - destruct (Hall _ Hin) as [y Hy]. inversion Hy; congruence.
  - destruct (Hall _ Hin) as [y Hy]. inversion Hy; congruence.
Qed.
End expansion.

(** Expanding a predicate tree keeps its shape and, leaf by leaf, replaces
    each reference by what it points to in the state, in the context or in the
    calldata; it succeeds exactly when no leaf has a dangling reference, and
    otherwise the error is one of a dangling reference of the leftmost leaf that
    has one. *)
Theorem expand_predicate_tree_spec `{!MultihashCrate} (state : dyn_state) (t : BasicTree)
    (ctx : PredicateContext) (cd : Calldata) :
  (∀ u, expand_predicate_tree state t ctx cd = Ok u ↔
    tree_rel (predicate_resolves state ctx cd) t u) ∧
  ((∃ u, expand_predicate_tree state t ctx cd = Ok u) ↔
    ∀ p e, p ∈ leaves t → ¬ dangling state ctx cd p e) ∧
  (∀ e, expand_predicate_tree state t ctx cd = Err e →
    ∃ pre p post, leaves t = pre ++ p :: post ∧ dangling state ctx cd p e ∧
      ∀ p' e', p' ∈ pre → ¬ dangling state ctx cd p' e').
Proof.
  unfold expand_predicate_tree. set (op := expand_predicate state ctx cd).
  assert (∀ p, is_ok (op p) = true ↔ ∀ e, ¬ dangling state ctx cd p e) as Hop.
  { intros p. destruct (op p) as [q|e] eqn:Hq; simpl.
    - split; [|done]. intros _ e. eapply predicate_resolves_not_dangling.
      by apply expand_predicate_Ok.
    - split; [done|]. intros Hno. by destruct (Hno e); apply expand_predicate_Err. }
  assert (∀ e, try_map op t = Err e →
    ∃ pre p post, leaves t = pre ++ p :: post ∧ dangling state ctx cd p e ∧
      ∀ p' e', p' ∈ pre → ¬ dangling state ctx cd p' e') as Herr.
  { intros e He. pose proof (try_map_list_leaves op t) as Hl. rewrite He in Hl. symmetry in Hl.
    apply try_map_list_Err in Hl as (pre & p & post & Hl & Hp & Hpre).
    exists pre, p, post. split; [done|]. split; [by apply expand_predicate_Err|].
    intros p' e' Hin. apply Hop. by eapply Forall_forall in Hpre. }
  split; [|split; [|done]].
  - intros u. rewrite try_map_Ok_iff.
    split; apply tree_rel_impl; intros x y; apply (expand_predicate_Ok state ctx cd).
  - destruct (try_map op t) as [u|e] eqn:Hu.
    + split; [|eauto]. intros _ p e Hp. apply Hop.
      pose proof (try_map_list_leaves op t) as Hl. rewrite Hu in Hl. symmetry in Hl.
      apply try_map_list_Ok in Hl. apply list_elem_of_lookup in Hp as [i Hi].
      destruct (Forall2_lookup_l _ _ _ _ _ Hl Hi) as (y & _ & ->). done.
    + split; [by intros [? ?]|]. intros Hno. exfalso.
      destruct (Herr e eq_refl) as (pre & p & post & Hl & Hp & _).
      eapply Hno; [|exact Hp]. rewrite Hl. set_solver.
Qed.

(** ** Coverage of the account predicates *)

Section coverage.
Context `{!MultihashCrate} (state : dyn_state) (ctx : PredicateContext) (cd : Calldata).

(** The tree of an existing account, expanded. *)
Definition expanded_at (a : Address) (r : Result ExpandedTree CollectError) : Prop :=
  ∃ acc, dyn_get state a = Some acc ∧ expand_predicate_tree state (acc_predicates acc) ctx cd = r.

Lemma visit_ancestors_drain fuel it l out :
  drain fuel it = Some l →
  visit_ancestors fuel state ctx cd it out = Some (try_fold (visit_account state ctx cd) out l).
Proof.
  revert it l out. induction fuel as [|fuel IH]; intros it l out; simpl; [done|].
  destruct (next it) as [[[a|] it']|]; [|by intros [= <-]|done].
  destruct (drain fuel it') as [l'|] eqn:Hd; [|done]. intros [= <-]. simpl.
  destruct (visit_account state ctx cd out a) as [out'|e]; simpl; [|done].
  by apply IH.
Qed.

(** The addresses the loops look at for one proposed address, in order. *)
Definition visited (p : Address) : list Address := p :: default [] (ancestors p).

Lemma accounts_body_visited out p :
  valid p →
  accounts_body state ctx cd out p = Some (try_fold (visit_account state ctx cd) out (visited p)).
Proof.
  intros Hv. destruct (elem_of_ancestors p Hv) as (l & Hl & _).
  unfold accounts_body, visited. rewrite Hl. simpl.
  destruct (visit_account state ctx cd out p) as [out'|e]; simpl; [|done].
  by apply visit_ancestors_drain.
Qed.

Lemma accounts_loop keys out :
  (∀ p, p ∈ keys → valid p) →
  try_fold_panic (accounts_body state ctx cd) out keys =
    Some (try_fold (visit_account state ctx cd) out (keys ≫= visited)).
Proof.
  revert out. induction keys as [|p keys IH]; intros out Hv; [done|].
  cbn [try_fold_panic mbind list_bind]. rewrite accounts_body_visited by (apply Hv; by left).
  change (list_bind _ _ visited keys) with (keys ≫= visited). rewrite try_fold_app.
  destruct (try_fold _ out (visited p)) as [out'|e]; simpl; [|done].
  apply IH. intros q Hq. apply Hv. by right.
Qed.

Lemma visit_fold_Ok l out0 out :
  try_fold (visit_account state ctx cd) out0 l = Ok out →
  (∀ a t, out0 !! a = Some t → expanded_at a (Ok t)) →
  ∀ a t, out !! a = Some t ↔ out0 !! a = Some t ∨ a ∈ l ∧ expanded_at a (Ok t).
Proof.
  revert out0. induction l as [|b l IH]; intros out0; simpl.
  - intros [= <-] _ a t. set_solver.
  - intros (out1 & Hvis & Hrest)%result_bind_Ok Hinv a t. unfold visit_account in Hvis.
    destruct (out0 !! b) as [tb|] eqn:Hb; simplify_eq.
    + rewrite (IH _ Hrest Hinv). split; [set_solver|].
      intros [|[[->|]%elem_of_cons He]]; [by left| |by right].
      left. destruct (Hinv _ _ Hb) as (acc & ? & ?), He as (acc' & ? & ?). congruence.
    + destruct (dyn_get state b) as [acc|] eqn:Hacc.
      * apply result_bind_Ok in Hvis as (tb & Htb & [= <-]).
        assert (expanded_at b (Ok tb)) as Hexp by (by exists acc).
        rewrite (IH _ Hrest).
        -- destruct (decide (a = b)) as [->|Hne].
           ++ rewrite lookup_insert_eq, elem_of_cons. split.
              ** intros [[= <-]|[_ He]]; right; auto.
              ** intros [|[_ (acc' & ? & ?)]]; [congruence|]. left. congruence.
           ++ rewrite lookup_insert_ne, elem_of_cons by done. naive_solver.
        -- intros a' t'. destruct (decide (a' = b)) as [->|Hne].
           ++ rewrite lookup_insert_eq. by intros [= <-].
           ++ rewrite lookup_insert_ne by done. apply Hinv.
      * simplify_eq. rewrite (IH _ Hrest Hinv), elem_of_cons. split; [naive_solver|].
        intros [|[[->|] He]]; [by left| |by right].
        destruct He as (? & ? & _). congruence.
Qed.

Lemma visit_fold_all l out0 out :
  try_fold (visit_account state ctx cd) out0 l = Ok out →
  (∀ a t, out0 !! a = Some t → expanded_at a (Ok t)) →
  ∀ a e, a ∈ l → ¬ expanded_at a (Err e).
Proof.
  revert out0. induction l as [|b l IH]; intros out0; simpl; [by intros _ _ a e ?%elem_of_nil|].
  intros (out1 & Hvis & Hrest)%result_bind_Ok Hinv. unfold visit_account in Hvis.
  assert ((∀ e, ¬ expanded_at b (Err e)) ∧ ∀ a t, out1 !! a = Some t → expanded_at a (Ok t))
    as [Hb Hinv1].
  { destruct (out0 !! b) as [tb|] eqn:Hb; simplify_eq.
    - split; [|done]. intros e (acc & Hacc & He).
      destruct (Hinv _ _ Hb) as (acc' & ? & ?). congruence.
    - destruct (dyn_get state b) as [acc|] eqn:Hacc.
      + apply result_bind_Ok in Hvis as (tb & Htb & [= <-]). split.
        * intros e (acc' & ? & ?). congruence.
        * intros a t. destruct (decide (a = b)) as [->|Hne].
          -- rewrite lookup_insert_eq. intros [= <-]. by exists acc.
          -- rewrite lookup_insert_ne by done. apply Hinv.
      + simplify_eq. split; [|done]. intros e (acc' & ? & ?). congruence. }
  intros a e [->|Ha]%elem_of_cons; [apply Hb|]. by eapply IH.
Qed.

Lemma visit_fold_Err l out e :
  try_fold (visit_account state ctx cd) out l = Err e → ∃ a, a ∈ l ∧ expanded_at a (Err e).
Proof.
  intros (pre & a & post & out' & -> & _ & Hvis)%try_fold_Err. exists a. split; [set_solver|].
  unfold visit_account in Hvis. destruct (out' !! a); [done|].
  destruct (dyn_get state a) as [acc|] eqn:Hacc; [|done].
  apply result_bind_Err in Hvis as [He | (? & _ & [=])]. by exists acc.
Qed.
End coverage.

(** The loops as one loop over the covered addresses. *)
Lemma accounts_predicates_eq `{!MultihashCrate, !HashOrder Address} (state : dyn_state)
    (ctx : PredicateContext) (tx : Transaction Basic) :
  tx_valid tx →
  ∃ l, (∀ a, a ∈ l ↔ covered tx a) ∧
    accounts_predicates state ctx tx =
      Some (result_map (λ output, snd <$> hash_iter output)
        (try_fold (visit_account state ctx (merged_calldata ctx)) ∅ l)).
Proof.
  intros Hv. unfold accounts_predicates. rewrite accounts_loop.
  2:{ intros p Hp. apply Hv. by apply elem_of_dom, elem_of_btree_keys. }
  eexists. split; [|reflexivity]. intros a. rewrite list_elem_of_bind. unfold covered. split.
  - intros (p & Ha & Hp). exists p. apply elem_of_btree_keys, elem_of_dom in Hp.
    split; [done|]. destruct (elem_of_ancestors p (Hv _ Hp)) as (l & Hl & Hin).
    unfold visited in Ha. rewrite Hl in Ha. simpl in Ha.
    apply elem_of_cons in Ha as [->|Ha]; [by left|]. right. by apply Hin.
  - intros (p & Hp & Ha). exists p. split; [|by apply elem_of_btree_keys, elem_of_dom].
    destruct (elem_of_ancestors p (Hv _ Hp)) as (l & Hl & Hin). unfold visited. rewrite Hl.
    simpl. apply elem_of_cons. destruct Ha as [->|Ha]; [by left|]. right. by apply Hin.
Qed.

(** The trees a successful pass over the covered addresses leaves. *)
Lemma visited_trees `{!MultihashCrate, !HashOrder Address} (state : dyn_state)
    (ctx : PredicateContext) (cd : Calldata) l out :
  try_fold (visit_account state ctx cd) ∅ l = Ok out →
  (∀ a t, (a, t) ∈ hash_iter out ↔ a ∈ l ∧ expanded_at state ctx cd a (Ok t)) ∧
  (∀ a e, a ∈ l → ¬ expanded_at state ctx cd a (Err e)).
Proof.
  intros Hrun.
  assert (∀ a t, (∅ : gmap Address ExpandedTree) !! a = Some t →
    expanded_at state ctx cd a (Ok t)) as Hinv by (intros ? ?; by rewrite lookup_empty).
  split; [|by eapply visit_fold_all].
  intros a t. rewrite elem_of_hash_iter, (visit_fold_Ok _ _ _ _ _ _ Hrun Hinv), lookup_empty.
  split; [by intros [|]|by right].
Qed.

(** C3: the predicates of the accounts a transaction touches.  On a transaction
    whose addresses were built by the constructor, the collection does not
    panic.  When it succeeds, it yields the tree of every account of the state
    that is proposed or above a proposed one, expanded with the merged calldata
    of all intents, each exactly once, and nothing else; when it fails, one of
    those trees has a reference that cannot be resolved. *)
Theorem accounts_predicates_spec `{!MultihashCrate, !HashOrder Address} (state : dyn_state)
    (ctx : PredicateContext) (tx : Transaction Basic) :
  let at_account := expanded_at state ctx (merged_calldata ctx) in
  tx_valid tx →
  ∃ r, accounts_predicates state ctx tx = Some r ∧
  match r with
  | Ok trees =>
      (∃ l : list (Address * ExpandedTree), trees = l.*2 ∧ NoDup l.*1 ∧
        ∀ a t, (a, t) ∈ l ↔ covered tx a ∧ at_account a (Ok t)) ∧
      (∀ a acc, covered tx a → dyn_get state a = Some acc → ∃ t, at_account a (Ok t))
  | Err e => ∃ a, covered tx a ∧ at_account a (Err e)
  end.
Proof.
  intros at_account (l & Hcov & Heq)%(accounts_predicates_eq state ctx).
  rewrite Heq. eexists. split; [reflexivity|].
  destruct (try_fold _ _ _) as [out|e] eqn:Hrun; simpl.
  - destruct (visited_trees _ _ _ _ _ Hrun) as [Hin Hno]. split.
    + exists (hash_iter out). split; [done|].
      split; [rewrite hash_iter_perm; apply NoDup_fst_map_to_list|].
      intros a t. by rewrite Hin, Hcov.
    + intros a acc Ha Hacc. apply Hcov in Ha.
      destruct (expand_predicate_tree state (acc_predicates acc) ctx (merged_calldata ctx))
        as [t|e] eqn:Ht; [by exists t, acc|].
      destruct (Hno a e Ha). by exists acc.
  - apply visit_fold_Err in Hrun as (a & Ha & He). exists a. split; [by apply Hcov|done].
Qed.

(** Two accounts one above the other; changing the lower one runs both. *)
Definition example_chain : InMemoryStateStore :=
  mkStore {[mkAddress (str "/a") := example_account; mkAddress (str "/a/b") := example_account]}.
Definition example_change : Transaction Basic :=
  transaction_new (R := Basic) [] {[mkAddress (str "/a/b") := ReplaceState (bstr "y")]}.

Lemma example_change_valid : tx_valid example_change.
Proof.
  intros p Hp. assert (p = mkAddress (str "/a/b")) as ->.
  { unfold example_change in Hp. simpl in Hp. rewrite dom_singleton_L in Hp. set_solver. }
  exists [str "a"; str "b"]. split; [|by vm_compute]. split; [done|].
  apply (bool_decide_unpack _). by vm_compute.
Qed.

Lemma accounts_predicates_spec_witness :
  let _ := map_order Address in
  ∃ trees, accounts_predicates (Dyn example_chain) (mkContext ∅ ∅) example_change = Some (Ok trees) ∧
    length trees = 2.
Proof.
  intros Ho. destruct (accounts_predicates_spec (Dyn example_chain) (mkContext ∅ ∅) example_change)
    as (r & Hr & _); [apply example_change_valid|].
  destruct r as [trees|e].
  - exists trees. split; [exact Hr|]. vm_compute in Hr. by injection Hr as <-.
  - by vm_compute in Hr.
Defined.

(** ** States that give the same answers

    What is collected depends on the answers of the state only. *)

Section same_state.
Context `{!MultihashCrate, !Rmp (IntentContent Basic), !HashOrder Address}.

#[global] Instance outputs_proper : Proper ((≡) ==> (=) ==> (=)) outputs.
Proof.
  intros s s' Hs tx ? <-. apply try_fold_ext. intros d [a c]. by rewrite !outputs_body_eq, (Hs a).
Qed.

#[global] Instance predicate_context_proper : Proper ((≡) ==> (=) ==> (=)) predicate_context.
Proof.
  intros s s' Hs tx ? <-. unfold predicate_context. f_equal. apply try_fold_ext.
  intros ps [a c]. unfold context_body. by rewrite !expand_account_change_eq, (Hs _).
Qed.

#[global] Instance expand_predicate_tree_proper :
  Proper ((≡) ==> (=) ==> (=) ==> (=) ==> (=)) expand_predicate_tree.
Proof.
  intros s s' Hs t ? <- ctx ? <- cd ? <-. apply try_map_ext. intros p. unfold expand_predicate.
  assert (expand_code s p = expand_code s' p) as ->.
  { unfold expand_code. destruct (code p); [done|]. by rewrite (Hs addr). }
  destruct (expand_code s' p); simpl; [|done].
  rewrite (try_map_list_ext (expand_param s ctx cd p) (expand_param s' ctx cd p)); [done|].
  intros x. destruct x as [v|addr|addr|key]; simpl; try done. by rewrite (Hs addr).
Qed.

#[global] Instance visit_account_proper :
  Proper ((≡) ==> (=) ==> (=) ==> (=) ==> (=) ==> (=)) visit_account.
Proof.
  intros s s' Hs ctx ? <- cd ? <- out ? <- a ? <-. unfold visit_account.
  destruct (out !! a); [done|]. rewrite (Hs a). destruct (dyn_get s' a) as [acc|]; [|done].
  by rewrite (expand_predicate_tree_proper s s' Hs _ _ eq_refl _ _ eq_refl _ _ eq_refl).
Qed.

Lemma visit_ancestors_same fuel s s' ctx cd it out :
  s ≡ s' → visit_ancestors fuel s ctx cd it out = visit_ancestors fuel s' ctx cd it out.
Proof.
  intros Hs. revert it out. induction fuel as [|fuel IH]; intros it out; [done|].
  simpl. destruct (next it) as [[[a|] it']|]; [|done..].
  rewrite (visit_account_proper s s' Hs _ _ eq_refl _ _ eq_refl _ _ eq_refl _ _ eq_refl).
  by destruct (visit_account s' ctx cd out a).
Qed.

#[global] Instance accounts_predicates_proper :
  Proper ((≡) ==> (=) ==> (=) ==> (=)) accounts_predicates.
Proof.
  intros s s' Hs ctx ? <- tx ? <-. unfold accounts_predicates. f_equal.
  apply try_fold_panic_ext. intros out a. unfold accounts_body.
  rewrite (visit_account_proper s s' Hs _ _ eq_refl _ _ eq_refl _ _ eq_refl _ _ eq_refl).
  destruct (visit_account s' _ _ out a); [|done]. by apply visit_ancestors_same.
Qed.

#[global] Instance intents_predicates_proper :
  Proper ((≡) ==> (=) ==> (=) ==> (=)) intents_predicates.
Proof.
  intros s s' Hs ctx ? <- tx ? <-. apply try_map_list_ext. intros i.
  by apply expand_predicate_tree_proper.
Qed.
End same_state.
