(* ===== verification/Execution.v ===== *)
(** Running a transaction: [vm/src/execution.rs].

    [invoke] runs one predicate in a fresh WebAssembly instance;
    [parallel_invoke_predicates] runs all trees of a transaction as concurrent
    tasks that share the [cancelled] flag, one atomic access at a time, in an
    order chosen by [Rayon]; [and], [or] and [not_] combine the results;
    [execute] is the whole of it.

    A task alternates between loading the flag and finishing the invocation of a
    leaf.  The store to the flag happens in the step that finishes a crashed
    invocation: nothing else of that step is visible to other tasks before they
    end. *)
From S2P Require Import Prelude Address Predicate State Extern Chain Collect.

Section execution.
Context `{!MultihashCrate, !Bs58Crate, !Wasmer} {RA : Rayon} `{!HashOrder Address,
  !Rmp (IntentContent Basic), !Rmp PredicateContext, !Rmp (list ExpandedParam)}.

(** [pub enum Error] *)
Inductive ExecError :=
| EState (e : CollectError)
| Rejected (p : ExpandedPredicate)
| Cancelled
| Memory (e : MemoryError)
| Compile (e : CompileError)
| Instantiation (e : InstantiationError)
| Export (e : ExportError)
| Encoding (e : EncodeError)
| Execution (e : RuntimeError)
| MemoryAccess (e : MemoryAccessError)
| InvalidReturnValue (r : Z).

(** [syscalls]; the host function [debug_log] does nothing in release builds
    and prints in debug builds. *)
Definition syscalls (store : WStore) (memory : WMemory) :
    list (rstring * rstring * WExtern) * WStore :=
  let '(env, store) := function_env_new store memory in
  let '(log, store) := host_function store env in
  ([(str "env", str "memory", memory_extern memory);
    (str "env", str "syscall_debug_log", log)], store).

(** [deliver_data] of [invoke]: the length is truncated to 32 bits. *)
Definition deliver_data (memory : WMemory) (allocate_fn : WFunction) (store : WStore)
    (data : bytes) (ingest_fn : WFunction) : Result (Z * WStore) RuntimeError :=
  let data_len := (Z.of_nat (length data) mod 2 ^ 32)%Z in
  let? r1 := fn_call store allocate_fn [data_len] in
  let raw_ptr := r1.1 in
  let? store := map_err runtime_of_access (view_write r1.2 memory raw_ptr data) in
  fn_call store ingest_fn [raw_ptr; data_len].

(** The module of a predicate: the precompiled one if the cache has it and it
    loads, the compiled one otherwise. *)
Definition load_module (store : WStore) (cache : dyn_state) (cachekey : Address) (code : bytes) :
    Result WModule ExecError :=
  match dyn_get cache cachekey with
  | Some val =>
      match module_deserialize store (acc_state val) with
      | Some module => Ok module
      | None => map_err Compile (module_from_binary store code)
      end
  | None => map_err Compile (module_from_binary store code)
  end.

(** [invoke] once the module is loaded. *)
Definition run_module (store : WStore) (module : WModule) (context : bytes)
    (predicate : ExpandedPredicate) : Result bool ExecError :=
  let? ms := map_err Memory (memory_new store 32) in
  let '(imports, store) := syscalls ms.2 ms.1 in
  let? ins := map_err Instantiation (instance_new store module imports) in
  let '(instance, store) := ins in
  let? allocate_fn := map_err Export (get_typed_function store instance AllocateFn (str "__allocate")) in
  let? context_fn := map_err Export
    (get_typed_function store instance IngestFn (str "__ingest_context")) in
  let? params_fn := map_err Export
    (get_typed_function store instance IngestFn (str "__ingest_params")) in
  let? entrypoint_fn := map_err Export
    (get_typed_function store instance EntryFn (ec_entrypoint (code predicate))) in
  let? cs := map_err Execution (deliver_data ms.1 allocate_fn store context context_fn) in
  let? ps := map_err Execution
    (deliver_data ms.1 allocate_fn cs.2 (to_vec (params predicate)) params_fn) in
  let? rs := map_err Execution (fn_call ps.2 entrypoint_fn [ps.1; cs.1]) in
  if (rs.1 =? 0)%Z then Ok false
  else if (rs.1 =? 1)%Z then Ok true
  else Err (InvalidReturnValue rs.1).

(** [Address::new(format!("/predcache/{}", bs58 of the code hash))] *)
Definition cachekey_of (code : bytes) : Result Address AddressError :=
  new (str "/predcache/" ++ bs58_encode (to_bytes (sha3_256 code))).

(** [invoke]; [None] is the panic of [expect] on the cache key. *)
Definition invoke (context : bytes) (predicate : ExpandedPredicate) (cache : dyn_state) :
    option (Result bool ExecError) :=
  let store := store_new in
  match cachekey_of (ec_code (code predicate)) with
  | Err _ => None
  | Ok cachekey =>
      Some (let? module := load_module store cache cachekey (ec_code (code predicate)) in
            run_module store module context predicate)
  end.

(** [not] *)
Definition rename_not (p : ExpandedPredicate) : ExpandedPredicate :=
  mkPredicate
    (mkExpandedCode (ec_code (code p)) (str "not(" ++ ec_entrypoint (code p) ++ str ")"))
    (params p).
Definition not_ (val : Result ExpandedPredicate ExecError) : Result ExpandedPredicate ExecError :=
  match val with
  | Ok p => Err (Rejected (rename_not p))
  | Err (Rejected p) => Ok (rename_not p)
  | Err e => Err e
  end.

(** [and] *)
Definition and {T} (a b : Result T ExecError) : Result T ExecError :=
  match a, b with
  | Ok p, Ok _ => Ok p
  | Ok _, Err (Rejected p) => Err (Rejected p)
  | Err (Rejected p), Ok _ => Err (Rejected p)
  | Err Cancelled, Err e => Err e
  | Err e, Err Cancelled => Err e
  | Err e, _ => Err e
  | _, Err e => Err e
  end.

(** [or] *)
Definition or {T} (a b : Result T ExecError) : Result T ExecError :=
  match a, b with
  | Ok p, Ok _ => Ok p
  | Ok p, Err (Rejected _) => Ok p
  | Err (Rejected _), Ok p => Ok p
  | Err Cancelled, Err e => Err e
  | Err e, Err Cancelled => Err e
  | Err e, _ => Err e
  | _, Err e => Err e
  end.

(** ** The parallel run *)

(** Where the task of a tree is: before its first load of the flag; between
    leaves, with the results of the leaves so far; in the invocation of the
    next leaf; cancelled by its first load; dead of a panic in a leaf. *)
Inductive Phase :=
| NotStarted
| Between (rs : list (Result ExpandedPredicate ExecError))
| Invoking (rs : list (Result ExpandedPredicate ExecError))
| CancelledAtStart
| Panicked.

Notation Task := (ExpandedTree * Phase)%type.

(** [cancelled] and the tasks. *)
Record Config := mkConfig { cancelled : bool; tasks : list Task }.

Section tasks.
Context (inv : ExpandedPredicate → option (Result bool ExecError)).

(** One step of a task: the flag and the phase afterwards; [None] when the
    task has ended. *)
Definition task_step (flag : bool) (task : Task) : option (bool * Phase) :=
  let '(tree, ph) := task in
  match ph with
  | NotStarted => Some (flag, if flag then CancelledAtStart else Between [])
  | Between rs =>
      match leaves tree !! length rs with
      | None => None
      | Some pred => Some (flag, if flag then Between (rs ++ [Err Cancelled]) else Invoking rs)
      end
  | Invoking rs =>
      match leaves tree !! length rs with
      | None => None
      | Some pred =>
          Some match inv pred with
               | None => (flag, Panicked)
               | Some (Ok true) => (flag, Between (rs ++ [Ok pred]))
               | Some (Ok false) => (flag, Between (rs ++ [Err (Rejected pred)]))
               | Some (Err e) => (true, Between (rs ++ [Err e]))
               end
      end
  | CancelledAtStart | Panicked => None
  end.

Definition step_at (i : nat) (c : Config) : option Config :=
  task ← tasks c !! i;
  '(flag, ph) ← task_step (cancelled c) task;
  Some (mkConfig flag (<[i := (task.1, ph)]> (tasks c))).

(** The tasks that have a step to take. *)
Definition runnable (c : Config) : list nat :=
  filter (λ i, is_Some (step_at i c)) (seq 0 (length (tasks c))).

(** The task [Rayon] picks, the first runnable one if it picks none. *)
Definition choose (time : nat) (r : list nat) : nat :=
  let i := pick time r in if bool_decide (i ∈ r) then i else default 0 (head r).

(** All tasks to their end, by at most [fuel] steps. *)
Fixpoint run_tasks (fuel time : nat) (c : Config) : Config :=
  match fuel with
  | 0 => c
  | S fuel =>
      match runnable c with
      | [] => c
      | r =>
          match step_at (choose time r) c with
          | Some c' => run_tasks fuel (S time) c'
          | None => c
          end
      end
  end.

(** Two steps for a leaf and one to start. *)
Definition task_fuel (tree : ExpandedTree) : nat := S (2 * length (leaves tree)).
End tasks.

(** [tree.map(..)]: the results of the leaves, put back in the tree. *)
Fixpoint fill {T R} (t : ExpressionTree T) (rs : list R) : option (ExpressionTree R * list R) :=
  match t with
  | Id _ => match rs with [] => None | r :: rs => Some (Id r, rs) end
  | Not t => '(u, rs) ← fill t rs; Some (Not u, rs)
  | And l r => '(u, rs) ← fill l rs; '(v, rs) ← fill r rs; Some (And u v, rs)
  | Or l r => '(u, rs) ← fill l rs; '(v, rs) ← fill r rs; Some (Or u v, rs)
  end.

(** [.reduce(|p| p, not, and, or).map(|_| ())] *)
Definition combine_tree (t : ExpressionTree (Result ExpandedPredicate ExecError)) :
    Result unit ExecError :=
  result_map (λ _, tt) (reduce (λ p, p) not_ and or t).

(** What the closure of a tree returns; [None] if it panicked. *)
Definition task_result (task : Task) : option (Result unit ExecError) :=
  match task.2 with
  | CancelledAtStart => Some (Err Cancelled)
  | Between rs => '(t, _) ← fill task.1 rs; Some (combine_tree t)
  | _ => None
  end.

(** [reduce_with]: the items in order, grouped as [Rayon] splits them. *)
Fixpoint par_reduce {A} (op : A → A → A) (fuel start : nat) (l : list A) : option A :=
  match fuel with
  | 0 => None
  | S fuel =>
      match l with
      | [] => None
      | [x] => Some x
      | _ =>
          let k := S (split_range start (length l) mod (length l - 1)) in
          x ← par_reduce op fuel start (take k l);
          y ← par_reduce op fuel (start + k) (drop k l);
          Some (op x y)
      end
  end.
Definition reduce_with {A} (op : A → A → A) (l : list A) : option A :=
  par_reduce op (length l) 0 l.

(** [parallel_invoke_predicates]; [None] is a panic of one of the tasks. *)
Definition parallel_invoke (inv : ExpandedPredicate → option (Result bool ExecError))
    (predicates : list ExpandedTree) : option (Result unit ExecError) :=
  let c0 := mkConfig false ((λ t, (t, NotStarted)) <$> predicates) in
  let c := run_tasks inv (sum_list (task_fuel <$> predicates)) 0 c0 in
  rs ← mapM task_result (tasks c);
  Some (default (Ok tt) (reduce_with and rs)).
Definition parallel_invoke_predicates (context : PredicateContext)
    (predicates : list ExpandedTree) (cache : dyn_state) : option (Result unit ExecError) :=
  let context := to_vec context in
  parallel_invoke (λ pred, invoke context pred cache) predicates.

(** [execute] *)
Definition execute (tx : Transaction Basic) (state cache : dyn_state) :
    option (Result StateDiff ExecError) :=
  match outputs state tx with
  | Err e => Some (Err (EState e))
  | Ok state_diff =>
      match predicate_context state tx with
      | Err e => Some (Err (EState e))
      | Ok context =>
          match accounts_predicates state context tx with
          | None => None
          | Some (Err e) => Some (Err (EState e))
          | Some (Ok account_preds) =>
              match intents_predicates state context tx with
              | Err e => Some (Err (EState e))
              | Ok intent_preds =>
                  result_map (λ _, state_diff) <$>
                    parallel_invoke_predicates context (account_preds ++ intent_preds) cache
              end
          end
      end
  end.
End execution.

Notation Task := (ExpandedTree * Phase)%type.

(** ** Combining results *)

Section combine.
Context `{!Wasmer}.

Lemma and_assoc {T} (a b c : Result T ExecError) : and a (and b c) = and (and a b) c.
Proof. destruct a as [|[]], b as [|[]], c as [|[]]; reflexivity. Qed.

Lemma and_unit_l (b : Result unit ExecError) : and (Ok tt) b = b.
Proof. by destruct b as [[]|[]]. Qed.
Lemma and_unit_r (a : Result unit ExecError) : and a (Ok tt) = a.
Proof. by destruct a as [[]|[]]. Qed.

Lemma and_Ok (a b : Result unit ExecError) : and a b = Ok tt ↔ a = Ok tt ∧ b = Ok tt.
Proof. split; [|by intros [-> ->]]. by destruct a as [[]|[]], b as [[]|[]]. Qed.

(** However a parallel reduction with an associative operation groups the
    items, the result is that of the sequential one. *)
Lemma par_reduce_foldl `{!Rayon} {A} (op : A → A → A) fuel start x l :
  (∀ a b c, op a (op b c) = op (op a b) c) → length l < fuel →
  par_reduce op fuel start (x :: l) = Some (foldl op x l).
Proof.
  intros Hassoc.
  assert (∀ a b k, foldl op (op a b) k = op a (foldl op b k)) as Hfold.
  { intros a b k. revert b. induction k as [|c k IH]; intros b; simpl; [done|].
    by rewrite <-Hassoc, IH. }
  revert start x l. induction fuel as [|fuel IH]; intros start x l Hlen; [lia|].
  destruct l as [|y l]; [done|]. cbn [par_reduce].
  set (k := S (split_range start (length (x :: y :: l)) mod (length (x :: y :: l) - 1))).
  assert (1 ≤ k ≤ length (y :: l)) as Hk.
  { subst k. simpl. pose proof (Nat.mod_upper_bound
      (split_range start (S (S (length l)))) (S (length l))). lia. }
  generalize dependent k. intros k Hk. destruct k as [|k]; [lia|]. cbn [take drop].
  rewrite IH by (rewrite length_take; simpl in *; lia). simpl.
  destruct (drop k (y :: l)) as [|z l'] eqn:Hdrop.
  { apply (f_equal length) in Hdrop. rewrite length_drop in Hdrop. simpl in *. lia. }
  rewrite IH; [|apply (f_equal length) in Hdrop; rewrite length_drop in Hdrop; simpl in *; lia].
  simpl. f_equal. rewrite <-Hfold. change (foldl op (op x y) l) with (foldl op x (y :: l)).
  rewrite <-(take_drop k (y :: l)), Hdrop, foldl_app, take_app_length'; [|].
  { simpl. by rewrite Hfold. }
  rewrite length_take_le; simpl in *; lia.
Qed.

Lemma reduce_with_and `{!Rayon} (rs : list (Result unit ExecError)) :
  default (Ok tt) (reduce_with and rs) = foldr and (Ok tt) rs.
Proof.
  destruct rs as [|r rs]; [done|]. unfold reduce_with.
  rewrite par_reduce_foldl; [|apply and_assoc|simpl; lia]. simpl.
  revert r. induction rs as [|r' rs IH]; intros r; simpl; [by rewrite and_unit_r|].
  by rewrite IH, and_assoc.
Qed.

Lemma foldr_and_Ok (rs : list (Result unit ExecError)) :
  foldr and (Ok tt) rs = Ok tt ↔ Forall (λ r, r = Ok tt) rs.
Proof.
  induction rs as [|r rs IH]; simpl; [by split|]. by rewrite and_Ok, IH, Forall_cons.
Qed.

Lemma fill_rel {T R} (P : T → R → Prop) t rs rest :
  Forall2 P (leaves t) rs → ∃ u, fill t (rs ++ rest) = Some (u, rest) ∧ tree_rel P t u.
Proof.
  revert rs rest. induction t as [x|t IH|l IHl r IHr|l IHl r IHr]; intros rs rest; simpl.
  - intros (y & ? & Hxy & Hnil & ->)%Forall2_cons_inv_l. apply Forall2_nil_inv_l in Hnil as ->.
    exists (Id y). auto.
  - intros (u & -> & Hu)%(IH _ rest). exists (Not u). auto.
  - intros (ls & rs' & Hl & Hr & ->)%Forall2_app_inv_l.
    destruct (IHl _ (rs' ++ rest) Hl) as (u & Hu & ?), (IHr _ rest Hr) as (v & Hv & ?).
    exists (And u v). rewrite <-app_assoc, Hu. simpl. rewrite Hv. auto.
  - intros (ls & rs' & Hl & Hr & ->)%Forall2_app_inv_l.
    destruct (IHl _ (rs' ++ rest) Hl) as (u & Hu & ?), (IHr _ rest Hr) as (v & Hv & ?).
    exists (Or u v). rewrite <-app_assoc, Hu. simpl. rewrite Hv. auto.
Qed.
Lemma combine_tree_Ok u : combine_tree u = Ok tt ↔ ∃ q, reduce (λ r, r) not_ and or u = Ok q.
Proof. unfold combine_tree. destruct (reduce _ _ _ _ u); simpl; naive_solver. Qed.

End combine.

(** ** Steps of the tasks *)

(** A rejecting predicate is reported with its code and its parameters; only the
    name of its entry point says how many negations it went through. *)
Definition reports (q p : ExpandedPredicate) : Prop :=
  ec_code (code q) = ec_code (code p) ∧ params q = params p.

Fixpoint no_not {T} (t : ExpressionTree T) : bool :=
  match t with
  | Id _ => true
  | Not _ => false
  | And l r | Or l r => no_not l && no_not r
  end.

Section steps.
Context `{!Wasmer} {RA : Rayon} (inv : ExpandedPredicate → option (Result bool ExecError)).
Implicit Types (c : Config) (t : ExpandedTree) (rs : list (Result ExpandedPredicate ExecError)).

(** Whether the predicate runs to completion and accepts. *)
Definition accepts (p : ExpandedPredicate) : bool :=
  match inv p with Some (Ok b) => b | _ => false end.

(** A predicate of one of the trees crashes. *)
Definition crash (trees : list ExpandedTree) : Prop :=
  ∃ t p e, t ∈ trees ∧ p ∈ leaves t ∧ inv p = Some (Err e).

(** What the invocation of a leaf gives. *)
Definition leaf_ran (p : ExpandedPredicate) (r : Result ExpandedPredicate ExecError) : Prop :=
  match inv p with
  | Some (Ok true) => r = Ok p
  | Some (Ok false) => r = Err (Rejected p)
  | Some (Err e) => r = Err e
  | None => False
  end.
Definition leaf_out trees p r : Prop := leaf_ran p r ∨ (r = Err Cancelled ∧ crash trees).

Definition task_ok trees (task : Task) : Prop :=
  let n := length (leaves task.1) in
  match task.2 with
  | NotStarted => True
  | Between rs => length rs ≤ n ∧ Forall2 (leaf_out trees) (take (length rs) (leaves task.1)) rs
  | Invoking rs => length rs < n ∧ Forall2 (leaf_out trees) (take (length rs) (leaves task.1)) rs
  | CancelledAtStart => crash trees
  | Panicked => ∃ p, p ∈ leaves task.1 ∧ inv p = None
  end.

Definition config_ok trees c : Prop :=
  (tasks c).*1 = trees ∧ (cancelled c = true → crash trees) ∧ Forall (task_ok trees) (tasks c).

Lemma leaf_out_snoc trees t rs p r :
  leaves t !! length rs = Some p → leaf_out trees p r →
  length rs ≤ length (leaves t) ∧ Forall2 (leaf_out trees) (take (length rs) (leaves t)) rs →
  length (rs ++ [r]) ≤ length (leaves t) ∧
    Forall2 (leaf_out trees) (take (length (rs ++ [r])) (leaves t)) (rs ++ [r]).
Proof.
  intros Hp Hr [_ Hrs]. rewrite length_app. simpl.
  apply lookup_lt_Some in Hp as Hlt. split; [lia|].
  replace (length rs + 1) with (S (length rs)) by lia. erewrite take_S_r by done.
  apply Forall2_app; [done|]. constructor; [done|constructor].
Qed.

Lemma task_step_ok trees flag t ph flag' ph' :
  t ∈ trees → (flag = true → crash trees) → task_ok trees (t, ph) →
  task_step inv flag (t, ph) = Some (flag', ph') →
  (flag' = true → crash trees) ∧ task_ok trees (t, ph').
Proof.
  intros Ht Hflag Hok. destruct ph as [|rs|rs| |]; simpl in *; try done.
  - intros [= <- <-]. split; [done|]. destruct flag; [by apply Hflag|]. split; simpl; [lia|constructor].
  - destruct (leaves t !! length rs) as [p|] eqn:Hp; [|done]. intros [= <- <-]. split; [done|].
    destruct flag; simpl.
    + eapply leaf_out_snoc; [done| |done]. right. auto.
    + split; [by eapply lookup_lt_Some | apply Hok].
  - destruct (leaves t !! length rs) as [p|] eqn:Hp; [|done].
    assert (p ∈ leaves t) as Hin by by eapply list_elem_of_lookup_2.
    assert (∀ r, leaf_ran p r → task_ok trees (t, Between (rs ++ [r]))) as Hran.
    { intros r Hr. eapply leaf_out_snoc; [done|by left|]. split; [by apply Nat.lt_le_incl, Hok|apply Hok]. }
    unfold leaf_ran in Hran.
    destruct (inv p) as [[[]|e]|] eqn:Hinv; intros [= <- <-].
    + split; [done|]. by apply Hran.
    + split; [done|]. by apply Hran.
    + split; [intros _; by exists t, p, e|]. by apply Hran.
    + split; [done|]. by exists p.
Qed.

Lemma step_at_Some i c c' :
  step_at inv i c = Some c' ↔ ∃ t ph flag ph',
    tasks c !! i = Some (t, ph) ∧ task_step inv (cancelled c) (t, ph) = Some (flag, ph') ∧
    c' = mkConfig flag (<[i := (t, ph')]> (tasks c)).
Proof.
  unfold step_at. split.
  - intros ([t ph] & Hi & ([flag ph'] & Hts & [= <-])%bind_Some)%bind_Some.
    by exists t, ph, flag, ph'.
  - intros (t & ph & flag & ph' & Hi & Hts & ->). apply bind_Some. exists (t, ph).
    split; [done|]. apply bind_Some. by exists (flag, ph').
Qed.

Lemma step_at_ok trees i c c' :
  config_ok trees c → step_at inv i c = Some c' → config_ok trees c'.
Proof.
  intros (Htrees & Hflag & Hall) (t & ph & flag & ph' & Hi & Hts & ->)%step_at_Some.
  assert (t ∈ trees) as Ht.
  { rewrite <-Htrees. apply list_elem_of_fmap. exists (t, ph).
    split; [done|]. by eapply list_elem_of_lookup_2. }
  destruct (task_step_ok trees _ _ _ _ _ Ht Hflag (Forall_lookup_1 _ _ _ _ Hall Hi) Hts).
  split; [|split; [done|]]; simpl.
  - rewrite list_fmap_insert. simpl. rewrite list_insert_id; [done|].
    apply list_lookup_fmap_Some. by exists (t, ph).
  - by apply Forall_insert.
Qed.

(** The steps a task has left. *)
Definition remaining (task : Task) : nat :=
  let n := length (leaves task.1) in
  match task.2 with
  | NotStarted => S (2 * n)
  | Between rs => 2 * (n - length rs)
  | Invoking rs => 2 * (n - length rs) - 1
  | CancelledAtStart | Panicked => 0
  end.

Lemma task_step_remaining flag t ph flag' ph' :
  task_step inv flag (t, ph) = Some (flag', ph') → remaining (t, ph') < remaining (t, ph).
Proof.
  unfold remaining. destruct ph as [|rs|rs| |]; simpl; try done.
  - intros [= <- <-]. destruct flag; simpl; lia.
  - destruct (leaves t !! length rs) as [p|] eqn:Hp; [|done]. apply lookup_lt_Some in Hp.
    intros [= <- <-]. destruct flag; simpl; rewrite ?length_app; simpl; lia.
  - destruct (leaves t !! length rs) as [p|] eqn:Hp; [|done]. apply lookup_lt_Some in Hp.
    destruct (inv p) as [[[]|e]|]; intros [= <- <-]; simpl; rewrite ?length_app; simpl; lia.
Qed.

Lemma step_at_remaining i c c' :
  step_at inv i c = Some c' →
  sum_list (remaining <$> tasks c') < sum_list (remaining <$> tasks c).
Proof.
  intros (t & ph & flag & ph' & Hi & Hts & ->)%step_at_Some.
  apply task_step_remaining in Hts. simpl.
  rewrite <-(take_drop_middle _ _ _ Hi) at 2. rewrite insert_take_drop by by eapply lookup_lt_Some.
  rewrite !fmap_app, !sum_list_with_app || rewrite !fmap_app, !sum_list_app. simpl. lia.
Qed.

Lemma elem_of_runnable i c : i ∈ runnable inv c ↔ is_Some (step_at inv i c).
Proof.
  unfold runnable. rewrite list_elem_of_filter, elem_of_seq. split; [by intros [? _]|].
  intros Hs. split; [done|]. destruct Hs as [c' (t & ph & _ & _ & Hi & _)%step_at_Some].
  apply lookup_lt_Some in Hi. lia.
Qed.

Lemma choose_elem time r : r ≠ [] → choose time r ∈ r.
Proof.
  intros Hr. unfold choose. case_bool_decide; [done|]. destruct r; [done|]. simpl. by left.
Qed.

(** With enough fuel every task ends, and the run keeps the invariant. *)
Lemma run_tasks_ends trees fuel time c :
  config_ok trees c → sum_list (remaining <$> tasks c) ≤ fuel →
  let c' := run_tasks inv fuel time c in
  config_ok trees c' ∧ ∀ i, step_at inv i c' = None.
Proof.
  revert time c. induction fuel as [|fuel IH]; intros time c Hok Hfuel; simpl.
  - split; [done|]. intros i. destruct (step_at inv i c) as [c'|] eqn:Hs; [|done].
    apply step_at_remaining in Hs. lia.
  - destruct (runnable inv c) as [|i0 r] eqn:Hr.
    + split; [done|]. intros i. destruct (step_at inv i c) as [c'|] eqn:Hs; [|done].
      assert (i ∈ runnable inv c) as Hin by (apply elem_of_runnable; eauto).
      rewrite Hr in Hin. by apply elem_of_nil in Hin.
    + assert (choose time (i0 :: r) ∈ runnable inv c) as Hin.
      { rewrite Hr. by apply choose_elem. }
      apply elem_of_runnable in Hin as [c' Hs]. rewrite Hs.
      apply IH; [by eapply step_at_ok|]. apply step_at_remaining in Hs. lia.
Qed.
End steps.

(** ** The result of a parallel run *)

Section outcome.
Context `{!Wasmer} {RA : Rayon} (inv : ExpandedPredicate → option (Result bool ExecError)).

(** What the task of a tree may return: a combination of the outcomes of the
    leaves, or a cancellation if something crashed. *)
Definition task_outcome trees (t : ExpandedTree) (r : Result unit ExecError) : Prop :=
  (r = Err Cancelled ∧ crash inv trees) ∨
  ∃ u, tree_rel (leaf_out inv trees) t u ∧ r = combine_tree u.

Lemma task_ended trees flag t ph :
  task_ok inv trees (t, ph) → task_step inv flag (t, ph) = None →
  (∀ p, p ∈ leaves t → inv p ≠ None) →
  ∃ r, task_result (t, ph) = Some r ∧ task_outcome trees t r.
Proof.
  unfold task_ok. intros Hok Hend Hinv. unfold task_outcome. destruct ph as [|rs|rs| |]; simpl in *.
  - done.
  - destruct Hok as [Hlen Hrs].
    destruct (leaves t !! length rs) as [p|] eqn:Hp; [by destruct flag|].
    apply lookup_ge_None in Hp. unfold task_result. simpl.
    rewrite take_ge in Hrs by done.
    destruct (fill_rel _ _ _ [] Hrs) as (u & Hu & Hrel). rewrite app_nil_r in Hu.
    rewrite Hu. simpl. eexists. split; [done|]. right. eauto.
  - destruct Hok as [Hlen _]. apply lookup_lt_is_Some in Hlen as [p Hp]. by rewrite Hp in Hend.
  - eauto.
  - destruct Hok as (p & Hp & Hnone). by destruct (Hinv p Hp).
Qed.

Lemma parallel_outcome trees :
  (∀ t p, t ∈ trees → p ∈ leaves t → inv p ≠ None) →
  ∃ rs, parallel_invoke inv trees = Some (foldr and (Ok tt) rs) ∧
    Forall2 (task_outcome trees) trees rs.
Proof.
  intros Hinv. unfold parallel_invoke.
  set (c0 := mkConfig false _).
  assert (config_ok inv trees c0) as Hok0.
  { split; [|split; [done|]]; simpl.
    - by rewrite <-list_fmap_compose, list_fmap_id.
    - apply Forall_fmap, Forall_true. by intros t. }
  destruct (run_tasks_ends inv trees (sum_list (task_fuel <$> trees)) 0 c0 Hok0)
    as [(Htrees & _ & Hall) Hend].
  { simpl. by rewrite <-list_fmap_compose. }
  set (c' := run_tasks inv (sum_list (task_fuel <$> trees)) 0 c0) in *.
  destruct (Forall_ex_Forall2 (λ (task : Task) r,
    task_result task = Some r ∧ task_outcome trees task.1 r) (tasks c')) as [rs Hrs].
  { apply Forall_lookup. intros i [t ph] Hi. apply (task_ended trees (cancelled c')).
    - by eapply Forall_lookup in Hall.
    - destruct (task_step inv (cancelled c') (t, ph)) as [[flag ph']|] eqn:Hts; [|exact Hts].
      specialize (Hend i). assert (step_at inv i c' = Some (mkConfig flag (<[i := (t, ph')]> (tasks c')))) as Hs.
      { apply step_at_Some. by exists t, ph, flag, ph'. }
      congruence.
    - intros p. apply Hinv. rewrite <-Htrees. apply list_elem_of_fmap. exists (t, ph).
      split; [done|]. by eapply list_elem_of_lookup_2. }
  exists rs. split.
  - assert (mapM task_result (tasks c') = Some rs) as ->.
    { apply mapM_Some. eapply Forall2_impl; [exact Hrs|]. by intros ? ? [? _]. }
    simpl. by rewrite reduce_with_and.
  - assert (Forall2 (task_outcome trees) (tasks c').*1 rs) as Hf; [|by rewrite Htrees in Hf].
    apply Forall2_fmap_l. eapply Forall2_impl; [exact Hrs|]. by intros ? ? [_ ?].
Qed.

(** Without crashes a tree evaluates like a boolean formula. *)
Lemma combine_no_crash trees (t : ExpandedTree) u :
  ¬ crash inv trees → (∀ p, p ∈ leaves t → ∃ b, inv p = Some (Ok b)) →
  tree_rel (leaf_out inv trees) t u →
  ∃ q, (∃ p, p ∈ leaves t ∧ reports q p) ∧
    reduce (λ r, r) not_ and or u =
      if holds (accepts inv) t then Ok q else Err (Rejected q).
Proof.
  intros Hno Hinv Hrel. unfold holds.
  induction Hrel as [p r Hr|t u _ IH|t1 t2 u1 u2 _ IH1 _ IH2|t1 t2 u1 u2 _ IH1 _ IH2];
    simpl in *.
  - destruct Hr as [Hr|[_ Hc]]; [|done]. unfold leaf_ran, accepts in *.
    destruct (Hinv p) as [b Hb]; [by left|]. rewrite Hb in *.
    exists p. split; [by exists p; split; [left|]|]. by destruct b.
  - destruct (IH Hinv) as (q & (p & Hp & Hq) & ->).
    exists (rename_not q). split; [by exists p|].
    by destruct (reduce (accepts inv) negb andb orb t).
  - destruct IH1 as (q1 & (p1 & Hp1 & Hq1) & ->); [set_solver|].
    destruct IH2 as (q2 & (p2 & Hp2 & Hq2) & ->); [set_solver|].
    destruct (reduce (accepts inv) negb andb orb t1); simpl.
    + destruct (reduce (accepts inv) negb andb orb t2); simpl.
      * exists q1. split; [|done]. exists p1. split; [set_solver|done].
      * exists q2. split; [|done]. exists p2. split; [set_solver|done].
    + exists q1. split; [exists p1; split; [set_solver|done]|].
      by destruct (reduce (accepts inv) negb andb orb t2).
  - destruct IH1 as (q1 & (p1 & Hp1 & Hq1) & ->); [set_solver|].
    destruct IH2 as (q2 & (p2 & Hp2 & Hq2) & ->); [set_solver|].
    destruct (reduce (accepts inv) negb andb orb t1); simpl.
    + exists q1. split; [exists p1; split; [set_solver|done]|].
      by destruct (reduce (accepts inv) negb andb orb t2).
    + destruct (reduce (accepts inv) negb andb orb t2); simpl.
      * exists q2. split; [|done]. exists p2. split; [set_solver|done].
      * exists q1. split; [|done]. exists p1. split; [set_solver|done].
Qed.

(** Without negations, an accepted tree holds whatever crashes. *)
Lemma combine_no_not trees (t : ExpandedTree) u q :
  no_not t = true → tree_rel (leaf_out inv trees) t u →
  reduce (λ r, r) not_ and or u = Ok q → holds (accepts inv) t = true.
Proof.
  unfold holds. intros Hnn Hrel. revert q Hnn.
  induction Hrel as [p r Hr|t u _ IH|t1 t2 u1 u2 _ IH1 _ IH2|t1 t2 u1 u2 _ IH1 _ IH2];
    intros q Hnn Hred; simpl in *; [|done|..].
  - destruct Hr as [Hr|[-> _]]; [|done]. unfold leaf_ran, accepts in *.
    destruct (inv p) as [[[]|]|]; naive_solver.
  - apply andb_true_iff in Hnn as [Hn1 Hn2].
    destruct (reduce _ _ _ _ u1) as [q1|[]], (reduce _ _ _ _ u2) as [q2|[]]; try done.
    by rewrite (IH1 q1), (IH2 q2).
  - apply andb_true_iff in Hnn as [Hn1 Hn2]. apply orb_true_iff.
    destruct (reduce _ _ _ _ u1) as [q1|[]], (reduce _ _ _ _ u2) as [q2|[]]; try done;
      solve [left; by eapply IH1 | right; by eapply IH2].
Qed.

(** What an accepted run says about each of its trees. *)
Lemma accepted_tree trees t r :
  (∀ p, p ∈ leaves t → inv p ≠ None) → t ∈ trees → task_outcome trees t r → r = Ok tt →
  no_not t = true ∨ ¬ crash inv trees → holds (accepts inv) t = true.
Proof.
  intros Hinv Ht [[-> _]|(u & Hrel & ->)] Hr Hwhy; [done|].
  apply combine_tree_Ok in Hr as [q Hq]. destruct Hwhy as [Hnn|Hno].
  - by eapply combine_no_not.
  - destruct (combine_no_crash trees t u) as (q' & _ & Hq'); [done| |done|].
    + intros p Hp. specialize (Hinv p Hp). destruct (inv p) as [[b|e]|] eqn:He; [eauto| |done].
      destruct Hno. by exists t, p, e.
    + rewrite Hq in Hq'. by destruct (holds (accepts inv) t).
Qed.

(** An accepted run, and a run in which nothing crashes. *)
Lemma run_accepted trees :
  (∀ t p, t ∈ trees → p ∈ leaves t → inv p ≠ None) → parallel_invoke inv trees = Some (Ok tt) →
  ∀ t, t ∈ trees → no_not t = true ∨ ¬ crash inv trees → holds (accepts inv) t = true.
Proof.
  intros Hinv Hrun t Ht. destruct (parallel_outcome trees Hinv) as (rs & Hrs & Hout).
  rewrite Hrs in Hrun. injection Hrun as Hok. rewrite foldr_and_Ok in Hok.
  apply list_elem_of_lookup in Ht as [i Hi].
  destruct (Forall2_lookup_l _ _ _ _ _ Hout Hi) as (r & Hr & Hres).
  pose proof (list_elem_of_lookup_2 _ _ _ Hi) as Ht.
  eapply accepted_tree; [by intros p; apply Hinv|exact Ht|exact Hres|].
  by eapply Forall_lookup in Hok.
Qed.

Lemma run_no_crash trees :
  (∀ t p, t ∈ trees → p ∈ leaves t → ∃ b, inv p = Some (Ok b)) →
  parallel_invoke inv trees = Some (Ok tt) ↔ ∀ t, t ∈ trees → holds (accepts inv) t = true.
Proof.
  intros Hinv.
  assert (∀ t p, t ∈ trees → p ∈ leaves t → inv p ≠ None) as Htot.
  { intros t p Ht Hp. destruct (Hinv t p Ht Hp) as [b ->]. done. }
  assert (¬ crash inv trees) as Hnc.
  { intros (t & p & e & Ht & Hp & He). destruct (Hinv t p Ht Hp) as [b Hb]. congruence. }
  split; [intros Hrun t Ht; by eapply run_accepted; [..|right]|].
  intros Hall. destruct (parallel_outcome trees Htot) as (rs & -> & Hrs).
  f_equal. apply foldr_and_Ok, Forall_lookup. intros i r Hr.
  destruct (Forall2_lookup_r _ _ _ _ _ Hrs Hr) as (t & Ht & [[_ Hc]|(u & Hrel & ->)]); [done|].
  apply list_elem_of_lookup_2 in Ht. apply combine_tree_Ok.
  destruct (combine_no_crash trees t u) as (q & _ & Hq); [done|by intros p; apply Hinv|done|].
  rewrite (Hall t Ht) in Hq. eauto.
Qed.
End outcome.

(** [execute] depends on the answers of the state only. *)
#[global] Instance execute_proper `{!MultihashCrate, !Bs58Crate, !Wasmer} {RA : Rayon}
    `{!HashOrder Address, !Rmp (IntentContent Basic), !Rmp PredicateContext,
    !Rmp (list ExpandedParam)} :
  Proper ((=) ==> (≡) ==> (=) ==> (=)) execute.
Proof.
  intros tx ? <- s s' Hs cache ? <-. unfold execute.
  rewrite (outputs_proper s s' Hs _ _ eq_refl).
  destruct (outputs s' tx); [|done]. rewrite (predicate_context_proper s s' Hs _ _ eq_refl).
  destruct (predicate_context s' tx) as [ctx|]; [|done].
  rewrite (accounts_predicates_proper s s' Hs _ _ eq_refl _ _ eq_refl).
  destruct (accounts_predicates s' ctx tx) as [[|]|]; [|done..].
  by rewrite (intents_predicates_proper s s' Hs _ _ eq_refl _ _ eq_refl).
Qed.
