(* ===== verification/ExecutionProps.v ===== *)
(** What running a transaction guarantees: the theorems about the definitions of
    [Execution]. *)
From S2P Require Import Prelude Address Predicate State Extern Chain Sandbox Collect Execution.

#[global] Instance sandbox_rmp_params : Rmp (list ExpandedParam) := rmp_countable (list ExpandedParam).
(** Only the proposals are encoded here; no theorem decodes a context. *)
#[global] Instance sandbox_rmp_context : Rmp PredicateContext :=
  {| to_vec c := to_vec (Rmp := rmp_countable (list (Address * ExpandedAccountChange)))
       (map_to_list (ctx_proposals c));
     from_slice _ := None |}.

(** ** Invoking a predicate *)

Lemma seg_char_alnum c : is_ascii_alphanumeric c = true → seg_char c.
Proof.
  intros Hc. unfold seg_char, allowed_char. rewrite Hc. split; [done|]. by intros ->.
Qed.

Lemma cachekey_ok `{!MultihashCrate, !Bs58Crate, !MultihashLaws, !Bs58Laws} (c : bytes) :
  cachekey_of c = Ok (mkAddress (str "/predcache/" ++ bs58_encode (to_bytes (sha3_256 c)))) ∧
  valid (mkAddress (str "/predcache/" ++ bs58_encode (to_bytes (sha3_256 c)))).
Proof.
  assert (valid (mkAddress (str "/predcache/" ++ bs58_encode (to_bytes (sha3_256 c))))) as Hv.
  { exists [str "predcache"; bs58_encode (to_bytes (sha3_256 c))]. split.
    - split; [done|]. repeat constructor; try done.
      + apply bs58_nonempty, to_bytes_sha3.
      + eapply Forall_impl; [apply bs58_alphabet|]. intros x. apply seg_char_alnum.
    - unfold join. simpl. by rewrite app_nil_r. }
  split; [|done]. unfold cachekey_of. by apply valid_new in Hv.
Qed.

Lemma invoke_total `{!MultihashCrate, !Bs58Crate, !MultihashLaws, !Bs58Laws, !Wasmer,
    !Rmp (list ExpandedParam)} context p cache :
  invoke context p cache ≠ None.
Proof. unfold invoke. by destruct (cachekey_ok (ec_code (code p))) as [-> _]. Qed.

(** The entry of the cache under the key of the code [c], if there is one and it
    loads, loads to the module that compiling the code gives. *)
Definition cache_faithful `{!MultihashCrate, !Bs58Crate, !Wasmer} (c : bytes)
    (cache : dyn_state) : Prop :=
  ∀ key val module,
    cachekey_of c = Ok key → dyn_get cache key = Some val →
    module_deserialize store_new (acc_state val) = Some module →
    module_from_binary store_new c = Ok module.

(** The cache of compiled modules is only a cache: an invocation never panics
    on its key, and with a cache whose entry for its code is what it should be, or is
    damaged so that it does not load, it returns what it returns without one. *)
Theorem invoke_cache_transparent `{!MultihashCrate, !Bs58Crate, !MultihashLaws, !Bs58Laws, !Wasmer,
    !Rmp (list ExpandedParam)} context (p : ExpandedPredicate) (cache : dyn_state) :
  cache_faithful (ec_code (code p)) cache →
  ∃ r, invoke context p cache = Some r ∧ invoke context p (Dyn empty_diff) = Some r.
Proof.
  intros Hc. unfold invoke. destruct (cachekey_ok (ec_code (code p))) as [Hkey _].
  rewrite Hkey. eexists. split; [|reflexivity].
  f_equal. f_equal. unfold load_module.
  change (dyn_get (Dyn empty_diff) _) with (None : option Account) || cbn.
  destruct (dyn_get cache _) as [val|] eqn:Hval; [|done].
  destruct (module_deserialize store_new (acc_state val)) as [module|] eqn:Hm; [|done].
  by rewrite (Hc _ _ _ Hkey Hval Hm).
Qed.

Definition toy_code (b : Byte.byte) : ExpandedPredicate :=
  mkPredicate (mkExpandedCode [b] (str "invoke")) [].
Definition accepting : ExpandedPredicate := toy_code Byte.x01.
Definition rejecting : ExpandedPredicate := toy_code Byte.x00.
Definition crashing : ExpandedPredicate := toy_code Byte.x02.

Lemma invoke_cache_transparent_witness :
  let key := mkAddress (str "/predcache/" ++ bs58_encode (to_bytes (sha3_256 [Byte.x01]))) in
  let cache := Dyn (mkStore {[key := mkAccount [Byte.x01] (acc_predicates example_account)]}) in
  invoke [] accepting cache = Some (Ok true).
Proof.
  intros key cache. destruct (invoke_cache_transparent [] accepting cache) as (r & -> & Hr).
  - intros key' val module Hkey Hval Hm.
    unfold cache, dyn_get in Hval. simpl in Hval.
    apply lookup_singleton_Some in Hval as [_ <-]. simpl in *. congruence.
  - vm_compute in Hr. by injection Hr as <-.
Defined.

(** ** Parallel runs without crashes *)

(** Predicates that all run to completion.  Whatever the schedule and
    whatever the grouping of the results, the run ends; it accepts exactly when
    every tree holds as a boolean formula over the answers of its predicates, and
    otherwise the error is the rejection of the first tree of the list that does
    not hold, by one of its predicates. *)
Theorem parallel_no_crash `{!Wasmer} {RA : Rayon}
    (inv : ExpandedPredicate → option (Result bool ExecError)) (trees : list ExpandedTree) :
  (∀ t p, t ∈ trees → p ∈ leaves t → ∃ b, inv p = Some (Ok b)) →
  (parallel_invoke inv trees = Some (Ok tt) ∧
    Forall (λ t, holds (accepts inv) t = true) trees) ∨
  (∃ pre t post p q, trees = pre ++ t :: post ∧
    Forall (λ t, holds (accepts inv) t = true) pre ∧ holds (accepts inv) t = false ∧
    p ∈ leaves t ∧ reports q p ∧ parallel_invoke inv trees = Some (Err (Rejected q))).
Proof.
  intros Hinv.
  assert (¬ crash inv trees) as Hno.
  { intros (t & p & e & Ht & Hp & He). destruct (Hinv t p Ht Hp) as [b Hb]. congruence. }
  destruct (parallel_outcome inv trees) as (rs & -> & Hrs).
  { intros t p Ht Hp. destruct (Hinv t p Ht Hp) as [b ->]. done. }
  assert (Forall2 (λ t r, ∃ p q, p ∈ leaves t ∧ reports q p ∧
    r = if holds (accepts inv) t then Ok tt else Err (Rejected q)) trees rs) as Hrs'.
  { apply Forall2_same_length_lookup. split; [by eapply Forall2_length|].
    intros i t r Ht Hr. pose proof (list_elem_of_lookup_2 _ _ _ Ht) as Hin.
    destruct (Forall2_lookup_lr _ _ _ _ _ _ Hrs Ht Hr) as [[_ Hc]|(u & Hrel & ->)]; [done|].
    destruct (combine_no_crash inv trees t u) as (q & (p & Hp & Hq) & Hred); [done|eauto|done|].
    exists p, q. split; [done|]. split; [done|]. unfold combine_tree. rewrite Hred.
    by destruct (holds (accepts inv) t). }
  clear Hrs Hno Hinv. induction Hrs' as [|t r trees rs (p & q & Hp & Hq & ->) _ IH].
  - left. by split.
  - destruct (holds (accepts inv) t) eqn:Ht.
    + cbn [foldr]. rewrite and_unit_l.
      destruct IH as [[-> Hall] | (pre & t' & post & p' & q' & -> & Hpre & Ht' & Hp' & Hq' & ->)].
      * left. split; [done|]. by constructor.
      * right. exists (t :: pre), t', post, p', q'. split; [done|].
        split; [by constructor|]. done.
    + right. exists [], t, trees, p, q. repeat split; try done; [apply Hq|apply Hq|].
      cbn [foldr].
      by destruct IH as [[[= ->] _] | (? & ? & ? & ? & q' & _ & _ & _ & _ & _ & [= ->])].
Qed.

Lemma parallel_no_crash_witness :
  let inv := λ p, invoke [] p (Dyn empty_diff) in
  parallel_invoke (RA := last_first) inv
    [And (Id accepting) (Not (Id rejecting)); Or (Id rejecting) (Id accepting)] = Some (Ok tt).
Proof.
  intros inv.
  destruct (parallel_no_crash (RA := last_first) inv
    [And (Id accepting) (Not (Id rejecting)); Or (Id rejecting) (Id accepting)])
    as [[Hok _]|(pre & t & post & p & q & Heq & _ & Ht & _)].
  - intros t p Ht Hp. exists (bool_decide (p = accepting)).
    assert (p = accepting ∨ p = rejecting) as [-> | ->].
    { repeat (apply elem_of_cons in Ht as [->|Ht]; [set_solver|]). by apply elem_of_nil in Ht. }
    + by vm_compute.
    + by vm_compute.
  - exact Hok.
  - exfalso. destruct pre as [|t1 [|t2 [|t3 pre]]]; simplify_eq/=; by vm_compute in Ht.
Defined.

(** ** Parallel runs in which predicates crash *)

(** C4: predicates that may crash.  As long as no invocation panics, every
    schedule ends with a result; and when the result is an acceptance, every tree
    without a negation holds as a boolean formula in which a crashed predicate
    counts as not accepting, and so does every tree if nothing crashed. *)
Theorem parallel_sound `{!Wasmer} {RA : Rayon}
    (inv : ExpandedPredicate → option (Result bool ExecError)) (trees : list ExpandedTree) :
  (∀ t p, t ∈ trees → p ∈ leaves t → inv p ≠ None) →
  ∃ r, parallel_invoke inv trees = Some r ∧
    (r = Ok tt → ∀ t, t ∈ trees → no_not t = true ∨ ¬ crash inv trees →
      holds (accepts inv) t = true).
Proof.
  intros Hinv. destruct (parallel_outcome inv trees Hinv) as (rs & Hrs & _).
  eexists. split; [exact Hrs|]. intros Hr. rewrite Hr in Hrs. by apply run_accepted.
Qed.

Lemma parallel_sound_witness :
  let inv := λ p, invoke [] p (Dyn empty_diff) in
  ∃ r, parallel_invoke (RA := last_first) inv [And (Id accepting) (Id crashing); Id accepting] = Some r ∧
    r ≠ Ok tt.
Proof.
  intros inv.
  destruct (parallel_sound (RA := last_first) inv [And (Id accepting) (Id crashing); Id accepting])
    as (r & Hr & Hok).
  - intros t p _ _. exact (invoke_total [] p (Dyn empty_diff)).
  - exists r. split; [exact Hr|]. intros ->.
    specialize (Hok eq_refl (And (Id accepting) (Id crashing))).
    assert (holds (accepts inv) (And (Id accepting) (Id crashing)) = false) as Hh.
    { clear. by vm_compute. }
    rewrite Hok in Hh; [discriminate Hh|by left|by left].
Defined.

(** A crash under a negation is accepted.  In a conjunction the rejection on
    the left hides a crash on the right, and the negation turns the rejection
    into an acceptance; so whatever the schedule, a transaction whose only tree
    is [Not (And p q)] with [p] rejecting and [q] crashing is accepted, although
    the documentation of the function says that a crash is returned as the reason
    of a failure. *)
Theorem parallel_swallows_crash `{!Wasmer} {RA : Rayon}
    (inv : ExpandedPredicate → option (Result bool ExecError)) (p q : ExpandedPredicate) e :
  inv p = Some (Ok false) → inv q = Some (Err e) →
  parallel_invoke inv [Not (And (Id p) (Id q))] = Some (Ok tt).
Proof.
  intros Hp Hq. unfold parallel_invoke.
  assert (∀ time, choose time [0] = 0) as Hch.
  { intros time. unfold choose. case_bool_decide as Hin; [set_solver|done]. }
  assert (∀ fuel time flag task flag' ph, task_step inv flag task = Some (flag', ph) →
    run_tasks inv (S fuel) time (mkConfig flag [task]) =
      run_tasks inv fuel (S time) (mkConfig flag' [(task.1, ph)])) as Hstep.
  { intros fuel time flag task flag' ph Hts.
    assert (step_at inv 0 (mkConfig flag [task]) = Some (mkConfig flag' [(task.1, ph)])) as Hs.
    { apply step_at_Some. destruct task as [t ph0]. by exists t, ph0, flag', ph. }
    cbn [run_tasks]. assert (runnable inv (mkConfig flag [task]) = [0]) as ->.
    { unfold runnable. simpl. rewrite filter_cons, decide_True; [done|]. rewrite Hs. by eexists. }
    by rewrite Hch, Hs. }
  change (sum_list _) with 5. cbn [fmap list_fmap].
  rewrite (Hstep _ _ _ _ false (Between [])) by done.
  rewrite (Hstep _ _ _ _ false (Invoking [])) by done.
  rewrite (Hstep _ _ _ _ false (Between [Err (Rejected p)])) by (simpl; by rewrite Hp).
  rewrite (Hstep _ _ _ _ false (Invoking [Err (Rejected p)])) by done.
  rewrite (Hstep _ _ _ _ true (Between [Err (Rejected p); Err e])) by (simpl; by rewrite Hq).
  simpl. by destruct e.
Qed.

Lemma parallel_swallows_crash_witness :
  parallel_invoke (RA := sequential) (λ p, invoke [] p (Dyn empty_diff))
    [Not (And (Id rejecting) (Id crashing))] = Some (Ok tt).
Proof.
  apply (parallel_swallows_crash (RA := sequential) _ rejecting crashing (InvalidReturnValue 2));
    by vm_compute.
Defined.

(** With negations, scheduling decides acceptance.  For the two trees below,
    one of which swallows a crash, the schedule that runs the trees one after the
    other accepts nothing and the one that runs the last tree first accepts: the
    cancellation that the crash causes turns a disjunction that would have
    accepted into a rejection, which the negation turns into an acceptance. *)
Theorem parallel_schedule_dependent :
  let inv := λ p, invoke [] p (Dyn empty_diff) in
  let trees := [Not (Or (Id rejecting) (Id accepting)); Not (And (Id rejecting) (Id crashing))] in
  let interleaved : Rayon := {|
    pick time _ := default 0 ([0; 0; 0; 1; 1; 1; 1; 1] !! time); split_range _ _ := 0 |} in
  (∃ q, parallel_invoke (RA := sequential) inv trees = Some (Err (Rejected q))) ∧
  parallel_invoke (RA := interleaved) inv trees = Some (Ok tt).
Proof. split; [eexists|]; by vm_compute. Qed.

(** ** Executing a transaction *)

(** A predicate tree that has to accept a transaction: the one of an account it
    covers, or the expectations of one of its intents, expanded. *)
Definition triggered `{!MultihashCrate} (state : dyn_state) (tx : Transaction Basic)
    (ctx : PredicateContext) (t : ExpandedTree) : Prop :=
  (∃ a, covered tx a ∧ expanded_at state ctx (merged_calldata ctx) a (Ok t)) ∨
  (∃ i : Intent Basic, i ∈ intents tx ∧
    expand_predicate_tree state (expectations i) ctx (calldata i) = Ok t).

(** One of them has a reference that cannot be resolved. *)
Definition unresolved `{!MultihashCrate} (state : dyn_state) (tx : Transaction Basic)
    (ctx : PredicateContext) (e : CollectError) : Prop :=
  (∃ a, covered tx a ∧ expanded_at state ctx (merged_calldata ctx) a (Err e)) ∨
  (∃ i : Intent Basic, i ∈ intents tx ∧
    expand_predicate_tree state (expectations i) ctx (calldata i) = Err e).

Section execute.
Context `{!MultihashCrate, !Bs58Crate, !Wasmer} {RA : Rayon} `{!HashOrder Address,
  !Rmp (IntentContent Basic), !Rmp PredicateContext, !Rmp (list ExpandedParam)}.
Implicit Types (tx : Transaction Basic) (state cache : dyn_state) (ctx : PredicateContext).

Lemma intents_predicates_trees state ctx tx :
  match intents_predicates state ctx tx with
  | Ok trees =>
      (∀ t, t ∈ trees ↔ ∃ i : Intent Basic, i ∈ intents tx ∧
        expand_predicate_tree state (expectations i) ctx (calldata i) = Ok t) ∧
      (∀ (i : Intent Basic) e, i ∈ intents tx →
        expand_predicate_tree state (expectations i) ctx (calldata i) ≠ Err e)
  | Err e => ∃ i : Intent Basic, i ∈ intents tx ∧
      expand_predicate_tree state (expectations i) ctx (calldata i) = Err e
  end.
Proof.
  unfold intents_predicates. destruct (try_map_list _ _) as [trees|e] eqn:Hrun.
  - apply try_map_list_Ok in Hrun. split.
    + intros t. split.
      * intros [k Hk]%list_elem_of_lookup.
        destruct (Forall2_lookup_r _ _ _ _ _ Hrun Hk) as (i & Hi & Ht).
        exists i. split; [by eapply list_elem_of_lookup_2|done].
      * intros (i & [k Hk]%list_elem_of_lookup & Ht).
        destruct (Forall2_lookup_l _ _ _ _ _ Hrun Hk) as (t' & Hk' & Ht').
        rewrite Ht in Ht'. injection Ht' as <-. by eapply list_elem_of_lookup_2.
    + intros i e [k Hk]%list_elem_of_lookup He.
      destruct (Forall2_lookup_l _ _ _ _ _ Hrun Hk) as (t' & _ & Ht'). congruence.
  - apply try_map_list_Err in Hrun as (pre & i & post & Hi & He & _).
    exists i. split; [rewrite Hi; set_solver|done].
Qed.

(** After the collection of the outputs and the context, either some reference
    does not resolve, or exactly the triggered trees are run. *)
Lemma execute_collected tx state cache d ctx :
  tx_valid tx → outputs state tx = Ok d → predicate_context state tx = Ok ctx →
  (∃ e, unresolved state tx ctx e ∧ execute tx state cache = Some (Err (EState e))) ∨
  (∃ trees, (∀ t, t ∈ trees ↔ triggered state tx ctx t) ∧ (∀ e, ¬ unresolved state tx ctx e) ∧
    execute tx state cache =
      result_map (λ _, d) <$> parallel_invoke (λ p, invoke (to_vec ctx) p cache) trees).
Proof.
  intros Hv Hout Hctx. unfold execute. rewrite Hout, Hctx.
  destruct (accounts_predicates_eq state ctx tx Hv) as (l & Hcov & ->).
  destruct (try_fold _ _ _) as [out|e] eqn:Hrun; simpl.
  2:{ left. exists e. split; [|done]. left.
      apply visit_fold_Err in Hrun as (a & Ha & He). exists a. split; [by apply Hcov|done]. }
  destruct (visited_trees _ _ _ _ _ Hrun) as [Hin Hno].
  pose proof (intents_predicates_trees state ctx tx) as Hint.
  destruct (intents_predicates state ctx tx) as [itrees|e].
  2:{ left. exists e. split; [by right|done]. }
  destruct Hint as [Hiin Hino]. right. eexists. split; [|split; [|reflexivity]].
  - intros t. rewrite elem_of_app, Hiin, list_elem_of_fmap. unfold triggered.
    assert ((∃ e : Address * ExpandedTree, t = e.2 ∧ e ∈ hash_iter out) ↔
      ∃ a, covered tx a ∧ expanded_at state ctx (merged_calldata ctx) a (Ok t)) as ->; [|done].
    split.
    + intros ([a t'] & -> & Ht). exists a. apply Hin in Ht. by rewrite <-Hcov.
    + intros (a & Ha & Ht). exists (a, t). split; [done|]. apply Hin. by rewrite Hcov.
  - intros e [(a & Ha & He)|(i & Hi & He)]; [|by eapply Hino].
    eapply Hno; [by apply Hcov|exact He].
Qed.
Lemma execute_total `{!MultihashLaws, !Bs58Laws} tx state cache :
  tx_valid tx → execute tx state cache ≠ None.
Proof.
  intros Hv. destruct (outputs state tx) as [d|e] eqn:Hout; [|by (unfold execute; rewrite Hout)].
  destruct (predicate_context state tx) as [ctx|e] eqn:Hctx;
    [|by (unfold execute; rewrite Hout, Hctx)].
  destruct (execute_collected tx state cache d ctx Hv Hout Hctx)
    as [(e & _ & ->)|(trees & _ & _ & ->)]; [done|].
  destruct (parallel_outcome (λ p, invoke (to_vec ctx) p cache) trees) as (rs & -> & _); [|done].
  intros t p _ _. exact (invoke_total (to_vec ctx) p cache).
Qed.

(** What an accepted transaction says about the trees it triggers. *)
Lemma accepted_triggered `{!MultihashLaws, !Bs58Laws} tx state cache d :
  tx_valid tx → execute tx state cache = Some (Ok d) →
  outputs state tx = Ok d ∧
  ∃ ctx, predicate_context state tx = Ok ctx ∧ (∀ e, ¬ unresolved state tx ctx e) ∧
    let inv := λ p, invoke (to_vec ctx) p cache in
    ∀ t, triggered state tx ctx t →
      no_not t = true ∨
      (∀ t' p, triggered state tx ctx t' → p ∈ leaves t' → ∃ b, inv p = Some (Ok b)) →
      holds (accepts inv) t = true.
Proof.
  intros Hv Hd. destruct (outputs state tx) as [d'|e] eqn:Hout;
    [|unfold execute in Hd; by rewrite Hout in Hd].
  destruct (predicate_context state tx) as [ctx|e] eqn:Hctx;
    [|unfold execute in Hd; by rewrite Hout, Hctx in Hd].
  destruct (execute_collected tx state cache d' ctx Hv Hout Hctx)
    as [(e & _ & He)|(trees & Htrees & Hno & He)]; rewrite He in Hd; [done|].
  set (inv := λ p, invoke (to_vec ctx) p cache) in *.
  destruct (parallel_invoke inv trees) as [[[]|]|] eqn:Hrun; simplify_eq/=.
  split; [done|]. exists ctx. split; [done|]. split; [done|]. intros t Ht Hwhy.
  apply (run_accepted inv trees); [|done|by apply Htrees|].
  - intros t' p _ _. exact (invoke_total (to_vec ctx) p cache).
  - destruct Hwhy as [|Hall]; [by left|]. right. intros (t' & p & e & Ht' & Hp & He').
    destruct (Hall t' p) as [b Hb]; [by apply Htrees|done|]. unfold inv in He'. congruence.
Qed.
End execute.



(** C2: exactly when a transaction is accepted.  If no predicate of a triggered
    tree crashes, [execute] returns the proposed diff if and only if all
    references resolve and every triggered tree holds as a boolean formula over
    the answers of its predicates, for every schedule. *)
Theorem execute_exact `{!MultihashCrate, !Bs58Crate, !Wasmer}
    {RA : Rayon} `{!HashOrder Address, !Rmp (IntentContent Basic), !Rmp PredicateContext,
    !Rmp (list ExpandedParam)} (tx : Transaction Basic) (state cache : dyn_state) d ctx :
  let inv := λ p, invoke (to_vec ctx) p cache in
  tx_valid tx → outputs state tx = Ok d → predicate_context state tx = Ok ctx →
  (∀ t p, triggered state tx ctx t → p ∈ leaves t → ∃ b, inv p = Some (Ok b)) →
  execute tx state cache = Some (Ok d) ↔
    (∀ e, ¬ unresolved state tx ctx e) ∧
    ∀ t, triggered state tx ctx t → holds (accepts inv) t = true.
Proof.
  intros inv Hv Hout Hctx Hinv.
  destruct (execute_collected tx state cache d ctx Hv Hout Hctx)
    as [(e & He & ->)|(trees & Htrees & Hno & ->)].
  { split; [done|]. intros [Hno _]. by destruct (Hno e). }
  fold inv. setoid_rewrite <-Htrees.
  assert (∀ t p, t ∈ trees → p ∈ leaves t → ∃ b, inv p = Some (Ok b)) as Hall.
  { intros t p Ht. by apply Hinv, Htrees. }
  rewrite <-(run_no_crash inv trees Hall).
  destruct (parallel_invoke inv trees) as [[[]|e]|]; naive_solver.
Qed.

(** One account whose predicate accepts, and a change of its state. *)
Definition yes_account : Account :=
  mkAccount (bstr "x") (Id (mkPredicate (CodeInline [Byte.x01]) [])).
Definition yes_store : InMemoryStateStore := mkStore {[mkAddress (str "/a") := yes_account]}.
Definition yes_tx : Transaction Basic :=
  transaction_new (R := Basic) [] {[mkAddress (str "/a") := ReplaceState (bstr "y")]}.
Definition yes_diff : StateDiff :=
  (set empty_diff (mkAddress (str "/a")) (mkAccount (bstr "y") (acc_predicates yes_account))).2.
Definition yes_context : PredicateContext :=
  mkContext ∅ {[mkAddress (str "/a") := EReplaceState (bstr "x") (bstr "y")]}.

Lemma yes_tx_valid : tx_valid yes_tx.
Proof.
  intros p Hp. assert (p = mkAddress (str "/a")) as ->.
  { unfold yes_tx in Hp. simpl in Hp. rewrite dom_singleton_L in Hp. set_solver. }
  exists [str "a"]. split; [|by vm_compute]. split; [done|].
  apply (bool_decide_unpack _). by vm_compute.
Qed.

Lemma yes_expanded a r :
  expanded_at (Dyn yes_store) yes_context (merged_calldata yes_context) a r →
  r = Ok (Id (toy_code Byte.x01)).
Proof.
  intros (acc & Hacc & <-). unfold dyn_get in Hacc. simpl in Hacc.
  apply lookup_singleton_Some in Hacc as [_ <-]. by vm_compute.
Qed.

Lemma execute_exact_witness :
  let _ := map_order Address in let _ := last_first in
  execute yes_tx (Dyn yes_store) (Dyn empty_diff) = Some (Ok yes_diff).
Proof.
  intros HO RA.
  apply (execute_exact (RA := RA) yes_tx (Dyn yes_store) (Dyn empty_diff) yes_diff yes_context).
  - apply yes_tx_valid.
  - by vm_compute.
  - by vm_compute.
  - intros t p [(a & _ & [= ->]%yes_expanded)|(i & Hi & _)]; [|by apply elem_of_nil in Hi].
    intros ->%list_elem_of_singleton. exists true. by vm_compute.
  - split.
    + intros e [(a & _ & [=]%yes_expanded)|(i & Hi & _)]. by apply elem_of_nil in Hi.
    + intros t [(a & _ & [= ->]%yes_expanded)|(i & Hi & _)]; [|by apply elem_of_nil in Hi].
      by vm_compute.
Defined.
