(* ===== verification/Schedule.v ===== *)
(** Running the transactions of a block in parallel: [vm/src/schedule.rs].

    [TransactionRefs] and [depends_on] say which transaction has to wait for which;
    [schedule_new] builds the dependency graph and its roots; [bfs_next] yields a
    tree of the graph level by level; [tree_run] executes one tree on an overlay
    of the state, and [execute_many] all of them.

    The transactions sit in cells of the nodes, which the trees empty; the cells
    are the only state the trees share, so the parallel run of the trees is
    modelled as one after the other on these cells. *)
From stdpp Require Import relations.
From S2P Require Import Prelude Address Predicate State Extern Chain Collect Execution.

(** [struct TransactionRefs] *)
Record TransactionRefs := mkRefs { reads : gset Address; writes : gset Address }.

(** [TransactionRefs::depends_on] *)
Definition depends_on (self other : TransactionRefs) : bool :=
  existsb (λ addr, bool_decide (addr ∈ writes other)) (elements (reads self)) ||
  existsb (λ addr, bool_decide (addr ∈ writes other)) (elements (writes self)).

(** [if !writes.contains(addr) { reads.insert(addr.clone()); }] *)
Definition insert_read (writes reads : gset Address) (addr : Address) : gset Address :=
  if bool_decide (addr ∈ writes) then reads else {[addr]} ∪ reads.

(** The closures of [TransactionRefs::new]: the references of one predicate. *)
Definition pred_refs (writes reads : gset Address) (pred : BasicPredicate) : gset Address :=
  let reads := foldl (λ r param,
    match param with
    | AccountRef addr => insert_read writes r addr
    | _ => r
    end) reads (params pred) in
  match code pred with
  | CodeAccountRef addr _ => insert_read writes reads addr
  | _ => reads
  end.

(** [.for_each(&mut |pred| ..)] *)
Definition tree_refs (writes reads : gset Address) (t : BasicTree) : gset Address :=
  for_each (pred_refs writes) t reads.

(** The body of the loop over the proposed addresses; [None] is the panic of the
    iterator of ancestors. *)
Definition proposal_refs (state : dyn_state) (writes reads : gset Address) (addr : Address) :
    option (gset Address) :=
  match dyn_get state addr with
  | None => Some reads
  | Some acc =>
      let reads := tree_refs writes reads (acc_predicates acc) in
      l ← ancestors addr;
      Some (foldl (λ r ancestor,
        match dyn_get state ancestor with
        | Some acc => tree_refs writes r (acc_predicates acc)
        | None => r
        end) reads l)
  end.

(** [TransactionRefs::new] *)
Definition refs_new `{!MultihashCrate} (tx : Transaction Basic) (state : dyn_state) :
    option TransactionRefs :=
  let keys := btree_keys (proposals tx : gmap Address AccountChange) in
  let writes := foldl (λ w addr, {[addr]} ∪ w) ∅ keys in
  reads ← foldM (proposal_refs state writes) ∅ keys;
  let reads := foldl (λ r (intent : Intent Basic), tree_refs writes r (expectations intent))
    reads (intents tx) in
  Some (mkRefs reads writes).

Section graph.
Context `{!Petgraph}.

(** [struct BfsRows]; the visit map is the set of visited nodes. *)
Record BfsRows := mkBfs { stack : list (nat * nat); discovered : gset nat; row : nat }.

(** [BfsRows::new] *)
Definition bfs_new (start : nat) : BfsRows := mkBfs [(start, 0)] {[start]} 0.

(** [for succ in graph.neighbors(node) { if discovered.visit(succ) { .. } }] *)
Definition push_neighbors (level : nat) (self : BfsRows) (succs : list nat) : BfsRows :=
  foldl (λ s succ,
    if bool_decide (succ ∈ discovered s) then s
    else mkBfs (stack s ++ [(succ, level + 1)]) ({[succ]} ∪ discovered s) (row s)) self succs.

(** The loop of [BfsRows::next]; every turn takes a node off the stack and pushes
    only nodes that were not visited, so the number of nodes bounds the turns. *)
Fixpoint bfs_loop (fuel : nat) (graph : DiGraph) (self : BfsRows) (out : list nat) :
    option (BfsRows * list nat) :=
  match fuel with
  | 0 => None
  | S fuel =>
      match stack self with
      | [] => Some (self, out)
      | (node, level) :: rest =>
          let self := push_neighbors level (mkBfs rest (discovered self) (row self))
            (neighbors graph node) in
          if (level =? row self)%nat then bfs_loop fuel graph self (out ++ [node])
          else Some (mkBfs ((node, level) :: stack self) (discovered self) (row self), out)
      end
  end.

(** [BfsRows::next] *)
Definition bfs_next (graph : DiGraph) (self : BfsRows) : option (BfsRows * option (list nat)) :=
  '(self, out) ← bfs_loop (S (node_bound graph)) graph self [];
  let self := mkBfs (stack self) (discovered self) (S (row self)) in
  Some (self, match out with [] => None | _ => Some out end).

(** ['inner: for (r1, ix1) in refs.iter().rev()]; the list is the deque read
    backwards. *)
Fixpoint link_to (graph : DiGraph) (r0 : TransactionRefs) (ix0 : nat)
    (rev_refs : list (TransactionRefs * nat)) : DiGraph :=
  match rev_refs with
  | [] => graph
  | (r1, ix1) :: rest =>
      if depends_on r0 r1 then add_edge graph ix1 ix0 else link_to graph r0 ix0 rest
  end.

(** [while let Some((r0, ix0)) = refs.pop_back()] *)
Fixpoint link_all (graph : DiGraph) (rev_refs : list (TransactionRefs * nat)) : DiGraph :=
  match rev_refs with
  | [] => graph
  | (r0, ix0) :: rest => link_all (link_to graph r0 ix0 rest) rest
  end.

(** [Vec::dedup] *)
Fixpoint dedup (l : list nat) : list nat :=
  match l with
  | x :: ((y :: _) as l') => if (x =? y)%nat then dedup l' else x :: dedup l'
  | _ => l
  end.

(** [while let Some(up) = graph.edges_directed(index, Incoming).last()]; an edge
    leads to an earlier transaction, so the index bounds the turns. *)
Fixpoint climb (fuel : nat) (graph : DiGraph) (index : nat) : option nat :=
  match fuel with
  | 0 => None
  | S fuel =>
      match last (incoming_sources graph index) with
      | Some up => climb fuel graph up
      | None => Some index
      end
  end.

(** [Schedule::roots] *)
Definition roots_of (graph : DiGraph) : option (list nat) :=
  let vertex_sets := foldl (λ u e, uf_union u e.1 e.2) (union_find_new (node_bound graph))
    (edge_references graph) in
  let labels := dedup (merge_sort le (into_labeling vertex_sets)) in
  mapM (climb (S (node_bound graph)) graph) labels.
End graph.

Section schedule.
Context `{!MultihashCrate, !Bs58Crate, !Wasmer, !HashOrder Address,
  !Rmp (IntentContent Basic), !Rmp PredicateContext, !Rmp (list ExpandedParam), !Petgraph}.

(** What a node holds; a [SynCell], which is never borrowed twice at a time here. *)
Definition NodeType : Type := option (Transaction Basic * nat).

(** [struct Schedule] *)
Record Schedule := mkSchedule { graph : DiGraph; cells : list NodeType; roots : list nat }.

(** One turn of [.map(|(ix, tx)| ..)] of [Schedule::new]. *)
Definition new_node (state : dyn_state)
    (acc : DiGraph * list NodeType * list (TransactionRefs * nat)) (tx : Transaction Basic) :
    option (DiGraph * list NodeType * list (TransactionRefs * nat)) :=
  let '(g, cs, refs) := acc in
  r ← refs_new tx state;
  let '(n, g) := add_node g in
  Some (g, cs ++ [Some (tx, length cs)], refs ++ [(r, n)]).

(** [Schedule::new] *)
Definition schedule_new (state : dyn_state) (txs : list (Transaction Basic)) : option Schedule :=
  '(g, cs, refs) ← foldM (new_node state) (graph_new, [], []) txs;
  let g := link_all g (reverse refs) in
  rs ← roots_of g;
  Some (mkSchedule g cs rs).

(** [node_weight(tx).expect(..).borrow_mut().take().expect(..)] for the nodes of a
    row. *)
Fixpoint take_row (cs : list NodeType) (row : list nat) :
    option (list (Transaction Basic * nat) * list NodeType) :=
  match row with
  | [] => Some ([], cs)
  | n :: row =>
      cell ← cs !! n;
      tx ← cell;
      '(txs, cs) ← take_row (<[n := None]> cs) row;
      Some (tx :: txs, cs)
  end.

(** [for (result, ix) in results] *)
Definition accumulate (acc_state : StateDiff)
    (results : list (Result StateDiff ExecError * nat)) : StateDiff :=
  foldl (λ acc r, match r.1 with Ok diff => merge acc diff | Err _ => acc end) acc_state results.

(** How [rayon] schedules the predicates of the transaction at each position. *)
Context (RA : nat → Rayon).

(** The transactions of one row, in parallel on the same view of the state. *)
Definition run_row (state cache : dyn_state) (acc_state : StateDiff)
    (row_txs : list (Transaction Basic * nat)) :
    option (list (Result StateDiff ExecError * nat)) :=
  let view := Dyn (mkOverlayed state (Dyn acc_state)) in
  mapM (λ '(tx, ix), r ← execute (RA := RA ix) tx view cache; Some (r, ix)) row_txs.

(** The loop of [Tree::run]; every turn empties a cell, so the number of nodes
    bounds the turns. *)
Fixpoint tree_loop (fuel : nat) (g : DiGraph) (state cache : dyn_state) (it : BfsRows)
    (cs : list NodeType) (acc_state : StateDiff)
    (txs : list (Result StateDiff ExecError * nat)) :
    option (list (Result StateDiff ExecError * nat) * list NodeType) :=
  match fuel with
  | 0 => None
  | S fuel =>
      '(it, row) ← bfs_next g it;
      match row with
      | None => Some (txs, cs)
      | Some row =>
          '(row_txs, cs) ← take_row cs row;
          results ← run_row state cache acc_state row_txs;
          tree_loop fuel g state cache it cs (accumulate acc_state results) (txs ++ results)
      end
  end.

(** [Tree::run] *)
Definition tree_run (g : DiGraph) (state cache : dyn_state) (cs : list NodeType) (root : nat) :
    option (list (Result StateDiff ExecError * nat) * list NodeType) :=
  tree_loop (S (length cs)) g state cache (bfs_new root) cs empty_diff [].

(** [self.trees().into_par_iter().map(..).flatten().collect()] *)
Fixpoint run_trees (g : DiGraph) (state cache : dyn_state) (cs : list NodeType)
    (roots : list nat) : option (list (Result StateDiff ExecError * nat)) :=
  match roots with
  | [] => Some []
  | root :: roots =>
      '(txs, cs) ← tree_run g state cache cs root;
      rest ← run_trees g state cache cs roots;
      Some (txs ++ rest)
  end.

(** [trees.sort_by(|(_, ix1), (_, ix2)| ix1.cmp(ix2))] *)
Definition ix_le (x y : Result StateDiff ExecError * nat) : Prop := x.2 ≤ y.2.
#[global] Instance ix_le_dec : RelDecision ix_le.
Proof. intros x y. unfold ix_le. apply _. Defined.

(** [Schedule::run] *)
Definition schedule_run (self : Schedule) (state cache : dyn_state) :
    option (list (Result StateDiff ExecError)) :=
  trees ← run_trees (graph self) state cache (cells self) (roots self);
  Some (fst <$> merge_sort ix_le trees).

(** [execute_many] *)
Definition execute_many (state cache : dyn_state) (txs : list (Transaction Basic)) :
    option (list (Result StateDiff ExecError)) :=
  s ← schedule_new state txs; schedule_run s state cache.
End schedule.
