(* ===== verification/Forest.v ===== *)
(** Dependency graphs are forests: lemmas about the graphs that
    [Schedule::new] builds, about the levels of their trees, and about what
    [BfsRows] and [Schedule::roots] compute on them. *)
From stdpp Require Import relations.
From S2P Require Import Prelude Address Predicate State Extern Chain Collect Execution Schedule.

Section forest.
Context `{!Petgraph, !PetgraphLaws}.
Implicit Types (g : DiGraph) (i j k r x y : nat).

Notation edge g i j := ((i, j) ∈ edge_references g).

(** Edges lead to later nodes, and no node has two incoming ones. *)
Definition forest g : Prop :=
  (∀ i j, edge g i j → i < j < node_bound g) ∧ NoDup (edge_references g).*2.

Definition is_root g r : Prop := r < node_bound g ∧ ∀ i, ¬ edge g i r.

Lemma forest_parent g i i' j : forest g → edge g i j → edge g i' j → i = i'.
Proof.
  intros [_ Hnd] Hi Hi'. revert Hnd Hi Hi'.
  induction (edge_references g) as [|[a b] es IH]; simpl; [by intros _ ?%elem_of_nil|].
  inversion_clear 1 as [|? ? Hb Hnd']. rewrite !elem_of_cons.
  intros [[= -> ->]|Hi] [[= ->]|Hi']; [done|..|by apply IH].
  - destruct Hb. apply list_elem_of_fmap. by exists (i', b).
  - subst. destruct Hb. apply list_elem_of_fmap. by exists (i, b).
Qed.

Lemma elem_of_neighbors g i j : j ∈ neighbors g i ↔ edge g i j.
Proof.
  rewrite neighbors_edges, list_elem_of_fmap. split.
  - by intros ([a b] & -> & [<- ?]%list_elem_of_filter).
  - intros He. exists (i, j). split; [done|]. by apply list_elem_of_filter.
Qed.

Lemma NoDup_neighbors g i : forest g → NoDup (neighbors g i).
Proof.
  intros [_ Hnd]. rewrite neighbors_edges. revert Hnd.
  induction (edge_references g) as [|[a b] es IH]; simpl; [constructor|].
  inversion_clear 1 as [|? ? Hb Hnd']. rewrite filter_cons. case_decide; [|by apply IH].
  simpl. constructor; [|by apply IH].
  intros ([a' b'] & Heq & [_ Hin]%list_elem_of_filter)%list_elem_of_fmap. simpl in Heq. subst.
  destruct Hb. apply list_elem_of_fmap. by exists (a', b').
Qed.

Lemma last_incoming g i j :
  forest g → last (incoming_sources g j) = Some i ↔ edge g i j.
Proof.
  intros Hf. assert (∀ x, x ∈ incoming_sources g j ↔ edge g x j) as Hin.
  { intros x. rewrite incoming_edges, list_elem_of_fmap. split.
    - by intros ([a b] & -> & [<- ?]%list_elem_of_filter).
    - intros He. exists (x, j). split; [done|]. by apply list_elem_of_filter. }
  rewrite <-Hin. split; [apply last_Some_elem_of|]. intros Hi.
  destruct (last (incoming_sources g j)) as [x|] eqn:Hl.
  - f_equal. apply last_Some_elem_of, Hin in Hl. apply Hin in Hi. by eapply forest_parent.
  - apply last_None in Hl. rewrite Hl in Hi. by apply elem_of_nil in Hi.
Qed.

Lemma no_incoming g j : forest g → last (incoming_sources g j) = None ↔ ∀ i, ¬ edge g i j.
Proof.
  intros Hf. split.
  - intros Hl i He%last_incoming; [|done]. congruence.
  - intros Hno. destruct (last _) as [x|] eqn:Hl; [|done].
    apply last_incoming in Hl; [|done]. by destruct (Hno x).
Qed.

(** ** Levels *)

Fixpoint level g r k : list nat :=
  match k with
  | 0 => [r]
  | S k => level g r k ≫= neighbors g
  end.

Lemma elem_of_level_S g r k j : j ∈ level g r (S k) ↔ ∃ i, i ∈ level g r k ∧ edge g i j.
Proof.
  simpl. rewrite list_elem_of_bind. split.
  - intros (i & Hj%elem_of_neighbors & Hi). eauto.
  - intros (i & Hi & Hj). exists i. by rewrite elem_of_neighbors.
Qed.

(** A node is on one level of one tree. *)
Lemma level_unique g r r' k k' i :
  forest g → is_root g r → is_root g r' → i ∈ level g r k → i ∈ level g r' k' → r = r' ∧ k = k'.
Proof.
  intros Hf [_ Hr] [_ Hr']. revert k' i. induction k as [|k IH]; intros [|k'] i.
  - simpl. by intros ->%list_elem_of_singleton ->%list_elem_of_singleton.
  - rewrite elem_of_level_S. simpl. intros ->%list_elem_of_singleton (x & _ & Hx). by destruct (Hr x).
  - rewrite elem_of_level_S. simpl. intros (x & _ & Hx) ->%list_elem_of_singleton. by destruct (Hr' x).
  - rewrite !elem_of_level_S. intros (x & Hx & He) (x' & Hx' & He').
    rewrite (forest_parent _ _ _ _ Hf He' He) in Hx'. destruct (IH _ _ Hx Hx') as [-> ->]. done.
Qed.

Lemma level_bound g r k i : forest g → r < node_bound g → i ∈ level g r k → k ≤ i < node_bound g.
Proof.
  intros Hf Hr. revert i. induction k as [|k IH]; intros i.
  - simpl. intros ->%list_elem_of_singleton. lia.
  - intros (x & Hx & He)%elem_of_level_S. apply IH in Hx. apply Hf in He. lia.
Qed.

Lemma NoDup_level g r k : forest g → NoDup (level g r k).
Proof.
  intros Hf. induction k as [|k IH]; simpl; [apply NoDup_singleton|].
  apply NoDup_bind; [|by intros; apply NoDup_neighbors|done].
  intros x y z _ _ Hx%elem_of_neighbors Hy%elem_of_neighbors. by eapply forest_parent.
Qed.

Lemma level_length g r k : forest g → r < node_bound g → length (level g r k) ≤ node_bound g.
Proof.
  intros Hf Hr. rewrite <-(length_seq (node_bound g) 0).
  apply submseteq_length, NoDup_submseteq; [by apply NoDup_level|].
  intros i Hi. apply elem_of_seq. apply level_bound in Hi; [lia|done..].
Qed.

Lemma level_end g r : forest g → r < node_bound g → level g r (node_bound g) = [].
Proof.
  intros Hf Hr. destruct (level g r (node_bound g)) as [|i l] eqn:Hl; [done|].
  assert (i ∈ level g r (node_bound g)) as Hi by (rewrite Hl; by left).
  apply level_bound in Hi; [lia|done..].
Qed.

(** Every node is on some level of the tree of a root. *)
Lemma level_exists g i : forest g → i < node_bound g → ∃ r k, is_root g r ∧ i ∈ level g r k.
Proof.
  intros Hf. induction (lt_wf i) as [i _ IH]. intros Hi.
  destruct (last (incoming_sources g i)) as [x|] eqn:Hl.
  - apply last_incoming in Hl; [|done]. pose proof (proj1 Hf _ _ Hl).
    destruct (IH x) as (r & k & Hr & Hx); [lia|lia|]. exists r, (S k). split; [done|].
    apply elem_of_level_S. eauto.
  - exists i, 0. split; [|by left]. split; [done|]. by apply no_incoming.
Qed.

(** ** [Schedule::roots] *)

Lemma climb_root g r k i fuel :
  forest g → is_root g r → i ∈ level g r k → k < fuel → climb fuel g i = Some r.
Proof.
  intros Hf Hr. revert k i. induction fuel as [|fuel IH]; intros k i Hi Hk; [lia|]. simpl.
  destruct k as [|k].
  - simpl in Hi. apply list_elem_of_singleton in Hi as ->.
    by rewrite (proj2 (no_incoming g r Hf) (proj2 Hr)).
  - apply elem_of_level_S in Hi as (x & Hx & He).
    rewrite (proj2 (last_incoming g x i Hf) He). apply (IH k); [done|lia].
Qed.

Lemma connected_same_root g i j r k :
  forest g → is_root g r → connected (edge_references g) i j → i ∈ level g r k →
  ∃ k', j ∈ level g r k'.
Proof.
  intros Hf Hr Hc. revert k. induction Hc as [i|i y j Hstep _ IH]; intros k Hi; [eauto|].
  destruct Hstep as [He|He].
  - apply (IH (S k)). apply elem_of_level_S. eauto.
  - destruct k as [|k].
    + simpl in Hi. apply list_elem_of_singleton in Hi as ->. by destruct (proj2 Hr y).
    + apply elem_of_level_S in Hi as (x & Hx & He').
      rewrite (forest_parent _ _ _ _ Hf He' He) in Hx. by apply (IH k).
Qed.

Lemma level_connected g r k i : i ∈ level g r k → connected (edge_references g) r i.
Proof.
  revert i. induction k as [|k IH]; intros i.
  - simpl. intros ->%list_elem_of_singleton. apply rtc_refl.
  - intros (x & Hx & He)%elem_of_level_S. eapply rtc_r; [by apply IH|]. by left.
Qed.

Lemma dedup_cons x y l :
  dedup (x :: y :: l) = if (x =? y)%nat then dedup (y :: l) else x :: dedup (y :: l).
Proof. done. Qed.

Lemma elem_of_dedup l i : i ∈ dedup l ↔ i ∈ l.
Proof.
  induction l as [|x [|y l] IH]; [done|done|]. rewrite dedup_cons.
  destruct (Nat.eqb_spec x y) as [->|Hne].
  - rewrite IH. set_solver.
  - by rewrite elem_of_cons, IH, (elem_of_cons (y :: l)).
Qed.

Lemma NoDup_dedup l : StronglySorted le l → NoDup (dedup l).
Proof.
  induction l as [|x [|y l] IH]; intros Hs; [constructor|apply NoDup_singleton|].
  inversion_clear Hs as [|? ? Hs' Hall]. rewrite dedup_cons.
  destruct (Nat.eqb_spec x y) as [->|Hne]; [by apply IH|].
  constructor; [|by apply IH]. rewrite elem_of_dedup. intros Hx.
  inversion_clear Hs' as [|? ? _ Hall']. inversion_clear Hall as [|? ? Hxy _].
  apply elem_of_cons in Hx as [|Hx]; [done|].
  eapply Forall_forall in Hall'; [|exact Hx]. lia.
Qed.

(** The roots of the schedule are the roots of the forest, each once. *)
Lemma roots_of_spec g :
  forest g → ∃ rs, roots_of g = Some rs ∧ NoDup rs ∧ ∀ r, r ∈ rs ↔ is_root g r.
Proof.
  intros Hf. unfold roots_of.
  destruct (labeling_sets (node_bound g) (edge_references g)) as (Hlen & Hl & Hc).
  { apply Forall_forall. intros [i j] He. apply Hf in He. simpl. lia. }
  set (labels := into_labeling _) in *. set (ls := dedup _).
  assert (NoDup ls) as Hnd by (apply NoDup_dedup, StronglySorted_merge_sort; apply _).
  assert (∀ l, l ∈ ls ↔ ∃ i, labels !! i = Some l) as Hls.
  { intros l. unfold ls. rewrite elem_of_dedup, merge_sort_Permutation. apply list_elem_of_lookup. }
  (* a label labels itself *)
  assert (∀ l, l ∈ ls → l < node_bound g ∧ labels !! l = Some l) as Hself.
  { intros l [i Hi]%Hls. destruct (Hl _ _ Hi) as [Hlt Hcon]. split; [done|]. by eapply Hc. }
  assert (∀ l, l ∈ ls → ∃ r, climb (S (node_bound g)) g l = Some r ∧ is_root g r ∧
    ∃ k, l ∈ level g r k) as Hclimb.
  { intros l Hin. destruct (Hself l Hin) as [Hlt _].
    destruct (level_exists g l Hf Hlt) as (r & k & Hr & Hk). exists r. split; [|eauto].
    eapply climb_root; [done..|]. apply level_bound in Hk; [lia|done|apply Hr]. }
  destruct (Forall_ex_Forall2 (λ l r, climb (S (node_bound g)) g l = Some r ∧ is_root g r ∧
    ∃ k, l ∈ level g r k) ls) as [rs Hrs]; [by apply Forall_forall|].
  exists rs. split; [|split].
  - apply mapM_Some. eapply Forall2_impl; [exact Hrs|]. by intros ? ? [? _].
  - apply NoDup_alt. intros a b r Ha Hb.
    destruct (Forall2_lookup_r _ _ _ _ _ Hrs Ha) as (l & Hla & _ & Hr & k & Hk).
    destruct (Forall2_lookup_r _ _ _ _ _ Hrs Hb) as (l' & Hlb & _ & _ & k' & Hk').
    assert (l = l') as <-.
    { destruct (Hself l) as [_ Hll]; [by eapply list_elem_of_lookup_2|].
      destruct (Hself l') as [Hlt' Hll']; [by eapply list_elem_of_lookup_2|].
      assert (connected (edge_references g) l l') as Hcon.
      { trans r; [symmetry; by eapply level_connected|by eapply level_connected]. }
      pose proof (Hc _ _ _ Hll Hcon Hlt') as Heq. congruence. }
    by eapply NoDup_lookup.
  - intros r. split.
    + intros [a Ha]%list_elem_of_lookup.
      by destruct (Forall2_lookup_r _ _ _ _ _ Hrs Ha) as (l & _ & _ & Hr & _).
    + intros Hr. destruct (lookup_lt_is_Some_2 labels r) as [l Hlab]; [rewrite Hlen; apply Hr|].
      assert (l ∈ ls) as Hin by (apply Hls; eauto).
      apply list_elem_of_lookup in Hin as [a Ha].
      destruct (Forall2_lookup_l _ _ _ _ _ Hrs Ha) as (r' & Hr' & _ & Hroot' & k' & Hk').
      destruct (Hl _ _ Hlab) as [_ Hcon].
      destruct (connected_same_root g r l r 0 Hf Hr Hcon) as [k Hk]; [by left|].
      destruct (level_unique g r r' k k' l Hf Hr Hroot' Hk Hk') as [-> _].
      by eapply list_elem_of_lookup_2.
Qed.
(** ** [BfsRows] *)

Notation at_level k := (fmap (λ n : nat, (n, k))).

Lemma push_neighbors_new lvl st D w succs :
  NoDup succs → (∀ x, x ∈ succs → x ∉ D) →
  push_neighbors lvl (mkBfs st D w) succs =
    mkBfs (st ++ at_level (S lvl) succs) (D ∪ list_to_set succs) w.
Proof.
  revert st D. induction succs as [|x succs IH]; intros st D Hnd Hnew.
  - unfold push_neighbors. simpl. by rewrite app_nil_r, union_empty_r_L.
  - inversion_clear Hnd as [|? ? Hx Hnd']. unfold push_neighbors in *. simpl.
    rewrite bool_decide_false by (apply Hnew; by left). rewrite IH; [|done|set_solver].
    rewrite <-app_assoc, Nat.add_1_r. simpl. f_equal. set_solver.
Qed.

Lemma push_neighbors_old lvl st D w succs :
  (∀ x, x ∈ succs → x ∈ D) → push_neighbors lvl (mkBfs st D w) succs = mkBfs st D w.
Proof.
  unfold push_neighbors. induction succs as [|x succs IH]; intros Hold; simpl; [done|].
  rewrite bool_decide_true by (apply Hold; by left). apply IH. set_solver.
Qed.

Lemma bfs_loop_cons fuel g n l rest D w out :
  bfs_loop (S fuel) g (mkBfs ((n, l) :: rest) D w) out =
    let self := push_neighbors l (mkBfs rest D w) (neighbors g n) in
    if (l =? row self)%nat then bfs_loop fuel g self (out ++ [n])
    else Some (mkBfs ((n, l) :: stack self) (discovered self) (row self), out).
Proof. done. Qed.

(** The loop over nodes of the current row whose neighbours are all new. *)
Lemma bfs_loop_row g ys zs D k out fuel :
  NoDup (ys ≫= neighbors g) → (∀ x, x ∈ ys ≫= neighbors g → x ∉ D) →
  bfs_loop (length ys + fuel) g
      (mkBfs (at_level k ys ++ at_level (S k) zs) D k) out =
    bfs_loop fuel g
      (mkBfs (at_level (S k) (zs ++ (ys ≫= neighbors g))) (D ∪ list_to_set (ys ≫= neighbors g)) k)
      (out ++ ys).
Proof.
  revert zs D out. induction ys as [|y ys IH]; intros zs D out Hnd Hnew.
  - simpl. by rewrite !app_nil_r, union_empty_r_L.
  - rewrite bind_cons in *. apply NoDup_app in Hnd as (Hy & Hdisj & Hys).
    rewrite fmap_cons. cbn [length Nat.add app]. rewrite bfs_loop_cons.
    rewrite push_neighbors_new; [|done|intros x Hx; apply Hnew; set_solver].
    cbn [row]. rewrite Nat.eqb_refl, <-app_assoc, <-fmap_app, IH; [|done|].
    + rewrite <-!app_assoc. f_equal. f_equal. set_solver.
    + intros x Hx. rewrite elem_of_union, elem_of_list_to_set. intros [Hd|Hd].
      * by apply (Hnew x); [apply elem_of_app; right|].
      * by apply (Hdisj x).
Qed.

(** The state of the traversal before the row [k]: the stack holds the row, and
    the neighbours of its first node if those were pushed already, which is the
    case from the second row on. *)
Definition bfs_inv g r k (it : BfsRows) : Prop :=
  row it = k ∧
  let early := match k, level g r k with S _, x :: _ => neighbors g x | _, _ => [] end in
  stack it = at_level k (level g r k) ++ at_level (S k) early ∧
  ∀ i, i ∈ discovered it ↔ (∃ j, j ≤ k ∧ i ∈ level g r j) ∨ i ∈ early.

Lemma bfs_new_inv g r : bfs_inv g r 0 (bfs_new r).
Proof.
  split; [done|]. split; [done|]. intros i. simpl. rewrite elem_of_singleton. split.
  - intros ->. left. exists 0. split; [done|by left].
  - intros [(j & Hj & Hi)|Hi]; [|by apply elem_of_nil in Hi].
    replace j with 0 in Hi by lia. by apply list_elem_of_singleton in Hi.
Qed.

(** What is left of the call once the row [k] is off the stack: the first node of
    the next row is looked at and put back. *)
Lemma bfs_loop_end g r k D fuel out :
  forest g → is_root g r →
  (∀ i, i ∈ D ↔ ∃ j, j ≤ S k ∧ i ∈ level g r j) →
  ∃ it, bfs_loop (S fuel) g (mkBfs (at_level (S k) (level g r (S k))) D k) out = Some (it, out) ∧
    bfs_inv g r (S k) (mkBfs (stack it) (discovered it) (S (row it))).
Proof.
  intros Hf Hr HD. destruct (level g r (S k)) as [|x xs] eqn:Hl.
  - eexists. split; [reflexivity|]. split; [done|]. rewrite Hl. split; [done|].
    intros i. cbn [discovered]. rewrite HD. split; [by left|].
    intros [|Hi]; [done|]. by apply elem_of_nil in Hi.
  - eexists. split.
    + cbn [bfs_loop stack fmap list_fmap discovered row].
      rewrite push_neighbors_new; [|by apply NoDup_neighbors|].
      * cbn [row]. rewrite (proj2 (Nat.eqb_neq (S k) k)) by lia. reflexivity.
      * intros i Hi%elem_of_neighbors Hd. apply HD in Hd as (j & Hj & Hi').
        assert (i ∈ level g r (S (S k))) as Hi''.
        { apply elem_of_level_S. exists x. split; [rewrite Hl; by left|done]. }
        destruct (level_unique g r r _ _ i Hf Hr Hr Hi' Hi'') as [_ ->]. lia.
    + split; [done|]. rewrite Hl. cbn [stack discovered]. split; [done|].
      intros i. rewrite elem_of_union, elem_of_list_to_set, HD. done.
Qed.

(** A call takes the row [k] off the stack and pushes the next one. *)
Lemma bfs_loop_level g r k it fuel :
  forest g → is_root g r → bfs_inv g r k it →
  ∃ D, (∀ i, i ∈ D ↔ ∃ j, j ≤ S k ∧ i ∈ level g r j) ∧
    bfs_loop (length (level g r k) + fuel) g it [] =
      bfs_loop fuel g (mkBfs (at_level (S k) (level g r (S k))) D k) (level g r k).
Proof.
  intros Hf Hr (Hrow & Hstack & Hdisc). destruct it as [st D w]. cbn [row stack discovered] in *. subst w st.
  pose proof (NoDup_level g r (S k) Hf) as Hnd. cbn [level] in Hnd.
  assert (∀ i, i ∈ level g r k ≫= neighbors g → ¬ ∃ j, j ≤ k ∧ i ∈ level g r j) as Hnew.
  { intros i Hi (j & Hj & Hi'). destruct (level_unique g r r (S k) j i Hf Hr Hr Hi Hi'). lia. }
  assert (∀ D' : gset nat, (∀ i, i ∈ D' ↔ (∃ j, j ≤ k ∧ i ∈ level g r j) ∨ i ∈ level g r (S k)) →
    ∀ i, i ∈ D' ↔ ∃ j, j ≤ S k ∧ i ∈ level g r j) as HS.
  { intros D' HD' i. rewrite HD'. split.
    - intros [(j & Hj & Hi)|Hi]; [exists j|exists (S k)]; (split; [lia|done]).
    - intros (j & Hj & Hi). destruct (decide (j = S k)) as [->|]; [by right|].
      left. exists j. split; [lia|done]. }
  destruct k as [|k]; [|destruct (level g r (S k)) as [|x xs] eqn:Hl].
  - exists (D ∪ list_to_set (level g r 1)). split.
    + apply HS. intros i. rewrite elem_of_union, elem_of_list_to_set, Hdisc.
      assert (i ∉ ([] : list nat)) by by intros ?%elem_of_nil. naive_solver.
    + refine (bfs_loop_row g (level g r 0) [] D 0 [] fuel Hnd _).
      intros x Hx Hd. apply Hdisc in Hd as [Hd|Hd].
      * by apply (Hnew x Hx).
      * by apply elem_of_nil in Hd.
  - assert (level g r (S (S k)) = []) as Hl' by (cbn [level] in *; by rewrite Hl).
    exists D. rewrite Hl'. split; [|done]. apply HS. intros i. by rewrite Hdisc, Hl'.
  - rewrite bind_cons in Hnd, Hnew. apply NoDup_app in Hnd as (Hx & Hdisj & Hxs).
    exists (D ∪ list_to_set (xs ≫= neighbors g)). split.
    + apply HS. intros i. rewrite elem_of_union, elem_of_list_to_set, Hdisc.
      change (level g r (S (S k))) with (level g r (S k) ≫= neighbors g).
      rewrite Hl, bind_cons, elem_of_app. tauto.
    + cbn [length Nat.add]. rewrite fmap_cons. cbn [app]. rewrite bfs_loop_cons.
      rewrite push_neighbors_old; [|intros y Hy; apply Hdisc; by right].
      cbn [row]. rewrite Nat.eqb_refl, bfs_loop_row; [|done|].
      * change (level g r (S (S k))) with (level g r (S k) ≫= neighbors g).
        by rewrite Hl, bind_cons.
      * intros y Hy Hd. apply Hdisc in Hd as [Hd|Hd]; [|by apply (Hdisj y)].
        apply (Hnew y); [apply elem_of_app; by right|done].
Qed.

(** [BfsRows::next] yields the levels of the tree, one after the other. *)
Lemma bfs_next_level g r k it :
  forest g → is_root g r → bfs_inv g r k it →
  ∃ it', bfs_next g it =
    Some (it', match level g r k with [] => None | l => Some l end) ∧ bfs_inv g r (S k) it'.
Proof.
  intros Hf Hr Hinv.
  pose proof (level_length g r k Hf (proj1 Hr)) as Hlen.
  destruct (bfs_loop_level g r k it (S (node_bound g - length (level g r k))) Hf Hr Hinv)
    as (D & HD & Hrun).
  replace (length (level g r k) + S (node_bound g - length (level g r k)))
    with (S (node_bound g)) in Hrun by lia.
  destruct (bfs_loop_end g r k D (node_bound g - length (level g r k)) (level g r k) Hf Hr HD)
    as (it' & Hend & Hinv').
  unfold bfs_next. rewrite Hrun, Hend. eexists. split; [|exact Hinv'].
  simpl. by destruct (level g r k).
Qed.

(** ** The edges of the schedule *)

(** The nearest earlier transaction a transaction depends on: [refs] are the
    transactions before it, the nearest first. *)
Fixpoint nearest (q0 : TransactionRefs) (rev_refs : list (TransactionRefs * nat)) : option nat :=
  match rev_refs with
  | [] => None
  | (q1, ix1) :: rest => if depends_on q0 q1 then Some ix1 else nearest q0 rest
  end.

Lemma link_to_edges g q0 ix0 rev_refs :
  node_bound (link_to g q0 ix0 rev_refs) = node_bound g ∧
  edge_references (link_to g q0 ix0 rev_refs) ≡ₚ
    match nearest q0 rev_refs with Some j => [(j, ix0)] | None => [] end ++ edge_references g.
Proof.
  induction rev_refs as [|[q1 ix1] rest IH]; simpl; [done|].
  destruct (depends_on q0 q1); [|done].
  split; [apply add_edge_bound|apply add_edge_edges].
Qed.

Lemma link_all_NoDup g rev_refs :
  NoDup (rev_refs.*2 ++ (edge_references g).*2) →
  NoDup (edge_references (link_all g rev_refs)).*2.
Proof.
  revert g. induction rev_refs as [|[q0 ix0] rest IH]; intros g Hnd; [done|].
  cbn [link_all]. apply IH. destruct (link_to_edges g q0 ix0 rest) as [_ He].
  rewrite He, fmap_app. simpl in Hnd. inversion_clear Hnd as [|? ? Hix Hnd'].
  destruct (nearest q0 rest); simpl; [|done].
  rewrite <-Permutation_middle. by constructor.
Qed.

(** The nearest earlier dependency, by positions. *)
Definition depends_nearest (rs : list TransactionRefs) i j : Prop :=
  i < j ∧ (∃ qi qj, rs !! i = Some qi ∧ rs !! j = Some qj ∧ depends_on qj qi = true) ∧
  ∀ m qm qj, i < m < j → rs !! m = Some qm → rs !! j = Some qj → depends_on qj qm = false.

(** The transactions of a block with their nodes, the last one first. *)
Definition numbered (rs : list TransactionRefs) : list (TransactionRefs * nat) :=
  reverse (zip rs (seq 0 (length rs))).

Lemma numbered_snoc rs q : numbered (rs ++ [q]) = (q, length rs) :: numbered rs.
Proof.
  unfold numbered. rewrite length_app. simpl. rewrite Nat.add_1_r, seq_S.
  rewrite zip_with_app by by rewrite length_seq. by rewrite reverse_app.
Qed.

Lemma nearest_numbered rs q i :
  nearest q (numbered rs) = Some i ↔
    i < length rs ∧ (∃ qi, rs !! i = Some qi ∧ depends_on q qi = true) ∧
    ∀ m qm, i < m → rs !! m = Some qm → depends_on q qm = false.
Proof.
  induction rs as [|qj rs IH] using rev_ind.
  - split; [done|]. simpl. intros [? _]. lia.
  - rewrite numbered_snoc, length_app. cbn [nearest length].
    destruct (depends_on q qj) eqn:Hdep.
    + split.
      * intros [= <-]. split; [lia|]. split; [exists qj; by rewrite list_lookup_middle|].
        intros m qm Hm Hqm%lookup_lt_Some. rewrite length_app in Hqm. simpl in Hqm. lia.
      * intros (Hi & _ & Hno). f_equal. destruct (decide (i = length rs)) as [|Hne]; [done|].
        rewrite (Hno (length rs) qj) in Hdep; [done|lia|by rewrite list_lookup_middle].
    + rewrite IH. split.
      * intros (Hi & (qi & Hqi & Hd) & Hno). split; [lia|].
        split; [exists qi; by rewrite lookup_app_l by lia|]. intros m qm Hm Hqm.
        apply lookup_snoc_Some in Hqm as [[_ Hqm]|[_ <-]]; [by eapply Hno|done].
      * intros (Hi & (qi & Hqi & Hd) & Hno).
        apply lookup_snoc_Some in Hqi as [[Hi' Hqi]|[_ <-]]; [|congruence].
        split; [done|]. split; [eauto|]. intros m qm Hm Hqm. apply (Hno m); [done|].
        by rewrite lookup_app_l by by eapply lookup_lt_Some.
Qed.

Lemma depends_nearest_snoc rs q i j :
  depends_nearest (rs ++ [q]) i j ↔
    depends_nearest rs i j ∨ (j = length rs ∧ nearest q (numbered rs) = Some i).
Proof.
  rewrite nearest_numbered. unfold depends_nearest. split.
  - intros (Hij & (qi & qj & Hqi & Hqj & Hd) & Hno).
    assert (∀ m qm, m < j → rs !! m = Some qm → (rs ++ [q]) !! m = Some qm) as Hup.
    { intros m qm _ Hqm. by rewrite lookup_app_l by by eapply lookup_lt_Some. }
    pose proof Hqj as Hqj'. apply lookup_snoc_Some in Hqj as [[Hj Hqj]|[-> <-]].
    + left. split; [done|]. rewrite lookup_app_l in Hqi by lia. split; [eauto 10|].
      intros m qm qj' Hm Hqm Hqj''. apply (Hno m qm qj' Hm); [apply Hup; [lia|done]|congruence].
    + right. split; [done|]. rewrite lookup_app_l in Hqi by lia. split; [done|]. split; [eauto|].
      intros m qm Hm Hqm. pose proof (lookup_lt_Some _ _ _ Hqm).
      apply (Hno m qm q); [lia|apply Hup; [lia|done]|done].
  - intros [(Hij & (qi & qj & Hqi & Hqj & Hd) & Hno)|(-> & Hi & (qi & Hqi & Hd) & Hno)].
    + pose proof (lookup_lt_Some _ _ _ Hqj). split; [done|]. split.
      * exists qi, qj. by rewrite !lookup_app_l by lia.
      * intros m qm qj' Hm. rewrite !lookup_app_l by lia. by apply Hno.
    + split; [done|]. split.
      * exists qi, q. by rewrite lookup_app_l, list_lookup_middle by done.
      * intros m qm qj' Hm. rewrite lookup_app_l, list_lookup_middle by (done || lia).
        intros Hqm [= <-]. by eapply Hno; [|exact Hqm]; lia.
Qed.

Lemma link_all_edges g rs :
  node_bound (link_all g (numbered rs)) = node_bound g ∧
  ∀ i j, edge (link_all g (numbered rs)) i j ↔ edge g i j ∨ depends_nearest rs i j.
Proof.
  revert g. induction rs as [|q rs IH] using rev_ind; intros g.
  - split; [done|]. intros i j. split; [by left|]. intros [|(_ & (? & ? & [=] & _) & _)]; done.
  - rewrite numbered_snoc. cbn [link_all].
    destruct (IH (link_to g q (length rs) (numbered rs))) as [-> He].
    destruct (link_to_edges g q (length rs) (numbered rs)) as [-> He']. split; [done|].
    intros i j. rewrite He, depends_nearest_snoc, He', elem_of_app.
    destruct (nearest q (numbered rs)) as [x|].
    + rewrite list_elem_of_singleton. naive_solver.
    + split; [intros [[?%elem_of_nil|]|]; tauto|]. intros [|[|[_ ?]]]; [tauto|tauto|done].
Qed.

Lemma link_all_forest g rs :
  node_bound g = length rs → edge_references g = [] → forest (link_all g (numbered rs)).
Proof.
  intros Hn He. destruct (link_all_edges g rs) as [Hb Hedge]. split.
  - intros i j Hij. apply Hedge in Hij as [Hij|(Hij & (qi & qj & _ & Hqj & _) & _)].
    + rewrite He in Hij. by apply elem_of_nil in Hij.
    + rewrite Hb, Hn. apply lookup_lt_Some in Hqj. lia.
  - apply link_all_NoDup. rewrite He, app_nil_r. unfold numbered.
    rewrite reverse_Permutation, snd_zip by by rewrite length_seq. apply NoDup_seq.
Qed.

(** ** [Schedule::new] *)

Context `{!MultihashCrate}.

Lemma new_nodes state (txs : list (Transaction Basic)) rs g cs refs :
  mapM (λ tx, refs_new tx state) txs = Some rs → length cs = node_bound g →
  ∃ g', foldM (new_node state) (g, cs, refs) txs =
    Some (g', cs ++ zip_with (λ tx i, Some (tx, i)) txs (seq (length cs) (length txs)),
      refs ++ zip rs (seq (node_bound g) (length txs))) ∧
    node_bound g' = node_bound g + length txs ∧ edge_references g' = edge_references g.
Proof.
  revert rs g cs refs. induction txs as [|tx txs IH]; intros rs g cs refs Hrs Hlen.
  - injection Hrs as <-. exists g. simpl. by rewrite !app_nil_r, Nat.add_0_r.
  - apply mapM_Some in Hrs. inversion_clear Hrs as [|? q ? rs' Hq Hrs'].
    apply mapM_Some in Hrs'. cbn [foldM new_node]. rewrite Hq. simpl.
    destruct (add_node g) as [n g1] eqn:Hadd.
    pose proof (add_node_index g) as Hi. pose proof (add_node_bound g) as Hb.
    pose proof (add_node_edges g) as Hed. rewrite Hadd in Hi, Hb, Hed. simpl in Hi, Hb, Hed. subst n.
    destruct (IH rs' g1 (cs ++ [Some (tx, length cs)]) (refs ++ [(q, node_bound g)]) Hrs')
      as (g' & Hrun & Hb' & Hed'); [rewrite length_app; simpl; lia|].
    exists g'. split; [|split; [lia|congruence]]. simpl. rewrite Hrun, Hb, length_app. simpl.
    by rewrite <-!app_assoc, Nat.add_1_r.
Qed.

Lemma schedule_new_spec state (txs : list (Transaction Basic)) rs :
  mapM (λ tx, refs_new tx state) txs = Some rs →
  ∃ s, schedule_new state txs = Some s ∧ forest (graph s) ∧
    node_bound (graph s) = length txs ∧
    (∀ i j, edge (graph s) i j ↔ depends_nearest rs i j) ∧
    cells s = zip_with (λ tx i, Some (tx, i)) txs (seq 0 (length txs)) ∧
    NoDup (roots s) ∧ ∀ r, r ∈ roots s ↔ is_root (graph s) r.
Proof.
  intros Hrs. unfold schedule_new.
  assert (length rs = length txs) as Hlen by (symmetry; by eapply length_mapM).
  destruct (new_nodes state txs rs graph_new [] [] Hrs) as (g & -> & Hb & He).
  { by rewrite node_bound_new. }
  rewrite node_bound_new, edges_new in *. simpl.
  assert (reverse (zip rs (seq 0 (length txs))) = numbered rs) as -> by (unfold numbered; by rewrite Hlen).
  destruct (link_all_edges g rs) as [Hb' Hedge].
  assert (forest (link_all g (numbered rs))) as Hf by (apply link_all_forest; [lia|done]).
  destruct (roots_of_spec _ Hf) as (roots & -> & Hnd & Hroots). simpl.
  eexists. split; [reflexivity|]. simpl. split; [done|]. split; [lia|]. split; [|done].
  intros i j. rewrite Hedge, He. split; [|by right]. intros [Hin|]; [by apply elem_of_nil in Hin|done].
Qed.
End forest.
