(* ===== verification/ScheduleProps.v ===== *)
(** What the parallel execution of a block guarantees, and what it does not: the
    theorems about the definitions of [Schedule]. *)
From stdpp Require Import relations.
From S2P Require Import Prelude Address Predicate State Extern Chain Sandbox Collect.
From S2P Require Import Execution ExecutionProps Schedule Forest.

(** ** The references of a transaction *)

(** The accounts a predicate refers to, as parameters or for its code. *)
Definition mentions (p : BasicPredicate) (a : Address) : Prop :=
  AccountRef a ∈ params p ∨ ∃ entry, code p = CodeAccountRef a entry.
Definition tree_mentions (t : BasicTree) (a : Address) : Prop :=
  ∃ p, p ∈ leaves t ∧ mentions p a.

Lemma elem_of_insert_read w r a b : b ∈ insert_read w r a ↔ b ∈ r ∨ (b = a ∧ a ∉ w).
Proof. unfold insert_read. case_bool_decide; set_solver. Qed.

Lemma elem_of_pred_refs w r p a : a ∈ pred_refs w r p ↔ a ∈ r ∨ (a ∉ w ∧ mentions p a).
Proof.
  unfold pred_refs, mentions.
  assert (∀ l r, a ∈ foldl (λ r param, match param with
    | AccountRef addr => insert_read w r addr | _ => r end) r l ↔
    a ∈ r ∨ (a ∉ w ∧ AccountRef a ∈ l)) as Hps.
  { induction l as [|x l IH]; intros r'; simpl.
    - split; [by left|]. intros [|[_ ?%elem_of_nil]]; done.
    - rewrite IH, elem_of_cons. destruct x; try (naive_solver; fail).
      rewrite elem_of_insert_read. naive_solver. }
  destruct (code p) as [wasm|addr entry].
  - rewrite Hps. naive_solver.
  - rewrite elem_of_insert_read, Hps. naive_solver.
Qed.

Lemma elem_of_tree_refs w r t a : a ∈ tree_refs w r t ↔ a ∈ r ∨ (a ∉ w ∧ tree_mentions t a).
Proof.
  unfold tree_refs, tree_mentions. rewrite for_each_leaves. revert r.
  induction (leaves t) as [|p l IH]; intros r; simpl.
  - split; [by left|]. intros [|(_ & ? & ?%elem_of_nil & _)]; done.
  - rewrite IH, elem_of_pred_refs. setoid_rewrite elem_of_cons. naive_solver.
Qed.

(** The fold over accounts whose trees are looked at. *)
Lemma elem_of_accounts_refs state w l r a :
  a ∈ foldl (λ r b, match dyn_get state b with
    | Some acc => tree_refs w r (acc_predicates acc) | None => r end) r l ↔
  a ∈ r ∨ (a ∉ w ∧ ∃ b acc, b ∈ l ∧ dyn_get state b = Some acc ∧
    tree_mentions (acc_predicates acc) a).
Proof.
  revert r. induction l as [|b l IH]; intros r; simpl.
  - split; [by left|]. intros [|(_ & ? & ? & ?%elem_of_nil & _)]; done.
  - rewrite IH. setoid_rewrite elem_of_cons.
    destruct (dyn_get state b) as [acc|] eqn:Hb.
    + rewrite elem_of_tree_refs. naive_solver.
    + naive_solver.
Qed.

Lemma elem_of_proposal_refs state w r p a :
  valid p → ∃ r', proposal_refs state w r p = Some r' ∧
    (a ∈ r' ↔ a ∈ r ∨ (a ∉ w ∧ is_Some (dyn_get state p) ∧
      ∃ b acc, (b = p ∨ valid b ∧ is_parent_of b p = true) ∧ dyn_get state b = Some acc ∧
        tree_mentions (acc_predicates acc) a)).
Proof.
  intros Hv. unfold proposal_refs. destruct (dyn_get state p) as [acc|] eqn:Hp.
  - destruct (elem_of_ancestors p Hv) as (l & -> & Hl). eexists. split; [reflexivity|].
    rewrite elem_of_accounts_refs, elem_of_tree_refs. setoid_rewrite Hl. naive_solver.
  - eexists. split; [reflexivity|]. naive_solver.
Qed.

Lemma elem_of_writes (l : list Address) (w : gset Address) a :
  a ∈ foldl (λ w addr, {[addr]} ∪ w) w l ↔ a ∈ w ∨ a ∈ l.
Proof.
  revert w. induction l as [|b l IH]; intros w; simpl.
  - split; [by left|]. intros [|?%elem_of_nil]; done.
  - rewrite IH, elem_of_cons. set_solver.
Qed.

Lemma proposals_refs state w l r :
  (∀ p, p ∈ l → valid p) →
  ∃ r', foldM (proposal_refs state w) r l = Some r' ∧ ∀ a,
    a ∈ r' ↔ a ∈ r ∨ (a ∉ w ∧ ∃ p b acc, p ∈ l ∧ is_Some (dyn_get state p) ∧
      (b = p ∨ valid b ∧ is_parent_of b p = true) ∧ dyn_get state b = Some acc ∧
      tree_mentions (acc_predicates acc) a).
Proof.
  revert r. induction l as [|p l IH]; intros r Hv.
  - exists r. split; [done|]. intros a. split; [by left|].
    intros [|(_ & ? & ? & ? & ?%elem_of_nil & _)]; done.
  - cbn [foldM].
    destruct (elem_of_proposal_refs state w r p p (Hv p ltac:(by left))) as (r1 & Hr1 & _).
    rewrite Hr1. cbn [mbind option_bind].
    destruct (IH r1) as (r' & Hr' & Hin); [set_solver|]. exists r'. split; [done|].
    intros a. rewrite Hin.
    destruct (elem_of_proposal_refs state w r p a (Hv p ltac:(by left))) as (r1' & Hr1' & Hin1).
    rewrite Hr1 in Hr1'. injection Hr1' as <-. rewrite Hin1. split.
    + intros [[|(Hw & Hs & b & acc & ?)]|(Hw & q & b & acc & Hq & ?)]; [by left|..].
      * right. split; [done|]. exists p, b, acc. split; [by left|]. tauto.
      * right. split; [done|]. exists q, b, acc. split; [by right|done].
    + intros [|(Hw & q & b & acc & [->|Hq]%elem_of_cons & Hs & ?)]; [tauto|..].
      * left. right. eauto 10.
      * right. eauto 10.
Qed.

Lemma refs_new_total `{!MultihashCrate} (tx : Transaction Basic) state :
  tx_valid tx → is_Some (refs_new tx state).
Proof.
  intros Hv. unfold refs_new. set (keys := btree_keys _).
  destruct (proposals_refs state (foldl (λ w addr, {[addr]} ∪ w) ∅ keys) keys ∅)
    as (r & -> & _); [|by eexists].
  intros p Hp%elem_of_btree_keys%elem_of_dom. by apply Hv.
Qed.

(** What a transaction counts as touching.  It writes exactly the addresses it
    proposes; it reads, apart from those, exactly the accounts mentioned by the
    expectations of its intents and by the predicates of the proposed accounts
    and of the accounts above them - the latter only if the proposed account
    exists already, although execution runs the predicates of the accounts above
    a new account as well; and it never counts as reads the accounts whose
    predicates it runs. *)
Theorem refs_new_spec `{!MultihashCrate} (tx : Transaction Basic) state :
  tx_valid tx →
  let ps := dom (proposals tx : gmap Address AccountChange) in
  ∃ refs, refs_new tx state = Some refs ∧ writes refs = ps ∧
    ∀ a, a ∈ reads refs ↔ a ∉ ps ∧
      ((∃ i : Intent Basic, i ∈ intents tx ∧ tree_mentions (expectations i) a) ∨
       (∃ p b acc, p ∈ ps ∧ is_Some (dyn_get state p) ∧
         (b = p ∨ valid b ∧ is_parent_of b p = true) ∧ dyn_get state b = Some acc ∧
         tree_mentions (acc_predicates acc) a)).
Proof.
  intros Hv ps. unfold refs_new. set (keys := btree_keys _).
  set (w := foldl (λ w addr, {[addr]} ∪ w) ∅ keys).
  assert (∀ a, a ∈ keys ↔ a ∈ ps) as Hkeys.
  { intros a. unfold keys, ps. by rewrite elem_of_btree_keys, elem_of_dom. }
  assert (w = ps) as Hw.
  { apply set_eq. intros a. unfold w. rewrite elem_of_writes, Hkeys. set_solver. }
  destruct (proposals_refs state w keys ∅) as (r & -> & Hr).
  { intros p Hp%Hkeys. by apply Hv. }
  eexists. split; [reflexivity|]. split; [exact Hw|]. intros a. cbn [reads].
  assert (∀ (l : list (Intent Basic)) r0,
    a ∈ foldl (λ r (intent : Intent Basic), tree_refs w r (expectations intent)) r0 l ↔
    a ∈ r0 ∨ (a ∉ w ∧ ∃ i : Intent Basic, i ∈ l ∧ tree_mentions (expectations i) a)) as Hint.
  { induction l as [|i l IH]; intros r0; simpl.
    - split; [by left|]. intros [|(_ & ? & ?%elem_of_nil & _)]; done.
    - rewrite IH, elem_of_tree_refs. setoid_rewrite elem_of_cons. naive_solver. }
  rewrite Hint, Hr, Hw. setoid_rewrite Hkeys. rewrite elem_of_empty. tauto.
Qed.

(** ** Trees of the schedule *)

Section trees.
Context `{!MultihashCrate, !Bs58Crate, !Wasmer, !HashOrder Address,
  !Rmp (IntentContent Basic), !Rmp PredicateContext, !Rmp (list ExpandedParam),
  !Petgraph, !PetgraphLaws} (RA : nat → Rayon) (state cache : dyn_state)
  (txs : list (Transaction Basic)) (g : DiGraph).
Hypothesis Hforest : forest g.
Hypothesis Hbound : node_bound g = length txs.
(** No execution panics, on any state. *)
Hypothesis Htotal : ∀ i tx s, txs !! i = Some tx → execute (RA := RA i) tx s cache ≠ None.

Notation Res := (Result StateDiff ExecError).

(** The transaction at [i], on the state overlaid with [acc]. *)
Definition ran (acc : StateDiff) (i : nat) (res : Res) : Prop :=
  ∃ tx, txs !! i = Some tx ∧
    execute (RA := RA i) tx (Dyn (mkOverlayed state (Dyn acc))) cache = Some res.

Lemma accumulate_app acc (l k : list (Res * nat)) :
  accumulate acc (l ++ k) = accumulate (accumulate acc l) k.
Proof. apply foldl_app. Qed.

Definition full (cs : list NodeType) (i : nat) : Prop :=
  ∃ tx, txs !! i = Some tx ∧ cs !! i = Some (Some (tx, i)).

Lemma take_row_full cs row :
  NoDup row → (∀ i, i ∈ row → full cs i) →
  ∃ row_txs cs', take_row cs row = Some (row_txs, cs') ∧
    Forall2 (λ t i, t.2 = i ∧ txs !! i = Some t.1) row_txs row ∧
    length cs' = length cs ∧ ∀ i, i ∉ row → cs' !! i = cs !! i.
Proof.
  revert cs. induction row as [|n row IH]; intros cs Hnd Hfull.
  - exists [], cs. done.
  - inversion_clear Hnd as [|? ? Hn Hnd']. destruct (Hfull n) as (tx & Htx & Hcell); [by left|].
    destruct (IH (<[n := None]> cs)) as (row_txs & cs' & Hrun & Htxs & Hlen & Hcs'); [done|..].
    { intros i Hi. destruct (Hfull i) as (tx' & ? & ?); [by right|]. exists tx'.
      split; [done|]. rewrite list_lookup_insert_ne; [done|]. by intros ->. }
    exists ((tx, n) :: row_txs), cs'. cbn [take_row]. rewrite Hcell. simpl. rewrite Hrun.
    split; [done|]. split; [by constructor|]. split; [by rewrite Hlen, length_insert|].
    intros i Hi. rewrite Hcs' by set_solver. apply list_lookup_insert_ne. set_solver.
Qed.

Lemma run_row_total acc row_txs row :
  Forall2 (λ t i, t.2 = i ∧ txs !! i = Some t.1) row_txs row →
  ∃ results, run_row RA state cache acc row_txs = Some results ∧ results.*2 = row ∧
    Forall (λ r : Res * nat, ran acc r.2 r.1) results.
Proof.
  unfold run_row. induction 1 as [|[tx i] j row_txs row [Hij Htx] _ IH]; [by exists []|].
  simpl in *. subst j. destruct IH as (results & Hrun & Hrow & Hres).
  pose proof (Htotal i tx (Dyn (mkOverlayed state (Dyn acc))) Htx) as Hex.
  destruct (execute tx (Dyn (mkOverlayed state (Dyn acc))) cache) as [res|] eqn:He; [|done].
  exists ((res, i) :: results). rewrite Hrun. simpl.
  split; [done|]. split; [by cbn; f_equal|]. constructor; [by exists tx|done].
Qed.

(** The rows a tree yields from its level [k] on. *)
Definition rows_ok r k acc (rows : list (list (Res * nat))) : Prop :=
  (∀ d row, rows !! d = Some row → row.*2 = level g r (k + d) ∧
    Forall (λ x : Res * nat, ran (accumulate acc (concat (take d rows))) x.2 x.1) row) ∧
  ∀ d i, i ∈ level g r (k + d) → d < length rows.

Lemma level_nil_up r k d : level g r k = [] → level g r (k + d) = [].
Proof.
  intros Hk. induction d as [|d IH]; [by rewrite Nat.add_0_r|].
  rewrite Nat.add_succ_r. cbn [level]. by rewrite IH.
Qed.

Lemma rows_ok_nil r k acc : level g r k = [] → rows_ok r k acc [].
Proof.
  intros Hk. split; [done|]. intros d i. rewrite level_nil_up by done. by intros ?%elem_of_nil.
Qed.

Lemma rows_ok_cons r k acc results rows i :
  i ∈ level g r k → results.*2 = level g r k →
  Forall (λ x : Res * nat, ran acc x.2 x.1) results →
  rows_ok r (S k) (accumulate acc results) rows → rows_ok r k acc (results :: rows).
Proof.
  intros Hi Hrow Hran [Hrows Hlen]. split.
  - intros [|d] row; simpl.
    + intros [= <-]. by rewrite Nat.add_0_r.
    + intros Hd. destruct (Hrows _ _ Hd) as [Hr Hf]. rewrite Nat.add_succ_r. split; [done|].
      eapply Forall_impl; [exact Hf|]. intros x. by rewrite accumulate_app.
  - intros [|d] j Hj; simpl; [lia|]. rewrite Nat.add_succ_r in Hj. apply Hlen in Hj. lia.
Qed.

Lemma tree_loop_ok r k fuel it cs acc prev :
  is_root g r → bfs_inv g r k it → k ≤ node_bound g < fuel + k →
  (∀ d i, i ∈ level g r (k + d) → full cs i) →
  ∃ rows cs', tree_loop RA fuel g state cache it cs acc prev = Some (prev ++ concat rows, cs') ∧
    rows_ok r k acc rows ∧ length cs' = length cs ∧
    ∀ i, (∀ d, i ∉ level g r (k + d)) → cs' !! i = cs !! i.
Proof.
  intros Hr. revert k it cs acc prev.
  induction fuel as [|fuel IH]; intros k it cs acc prev Hinv Hk Hcs; [lia|].
  cbn [tree_loop]. destruct (bfs_next_level g r k it Hforest Hr Hinv) as (it' & -> & Hinv').
  cbn [mbind option_bind]. destruct (level g r k) as [|x xs] eqn:Hl.
  - exists [], cs. simpl. rewrite app_nil_r. split; [done|]. split; [by apply rows_ok_nil|done].
  - rewrite <-Hl. assert (x ∈ level g r k) as Hx by (rewrite Hl; by left).
    pose proof (level_bound _ _ _ _ Hforest (proj1 Hr) Hx) as Hxb.
    destruct (take_row_full cs (level g r k)) as (row_txs & cs1 & -> & Htxs & Hlen1 & Hcs1).
    { by apply NoDup_level. }
    { intros i Hi. apply (Hcs 0). by rewrite Nat.add_0_r. }
    cbn [mbind option_bind].
    destruct (run_row_total acc row_txs _ Htxs) as (results & -> & Hrow & Hran).
    cbn [mbind option_bind].
    destruct (IH (S k) it' cs1 (accumulate acc results) (prev ++ results))
      as (rows & cs' & -> & Hrows & Hlen' & Hcs'); [done|lia|..].
    { intros d i Hi. destruct (Hcs (S d) i) as (tx & ? & ?); [by rewrite Nat.add_succ_r|].
      exists tx. split; [done|]. rewrite Hcs1; [done|]. intros Hi'.
      destruct (level_unique g r r _ _ i Hforest Hr Hr Hi Hi'). lia. }
    exists (results :: rows), cs'. split; [by rewrite <-app_assoc|].
    split; [by eapply rows_ok_cons|]. split; [lia|].
    intros i Hi. rewrite Hcs', Hcs1; [done|..].
    + specialize (Hi 0). by rewrite Nat.add_0_r in Hi.
    + intros d. specialize (Hi (S d)). by rewrite Nat.add_succ_r in Hi.
Qed.

(** ** All trees *)

(** Every tree's rows, for the roots of the list. *)
Lemma run_trees_ok rs cs :
  NoDup rs → (∀ r, r ∈ rs → is_root g r) → length cs = length txs →
  (∀ r d i, r ∈ rs → i ∈ level g r d → full cs i) →
  ∃ trees, run_trees RA g state cache cs rs = Some (concat (concat trees)) ∧
    Forall2 (λ r rows, rows_ok r 0 empty_diff rows) rs trees.
Proof.
  revert cs. induction rs as [|r rs IH]; intros cs Hnd Hroot Hlen Hcs; [by exists []|].
  inversion_clear Hnd as [|? ? Hr Hnd']. cbn [run_trees]. unfold tree_run.
  assert (is_root g r) as Hroot' by (apply Hroot; by left).
  destruct (tree_loop_ok r 0 (S (length cs)) (bfs_new r) cs empty_diff [])
    as (rows & cs' & -> & Hrows & Hlen' & Hcs'); [done|apply bfs_new_inv|lia|..].
  { intros d i Hi. apply (Hcs r d i); [by left|done]. }
  cbn [mbind option_bind]. destruct (IH cs') as (trees & -> & Htrees).
  - done.
  - intros r' Hr'. apply Hroot. by right.
  - lia.
  - intros r' d i Hr' Hi. destruct (Hcs r' d i) as (tx & ? & ?); [by right|done|].
    exists tx. split; [done|]. rewrite Hcs'; [done|]. intros d' Hi'.
    destruct (level_unique g r r' _ _ i Hforest Hroot' (Hroot r' ltac:(by right)) Hi' Hi). by subst.
  - exists (rows :: trees). simpl. rewrite concat_app. split; [done|]. by constructor.
Qed.

Lemma rows_ok_snd r acc rows : rows_ok r 0 acc rows → (concat rows).*2 = seq 0 (length rows) ≫= level g r.
Proof.
  intros [Hrows _]. induction rows as [|row rows IH] using rev_ind; [done|].
  rewrite concat_app, fmap_app, length_app, Nat.add_comm. cbn [length Nat.add]. rewrite seq_S, bind_app.
  simpl. rewrite !app_nil_r. f_equal.
  - apply IH. intros d row' Hd. rewrite <-(lookup_app_l _ [row]) in Hd by by eapply lookup_lt_Some.
    destruct (Hrows d row') as [Hr Hf]; [done|]. split; [done|].
    assert (d ≤ length rows) as Hle; [|by rewrite take_app_le in Hf].
    apply lookup_lt_Some in Hd. rewrite length_app in Hd. simpl in Hd. lia.
  - destruct (Hrows (length rows) row) as [Hr _]; [by apply list_lookup_middle|done].
Qed.

Lemma rows_ok_elem r acc rows i :
  rows_ok r 0 acc rows → i ∈ (concat rows).*2 ↔ ∃ d, i ∈ level g r d.
Proof.
  intros Hok. rewrite (rows_ok_snd _ _ _ Hok), list_elem_of_bind. split.
  - intros (d & Hd & _). eauto.
  - intros [d Hd]. exists d. split; [done|]. apply elem_of_seq. apply Hok in Hd. lia.
Qed.

Lemma rows_ok_NoDup r acc rows : is_root g r → rows_ok r 0 acc rows → NoDup (concat rows).*2.
Proof.
  intros Hr Hok. rewrite (rows_ok_snd _ _ _ Hok). apply NoDup_bind.
  - intros d d' i _ _ Hi Hi'. by destruct (level_unique g r r _ _ i Hforest Hr Hr Hi Hi').
  - intros d _. by apply NoDup_level.
  - apply NoDup_seq.
Qed.

Lemma trees_NoDup rs trees :
  NoDup rs → (∀ r, r ∈ rs → is_root g r) →
  Forall2 (λ r rows, rows_ok r 0 empty_diff rows) rs trees →
  NoDup (concat (concat trees)).*2 ∧
    ∀ i, i ∈ (concat (concat trees)).*2 ↔ ∃ r d, r ∈ rs ∧ i ∈ level g r d.
Proof.
  intros Hnd Hroot. induction 1 as [|r rows rs trees Hok _ IH].
  - split; [constructor|]. intros i. split; [by intros ?%elem_of_nil|by intros (? & ? & ?%elem_of_nil & _)].
  - inversion_clear Hnd as [|? ? Hr Hnd']. destruct IH as [Hnd2 Hin]; [done|set_solver|].
    assert (is_root g r) as Hroot' by (apply Hroot; by left).
    cbn [concat]. rewrite concat_app, fmap_app. split.
    + apply NoDup_app. split; [by eapply rows_ok_NoDup|]. split; [|done].
      intros i Hi (r' & d' & Hr' & Hi')%Hin. apply (rows_ok_elem _ _ _ _ Hok) in Hi as [d Hi].
      destruct (level_unique g r r' _ _ i Hforest Hroot' (Hroot r' ltac:(by right)) Hi Hi').
      by subst.
    + intros i. rewrite elem_of_app, Hin, (rows_ok_elem _ _ _ _ Hok). split.
      * intros [[d Hd]|(r' & d & Hr' & Hd)]; [exists r, d|exists r', d]; set_solver.
      * intros (r' & d & [->|Hr']%elem_of_cons & Hd); [left|right]; eauto.
Qed.

(** Each transaction is run once, on the accumulated changes of the earlier levels
    of its tree. *)
Lemma all_results rs cs :
  NoDup rs → (∀ r, r ∈ rs ↔ is_root g r) →
  cs = zip_with (λ tx i, Some (tx, i)) txs (seq 0 (length txs)) →
  ∃ all, run_trees RA g state cache cs rs = Some all ∧ all.*2 ≡ₚ seq 0 (length txs) ∧
    ∀ res i, (res, i) ∈ all → ∃ r rows,
      is_root g r ∧ i ∈ level g r (length rows) ∧ ran (accumulate empty_diff (concat rows)) i res ∧
      ∀ d row, rows !! d = Some row →
        row.*2 = level g r d ∧ ∀ x, x ∈ row → x ∈ all.
Proof.
  intros Hnd Hroots Hcs.
  destruct (run_trees_ok rs cs Hnd) as (trees & -> & Htrees).
  - intros r. apply Hroots.
  - subst cs. rewrite length_zip_with, length_seq. lia.
  - intros r d i Hr Hi. apply Hroots in Hr.
    pose proof (level_bound _ _ _ _ Hforest (proj1 Hr) Hi) as Hib. rewrite Hbound in Hib.
    destruct (lookup_lt_is_Some_2 txs i) as [tx Htx]; [lia|]. exists tx. split; [done|].
    subst cs. apply lookup_zip_with_Some. exists tx, i. split; [done|]. split; [done|].
    apply lookup_seq. lia.
  - destruct (trees_NoDup rs trees Hnd) as [Hnd2 Hin]; [by intros r; apply Hroots|done|].
    eexists. split; [reflexivity|]. split.
    + apply NoDup_Permutation; [done|apply NoDup_seq|]. intros i. rewrite Hin, elem_of_seq. split.
      * intros (r & d & Hr%Hroots & Hi). apply (level_bound _ _ _ _ Hforest (proj1 Hr)) in Hi. lia.
      * intros Hi. destruct (level_exists g i Hforest) as (r & d & Hr & Hd); [lia|].
        exists r, d. by rewrite Hroots.
    + intros res i (row & Hx & (rows & Hrow & Hrows)%elem_of_concat)%elem_of_concat.
      apply list_elem_of_lookup in Hrows as [a Ha].
      destruct (Forall2_lookup_r _ _ _ _ _ Htrees Ha) as (r & Hr & Hok & Hlen).
      apply list_elem_of_lookup in Hrow as [d Hd]. destruct (Hok _ _ Hd) as [Hsnd Hran]. cbn [Nat.add] in Hsnd.
      exists r, (take d rows). apply list_elem_of_lookup_2, Hroots in Hr. split; [done|].
      assert (i ∈ level g r d) as Hi.
      { rewrite <-Hsnd. apply list_elem_of_fmap. by exists (res, i). }
      rewrite length_take_le by (apply lookup_lt_Some in Hd; lia). split; [done|].
      split; [exact (proj1 (Forall_forall _ _) Hran _ Hx)|].
      intros d' row' Hd'. apply lookup_take_Some in Hd' as [Hd' _].
      split; [by apply (Hok d' row')|]. intros x Hx'. apply elem_of_concat.
      exists row'. split; [done|]. apply elem_of_concat. exists rows.
      split; by eapply list_elem_of_lookup_2.
Qed.
End trees.

(** ** The whole block *)

Lemma sorted_seq l n : StronglySorted le l → l ≡ₚ seq 0 n → l = seq 0 n.
Proof.
  intros Hs Hp. eapply (StronglySorted_unique le); [done| |done].
  clear. generalize 0. induction n as [|n IH]; intros m; simpl; constructor; [apply IH|].
  apply Forall_forall. intros i Hi%elem_of_seq. lia.
Qed.

#[global] Instance ix_le_total `{!Wasmer} : Total ix_le.
Proof. intros x y. unfold ix_le. lia. Qed.
#[global] Instance ix_le_trans `{!Wasmer} : Transitive ix_le.
Proof. intros x y z. unfold ix_le. lia. Qed.

Lemma ix_sorted `{!Wasmer} (all : list (Result StateDiff ExecError * nat)) n :
  all.*2 ≡ₚ seq 0 n →
  let results := fst <$> merge_sort ix_le all in
  length results = n ∧ ∀ res i, (res, i) ∈ all → results !! i = Some res.
Proof.
  intros Hp results. assert ((merge_sort ix_le all).*2 = seq 0 n) as Hseq.
  { apply sorted_seq; [|by rewrite merge_sort_Permutation].
    eapply StronglySorted_fmap; [|apply (StronglySorted_merge_sort ix_le)]. done. }
  split.
  - unfold results. rewrite length_fmap, <-(length_fmap snd), Hseq. apply length_seq.
  - intros res i Hi. rewrite <-(merge_sort_Permutation ix_le) in Hi.
    apply list_elem_of_lookup in Hi as [k Hk]. unfold results. rewrite list_lookup_fmap.
    assert ((merge_sort ix_le all).*2 !! k = Some i) as Hk2 by by rewrite list_lookup_fmap, Hk.
    rewrite Hseq in Hk2. apply lookup_seq in Hk2 as [-> _]. simpl. by rewrite Hk.
Qed.

Section block.
Context `{!MultihashCrate, !Bs58Crate, !MultihashLaws, !Bs58Laws, !Wasmer, !HashOrder Address,
  !Rmp (IntentContent Basic), !Rmp PredicateContext, !Rmp (list ExpandedParam),
  !Petgraph, !PetgraphLaws} (RA : nat → Rayon) (state cache : dyn_state).
Implicit Types (txs : list (Transaction Basic)).

Lemma all_refs txs :
  (∀ tx, tx ∈ txs → tx_valid tx) → ∃ refs, mapM (λ tx, refs_new tx state) txs = Some refs.
Proof.
  intros Hv. destruct (Forall_ex_Forall2 (λ tx r, refs_new tx state = Some r) txs) as [refs Hr].
  - apply Forall_forall. intros tx Htx. by apply refs_new_total, Hv.
  - exists refs. by apply mapM_Some.
Qed.

Lemma execute_many_run txs refs :
  (∀ tx, tx ∈ txs → tx_valid tx) → mapM (λ tx, refs_new tx state) txs = Some refs →
  ∃ g results, forest g ∧ (∀ i j, (i, j) ∈ edge_references g ↔ depends_nearest refs i j) ∧
    execute_many RA state cache txs = Some results ∧ length results = length txs ∧
    ∀ i tx, txs !! i = Some tx → ∃ r rows, is_root g r ∧ i ∈ level g r (length rows) ∧
      results !! i = execute (RA := RA i) tx
        (Dyn (mkOverlayed state (Dyn (accumulate empty_diff (concat rows))))) cache ∧
      ∀ d row, rows !! d = Some row →
        row.*2 = level g r d ∧ ∀ res j, (res, j) ∈ row → results !! j = Some res.
Proof.
  intros Hv Hrefs.
  destruct (schedule_new_spec state txs refs Hrefs) as (s & Hs & Hf & Hb & He & Hcs & Hnd & Hroots).
  destruct (all_results RA state cache txs (graph s) Hf Hb) with (rs := roots s) (cs := cells s)
    as (all & Hall & Hperm & Hin); [|done..|].
  { intros i tx st Htx. apply execute_total, Hv. by eapply list_elem_of_lookup_2. }
  destruct (ix_sorted all (length txs) Hperm) as [Hlen Hres].
  exists (graph s), (fst <$> merge_sort ix_le all). split; [done|]. split; [done|].
  split; [unfold execute_many; rewrite Hs; cbn [mbind option_bind]; unfold schedule_run;
    by rewrite Hall|].
  split; [done|]. intros i tx Htx.
  assert (i ∈ all.*2) as ([res i'] & -> & Hi)%list_elem_of_fmap.
  { rewrite Hperm. apply elem_of_seq. apply lookup_lt_Some in Htx. lia. }
  destruct (Hin _ _ Hi) as (r & rows & Hr & Hlev & (tx' & Htx' & Hex) & Hrows).
  exists r, rows. split; [done|]. split; [done|]. simpl in *. split.
  - rewrite (Hres _ _ Hi). assert (tx = tx') as -> by congruence. done.
  - intros d row Hd. destruct (Hrows _ _ Hd) as [Hrow Hsub]. split; [done|].
    intros res' j Hj. by apply Hres, Hsub.
Qed.

Lemma level_nsteps g refs r d i :
  (∀ i j, (i, j) ∈ edge_references g ↔ depends_nearest refs i j) →
  i ∈ level g r d ↔ nsteps (depends_nearest refs) d r i.
Proof.
  intros He. revert i. induction d as [|d IH]; intros i.
  - simpl. rewrite list_elem_of_singleton. split; [intros ->; constructor|by inversion 1].
  - rewrite elem_of_level_S. setoid_rewrite He. setoid_rewrite IH. split.
    + intros (x & Hx & Hxi). by eapply nsteps_r.
    + intros (x & Hx & Hxi)%nsteps_inv_r. eauto.
Qed.

Lemma overlay_empty s : Dyn (mkOverlayed s (Dyn empty_diff)) ≡ s.
Proof. intros a. simpl. by rewrite lookup_empty. Qed.
End block.


(** C25: a transaction that depends on no earlier one of its block has the result
    it would have on its own, on the state before the block, whatever else the
    block holds and however the block is scheduled. *)
Theorem execute_many_independent `{!MultihashCrate, !Bs58Crate, !MultihashLaws, !Bs58Laws, !Wasmer,
    !HashOrder Address, !Rmp (IntentContent Basic), !Rmp PredicateContext,
    !Rmp (list ExpandedParam), !Petgraph, !PetgraphLaws}
    (RA : nat → Rayon) (state cache : dyn_state) (txs : list (Transaction Basic)) refs i tx q :
  (∀ tx, tx ∈ txs → tx_valid tx) → mapM (λ tx, refs_new tx state) txs = Some refs →
  txs !! i = Some tx → refs !! i = Some q →
  (∀ j qj, j < i → refs !! j = Some qj → depends_on q qj = false) →
  execute_many RA state cache txs ≫= (.!! i) = execute (RA := RA i) tx state cache.
Proof.
  intros Hv Hrefs Htx Hq Hind.
  destruct (execute_many_run RA state cache txs refs Hv Hrefs)
    as (g & results & Hf & He & -> & Hlen & Hres). simpl.
  destruct (Hres i tx Htx) as (r & rows & Hr & Hi & -> & Hrows).
  destruct rows as [|row rows].
  - simpl. by rewrite (overlay_empty state).
  - exfalso. apply elem_of_level_S in Hi as (j & _ & Hj).
    apply He in Hj as (Hji & (qj & qi & Hqj & Hqi & Hd) & _).
    assert (qi = q) as -> by congruence. by rewrite (Hind j qj) in Hd.
Qed.

(** ** Examples *)

Definition create_tx (name : string) : Transaction Basic :=
  transaction_new (R := Basic) [] {[mkAddress (slash :: str name) := CreateAccount yes_account]}.
Definition change_both : Transaction Basic :=
  transaction_new (R := Basic) []
    {[mkAddress (str "/a") := ReplaceState (bstr "y"); mkAddress (str "/b") := ReplaceState (bstr "y")]}.
Definition every_sequential : nat → Rayon := λ _, sequential.

Lemma example_valid s : bool_decide (seg_ok (str s)) = true → valid (mkAddress (slash :: str s)).
Proof.
  intros Hs%bool_decide_eq_true. exists [str s]. split.
  - split; [done|]. by constructor.
  - unfold join. simpl. by rewrite app_nil_r.
Qed.

Lemma create_tx_valid s :
  bool_decide (seg_ok (str s)) = true → tx_valid (create_tx s).
Proof.
  intros Hs p Hp. unfold create_tx in Hp. simpl in Hp. rewrite dom_singleton_L in Hp.
  apply elem_of_singleton in Hp as ->. by apply example_valid.
Qed.

Lemma change_both_valid : tx_valid change_both.
Proof.
  intros p Hp. unfold change_both in Hp. simpl in Hp.
  rewrite dom_insert_L, dom_singleton_L in Hp.
  apply elem_of_union in Hp as [->%elem_of_singleton| ->%elem_of_singleton];
    by apply example_valid; vm_compute.
Qed.

Lemma example_block_valid tx :
  tx ∈ [create_tx "a"; create_tx "b"; change_both] → tx_valid tx.
Proof.
  intros [->|[->|[->|?%elem_of_nil]%elem_of_cons]%elem_of_cons]%elem_of_cons; [..|done].
  - by apply create_tx_valid; vm_compute.
  - by apply create_tx_valid; vm_compute.
  - apply change_both_valid.
Qed.

Lemma refs_new_spec_witness :
  ∃ refs, refs_new change_both (Dyn yes_store) = Some refs ∧
    writes refs = {[mkAddress (str "/a"); mkAddress (str "/b")]}.
Proof.
  destruct (refs_new_spec change_both (Dyn yes_store) change_both_valid) as (refs & Hr & Hw & _).
  exists refs. split; [exact Hr|]. rewrite Hw. by vm_compute.
Defined.


Lemma execute_many_independent_witness :
  let _ := map_order Address in
  execute_many every_sequential (Dyn (mkStore ∅)) (Dyn empty_diff)
    [create_tx "a"; create_tx "b"; change_both] ≫= (.!! 1) =
  execute (RA := sequential) (create_tx "b") (Dyn (mkStore ∅)) (Dyn empty_diff).
Proof.
  intros HO.
  destruct (mapM (λ tx, refs_new tx (Dyn (mkStore ∅)))
    [create_tx "a"; create_tx "b"; change_both]) as [refs|] eqn:Hrefs; [|by vm_compute in Hrefs].
  apply (execute_many_independent every_sequential (Dyn (mkStore ∅)) (Dyn empty_diff)
    [create_tx "a"; create_tx "b"; change_both] refs 1 (create_tx "b")
    (mkRefs ∅ {[mkAddress (str "/b")]})).
  - apply example_block_valid.
  - exact Hrefs.
  - reflexivity.
  - vm_compute in Hrefs. injection Hrefs as <-. by vm_compute.
  - intros j qj Hj Hqj. assert (j = 0) as -> by lia.
    vm_compute in Hrefs. injection Hrefs as <-. vm_compute in Hqj. injection Hqj as <-.
    by vm_compute.
Defined.

