(* ===== verification/SynCell.v ===== *)
(** The run-time checked cell of the scheduler: [vm/src/syncell.rs].

    The state word is a 64-bit integer; each thread that uses the cell takes the
    atomic steps of [borrow_mut] and of the destructors, in any interleaving.
    [SynRef]s count in the low bits, the mutable borrow is the highest bit. *)
From stdpp Require Import relations.
From S2P Require Import Prelude.

Open Scope Z_scope.

(** [const WRITE_BIT: usize] *)
Definition WRITE_BIT : Z := Z.shiftl 1 63.

(** [AtomicUsize::fetch_or(WRITE_BIT)], [fetch_and(!WRITE_BIT)], [fetch_sub(1)]: the
    word afterwards. *)
Definition set_bit (w : Z) : Z := Z.lor w WRITE_BIT.
Definition clear_bit (w : Z) : Z := Z.land w (Z.lnot WRITE_BIT).
Definition sub_one (w : Z) : Z := (w - 1) mod 2 ^ 64.

(** Where a thread is: not using the cell; holding a [SynRef]; having found the
    cell shared in [borrow_mut], about to clear the bit it set; holding the
    [SynRefMut]; panicked. *)
Inductive Thread := Idle | Reading | Undoing | Writing | Dead.

#[global] Instance Thread_eq_dec : EqDecision Thread.
Proof. solve_decision. Defined.

(** One atomic step of a thread on the word. *)
Definition thread_step (w : Z) (t : Thread) : option (Z * Thread) :=
  match t with
  | Idle =>
      (** [SynCell::borrow_mut] up to its first access *)
      let old := w in
      Some (set_bit w,
        if negb (Z.land old WRITE_BIT =? 0) then Dead
        else if negb (old =? 0) then Undoing
        else Writing)
  | Undoing => Some (clear_bit w, Dead)
  | Reading => Some (sub_one w, Idle)      (** [SynRef::drop] *)
  | Writing => Some (clear_bit w, Idle)    (** [SynRefMut::drop] *)
  | Dead => None
  end.

(** The cell and the threads that use it. *)
Record Shared := mkShared { word : Z; threads : list Thread }.

Inductive step : Shared → Shared → Prop :=
| step_thread w ts i t w' t' :
    ts !! i = Some t → thread_step w t = Some (w', t') →
    step (mkShared w ts) (mkShared w' (<[i := t']> ts)).

(** ** Bits of the word *)

Lemma write_bit : WRITE_BIT = 2 ^ 63.
Proof. done. Qed.

Lemma low_land r : 0 ≤ r < 2 ^ 63 → Z.land r WRITE_BIT = 0.
Proof.
  intros Hr. apply Z.bits_inj'. intros n Hn. rewrite Z.land_spec, Z.bits_0, write_bit.
  destruct (Z.eq_dec n 63) as [->|Hne].
  - rewrite <-(Z.mod_small r (2 ^ 63)) by done. by rewrite Z.mod_pow2_bits_high by lia.
  - by rewrite Z.pow2_bits_false, andb_false_r.
Qed.

Lemma low_lor r : 0 ≤ r < 2 ^ 63 → set_bit r = r + WRITE_BIT.
Proof.
  intros Hr. unfold set_bit. rewrite Z.add_nocarry_lxor by by apply low_land.
  by rewrite Z.lxor_lor by by apply low_land.
Qed.

Lemma high_land r : 0 ≤ r < 2 ^ 63 → Z.land (r + WRITE_BIT) WRITE_BIT = WRITE_BIT.
Proof.
  intros Hr. rewrite <-low_lor by done. unfold set_bit.
  by rewrite Z.land_lor_distr_l, low_land, Z.land_diag, Z.lor_0_l.
Qed.

Lemma high_lor r : 0 ≤ r < 2 ^ 63 → set_bit (r + WRITE_BIT) = r + WRITE_BIT.
Proof.
  intros Hr. rewrite <-low_lor by done. unfold set_bit. by rewrite <-Z.lor_assoc, Z.lor_diag.
Qed.

Lemma high_clear r : 0 ≤ r < 2 ^ 63 → clear_bit (r + WRITE_BIT) = r.
Proof.
  intros Hr. rewrite <-low_lor by done. unfold clear_bit, set_bit.
  apply Z.bits_inj'. intros n Hn. rewrite Z.land_spec, Z.lor_spec, Z.lnot_spec by done.
  rewrite write_bit. destruct (Z.eq_dec n 63) as [->|Hne].
  - rewrite <-(Z.mod_small r (2 ^ 63)) by done. by rewrite Z.mod_pow2_bits_high by lia.
  - by rewrite Z.pow2_bits_false, orb_false_r, andb_true_r by done.
Qed.

(** ** The invariant *)

Definition count (t : Thread) (ts : list Thread) : nat := length (filter (eq t) ts).

Definition readers (ts : list Thread) : Z := Z.of_nat (count Reading ts).

(** The low bits count the readers; the bit is set while one thread is in or
    leaving [borrow_mut], which is one at most, and a writer excludes readers. *)
Definition shared_ok (s : Shared) : Prop :=
  let owners := (count Writing (threads s) + count Undoing (threads s))%nat in
  readers (threads s) < 2 ^ 63 ∧ (owners ≤ 1)%nat ∧
  word s = readers (threads s) + (if (owners =? 0)%nat then 0 else WRITE_BIT) ∧
  (count Writing (threads s) ≠ 0%nat → readers (threads s) = 0).

Lemma count_insert u ts i t t' :
  ts !! i = Some t →
  (count u (<[i := t']> ts) + (if decide (u = t) then 1 else 0) =
    count u ts + (if decide (u = t') then 1 else 0))%nat.
Proof.
  intros Hi. unfold count. rewrite insert_take_drop by by eapply lookup_lt_Some.
  rewrite <-(take_drop_middle _ _ _ Hi) at 3. rewrite !filter_app, !length_app, !filter_cons.
  destruct (decide (u = t)), (decide (u = t')); simpl; lia.
Qed.

(** Comparisons of constructors in the hypotheses. *)
Ltac simpl_decide :=
  repeat match goal with
  | H : context [decide (?x = ?y)] |- _ =>
      first [ rewrite (decide_True (P := x = y)) in H by reflexivity
            | rewrite (decide_False (P := x = y)) in H by discriminate ]
  end.

Lemma step_ok s s' : shared_ok s → step s s' → shared_ok s'.
Proof.
  intros Hok Hstep. destruct Hstep as [w ts i t w' t' Hi Hs].
  destruct Hok as (Hr & Ho & Hw & Hx). unfold shared_ok in *. cbn [word threads] in *.
  pose proof (count_insert Reading ts i t t' Hi) as HR.
  pose proof (count_insert Writing ts i t t' Hi) as HW.
  pose proof (count_insert Undoing ts i t t' Hi) as HU.
  unfold readers in *.
  set (r := count Reading ts) in *. set (r' := count Reading (<[i:=t']> ts)) in *.
  set (wr := count Writing ts) in *. set (wr' := count Writing (<[i:=t']> ts)) in *.
  set (un := count Undoing ts) in *. set (un' := count Undoing (<[i:=t']> ts)) in *.
  clearbody r r' wr wr' un un'.
  assert (0 ≤ Z.of_nat r < 2 ^ 63) as Hr' by lia.
  destruct t; cbn [thread_step] in Hs; [..|done]; injection Hs as <- <-; subst w.
  - destruct (Nat.eqb_spec (wr + un) 0) as [Ho0|Ho1].
    + rewrite Z.add_0_r, low_lor, low_land in * by done.
      destruct (Z.eqb_spec (Z.of_nat r) 0) as [Hr0|Hr0]; cbn in HR, HW, HU |- *; simpl_decide.
      * rewrite (proj2 (Nat.eqb_neq (wr' + un') 0)) by lia. lia.
      * rewrite (proj2 (Nat.eqb_neq (wr' + un') 0)) by lia. lia.
    + rewrite high_lor, high_land in * by done. cbn in HR, HW, HU |- *; simpl_decide.
      rewrite (proj2 (Nat.eqb_neq (wr' + un') 0)) by lia. lia.
  - cbn in HR, HW, HU; simpl_decide. unfold sub_one. rewrite Z.mod_small.
    + replace (wr' + un')%nat with (wr + un)%nat by lia. lia.
    + destruct (Nat.eqb_spec (wr + un) 0); [lia|]. rewrite write_bit. lia.
  - cbn in HR, HW, HU; simpl_decide.
    rewrite (proj2 (Nat.eqb_neq (wr + un) 0)), high_clear by (done || lia).
    rewrite (proj2 (Nat.eqb_eq (wr' + un') 0)) by lia. lia.
  - cbn in HR, HW, HU; simpl_decide.
    rewrite (proj2 (Nat.eqb_neq (wr + un) 0)), high_clear by (done || lia).
    rewrite (proj2 (Nat.eqb_eq (wr' + un') 0)) by lia. lia.
Qed.

Lemma count_elem t ts i : t ≠ Dead → ts !! i = Some t → (1 ≤ count t ts)%nat.
Proof.
  intros Ht Hi. pose proof (count_insert t ts i t Dead Hi) as Hc.
  rewrite decide_True, (decide_False (P := t = Dead)) in Hc by done. lia.
Qed.

Lemma count_two t ts i j :
  t ≠ Dead → i ≠ j → ts !! i = Some t → ts !! j = Some t → (2 ≤ count t ts)%nat.
Proof.
  intros Ht Hij Hi Hj. pose proof (count_insert t ts i t Dead Hi) as Hc.
  rewrite decide_True, (decide_False (P := t = Dead)) in Hc by done.
  assert (1 ≤ count t (<[i := Dead]> ts))%nat; [|lia].
  apply (count_elem t _ j Ht). by rewrite list_lookup_insert_ne.
Qed.

Lemma count_none u ts : Forall (λ t, t ≠ u) ts → count u ts = 0%nat.
Proof.
  unfold count. induction 1 as [|t ts Ht _ IH]; [done|]. rewrite filter_cons.
  by rewrite decide_False by congruence.
Qed.

(** C28: the cell keeps its promise.  Start from any number of threads of which some
    hold a shared reference and the others do not use the cell, the word counting
    the former.  In every interleaving of their steps, at most one thread holds a
    mutable reference, none holds a shared one at the same time, and the word is
    the number of shared references together with the bit of [borrow_mut] while a
    thread is inside; in particular a panicking [borrow_mut] leaves the borrow of
    the thread that was there first alone. *)
Theorem syncell_exclusive ts s :
  readers ts < 2 ^ 63 → Forall (λ t, t = Idle ∨ t = Reading) ts →
  rtc step (mkShared (readers ts) ts) s →
  (∀ i j, threads s !! i = Some Writing → threads s !! j = Some Writing → i = j) ∧
  (∀ i j, threads s !! i = Some Writing → threads s !! j = Some Reading → False) ∧
  (Forall (λ t, t ≠ Writing ∧ t ≠ Undoing) (threads s) → word s = readers (threads s)) ∧
  (∀ i, threads s !! i = Some Writing → word s = WRITE_BIT).
Proof.
  intros Hlt Hts Hrun.
  assert (shared_ok (mkShared (readers ts) ts)) as Hok.
  { assert (∀ u, u = Writing ∨ u = Undoing → count u ts = 0%nat) as Hno.
    { intros u Hu. apply count_none. eapply Forall_impl; [exact Hts|]. naive_solver. }
    unfold shared_ok. cbn [word threads]. rewrite !Hno by auto. simpl.
    split; [done|]. split; [lia|]. split; [lia|done]. }
  assert (shared_ok s) as (Hr & Ho & Hw & Hx).
  { clear Hlt Hts. induction Hrun as [s|s1 s2 s3 Hs _ IH]; [done|]. apply IH. by eapply step_ok. }
  split; [|split; [|split]].
  - intros i j Hi Hj. destruct (decide (i = j)) as [|Hij]; [done|].
    pose proof (count_two Writing _ _ _ ltac:(done) Hij Hi Hj). lia.
  - intros i j Hi%count_elem Hj%count_elem; [|done..]. unfold readers in *. lia.
  - intros Hall. assert (∀ u, u = Writing ∨ u = Undoing → count u (threads s) = 0%nat) as Hno.
    { intros u Hu. apply count_none. eapply Forall_impl; [exact Hall|]. naive_solver. }
    rewrite Hw, !Hno by auto. simpl. lia.
  - intros i Hi%count_elem; [|done]. rewrite Hw, Hx by lia.
    by rewrite (proj2 (Nat.eqb_neq _ 0)) by lia.
Qed.

(** Two threads try to borrow; the second one panics, the first one is left alone. *)
Lemma syncell_exclusive_witness :
  rtc step (mkShared 0 [Idle; Idle]) (mkShared WRITE_BIT [Writing; Dead]) ∧ WRITE_BIT = 2 ^ 63.
Proof.
  assert (rtc step (mkShared 0 [Idle; Idle]) (mkShared WRITE_BIT [Writing; Dead])) as Hrun.
  { apply rtc_l with (mkShared WRITE_BIT [Writing; Idle]).
    - by apply (step_thread 0 [Idle; Idle] 0 Idle WRITE_BIT Writing).
    - apply rtc_once. by apply (step_thread WRITE_BIT [Writing; Idle] 1 Idle WRITE_BIT Dead). }
  split; [exact Hrun|].
  destruct (syncell_exclusive [Idle; Idle] (mkShared WRITE_BIT [Writing; Dead]))
    as (_ & _ & _ & Hw); [done|by repeat constructor; left|exact Hrun|].
  exact (Hw 0%nat eq_refl).
Defined.
