(* ===== verification/Stdpred.v ===== *)
(** The standard predicate library: [stdpred/src].

    A predicate is a function of its expanded parameters and of the context;
    [None] is a panic ([assert_eq!], [expect]), which traps in the virtual machine
    and is a crash for [Execution]. *)
From S2P Require Import Prelude Address Predicate State Extern Chain Sandbox Collect.

Section stdpred.
Context `{!RmpU64, !Rmp bool, !Rmp Address, !Rmp (gmap bytes bytes), !Rmp (gset bytes)}.

(** [it.next().expect("asserted").data()] *)
Definition next_data (it : list ExpandedParam) : option (bytes * list ExpandedParam) :=
  match it with
  | [] => None
  | p :: it => Some (data p, it)
  end.

(** [slice_to_u64] *)
Definition slice_to_u64 (b : bytes) : option Z := u64_from_slice b.

(** ** [arithmetic.rs] *)

(** The common text of the predicates on two integers. *)
Definition on_two_uints (op : Z → Z → bool) (params : list ExpandedParam) : option bool :=
  if negb (length params =? 2)%nat then None
  else
    '(d1, it) ← next_data params; first ← slice_to_u64 d1;
    '(d2, it) ← next_data it; second ← slice_to_u64 d2;
    Some (op first second).

Definition uint_equal (params : list ExpandedParam) : option bool :=
  on_two_uints (λ first second, first =? second)%Z params.
Definition uint_greater_than (params : list ExpandedParam) : option bool :=
  on_two_uints (λ first second, second <? first)%Z params.
Definition uint_greater_than_equal (params : list ExpandedParam) : option bool :=
  on_two_uints (λ first second, second <=? first)%Z params.
Definition uint_less_than (params : list ExpandedParam) : option bool :=
  on_two_uints (λ first second, first <? second)%Z params.
Definition uint_less_than_equal (params : list ExpandedParam) : option bool :=
  on_two_uints (λ first second, first <=? second)%Z params.

(** The common text of the predicates on three integers. *)
Definition on_three_uints (op : Z → Z → Z → bool) (params : list ExpandedParam) : option bool :=
  if negb (length params =? 3)%nat then None
  else
    '(d1, it) ← next_data params; first ← slice_to_u64 d1;
    '(d2, it) ← next_data it; second ← slice_to_u64 d2;
    '(d3, it) ← next_data it; by_ ← slice_to_u64 d3;
    Some (op first second by_).

Definition uint_greater_than_by (params : list ExpandedParam) : option bool :=
  on_three_uints (λ first second by_, u64_saturating_sub first second =? by_)%Z params.
Definition uint_less_than_by (params : list ExpandedParam) : option bool :=
  on_three_uints (λ first second by_, u64_saturating_sub second first =? by_)%Z params.

(** ** [bytes.rs] *)

Definition bytes_equal (params : list ExpandedParam) : option bool :=
  if negb (length params =? 2)%nat then None
  else
    '(first, it) ← next_data params; '(second, it) ← next_data it;
    Some (bool_decide (first = second)).

(** ** [map.rs] and [set.rs] *)

Definition is_empty_map (params : list ExpandedParam) : option bool :=
  if negb (length params =? 1)%nat then None
  else
    '(first, it) ← next_data params;
    set ← (from_slice first : option (gmap bytes bytes));
    Some (bool_decide (set = ∅)).

Definition contains_key (params : list ExpandedParam) : option bool :=
  if negb (length params =? 2)%nat then None
  else
    '(haystack, it) ← next_data params; '(needle, it) ← next_data it;
    map ← (from_slice haystack : option (gmap bytes bytes));
    Some (bool_decide (is_Some (map !! needle))).

Definition key_equals (params : list ExpandedParam) : option bool :=
  if negb (length params =? 2)%nat then None
  else
    '(haystack, it) ← next_data params; '(needle, it) ← next_data it;
    '(value, it) ← next_data it;
    map ← (from_slice haystack : option (gmap bytes bytes));
    Some (default false ((λ v, bool_decide (v = value)) <$> map !! needle)).

Definition is_empty_set (params : list ExpandedParam) : option bool :=
  if negb (length params =? 1)%nat then None
  else
    '(first, it) ← next_data params;
    set ← (from_slice first : option (gset bytes));
    Some (bool_decide (set = ∅)).

Definition contains_element (params : list ExpandedParam) : option bool :=
  if negb (length params =? 2)%nat then None
  else
    '(haystack, it) ← next_data params; '(needle, it) ← next_data it;
    set ← (from_slice haystack : option (gset bytes));
    Some (bool_decide (needle ∈ set)).

(** ** [constant.rs] *)

Definition constant (params : list ExpandedParam) : option bool :=
  if negb (length params =? 1)%nat then None
  else '(d, it) ← next_data params; from_slice d.

Context `{!MultihashCrate}.

Definition immutable_state (params : list ExpandedParam) (context : PredicateContext) :
    option bool :=
  if negb (length params =? 1)%nat then None
  else
    '(d, it) ← next_data params;
    target ← (from_slice d : option Address);
    match ctx_proposals context !! target with
    | Some (EReplaceState _ _) => Some false
    | _ => Some true
    end.

Definition immutable_predicates (params : list ExpandedParam) (context : PredicateContext) :
    option bool :=
  if negb (length params =? 1)%nat then None
  else
    '(d, it) ← next_data params;
    target ← (from_slice d : option Address);
    match ctx_proposals context !! target with
    | Some (EReplacePredicates _ _) => Some false
    | _ => Some true
    end.

(** ** [signature.rs] *)

Context `{!Ed25519, !Bs58Crate}.

(** The loop over the calldata of the intents; it returns at the first entry under
    the key that has the format of a signature. *)
Fixpoint signature_loop (pubkey : PublicKey) (key : rstring) (l : list (Multihash * Calldata)) :
    bool :=
  match l with
  | [] => false
  | (hash, calldata) :: l =>
      match calldata !! key with
      | Some signature =>
          match signature_from_bytes signature with
          | Some signature => verify pubkey (to_bytes hash) signature
          | None => signature_loop pubkey key l
          end
      | None => signature_loop pubkey key l
      end
  end.

Definition require_ed25519_signature (params : list ExpandedParam) (context : PredicateContext) :
    option bool :=
  if negb (length params =? 1)%nat then None
  else
    p ← params !! 0;
    pubkey ← public_key_from_bytes (data p);
    let expected_calldata_key := bs58_encode (public_key_as_bytes pubkey) in
    Some (signature_loop pubkey expected_calldata_key (btree_iter (ctx_calldata context))).
End stdpred.

(** ** Theorems *)

(** The predicates on integers.  On parameters that encode 64-bit integers each
    comparison decides what its name says; a wrong number of parameters or a
    parameter that is no integer makes it panic.  The two predicates with a
    distance compare a saturated difference: they also accept when the order is
    the wrong way round and the distance is zero. *)
Theorem uint_predicates_spec `{!RmpU64} (params : list ExpandedParam) :
  match mapM (λ p, u64_from_slice (data p)) params with
  | Some [x; y] =>
      uint_equal params = Some (bool_decide (x = y)) ∧
      uint_greater_than params = Some (bool_decide (x > y)%Z) ∧
      uint_greater_than_equal params = Some (bool_decide (x >= y)%Z) ∧
      uint_less_than params = Some (bool_decide (x < y)%Z) ∧
      uint_less_than_equal params = Some (bool_decide (x <= y)%Z) ∧
      uint_greater_than_by params = None ∧ uint_less_than_by params = None
  | Some [x; y; d] =>
      (uint_greater_than_by params = Some true ↔ (x - y = d ∨ x < y ∧ d = 0)%Z) ∧
      (uint_less_than_by params = Some true ↔ (y - x = d ∨ y < x ∧ d = 0)%Z) ∧
      is_Some (uint_greater_than_by params) ∧ is_Some (uint_less_than_by params) ∧
      uint_equal params = None
  | _ => uint_equal params = None ∧ uint_greater_than params = None ∧
      uint_greater_than_equal params = None ∧ uint_less_than params = None ∧
      uint_less_than_equal params = None ∧ uint_greater_than_by params = None ∧
      uint_less_than_by params = None
  end.
Proof.
  assert (∀ p x, u64_from_slice (data p) = Some x → is_u64 x) as Hrange.
  { intros p x. apply u64_from_slice_range. }
  unfold uint_equal, uint_greater_than, uint_greater_than_equal, uint_less_than,
    uint_less_than_equal, uint_greater_than_by, uint_less_than_by, on_two_uints, on_three_uints,
    slice_to_u64, u64_saturating_sub.
  destruct params as [|p1 [|p2 [|p3 [|p4 ps]]]]; simpl.
  - done.
  - by destruct (u64_from_slice (data p1)).
  - destruct (u64_from_slice (data p1)) as [x|]; simpl; [|done].
    destruct (u64_from_slice (data p2)) as [y|]; simpl; [|done].
    repeat split; f_equal; apply eq_true_iff_eq; rewrite bool_decide_eq_true;
      rewrite ?Z.eqb_eq, ?Z.ltb_lt, ?Z.leb_le; lia.
  - destruct (u64_from_slice (data p1)) as [x|] eqn:Hx; simpl; [|done].
    destruct (u64_from_slice (data p2)) as [y|] eqn:Hy; simpl; [|done].
    destruct (u64_from_slice (data p3)) as [d|] eqn:Hd; simpl; [|done].
    apply Hrange in Hx, Hy, Hd. unfold is_u64 in *.
    split; [|split; [|split; [eauto|split; [eauto|done]]]].
    + rewrite (inj_iff Some), Z.eqb_eq. lia.
    + rewrite (inj_iff Some), Z.eqb_eq. lia.
  - destruct (u64_from_slice (data p1)); simpl; [|done].
    destruct (u64_from_slice (data p2)); simpl; [|done].
    destruct (u64_from_slice (data p3)); simpl; [|done].
    destruct (u64_from_slice (data p4)); simpl; [|done].
    by destruct (mapM _ ps).
Qed.

(** [key_equals] cannot accept, nor reject: it asserts that it has two
    parameters and then takes a third one, so it panics on every input. *)
Theorem key_equals_panics `{!Rmp (gmap bytes bytes)} params : key_equals params = None.
Proof. unfold key_equals. by destruct params as [|p1 [|p2 [|p3 ps]]]. Qed.

(** The predicates that freeze an account.  On a parameter that encodes an
    address, [immutable_state] rejects exactly the transactions that replace the
    state of that account, [immutable_predicates] exactly those that replace its
    predicates; both let a transaction delete the account. *)
Theorem immutable_spec `{!MultihashCrate, !Rmp Address} (p : ExpandedParam)
    (context : PredicateContext) target :
  from_slice (data p) = Some target →
  (immutable_state [p] context = Some false ↔
    ∃ s s', ctx_proposals context !! target = Some (EReplaceState s s')) ∧
  (immutable_predicates [p] context = Some false ↔
    ∃ t t', ctx_proposals context !! target = Some (EReplacePredicates t t')) ∧
  is_Some (immutable_state [p] context) ∧ is_Some (immutable_predicates [p] context) ∧
  ∀ acc, ctx_proposals context !! target = Some (EDeleteAccount acc) →
    immutable_state [p] context = Some true ∧ immutable_predicates [p] context = Some true.
Proof.
  intros Ht. unfold immutable_state, immutable_predicates. simpl. rewrite Ht. simpl.
  destruct (ctx_proposals context !! target) as [[]|]; naive_solver.
Qed.

#[global] Instance sandbox_rmp_address : Rmp Address := rmp_countable Address.

Lemma immutable_spec_witness :
  let frozen := mkAddress (str "/token") in
  immutable_state [EInline (to_vec frozen)] (mkContext ∅ {[frozen := EDeleteAccount example_account]})
    = Some true.
Proof.
  intros frozen.
  destruct (immutable_spec (EInline (to_vec frozen))
    (mkContext ∅ {[frozen := EDeleteAccount example_account]}) frozen)
    as (_ & _ & _ & _ & Hdel); [by vm_compute|].
  by destruct (Hdel example_account) as [-> _]; [apply lookup_singleton_eq|].
Defined.

Section signature.
Context `{!MultihashCrate, !Ed25519, !Bs58Crate} (pk : PublicKey).

(** The intent with this calldata holds something with the format of a signature
    under the name of the key. *)
Definition holds_signature (cd : Calldata) (sig : Signature) : Prop :=
  ∃ s, cd !! bs58_encode (public_key_as_bytes pk) = Some s ∧ signature_from_bytes s = Some sig.

Lemma signature_loop_true l :
  signature_loop pk (bs58_encode (public_key_as_bytes pk)) l = true ↔
  ∃ pre h cd sig post, l = pre ++ (h, cd) :: post ∧ holds_signature cd sig ∧
    verify pk (to_bytes h) sig = true ∧
    ∀ h' cd' sig', (h', cd') ∈ pre → ¬ holds_signature cd' sig'.
Proof.
  unfold holds_signature. induction l as [|[h cd] l IH]; simpl.
  - split; [done|]. intros (pre & ? & ? & ? & ? & Heq & _). by destruct pre.
  - destruct (cd !! bs58_encode (public_key_as_bytes pk)) as [s|] eqn:Hs;
      [destruct (signature_from_bytes s) as [sig|] eqn:Hsig|].
    + split.
      * intros Hv. exists [], h, cd, sig, l. split; [done|]. split; [eauto|]. split; [done|].
        by intros ? ? ? ?%elem_of_nil.
      * intros (pre & h' & cd' & sig' & post & Heq & (s' & Hs' & Hsig') & Hv & Hno).
        destruct pre as [|e pre]; simplify_eq/=; try congruence.
        exfalso. apply (Hno h cd sig); [by left|eauto].
    + rewrite IH. split.
      * intros (pre & h' & cd' & sig' & post & -> & Hh & Hv & Hno).
        exists ((h, cd) :: pre), h', cd', sig', post. split; [done|]. split; [done|].
        split; [done|]. intros h2 cd2 sig2 [[= -> ->]|Hin]%elem_of_cons; [|by apply (Hno h2)].
        intros (s2 & ? & ?). congruence.
      * intros (pre & h' & cd' & sig' & post & Heq & (s' & Hs' & Hsig') & Hv & Hno).
        destruct pre as [|e pre]; simplify_eq/=; try congruence.
        exists pre, h', cd', sig', post. split; [done|]. split; [eauto|]. split; [done|].
        intros h2 cd2 sig2 Hin. apply (Hno h2 cd2). by right.
    + rewrite IH. split.
      * intros (pre & h' & cd' & sig' & post & -> & Hh & Hv & Hno).
        exists ((h, cd) :: pre), h', cd', sig', post. split; [done|]. split; [done|].
        split; [done|]. intros h2 cd2 sig2 [[= -> ->]|Hin]%elem_of_cons; [|by apply (Hno h2)].
        intros (s2 & ? & ?). congruence.
      * intros (pre & h' & cd' & sig' & post & Heq & (s' & Hs' & Hsig') & Hv & Hno).
        destruct pre as [|e pre]; simplify_eq/=; try congruence.
        exists pre, h', cd', sig', post. split; [done|]. split; [eauto|]. split; [done|].
        intros h2 cd2 sig2 Hin. apply (Hno h2 cd2). by right.
Qed.
End signature.

(** Requiring a signature.  The predicate accepts exactly when some intent holds,
    under the name of the key, a valid signature of the intent's hash and no
    intent with a smaller hash holds anything with the format of a signature
    there.  So acceptance does imply a valid signature, but an intent with a
    wrong signature hides the valid signature of an intent that comes later. *)
Theorem require_ed25519_signature_spec `{!MultihashCrate, !Ed25519, !Bs58Crate}
    (p : ExpandedParam) (context : PredicateContext) (pk : PublicKey) :
  public_key_from_bytes (data p) = Some pk →
  is_Some (require_ed25519_signature [p] context) ∧
  (require_ed25519_signature [p] context = Some true ↔
    ∃ h cd sig, ctx_calldata context !! h = Some cd ∧ holds_signature pk cd sig ∧
      verify pk (to_bytes h) sig = true ∧
      ∀ h' cd' sig', ctx_calldata context !! h' = Some cd' → holds_signature pk cd' sig' →
        key_le h h').
Proof.
  intros Hpk. unfold require_ed25519_signature. simpl. rewrite Hpk. simpl. split; [eauto|].
  rewrite (inj_iff Some), signature_loop_true. split.
  - intros (pre & h & cd & sig & post & Heq & Hh & Hv & Hno).
    exists h, cd, sig. split; [apply elem_of_btree_iter; rewrite Heq; set_solver|].
    split; [done|]. split; [done|]. intros h' cd' sig' Hcd' Hh'.
    destruct (total key_le h h') as [|Hle]; [done|].
    destruct (decide (h' = h)) as [->|Hne]; [by destruct (total key_le h h)|].
    pose proof (btree_iter_before _ _ _ _ _ _ _ Heq Hcd' Hle Hne) as Hin. by destruct (Hno _ _ _ Hin Hh').
  - intros (h & cd & sig & Hcd & Hh & Hv & Hmin).
    apply elem_of_btree_iter, list_elem_of_split in Hcd as (pre & post & Heq).
    exists pre, h, cd, sig, post. split; [done|]. split; [done|]. split; [done|].
    intros h' cd' sig' Hin Hh'.
    assert (ctx_calldata context !! h' = Some cd') as Hcd'.
    { apply elem_of_btree_iter. rewrite Heq. set_solver. }
    pose proof (Hmin _ _ _ Hcd' Hh') as Hle.
    pose proof (NoDup_btree_keys (ctx_calldata context)) as Hnd. unfold btree_keys in Hnd.
    pose proof (btree_keys_sorted (ctx_calldata context)) as Hs. unfold btree_keys in Hs.
    rewrite Heq, fmap_app in Hnd, Hs. simpl in Hnd, Hs.
    assert (h' ∈ pre.*1) as Hin1 by (apply list_elem_of_fmap; by exists (h', cd')).
    assert (h = h') as ->.
    { apply (anti_symm key_le); [done|]. clear -Hs Hin1. induction pre.*1 as [|k l IH]; simpl in *.
      - by apply elem_of_nil in Hin1.
      - inversion_clear Hs as [|? ? Hs' Hall]. apply elem_of_cons in Hin1 as [->|Hin1]; [|by apply IH].
        eapply Forall_forall; [exact Hall|]. set_solver. }
    apply NoDup_app in Hnd as (_ & Hdisj & _). apply (Hdisj h' Hin1). by left.
Qed.

(** A wrong signature on the first of two intents hides the valid one on the second. *)
Lemma require_ed25519_signature_spec_witness :
  let key := bs58_encode (bstr "k") in
  let two := mkContext {[ bstr "h1" := {[key := bstr "wrong"]}; bstr "h2" := {[key := bstr "kh2"]} ]} ∅ in
  is_Some (require_ed25519_signature [EInline (bstr "k")] two) ∧
  require_ed25519_signature [EInline (bstr "k")] two = Some false ∧
  verify toy_key (bstr "h2") toy_signature = true.
Proof.
  intros key two.
  destruct (require_ed25519_signature_spec (EInline (bstr "k")) two toy_key eq_refl) as [Hs _].
  split; [exact Hs|]. split; [by vm_compute|]. by vm_compute.
Defined.
