(* ===== verification/Library.v ===== *)
(** The standard library as the WebAssembly module that runs on the chain.

    [stdpred_export] is the table of entry points that the [#[predicate]] attribute
    makes of the functions of [stdpred/src].  Compilation is not modelled:
    [StdpredModule] says that some bytes are a compiled standard library, by what
    [run_module] returns on them.  From that follows which predicates of an accepted
    transaction held, in terms of the functions of [Stdpred]. *)
From S2P Require Import Prelude Address Predicate State Extern Chain Sandbox Collect.
From S2P Require Import Execution ExecutionProps Stdpred.

Section library.
Context `{!RmpU64, !Rmp bool, !Rmp Address, !Rmp (gmap bytes bytes), !Rmp (gset bytes),
  !MultihashCrate, !Ed25519, !Bs58Crate}.

Definition Entry : Type := list ExpandedParam → PredicateContext → option bool.

(** The functions with the attribute, under their names. *)
Definition stdpred_exports : list (rstring * Entry) := [
  (str "uint_equal", λ ps _, uint_equal ps);
  (str "uint_greater_than", λ ps _, uint_greater_than ps);
  (str "uint_greater_than_equal", λ ps _, uint_greater_than_equal ps);
  (str "uint_less_than", λ ps _, uint_less_than ps);
  (str "uint_less_than_equal", λ ps _, uint_less_than_equal ps);
  (str "uint_greater_than_by", λ ps _, uint_greater_than_by ps);
  (str "uint_less_than_by", λ ps _, uint_less_than_by ps);
  (str "bytes_equal", λ ps _, bytes_equal ps);
  (str "is_empty_map", λ ps _, is_empty_map ps);
  (str "contains_key", λ ps _, contains_key ps);
  (str "key_equals", λ ps _, key_equals ps);
  (str "is_empty_set", λ ps _, is_empty_set ps);
  (str "contains_element", λ ps _, contains_element ps);
  (str "constant", λ ps _, constant ps);
  (str "immutable_state", immutable_state);
  (str "immutable_predicates", immutable_predicates);
  (str "require_ed25519_signature", require_ed25519_signature)].

(** The export of a name: [None] when the module has none. *)
Fixpoint export_of (entry : rstring) (l : list (rstring * Entry)) : option Entry :=
  match l with
  | [] => None
  | (n, f) :: l => if bool_decide (n = entry) then Some f else export_of entry l
  end.
Definition stdpred_export (entry : rstring) : option Entry := export_of entry stdpred_exports.

(** What a call of an entry point answers; [None] is a missing export or a trap. *)
Definition stdpred_call (ctx : PredicateContext) (p : ExpandedPredicate) : option bool :=
  f ← stdpred_export (ec_entrypoint (code p)); f (params p) ctx.

Context `{!Wasmer, !Rmp PredicateContext, !Rmp (list ExpandedParam)}.
Implicit Types (ctx : PredicateContext).

(** The bytes [wasm] are a compiled standard library: they compile, and what a run in
    the virtual machine answers is what the functions answer.  A run may fail for
    reasons of its own, such as a context that does not fit into the memory. *)
Class StdpredModule (wasm : bytes) := {
  stdpred_module : WModule;
  stdpred_compiles : module_from_binary store_new wasm = Ok stdpred_module;
  stdpred_sound : ∀ (ctx : PredicateContext) p b,
    run_module store_new stdpred_module (to_vec ctx) p = Ok b → stdpred_call ctx p = Some b;
}.

Context `{!MultihashLaws, !Bs58Laws} (wasm : bytes) `{!StdpredModule wasm}.
Context (cache : dyn_state) (Hcache : cache_faithful wasm cache).

(** An invocation of the library, through the cache or not. *)
Lemma stdpred_invoke ctx p :
  ec_code (code p) = wasm →
  invoke (to_vec ctx) p cache = Some (run_module store_new stdpred_module (to_vec ctx) p).
Proof.
  intros Hcode. unfold invoke. rewrite Hcode. destruct (cachekey_ok wasm) as [Hkey _]. rewrite Hkey.
  assert (load_module store_new cache (mkAddress (str "/predcache/" ++
    bs58_encode (to_bytes (sha3_256 wasm)))) wasm = Ok stdpred_module) as ->; [|done].
  unfold load_module. rewrite stdpred_compiles. simpl.
  destruct (dyn_get cache _) as [val|] eqn:Hval; [|done].
  destruct (module_deserialize store_new (acc_state val)) as [m|] eqn:Hm; [|done].
  pose proof (Hcache _ _ _ Hkey Hval Hm) as Hc. rewrite stdpred_compiles in Hc. congruence.
Qed.

Lemma stdpred_accepts ctx p :
  ec_code (code p) = wasm → accepts (λ p, invoke (to_vec ctx) p cache) p = true →
  stdpred_call ctx p = Some true.
Proof.
  intros Hcode. unfold accepts. cbv beta. rewrite stdpred_invoke by done.
  destruct (run_module _ _ _ _) as [b|] eqn:Hrun; [|done]. intros ->. by apply stdpred_sound.
Qed.

(** A run that does not fail for reasons of its own. *)
Definition completes ctx (p : ExpandedPredicate) : Prop :=
  is_ok (run_module store_new stdpred_module (to_vec ctx) p) = true.

Lemma stdpred_completes ctx p b :
  ec_code (code p) = wasm → completes ctx p → stdpred_call ctx p = Some b →
  invoke (to_vec ctx) p cache = Some (Ok b).
Proof.
  unfold completes. intros Hcode Hc Hcall. rewrite stdpred_invoke by done.
  destruct (run_module _ _ _ _) as [b'|] eqn:Hrun; [|done].
  apply stdpred_sound in Hrun. congruence.
Qed.
End library.

(** ** A virtual machine that has the library

    The memory is the list of what was written, a pointer an index into it.  The
    module [library_code] answers like the standard library, every other module
    accepts whatever it is asked. *)

#[global] Instance sandbox_rmp_bool : Rmp bool := rmp_countable bool.
#[global] Instance sandbox_rmp_map : Rmp (gmap bytes bytes) := rmp_countable (gmap bytes bytes).
#[global] Instance sandbox_rmp_set : Rmp (gset bytes) := rmp_countable (gset bytes).

Definition library_code : bytes := bstr "stdpred".

(** Here the virtual machine decodes the context it is given. *)
Definition library_rmp_context : Rmp PredicateContext := {|
  to_vec c := to_vec (Rmp := rmp_countable (gmap bytes Calldata * gmap Address ExpandedAccountChange))
    (ctx_calldata c, ctx_proposals c);
  from_slice b :=
    match from_slice (Rmp := rmp_countable (gmap bytes Calldata * gmap Address ExpandedAccountChange)) b with
    | Some (c, p) => Some (mkContext c p)
    | None => None
    end;
|}.
#[local] Existing Instance library_rmp_context.

Definition library_entry (store : list bytes) (m : bytes) (entry : rstring) (args : list Z) :
    Result Z unit :=
  if bool_decide (m = library_code) then
    match args with
    | [params_ptr; ctx_ptr] =>
        ok_or
          (ps ← store !! Z.to_nat params_ptr ≫= from_slice;
           ctx ← store !! Z.to_nat ctx_ptr ≫= from_slice;
           b ← stdpred_call ctx (mkPredicate (mkExpandedCode m entry) ps);
           Some (if b : bool then 1%Z else 0%Z)) tt
    | _ => Err tt
    end
  else Ok 1%Z.

Definition library_wasmer : Wasmer := {|
  WStore := list bytes; WModule := bytes; WMemory := unit; WEnv := unit; WExtern := unit;
  WInstance := bytes; WFunction := FnType * bytes * rstring;
  MemoryError := unit; CompileError := unit; InstantiationError := unit; ExportError := unit;
  RuntimeError := unit; MemoryAccessError := unit; EncodeError := unit;
  store_new := [];
  module_deserialize _ b := Some b;
  module_from_binary _ b := Ok b;
  memory_new s _ := Ok (tt, s);
  function_env_new s _ := (tt, s);
  memory_extern _ := tt;
  host_function s _ := (tt, s);
  instance_new s m _ := Ok (m, s);
  get_typed_function s i ty name := Ok (ty, i, name);
  fn_call s f args :=
    match f with
    | (AllocateFn, _, _) => Ok (Z.of_nat (length s), s)
    | (IngestFn, _, _) => Ok (default 0%Z (head args), s)
    | (EntryFn, m, entry) => result_map (λ r, (r, s)) (library_entry s m entry args)
    end;
  view_write s _ _ data := Ok (s ++ [data]);
  runtime_of_access _ := tt;
|}.

#[local] Existing Instance library_wasmer.

Lemma library_context_decodes (ctx : PredicateContext) : from_slice (to_vec ctx) = Some ctx.
Proof.
  simpl. rewrite bytes_pos_bytes, decode_encode. by destruct ctx.
Qed.

Lemma library_run (ctx : PredicateContext) p m :
  run_module store_new m (to_vec ctx) p =
  if bool_decide (m = library_code) then
    match stdpred_call ctx p with Some b => Ok b | None => Err (Execution tt) end
  else Ok true.
Proof.
  unfold run_module. cbn -[to_vec library_entry stdpred_call bool_decide library_code].
  unfold library_entry. destruct (decide (m = library_code)) as [->|Hm].
  2: { by rewrite !bool_decide_false. }
  rewrite !bool_decide_true by done.
  rewrite !Nat2Z.id. cbn -[to_vec from_slice stdpred_call]. rewrite library_context_decodes.
  pose proof (@from_slice_to_vec _ _ (rmp_countable_laws (list ExpandedParam)) (params p)) as Hps.
  unfold sandbox_rmp_params. rewrite Hps. cbn [mbind option_bind].
  change (stdpred_call ctx _) with (stdpred_call ctx p).
  by destruct (stdpred_call ctx p) as [[]|].
Qed.

#[global] Instance library_module : StdpredModule library_code.
Proof.
  refine {| stdpred_module := library_code : WModule |}.
  - done.
  - intros ctx p b. rewrite library_run, bool_decide_true by done.
    destruct (stdpred_call ctx p); congruence.
Defined.
