(* ===== verification/Token.v ===== *)
(** The token predicate: [sdk/predicates/examples/token.rs].

    The predicate of a token account sums the balances of the proposed wallets
    before and after the transaction, and asks for the signature of the mint
    authority and for an update of the total supply when the sums differ.  Sums
    are of 64-bit integers; whether they are checked for overflow depends on the
    profile of the build.  The log messages are left out. *)
From S2P Require Import Prelude Address Predicate State Extern Chain Sandbox Collect Stdpred.

Section token.
Context `{!MultihashCrate, !RmpU64, !Rmp Address, !Bs58Crate, !Ed25519, !Rmp PublicKey}.

(** [balance], [read_total_supply] *)
Definition balance (state : bytes) : option Z := u64_from_slice state.
Definition read_total_supply (state : bytes) : option Z := u64_from_slice state.

(** What a change counts for in the two sums of [sum_balances]. *)
Definition balance_before (change : ExpandedAccountChange) : option Z :=
  match change with
  | EReplaceState current _ => balance current
  | EDeleteAccount current => balance (acc_state current)
  | _ => Some 0%Z
  end.
Definition balance_after (change : ExpandedAccountChange) : option Z :=
  match change with
  | ECreateAccount acc => balance (acc_state acc)
  | EReplaceState _ proposed => balance proposed
  | _ => Some 0%Z
  end.

(** The proposals below the token account. *)
Definition wallets (token_addr : Address) (context : PredicateContext) :
    list (Address * ExpandedAccountChange) :=
  filter (λ e, is_parent_of token_addr e.1 = true) (btree_iter (ctx_proposals context)).

(** [sum_balances] *)
Definition sum_balances (prof : Profile) (token_addr : Address) (context : PredicateContext) :
    option (Z * Z) :=
  pre_sum ← foldM (λ acc e, b ← balance_before e.2; u64_add prof acc b) 0%Z
    (wallets token_addr context);
  post_sum ← foldM (λ acc e, b ← balance_after e.2; u64_add prof acc b) 0%Z
    (wallets token_addr context);
  Some (pre_sum, post_sum).

(** The loop of [is_signed_by_mint_auth]; unlike the one of the standard
    library it goes on after a signature that does not verify. *)
Fixpoint mint_auth_loop (mint_auth : PublicKey) (key : rstring) (l : list (Multihash * Calldata)) :
    bool :=
  match l with
  | [] => false
  | (hash, calldata) :: l =>
      match calldata !! key with
      | Some signature =>
          match signature_from_bytes signature with
          | Some signature =>
              if verify mint_auth (to_bytes hash) signature then true
              else mint_auth_loop mint_auth key l
          | None => mint_auth_loop mint_auth key l
          end
      | None => mint_auth_loop mint_auth key l
      end
  end.

(** [is_signed_by_mint_auth] *)
Definition is_signed_by_mint_auth (mint_auth : PublicKey) (context : PredicateContext) : bool :=
  let calldata_key := bs58_encode (public_key_as_bytes mint_auth) in
  mint_auth_loop mint_auth calldata_key (btree_iter (ctx_calldata context)).

(** The check of the proposed supply, for minting and for burning. *)
Definition check_supply (pre post expected_new_supply : Z)
    (total_supply_proposal : ExpandedAccountChange) : option bool :=
  if (pre <? post)%Z then
    match total_supply_proposal with
    | ECreateAccount acc =>
        proposed_supply ← read_total_supply (acc_state acc);
        Some (proposed_supply =? expected_new_supply)%Z
    | EReplaceState _ proposed =>
        proposed_supply ← read_total_supply proposed;
        Some (proposed_supply =? expected_new_supply)%Z
    | EReplacePredicates _ _ => Some false
    | EDeleteAccount _ => Some false
    end
  else
    match total_supply_proposal with
    | ECreateAccount _ => Some false
    | EReplaceState _ proposed =>
        proposed_supply ← read_total_supply proposed;
        Some (proposed_supply =? expected_new_supply)%Z
    | EReplacePredicates _ _ => Some false
    | EDeleteAccount _ => Some (expected_new_supply =? 0)%Z
    end.

(** [predicate] *)
Definition token_predicate (prof : Profile) (params : list ExpandedParam)
    (context : PredicateContext) : option bool :=
  if negb (length params =? 3)%nat then None
  else
    '(d1, argit) ← next_data params;
    self_addr ← (from_slice d1 : option Address);
    '(d2, argit) ← next_data argit;
    mint_auth ← (from_slice d2 : option PublicKey);
    current_total_supply ←
      match argit with
      | EAccountRef addr state :: _ =>
          if bool_decide (self_addr = addr) then read_total_supply state else None
      | _ => None
      end;
    '(pre, post) ← sum_balances prof self_addr context;
    if (pre =? post)%Z then Some true
    else if negb (is_signed_by_mint_auth mint_auth context) then Some false
    else
      match ctx_proposals context !! self_addr with
      | None => Some false
      | Some total_supply_proposal =>
          sum ← u64_add prof current_total_supply post;
          expected_new_supply ← u64_sub prof sum pre;
          check_supply pre post expected_new_supply total_supply_proposal
      end.

(** ** The sums without a bound *)

Definition total (f : ExpandedAccountChange → option Z)
    (l : list (Address * ExpandedAccountChange)) : Z :=
  foldr (λ e acc, default 0%Z (f e.2) + acc)%Z 0%Z l.

Lemma balance_range change b :
  balance_before change = Some b ∨ balance_after change = Some b → is_u64 b.
Proof.
  assert (is_u64 0) as Hz by (unfold is_u64, u64_max; lia).
  destruct change; simpl; intros [Hb|Hb]; simplify_eq; try done;
    by eapply u64_from_slice_range.
Qed.

Lemma total_nonneg f l :
  (∀ c b, f c = Some b → is_u64 b) → (0 ≤ total f l)%Z.
Proof.
  intros Hf. induction l as [|e l IH]; simpl; [lia|].
  destruct (f e.2) as [b|] eqn:Hb; simpl; [|lia]. apply Hf in Hb. unfold is_u64 in Hb. lia.
Qed.

(** A sum that is checked, or that stays in range, is the true one. *)
Lemma fold_balances prof f l acc s :
  (∀ c b, f c = Some b → is_u64 b) → (0 ≤ acc)%Z →
  foldM (λ acc e, b ← f e.2; u64_add prof acc b) acc l = Some s →
  prof = Debug ∨ (acc + total f l ≤ u64_max)%Z → s = (acc + total f l)%Z.
Proof.
  intros Hf. revert acc. induction l as [|e l IH]; intros acc Hacc; simpl.
  - intros [= <-] _. lia.
  - destruct (f e.2) as [b|] eqn:Hb; simpl; [|done]. pose proof (Hf _ _ Hb) as Hbr.
    pose proof (total_nonneg f l Hf) as Hnn. unfold is_u64 in Hbr.
    destruct (u64_add prof acc b) as [acc'|] eqn:Hadd; simpl; [|done]. intros Hs Hp.
    assert (acc' = acc + b)%Z as ->.
    { unfold u64_add in Hadd. destruct (Z.leb_spec (acc + b) u64_max); [congruence|].
      destruct Hp as [->|]; [done|lia]. }
    rewrite (IH (acc + b)%Z); [lia|lia|done|]. destruct Hp; [by left|right; lia].
Qed.

Lemma mint_auth_loop_true pk key l :
  mint_auth_loop pk key l = true ↔
  ∃ h cd s sig, (h, cd) ∈ l ∧ cd !! key = Some s ∧ signature_from_bytes s = Some sig ∧
    verify pk (to_bytes h) sig = true.
Proof.
  induction l as [|[h cd] l IH]; simpl.
  - split; [done|]. by intros (? & ? & ? & ? & ?%elem_of_nil & _).
  - setoid_rewrite elem_of_cons.
    destruct (cd !! key) as [s|] eqn:Hs; [destruct (signature_from_bytes s) as [sig|] eqn:Hsig|];
      [destruct (verify pk (to_bytes h) sig) eqn:Hv|..]; rewrite ?IH.
    + split; [|done]. intros _. exists h, cd, s, sig. auto.
    + split; [naive_solver|].
      intros (h' & cd' & s' & sig' & [[= -> ->]|] & ? & ? & ?); [congruence|naive_solver].
    + split; [naive_solver|].
      intros (h' & cd' & s' & sig' & [[= -> ->]|] & ? & ? & ?); [congruence|naive_solver].
    + split; [naive_solver|].
      intros (h' & cd' & s' & sig' & [[= -> ->]|] & ? & ? & ?); [congruence|naive_solver].
Qed.

Lemma u64_supply prof cur post pre sum new :
  u64_add prof cur post = Some sum → u64_sub prof sum pre = Some new →
  is_u64 cur → is_u64 post → is_u64 pre →
  (new = (cur + post - pre) mod u64_modulus)%Z.
Proof.
  intros Hs Hn Hc Hpo Hpr. pose proof (u64_add_range _ _ _ _ Hc Hpo Hs) as Hsr.
  assert (sum = (cur + post) mod u64_modulus)%Z as Hsum.
  { unfold u64_add in Hs. destruct (Z.leb_spec (cur + post) u64_max).
    - injection Hs as <-. rewrite Z.mod_small; [done|]. rewrite u64_modulus_max. unfold is_u64 in *. lia.
    - destruct prof; [congruence|done]. }
  assert (new = (sum - pre) mod u64_modulus)%Z as ->.
  { unfold u64_sub in Hn. destruct (Z.leb_spec pre sum).
    - injection Hn as <-. rewrite Z.mod_small; [done|]. rewrite u64_modulus_max. unfold is_u64 in *. lia.
    - destruct prof; [congruence|done]. }
  rewrite Hsum. by rewrite Zminus_mod_idemp_l.
Qed.
(** The sums the predicate computes are 64-bit integers. *)
Lemma sum_range prof f l acc s :
  (∀ c b, f c = Some b → is_u64 b) → is_u64 acc →
  foldM (λ acc (e : Address * ExpandedAccountChange), b ← f e.2; u64_add prof acc b) acc l = Some s →
  is_u64 s.
Proof.
  intros Hf. revert acc. induction l as [|e l IH]; intros acc Hacc; simpl; [by intros [= <-]|].
  destruct (f e.2) as [b|] eqn:Hb; simpl; [|done].
  destruct (u64_add prof acc b) as [acc'|] eqn:Hadd; simpl; [|done].
  apply IH. eapply u64_add_range; [exact Hacc|by eapply Hf|done].
Qed.
End token.


(** A wallet of a token, and its sandbox state. *)
#[global] Instance sandbox_rmp_key : Rmp PublicKey := rmp_countable bytes.
Definition example_token : Address := mkAddress (str "/token/usdx").
Definition example_wallet (name : string) : Address :=
  mkAddress (str "/token/usdx/" ++ str name).
Definition wallet_account (b : Z) : Account :=
  mkAccount (u64_to_vec b) (acc_predicates example_account).
Definition param_self : ExpandedParam := EInline (to_vec example_token).
Definition param_auth : ExpandedParam := EInline (to_vec (toy_key : PublicKey)).
Definition param_supply (supply : Z) : ExpandedParam :=
  EAccountRef example_token (u64_to_vec supply).
Definition token_params (supply : Z) : list ExpandedParam :=
  [param_self; param_auth; param_supply supply].
Definition moved : PredicateContext :=
  mkContext ∅ {[
    example_wallet "a" := EReplaceState (u64_to_vec 5) (u64_to_vec 2);
    example_wallet "b" := EReplaceState (u64_to_vec 1) (u64_to_vec 4)]}.



(** The total supply is not protected.  Whatever a transaction does to the
    token account itself - writing any supply into it, or deleting it - the token
    predicate accepts it without a signature as long as the transaction proposes
    nothing for the wallets. *)
Theorem token_supply_unprotected `{!MultihashCrate, !RmpU64, !Rmp Address, !Bs58Crate, !Ed25519,
    !Rmp PublicKey} prof p1 p2 (context : PredicateContext) self pk supply old :
  from_slice (data p1) = Some self → from_slice (data p2) = Some pk →
  read_total_supply supply = Some old →
  (∀ a c, ctx_proposals context !! a = Some c → is_parent_of self a = false) →
  token_predicate prof [p1; p2; EAccountRef self supply] context = Some true.
Proof.
  intros Hself Hpk Hold Hno. unfold token_predicate. cbn [length negb Nat.eqb next_data].
  cbn [mbind option_bind]. rewrite Hself. cbn [mbind option_bind next_data]. rewrite Hpk.
  cbn [mbind option_bind]. rewrite bool_decide_true, Hold by done.
  unfold sum_balances. assert (wallets self context = []) as ->; [|done].
  unfold wallets. apply elem_of_nil_inv. intros [a c] [Hp Hin]%list_elem_of_filter.
  apply elem_of_btree_iter in Hin. simpl in Hp. rewrite (Hno a c Hin) in Hp. discriminate Hp.
Qed.

Lemma token_supply_unprotected_witness :
  token_predicate Debug (token_params 6)
    (mkContext ∅ {[example_token := EReplaceState (u64_to_vec 6) (u64_to_vec 1000)]}) = Some true.
Proof.
  apply (token_supply_unprotected Debug _ _ _ example_token toy_key (u64_to_vec 6) 6);
    [by vm_compute..|].
  intros a c Hac. cbn [ctx_proposals] in Hac.
  apply lookup_singleton_Some in Hac as [<- _]. vm_compute. reflexivity.
Defined.

