(* ===== verification/Query.v ===== *)
(** Matching of intents against patterns: [sdk/offchain/src/query.rs].

    [find_matches] walks a predicate tree and a template together and fills a map
    with what the named patterns captured.  [captures] is its reference: the list
    of captures in the order of the tree.  [fits] says, without any order, that a
    valuation of the names makes the tree an instance of the template. *)
From S2P Require Import Prelude Address Predicate Sandbox.

(** [pub enum ParamPattern] *)
Inductive ParamPattern :=
| PAny
| PExact (p : Param)
| PInline (name : rstring)
| PAccountRef (name : rstring)
| PProposalRef (name : rstring)
| PCalldataRef (name : rstring).

(** [pub enum MatchValue] *)
Inductive MatchValue :=
| MAddress (addr : Address)
| MBytes (v : bytes)
| MString (s : rstring).

#[global] Instance MatchValue_eq_dec : EqDecision MatchValue.
Proof. solve_decision. Defined.

(** [pub struct Query] and its [Repr] *)
Definition Query : Repr := mkRepr ParamPattern Code unit.

Notation Captures := (gmap rstring MatchValue).

(** The loop over the parameters of a leaf; the map as it is on return. *)
Fixpoint match_params (ps : list (Param * ParamPattern)) (matches : Captures) : bool * Captures :=
  match ps with
  | [] => (true, matches)
  | (lhs, rhs) :: ps =>
      match lhs, rhs with
      | _, PAny => match_params ps matches
      | left_p, PExact right_p => (bool_decide (left_p = right_p), matches)
      | Inline val, PInline name => match_params ps (<[name := MBytes val]> matches)
      | AccountRef val, PAccountRef name => match_params ps (<[name := MAddress val]> matches)
      | ProposalRef val, PProposalRef name => match_params ps (<[name := MAddress val]> matches)
      | CalldataRef val, PCalldataRef name => match_params ps (<[name := MString val]> matches)
      | _, _ => (false, matches)
      end
  end.

(** [find_matches] *)
Fixpoint find_matches (basic : PredicateTree Basic) (template : PredicateTree Query)
    (matches : Captures) : bool * Captures :=
  match basic, template with
  | Id b_pred, Id p_pred =>
      if bool_decide (code b_pred = code p_pred) &&
         (length (params b_pred) =? length (params p_pred))
      then match_params (zip (params b_pred) (params p_pred)) matches
      else (false, matches)
  | Not lhs, Not rhs => find_matches lhs rhs matches
  | And left_left left_right, And right_left right_right =>
      let '(ok, matches) := find_matches left_left right_left matches in
      if ok then find_matches left_right right_right matches else (false, matches)
  | Or left_left left_right, Or right_left right_right =>
      let '(ok, matches) := find_matches left_left right_left matches in
      if ok then find_matches left_right right_right matches else (false, matches)
  | _, _ => (false, matches)
  end.

(** [ExpressionPattern::matches] *)
Definition matches (self : PredicateTree Basic) (template : PredicateTree Query) :
    option Captures :=
  let '(ok, m) := find_matches self template ∅ in
  if ok then Some m else None.

(** ** The captures of a match, in order *)

(** What a single parameter captures; [None] when it does not match. *)
Definition capture (lhs : Param) (rhs : ParamPattern) : option (list (rstring * MatchValue)) :=
  match lhs, rhs with
  | _, PAny => Some []
  | _, PExact p => if decide (lhs = p) then Some [] else None
  | Inline val, PInline name => Some [(name, MBytes val)]
  | AccountRef val, PAccountRef name => Some [(name, MAddress val)]
  | ProposalRef val, PProposalRef name => Some [(name, MAddress val)]
  | CalldataRef val, PCalldataRef name => Some [(name, MString val)]
  | _, _ => None
  end.

Definition is_exact (p : ParamPattern) : bool := match p with PExact _ => true | _ => false end.

(** An exact pattern is the last one that is looked at. *)
Fixpoint params_captures (ps : list (Param * ParamPattern)) :
    option (list (rstring * MatchValue)) :=
  match ps with
  | [] => Some []
  | (lhs, rhs) :: ps =>
      c ← capture lhs rhs;
      if is_exact rhs then Some c else cs ← params_captures ps; Some (c ++ cs)
  end.

Fixpoint captures (t : PredicateTree Basic) (template : PredicateTree Query) :
    option (list (rstring * MatchValue)) :=
  match t, template with
  | Id b, Id p =>
      if decide (code b = code p ∧ length (params b) = length (params p))
      then params_captures (zip (params b) (params p))
      else None
  | Not t, Not p => captures t p
  | And l r, And pl pr | Or l r, Or pl pr =>
      cl ← captures l pl; cr ← captures r pr; Some (cl ++ cr)
  | _, _ => None
  end.

Definition insert_all (m : Captures) (cs : list (rstring * MatchValue)) : Captures :=
  foldl (λ m e, <[e.1 := e.2]> m) m cs.

Lemma match_params_captures ps m :
  match params_captures ps with
  | Some cs => match_params ps m = (true, insert_all m cs)
  | None => (match_params ps m).1 = false
  end.
Proof.
  revert m. induction ps as [|[l r] ps IH]; intros m; [done|].
  assert (∀ m', match params_captures ps with
    | Some cs => match_params ps m' = (true, insert_all m' cs)
    | None => (match_params ps m').1 = false end) as IH' by (intros m'; apply IH).
  destruct r as [|q|n|n|n|n]; simpl.
  { specialize (IH' m). destruct l; simpl; by destruct (params_captures ps). }
  { destruct l; simpl; case_bool_decide; destruct (decide _); done. }
  all: destruct l; simpl; try done;
    lazymatch goal with |- context [match_params _ ?m'] => specialize (IH' m') end;
    match goal with |- context [params_captures ?l] => by destruct (params_captures l) end.
Qed.

Lemma find_matches_captures t p m :
  match captures t p with
  | Some cs => find_matches t p m = (true, insert_all m cs)
  | None => (find_matches t p m).1 = false
  end.
Proof.
  revert p m. induction t as [b|t IH|l IHl r IHr|l IHl r IHr]; intros [q|q|pl pr|pl pr] m;
    simpl; try done.
  - case_bool_decide as Hc; simpl.
    + lazymatch goal with |- context [?x =? ?y] => destruct (Nat.eqb_spec x y) as [Hl|Hl] end.
      * rewrite decide_True by done. apply match_params_captures.
      * rewrite decide_False by naive_solver. done.
    + rewrite decide_False by naive_solver. done.
  - apply IH.
  - specialize (IHl pl m). destruct (captures l pl) as [cl|]; simpl.
    + rewrite IHl. specialize (IHr pr (insert_all m cl)).
      destruct (captures r pr) as [cr|]; simpl; [|done].
      rewrite IHr. unfold insert_all. by rewrite foldl_app.
    + by destruct (find_matches l pl m) as [[] ?].
  - specialize (IHl pl m). destruct (captures l pl) as [cl|]; simpl.
    + rewrite IHl. specialize (IHr pr (insert_all m cl)).
      destruct (captures r pr) as [cr|]; simpl; [|done].
      rewrite IHr. unfold insert_all. by rewrite foldl_app.
    + by destruct (find_matches l pl m) as [[] ?].
Qed.

(** ** Instances of a template *)

Definition pattern_names (p : ParamPattern) : list rstring :=
  match p with
  | PAny | PExact _ => []
  | PInline n | PAccountRef n | PProposalRef n | PCalldataRef n => [n]
  end.

(** The names of a template, from left to right. *)
Fixpoint names (p : PredicateTree Query) : list rstring :=
  match p with
  | Id p => params p ≫= pattern_names
  | Not p => names p
  | And l r | Or l r => names l ++ names r
  end.

(** Under the valuation [m] the pattern stands for the parameter. *)
Definition param_fits (m : Captures) (lhs : Param) (rhs : ParamPattern) : Prop :=
  match rhs with
  | PAny => True
  | PExact p => lhs = p
  | PInline n => ∃ v, lhs = Inline v ∧ m !! n = Some (MBytes v)
  | PAccountRef n => ∃ a, lhs = AccountRef a ∧ m !! n = Some (MAddress a)
  | PProposalRef n => ∃ a, lhs = ProposalRef a ∧ m !! n = Some (MAddress a)
  | PCalldataRef n => ∃ s, lhs = CalldataRef s ∧ m !! n = Some (MString s)
  end.

(** Under [m] the tree is an instance of the template. *)
Fixpoint fits (m : Captures) (t : PredicateTree Basic) (p : PredicateTree Query) : Prop :=
  match t, p with
  | Id b, Id q => code b = code q ∧ Forall2 (param_fits m) (params b) (params q)
  | Not t, Not p => fits m t p
  | And l r, And pl pr | Or l r, Or pl pr => fits m l pl ∧ fits m r pr
  | _, _ => False
  end.

(** No parameter follows an exact pattern. *)
Fixpoint exact_last_params (ps : list ParamPattern) : Prop :=
  match ps with
  | [] => True
  | p :: ps => (is_exact p = true → ps = []) ∧ exact_last_params ps
  end.
Fixpoint exact_last (p : PredicateTree Query) : Prop :=
  match p with
  | Id p => exact_last_params (params p)
  | Not p => exact_last p
  | And l r | Or l r => exact_last l ∧ exact_last r
  end.

Definition holds_in (m : Captures) (cs : list (rstring * MatchValue)) : Prop :=
  ∀ n v, (n, v) ∈ cs → m !! n = Some v.

Lemma holds_in_app m c d : holds_in m (c ++ d) ↔ holds_in m c ∧ holds_in m d.
Proof. unfold holds_in. setoid_rewrite elem_of_app. naive_solver. Qed.

Lemma holds_in_one m n v : holds_in m [(n, v)] ↔ m !! n = Some v.
Proof. unfold holds_in. setoid_rewrite list_elem_of_singleton. naive_solver. Qed.

Lemma capture_fits m l r :
  param_fits m l r ↔ ∃ c, capture l r = Some c ∧ holds_in m c.
Proof.
  assert (holds_in m []) as Hnil by by intros ? ? ?%elem_of_nil.
  destruct r; destruct l; simpl; repeat case_decide;
    try (setoid_rewrite <-holds_in_one); naive_solver.
Qed.

Lemma capture_names l r c : capture l r = Some c → c.*1 = pattern_names r.
Proof. destruct l, r; simpl; try case_decide; naive_solver. Qed.

Lemma params_captures_fits m bs ps :
  exact_last_params ps → length bs = length ps →
  Forall2 (param_fits m) bs ps ↔
    ∃ cs, params_captures (zip bs ps) = Some cs ∧ holds_in m cs.
Proof.
  revert bs. induction ps as [|p ps IH]; intros [|b bs]; try done; simpl.
  - intros _ _. split; [|done]. exists []. split; [done|]. by intros ? ? ?%elem_of_nil.
  - intros [Hp Hps] [= Hlen]. rewrite Forall2_cons, capture_fits, IH by done.
    destruct (capture b p) as [c|]; simpl; [|naive_solver].
    destruct (is_exact p).
    + rewrite (Hp eq_refl) in *. destruct bs; [|done]. simpl.
      setoid_rewrite (inj_iff Some). split; [naive_solver|].
      intros (? & <- & ?). split; [eauto|]. exists []. split; [done|]. by intros ? ? ?%elem_of_nil.
    + destruct (params_captures (zip bs ps)) as [cs|]; simpl; [|naive_solver].
      setoid_rewrite (inj_iff Some). split.
      * intros [(? & -> & ?) (? & -> & ?)]. eexists; split; [reflexivity|]. by rewrite holds_in_app.
      * intros (? & <- & [??]%holds_in_app). split; eauto.
Qed.

Lemma params_captures_names bs ps cs :
  exact_last_params ps → length bs = length ps →
  params_captures (zip bs ps) = Some cs → cs.*1 = ps ≫= pattern_names.
Proof.
  revert bs cs. induction ps as [|p ps IH]; intros [|b bs] cs; try done; simpl.
  - by intros _ _ [= <-].
  - intros [Hp Hps] [= Hlen] (c & Hc & Hcs)%bind_Some. apply capture_names in Hc.
    destruct (is_exact p).
    + rewrite (Hp eq_refl). simpl. injection Hcs as <-. by rewrite app_nil_r.
    + apply bind_Some in Hcs as (cs' & Hcs & [= <-]). by rewrite fmap_app, Hc, (IH bs cs').
Qed.

Lemma captures_fits m t p :
  exact_last p → fits m t p ↔ ∃ cs, captures t p = Some cs ∧ holds_in m cs.
Proof.
  assert (∀ (a b : option (list (rstring * MatchValue))),
    ((∃ cs, a = Some cs ∧ holds_in m cs) ∧ (∃ cs, b = Some cs ∧ holds_in m cs)) ↔
    ∃ cs, (x ← a; y ← b; Some (x ++ y)) = Some cs ∧ holds_in m cs) as Hboth.
  { intros [x|] [y|]; simpl; [|naive_solver..]. setoid_rewrite (inj_iff Some).
    split; [intros [(? & -> & ?) (? & -> & ?)]; eexists; split; [reflexivity|]; by rewrite holds_in_app|].
    intros (? & <- & [??]%holds_in_app). split; eauto. }
  revert p. induction t as [b|t IH|l IHl r IHr|l IHl r IHr]; intros [q|q|pl pr|pl pr]; simpl;
    try naive_solver.
  intros Hq. destruct (decide _) as [[Hc Hl]|Hn].
  - rewrite <-(params_captures_fits m) by done. naive_solver.
  - split; [|naive_solver]. intros [Hc Hf]. destruct Hn. by apply Forall2_length in Hf.
Qed.

Lemma captures_names t p cs : exact_last p → captures t p = Some cs → cs.*1 = names p.
Proof.
  revert p cs. induction t as [b|t IH|l IHl r IHr|l IHl r IHr]; intros [q|q|pl pr|pl pr] cs;
    simpl; try naive_solver.
  - intros Hq. destruct (decide _) as [[Hc Hl]|Hn]; [|done]. by apply params_captures_names.
  - intros [??] (cl & Hcl & (cr & Hcr & [= <-])%bind_Some)%bind_Some.
    rewrite fmap_app. f_equal; eauto.
  - intros [??] (cl & Hcl & (cr & Hcr & [= <-])%bind_Some)%bind_Some.
    rewrite fmap_app. f_equal; eauto.
Qed.

Lemma insert_all_lookup m cs n :
  NoDup cs.*1 → insert_all m cs !! n =
    match (list_to_map cs : Captures) !! n with Some v => Some v | None => m !! n end.
Proof.
  revert m. induction cs as [|[k v] cs IH]; intros m; simpl; [done|].
  intros [Hk Hnd]%NoDup_cons. unfold insert_all in *. simpl. rewrite IH by done.
  destruct (decide (k = n)) as [->|Hne].
  - rewrite not_elem_of_list_to_map_1 by done. by rewrite !lookup_insert_eq.
  - by rewrite !lookup_insert_ne by done.
Qed.

Lemma insert_all_empty cs m :
  NoDup cs.*1 → insert_all ∅ cs = m ↔ holds_in m cs ∧ dom m = list_to_set cs.*1.
Proof.
  intros Hnd. assert (insert_all ∅ cs = list_to_map cs) as ->.
  { apply map_eq. intros n. rewrite insert_all_lookup, lookup_empty by done.
    by destruct (list_to_map cs !! n). }
  split.
  - intros <-. split; [|by rewrite dom_list_to_map_L].
    intros n v Hin. by apply elem_of_list_to_map.
  - intros [Hin Hdom]. apply map_eq. intros n.
    destruct (list_to_map cs !! n) as [v|] eqn:Hn.
    + symmetry. apply Hin. by apply elem_of_list_to_map.
    + symmetry. apply not_elem_of_dom. rewrite Hdom, elem_of_list_to_set.
      by apply not_elem_of_list_to_map.
Qed.

(** What a pattern matches.  In a template whose names are distinct and whose
    exact patterns come last in their parameter lists, a match gives a valuation
    exactly of the names of the template, under which the intent's tree is an
    instance of the template, and it finds the valuation whenever there is one. *)
Theorem matches_spec t p m :
  NoDup (names p) → exact_last p →
  matches t p = Some m ↔ fits m t p ∧ dom m = list_to_set (names p).
Proof.
  intros Hnd Hel. unfold matches. pose proof (find_matches_captures t p ∅) as Hf.
  rewrite captures_fits by done. destruct (captures t p) as [cs|] eqn:Hcs.
  - rewrite Hf. pose proof (captures_names _ _ _ Hel Hcs) as Hn. rewrite <-Hn in *.
    rewrite (inj_iff Some), insert_all_empty by done. naive_solver.
  - destruct (find_matches t p ∅) as [ok m']. simpl in Hf. rewrite Hf. naive_solver.
Qed.

(** A pattern for one predicate of a library. *)
Definition example_code : Code := CodeAccountRef (mkAddress (str "/stdpred")) (str "pred1").
Definition example_query : PredicateTree Query :=
  And (Id (mkPredicate example_code [PAccountRef (str "who"); PAny]))
      (Not (Id (mkPredicate example_code [PInline (str "amount"); PExact (Inline (bstr "x"))]))).
Definition example_intent_tree : PredicateTree Basic :=
  And (Id (mkPredicate example_code [AccountRef (mkAddress (str "/a")); Inline []]))
      (Not (Id (mkPredicate example_code [Inline (bstr "v"); Inline (bstr "x")]))).
Definition example_captures : Captures :=
  {[str "who" := MAddress (mkAddress (str "/a")); str "amount" := MBytes (bstr "v")]}.

Lemma matches_spec_witness :
  matches example_intent_tree example_query = Some example_captures ∧
  fits example_captures example_intent_tree example_query.
Proof.
  assert (matches example_intent_tree example_query = Some example_captures) as Hm
    by by vm_compute.
  split; [exact Hm|].
  assert (NoDup (names example_query)) as Hnd by by vm_compute; apply (bool_decide_unpack _); vm_compute.
  assert (exact_last example_query) as Hel by (simpl; naive_solver).
  exact (proj1 (proj1 (matches_spec _ _ _ Hnd Hel) Hm)).
Defined.

(** An exact pattern ends the comparison.  Once an exact pattern equals its
    parameter the remaining parameters of the predicate are not looked at: they
    match whatever they are and nothing of them is captured. *)
Theorem matches_exact_stops (c : Code) x (xs : list Param) (ps : list ParamPattern) :
  length xs = length ps →
  matches (Id (mkPredicate c (x :: xs))) (Id (mkPredicate c (PExact x :: ps))) = Some ∅.
Proof.
  intros Hlen. unfold matches. simpl. rewrite bool_decide_true by done. rewrite Hlen, Nat.eqb_refl.
  simpl. by destruct x; rewrite bool_decide_true.
Qed.

Lemma matches_exact_stops_witness :
  matches (Id (mkPredicate example_code [Inline (bstr "x"); Inline (bstr "paid")]))
    (Id (mkPredicate example_code [PExact (Inline (bstr "x")); PExact (Inline (bstr "due"))])) =
  Some ∅.
Proof. apply matches_exact_stops. reflexivity. Defined.
