(* ===== verification/Pgqf.v ===== *)
(** The example of public goods quadratic funding: [sdk/examples/pgqf/src].

    [client.rs] builds the transactions and intents of a funding campaign,
    [solver.rs] the templates by which a solver recognises the intents, [io.rs] the
    transactions that install bytecode.  A builder returns the error of the first
    address that does not parse; [expect] on one is a panic, [None].  The trees of
    predicates are written as in the code; what they demand of a transaction is the
    subject of [PgqfProps]. *)
From S2P Require Import Prelude Address Predicate Extern Chain Sandbox Query.

(** [u64] multiplication in a given profile. *)
Definition u64_mul (p : Profile) (x y : Z) : option Z :=
  if (x * y <=? u64_max)%Z then Some (x * y)%Z
  else match p with
       | Release => Some ((x * y) mod u64_modulus)%Z
       | Debug => None
       end.

(** ** [model.rs] *)

(** [pub struct Campaign], [pub struct Project], [pub struct Donation] *)
Record Campaign := mkCampaign { starts_at : Z; ends_at : Z; projects : gset rstring }.
Record Project := mkProject { donors : gset Address }.
Inductive Donation := mkDonation.

(** [[u8; 32]], which is serialised as a sequence of integers and not as a byte
    string. *)
Record ByteArray := mkByteArray { array_bytes : bytes }.

(** [iter.collect()] into a map: a later entry replaces an earlier one. *)
Definition collect_map {K V} `{Countable K} (l : list (K * V)) : gmap K V :=
  foldl (λ m e, <[e.1 := e.2]> m) ∅ l.

Section client.
Context `{!MultihashCrate, !Bs58Crate, !RmpU64, !Rmp bool, !Rmp rstring, !Rmp Address,
  !Rmp Campaign, !Rmp Donation, !Rmp ByteArray, !Rmp Multihash, !Rmp (PredicateTree Basic),
  !Ed25519, !Ed25519Signing}.

(** [PredicateTree::Id(Predicate { code: Code::AccountRef(_, entry), params })] *)
Definition call (library : Address) (entry : rstring) (params : list Param) : BasicTree :=
  Id (mkPredicate (CodeAccountRef library entry) params).

(** [io::install_bytecode] *)
Definition install_bytecode (address : Address) (bytecode : bytes) :
    Result (Transaction Basic) AddressError :=
  let? state_lib := from_str (str "/stdpred") in
  let? predicates_lib := from_str (str "/stdpred") in
  Ok (transaction_new (R := Basic) [] (collect_map
    [(address, CreateAccount (mkAccount bytecode
       (And (call state_lib (str "immutable_state") [Inline (to_vec address)])
            (call predicates_lib (str "immutable_predicates") [Inline (to_vec address)]))))])).

(** [create_treasury] *)
Definition create_treasury (wallet : Address) : Result (Transaction Basic) AddressError :=
  let? pgqf := from_str (str "/pgqf") in
  let? campaign := new (str "/pgqf/spring-2023") in
  Ok (transaction_new (R := Basic) [] (collect_map
    [(wallet, CreateAccount (mkAccount (u64_to_vec 0)
       (call pgqf (str "treasury") [AccountRef wallet; AccountRef campaign])))])).

(** [create_campaign_transaction] *)
Definition create_campaign_transaction (start_height end_height : Z) (treasury : Address)
    (blockhash : Multihash) : Result (Transaction Basic) AddressError :=
  let? stdpred := from_str (str "/stdpred") in
  let intent := intent_new (R := Basic) blockhash
    (call stdpred (str "uint_equal") [AccountRef treasury; Inline (u64_to_vec 0)]) in
  let? campaign := new (str "/pgqf/spring-2023") in
  let? pgqf := from_str (str "/pgqf") in
  let? self := from_str (str "/pgqf/spring-2023") in
  Ok (transaction_new (R := Basic) [intent] (collect_map
    [(campaign, CreateAccount (mkAccount
       (to_vec (mkCampaign start_height end_height ∅))
       (call pgqf (str "campaign") [AccountRef self; AccountRef treasury])))])).

(** [create_project_intents]: the only item of the iterator. *)
Definition create_project_intents (name : rstring) (blockhash : Multihash) :
    Result (Intent Basic) AddressError :=
  let? map_lib := from_str (str "/stdpred") in
  let? project := from_str (str "/pgqf/spring-2023/" ++ name) in
  let? key_lib := from_str (str "/stdpred") in
  let? campaign := from_str (str "/pgqf/spring-2023") in
  Ok (intent_new (R := Basic) blockhash
    (And (call map_lib (str "is_map_empty") [ProposalRef project])
         (call key_lib (str "key_equals")
            [ProposalRef campaign; Inline (to_vec name); Inline (u64_to_vec 0)]))).

(** [bs58::encode(&from.public.to_bytes()).into_string()] *)
Definition calldata_key (from : Keypair) : rstring :=
  bs58_encode (public_key_as_bytes (keypair_public from)).

(** The address of the wallet of a key pair. *)
Definition wallet_of (from : Keypair) : Result Address AddressError :=
  from_str (str "/token/usdc/" ++ calldata_key from).

(** What a donation to the matching pool expects. *)
Definition pool_donation_tree (amount : Z) (from_addr treasury : Address) :
    Result BasicTree AddressError :=
  let? less_lib := from_str (str "/stdpred") in
  let? greater_lib := from_str (str "/stdpred") in
  Ok (And (call less_lib (str "uint_less_than_by")
             [AccountRef from_addr; ProposalRef from_addr; Inline (u64_to_vec amount)])
          (call greater_lib (str "uint_greater_than_by")
             [AccountRef treasury; ProposalRef treasury; Inline (u64_to_vec amount)])).

(** [create_donation_to_matching_pool_intents]: the only item of the iterator.  The
    signature is that of the signing hash, which is computed first and stays in the
    cell of the intent. *)
Definition create_donation_to_matching_pool_intents (amount : Z) (from : Keypair)
    (treasury : Address) (blockhash : Multihash) : Result (Intent Basic) AddressError :=
  let? from_addr := wallet_of from in
  let? tree := pool_donation_tree amount from_addr treasury in
  let '(h, intent) := signing_hash (intent_new (R := Basic) blockhash tree) in
  Ok (calldata_insert intent (calldata_key from)
        (signature_to_bytes (sign from (to_bytes h)))).

(** [s.replace('/', "-")] *)
Definition replace_slashes (s : rstring) : rstring :=
  (λ c, if (c =? slash)%N then 45%N else c) <$> s.

(** [create_project_donation_intent] *)
Definition create_project_donation_intent (name : rstring) (amount : Z) (from : Address)
    (blockhash : Multihash) : Result (Intent Basic) AddressError :=
  let donation_id := replace_slashes (addr_path from) in
  let? donation_address := from_str (str "/pgqf/spring-2023/" ++ name ++ str "/" ++ donation_id) in
  let? project_wallet := from_str (str "/token/usdc/project-" ++ name ++ str ".eth") in
  let? greater_lib := from_str (str "/stdpred") in
  let? less_lib := from_str (str "/stdpred") in
  let? equal_lib := from_str (str "/stdpred") in
  Ok (intent_new (R := Basic) blockhash
    (And (And (call greater_lib (str "uint_greater_than_by")
                 [ProposalRef project_wallet; AccountRef project_wallet; Inline (u64_to_vec amount)])
              (call less_lib (str "uint_less_than_by")
                 [ProposalRef from; AccountRef from; Inline (u64_to_vec amount)]))
         (call equal_lib (str "bytes_equal")
            [ProposalRef donation_address; Inline (to_vec mkDonation)]))).

(** The wallets of [prepare_wallets_and_token_program]: the key pairs and their
    addresses, and the transaction that creates them with a balance of 10000. *)
Definition prepared_wallets (keys : list Keypair) : option (list (Keypair * Address)) :=
  mapM (λ w, a ← result_ok (new (str "/token/usdc/" ++ calldata_key w)); Some (w, a)) keys.

Definition wallet_predicates (kp : Keypair) (addr : Address) : option BasicTree :=
  or_lib ← result_ok (from_str (str "/stdpred"));
  signature_lib ← result_ok (from_str (str "/stdpred"));
  Some (Or (call or_lib (str "uint_greater_than_equal") [ProposalRef addr; AccountRef addr])
           (call signature_lib (str "require_ed25519_signature")
              [Inline (public_key_as_bytes (keypair_public kp))])).

Definition wallet_change (w : Keypair * Address) : option (Address * AccountChange) :=
  t ← wallet_predicates w.1 w.2;
  Some (w.2, CreateAccount (mkAccount (u64_to_vec 10000) t)).

Definition wallets_transaction (wallets : list (Keypair * Address)) : option (Transaction Basic) :=
  changes ← mapM wallet_change wallets;
  Some (transaction_new (R := Basic) [] (collect_map changes)).

(** The transaction of the same function that creates the token; [None] is the panic
    of [unwrap], or of the overflow of the supply in a debug build. *)
Definition token_predicates (mint_keypair : Keypair) (token_address : Address) : option BasicTree :=
  token ← result_ok (from_str (str "/token"));
  stdpred ← result_ok (from_str (str "/stdpred"));
  Some (And (call token (str "predicate")
               [Inline (to_vec token_address);
                Inline (to_vec (mkByteArray (public_key_as_bytes (keypair_public mint_keypair))));
                AccountRef token_address])
            (call stdpred (str "constant") [Inline (to_vec false)])).

Definition token_transaction (prof : Profile) (count : Z) (mint_keypair : Keypair) :
    option (Address * Transaction Basic) :=
  total_supply ← u64_mul prof count 10000;
  token_address ← result_ok (new (str "/token/usdx"));
  t ← token_predicates mint_keypair token_address;
  Some (token_address, transaction_new (R := Basic) [] (collect_map
    [(token_address, CreateAccount (mkAccount (u64_to_vec total_supply) t))])).

(** ** [solver.rs] *)

(** A leaf of a template. *)
Definition query_call (library : Address) (entry : rstring) (params : list ParamPattern) :
    PredicateTree Query :=
  Id (mkPredicate (CodeAccountRef library entry) params).

(** [create_project_intent_pattern], [create_matching_pool_donation_intents_pattern],
    [create_project_donation_intent_pattern]; [None] is the panic of [expect]. *)
Definition create_project_intent_pattern : option (PredicateTree Query) :=
  bytes_lib ← result_ok (from_str (str "/stdpred"));
  uint_lib ← result_ok (from_str (str "/stdpred"));
  Some (And (query_call bytes_lib (str "bytes_equal")
               [PProposalRef (str "project_name"); PInline (str "project_state")])
            (query_call uint_lib (str "uint_equal")
               [PProposalRef (str "wallet_address"); PExact (Inline (u64_to_vec 0))])).

Definition create_matching_pool_donation_intents_pattern : option (PredicateTree Query) :=
  less_lib ← result_ok (from_str (str "/stdpred"));
  greater_lib ← result_ok (from_str (str "/stdpred"));
  Some (And (query_call less_lib (str "uint_less_than_by")
               [PAccountRef (str "donor_balance_before"); PProposalRef (str "donor_balance_after");
                PInline (str "donor_amount")])
            (query_call greater_lib (str "uint_greater_than_by")
               [PAccountRef (str "treasury_balance_before");
                PProposalRef (str "treasury_balance_after"); PInline (str "treasury_amount")])).

Definition create_project_donation_intent_pattern : option (PredicateTree Query) :=
  greater_lib ← result_ok (from_str (str "/stdpred"));
  less_lib ← result_ok (from_str (str "/stdpred"));
  bytes_lib ← result_ok (from_str (str "/stdpred"));
  Some (And (And (query_call greater_lib (str "uint_greater_than_by")
                    [PProposalRef (str "project_wallet_after");
                     PAccountRef (str "project_wallet_before"); PInline (str "donor_amount")])
                 (query_call less_lib (str "uint_less_than_by")
                    [PProposalRef (str "donor_wallet_after");
                     PAccountRef (str "donor_wallet_before"); PInline (str "donor_amount")]))
            (query_call bytes_lib (str "bytes_equal")
               [PProposalRef (str "donation_address"); PInline (str "donation_state")])).

(** The branch of [try_match_and_fill_intent] that is taken, with the captures; the
    bodies of the branches are still to be written in the code. *)
Inductive Recognised :=
| NewProject (m : Captures)
| PoolDonation (m : Captures)
| ProjectDonation (m : Captures)
| NotRecognised.

Definition try_match_and_fill_intent (intent : Intent Basic) : option Recognised :=
  let expression := expectations intent in
  project ← create_project_intent_pattern;
  match matches expression project with
  | Some m => Some (NewProject m)
  | None =>
      pool ← create_matching_pool_donation_intents_pattern;
      match matches expression pool with
      | Some m => Some (PoolDonation m)
      | None =>
          donation ← create_project_donation_intent_pattern;
          match matches expression donation with
          | Some m => Some (ProjectDonation m)
          | None => Some NotRecognised
          end
      end
  end.

(** One turn of the loop of the solver: bytes that are no intent are skipped. *)
Definition solver_receive `{!Rmp (IntentContent Basic)} (b : bytes) : option (option Recognised) :=
  match intent_from_slice (R := Basic) b with
  | Some intent => Some <$> try_match_and_fill_intent intent
  | None => Some None
  end.
End client.

(** ** What the solver recognises *)

Definition stdpred_addr : Address := mkAddress (str "/stdpred").
Definition campaign_addr : Address := mkAddress (str "/pgqf/spring-2023").
Definition token_addr : Address := mkAddress (str "/token/usdx").

Lemma stdpred_parses : from_str (str "/stdpred") = Ok stdpred_addr.
Proof. reflexivity. Qed.

Section builders.
Context `{!MultihashCrate, !Bs58Crate, !RmpU64, !Rmp bool, !Rmp rstring, !Rmp Address,
  !Rmp Campaign, !Rmp Donation, !Rmp ByteArray, !Rmp Multihash, !Rmp (PredicateTree Basic),
  !Ed25519, !Ed25519Signing}.

(** The builders, once their addresses parse. *)
Lemma project_intent_eq name bh i :
  create_project_intents name bh = Ok i →
  ∃ project, from_str (str "/pgqf/spring-2023/" ++ name) = Ok project ∧
    expectations i = And (call stdpred_addr (str "is_map_empty") [ProposalRef project])
      (call stdpred_addr (str "key_equals")
         [ProposalRef campaign_addr; Inline (to_vec name); Inline (u64_to_vec 0)]) ∧
    calldata i = ∅ ∧ intent_cache i = None.
Proof.
  unfold create_project_intents. rewrite stdpred_parses. cbn [result_bind].
  destruct (from_str (str "/pgqf/spring-2023/" ++ name)) as [project|] eqn:Hp; [|done].
  intros [= <-]. by exists project.
Qed.

Lemma pool_donation_eq amount kp treasury bh i :
  create_donation_to_matching_pool_intents amount kp treasury bh = Ok i →
  ∃ from, wallet_of kp = Ok from ∧
    let tree := And (call stdpred_addr (str "uint_less_than_by")
             [AccountRef from; ProposalRef from; Inline (u64_to_vec amount)])
        (call stdpred_addr (str "uint_greater_than_by")
             [AccountRef treasury; ProposalRef treasury; Inline (u64_to_vec amount)]) in
    let h := sha3_256 (to_vec bh ++ to_vec (tree : PredicateTree Basic)) in
    i = mkIntent (R := Basic) bh tree
      {[calldata_key kp := signature_to_bytes (sign kp (to_bytes h))]} (Some h).
Proof.
  unfold create_donation_to_matching_pool_intents, pool_donation_tree. rewrite stdpred_parses.
  destruct (wallet_of kp) as [from|]; [|done]. intros [= <-]. by exists from.
Qed.

Lemma project_donation_eq name amount from bh i :
  create_project_donation_intent name amount from bh = Ok i →
  ∃ record wallet,
    from_str (str "/pgqf/spring-2023/" ++ name ++ str "/" ++ replace_slashes (addr_path from)) =
      Ok record ∧
    from_str (str "/token/usdc/project-" ++ name ++ str ".eth") = Ok wallet ∧
    i = intent_new (R := Basic) bh
      (And (And (call stdpred_addr (str "uint_greater_than_by")
                   [ProposalRef wallet; AccountRef wallet; Inline (u64_to_vec amount)])
                (call stdpred_addr (str "uint_less_than_by")
                   [ProposalRef from; AccountRef from; Inline (u64_to_vec amount)]))
           (call stdpred_addr (str "bytes_equal")
              [ProposalRef record; Inline (to_vec mkDonation)])).
Proof.
  unfold create_project_donation_intent. rewrite stdpred_parses.
  destruct (from_str _) as [record|] eqn:Hr; [|done]. cbn [result_bind].
  destruct (from_str (str "/token/usdc/project-" ++ _)) as [wallet|] eqn:Hw; [|done].
  intros [= <-]. by exists record, wallet.
Qed.

(** The account of installed bytecode. *)
Definition installed_account (address : Address) (bytecode : bytes) : Account :=
  mkAccount bytecode
    (And (call stdpred_addr (str "immutable_state") [Inline (to_vec address)])
         (call stdpred_addr (str "immutable_predicates") [Inline (to_vec address)])).

Lemma install_bytecode_eq address bytecode :
  install_bytecode address bytecode = Ok (transaction_new (R := Basic) []
    {[address := CreateAccount (installed_account address bytecode)]}).
Proof. reflexivity. Qed.

(** The captures of a donation to the pool, and to a project. *)
Definition pool_captures (from treasury : Address) (amount : Z) : Captures :=
  list_to_map [(str "donor_balance_before", MAddress from);
    (str "donor_balance_after", MAddress from); (str "donor_amount", MBytes (u64_to_vec amount));
    (str "treasury_balance_before", MAddress treasury);
    (str "treasury_balance_after", MAddress treasury);
    (str "treasury_amount", MBytes (u64_to_vec amount))].
Definition donation_captures (from wallet record : Address) (amount : Z) : Captures :=
  list_to_map [(str "project_wallet_after", MAddress wallet);
    (str "project_wallet_before", MAddress wallet);
    (str "donor_wallet_after", MAddress from); (str "donor_wallet_before", MAddress from);
    (str "donor_amount", MBytes (u64_to_vec amount));
    (str "donation_address", MAddress record); (str "donation_state", MBytes (to_vec mkDonation))].

Lemma project_not_recognised name bh i :
  create_project_intents name bh = Ok i → try_match_and_fill_intent i = Some NotRecognised.
Proof.
  intros (project & _ & He & _)%project_intent_eq. unfold try_match_and_fill_intent. rewrite He.
  vm_compute. reflexivity.
Qed.

Lemma pool_recognised amount kp treasury bh i :
  create_donation_to_matching_pool_intents amount kp treasury bh = Ok i →
  ∃ from, wallet_of kp = Ok from ∧
    try_match_and_fill_intent i = Some (PoolDonation (pool_captures from treasury amount)).
Proof.
  intros (from & Hf & ->)%pool_donation_eq. exists from. split; [done|]. vm_compute. reflexivity.
Qed.

(** Client and solver.  Of the intents that the client sends, the solver
    recognises the two kinds of donations, and captures who pays whom how much; the
    intents that add a project, which need a solver most, it recognises never. *)
Theorem solver_recognises :
  (∀ name bh i, create_project_intents name bh = Ok i →
    try_match_and_fill_intent i = Some NotRecognised) ∧
  (∀ amount kp treasury bh i, create_donation_to_matching_pool_intents amount kp treasury bh = Ok i →
    ∃ from, wallet_of kp = Ok from ∧
      try_match_and_fill_intent i = Some (PoolDonation (pool_captures from treasury amount))) ∧
  (∀ name amount from bh i, create_project_donation_intent name amount from bh = Ok i →
    ∃ wallet record, from_str (str "/token/usdc/project-" ++ name ++ str ".eth") = Ok wallet ∧
      from_str (str "/pgqf/spring-2023/" ++ name ++ str "/" ++ replace_slashes (addr_path from)) =
        Ok record ∧
      try_match_and_fill_intent i =
        Some (ProjectDonation (donation_captures from wallet record amount))).
Proof.
  split; [|split].
  - exact project_not_recognised.
  - exact pool_recognised.
  - intros name amount from bh i (record & wallet & Hr & Hw & ->)%project_donation_eq.
    exists wallet, record. split; [done|]. split; [done|]. vm_compute. reflexivity.
Qed.
End builders.
