(* ===== verification/PgqfProps.v ===== *)
(** What the transactions and intents of the funding campaign achieve on the chain:
    the theorems about the definitions of [Pgqf].

    The premises are those of an accepted transaction: [execute] returns a diff, the
    state has a compiled standard library at [/stdpred], and the module cache is
    right about it.  [says] is what an accepted tree then says about the state; from
    it and from the functions of [Stdpred] follows what happened to the balances. *)
From S2P Require Import Prelude Address Predicate State Extern Chain Sandbox ChainProps Collect.
From S2P Require Import Execution ExecutionProps Stdpred Library Query Pgqf.

(** ** Accounts before and after a transaction *)

(** The accounts once the diff is applied. *)
Definition later (state : dyn_state) (d : StateDiff) : dyn_state :=
  mkDyn (λ a, after d a (dyn_get state a)).

(** The balance of a wallet. *)
Definition balance_at `{!RmpU64} (state : dyn_state) (a : Address) : option Z :=
  acc ← dyn_get state a; u64_from_slice (acc_state acc).

(** What an expanded change says about its account. *)
Definition change_done (state : dyn_state) (d : StateDiff) (a : Address)
    (ch : ExpandedAccountChange) : Prop :=
  match ch with
  | ECreateAccount acc => dyn_get state a = None ∧ dyn_get (later state d) a = Some acc
  | EReplaceState s s' => ∃ p, dyn_get state a = Some (mkAccount s p) ∧
      dyn_get (later state d) a = Some (mkAccount s' p)
  | EReplacePredicates p p' => ∃ s, dyn_get state a = Some (mkAccount s p) ∧
      dyn_get (later state d) a = Some (mkAccount s p')
  | EDeleteAccount acc => dyn_get state a = Some acc ∧ dyn_get (later state d) a = None
  end.

Lemma context_done `{!MultihashCrate, !Rmp (IntentContent Basic)} state tx d ctx a :
  outputs state tx = Ok d → predicate_context state tx = Ok ctx →
  match ctx_proposals ctx !! a with
  | Some ch => a ∈ dom (proposals tx : gmap Address AccountChange) ∧ change_done state d a ch
  | None => a ∉ dom (proposals tx : gmap Address AccountChange) ∧
      dyn_get (later state d) a = dyn_get state a
  end.
Proof.
  intros Hout Hctx. destruct (predicate_context_spec state tx d Hout) as (ctx' & Hctx' & Hps & _).
  assert (ctx' = ctx) as -> by congruence. destruct (outputs_after _ _ _ Hout) as [_ Haft].
  specialize (Hps a). specialize (Haft a). rewrite Hps. clear Hps. revert Haft.
  change (gmap Address (rAccountChange Basic)) with (gmap Address AccountChange).
  change (rAccountChange Basic) with AccountChange.
  change (dyn_get (later state d) a) with (after d a (dyn_get state a)).
  generalize (proposals tx : gmap Address AccountChange). intros ps.
  destruct (ps !! a) as [c|] eqn:Hc; simpl.
  - intros [Haft _]. apply elem_of_dom_2 in Hc. unfold change_done.
    change (dyn_get (later state d) a) with (after d a (dyn_get state a)).
    destruct c, (dyn_get state a) as [[s0 p0]|]; simplify_eq/=; rewrite <-?Haft; eauto.
  - intros [Hu Hd]. split; [by apply not_elem_of_dom|]. unfold after. by rewrite decide_False, Hu.
Qed.

(** ** What an accepted tree says *)

Section says.
Context `{!RmpU64, !Rmp bool, !Rmp Address, !Rmp (gmap bytes bytes), !Rmp (gset bytes),
  !MultihashCrate, !Ed25519, !Bs58Crate, !Wasmer, !Rmp PredicateContext, !Rmp (list ExpandedParam),
  !MultihashLaws, !Bs58Laws}.
Context (wasm : bytes) `{!StdpredModule wasm}.
Context (state cache : dyn_state) (Hcache : cache_faithful wasm cache).
Context {lib : Address} (Hlib : acc_state <$> dyn_get state lib = Some wasm).
Implicit Types (t : BasicTree) (ctx : PredicateContext) (cd : Calldata).

(** The tree expands, and its predicates accept. *)
Definition says ctx cd t : Prop :=
  ∃ u, expand_predicate_tree state t ctx cd = Ok u ∧
    holds (accepts (λ p, invoke (to_vec ctx) p cache)) u = true.

Lemma says_and ctx cd l r : says ctx cd (And l r) → says ctx cd l ∧ says ctx cd r.
Proof.
  intros (u & (ul & Hl & (ur & Hr & [= <-])%result_bind_Ok)%result_bind_Ok & Hu).
  unfold holds in Hu. simpl in Hu. apply andb_true_iff in Hu as [??]. split; [by exists ul|by exists ur].
Qed.

Lemma says_or ctx cd l r : says ctx cd (Or l r) → says ctx cd l ∨ says ctx cd r.
Proof.
  intros (u & (ul & Hl & (ur & Hr & [= <-])%result_bind_Ok)%result_bind_Ok & Hu).
  unfold holds in Hu. simpl in Hu. apply orb_true_iff in Hu as [?|?]; [left; by exists ul|right; by exists ur].
Qed.

Lemma says_call ctx cd entry ps :
  says ctx cd (call lib entry ps) →
  ∃ eps, Forall2 (param_resolves state ctx cd) ps eps ∧
    stdpred_call ctx (mkPredicate (mkExpandedCode wasm entry) eps) = Some true.
Proof.
  intros (u & (q & Hq & [= <-])%result_bind_Ok & Hu).
  apply expand_predicate_Ok in Hq as [Hc Hps]. simpl in Hc, Hps.
  inversion Hc as [|addr e acc Hacc Hc1 Hc2]; subst. rewrite Hacc in Hlib. injection Hlib as Hw.
  exists (params q). split; [done|]. destruct q as [c eps]. simpl in *.
  apply (stdpred_accepts wasm cache Hcache); simpl; by rewrite <-?Hw, ?Hc2.
Qed.
End says.

Lemma tree_rel_no_not {T V} (R : T → V → Prop) t u : tree_rel R t u → no_not u = no_not t.
Proof. induction 1 as [| |? ? ? ? _ IH1 _ IH2|? ? ? ? _ IH1 _ IH2]; simpl; congruence. Qed.

Section accepted.
Context `{!RmpU64, !Rmp bool, !Rmp Address, !Rmp (gmap bytes bytes), !Rmp (gset bytes),
  !MultihashCrate, !Ed25519, !Bs58Crate, !Wasmer, !Rmp PredicateContext, !Rmp (list ExpandedParam),
  !MultihashLaws, !Bs58Laws, !HashOrder Address, !Rmp (IntentContent Basic)} {RA : Rayon}.
Context (wasm : bytes) `{!StdpredModule wasm}.
Context (state cache : dyn_state) (Hcache : cache_faithful wasm cache).
Context (Hlib : acc_state <$> dyn_get state stdpred_addr = Some wasm).
Context (tx : Transaction Basic) (d : StateDiff) (Hv : tx_valid tx).
Context (Hd : execute tx state cache = Some (Ok d)).

(** What an accepted transaction gives: its context, and that the trees without
    negations say what they say. *)
Lemma accepted_says :
  ∃ ctx, outputs state tx = Ok d ∧ predicate_context state tx = Ok ctx ∧
    (∀ i : Intent Basic, i ∈ intents tx → no_not (expectations i : BasicTree) = true →
      says state cache ctx (calldata i) (expectations i)) ∧
    (∀ a acc, covered tx a → dyn_get state a = Some acc → no_not (acc_predicates acc) = true →
      says state cache ctx (merged_calldata ctx) (acc_predicates acc)).
Proof.
  destruct (accepted_triggered tx state cache d Hv Hd) as (Hout & ctx & Hctx & Hno & Hall).
  exists ctx. split; [done|]. split; [done|].
  assert (∀ t cd, no_not t = true → (∀ e, expand_predicate_tree state t ctx cd ≠ Err e) →
    (∀ u, expand_predicate_tree state t ctx cd = Ok u → triggered state tx ctx u) →
    says state cache ctx cd t) as Hsays.
  { intros t cd Hnn He Ht. destruct (expand_predicate_tree state t ctx cd) as [u|e] eqn:Hu;
      [|by destruct (He e)]. exists u. split; [done|]. apply Hall; [by apply Ht|]. left.
    apply try_map_Ok_iff, tree_rel_no_not in Hu. congruence. }
  split.
  - intros i Hi Hnn. apply Hsays; [done| |].
    + intros e He. apply (Hno e). right. by exists i.
    + intros u Hu. right. by exists i.
  - intros a acc Ha Hacc Hnn. apply Hsays; [done| |].
    + intros e He. apply (Hno e). left. exists a. split; [done|]. by exists acc.
    + intros u Hu. left. exists a. split; [done|]. by exists acc.
Qed.

(** An account and its proposal, both read as a balance, are the balance before and
    after. *)
Lemma balance_change ctx cd a p1 p2 x y :
  outputs state tx = Ok d → predicate_context state tx = Ok ctx →
  param_resolves state ctx cd (AccountRef a) p1 → param_resolves state ctx cd (ProposalRef a) p2 →
  u64_from_slice (data p1) = Some x → u64_from_slice (data p2) = Some y →
  balance_at state a = Some x ∧ balance_at (later state d) a = Some y ∧
    acc_predicates <$> dyn_get (later state d) a = acc_predicates <$> dyn_get state a.
Proof.
  intros Hout Hctx Hp1 Hp2 Hx Hy. inversion Hp1 as [|? acc Hacc| |]; subst.
  inversion Hp2 as [| |? ch Hch|]; subst. simpl in Hx, Hy.
  pose proof (context_done state tx d ctx a Hout Hctx) as Hc. rewrite Hch in Hc.
  destruct Hc as [_ Hc]. unfold balance_at.
  destruct ch as [acc'|s s'|t t'|acc']; simpl in Hc, Hy; rewrite ?u64_from_slice_nil in Hy; try done.
  - destruct Hc; congruence.
  - destruct Hc as (p & Hb & Ha). simpl. rewrite Ha, Hb. rewrite Hb in Hacc.
    by injection Hacc as <-.
Qed.
End accepted.

(** The predicates on distances, when the distance is not zero. *)
Section distances.
Context `{!RmpU64}.

Lemma on_three_uints_true op p1 p2 p3 :
  on_three_uints op [p1; p2; p3] = Some true ↔
  ∃ x y z, u64_from_slice (data p1) = Some x ∧ u64_from_slice (data p2) = Some y ∧
    u64_from_slice (data p3) = Some z ∧ op x y z = true.
Proof.
  unfold on_three_uints, slice_to_u64. simpl. split.
  - intros (x & Hx & (y & Hy & (z & Hz & [= Ho])%bind_Some)%bind_Some)%bind_Some. by exists x, y, z.
  - intros (x & y & z & -> & -> & -> & <-). done.
Qed.

Lemma on_two_uints_true op p1 p2 :
  on_two_uints op [p1; p2] = Some true ↔
  ∃ x y, u64_from_slice (data p1) = Some x ∧ u64_from_slice (data p2) = Some y ∧ op x y = true.
Proof.
  unfold on_two_uints, slice_to_u64. simpl. split.
  - intros (x & Hx & (y & Hy & [= Ho])%bind_Some)%bind_Some. by exists x, y.
  - intros (x & y & -> & -> & <-). done.
Qed.

Lemma saturating_positive x y z :
  z ≠ 0%Z → (u64_saturating_sub x y =? z)%Z = true → (x - y = z)%Z.
Proof. unfold u64_saturating_sub. rewrite Z.eqb_eq. lia. Qed.
End distances.

(** ** Donations *)

Section donations.
Context `{!MultihashCrate, !RmpU64, !Rmp bool, !Rmp rstring, !Rmp Address, !Rmp (gmap bytes bytes),
  !Rmp (gset bytes), !Rmp Campaign, !Rmp Donation, !Rmp ByteArray, !Rmp Multihash,
  !Rmp (PredicateTree Basic), !Ed25519, !Ed25519Signing, !Bs58Crate, !Wasmer, !Rmp PredicateContext,
  !Rmp (list ExpandedParam), !MultihashLaws, !Bs58Laws, !HashOrder Address,
  !Rmp (IntentContent Basic)} {RA : Rayon}.
Context (wasm : bytes) `{!StdpredModule wasm}.

(** The state has the standard library, the cache is right about it, and the
    transaction was accepted with this diff. *)
Record accepted_with (state cache : dyn_state) (tx : Transaction Basic) (d : StateDiff) : Prop := {
  aw_cache : cache_faithful wasm cache;
  aw_lib : acc_state <$> dyn_get state stdpred_addr = Some wasm;
  aw_valid : tx_valid tx;
  aw_accepted : execute tx state cache = Some (Ok d);
}.

Section says_distance.
Context (state cache : dyn_state) (ctx : PredicateContext) (cd : Calldata).
Context (Hcache : cache_faithful wasm cache).
Context (Hlib : acc_state <$> dyn_get state stdpred_addr = Some wasm).

Lemma says_three entry op l r z :
  (∀ eps, stdpred_call ctx (mkPredicate (mkExpandedCode wasm entry) eps) = on_three_uints op eps) →
  is_u64 z → says state cache ctx cd (call stdpred_addr entry [l; r; Inline (u64_to_vec z)]) →
  ∃ pl pr x y, param_resolves state ctx cd l pl ∧ param_resolves state ctx cd r pr ∧
    u64_from_slice (data pl) = Some x ∧ u64_from_slice (data pr) = Some y ∧ op x y z = true.
Proof.
  intros Hop Hz (eps & Hps & Hcall)%(says_call wasm state cache Hcache Hlib). rewrite Hop in Hcall.
  apply Forall2_cons_inv_l in Hps as (pl & eps1 & Hl & Hps & ->).
  apply Forall2_cons_inv_l in Hps as (pr & eps2 & Hr & Hps & ->).
  apply Forall2_cons_inv_l in Hps as (pz & eps3 & Hpz & ->%Forall2_nil_inv_l & ->).
  apply on_three_uints_true in Hcall as (x & y & z' & Hx & Hy & Hz1 & Ho).
  inversion Hpz; subst. simpl in Hz1. rewrite u64_from_slice_to_vec in Hz1 by done.
  injection Hz1 as <-. by exists pl, pr, x, y.
Qed.

(** The two predicates on distances, on the balances of an account before and after. *)
Lemma says_moved tx d a z (up : bool) (flip : bool) :
  outputs state tx = Ok d → predicate_context state tx = Ok ctx → is_u64 z → z ≠ 0%Z →
  let entry := if up then str "uint_greater_than_by" else str "uint_less_than_by" in
  let ps := if flip then [AccountRef a; ProposalRef a] else [ProposalRef a; AccountRef a] in
  says state cache ctx cd (call stdpred_addr entry (ps ++ [Inline (u64_to_vec z)])) →
  ∃ b, balance_at state a = Some b ∧
    balance_at (later state d) a = Some (if xorb up flip then b + z else b - z)%Z.
Proof.
  intros Hout Hctx Hu Hz entry ps Hs.
  assert (∀ p1 p2 x y, param_resolves state ctx cd (AccountRef a) p1 →
    param_resolves state ctx cd (ProposalRef a) p2 →
    u64_from_slice (data p1) = Some x → u64_from_slice (data p2) = Some y →
    balance_at state a = Some x ∧ balance_at (later state d) a = Some y) as Hbal.
  { intros p1 p2 x y ????. by edestruct (balance_change state tx d) as (? & ? & _). }
  destruct up, flip; (eapply says_three in Hs as (pl & pr & x & y & Hl & Hr & Hx & Hy & Hop);
    [|intros eps; reflexivity|done]); apply saturating_positive in Hop; try done; simpl.
  - destruct (Hbal pl pr x y) as [-> ->]; try done. exists x. split; [done|]. f_equal. lia.
  - destruct (Hbal pr pl y x) as [-> ->]; try done. exists y. split; [done|]. f_equal. lia.
  - destruct (Hbal pl pr x y) as [-> ->]; try done. exists x. split; [done|]. f_equal. lia.
  - destruct (Hbal pr pl y x) as [-> ->]; try done. exists y. split; [done|]. f_equal. lia.
Qed.
End says_distance.

(** C9: a donation to a project is paid.  A transaction that is accepted with the
    intent of such a donation moved exactly the amount from the wallet of the donor to
    that of the project, both of which existed, and left the record of the donation. *)
Theorem project_donation_pays state cache tx d name amount from bh i :
  accepted_with state cache tx d → is_u64 amount → amount ≠ 0%Z → to_vec mkDonation ≠ [] →
  create_project_donation_intent name amount from bh = Ok i → i ∈ intents tx →
  ∃ wallet record w f,
    from_str (str "/token/usdc/project-" ++ name ++ str ".eth") = Ok wallet ∧
    from_str (str "/pgqf/spring-2023/" ++ name ++ str "/" ++ replace_slashes (addr_path from)) =
      Ok record ∧
    balance_at state wallet = Some w ∧ balance_at (later state d) wallet = Some (w + amount)%Z ∧
    balance_at state from = Some f ∧ balance_at (later state d) from = Some (f - amount)%Z ∧
    acc_state <$> dyn_get (later state d) record = Some (to_vec mkDonation).
Proof.
  intros [Hcache Hlib Hv Hd] Hu Hz Hne (record & wallet & Hr & Hw & ->)%project_donation_eq Hi.
  destruct (accepted_says state cache tx d Hv Hd) as (ctx & Hout & Hctx & Hint & _).
  apply Hint in Hi; [|done]. cbn [expectations intent_new calldata] in Hi.
  apply says_and in Hi as [[Hg Hl]%says_and Hb].
  destruct (says_moved state cache ctx ∅ Hcache Hlib tx d wallet amount true false Hout Hctx Hu Hz Hg)
    as (w & Hw1 & Hw2).
  destruct (says_moved state cache ctx ∅ Hcache Hlib tx d from amount false false Hout Hctx Hu Hz Hl)
    as (f & Hf1 & Hf2).
  exists wallet, record, w, f. do 6 (split; [done|]).
  destruct (says_call wasm state cache Hcache Hlib ctx ∅ _ _ Hb) as (eps & Hps & Hcall).
  apply Forall2_cons_inv_l in Hps as (pr & eps1 & Hpr & Hps & ->).
  apply Forall2_cons_inv_l in Hps as (pb & eps2 & Hpb & ->%Forall2_nil_inv_l & ->).
  inversion Hpb; subst. change (Some (bool_decide (data pr = to_vec mkDonation)) = Some true) in Hcall.
  injection Hcall as Hdata%bool_decide_eq_true. inversion Hpr as [| |? ch Hch|]; subst.
  pose proof (context_done state tx d ctx record Hout Hctx) as Hc. rewrite Hch in Hc.
  destruct Hc as [_ Hc]. simpl in Hdata.
  destruct ch as [acc|s s'|t t'|acc]; simpl in Hc, Hdata; [| |congruence..].
  - destruct Hc as [_ Hc]. simpl. by rewrite Hc, <-Hdata.
  - destruct Hc as (p & _ & Hc). simpl. by rewrite Hc, <-Hdata.
Qed.

(** C33: a donation to the matching pool is a payment from it.  A transaction that
    is accepted with the intent of such a donation moved the amount from the treasury
    to the wallet of the donor; so while the treasury holds less than the amount, as it
    does when it is created, there is no such transaction. *)
Theorem pool_donation_inverted state cache tx d amount kp treasury bh i :
  accepted_with state cache tx d → is_u64 amount → amount ≠ 0%Z →
  create_donation_to_matching_pool_intents amount kp treasury bh = Ok i → i ∈ intents tx →
  ∃ wallet w t, wallet_of kp = Ok wallet ∧
    balance_at state wallet = Some w ∧ balance_at (later state d) wallet = Some (w + amount)%Z ∧
    balance_at state treasury = Some t ∧ balance_at (later state d) treasury = Some (t - amount)%Z ∧
    (amount ≤ t)%Z.
Proof.
  intros [Hcache Hlib Hv Hd] Hu Hz (wallet & Hw & ->)%pool_donation_eq Hi.
  destruct (accepted_says state cache tx d Hv Hd) as (ctx & Hout & Hctx & Hint & _).
  apply Hint in Hi; [|done]. cbn [expectations calldata] in Hi.
  apply says_and in Hi as [Hl Hg].
  destruct (says_moved state cache ctx _ Hcache Hlib tx d wallet amount false true Hout Hctx Hu Hz Hl)
    as (w & Hw1 & Hw2).
  destruct (says_moved state cache ctx _ Hcache Hlib tx d treasury amount true true Hout Hctx Hu Hz Hg)
    as (t & Ht1 & Ht2).
  exists wallet, w, t. do 5 (split; [done|]).
  assert (is_u64 (t - amount)) as Hr; [|unfold is_u64 in Hr; lia].
  apply bind_Some in Ht2 as (acc & _ & Hacc). by eapply u64_from_slice_range.
Qed.

(** ** Wallets *)

Lemma context_calldata (state : dyn_state) tx ctx d h cd :
  outputs state tx = Ok d → predicate_context state tx = Ok ctx → ctx_calldata ctx !! h = Some cd →
  ∃ i : Intent Basic, i ∈ intents tx ∧ (intent_hash i).1 = h ∧ calldata i = cd.
Proof.
  intros Hout Hctx Hcd. destruct (predicate_context_spec state tx d Hout) as (ctx' & Hctx' & _ & _ & Hc).
  assert (ctx' = ctx) as -> by congruence. rewrite Hc in Hcd.
  apply fmap_Some in Hcd as (i & Hi & ->). exists i.
  apply last_Some_elem_of, list_elem_of_filter in Hi as [Hh Hi]. done.
Qed.

Lemma signature_accepted `{!Ed25519SigningLaws} ctx kp :
  stdpred_call ctx (mkPredicate (mkExpandedCode wasm (str "require_ed25519_signature"))
    [EInline (public_key_as_bytes (keypair_public kp))]) = Some true →
  ∃ h cd s sig, ctx_calldata ctx !! h = Some cd ∧ cd !! calldata_key kp = Some s ∧
    signature_from_bytes s = Some sig ∧ verify (keypair_public kp) (to_bytes h) sig = true.
Proof.
  change (stdpred_call _ _) with (require_ed25519_signature
    [EInline (public_key_as_bytes (keypair_public kp))] ctx).
  unfold require_ed25519_signature. simpl. rewrite public_key_from_as_bytes. simpl.
  intros [= (pre & h & cd & sig & post & Heq & (s & Hs & Hsig) & Hver & _)%signature_loop_true].
  exists h, cd, s, sig. split; [|done]. apply elem_of_btree_iter. rewrite Heq. set_solver.
Qed.

(** C20: the wallets of the client.  An accepted transaction leaves a wallet as it is,
    or replaces its balance by one that is not smaller, unless an intent of the
    transaction carries a signature of its hash by the owner of the wallet. *)
Theorem wallet_spending state cache tx d kp addr acc :
  accepted_with state cache tx d → Ed25519SigningLaws →
  dyn_get state addr = Some acc → wallet_predicates kp addr = Some (acc_predicates acc) →
  dyn_get (later state d) addr = Some acc ∨
  (∃ b b', balance_at state addr = Some b ∧ balance_at (later state d) addr = Some b' ∧ (b ≤ b')%Z ∧
    acc_predicates <$> dyn_get (later state d) addr = Some (acc_predicates acc)) ∨
  (∃ (i : Intent Basic) s sig, i ∈ intents tx ∧ calldata i !! calldata_key kp = Some s ∧
    signature_from_bytes s = Some sig ∧
    verify (keypair_public kp) (to_bytes (intent_hash i).1) sig = true).
Proof.
  intros [Hcache Hlib Hv Hd] Hlaws Hacc [= Hp].
  destruct (accepted_says state cache tx d Hv Hd) as (ctx & Hout & Hctx & _ & Hall).
  pose proof (context_done state tx d ctx addr Hout Hctx) as Hdone.
  destruct (ctx_proposals ctx !! addr) as [ch|] eqn:Hch.
  2: { left. destruct Hdone as [_ ->]. done. }
  right. destruct Hdone as [Hin _].
  assert (covered tx addr) as Hcov by (exists addr; split; [done|by left]).
  pose proof (Hall addr acc Hcov Hacc) as Hs. rewrite <-Hp in Hs. specialize (Hs eq_refl).
  apply says_or in Hs as [Hs|Hs]; apply (says_call wasm state cache Hcache Hlib) in Hs
    as (eps & Hps & Hcall).
  - left. apply Forall2_cons_inv_l in Hps as (p1 & eps1 & Hp1 & Hps & ->).
    apply Forall2_cons_inv_l in Hps as (p2 & eps2 & Hp2 & ->%Forall2_nil_inv_l & ->).
    apply on_two_uints_true in Hcall as (x & y & Hx & Hy & Hle%Z.leb_le).
    destruct (balance_change state tx d ctx _ addr p2 p1 y x Hout Hctx Hp2 Hp1 Hy Hx) as (? & ? & Hsame).
    exists y, x. rewrite Hacc in Hsame. done.
  - right. apply Forall2_cons_inv_l in Hps as (p1 & eps1 & Hp1 & ->%Forall2_nil_inv_l & ->).
    inversion Hp1; subst.
    apply signature_accepted in Hcall as (h & cd & s & sig & Hcd & Hs & Hsig & Hver).
    destruct (context_calldata state tx ctx d h cd Hout Hctx Hcd) as (i & Hi & <- & <-).
    by exists i, s, sig.
Qed.


(** ** The token and the libraries *)

(** The token of the client is frozen, and does not govern its wallets.  The
    predicates of the token account end in a constant that rejects, so no accepted
    transaction proposes a change of the token account or of an account below it; and
    the wallets that the client creates are not below it. *)
Theorem token_frozen state cache tx d mint acc :
  accepted_with state cache tx d → RmpLaws bool →
  dyn_get state token_addr = Some acc → token_predicates mint token_addr = Some (acc_predicates acc) →
  (∀ a, a ∈ dom (proposals tx : gmap Address AccountChange) →
    a ≠ token_addr ∧ is_parent_of token_addr a = false) ∧
  (∀ kp a, wallet_of kp = Ok a → is_parent_of token_addr a = false).
Proof.
  intros [Hcache Hlib Hv Hd] Hrmp Hacc [= Hp]. split.
  - assert (¬ covered tx token_addr) as Hno.
    { intros Hcov.
      destruct (accepted_says state cache tx d Hv Hd) as (ctx & Hout & Hctx & _ & Hall).
      pose proof (Hall token_addr acc Hcov Hacc) as Hs. rewrite <-Hp in Hs.
      destruct (says_and _ _ _ _ _ _ (Hs eq_refl)) as [_ Hc].
      apply (says_call wasm state cache Hcache Hlib) in Hc as (eps & Hps & Hcall).
      apply Forall2_cons_inv_l in Hps as (p1 & eps1 & Hp1 & ->%Forall2_nil_inv_l & ->).
      inversion Hp1; subst. change (from_slice (to_vec false) = Some true) in Hcall.
      by rewrite from_slice_to_vec in Hcall. }
    intros a Ha. split.
    + intros ->. apply Hno. exists token_addr. by split; [|left].
    + destruct (is_parent_of token_addr a) eqn:Hpar; [|done]. destruct Hno. exists a. split; [done|].
      right. split; [|done]. apply (new_valid (str "/token/usdx") token_addr). reflexivity.
  - intros kp a (_ & Ha)%new_valid. unfold is_parent_of. rewrite Ha. reflexivity.
Qed.

(** Installed bytecode.  Once [install_bytecode] has created its account, no
    accepted transaction changes it in place, neither its code nor its predicates; the
    account stays or is deleted. *)
Theorem installed_bytecode_frozen state cache tx d addr bytecode inst acc :
  accepted_with state cache tx d → RmpLaws Address →
  install_bytecode addr bytecode = Ok inst →
  (proposals inst : gmap Address AccountChange) !! addr = Some (CreateAccount acc) →
  dyn_get state addr = Some acc →
  dyn_get (later state d) addr = Some acc ∨ dyn_get (later state d) addr = None.
Proof.
  rewrite install_bytecode_eq. intros [Hcache Hlib Hv Hd] Hrmp [= <-] Hinst Hacc. simpl in Hinst.
  apply lookup_singleton_Some in Hinst as [_ [= <-]].
  destruct (accepted_says state cache tx d Hv Hd) as (ctx & Hout & Hctx & _ & Hall).
  pose proof (context_done state tx d ctx addr Hout Hctx) as Hdone.
  destruct (ctx_proposals ctx !! addr) as [ch|] eqn:Hch.
  2: { left. destruct Hdone as [_ ->]. done. }
  destruct Hdone as [Hin Hdone].
  assert (covered tx addr) as Hcov by (exists addr; split; [done|by left]).
  destruct (says_and _ _ _ _ _ _ (Hall addr _ Hcov Hacc eq_refl)) as [Hst Hpr].
  apply (says_call wasm state cache Hcache Hlib) in Hst as (e1 & Hps1 & Hcall1), Hpr as (e2 & Hps2 & Hcall2).
  apply Forall2_cons_inv_l in Hps1 as (p1 & ? & Hp1 & ->%Forall2_nil_inv_l & ->).
  apply Forall2_cons_inv_l in Hps2 as (p2 & ? & Hp2 & ->%Forall2_nil_inv_l & ->).
  inversion Hp1; inversion Hp2; subst.
  change (immutable_state [EInline (to_vec addr)] ctx = Some true) in Hcall1.
  change (immutable_predicates [EInline (to_vec addr)] ctx = Some true) in Hcall2.
  unfold immutable_state in Hcall1. unfold immutable_predicates in Hcall2. simpl in Hcall1, Hcall2.
  rewrite from_slice_to_vec in Hcall1, Hcall2. simpl in Hcall1, Hcall2. rewrite Hch in Hcall1, Hcall2.
  destruct ch as [acc'|s1 s2|t1 t2|acc']; simpl in Hdone; try done.
  - destruct Hdone; congruence.
  - right. apply Hdone.
Qed.

(** The collection phase of a transaction with a single proposal and no intent. *)
Lemma single_collected state a (c : AccountChange) r v :
  let tx := transaction_new (R := Basic) [] {[a := c]} in
  change_effect c (dyn_get state a) = Some r → change_view c (dyn_get state a) = Some v →
  ∃ d, outputs state tx = Ok d ∧ dyn_get (later state d) a = r ∧
    (∀ b, b ≠ a → dyn_get (later state d) b = dyn_get state b) ∧
    predicate_context state tx = Ok (mkContext ∅ {[a := v]}).
Proof.
  intros tx Hr Hview. unfold outputs, predicate_context.
  change (btree_iter _) with (btree_iter ({[a := c]} : gmap Address AccountChange)).
  rewrite btree_iter_singleton. cbn [try_fold]. rewrite outputs_body_eq, Hr. unfold context_body.
  rewrite expand_account_change_eq. cbn [fst snd]. rewrite Hview.
  set (d := match r with Some acc => (set empty_diff a acc).2 | None => (remove empty_diff a).2 end).
  assert (∀ b before, after d b before = if decide (b = a) then r else before) as Haft.
  { unfold after, d. destruct r as [acc|]; intros b before; simpl; destruct (decide (b = a)) as [->|Hb].
    - rewrite decide_False by set_solver. by rewrite lookup_insert_eq.
    - rewrite decide_False by set_solver. by rewrite lookup_insert_ne.
    - by rewrite decide_True by set_solver.
    - rewrite decide_False by set_solver. by rewrite lookup_delete_ne. }
  exists d. split; [by unfold d; destruct r|]. split; [by simpl; rewrite Haft, decide_True|].
  split; [|done]. intros b Hb. simpl. by rewrite Haft, decide_False.
Qed.

Lemma single_covered a (c : AccountChange) b :
  covered (transaction_new (R := Basic) [] {[a := c]}) b → b = a ∨ valid b ∧ is_parent_of b a = true.
Proof.
  intros (p & Hp & Hb).
  assert (p = a) as ->; [|done]. apply elem_of_dom in Hp as [x Hx].
  change (({[a := c]} : gmap Address AccountChange) !! p = Some x) in Hx.
  by apply lookup_singleton_Some in Hx as [-> _].
Qed.

Lemma single_valid a (c : AccountChange) :
  valid a → tx_valid (transaction_new (R := Basic) [] {[a := c]}).
Proof.
  intros Ha p Hp. apply elem_of_dom in Hp as [x Hx].
  change (({[a := c]} : gmap Address AccountChange) !! p = Some x) in Hx.
  by apply lookup_singleton_Some in Hx as [<- _].
Qed.

(** A transaction that triggers nothing is accepted. *)
Lemma accepted_untriggered tx state cache d ctx :
  tx_valid tx → outputs state tx = Ok d → predicate_context state tx = Ok ctx → intents tx = [] →
  (∀ a, covered tx a → dyn_get state a = None) → execute tx state cache = Some (Ok d).
Proof.
  intros Hv Hout Hctx Hi Hnone.
  assert (∀ a r, covered tx a → ¬ expanded_at state ctx (merged_calldata ctx) a r) as Hno.
  { intros a r Ha (acc & Hacc & _). rewrite (Hnone a Ha) in Hacc. done. }
  destruct (execute_collected tx state cache d ctx Hv Hout Hctx)
    as [(e & [(a & Ha & He)|(i & Hin & _)] & _)|(trees & Htrees & _ & ->)].
  - by destruct (Hno a _ Ha He).
  - rewrite Hi in Hin. by apply elem_of_nil in Hin.
  - assert (∀ t, t ∉ trees) as Hempty.
    { intros t [(a & Ha & He)|(i & Hin & _)]%Htrees; [by destruct (Hno a _ Ha He)|].
      rewrite Hi in Hin. by apply elem_of_nil in Hin. }
    rewrite (proj2 (run_no_crash _ trees ltac:(intros t p Ht; by destruct (Hempty t)))
      ltac:(intros t Ht; by destruct (Hempty t))). done.
Qed.

(** Installed bytecode can be exchanged.  Unless an account above it forbids it,
    anybody can delete the account of installed bytecode, the immutable standard
    library included, and then install other code, under other predicates, at the
    same address: the frozen account does not stay frozen. *)
Theorem installed_bytecode_replaced state cache cache' addr bytecode other :
  RmpLaws Address → valid addr → cache_faithful wasm cache →
  acc_state <$> dyn_get state stdpred_addr = Some wasm →
  dyn_get state addr = Some (installed_account addr bytecode) →
  (∀ a, valid a → is_parent_of a addr = true → dyn_get state a = None) →
  (∀ entry, entry = str "immutable_state" ∨ entry = str "immutable_predicates" →
    completes wasm (mkContext ∅ {[addr := EDeleteAccount (installed_account addr bytecode)]})
      (mkPredicate (mkExpandedCode wasm entry) [EInline (to_vec addr)])) →
  ∃ d1 d2,
    execute (transaction_new (R := Basic) [] {[addr := DeleteAccount]}) state cache = Some (Ok d1) ∧
    execute (transaction_new (R := Basic) [] {[addr := CreateAccount other]}) (later state d1) cache' =
      Some (Ok d2) ∧
    dyn_get (later (later state d1) d2) addr = Some other.
Proof.
  intros Hrmp Hval Hcache Hlib Hacc Habove Hruns.
  set (acc := installed_account addr bytecode) in *.
  destruct (single_collected state addr DeleteAccount None (EDeleteAccount acc))
    as (d1 & Hout & Hnone & Hoth & Hctx); [by simpl; rewrite Hacc..|].
  set (tx := transaction_new (R := Basic) [] {[addr := DeleteAccount]}) in *.
  set (ctx := mkContext ∅ {[addr := EDeleteAccount acc]}) in *.
  pose proof (single_valid addr DeleteAccount Hval) as Hv. fold tx in Hv.
  set (leaf := λ entry, mkPredicate (mkExpandedCode wasm (str entry)) [EInline (to_vec addr)]).
  assert (∀ a r, covered tx a → expanded_at state ctx (merged_calldata ctx) a r →
    r = Ok (And (Id (leaf "immutable_state")) (Id (leaf "immutable_predicates")))) as Htree.
  { intros a r [->|[Ha Hp]]%single_covered (acc' & Hacc' & <-).
    - rewrite Hacc in Hacc'. injection Hacc' as <-.
      destruct (dyn_get state stdpred_addr) as [lib|] eqn:Hl; [|done]. injection Hlib as Hw.
      unfold expand_predicate_tree, acc, installed_account, call. cbn [acc_predicates try_map].
      unfold expand_predicate, expand_code. cbn [code]. rewrite Hl. cbn. by rewrite Hw.
    - by rewrite (Habove a Ha Hp) in Hacc'. }
  destruct (execute_collected tx state cache d1 ctx Hv Hout Hctx)
    as [(e & [(a & Ha & He)|(i & Hin & _)] & _)|(trees & Htrees & _ & Hrun)].
  { by specialize (Htree a _ Ha He). }
  { by apply elem_of_nil in Hin. }
  destruct (single_collected (later state d1) addr (CreateAccount other) (Some other) (ECreateAccount other))
    as (d2 & Hout2 & Hsome & _ & Hctx2); [by rewrite Hnone..|].
  exists d1, d2. split; [|split; [|done]].
  - assert (∀ t, t ∈ trees → t = And (Id (leaf "immutable_state")) (Id (leaf "immutable_predicates")))
      as Hin.
    { intros t [(a & Ha & He)|(i & Hi & _)]%Htrees; [|by apply elem_of_nil in Hi].
      by injection (Htree a _ Ha He). }
    assert (stdpred_call ctx (leaf "immutable_state") = Some true ∧
      stdpred_call ctx (leaf "immutable_predicates") = Some true) as [Hst Hpr].
    { change (immutable_state [EInline (to_vec addr)] ctx = Some true ∧
        immutable_predicates [EInline (to_vec addr)] ctx = Some true).
      unfold immutable_state, immutable_predicates. simpl. rewrite from_slice_to_vec. simpl.
      by rewrite lookup_singleton_eq. }
    pose proof (stdpred_completes wasm cache Hcache ctx (leaf "immutable_state") true eq_refl
      (Hruns _ (or_introl eq_refl)) Hst) as Hinv1.
    pose proof (stdpred_completes wasm cache Hcache ctx (leaf "immutable_predicates") true eq_refl
      (Hruns _ (or_intror eq_refl)) Hpr) as Hinv2.
    assert (parallel_invoke (λ p, invoke (to_vec ctx) p cache) trees = Some (Ok tt)) as Hok;
      [|by rewrite Hrun, Hok].
    apply run_no_crash.
    + intros t p ->%Hin Hp. exists true. simpl in Hp. rewrite !elem_of_cons in Hp.
      by destruct Hp as [->|[->|[]%elem_of_nil]].
    + intros t ->%Hin. unfold holds, accepts. cbn [reduce]. by rewrite Hinv1, Hinv2.
  - apply (accepted_untriggered _ _ _ _ _ (single_valid addr (CreateAccount other) Hval) Hout2 Hctx2);
      [done|]. intros a [->|[Ha Hp]]%single_covered; [exact Hnone|].
    rewrite Hoth; [by apply Habove|]. intros ->. by rewrite is_parent_irrefl in Hp.
Qed.
End donations.
