(* ===== verification/PgqfExamples.v ===== *)
(** The theorems of [Pgqf] and [PgqfProps] on a chain: the virtual machine and the
    standard library of [Library], open wallets whose predicate accepts everything,
    a wallet of the client and its token. *)
From S2P Require Import Prelude Address Predicate State Extern Chain Sandbox ChainProps Collect.
From S2P Require Import Execution ExecutionProps Stdpred Library Query Pgqf PgqfProps.
#[local] Existing Instance library_rmp_context.
#[local] Existing Instance library_wasmer.

#[global] Instance sandbox_rmp_rstring : Rmp rstring := rmp_countable rstring.
#[global] Instance sandbox_rmp_campaign : Rmp Campaign := {|
  to_vec c := to_vec (Rmp := rmp_countable (Z * Z * gset rstring)) (starts_at c, ends_at c, projects c);
  from_slice b := '(s, e, p) ← from_slice (Rmp := rmp_countable (Z * Z * gset rstring)) b;
    Some (mkCampaign s e p);
|}.
#[global] Instance sandbox_rmp_donation : Rmp Donation := {|
  to_vec _ := [Byte.x90]; from_slice b := if bool_decide (b = [Byte.x90]) then Some mkDonation else None
|}.
#[global] Instance sandbox_rmp_array : Rmp ByteArray := {|
  to_vec a := array_bytes a; from_slice b := Some (mkByteArray b)
|}.

(** Accounts whose predicate accepts everything, and the accounts of the example. *)
Definition open_predicates : BasicTree := call (mkAddress (str "/pgqf")) (str "treasury") [].
Definition open_wallet (balance : Z) : Account := mkAccount (u64_to_vec balance) open_predicates.
Definition donor_addr : Address := mkAddress (str "/token/usdc/donor").
Definition project_addr : Address := mkAddress (str "/token/usdc/project-p.eth").
Definition record_addr : Address := mkAddress (str "/pgqf/spring-2023/p/-token-usdc-donor").
Definition treasury_addr : Address := mkAddress (str "/token/usdc/spring-2023.eth").

(** A wallet of the client and its token account, as the client creates them. *)
Definition owner : Keypair := Byte.x6b.
Definition owner_addr : Address := mkAddress (str "/token/usdc/gl").
Definition owner_wallet : Account :=
  mkAccount (u64_to_vec 10) (default open_predicates (wallet_predicates owner owner_addr)).
Definition token_account : Account :=
  mkAccount (u64_to_vec 100) (default open_predicates (token_predicates owner token_addr)).

Definition funded : InMemoryStateStore := mkStore {[
  stdpred_addr := installed_account stdpred_addr library_code;
  mkAddress (str "/pgqf") := mkAccount (bstr "pgqf") open_predicates;
  donor_addr := open_wallet 10;
  project_addr := open_wallet 1;
  treasury_addr := open_wallet 7;
  owner_addr := owner_wallet;
  token_addr := token_account]}.

(** A donation to a project, and the transaction that carries it out. *)
Definition project_donation : Intent Basic := intent_new (R := Basic) (bstr "bh")
  (And (And (call stdpred_addr (str "uint_greater_than_by")
               [ProposalRef project_addr; AccountRef project_addr; Inline (u64_to_vec 4)])
            (call stdpred_addr (str "uint_less_than_by")
               [ProposalRef donor_addr; AccountRef donor_addr; Inline (u64_to_vec 4)]))
       (call stdpred_addr (str "bytes_equal")
          [ProposalRef record_addr; Inline (to_vec mkDonation)])).
Definition paying_tx : Transaction Basic :=
  transaction_new (R := Basic) [project_donation] {[
    donor_addr := ReplaceState (u64_to_vec 6);
    project_addr := ReplaceState (u64_to_vec 5);
    record_addr := CreateAccount (mkAccount (to_vec mkDonation) open_predicates)]}.

Example project_donation_built :
  create_project_donation_intent (str "p") 4 donor_addr (bstr "bh") = Ok project_donation.
Proof. reflexivity. Qed.

#[local] Instance example_order : HashOrder Address := map_order Address.
#[local] Instance example_schedule : Rayon := sequential.

(** What every accepted example has in common. *)
Definition run (tx : Transaction Basic) : option StateDiff :=
  match execute tx (Dyn funded) (Dyn empty_diff) with Some (Ok d) => Some d | _ => None end.

Lemma empty_cache_faithful c : cache_faithful c (Dyn empty_diff).
Proof. intros key val m _ Hv. simpl in Hv. by rewrite lookup_empty in Hv. Qed.

Lemma example_accepted (tx : Transaction Basic) d :
  forallb (λ e, is_ok (new (addr_path e.1)))
    (map_to_list (proposals tx : gmap Address AccountChange)) = true →
  run tx = Some d → accepted_with library_code (Dyn funded) (Dyn empty_diff) tx d.
Proof.
  intros Hv Hrun. split.
  - apply empty_cache_faithful.
  - reflexivity.
  - by apply tx_valid_check.
  - unfold run in Hrun. destruct (execute _ _ _) as [[]|]; congruence.
Qed.

Ltac accepted_run Hrun Hacc :=
  lazymatch goal with
  | |- ∃ d, run ?tx = Some d ∧ _ =>
      destruct (run tx) as [d|] eqn:Hrun; [|exfalso; revert Hrun; vm_compute; discriminate];
      exists d; split; [reflexivity|];
      assert (accepted_with library_code (Dyn funded) (Dyn empty_diff) tx d) as Hacc
        by (apply example_accepted; [vm_compute; reflexivity|exact Hrun])
  end.

Lemma small_u64 x : (0 <=? x)%Z && (x <=? 1000)%Z = true → is_u64 x.
Proof. unfold is_u64, u64_max. rewrite andb_true_iff, !Z.leb_le. lia. Qed.

Lemma project_donation_pays_witness :
  ∃ d, run paying_tx = Some d ∧ balance_at (later (Dyn funded) d) project_addr = Some 5%Z.
Proof.
  accepted_run Hrun Hacc.
  destruct (project_donation_pays library_code (Dyn funded) (Dyn empty_diff) paying_tx d
    (str "p") 4 donor_addr (bstr "bh") project_donation Hacc)
    as (wallet & record & w & f & Hw & _ & Hb & Ha & _).
  - apply small_u64. reflexivity.
  - discriminate.
  - discriminate.
  - exact project_donation_built.
  - left.
  - vm_compute in Hw. injection Hw as <-. vm_compute in Hb. injection Hb as <-. exact Ha.
Defined.

(** A donation to the matching pool, carried out: the donor is paid. *)
Definition pool_donation_expectations : PredicateTree Basic :=
  And (call stdpred_addr (str "uint_less_than_by")
         [AccountRef owner_addr; ProposalRef owner_addr; Inline (u64_to_vec 4)])
      (call stdpred_addr (str "uint_greater_than_by")
         [AccountRef treasury_addr; ProposalRef treasury_addr; Inline (u64_to_vec 4)]).
Definition pool_donation_hash : Multihash :=
  sha3_256 (to_vec (A := Multihash) (bstr "bh") ++
    to_vec (A := PredicateTree Basic) pool_donation_expectations).
Definition pool_donation : Intent Basic :=
  mkIntent (R := Basic) (bstr "bh") pool_donation_expectations
  {[calldata_key owner := signature_to_bytes (sign owner pool_donation_hash)]}
  (Some pool_donation_hash).
Definition withdrawing_tx : Transaction Basic :=
  transaction_new (R := Basic) [pool_donation] {[
    owner_addr := ReplaceState (u64_to_vec 14);
    treasury_addr := ReplaceState (u64_to_vec 3)]}.

Lemma pool_donation_built :
  create_donation_to_matching_pool_intents 4 owner treasury_addr (bstr "bh") = Ok pool_donation.
Proof. reflexivity. Qed.

Lemma pool_donation_inverted_witness :
  ∃ d, run withdrawing_tx = Some d ∧
    balance_at (later (Dyn funded) d) treasury_addr = Some 3%Z.
Proof.
  accepted_run Hrun Hacc.
  destruct (pool_donation_inverted library_code (Dyn funded) (Dyn empty_diff) withdrawing_tx d
    4 owner treasury_addr (bstr "bh") pool_donation Hacc)
    as (wallet & w & t & _ & _ & _ & Hb & Ha & _).
  - apply small_u64. reflexivity.
  - discriminate.
  - exact pool_donation_built.
  - left.
  - vm_compute in Hb. injection Hb as <-. exact Ha.
Defined.

Lemma solver_recognises_witness :
  try_match_and_fill_intent pool_donation =
    Some (PoolDonation (pool_captures owner_addr treasury_addr 4)) ∧
  try_match_and_fill_intent project_donation =
    Some (ProjectDonation (donation_captures donor_addr project_addr record_addr 4)).
Proof.
  destruct solver_recognises as (_ & Hpool & Hproject). split.
  - destruct (Hpool _ _ _ _ _ pool_donation_built) as (from & Hf & Hm).
    injection Hf as <-. exact Hm.
  - destruct (Hproject _ _ _ _ _ project_donation_built) as (wallet & record & Hw & Hr & Hm).
    injection Hw as <-. injection Hr as <-. exact Hm.
Defined.

(** Spending from the wallet of the client, with a signed intent in the transaction. *)
Definition order : Intent Basic :=
  let '(h, i) := signing_hash (intent_new (R := Basic) (recent_blockhash pool_donation) open_predicates) in
  calldata_insert i (calldata_key owner) (signature_to_bytes (sign owner (to_bytes h))).
Definition spending_tx : Transaction Basic :=
  transaction_new (R := Basic) [order] {[owner_addr := ReplaceState (u64_to_vec 3)]}.

Lemma wallet_spending_witness :
  ∃ d, run spending_tx = Some d ∧
    ∃ i s sig, i ∈ intents spending_tx ∧ calldata i !! calldata_key owner = Some s ∧
      signature_from_bytes s = Some sig ∧
      verify (keypair_public owner) (to_bytes (intent_hash i).1) sig = true.
Proof.
  accepted_run Hrun Hacc. vm_compute in Hrun. injection Hrun as <-.
  destruct (wallet_spending library_code (Dyn funded) (Dyn empty_diff) spending_tx _ owner
    owner_addr owner_wallet Hacc) as [Hsame|[(b & b' & Hb & Hb' & Hle & _)|Hsig]].
  - apply _.
  - vm_compute. reflexivity.
  - vm_compute. reflexivity.
  - exfalso. vm_compute in Hsame. discriminate Hsame.
  - exfalso. vm_compute in Hb, Hb'. injection Hb as <-. injection Hb' as <-. by apply Hle.
  - exact Hsig.
Defined.

(** The donation to the matching pool, as a node receives it: its wallet does not
    accept the signature. *)
Definition received_donation : Intent Basic := with_intent_cache pool_donation None.
Definition received_tx : Transaction Basic :=
  transaction_new (R := Basic) [received_donation] ∅.
Definition received_context : PredicateContext :=
  mkContext {[(intent_hash received_donation).1 := calldata received_donation]} ∅.


Lemma token_frozen_witness :
  ∃ d, run withdrawing_tx = Some d ∧ is_parent_of token_addr owner_addr = false.
Proof.
  accepted_run Hrun Hacc.
  destruct (token_frozen library_code (Dyn funded) (Dyn empty_diff) withdrawing_tx d owner
    token_account Hacc) as [_ Hno].
  - apply rmp_countable_laws.
  - vm_compute. reflexivity.
  - vm_compute. reflexivity.
  - apply (Hno owner). reflexivity.
Defined.

Lemma installed_bytecode_frozen_witness :
  ∃ d, run withdrawing_tx = Some d ∧
    (dyn_get (later (Dyn funded) d) stdpred_addr =
      Some (installed_account stdpred_addr library_code) ∨
     dyn_get (later (Dyn funded) d) stdpred_addr = None).
Proof.
  accepted_run Hrun Hacc.
  apply (installed_bytecode_frozen library_code (Dyn funded) (Dyn empty_diff) withdrawing_tx d
    stdpred_addr library_code (transaction_new (R := Basic) []
      {[stdpred_addr := CreateAccount (installed_account stdpred_addr library_code)]})
    (installed_account stdpred_addr library_code) Hacc).
  - apply rmp_countable_laws.
  - apply install_bytecode_eq.
  - apply lookup_singleton_eq.
  - reflexivity.
Defined.

(** The standard library itself is exchanged. *)
Lemma installed_bytecode_replaced_witness :
  ∃ d1 d2,
    execute (transaction_new (R := Basic) [] {[stdpred_addr := DeleteAccount]}) (Dyn funded)
      (Dyn empty_diff) = Some (Ok d1) ∧
    execute (transaction_new (R := Basic) [] {[stdpred_addr := CreateAccount (open_wallet 0)]})
      (later (Dyn funded) d1) (Dyn empty_diff) = Some (Ok d2) ∧
    dyn_get (later (later (Dyn funded) d1) d2) stdpred_addr = Some (open_wallet 0).
Proof.
  apply (installed_bytecode_replaced library_code (Dyn funded) (Dyn empty_diff) (Dyn empty_diff)
    stdpred_addr library_code (open_wallet 0)).
  - apply rmp_countable_laws.
  - apply (new_valid (str "/stdpred") stdpred_addr). reflexivity.
  - apply empty_cache_faithful.
  - reflexivity.
  - reflexivity.
  - intros a Ha Hp. exfalso.
    destruct (elem_of_ancestors stdpred_addr) as (l & Hl & Hin);
      [apply (new_valid (str "/stdpred") stdpred_addr); reflexivity|].
    vm_compute in Hl. injection Hl as <-. apply (elem_of_nil a), Hin. by split.
  - intros entry Hentry. unfold completes. rewrite library_run.
    destruct Hentry as [->| ->]; reflexivity.
Defined.
