(* ===== verification/Campaign.v ===== *)
(** The client's [main]: [sdk/examples/pgqf/src/client.rs].

    [main] is modelled as the list of what it sends and waits for, in order, and how
    it ends; each of the sends runs as in [Client].  The keys that are generated and
    the hashes of the most recent blocks, which are asked for one after the other, are
    inputs, as are the three files of bytecode. *)
From S2P Require Import Prelude Address Predicate State Extern Chain Sandbox ChainProps Collect.
From S2P Require Import Execution ExecutionProps Stdpred Library Query Pgqf PgqfProps PgqfExamples.

Section main.
Context `{!MultihashCrate, !Bs58Crate, !RmpU64, !Rmp bool, !Rmp rstring, !Rmp Address,
  !Rmp Campaign, !Rmp Donation, !Rmp ByteArray, !Rmp Multihash, !Rmp (PredicateTree Basic),
  !Ed25519, !Ed25519Signing}.

(** One send with its wait, and how a run ends: [?], or a panic. *)
Inductive Act := SendTransaction (tx : Transaction Basic) | SendIntents (l : list (Intent Basic)).
Inductive Ending := Panicked | Failed (e : AddressError).
Definition Script : Type := list Act * Ending.

Definition perform (a : Act) (k : Script) : Script := (a :: k.1, k.2).
Definition or_fail {A} (r : Result A AddressError) (k : A → Script) : Script :=
  match r with Ok x => k x | Err e => ([], Failed e) end.
Definition or_panic {A} (o : option A) (k : A → Script) : Script :=
  match o with Some x => k x | None => ([], Panicked) end.

Context (prof : Profile) (generate : nat → Keypair) (recent : nat → Multihash).
Context (stdpred_wasm token_wasm pgqf_wasm : bytes).

(** [prepare_wallets_and_token_program]: the last key is that of the mint. *)
Definition prepare_wallets_and_token_program (count : nat)
    (k : list (Keypair * Address) → Script) : Script :=
  or_panic (prepared_wallets (generate <$> seq 0 count)) (λ wallets,
  or_panic (wallets_transaction wallets) (λ tx,
  perform (SendTransaction tx) (
  or_panic (token_transaction prof (Z.of_nat count) (generate count)) (λ t,
  perform (SendTransaction t.2) (
  or_fail (from_str (str "/token")) (λ token,
  or_fail (install_bytecode token token_wasm) (λ tx,
  perform (SendTransaction tx) (k wallets)))))))).

(** [main] from the first donation to the matching pool on; [await_block_height] is
    [todo!()]. *)
Definition main_pool (wallets : list Keypair) (treasury : Address) : Script :=
  or_panic (wallets !! 0) (λ w0,
  or_fail (create_donation_to_matching_pool_intents 1200 w0 treasury (recent 5)) (λ d,
  perform (SendIntents [d]) (
  or_panic (wallets !! 1) (λ w1,
  or_fail (create_donation_to_matching_pool_intents 1800 w1 treasury (recent 6)) (λ d1,
  or_panic (wallets !! 2) (λ w2,
  or_fail (create_donation_to_matching_pool_intents 1200 w2 treasury (recent 7)) (λ d2,
  perform (SendIntents [d1; d2]) ([], Panicked)))))))).

(** [main] from the first project on. *)
Definition main_projects (k : Script) : Script :=
  or_fail (create_project_intents (str "project1") (recent 1)) (λ p1,
  perform (SendIntents [p1]) (
  or_fail (create_project_intents (str "project2") (recent 2)) (λ p2,
  or_fail (create_project_intents (str "project3") (recent 3)) (λ p3,
  or_fail (create_project_intents (str "project4") (recent 4)) (λ p4,
  perform (SendIntents [p2; p3; p4]) k))))).

(** [main], once the first block was seen; the campaign starts ten blocks later and
    takes a hundred. *)
Definition main (recent_height : Z) : Script :=
  or_panic (u64_add prof recent_height 10) (λ campaign_start,
  or_panic (u64_add prof campaign_start 100) (λ campaign_end,
  or_fail (from_str (str "/stdpred")) (λ stdpred,
  or_fail (install_bytecode stdpred stdpred_wasm) (λ tx,
  perform (SendTransaction tx) (
  prepare_wallets_and_token_program 10 (λ wallets,
  or_fail (from_str (str "/pgqf")) (λ pgqf,
  or_fail (install_bytecode pgqf pgqf_wasm) (λ tx,
  perform (SendTransaction tx) (
  or_fail (from_str (str "/token/usdc/spring-2023.eth")) (λ treasury_address,
  or_fail (create_treasury treasury_address) (λ tx,
  perform (SendTransaction tx) (
  or_fail (from_str (str "/token/usdc/spring-2023.eth")) (λ treasury,
  or_fail (create_campaign_transaction campaign_start campaign_end treasury (recent 0)) (λ tx,
  perform (SendTransaction tx) (
  main_projects (main_pool wallets.*1 treasury_address)))))))))))))))).
End main.

(** ** How far the client gets *)

Section run.
Context `{!MultihashCrate, !Bs58Crate, !RmpU64, !Rmp bool, !Rmp rstring, !Rmp Address,
  !Rmp Campaign, !Rmp Donation, !Rmp ByteArray, !Rmp Multihash, !Rmp (PredicateTree Basic),
  !Ed25519, !Ed25519Signing, !Bs58Laws}.
Context (prof : Profile) (generate : nat → Keypair) (recent : nat → Multihash).
Context (stdpred_wasm token_wasm pgqf_wasm : bytes).
(** A public key has bytes. *)
Context (key_bytes : ∀ kp : Keypair, public_key_as_bytes (keypair_public kp) ≠ []).

Definition wallet_addr (kp : Keypair) : Address := mkAddress (str "/token/usdc/" ++ calldata_key kp).

Lemma wallet_addr_valid kp : valid (wallet_addr kp).
Proof.
  exists [str "token"; str "usdc"; calldata_key kp]. split.
  - split; [done|]. repeat constructor; try done.
    + by apply bs58_nonempty.
    + eapply Forall_impl; [apply bs58_alphabet|]. intros x. apply seg_char_alnum.
  - unfold join. simpl. by rewrite app_nil_r.
Qed.

Lemma wallet_of_ok kp : wallet_of kp = Ok (wallet_addr kp).
Proof. apply (valid_new _ (wallet_addr_valid kp)). Qed.

Lemma prepared_wallets_ok keys :
  prepared_wallets keys = Some ((λ kp, (kp, wallet_addr kp)) <$> keys).
Proof.
  unfold prepared_wallets. induction keys as [|kp keys IH]; [done|]. cbn [mapM mbind option_bind].
  pose proof (wallet_of_ok kp) as Hw. unfold wallet_of, from_str in Hw. rewrite Hw.
  cbn [result_ok mbind option_bind]. by rewrite IH.
Qed.

Lemma wallets_transaction_ok wallets : ∃ tx, wallets_transaction wallets = Some tx.
Proof.
  assert (is_Some (mapM wallet_change wallets)) as [l Hl].
  { induction wallets as [|w ws [l IH]]; [by eexists|]. cbn [mapM]. rewrite IH. by eexists. }
  unfold wallets_transaction. change (rAccountChange Basic) with AccountChange. rewrite Hl. by eexists.
Qed.

Lemma u64_add_fits x y :
  prof = Release ∨ (x + y ≤ u64_max)%Z →
  ∃ z, u64_add prof x y = Some z ∧ (prof = Release ∨ z = (x + y)%Z).
Proof.
  unfold u64_add. destruct (Z.leb_spec (x + y) u64_max) as [|Hlt]; [intros _; eexists; by auto|].
  intros [->|]; [eexists; by auto|lia].
Qed.

Lemma projects_built k : ∃ p1 p2 p3 p4,
  main_projects recent k = (SendIntents [p1] :: SendIntents [p2; p3; p4] :: k.1, k.2) ∧
  Forall (λ i, try_match_and_fill_intent i = Some NotRecognised) [p1; p2; p3; p4].
Proof.
  assert (∀ name bh project, from_str (str "/pgqf/spring-2023/" ++ name) = Ok project →
    ∃ i, create_project_intents name bh = Ok i) as Hok.
  { intros name bh project Hp. unfold create_project_intents. rewrite stdpred_parses, Hp. by eexists. }
  destruct (Hok (str "project1") (recent 1) _ eq_refl) as [p1 H1'].
  destruct (Hok (str "project2") (recent 2) _ eq_refl) as [p2 H2'].
  destruct (Hok (str "project3") (recent 3) _ eq_refl) as [p3 H3'].
  destruct (Hok (str "project4") (recent 4) _ eq_refl) as [p4 H4'].
  exists p1, p2, p3, p4. unfold main_projects. rewrite H1', H2', H3', H4'. split; [done|].
  by repeat constructor; eapply project_not_recognised.
Qed.

Lemma pool_built wallets w0 w1 w2 treasury :
  wallets !! 0 = Some w0 → wallets !! 1 = Some w1 → wallets !! 2 = Some w2 →
  ∃ d0 d1 d2, main_pool recent wallets treasury = ([SendIntents [d0]; SendIntents [d1; d2]], Panicked) ∧
    Forall (λ i, ∃ m, try_match_and_fill_intent i = Some (PoolDonation m)) [d0; d1; d2].
Proof.
  intros H0' H1' H2'.
  assert (∀ amount kp bh, ∃ i, create_donation_to_matching_pool_intents amount kp treasury bh = Ok i)
    as Hok.
  { intros amount kp bh. unfold create_donation_to_matching_pool_intents. rewrite wallet_of_ok.
    cbn [result_bind]. unfold pool_donation_tree. rewrite stdpred_parses. by eexists. }
  destruct (Hok 1200%Z w0 (recent 5)) as [d0 E0], (Hok 1800%Z w1 (recent 6)) as [d1 E1],
    (Hok 1200%Z w2 (recent 7)) as [d2 E2].
  exists d0, d1, d2. unfold main_pool. rewrite H0', H1', H2'. cbn [or_panic]. rewrite E0, E1, E2.
  split; [done|]. apply pool_recognised in E0 as (? & _ & E0), E1 as (? & _ & E1), E2 as (? & _ & E2).
  repeat constructor; by eexists.
Qed.

Lemma token_transaction_ok kp : ∃ t, token_transaction prof 10 kp = Some t.
Proof.
  unfold token_transaction. assert (u64_mul prof 10 10000 = Some 100000%Z) as -> by by vm_compute.
  by eexists.
Qed.

Lemma treasury_ok wallet : ∃ tx, create_treasury wallet = Ok tx.
Proof. by eexists. Qed.

Lemma campaign_ok start end_ treasury bh : ∃ tx, create_campaign_transaction start end_ treasury bh = Ok tx.
Proof. by eexists. Qed.

(** The transactions of [main], once the heights are known. *)
Lemma main_transactions height start end_ :
  u64_add prof height 10 = Some start → u64_add prof start 100 = Some end_ →
  ∃ txs, length txs = 7 ∧ main prof generate recent stdpred_wasm token_wasm pgqf_wasm height =
    let k := main_projects recent (main_pool recent (generate <$> seq 0 10) treasury_addr) in
    ((SendTransaction <$> txs) ++ k.1, k.2).
Proof.
  intros Hs He.
  destruct (wallets_transaction_ok ((λ kp, (kp, wallet_addr kp)) <$> (generate <$> seq 0 10))) as [wtx Hw].
  destruct (token_transaction_ok (generate 10)) as [ttx Ht].
  destruct (treasury_ok treasury_addr) as [rtx Hr].
  destruct (campaign_ok start end_ treasury_addr (recent 0)) as [ctx Hc].
  assert (from_str (str "/token") = Ok (mkAddress (str "/token"))) as Hp1 by done.
  assert (from_str (str "/pgqf") = Ok (mkAddress (str "/pgqf"))) as Hp2 by done.
  assert (from_str (str "/token/usdc/spring-2023.eth") = Ok treasury_addr) as Hp3 by done.
  unfold main, prepare_wallets_and_token_program. rewrite Hs. cbn [or_panic]. rewrite He. cbn [or_panic].
  rewrite prepared_wallets_ok, stdpred_parses, Hp1, Hp2, Hp3. cbn [or_panic or_fail].
  rewrite Hw, !install_bytecode_eq. cbn [or_panic or_fail]. change (Z.of_nat 10) with 10%Z.
  rewrite Ht, Hr. cbn [or_panic or_fail]. rewrite Hc. cbn [or_fail].
  eexists [_; wtx; ttx.2; _; _; rtx; ctx]. split; [done|]. cbn zeta.
  rewrite <-list_fmap_compose, list_fmap_id. reflexivity.
Qed.

(** How far the client gets.  If the heights fit, [main] sends seven transactions, the
    intents for four projects, which the solver does not recognise, and three donations
    to the matching pool, which it does - and then panics, whatever the keys, the blocks
    and the bytecode: no donation to a project is ever sent. *)
Theorem main_never_donates height :
  prof = Release ∨ (height + 110 ≤ u64_max)%Z →
  ∃ txs ps ds, main prof generate recent stdpred_wasm token_wasm pgqf_wasm height =
    ((SendTransaction <$> txs) ++ (SendIntents <$> ps) ++ (SendIntents <$> ds), Panicked) ∧
  length txs = 7 ∧ length (mjoin ps) = 4 ∧ length (mjoin ds) = 3 ∧
  Forall (λ i, try_match_and_fill_intent i = Some NotRecognised) (mjoin ps) ∧
  Forall (λ i, ∃ m, try_match_and_fill_intent i = Some (PoolDonation m)) (mjoin ds).
Proof.
  intros Hh. destruct (u64_add_fits height 10) as (start & Hs & Hs'); [destruct Hh; auto; right; lia|].
  destruct (u64_add_fits start 100) as (end_ & He & _).
  { destruct Hh as [|Hh]; [by left|]. destruct Hs' as [| ->]; [by left|right; lia]. }
  destruct (main_transactions height start end_ Hs He) as (txs & Hlen & ->).
  destruct (pool_built (generate <$> seq 0 10) (generate 0) (generate 1) (generate 2) treasury_addr)
    as (d0 & d1 & d2 & -> & Hds); [done..|].
  destruct (projects_built ([SendIntents [d0]; SendIntents [d1; d2]], Panicked)) as
    (p1 & p2 & p3 & p4 & -> & Hps).
  by exists txs, [[p1]; [p2; p3; p4]], [[d0]; [d1; d2]].
Qed.
End run.

(** ** On the chain of the examples *)

#[local] Existing Instance library_rmp_context.
#[local] Existing Instance library_wasmer.
#[local] Instance campaign_order : HashOrder Address := map_order Address.
#[local] Instance campaign_schedule : Rayon := sequential.

(** Keys are letters, and the bytecode of token and campaign is not the library's. *)
Definition letter (i : nat) : Keypair := default Byte.x61 (Byte.of_N (97 + N.of_nat i)).
Definition example_hash (_ : nat) : Multihash := bstr "bh".
Definition example_main : Script :=
  main Release letter example_hash library_code (bstr "token") (bstr "pgqf") 5.

Lemma main_never_donates_witness :
  ∃ ps ds, example_main.1 = take 7 example_main.1 ++ (SendIntents <$> ps) ++ (SendIntents <$> ds) ∧
    length (mjoin ps) = 4 ∧ length (mjoin ds) = 3 ∧ example_main.2 = Panicked.
Proof.
  destruct (main_never_donates Release letter example_hash library_code (bstr "token") (bstr "pgqf"))
    with (height := 5%Z) as (txs & ps & ds & Heq & Hlen & Hps & Hds & _).
  - intros kp. discriminate.
  - left. reflexivity.
  - exists ps, ds. unfold example_main. rewrite Heq. cbn [fst snd].
    split; [|split; [exact Hps|split; [exact Hds|reflexivity]]].
    rewrite take_app_length'; [reflexivity|]. rewrite length_fmap. symmetry. exact Hlen.
Defined.
