(* ===== verification/Guest.v ===== *)
(** What runs inside WebAssembly: [sdk/predicates/src/builtins.rs] and the entry points
    that the attribute of [sdk/predicates/derive/src/lib.rs] makes.

    The host ([Execution.run_module]) asks the module for memory, writes an encoded object
    into it, and has the module decode it; then it calls the entry point with two pointers.
    Here is the other side: a linear memory whose bytes are known where the host wrote
    them, the allocator of the module, and the decoded objects, each in a region of its
    own.  Together they implement [Wasmer] for a table of predicates, and every library
    that is built with the SDK is such a table.

    The allocator ([wee_alloc]) is third-party code; [AllocatorLaws] says that regions
    that are in use are apart from each other and lie within the memory.  What an object
    takes up, with all that hangs off it, counts as one region. *)
From S2P Require Import Prelude Address Predicate State Extern Chain Sandbox Collect.
From S2P Require Import Execution ExecutionProps Stdpred Library Token.

(** A region: where it starts, and its length. *)
Notation Region := (Z * Z)%type.
Definition apart (r1 r2 : Region) : Prop := (r1.1 + r1.2 ≤ r2.1 ∨ r2.1 + r2.2 ≤ r1.1)%Z.
Definition inside (x : Z) (r : Region) : Prop := (r.1 ≤ x < r.1 + r.2)%Z.
#[global] Instance inside_dec x r : Decision (inside x r).
Proof. unfold inside. apply _. Defined.
#[global] Instance apart_dec r1 r2 : Decision (apart r1 r2).
Proof. unfold apart. apply _. Defined.

(** [wee_alloc::WeeAlloc]: what it knows, and the size of the memory that it grows. *)
Class Allocator := {
  Heap : Type;
  heap_new : Heap;
  alloc : Heap → Z → option (Z * Heap);
  dealloc : Heap → Region → Heap;
  in_use : Heap → list Region;
  memory_size : Heap → Z;
}.
Class AllocatorLaws `{!Allocator} := {
  in_use_new : in_use heap_new = [];
  memory_size_new : memory_size heap_new = (32 * 65536)%Z;
  alloc_fresh : ∀ h n p h', (0 < n)%Z → alloc h n = Some (p, h') →
    in_use h' ≡ₚ (p, n) :: in_use h ∧ Forall (apart (p, n)) (in_use h) ∧
    (0 < p)%Z ∧ (p + n ≤ memory_size h' ≤ 2 ^ 32)%Z ∧ (memory_size h ≤ memory_size h')%Z;
  dealloc_gone : ∀ h r l, in_use h ≡ₚ r :: l →
    in_use (dealloc h r) ≡ₚ l ∧ memory_size (dealloc h r) = memory_size h;
}.

(** What the builtins decode. *)
Inductive Object `{!MultihashCrate} :=
| ObjContext (c : PredicateContext)
| ObjParams (ps : list ExpandedParam).

(** Why a call ends without a result. *)
Inductive Trap := OutOfMemory | OutOfBounds | Panic.

Section guest.
Context `{!MultihashCrate, !Rmp PredicateContext, !Rmp (list ExpandedParam), !Allocator}.
(** The bytes that an object takes up. *)
Context (footprint : Object → Z).

(** The state of an instance. *)
Record Guest := mkGuest {
  heap : Heap;
  bytes_at : gmap Z Byte.byte;
  objects : gmap Z Object;
}.
Definition guest_new : Guest := mkGuest heap_new ∅ ∅.

(** Bytes are written into memory: an object that was there is destroyed. *)
Definition put_bytes (p : Z) (data : bytes) (g : Guest) : Guest :=
  mkGuest (heap g) (map_seqZ p data ∪ bytes_at g)
    (filter (λ o, apart (o.1, footprint o.2) (p, Z.of_nat (length data))) (objects g)).
(** [MemoryView::write]: within the memory only. *)
Definition view_write_guest (g : Guest) (p : Z) (data : bytes) : Result Guest Trap :=
  if bool_decide (0 ≤ p ∧ p + Z.of_nat (length data) ≤ memory_size (heap g))%Z then Ok (put_bytes p data g)
  else Err OutOfBounds.

(** The bytes of a region, if all are known. *)
Fixpoint read_from (m : gmap Z Byte.byte) (p : Z) (n : nat) : option bytes :=
  match n with
  | 0 => Some []
  | S n => x ← m !! p; l ← read_from m (Z.succ p) n; Some (x :: l)
  end.
Definition read_bytes (g : Guest) (p len : Z) : option bytes := read_from (bytes_at g) p (Z.to_nat len).

(** [allocate]: a vector without capacity has a pointer of its own, and no region. *)
Definition allocate (g : Guest) (size : Z) : Result (Z * Guest) Trap :=
  if (size =? 0)%Z then Ok (1%Z, g)
  else match alloc (heap g) size with
       | Some (p, h) => Ok (p, mkGuest h (bytes_at g) (objects g))
       | None => Err OutOfMemory
       end.

(** [Box::leak(Box::new(_))]: the region of an object is no longer known by its bytes. *)
Definition leak (g : Guest) (o : Object) : Result (Z * Guest) Trap :=
  match alloc (heap g) (footprint o) with
  | Some (p, h) =>
      Ok (p, mkGuest h (filter (λ b, ¬ inside b.1 (p, footprint o)) (bytes_at g))
               (<[p := o]> (objects g)))
  | None => Err OutOfMemory
  end.

(** [drop] of [Vec::from_raw_parts(ptr, len, len)] *)
Definition drop_bytes (g : Guest) (ptr len : Z) : Guest :=
  if (len =? 0)%Z then g else mkGuest (dealloc (heap g) (ptr, len)) (bytes_at g) (objects g).

(** [ingest_context] and [ingest_params]: decode, leak the object, drop the bytes. *)
Definition ingest (decode : bytes → option Object) (g : Guest) (ptr len : Z) : Result (Z * Guest) Trap :=
  match read_bytes g ptr len ≫= decode with
  | None => Err Panic
  | Some o =>
      let? r := leak g o in
      Ok (r.1, drop_bytes r.2 ptr len)
  end.
Definition ingest_context : Guest → Z → Z → Result (Z * Guest) Trap :=
  ingest (λ b, ObjContext <$> from_slice b).
Definition ingest_params : Guest → Z → Z → Result (Z * Guest) Trap :=
  ingest (λ b, ObjParams <$> from_slice b).

(** A predicate under [#[no_mangle] extern]: its references are the pointers. *)
Definition call_entry (f : Entry) (g : Guest) (params_ptr context_ptr : Z) : Result (Z * Guest) Trap :=
  match objects g !! params_ptr, objects g !! context_ptr with
  | Some (ObjParams ps), Some (ObjContext c) =>
      match f ps c with
      | Some b => Ok ((if b then 1 else 0)%Z, g)
      | None => Err Panic
      end
  | _, _ => Err Panic
  end.

(** The names that the builtins export. *)
Definition reserved_names : list rstring :=
  [str "__allocate"; str "__ingest_params"; str "__ingest_context"].

(** [Exports::get_typed_function]: the function of a name, if it has the type. *)
Definition typed_export (exports : list (rstring * Entry)) (ty : FnType) (name : rstring) :
    Result rstring unit :=
  if bool_decide (name = str "__allocate") then
    match ty with AllocateFn => Ok name | _ => Err tt end
  else if bool_decide (name ∈ reserved_names) || bool_decide (is_Some (export_of name exports)) then
    match ty with AllocateFn => Err tt | _ => Ok name end
  else Err tt.

(** A call from the host. *)
Definition guest_call (exports : list (rstring * Entry)) (g : Guest) (name : rstring) (args : list Z) :
    Result (Z * Guest) Trap :=
  match args with
  | [size] => if bool_decide (name = str "__allocate") then allocate g size else Err Panic
  | [x; y] =>
      if bool_decide (name = str "__ingest_context") then ingest_context g x y
      else if bool_decide (name = str "__ingest_params") then ingest_params g x y
      else match export_of name exports with Some f => call_entry f g x y | None => Err Panic end
  | _ => Err Panic
  end.

(** The virtual machine: what a module is compiled to, and what a cached one loads as;
    a module links when the host has its memory and the host function. *)
Context (compile deserialize : bytes → option (list (rstring * Entry))).
Definition guest_wasmer : Wasmer := {|
  WStore := Guest; WModule := list (rstring * Entry); WMemory := unit; WEnv := unit; WExtern := unit;
  WInstance := list (rstring * Entry); WFunction := list (rstring * Entry) * rstring;
  MemoryError := unit; CompileError := unit; InstantiationError := unit; ExportError := unit;
  RuntimeError := Trap; MemoryAccessError := Trap; EncodeError := unit;
  store_new := guest_new;
  module_deserialize _ b := deserialize b;
  module_from_binary _ b := ok_or (compile b) tt;
  memory_new g _ := Ok (tt, g);
  function_env_new g _ := (tt, g);
  memory_extern _ := tt;
  host_function g _ := (tt, g);
  instance_new g m imports :=
    if bool_decide ((str "env", str "memory") ∈ imports.*1 ∧
                    (str "env", str "syscall_debug_log") ∈ imports.*1) then Ok (m, g) else Err tt;
  get_typed_function g i ty name := result_map (pair i) (typed_export i ty name);
  fn_call g f args := guest_call f.1 g f.2 args;
  view_write g _ p data := view_write_guest g p data;
  runtime_of_access e := e;
|}.

(** What a run of a predicate is to answer. *)
Definition answer (m : list (rstring * Entry)) (ctx : PredicateContext) (p : ExpandedPredicate) :
    Result bool (ExecError (H1 := guest_wasmer)) :=
  let entry := ec_entrypoint (code p) in
  if bool_decide (entry = str "__allocate") then Err (Export (tt : @ExportError guest_wasmer))
  else if bool_decide (entry ∈ reserved_names) then Err (Execution (Panic : @RuntimeError guest_wasmer))
  else match export_of entry m with
       | None => Err (Export (tt : @ExportError guest_wasmer))
       | Some f =>
           match f (params p) ctx with
           | Some b => Ok b
           | None => Err (Execution (Panic : @RuntimeError guest_wasmer))
           end
       end.
End guest.

(** ** The host and the module understand each other *)

Section properties.
Context `{!MultihashCrate, !Rmp PredicateContext, !Rmp (list ExpandedParam), !RmpLaws PredicateContext,
  !RmpLaws (list ExpandedParam), !Allocator, !AllocatorLaws}.
Context (footprint : Object → Z) (footprint_pos : ∀ o, (0 < footprint o)%Z).
Context (compile deserialize : bytes → option (list (rstring * Entry))).
Implicit Types (g : Guest) (o : Object).

Local Notation put := (put_bytes footprint).

(** What was written is read. *)
Lemma read_from_seqZ (m : gmap Z Byte.byte) p data : map_seqZ p data ⊆ m → read_from m p (length data) = Some data.
Proof.
  revert p. induction data as [|x data IH]; intros p Hm; [done|]. cbn [length read_from].
  assert (m !! p = Some x) as ->.
  { eapply lookup_weaken; [|exact Hm]. simpl. apply lookup_insert_eq. }
  simpl. rewrite IH; [done|]. etrans; [|exact Hm]. simpl. apply insert_subseteq.
  apply lookup_map_seqZ_None. lia.
Qed.

Lemma read_put p data g : read_bytes (put p data g) p (Z.of_nat (length data)) = Some data.
Proof. unfold read_bytes. rewrite Nat2Z.id. apply read_from_seqZ. simpl. apply map_union_subseteq_l. Qed.

(** Bytes that are not known cannot be read. *)
Lemma read_unknown g p len : (0 < len)%Z → bytes_at g !! p = None → read_bytes g p len = None.
Proof.
  intros Hl Hp. unfold read_bytes. destruct (Z.to_nat len) as [|n] eqn:Hn; [lia|]. simpl. by rewrite Hp.
Qed.

(** The objects have regions of their own, and the memory has an end. *)
Definition guest_ok g : Prop :=
  (∀ p o, objects g !! p = Some o → (p, footprint o) ∈ in_use (heap g) ∧ (0 < p)%Z ∧ bytes_at g !! p = None) ∧
  (memory_size (heap g) ≤ 2 ^ 32)%Z.

Lemma guest_new_ok : guest_ok guest_new.
Proof. split; [done|]. simpl. rewrite memory_size_new. lia. Qed.

(** Writing where no object is. *)
Lemma put_ok p data g :
  guest_ok g → (∀ q o, objects g !! q = Some o → apart (q, footprint o) (p, Z.of_nat (length data))) →
  objects (put p data g) = objects g ∧
  ∀ q o, objects g !! q = Some o → bytes_at (put p data g) !! q = None.
Proof.
  intros [Hok _] Hap. split.
  - simpl. apply map_filter_id. intros q o Hq. by apply Hap.
  - intros q o Hq. simpl. apply lookup_union_None. split; [|by apply (Hok q o)].
    apply lookup_map_seqZ_None. specialize (Hap q o Hq). specialize (footprint_pos o).
    unfold apart in Hap. simpl in Hap. lia.
Qed.

(** The two ways to get memory: a region that is apart from all objects. *)
Lemma alloc_ok g n p h :
  guest_ok g → (0 < n)%Z → alloc (heap g) n = Some (p, h) →
  in_use h ≡ₚ (p, n) :: in_use (heap g) ∧ (0 < p)%Z ∧ (p + n ≤ memory_size h ≤ 2 ^ 32)%Z ∧
  ∀ q o, objects g !! q = Some o → apart (q, footprint o) (p, n).
Proof.
  intros [Hok _] Hn Ha. destruct (alloc_fresh _ _ _ _ Hn Ha) as (Hu & Hap & Hp & Hm & _).
  split; [done|]. split; [done|]. split; [done|]. intros q o Hq.
  rewrite Forall_forall in Hap. specialize (Hap _ (proj1 (Hok q o Hq))). unfold apart in *. simpl in *. lia.
Qed.

(** An object joins the others. *)
Lemma leak_ok g o :
  guest_ok g →
  match leak footprint g o with
  | Ok (p, g') => guest_ok g' ∧ objects g !! p = None ∧ objects g' = <[p := o]> (objects g) ∧
      in_use (heap g') ≡ₚ (p, footprint o) :: in_use (heap g)
  | Err e => e = OutOfMemory
  end.
Proof.
  intros Hok. unfold leak. destruct (alloc (heap g) (footprint o)) as [[p h]|] eqn:Ha; [|done].
  destruct (alloc_ok g _ p h Hok (footprint_pos o) Ha) as (Hu & Hp & Hm & Hap).
  assert (objects g !! p = None) as Hnone.
  { destruct (objects g !! p) as [o'|] eqn:Ho; [|done]. specialize (Hap p o' Ho).
    pose proof (footprint_pos o). pose proof (footprint_pos o'). unfold apart in Hap. simpl in Hap. lia. }
  split; [|done]. split; [|simpl; lia]. intros q o'. simpl. rewrite lookup_insert_Some.
  intros [[<- <-]|[Hne Hq]].
  - split; [rewrite Hu; by left|]. split; [done|].
    apply map_lookup_filter_None. right. intros b _ Hb. apply Hb. specialize (footprint_pos o). unfold inside.
    simpl. lia.
  - destruct (proj1 Hok q o' Hq) as (Hin & Hq0 & Hb). split; [rewrite Hu; by right|]. split; [done|].
    apply map_lookup_filter_None. by left.
Qed.

Local Notation machine := (guest_wasmer footprint compile deserialize).

(** Decoding what was delivered into a region of its own, or into none if it is empty. *)
Lemma ingest_ok decode g p data o l :
  guest_ok g → read_bytes g p (Z.of_nat (length data)) = Some data → decode data = Some o →
  (data = [] ∧ l = in_use (heap g) ∨ data ≠ [] ∧ in_use (heap g) ≡ₚ (p, Z.of_nat (length data)) :: l) →
  (∀ q o', objects g !! q = Some o' → (q, footprint o') ∈ l) →
  match ingest footprint decode g p (Z.of_nat (length data)) with
  | Ok (q, g') => guest_ok g' ∧ objects g !! q = None ∧ objects g' = <[q := o]> (objects g)
  | Err e => e = OutOfMemory
  end.
Proof.
  intros Hok Hr Hd Hl Hin. unfold ingest. rewrite Hr. cbn [mbind option_bind]. rewrite Hd.
  pose proof (leak_ok g o Hok) as Hlk. destruct (leak footprint g o) as [[q g1]|e]; [|done].
  destruct Hlk as ([Hok1 Hm1] & Hnone & Hobj & Hu1). cbn [result_bind fst snd]. unfold drop_bytes.
  destruct Hl as [[-> ->]|[Hne Hperm]]; [by simpl|].
  assert ((Z.of_nat (length data) =? 0)%Z = false) as ->.
  { apply Z.eqb_neq. destruct data; [done|]. simpl. lia. }
  assert (in_use (heap g1) ≡ₚ (p, Z.of_nat (length data)) :: (q, footprint o) :: l) as Hu2.
  { rewrite Hu1, Hperm. apply Permutation_swap. }
  destruct (dealloc_gone _ _ _ Hu2) as [Hu3 Hm3]. split; [|done]. split; [|simpl; lia].
  intros q' o' Hq. simpl in Hq |- *. destruct (Hok1 q' o' Hq) as (_ & Hpos & Hb). split; [|done].
  rewrite Hu3. rewrite Hobj in Hq. apply lookup_insert_Some in Hq as [[<- <-]|[_ Hq]]; [by left|].
  right. by apply Hin.
Qed.

(** What the host writes there is decoded. *)
Lemma written_ok decode g p data o l :
  guest_ok g → decode data = Some o →
  (data = [] ∧ l = in_use (heap g) ∨ data ≠ [] ∧ in_use (heap g) ≡ₚ (p, Z.of_nat (length data)) :: l) →
  (∀ q o', objects g !! q = Some o' → (q, footprint o') ∈ l ∧ apart (q, footprint o') (p, Z.of_nat (length data))) →
  match (let? g := view_write_guest footprint g p data in
         ingest footprint decode g p (Z.of_nat (length data))) with
  | Ok (q, g') => guest_ok g' ∧ objects g !! q = None ∧ objects g' = <[q := o]> (objects g)
  | Err e => e ≠ Panic
  end.
Proof.
  intros Hok Hd Hl Hobjs. unfold view_write_guest. case_bool_decide as Hw; [|done]. cbn [result_bind].
  destruct (put_ok p data g Hok) as [Hobj Hb]; [intros q o' Hq; by apply Hobjs|].
  assert (guest_ok (put p data g)) as Hok1.
  { split; [|apply Hok]. intros q o' Hq. rewrite Hobj in Hq. destruct (proj1 Hok q o' Hq) as (Hin & Hpos & _).
    split; [done|]. split; [done|by eapply Hb]. }
  pose proof (ingest_ok decode (put p data g) p data o l Hok1 (read_put _ _ _) Hd Hl) as Hi.
  rewrite Hobj in Hi. destruct (ingest footprint decode _ _ _) as [[q g']|e].
  - apply Hi. intros q' o' Hq. by apply Hobjs.
  - intros ->. by specialize (Hi (λ q o' Hq, proj1 (Hobjs q o' Hq))).
Qed.

(** [deliver_data]: the object is there, unless the memory is not. *)
Lemma deliver_ok exports name decode g data o :
  (∀ g x y, guest_call footprint exports g name [x; y] = ingest footprint decode g x y) →
  guest_ok g → decode data = Some o →
  match deliver_data (H1 := machine) tt (exports, str "__allocate") g data (exports, name) with
  | Ok (q, g') => guest_ok g' ∧ objects g !! q = None ∧ objects g' = <[q := o]> (objects g)
  | Err e => e ≠ Panic
  end.
Proof.
  intros Hcall Hok Hd. unfold deliver_data. cbn [fn_call view_write runtime_of_access guest_wasmer fst snd].
  set (n := (Z.of_nat (length data) mod 2 ^ 32)%Z).
  change (guest_call footprint exports g (str "__allocate") [n]) with (allocate g n).
  assert (Z.of_nat (length data) < 2 ^ 32 → n = Z.of_nat (length data))%Z as Hsmall by (intros; apply Z.mod_small; lia).
  assert (∀ g p, (1 ≤ p)%Z → (memory_size (heap g) ≤ 2 ^ 32)%Z → n ≠ Z.of_nat (length data) →
    view_write_guest footprint g p data = Err OutOfBounds) as Hbig.
  { intros g1 p Hp Hm Hne. unfold view_write_guest. rewrite bool_decide_false; [done|]. lia. }
  unfold allocate. destruct (Z.eqb_spec n 0) as [Hn|Hn]; cbn [result_bind fst snd].
  - destruct (decide (n = Z.of_nat (length data))) as [Hlen|Hne]; [|rewrite Hbig; [done|lia|apply Hok|done]].
    assert (data = []) as Hnil by (destruct data; [done|simpl in Hlen; lia]).
    pose proof (written_ok decode g 1 data o (in_use (heap g)) Hok Hd) as Hw.
    destruct (view_write_guest footprint g 1 data) as [g1|e]; cbn [map_err result_bind] in *.
    + rewrite Hcall, Hlen. apply Hw; [by left|]. intros q o' Hq. apply (proj1 Hok) in Hq as (Hin & Hpos & _).
      split; [done|]. rewrite Hnil. unfold apart. simpl. lia.
    + apply Hw; [by left|]. intros q o' Hq. apply (proj1 Hok) in Hq as (Hin & Hpos & _).
      split; [done|]. rewrite Hnil. unfold apart. simpl. lia.
  - assert (0 < n)%Z as Hpos by (pose proof (Z.mod_pos_bound (Z.of_nat (length data)) (2 ^ 32)); lia).
    destruct (alloc (heap g) n) as [[p h]|] eqn:Ha; [|done]. cbn [result_bind fst snd].
    destruct (alloc_ok g n p h Hok Hpos Ha) as (Hu & Hp & Hm & Hap).
    set (g1 := mkGuest h (bytes_at g) (objects g)).
    destruct (decide (n = Z.of_nat (length data))) as [Hlen|Hne]; [|rewrite Hbig; [done|lia|simpl; lia|done]].
    assert (guest_ok g1) as Hok1.
    { split; [|simpl; lia]. intros q o' Hq. destruct (proj1 Hok q o' Hq) as (Hin & Hb). split; [|done].
      simpl. rewrite Hu. by right. }
    pose proof (written_ok decode g1 p data o (in_use (heap g)) Hok1 Hd) as Hw.
    assert (data ≠ [] ∧ in_use h ≡ₚ (p, Z.of_nat (length data)) :: in_use (heap g)) as Hl.
    { split; [|by rewrite <-Hlen]. intros ->. by simpl in Hlen. }
    assert (∀ q o', objects g !! q = Some o' →
      (q, footprint o') ∈ in_use (heap g) ∧ apart (q, footprint o') (p, Z.of_nat (length data))) as Hobjs.
    { intros q o' Hq. split; [by apply (proj1 Hok)|]. rewrite <-Hlen. by apply Hap. }
    specialize (Hw (or_intror Hl) Hobjs).
    destruct (view_write_guest footprint g1 p data) as [g2|e]; cbn [map_err result_bind] in *; [|done].
    by rewrite Hcall, Hlen.
Qed.


(** A run that came as far as the call of the entry point. *)
Lemma guest_call_entry m g ctx ps name pp cp :
  guest_ok g → objects g !! pp = Some (ObjParams ps) → objects g !! cp = Some (ObjContext ctx) →
  name ≠ str "__allocate" →
  result_map fst (guest_call footprint m g name [pp; cp]) =
    if bool_decide (name ∈ reserved_names) then Err Panic
    else match export_of name m with
         | Some f => match f ps ctx with Some b => Ok (if b then 1 else 0)%Z | None => Err Panic end
         | None => Err Panic
         end.
Proof.
  intros Hok Hp Hc Hname. destruct (proj1 Hok _ _ Hp) as (_ & _ & Hb). destruct (proj1 Hok _ _ Hc) as (_ & Hpos & _).
  assert (∀ decode, ingest footprint decode g pp cp = Err Panic) as Hing.
  { intros decode. unfold ingest. by rewrite read_unknown. }
  unfold guest_call, ingest_context, ingest_params, reserved_names. rewrite !Hing. case_bool_decide as H1'.
  { rewrite bool_decide_true; [done|]. subst. set_solver. }
  case_bool_decide as H2'.
  { rewrite bool_decide_true; [done|]. subst. set_solver. }
  rewrite bool_decide_false by set_solver. destruct (export_of name m) as [f|]; [|done].
  unfold call_entry. rewrite Hp, Hc. by destruct (f ps ctx) as [[]|].
Qed.

(** A run of a predicate: the answer, unless the memory does not suffice. *)
Lemma guest_run m ctx p :
  let run := run_module (H1 := machine) guest_new m (to_vec ctx) p in
  run = Err (Execution (OutOfMemory : @RuntimeError machine)) ∨
  run = Err (Execution (OutOfBounds : @RuntimeError machine)) ∨
  run = answer footprint compile deserialize m ctx p.
Proof.
  set (entry := ec_entrypoint (code p)). intros run. subst run. unfold run_module, answer. fold entry.
  cbn [memory_new guest_wasmer map_err result_bind fst snd].
  unfold syscalls. cbn [function_env_new host_function instance_new get_typed_function guest_wasmer].
  rewrite bool_decide_true by (split; simpl; set_solver). cbn [map_err result_bind].
  change (typed_export m AllocateFn (str "__allocate")) with (Ok (E := unit) (str "__allocate")).
  change (typed_export m IngestFn (str "__ingest_context")) with (Ok (E := unit) (str "__ingest_context")).
  change (typed_export m IngestFn (str "__ingest_params")) with (Ok (E := unit) (str "__ingest_params")).
  cbn [result_map map_err result_bind]. unfold typed_export.
  case_bool_decide as Hall; [by auto|].
  destruct (bool_decide (entry ∈ reserved_names) || bool_decide (is_Some (export_of entry m))) eqn:Hex;
    cbn [result_map map_err result_bind]; cycle 1.
  { apply orb_false_iff in Hex as [-> Hex]. apply bool_decide_eq_false, eq_None_not_Some in Hex.
    rewrite Hex. by auto. }
  assert (ObjContext <$> from_slice (to_vec ctx) = Some (ObjContext ctx)) as Hctx by by rewrite from_slice_to_vec.
  assert (ObjParams <$> from_slice (to_vec (params p)) = Some (ObjParams (params p))) as Hps
    by by rewrite from_slice_to_vec.
  pose proof (deliver_ok m (str "__ingest_context") (λ b, ObjContext <$> from_slice b) guest_new (to_vec ctx)
    (ObjContext ctx) (λ _ _ _, eq_refl) guest_new_ok Hctx) as Hd1.
  match type of Hd1 with match ?x with _ => _ end => destruct x as [[cp g1]|e] end; cbn [map_err result_bind fst snd]; cycle 1.
  { destruct e; by auto. }
  destruct Hd1 as (Hok1 & _ & Hobj1).
  pose proof (deliver_ok m (str "__ingest_params") (λ b, ObjParams <$> from_slice b) g1 (to_vec (params p))
    (ObjParams (params p)) (λ _ _ _, eq_refl) Hok1 Hps) as Hd2.
  match type of Hd2 with match ?x with _ => _ end => destruct x as [[pp g2]|e] end; cbn [map_err result_bind fst snd]; cycle 1.
  { destruct e; by auto. }
  destruct Hd2 as (Hok2 & Hnone & Hobj2). cbn [fn_call guest_wasmer fst snd].
  pose proof (guest_call_entry m g2 ctx (params p) entry pp cp Hok2) as Hcall. rewrite Hobj2, Hobj1 in Hcall.
  rewrite Hobj1 in Hnone. apply lookup_insert_None in Hnone as [_ Hne].
  rewrite lookup_insert_eq, lookup_insert_ne, lookup_insert_eq in Hcall by done.
  specialize (Hcall eq_refl eq_refl Hall). right. right.
  destruct (bool_decide (entry ∈ reserved_names)); [|destruct (export_of entry m) as [f|]; [|done]];
    destruct (guest_call footprint m g2 entry [pp; cp]) as [[r g3]|e]; simpl in Hcall |- *;
    try (destruct (f (params p) ctx) as [[]|]); simplify_eq; done.
Qed.

Context `{!Bs58Crate, !MultihashLaws, !Bs58Laws}.

(** C7: the interface between host and predicates.  Whatever the allocator of the module
    does within its contract, and whether the module comes from the cache or is compiled,
    an invocation of a predicate of a module that is built with the SDK answers what
    the function of that name answers on the very parameters and context that the host
    encoded, and fails when the function panics or there is none.  Only when the memory
    does not suffice it fails otherwise, which includes data of 4 GiB and more, whose
    length is truncated.  The builtins themselves are no predicates. *)
Theorem sdk_invoke ctx p cache m :
  compile (ec_code (code p)) = Some m → cache_faithful (H1 := machine) (ec_code (code p)) cache →
  ∃ r, invoke (H1 := machine) (to_vec ctx) p cache = Some r ∧
    (r = Err (Execution (OutOfMemory : @RuntimeError machine)) ∨
     r = Err (Execution (OutOfBounds : @RuntimeError machine)) ∨
     r = answer footprint compile deserialize m ctx p).
Proof.
  intros Hm Hcache. unfold invoke. destruct (cachekey_ok (ec_code (code p))) as [Hkey _]. rewrite Hkey.
  eexists. split; [reflexivity|].
  assert (load_module (H1 := machine) guest_new cache (mkAddress (str "/predcache/" ++
    bs58_encode (to_bytes (sha3_256 (ec_code (code p)))))) (ec_code (code p)) = Ok m) as Hload.
  { unfold load_module. cbn [module_from_binary module_deserialize guest_wasmer]. rewrite Hm. simpl.
    destruct (dyn_get cache _) as [val|] eqn:Hval; [|done].
    destruct (deserialize (acc_state val)) as [m'|] eqn:Hd; [|done].
    pose proof (Hcache _ _ _ Hkey Hval Hd) as Hc. simpl in Hc. rewrite Hm in Hc. by injection Hc as ->. }
  cbn [store_new guest_wasmer]. rewrite Hload. apply guest_run.
Qed.
End properties.

(** ** The libraries of the program *)

(** [sdk/examples/pgqf/src/predicates.rs] *)
Section funding.
Context `{!MultihashCrate}.
Definition pgqf_campaign (params : list ExpandedParam) (context : PredicateContext) : option bool := Some true.
Definition pgqf_project (params : list ExpandedParam) (context : PredicateContext) : option bool := Some true.
Definition pgqf_donor (params : list ExpandedParam) (context : PredicateContext) : option bool := Some true.
Definition pgqf_treasury (params : list ExpandedParam) (context : PredicateContext) : option bool := Some true.
Definition pgqf_exports : list (rstring * Entry) := [
  (str "campaign", pgqf_campaign); (str "project", pgqf_project);
  (str "donor", pgqf_donor); (str "treasury", pgqf_treasury)].
End funding.

Section libraries.
Context `{!RmpU64, !Rmp bool, !Rmp Address, !Rmp (gmap bytes bytes), !Rmp (gset bytes),
  !MultihashCrate, !Ed25519, !Bs58Crate, !Rmp PublicKey, !Rmp PredicateContext, !Rmp (list ExpandedParam)}.

(** [sdk/predicates/examples/token.rs] *)
Definition token_exports (prof : Profile) : list (rstring * Entry) :=
  [(str "predicate", token_predicate prof)].

(** The standard library, built with the SDK, is what [Library] asks of it. *)
Context `{!RmpLaws PredicateContext, !RmpLaws (list ExpandedParam), !Allocator, !AllocatorLaws}.
Context (footprint : Object → Z) (footprint_pos : ∀ o, (0 < footprint o)%Z).
Context (compile deserialize : bytes → option (list (rstring * Entry))).

#[local] Instance guest_stdpred wasm (Hw : compile wasm = Some stdpred_exports) :
  @StdpredModule _ _ _ _ _ _ _ _ (guest_wasmer footprint compile deserialize) _ _ wasm.
Proof.
  refine {| stdpred_module := stdpred_exports : @WModule (guest_wasmer footprint compile deserialize) |}.
  - simpl. by rewrite Hw.
  - intros ctx p b Hrun.
    destruct (guest_run footprint footprint_pos compile deserialize stdpred_exports ctx p) as [Hr|[Hr|Hr]];
      pose proof (eq_trans (eq_sym Hrun) Hr) as He; [done..|].
    unfold answer in He. repeat case_bool_decide; [done..|]. unfold stdpred_call, stdpred_export.
    destruct (export_of (ec_entrypoint (code p)) stdpred_exports) as [f|]; [|done]. simpl.
    destruct (f (params p) ctx); congruence.
Defined.
End libraries.

(** ** A run inside the virtual machine *)

Fixpoint remove_one (r : Region) (l : list Region) : list Region :=
  match l with [] => [] | x :: l => if decide (x = r) then l else x :: remove_one r l end.
Lemma remove_one_perm r l : r ∈ l → l ≡ₚ r :: remove_one r l.
Proof.
  induction l as [|x l IH]; [by intros ?%elem_of_nil|]. intros Hin. simpl.
  destruct (decide (x = r)) as [->|Hne]; [done|].
  apply elem_of_cons in Hin as [->|Hin]; [done|]. rewrite (IH Hin) at 1. apply Permutation_swap.
Qed.

(** An allocator that never uses memory again. *)
Definition bump_alloc (h : Z * list Region) (n : Z) : option (Z * (Z * list Region)) :=
  if bool_decide (0 < h.1 ∧ h.1 + n ≤ 32 * 65536 ∧ Forall (apart (h.1, n)) h.2)%Z
  then Some (h.1, ((h.1 + n)%Z, (h.1, n) :: h.2)) else None.
#[local] Instance bump : Allocator := {|
  Heap := Z * list Region;
  heap_new := (1024%Z, []);
  alloc := bump_alloc;
  dealloc h r := (h.1, remove_one r h.2);
  in_use h := h.2;
  memory_size _ := (32 * 65536)%Z;
|}.

#[local] Instance bump_laws : AllocatorLaws.
Proof.
  split; [done|done| |].
  - intros h n p h' Hn. simpl. unfold bump_alloc. case_bool_decide as Hb; [|done].
    destruct Hb as (Hp & Hm & Hap). intros [= <- <-]. split; [done|]. split; [done|]. simpl. lia.
  - intros h r l Hl. split; [|done]. simpl in *. assert (r ∈ h.2) as Hin by (rewrite Hl; by left).
    apply remove_one_perm in Hin. rewrite Hl in Hin at 1. by apply Permutation_cons_inv in Hin.
Qed.

#[local] Existing Instance library_rmp_context.
#[local] Instance library_context_laws : RmpLaws PredicateContext.
Proof. split. apply library_context_decodes. Qed.
#[local] Instance guest_params_laws : RmpLaws (list ExpandedParam) := rmp_countable_laws (list ExpandedParam).

(** An object takes a hundred bytes; the module of the standard library is known. *)
Definition toy_footprint (_ : Object) : Z := 100%Z.
Definition toy_compile (b : bytes) : option (list (rstring * Entry)) :=
  if bool_decide (b = library_code) then Some stdpred_exports
  else if bool_decide (b = bstr "pgqf") then Some pgqf_exports else None.
Definition toy_deserialize (_ : bytes) : option (list (rstring * Entry)) := None.
Definition toy_machine : Wasmer := guest_wasmer toy_footprint toy_compile toy_deserialize.

Definition five_is_five : ExpandedPredicate :=
  mkPredicate (mkExpandedCode library_code (str "uint_equal"))
    [EInline (u64_to_vec 5); EInline (u64_to_vec 5)].
Definition empty_context : PredicateContext := mkContext ∅ ∅.

(** The call of a predicate, of a builtin, and of nothing. *)
Definition run_entry (entry : rstring) : option (Result bool (ExecError (H1 := toy_machine))) :=
  invoke (H1 := toy_machine) (to_vec empty_context)
    (mkPredicate (mkExpandedCode library_code entry) (params five_is_five)) (Dyn (mkStore ∅)).
Definition verdict (r : option (Result bool (ExecError (H1 := toy_machine)))) : option (bool + bool) :=
  match r with
  | Some (Ok b) => Some (inl b)
  | Some (Err (Execution Panic)) => Some (inr true)
  | Some (Err (Export _)) => Some (inr false)
  | _ => None
  end.
Example guest_runs :
  verdict <$> [run_entry (str "uint_equal"); run_entry (str "uint_greater_than");
    run_entry (str "__ingest_params"); run_entry (str "nothing")] =
  [Some (inl true); Some (inl false); Some (inr true); Some (inr false)].
Proof. vm_compute. reflexivity. Qed.

Lemma sdk_invoke_witness :
  ∃ r, run_entry (str "uint_equal") = Some r ∧
    (r = Err (Execution (OutOfMemory : @RuntimeError toy_machine)) ∨
     r = Err (Execution (OutOfBounds : @RuntimeError toy_machine)) ∨
     verdict (Some r) = Some (inl true)).
Proof.
  destruct (sdk_invoke toy_footprint (λ _, eq_refl : (0 < 100)%Z) toy_compile toy_deserialize empty_context
    five_is_five (Dyn (mkStore ∅)) stdpred_exports) as (r & Hr & Hcase).
  - reflexivity.
  - intros key val module _ Hval. discriminate Hval.
  - exists r. split; [exact Hr|]. destruct Hcase as [Hc|[Hc|Hc]]; [left; exact Hc|right; left; exact Hc|].
    right. right. rewrite Hc. vm_compute. reflexivity.
Defined.
