(* ===== verification/Derive.v ===== *)
(** The attribute [#[predicate]]: [sdk/predicates/derive/src/lib.rs].

    What the attribute checks of a function before it exports it.  The syntax trees are
    those of the crate [syn]; the model has the views of them that the code takes. *)
From S2P Require Import Prelude Extern Chain Sandbox Library Guest.

(** [syn]: functions, their arguments, types and paths. *)
Class SynCrate := {
  ItemFn : Type; FnArg : Type; SynType : Type; SynPath : Type; PathSegment : Type;
  sig_ident : ItemFn → rstring;
  sig_inputs : ItemFn → list FnArg;
  sig_output : ItemFn → option SynType;  (** [ReturnType::Type], or [Default] *)
  arg_typed : FnArg → option SynType;  (** [FnArg::Typed] *)
  ty_reference : SynType → option (bool * SynType);  (** whether it is mutable, and to what *)
  ty_path : SynType → option SynPath;
  segments : SynPath → list PathSegment;
  is_ident : SynPath → rstring → bool;
  seg_ident : PathSegment → rstring;
  (** [AngleBracketed]: the arguments, and which of them are types. *)
  seg_generics : PathSegment → option (list (option SynType));
}.

Section derive.
Context `{!SynCrate}.

(** The last segment of the path that a shared reference is to. *)
Definition referenced (ty : SynType) : option PathSegment :=
  '(mutability, elem) ← ty_reference ty;
  if mutability : bool then None else path ← ty_path elem; list.last (segments path).

(** [&Vec<ExpandedParam>] *)
Definition params_ok (ty : SynType) : bool :=
  match referenced ty with
  | Some seg =>
      if bool_decide (seg_ident seg = str "Vec") then
        match seg_generics seg ≫= head with
        | Some (Some arg) =>
            match ty_path arg ≫= λ path, list.last (segments path) with
            | Some seg => bool_decide (seg_ident seg = str "ExpandedParam")
            | None => false
            end
        | _ => false
        end
      else false
  | None => false
  end.

(** [&PredicateContext] *)
Definition context_ok (ty : SynType) : bool :=
  match referenced ty with
  | Some seg => bool_decide (seg_ident seg = str "PredicateContext")
  | None => false
  end.

Definition args_ok (l : list FnArg) : bool :=
  match l with
  | [first; second] =>
      match arg_typed first, arg_typed second with
      | Some ty1, Some ty2 => params_ok ty1 && context_ok ty2
      | _, _ => false
      end
  | _ => false
  end.

(** [verify_signature]: [None] is the panic on a name of the builtins. *)
Definition verify_signature (input_fn : ItemFn) : option bool :=
  if bool_decide (sig_ident input_fn ∈ reserved_names) then None
  else if negb (args_ok (sig_inputs input_fn)) then Some false
  else match sig_output input_fn with
       | Some ty =>
           match ty_path ty with
           | Some path => Some (is_ident path (str "bool"))
           | None => Some true
           end
       | None => Some true
       end.

(** [predicate]: what is exported, or the panic. *)
Definition predicate (input_fn : ItemFn) : option rstring :=
  ok ← verify_signature input_fn; if ok : bool then Some (sig_ident input_fn) else None.

(** The exports that pass never hide the builtins; but the check of the result is only
    one of paths, so that a function without a result passes, and one that returns a
    tuple or a reference. *)
Lemma predicate_spec f :
  (∀ n, predicate f = Some n → n = sig_ident f ∧ n ∉ reserved_names ∧ args_ok (sig_inputs f) = true) ∧
  (sig_ident f ∉ reserved_names → args_ok (sig_inputs f) = true →
   (sig_output f = None ∨ ∃ ty, sig_output f = Some ty ∧ ty_path ty = None) →
   predicate f = Some (sig_ident f)).
Proof.
  unfold predicate, verify_signature. split.
  - intros n. case_bool_decide; [done|]. destruct (args_ok (sig_inputs f)); [|done]. simpl.
    destruct (sig_output f) as [ty|]; [destruct (ty_path ty) as [path|]; [destruct (is_ident path _)|]|]; simpl;
      naive_solver.
  - intros Hn Ha Ho. rewrite bool_decide_false, Ha by done. simpl.
    by destruct Ho as [->|(ty & -> & ->)].
Qed.
End derive.

(** ** Functions as trees *)

Inductive ToyType := TyRef (m : bool) (t : ToyType) | TyPath (segs : list (rstring * list ToyType)) | TyTuple.
#[local] Instance toy_syn : SynCrate := {|
  ItemFn := rstring * list (option ToyType) * option ToyType;
  FnArg := option ToyType; SynType := ToyType; SynPath := list (rstring * list ToyType);
  PathSegment := rstring * list ToyType;
  sig_ident f := f.1.1; sig_inputs f := f.1.2; sig_output f := f.2;
  arg_typed a := a;
  ty_reference t := match t with TyRef m t => Some (m, t) | _ => None end;
  ty_path t := match t with TyPath p => Some p | _ => None end;
  segments p := p;
  is_ident p n := match p with [(m, [])] => bool_decide (m = n) | _ => false end;
  seg_ident s := s.1;
  seg_generics s := match s.2 with [] => None | l => Some (Some <$> l) end;
|}.

Definition params_type : ToyType := TyRef false (TyPath [(str "Vec", [TyPath [(str "ExpandedParam", [])]])]).
Definition context_type : ToyType := TyRef false (TyPath [(str "sdk", []); (str "PredicateContext", [])]).
Definition toy_fn (name : rstring) (args : list ToyType) (ret : option ToyType) : ItemFn :=
  (name, Some <$> args, ret).

(** The signature of the documentation, one without a result, one with another result,
    with swapped arguments, and a name of the builtins. *)
Example signatures :
  verify_signature <$> [
    toy_fn (str "p") [params_type; context_type] (Some (TyPath [(str "bool", [])]));
    toy_fn (str "p") [params_type; context_type] None;
    toy_fn (str "p") [params_type; context_type] (Some (TyPath [(str "u32", [])]));
    toy_fn (str "p") [context_type; params_type] (Some (TyPath [(str "bool", [])]));
    toy_fn (str "__allocate") [params_type; context_type] (Some (TyPath [(str "bool", [])]))] =
  [Some true; Some true; Some false; Some false; None].
Proof. vm_compute. reflexivity. Qed.
