(* ===== verification/Machine.v ===== *)
(** A machine with the three libraries of the program, and the campaign of the example
    on it.

    The machine has the modules of the standard library, of the token program and of the
    predicates of the funding example, by their tables of [Library] and [Guest]. *)
From S2P Require Import Prelude Address Predicate State Extern Chain Sandbox ChainProps Collect.
From S2P Require Import Execution ExecutionProps Stdpred Library Token Query Pgqf PgqfProps PgqfExamples Campaign Guest.

(** ** A compact encoding of contexts

    The encoding of [Sandbox] doubles with every level of nesting, which is too long for
    whole transactions.  Here a value is a sequence of its parts; a codec writes in front
    of what follows, and reads a value with what is left. *)
Record Compact (A : Type) := mkCompact { put : A → bytes → bytes; take_out : bytes → option (A * bytes) }.
Arguments mkCompact {A} put take_out.
Arguments put {A} _ _ _.
Arguments take_out {A} _ _.

Fixpoint put_pos (p : positive) (r : bytes) : bytes :=
  match p with
  | xH => Byte.x02 :: r
  | xO p => Byte.x00 :: put_pos p r
  | xI p => Byte.x01 :: put_pos p r
  end.
Fixpoint take_pos (b : bytes) : option (positive * bytes) :=
  match b with
  | Byte.x02 :: b => Some (xH, b)
  | Byte.x00 :: b => '(p, b) ← take_pos b; Some (xO p, b)
  | Byte.x01 :: b => '(p, b) ← take_pos b; Some (xI p, b)
  | _ => None
  end.
Definition c_N : Compact N := mkCompact (λ n, put_pos (N.succ_pos n))
  (λ b, '(p, b) ← take_pos b; Some (Pos.pred_N p, b)).
Definition c_byte : Compact Byte.byte := mkCompact cons (λ b, match b with x :: b => Some (x, b) | [] => None end).

Fixpoint take_list {A} (c : Compact A) (n : nat) (b : bytes) : option (list A * bytes) :=
  match n with
  | 0 => Some ([], b)
  | S n => '(x, b) ← take_out c b; '(l, b) ← take_list c n b; Some (x :: l, b)
  end.
Definition c_list {A} (c : Compact A) : Compact (list A) := mkCompact
  (λ l r, put c_N (N.of_nat (length l)) (foldr (put c) r l))
  (λ b, '(n, b) ← take_out c_N b; take_list c (N.to_nat n) b).
Definition c_pair {A B} (ca : Compact A) (cb : Compact B) : Compact (A * B) := mkCompact
  (λ x r, put ca x.1 (put cb x.2 r))
  (λ b, '(x, b) ← take_out ca b; '(y, b) ← take_out cb b; Some ((x, y), b)).
Definition c_sum {A B} (ca : Compact A) (cb : Compact B) : Compact (A + B) := mkCompact
  (λ x r, match x with inl x => Byte.x00 :: put ca x r | inr y => Byte.x01 :: put cb y r end)
  (λ b, match b with
        | Byte.x00 :: b => '(x, b) ← take_out ca b; Some (inl x, b)
        | Byte.x01 :: b => '(y, b) ← take_out cb b; Some (inr y, b)
        | _ => None
        end).
Definition c_as {A B} (f : A → B) (g : B → A) (c : Compact B) : Compact A := mkCompact
  (λ x, put c (f x)) (λ b, '(y, b) ← take_out c b; Some (g y, b)).
Definition c_map {K V} `{Countable K} (ck : Compact K) (cv : Compact V) : Compact (gmap K V) :=
  c_as map_to_list list_to_map (c_list (c_pair ck cv)).

Definition c_bytes : Compact bytes := c_list c_byte.
Definition c_str : Compact rstring := c_list c_N.
Definition c_addr : Compact Address := c_as addr_path mkAddress c_str.
Definition c_param : Compact Param := c_as
  (λ p, match p with
        | Inline v => inl (inl v) | AccountRef a => inl (inr a)
        | ProposalRef a => inr (inl a) | CalldataRef k => inr (inr k) end)
  (λ x, match x with
        | inl (inl v) => Inline v | inl (inr a) => AccountRef a
        | inr (inl a) => ProposalRef a | inr (inr k) => CalldataRef k end)
  (c_sum (c_sum c_bytes c_addr) (c_sum c_addr c_str)).
Definition c_code : Compact Code := c_as
  (λ c, match c with CodeInline b => inl b | CodeAccountRef a e => inr (a, e) end)
  (λ x, match x with inl b => CodeInline b | inr (a, e) => CodeAccountRef a e end)
  (c_sum c_bytes (c_pair c_addr c_str)).
Definition c_call : Compact (Predicate Code Param) := c_as
  (λ p, (code p, params p)) (λ x, mkPredicate x.1 x.2) (c_pair c_code (c_list c_param)).

Fixpoint put_tree (t : BasicTree) (r : bytes) : bytes :=
  match t with
  | Id p => Byte.x00 :: put c_call p r
  | Not t => Byte.x01 :: put_tree t r
  | And t u => Byte.x02 :: put_tree t (put_tree u r)
  | Or t u => Byte.x03 :: put_tree t (put_tree u r)
  end.
Fixpoint take_tree (fuel : nat) (b : bytes) : option (BasicTree * bytes) :=
  match fuel, b with
  | S fuel, Byte.x00 :: b => '(p, b) ← take_out c_call b; Some (Id p, b)
  | S fuel, Byte.x01 :: b => '(t, b) ← take_tree fuel b; Some (Not t, b)
  | S fuel, Byte.x02 :: b => '(t, b) ← take_tree fuel b; '(u, b) ← take_tree fuel b; Some (And t u, b)
  | S fuel, Byte.x03 :: b => '(t, b) ← take_tree fuel b; '(u, b) ← take_tree fuel b; Some (Or t u, b)
  | _, _ => None
  end.
Definition c_tree : Compact BasicTree := mkCompact put_tree (take_tree 20).
Definition c_account : Compact Account := c_as
  (λ a, (acc_state a, acc_predicates a)) (λ x, mkAccount x.1 x.2) (c_pair c_bytes c_tree).
Definition c_change : Compact ExpandedAccountChange := c_as
  (λ c, match c with
        | ECreateAccount a => inl (inl a) | EReplaceState s s' => inl (inr (s, s'))
        | EReplacePredicates t t' => inr (inl (t, t')) | EDeleteAccount a => inr (inr a) end)
  (λ x, match x with
        | inl (inl a) => ECreateAccount a | inl (inr (s, s')) => EReplaceState s s'
        | inr (inl (t, t')) => EReplacePredicates t t' | inr (inr a) => EDeleteAccount a end)
  (c_sum (c_sum c_account (c_pair c_bytes c_bytes)) (c_sum (c_pair c_tree c_tree) c_account)).
Definition c_context : Compact PredicateContext := c_as
  (λ c, (ctx_calldata c, ctx_proposals c)) (λ x, mkContext x.1 x.2)
  (c_pair (c_map (K := bytes) c_bytes (c_map (K := rstring) c_str c_bytes)) (c_map (K := Address) c_addr c_change)).
Definition compact_rmp_context : Rmp PredicateContext := {|
  to_vec c := put c_context c [];
  from_slice b := fst <$> take_out c_context b;
|}.
#[local] Existing Instance compact_rmp_context.

(** ** The machine *)

Definition token_code : bytes := bstr "token".
Definition known_code (b : bytes) : option (list (rstring * Entry)) :=
  if bool_decide (b = library_code) then Some stdpred_exports
  else if bool_decide (b = token_code) then Some (token_exports Debug)
  else if bool_decide (b = bstr "pgqf") then Some pgqf_exports else None.

(** The memory is the list of what was written, as in [Library]; the modules answer as
    [Guest.sdk_invoke] says that modules of the SDK do. *)
Definition known_entry (store : list bytes) (m : list (rstring * Entry)) (entry : rstring) (args : list Z) :
    option Z :=
  match args with
  | [params_ptr; ctx_ptr] =>
      ps ← store !! Z.to_nat params_ptr ≫= from_slice;
      ctx ← store !! Z.to_nat ctx_ptr ≫= from_slice;
      f ← export_of entry m;
      b ← f ps ctx;
      Some (if b : bool then 1%Z else 0%Z)
  | _ => None
  end.
#[local] Instance sdk_machine : Wasmer := {|
  WStore := list bytes; WModule := list (rstring * Entry); WMemory := unit; WEnv := unit; WExtern := unit;
  WInstance := list (rstring * Entry); WFunction := FnType * list (rstring * Entry) * rstring;
  MemoryError := unit; CompileError := unit; InstantiationError := unit; ExportError := unit;
  RuntimeError := unit; MemoryAccessError := unit; EncodeError := unit;
  store_new := [];
  module_deserialize _ _ := None;
  module_from_binary _ b := ok_or (known_code b) tt;
  memory_new s _ := Ok (tt, s);
  function_env_new s _ := (tt, s);
  memory_extern _ := tt;
  host_function s _ := (tt, s);
  instance_new s m _ := Ok (m, s);
  get_typed_function s m ty name := Ok (ty, m, name);
  fn_call s f args :=
    match f with
    | (AllocateFn, _, _) => Ok (Z.of_nat (length s), s)
    | (IngestFn, _, _) => Ok (default 0%Z (head args), s)
    | (EntryFn, m, entry) => ok_or ((λ r, (r, s)) <$> known_entry s m entry args) tt
    end;
  view_write s _ _ data := Ok (s ++ [data]);
  runtime_of_access _ := tt;
|}.


#[local] Instance machine_order : HashOrder Address := map_order Address.
#[local] Instance machine_schedule : Rayon := sequential.

(** A validator that runs one transaction after the other. *)
Definition validate (st : InMemoryStateStore) (a : Act) : option InMemoryStateStore :=
  match a with
  | SendTransaction tx =>
      match execute tx (Dyn st) (Dyn empty_diff) with
      | Some (Ok d) => apply st d
      | _ => None
      end
  | SendIntents _ => Some st
  end.

(** The transactions of the campaign are accepted.  On a chain that has nothing but
    a virtual machine with the three libraries, a validator accepts all the transactions
    that [main] sends, in their order; afterwards the library, the token, the treasury
    without money, the campaign and ten wallets with 10000 each are there. *)
Theorem campaign_setup_accepted :
  ∃ st, foldM validate (mkStore ∅) example_main.1 = Some st ∧
    get st stdpred_addr = Some (installed_account stdpred_addr library_code) ∧
    is_Some (get st campaign_addr) ∧ is_Some (get st token_addr) ∧
    balance_at (Dyn st) treasury_addr = Some 0%Z ∧
    Forall (λ i, balance_at (Dyn st) (wallet_addr (letter i)) = Some 10000%Z) (seq 0 10).
Proof.
  assert (match foldM validate (mkStore ∅) example_main.1 with
    | Some st =>
        bool_decide (get st stdpred_addr = Some (installed_account stdpred_addr library_code)) &&
        bool_decide (is_Some (get st campaign_addr)) && bool_decide (is_Some (get st token_addr)) &&
        bool_decide (balance_at (Dyn st) treasury_addr = Some 0%Z) &&
        forallb (λ i, bool_decide (balance_at (Dyn st) (wallet_addr (letter i)) = Some 10000%Z)) (seq 0 10)
    | None => false end = true) as Hb by (vm_compute; reflexivity).
  destruct (foldM validate (mkStore ∅) example_main.1) as [st|]; [|done]. exists st.
  rewrite !andb_true_iff, !bool_decide_eq_true in Hb. destruct Hb as [[[[H1 H2] H3] H4] H5].
  repeat (split; [done|]). apply Forall_forall. intros i Hi.
  apply (bool_decide_eq_true_1 _), (proj1 (List.forallb_forall _ _) H5). by apply list_elem_of_In.
Qed.

(** A transaction with one change and without intents, hence without any signature. *)
Definition unsigned (a : Address) (c : AccountChange) : Act :=
  SendTransaction (transaction_new (R := Basic) [] {[a := c]}).
Definition fill : Act := unsigned treasury_addr (ReplaceState (u64_to_vec 1000000)).
Definition take_away : Act := unsigned treasury_addr DeleteAccount.
Definition spend : Act := unsigned (wallet_addr (letter 0)) (ReplaceState (u64_to_vec 9999)).

(** Nobody guards the treasury.  Its predicate accepts everything, and of the
    accounts above it only that of the token program exists, whose predicates look at
    itself.  On the chain that the client has set up a validator
    accepts transactions without a signature that fill the treasury out of nothing and
    then delete it, while no such transaction lowers the balance of a wallet. *)
Theorem treasury_unguarded :
  ∃ st st1 st2, foldM validate (mkStore ∅) example_main.1 = Some st ∧
    validate st fill = Some st1 ∧
    balance_at (Dyn st1) treasury_addr = Some 1000000%Z ∧
    validate st1 take_away = Some st2 ∧ get st2 treasury_addr = None ∧
    validate st spend = None.
Proof.
  assert (match foldM validate (mkStore ∅) example_main.1 with
    | Some st =>
        match validate st fill with
        | Some st1 =>
            bool_decide (balance_at (Dyn st1) treasury_addr = Some 1000000%Z) &&
            match validate st1 take_away with
            | Some st2 => bool_decide (get st2 treasury_addr = None)
            | None => false
            end &&
            match validate st spend with
            | Some _ => false
            | None => true
            end
        | None => false end
    | None => false end = true) as Hb by (vm_compute; reflexivity).
  destruct (foldM validate (mkStore ∅) example_main.1) as [st|]; [|discriminate Hb]. exists st.
  destruct (validate st fill) as [st1|] ; [|discriminate Hb]. exists st1.
  rewrite !andb_true_iff, !bool_decide_eq_true in Hb. destruct Hb as [[Hbal Hdel] Hw].
  destruct (validate st1 take_away) as [st2|]; [|discriminate Hdel]. exists st2.
  apply bool_decide_eq_true in Hdel. split; [reflexivity|]. split; [reflexivity|]. split; [exact Hbal|].
  split; [reflexivity|]. split; [exact Hdel|]. destruct (validate st spend); [discriminate Hw|reflexivity].
Qed.
