(* ===== verification/Format.v ===== *)
(** Text: [primitives/src/b58.rs], the conversions of addresses from and to strings
    ([address.rs]), and the [Debug] implementations of [primitives/src].

    What [Debug] writes is kept as the tree of the calls to the formatter's builders;
    how these lay it out is the standard library's.  Printing is not free of effects:
    an intent and a block are printed with their hashes, which fills their cells, so
    the functions below return what they print and the object afterwards. *)
From S2P Require Import Prelude Address Predicate Extern Chain Sandbox ChainProps.

(** ** Text of byte strings *)

(** [hex::encode]: two lower-case digits per byte; the [Debug] of a multihash is derived
    by its crate. *)
Class TextCrates `{!MultihashCrate} := {
  hex_encode : bytes → rstring;
  multihash_debug : Multihash → rstring;
}.

(** [String::as_bytes]: UTF-8. *)
Definition utf8_char (c : rchar) : list N :=
  (if c <? 128 then [c]
   else if c <? 2048 then [192 + c / 64; 128 + c mod 64]
   else if c <? 65536 then [224 + c / 4096; 128 + c / 64 mod 64; 128 + c mod 64]
   else [240 + c / 262144; 128 + c / 4096 mod 64; 128 + c / 64 mod 64; 128 + c mod 64])%N.
Definition utf8 (s : rstring) : bytes := omap Byte.of_N (s ≫= utf8_char).

Section b58.
Context `{!MultihashCrate, !Bs58Crate, !Ed25519, !Ed25519Signing}.

(** [trait ToBase58String] and its implementations; those for slices, arrays and vectors of
    bytes are one function here. *)
Class ToBase58String (A : Type) := to_b58 : A → rstring.
#[global] Instance multihash_b58 : ToBase58String Multihash := λ self, bs58_encode (to_bytes self).
#[global] Instance signature_b58 : ToBase58String Signature := λ self, bs58_encode (signature_to_bytes self).
#[global] Instance bytes_b58 : ToBase58String bytes := λ self, bs58_encode self.
End b58.

(** ** Addresses as text *)

Section address.
Context `{!Bs58Crate}.

(** [<Address as Display>::fmt], hence [to_string]; [<Address as Debug>::fmt] *)
Definition address_to_string (self : Address) : rstring := addr_path self.
Definition address_debug (self : Address) : rstring := str "address(" ++ addr_path self ++ str ")".
(** [<String as From<Address>>::from], hence [into] *)
Definition string_from (pk : Address) : rstring := bs58_encode (utf8 (addr_path pk)).
End address.

(** C38: what becomes of an address that is written as text and read again.  [to_string] and
    [parse] are inverse to each other, on the strings that parse and on the
    addresses that they parse to.  The conversion of an address into a [String] writes
    base 58 instead, and no string that it makes of an address parses: the error is always that
    the slash at the beginning is missing. *)
Theorem address_text `{!Bs58Crate, !Bs58Laws} :
  (∀ a, valid a → from_str (address_to_string a) = Ok a) ∧
  (∀ s a, from_str s = Ok a → address_to_string a = s) ∧
  (∀ a, valid a → from_str (string_from a) = Err MissingStartingSlash).
Proof.
  split; [|split].
  - intros a Ha. by apply valid_new.
  - intros s a Hs. by apply new_valid.
  - intros a ([|seg segs] & [Hne _] & Ha); [done|]. unfold string_from.
    assert (utf8 (addr_path a) ≠ []) as Hbytes by (by rewrite Ha).
    pose proof (bs58_alphabet (utf8 (addr_path a))) as Hall. apply bs58_nonempty in Hbytes.
    destruct (bs58_encode (utf8 (addr_path a))) as [|c s]; [done|]. apply Forall_cons in Hall as [Hc _].
    unfold from_str, new. destruct (N.eqb_spec c slash) as [->|]; [by vm_compute in Hc|done].
Qed.

(** ** What [Debug] prints *)

(** The calls of the builders of [Formatter]: a string with quotes, text as it is, numbers,
    lists and maps, and structs with and without the names of fields. *)
Inductive Dbg :=
| DString (s : rstring)
| DText (s : rstring)
| DNumber (x : Z)
| DChar (c : rchar)
| DList (l : list Dbg)
| DMap (l : list (Dbg * Dbg))
| DTuple (name : string) (fields : list Dbg)
| DStruct (name : string) (fields : list (string * Dbg)).

Section debug.
Context `{!MultihashCrate, !Bs58Crate, !TextCrates}.

(** The derived [Debug] of [AddressError], which its [Display] uses, too. *)
Definition address_error_debug (e : AddressError) : Dbg :=
  match e with
  | EmptyPath => DText (str "EmptyPath")
  | EmptyPathSegment => DText (str "EmptyPathSegment")
  | MissingStartingSlash => DText (str "MissingStartingSlash")
  | InvalidEndingSlash => DText (str "InvalidEndingSlash")
  | InvalidCharacter c => DTuple "InvalidCharacter" [DChar c]
  end.

(** [Vec<u8>]; [BTreeMap<String, Vec<u8>>] *)
Definition vec_debug (b : bytes) : Dbg := DList ((λ x, DNumber (Z.of_N (Byte.to_N x))) <$> b).
Definition calldata_debug (c : Calldata) : Dbg :=
  DMap ((λ e, (DString e.1, vec_debug e.2)) <$> btree_iter c).

(** A number in decimal, as [format!] writes it. *)
Fixpoint digits (fuel : nat) (x : nat) (acc : rstring) : rstring :=
  match fuel with
  | 0 => acc
  | S fuel =>
      let acc := N.of_nat (48 + x mod 10) :: acc in
      if (x <? 10)%nat then acc else digits fuel (x / 10) acc
  end.
Definition decimal (x : nat) : rstring := digits (S x) x [].
(** [format!("[wasm-bytecode ({} bytes)]", c.len())] *)
Definition bytecode_debug (c : bytes) : rstring :=
  str "[wasm-bytecode (" ++ decimal (length c) ++ str " bytes)]".

(** [<Param as Debug>::fmt], [<Code as Debug>::fmt], [<ExpandedCode as Debug>::fmt] *)
Definition param_debug (self : Param) : Dbg :=
  match self with
  | Inline v => DTuple "Inline" [DString (hex_encode v)]
  | AccountRef a => DTuple "AccountRef" [DText (address_debug a)]
  | ProposalRef a => DTuple "ProposalRef" [DText (address_debug a)]
  | CalldataRef k => DTuple "CalldataRef" [DString k]
  end.
Definition code_debug (self : Code) : Dbg :=
  match self with
  | CodeInline c => DTuple "Inline" [DString (bytecode_debug c)]
  | CodeAccountRef a e => DTuple "AccountRef" [DText (address_debug a); DString e]
  end.
Definition expanded_code_debug (self : ExpandedCode) : Dbg :=
  DStruct "ExpandedCode" [("code", DString (bytecode_debug (ec_code self)));
    ("entrypoint", DString (ec_entrypoint self))].

(** The derived [Debug] of predicates and trees. *)
Definition predicate_debug (self : BasicPredicate) : Dbg :=
  DStruct "Predicate" [("code", code_debug (code self)); ("params", DList (param_debug <$> params self))].
Fixpoint tree_debug (self : BasicTree) : Dbg :=
  match self with
  | Id p => DTuple "Id" [predicate_debug p]
  | Not t => DTuple "Not" [tree_debug t]
  | And l r => DTuple "And" [tree_debug l; tree_debug r]
  | Or l r => DTuple "Or" [tree_debug l; tree_debug r]
  end.

(** [<Account as Debug>::fmt]; the derived [Debug] of account changes. *)
Definition account_debug (self : Account) : Dbg :=
  let state :=
    if starts_with (acc_state self) [Byte.x00; Byte.x61; Byte.x73; Byte.x6d]
    then str "[wasm-bytecode]" else hex_encode (acc_state self) in
  DStruct "Account" [("state", DString state); ("predicates", tree_debug (acc_predicates self))].
Definition change_debug (self : AccountChange) : Dbg :=
  match self with
  | CreateAccount a => DTuple "CreateAccount" [account_debug a]
  | ReplaceState s => DTuple "ReplaceState" [vec_debug s]
  | ReplacePredicates p => DTuple "ReplacePredicates" [tree_debug p]
  | DeleteAccount => DText (str "DeleteAccount")
  end.

Context `{!Rmp (IntentContent Basic), !Rmp BlockContent}.

(** [<Intent as Debug>::fmt]: the last field asks for the hash. *)
Definition intent_debug (self : Intent Basic) : Dbg * Intent Basic :=
  let '(h, self) := intent_hash self in
  (DStruct "Intent" [("expectations", tree_debug (expectations self));
     ("calldata", calldata_debug (calldata self)); ("hash", DString (to_b58 h))], self).

(** The derived [Debug] of a transaction shows its cell as it is. *)
Definition cell_debug (c : option Multihash) : Dbg :=
  match c with
  | Some h => DTuple "OnceCell" [DText (multihash_debug h)]
  | None => DText (str "OnceCell(Uninit)")
  end.
Definition tx_debug (self : Transaction Basic) : Dbg * Transaction Basic :=
  let printed := intent_debug <$> intents self in
  (DStruct "Transaction" [("intents", DList printed.*1);
     ("proposals", DMap ((λ e, (DText (address_debug e.1), change_debug e.2)) <$>
       btree_iter (proposals self : gmap Address AccountChange)));
     ("hash_cache", cell_debug (tx_cache self))],
   mkTransaction printed.*2 (proposals self) (tx_cache self)).

(** [<Block as Debug>::fmt] *)
Definition block_debug (self : Block) : Dbg * Block :=
  let '(h, self) := block_hash self in
  let printed := tx_debug <$> transactions self in
  (DStruct "Block" [("height", DNumber (height self)); ("parent", DString (to_b58 (parent self)));
     ("hash", DString (to_b58 h)); ("transactions", DList printed.*1)],
   mkBlock (height self) (parent self) printed.*2 (block_cache self)).

(** ** Printing fills cells *)

Lemma intent_debug_same i : intent_content (intent_debug i).2 = intent_content i.
Proof. unfold intent_debug, intent_hash. by destruct (get_or_init _ _). Qed.

Lemma intent_debug_cell i :
  intent_cache (intent_debug i).2 = Some (intent_hash i).1 ∧
  intent_debug (intent_debug i).2 = intent_debug i.
Proof. destruct i as [h e c [k|]]; done. Qed.

Lemma tx_debug_same tx : tx_content (tx_debug tx).2 = tx_content tx.
Proof.
  unfold tx_content, tx_debug. simpl. f_equal. rewrite <-!list_fmap_compose. apply list_fmap_ext.
  intros j i _. apply intent_debug_same.
Qed.

(** What prints the same the second time does so in a list. *)
Lemma debug_list {A} (f : A → Dbg * A) l :
  (∀ x, f (f x).2 = f x) → f <$> (f <$> l).*2 = f <$> l.
Proof. intros Hf. induction l as [|x l IH]; csimpl; [done|]. by rewrite Hf, IH. Qed.

Lemma tx_debug_idem tx : tx_debug (tx_debug tx).2 = tx_debug tx.
Proof. unfold tx_debug. csimpl. rewrite debug_list; [done|]. intros i. apply intent_debug_cell. Qed.

Lemma block_debug_idem b : block_debug (block_debug b).2 = block_debug b.
Proof.
  destruct b as [h p txs [k|]]; unfold block_debug, block_hash; csimpl;
    (rewrite debug_list; [done|apply tx_debug_idem]).
Qed.

Lemma block_debug_same b : block_content (block_debug b).2 = block_content b.
Proof.
  unfold block_debug, block_hash. destruct (get_or_init _ _) as [k c]. unfold block_content. csimpl. f_equal.
  rewrite <-!list_fmap_compose. apply list_fmap_ext. intros j tx _. apply tx_debug_same.
Qed.

Context `{!Rmp Multihash, !Rmp (PredicateTree Basic)}.

(** C34: printing is an effect.  Printing an intent or a block changes nothing that is serialised
    or printed, but it fills cells.  After an intent was printed its signing hash is no
    longer the hash that signatures are of, but that of the whole content, and calldata
    that are added do not change its hash any more; after a block that was received is
    printed, all of its intents are in that state. *)
Theorem printing_fills_cells (i : Intent Basic) (b : Block) (v : bytes) key value :
  let i' := (intent_debug i).2 in let b' := (block_debug b).2 in
  (intent_content i' = intent_content i ∧ intent_debug i' = intent_debug i) ∧
  (block_content b' = block_content b ∧ block_debug b' = block_debug b) ∧
  (intent_cache i = None →
    (signing_hash i).1 = sha3_256 (to_vec (recent_blockhash i) ++ to_vec (expectations i)) ∧
    (signing_hash i').1 = sha3_256 (intent_to_vec i) ∧
    (intent_hash (calldata_insert i key value)).1 = sha3_256 (intent_to_vec (calldata_insert i key value)) ∧
    (intent_hash (calldata_insert i' key value)).1 = sha3_256 (intent_to_vec i)) ∧
  (block_from_slice v = Some b → ∀ tx j, tx ∈ transactions b' → j ∈ intents tx →
    intent_cache j = Some (sha3_256 (intent_to_vec j))).
Proof.
  intros i' b'. split; [split; [apply intent_debug_same|apply intent_debug_cell]|].
  split; [split; [apply block_debug_same|apply block_debug_idem]|]. split.
  - subst i'. destruct i as [h e c []]; [done|]. done.
  - intros Hb tx j Htx Hj. unfold block_from_slice in Hb. apply fmap_Some in Hb as ([[h p] txs] & _ & ->).
    subst b'. unfold block_debug, block_hash, block_of_content in Htx. simpl in Htx.
    apply list_elem_of_fmap in Htx as (? & -> & Htx). apply list_elem_of_fmap in Htx as (? & -> & Htx).
    apply list_elem_of_fmap in Htx as (c & -> & _). simpl in Hj.
    apply list_elem_of_fmap in Hj as (? & -> & Hj). apply list_elem_of_fmap in Hj as (? & -> & Hj).
    by apply list_elem_of_fmap in Hj as ([[? ?] ?] & -> & _).
Qed.
End debug.

(** ** Examples *)

#[local] Instance sandbox_text : TextCrates := {| hex_encode b := Byte.to_N <$> b; multihash_debug b := [] |}.
Example prints_code : code_debug (CodeInline (repeat Byte.x00 1207)) =
  DTuple "Inline" [DString (str "[wasm-bytecode (1207 bytes)]")].
Proof. vm_compute. reflexivity. Qed.
Example prints_address : address_debug (mkAddress (str "/token")) = str "address(/token)".
Proof. reflexivity. Qed.

(** Signing the example after it was printed signs something else. *)
Lemma printing_fills_cells_witness :
  (signing_hash (intent_debug example_intent).2).1 ≠ (signing_hash example_intent).1.
Proof.
  destruct (printing_fills_cells example_intent block_zero [] [] []) as (_ & _ & Hsign & _).
  destruct (Hsign eq_refl) as (-> & -> & _). apply (bool_decide_unpack _). by vm_compute.
Defined.

(** The address of the tokens, converted into a string, does not parse. *)
Lemma address_text_witness :
  from_str (address_to_string (mkAddress (str "/token"))) = Ok (mkAddress (str "/token")) ∧
  from_str (string_from (mkAddress (str "/token"))) = Err MissingStartingSlash.
Proof.
  destruct address_text as (Hparse & Hsame & Hstring).
  assert (valid (mkAddress (str "/token"))) as Hv by (apply (new_valid (str "/token")); reflexivity).
  split; [exact (Hparse _ Hv)|exact (Hstring _ Hv)].
Defined.
