(* ===== verification/Donations.v ===== *)
(** What the client's [main] would do after the campaign has started:
    [sdk/examples/pgqf/src/client.rs], from the first call of [await_block_height] on.

    That call is [todo!()], so none of this runs.  It is modelled as if the call
    returned: thirty donations to random projects, the hashes that are awaited and
    the amounts that are added up, until the next call of [await_block_height]. *)
From S2P Require Import Prelude Address Predicate State Extern Chain Sandbox ChainProps Collect.
From S2P Require Import Execution ExecutionProps Stdpred Library Query Pgqf PgqfProps PgqfExamples Campaign Guest Machine Format.

Section donations.
Context `{!MultihashCrate, !Bs58Crate, !RmpU64, !Rmp bool, !Rmp rstring, !Rmp Address,
  !Rmp Campaign, !Rmp Donation, !Rmp ByteArray, !Rmp Multihash, !Rmp (PredicateTree Basic),
  !Rmp (IntentContent Basic), !Ed25519, !Ed25519Signing, !Rand}.
(** The amounts that [gen_range(10, 100)] picks, which gossip succeeds, and the hashes of the
    most recent blocks. *)
Context (prof : Profile) (amount : nat → Z) (sent : nat → bool) (recent : nat → Multihash).

(** [const N] *)
Definition rounds : nat := 30.
Definition projects : list rstring := [str "project1"; str "project2"; str "project3"; str "project4"].

(** [donations_intents] and [donation_amounts], and what was gossiped. *)
Record Progress := mkProgress {
  donations_intents : list Multihash;
  donation_amounts : gmap rstring Z;
  gossiped : list (Intent Basic);
}.

(** [format!("/token/usdc/little-wallet-{i}.eth").parse()?] *)
Definition little_wallet (i : nat) : Result Address AddressError :=
  from_str (str "/token/usdc/little-wallet-" ++ decimal i ++ str ".eth").

(** One turn of the loop. *)
Definition donate (s : Progress) (i : nat) : option (Result Progress AddressError) :=
  project ← Extern.choose i projects;
  match (let? from := little_wallet i in create_project_donation_intent project (amount i) from (recent i)) with
  | Err e => Some (Err e)
  | Ok donation_intent =>
      if sent i then
        let '(hash, _) := intent_hash donation_intent in
        total ← match donation_amounts s !! project with
                | Some e => u64_add prof e (amount i)
                | None => Some (amount i)
                end;
        Some (Ok (mkProgress (donations_intents s ++ [hash]) (<[project := total]> (donation_amounts s))
          (gossiped s ++ [donation_intent])))
      else Some (Ok s)
  end.
Definition main_donations : option (Result Progress AddressError) :=
  try_fold_panic donate (mkProgress [] ∅ []) (seq 0 rounds).

(** [create_funding_redistribution_intent] *)
Definition create_funding_redistribution_intent (matching_pool_amount : Z)
    (donation_amounts : gmap rstring Z) (blockhash : Multihash) : option (Intent Basic) := None.

(** ** What was gossiped, awaited and added up *)

Context `{!RandLaws}.
Context (amount_range : ∀ i, (10 ≤ amount i < 100)%Z).

(** Whether round [i] donates to [p], and what was donated to it. *)
Definition donates (p : rstring) (i : nat) : bool := sent i && bool_decide (Extern.choose i projects = Some p).
Definition tally (p : rstring) (l : list nat) : Z :=
  foldr (λ i z, if donates p i then amount i + z else z)%Z 0%Z l.
Definition amount_of (s : Progress) (p : rstring) : Z := default 0%Z (donation_amounts s !! p).
(** What the intent of round [i] is made from. *)
Definition donation_of (i : nat) (intent : Intent Basic) : Prop :=
  ∃ project from, Extern.choose i projects = Some project ∧ little_wallet i = Ok from ∧
    create_project_donation_intent project (amount i) from (recent i) = Ok intent.

Lemma donation_built i : i < rounds → ∃ intent, donation_of i intent.
Proof.
  intros Hi. destruct (choose_Some i projects) as (project & Hc & Hin); [done|].
  assert (forallb (λ i, match little_wallet i with
    | Ok from => forallb (λ p, is_ok (from_str (str "/pgqf/spring-2023/" ++ p ++ str "/" ++
        replace_slashes (addr_path from))) && is_ok (from_str (str "/token/usdc/project-" ++ p ++ str ".eth")))
        projects
    | Err _ => false end) (seq 0 rounds) = true) as Hall by (vm_compute; reflexivity).
  rewrite forallb_forall in Hall. specialize (Hall i). rewrite <-list_elem_of_In, elem_of_seq in Hall.
  destruct (little_wallet i) as [from|] eqn:Hw; [|discriminate Hall; lia].
  specialize (Hall ltac:(lia)). rewrite forallb_forall in Hall.
  specialize (Hall project (proj1 (list_elem_of_In _ _) Hin)). apply andb_true_iff in Hall as [H1' H2'].
  unfold donation_of, create_project_donation_intent.
  destruct (from_str (str "/pgqf/spring-2023/" ++ project ++ _)) as [record|] eqn:Hr; [|done].
  destruct (from_str (str "/token/usdc/project-" ++ project ++ _)) as [wallet|] eqn:Hp; [|done].
  eexists. exists project, from. split; [done|]. split; [done|]. rewrite Hr. cbn [result_bind].
  rewrite Hp. cbn [result_bind]. rewrite stdpred_parses. reflexivity.
Qed.

Lemma donate_spec s i :
  i < rounds → (∀ p, amount_of s p + 99 ≤ u64_max)%Z →
  ∃ s', donate s i = Some (Ok s') ∧ (∀ p, amount_of s' p = amount_of s p + tally p [i])%Z ∧
    if sent i then ∃ intent, donation_of i intent ∧
      donations_intents s' = donations_intents s ++ [(intent_hash intent).1] ∧
      gossiped s' = gossiped s ++ [intent]
    else s' = s.
Proof.
  intros Hi Hb. destruct (donation_built i Hi) as (intent & project & from & Hc & Hw & Hintent).
  unfold donate. rewrite Hc. cbn [mbind option_bind]. rewrite Hw. cbn [result_bind]. rewrite Hintent.
  unfold tally, donates. cbn [foldr]. rewrite Hc. destruct (sent i); cbn [andb].
  2: { exists s. split; [done|]. split; [intros p; lia|done]. }
  destruct (intent_hash intent) as [h intent'] eqn:Hh.
  set (total := (amount_of s project + amount i)%Z).
  assert (match donation_amounts s !! project with
    | Some e => u64_add prof e (amount i) | None => Some (amount i) end = Some total) as ->.
  { unfold total, amount_of in *. specialize (Hb project). pose proof (amount_range i).
    destruct (donation_amounts s !! project) as [e|]; simpl in *; [|by f_equal; lia].
    unfold u64_add. destruct (Z.leb_spec (e + amount i) u64_max); [done|lia]. }
  cbn [mbind option_bind]. eexists. split; [done|]. split.
  - intros p. unfold amount_of at 1. simpl. destruct (decide (p = project)) as [->|Hne].
    + rewrite lookup_insert_eq, bool_decide_true by done. simpl. unfold total. lia.
    + rewrite lookup_insert_ne, bool_decide_false by congruence. fold (amount_of s p). lia.
  - exists intent. rewrite Hh. split; [by exists project, from|]. done.
Qed.

Lemma donates_from s rs :
  Forall (λ i, i < rounds) rs → (∀ p, amount_of s p + 99 * Z.of_nat (length rs) ≤ u64_max)%Z →
  ∃ s' made, try_fold_panic donate s rs = Some (Ok s') ∧
    (∀ p, amount_of s' p = amount_of s p + tally p rs)%Z ∧
    Forall2 donation_of (filter (λ i, sent i) rs) made ∧ gossiped s' = gossiped s ++ made ∧
    donations_intents s' = donations_intents s ++ ((λ i, (intent_hash i).1) <$> made).
Proof.
  revert s. induction rs as [|i rs IH]; intros s Hlt Hb.
  { exists s, []. rewrite !app_nil_r. repeat split; [|constructor]. intros p. simpl. lia. }
  apply Forall_cons in Hlt as [Hi Hlt]. cbn [length] in Hb. cbn [try_fold_panic].
  destruct (donate_spec s i Hi) as (s1 & Hs1 & Ht & Hsent); [intros p; specialize (Hb p); lia|].
  rewrite Hs1. destruct (IH s1) as (s' & made & -> & Ht' & Hmade & Hg & Hd); [done| |].
  { intros p. rewrite Ht. specialize (Hb p). unfold tally, donates. cbn [foldr].
    pose proof (amount_range i). destruct (_ && _); lia. }
  assert (∀ p, amount_of s' p = amount_of s p + tally p (i :: rs))%Z as Hsum.
  { intros p. rewrite Ht', Ht. unfold tally. cbn [foldr]. destruct (donates p i); lia. }
  rewrite filter_cons. destruct (sent i).
  - destruct Hsent as (intent & Hintent & Hd1 & Hg1). exists s', (intent :: made).
    rewrite Hg, Hd, Hg1, Hd1, <-!app_assoc. rewrite decide_True by done. by repeat constructor.
  - subst s1. exists s', made. by rewrite decide_False by (intros []).
Qed.

(** The donations are what rs waited for and what rs added up.  The loop never fails and no
    sum overflows; every round whose gossip succeeds has built one donation of its
    project, its amount and its little wallet, the hashes to wait for are those of these
    donations in their order, and the amount kept for a project, which rs what the
    redistribution would be told, is the sum of what was donated to it. *)
Theorem donations_tallied :
  ∃ s, main_donations = Some (Ok s) ∧
    Forall2 donation_of (filter (λ i, sent i) (seq 0 rounds)) (gossiped s) ∧
    donations_intents s = (λ i, (intent_hash i).1) <$> gossiped s ∧
    ∀ p, amount_of s p = tally p (seq 0 rounds).
Proof.
  destruct (donates_from (mkProgress [] ∅ []) (seq 0 rounds)) as (s & made & Hs & Ht & Hm & Hg & Hd).
  - apply Forall_forall. intros i Hi%elem_of_seq. lia.
  - intros p. unfold amount_of. simpl. by rewrite lookup_empty.
  - exists s. unfold main_donations. rewrite Hg, Hd, Hs. cbn [app gossiped donations_intents].
    split; [reflexivity|]. split; [exact Hm|]. split; [reflexivity|]. intros p. rewrite Ht.
    unfold amount_of at 1. cbn [donation_amounts]. by rewrite lookup_empty.
Qed.

(** ** What a donation asks of the chain *)

Context `{!Rmp (gmap bytes bytes), !Rmp (gset bytes), !Wasmer, !Rmp PredicateContext,
  !Rmp (list ExpandedParam), !MultihashLaws, !Bs58Laws, !HashOrder Address} {RA : Rayon}.
Context (wasm : bytes) `{!StdpredModule wasm}.

(** Nobody can execute a donation of a wallet that is not there.  A transaction
    with one of these donations is accepted only in a state where the little wallet
    of its round has a balance, and then this balance pays for it. *)
Theorem donation_needs_wallet state cache tx d i intent :
  accepted_with wasm state cache tx d → donation_of i intent → intent ∈ intents tx →
  ∃ from b, little_wallet i = Ok from ∧ balance_at state from = Some b ∧
    balance_at (later state d) from = Some (b - amount i)%Z.
Proof.
  intros [Hcache Hl Hv Hd] (project & from & _ & Hw & (record & wallet & _ & _ & ->)%project_donation_eq) Hi.
  destruct (accepted_says state cache tx d Hv Hd) as (ctx & Hout & Hctx & Hint & _).
  apply Hint in Hi; [|done]. cbn [expectations intent_new calldata] in Hi.
  apply says_and in Hi as [[_ Hless]%says_and _].
  pose proof (amount_range i). exists from.
  destruct (says_moved wasm state cache ctx ∅ Hcache Hl tx d from (amount i) false false Hout Hctx)
    as (b & Hb & Hb'); [unfold is_u64, u64_max; lia|lia|done|by exists b].
Qed.
End donations.

(** No little wallet exists on the chain that [main] has set up, and nothing in [main]
    creates one. *)
Theorem no_little_wallets :
  ∃ st, foldM validate (mkStore ∅) example_main.1 = Some st ∧
    Forall (λ i, ∃ from, little_wallet i = Ok from ∧ get st from = None) (seq 0 rounds).
Proof.
  assert (match foldM validate (mkStore ∅) example_main.1 with
    | Some st => forallb (λ i, match little_wallet i with
        | Ok from => bool_decide (get st from = None)
        | Err _ => false end) (seq 0 rounds)
    | None => false end = true) as Hb by (vm_compute; reflexivity).
  destruct (foldM validate (mkStore ∅) example_main.1) as [st|]; [|done]. exists st. split; [done|].
  apply Forall_forall. intros i Hi. rewrite forallb_forall in Hb.
  specialize (Hb i (proj1 (list_elem_of_In _ _) Hi)). destruct (little_wallet i) as [from|]; [|done].
  exists from. by apply bool_decide_eq_true in Hb.
Qed.
