(* ===== verification/UnitTests.v ===== *)
(** The unit tests of the crates, on the model: the modules [tests] of
    [primitives/src/address.rs], [primitives/src/predicate.rs], [vm/src/state.rs] and
    [sdk/offchain/src/query.rs].

    A test passes when it runs to its end: a failed assertion, [unwrap] of nothing and an
    error that [?] returns are all [None].  That the definitions pass the tests that were
    written for the code is a check of the definitions. *)
From S2P Require Import Prelude Address Predicate State Query.

Notation Test := (option unit).
Definition assert (b : bool) : Test := if b then Some tt else None.
Definition assert_eq `{EqDecision A} (x y : A) : Test := assert (bool_decide (x = y)).
(** [Address::new(s)?] and [s.parse()?], or with [unwrap]. *)
Definition addr (s : string) : option Address := result_ok (new (str s)).

(** ** Addresses *)

Definition refused (s : string) (e : AddressError) : Test := assert_eq (new (str s)) (Err e).
Definition test_construction : Test :=
  _ ← addr "/token"; _ ← addr "/token/usda"; _ ← addr "/token/usda/walletaddr1";
  _ ← refused "" EmptyPath;
  _ ← refused "token" MissingStartingSlash;
  _ ← refused "/token/" InvalidEndingSlash;
  _ ← refused "//token" EmptyPathSegment;
  refused "/inval$id" (InvalidCharacter 36%N).

Definition test_ancestors : Test :=
  address ← addr "/token/usda/walletaddr1";
  ancestors_vec ← ancestors address;
  _ ← assert_eq (length ancestors_vec) 2;
  token ← addr "/token";
  _ ← assert_eq (Some token) (ancestors_vec !! 1);
  usda ← addr "/token/usda";
  assert_eq (Some usda) (ancestors_vec !! 0).

Definition test_combine : Test :=
  token ← addr "/token";
  token_usda ← result_ok (combine token (str "usda"));
  token_usda_wallet ← result_ok (combine token_usda (str "walletaddr1"));
  a0 ← ancestors token; a1 ← ancestors token_usda; a2 ← ancestors token_usda_wallet;
  _ ← assert_eq (length a0) 0; _ ← assert_eq (length a1) 1; _ ← assert_eq (length a2) 2;
  _ ← assert_eq (addr_path token) (str "/token");
  _ ← assert_eq (addr_path token_usda) (str "/token/usda");
  assert_eq (addr_path token_usda_wallet) (str "/token/usda/walletaddr1").

(** ** Predicates *)

(** [to_uppercase] and [as_bytes] of the text of the test, which is ASCII. *)
Definition to_uppercase (s : rstring) : rstring :=
  (λ c, if (97 <=? c)%N && (c <=? 122)%N then (c - 32)%N else c) <$> s.
Definition ascii_bytes (s : rstring) : bytes := omap Byte.of_N s.
Definition shout (a : Address) : bytes := ascii_bytes (to_uppercase (addr_path a)).

(** The closure that the test maps over the tree. *)
Definition tests_expand_param (p : Param) : ExpandedParam :=
  match p with
  | Inline v => EInline v
  | AccountRef a => EAccountRef a (shout a)
  | ProposalRef p => EProposalRef p (EReplaceState [] (shout p))
  | CalldataRef c => ECalldataRef c (ascii_bytes (to_uppercase c))
  end.
Definition tests_expand_predicate (pred : BasicPredicate) : ExpandedPredicate :=
  mkPredicate
    match code pred with
    | CodeInline b => mkExpandedCode (ascii_bytes (to_uppercase (Byte.to_N <$> b))) (str "DEFAULT_ENTRYPOINT")
    | CodeAccountRef a e => mkExpandedCode (shout a) (to_uppercase e)
    end (tests_expand_param <$> params pred).

Definition test_predicate_tree_map : Test :=
  one ← addr "/address/one"; two ← addr "/address/two"; three ← addr "/address/three";
  four ← addr "/address/four"; five ← addr "/address/five";
  let input_tree : PredicateTree Basic :=
    Not (And
      (Or (Id (mkPredicate (CodeInline (bstr "code-1")) [Inline (bstr "param-1")]))
          (Id (mkPredicate (CodeAccountRef one (str "entrypoint-1"))
            [AccountRef two; AccountRef three; ProposalRef five])))
      (And (Not (Id (mkPredicate (CodeInline (bstr "code-2")) [CalldataRef (str "calldata-1")])))
           (Id (mkPredicate (CodeAccountRef four (str "entrypoint-2")) [])))) in
  let expected_output_tree : PredicateTree Expanded :=
    Not (And
      (Or (Id (mkPredicate (mkExpandedCode (bstr "CODE-1") (str "DEFAULT_ENTRYPOINT"))
            [EInline (bstr "param-1")]))
          (Id (mkPredicate (mkExpandedCode (bstr "/ADDRESS/ONE") (str "ENTRYPOINT-1"))
            [EAccountRef two (bstr "/ADDRESS/TWO"); EAccountRef three (bstr "/ADDRESS/THREE");
             EProposalRef five (EReplaceState [] (bstr "/ADDRESS/FIVE"))])))
      (And (Not (Id (mkPredicate (mkExpandedCode (bstr "CODE-2") (str "DEFAULT_ENTRYPOINT"))
             [ECalldataRef (str "calldata-1") (bstr "CALLDATA-1")])))
           (Id (mkPredicate (mkExpandedCode (bstr "/ADDRESS/FOUR") (str "ENTRYPOINT-2")) [])))) in
  assert_eq expected_output_tree (map tests_expand_predicate input_tree).

(** ** State diffs *)

Definition vec2 (x y : Byte.byte) : bytes := [x; y].
Definition account_with_state (state : bytes) : Account :=
  mkAccount state (Id (mkPredicate (CodeInline (bstr "some-code")) [])).
(** [diff.set(addr, account_with_state(state))] *)
Definition put (d : StateDiff) (a : Address) (state : bytes) : StateDiff :=
  (set d a (account_with_state state)).2.
Definition state_at `{State St} (s : St) (a : Address) (state : bytes) : Test :=
  acc ← get s a; assert_eq (acc_state acc) state.
Definition absent `{State St} (s : St) (a : Address) : Test := assert_eq (get s a) None.

Definition test_statediff_smoke : Test :=
  addr1 ← addr "/test/addr1"; addr2 ← addr "/test/addr2"; addr3 ← addr "/test/addr3";
  let store := mkStore ∅ in
  _ ← assert_eq (size (store_data store)) 0;
  let diff1 := put (put empty_diff addr1 (vec2 Byte.x00 Byte.x01)) addr2 (vec2 Byte.x02 Byte.x03) in
  store ← apply store diff1;
  _ ← assert_eq (size (store_data store)) 2;
  _ ← absent store addr3;
  _ ← state_at store addr1 (vec2 Byte.x00 Byte.x01);
  _ ← state_at store addr2 (vec2 Byte.x02 Byte.x03);
  let diff2 := (remove empty_diff addr1).2 in
  store ← apply store diff2;
  _ ← assert_eq (size (store_data store)) 1;
  _ ← absent store addr1;
  _ ← get store addr2; Some tt.

Definition test_statediff_merge : Test :=
  addr1 ← addr "/addr1"; addr2 ← addr "/addr2"; addr3 ← addr "/addr3"; addr4 ← addr "/addr4";
  addr5 ← addr "/addr5";
  _ ← assert_eq (length (iter empty_diff)) 0;
  let diff1 := put (put empty_diff addr1 (vec2 Byte.x00 Byte.x01)) addr2 (vec2 Byte.x02 Byte.x03) in
  _ ← assert_eq (length (iter diff1)) 2;
  let diff2 := put (put empty_diff addr3 (vec2 Byte.x04 Byte.x05)) addr4 (vec2 Byte.x06 Byte.x07) in
  _ ← assert_eq (length (iter diff2)) 2;
  let diff4 := diff2 in
  let diff3 := merge diff2 diff1 in
  _ ← assert_eq (length (iter diff3)) 4;
  _ ← state_at diff3 addr1 (vec2 Byte.x00 Byte.x01);
  _ ← state_at diff3 addr2 (vec2 Byte.x02 Byte.x03);
  _ ← state_at diff3 addr3 (vec2 Byte.x04 Byte.x05);
  _ ← state_at diff3 addr4 (vec2 Byte.x06 Byte.x07);
  diff3 ← apply diff3 diff4;
  _ ← assert_eq (length (iter diff3)) 4;
  let diff5 := put (remove empty_diff addr3).2 addr5 (vec2 Byte.x07 Byte.x08) in
  diff3 ← apply diff3 diff5;
  _ ← absent diff3 addr3;
  _ ← get diff3 addr5;
  _ ← assert_eq (length (iter diff3)) 5;
  let all := iter diff3 in
  assert_eq (all.*1) [addr1; addr2; addr4; addr5; addr3];;
  assert_eq (snd <$> all !! 4) (Some None).

(** ** Queries *)

Definition stdpred (entry : string) : option Code := a ← addr "/stdpred"; Some (CodeAccountRef a (str entry)).
(** The leaf of the tests that calls [entry] with an account and bytes. *)
Definition basic_leaf (entry account value : string) : option (PredicateTree Basic) :=
  c ← stdpred entry; a ← addr account;
  Some (Id (mkPredicate c [AccountRef a; Inline (bstr value)]) : PredicateTree Basic).
Definition query_leaf (entry : string) (ps : list ParamPattern) : option (PredicateTree Query) :=
  c ← stdpred entry; Some (Id (mkPredicate c ps) : PredicateTree Query).
Definition pred1 := basic_leaf "pred1" "/address1" "someval".
Definition pred2 := basic_leaf "pred2" "/address2" "someval2".
Definition captured (m : gmap rstring MatchValue) (name : string) (v : MatchValue) : Test :=
  assert_eq (m !! str name) (Some v).

Definition test_matching_single_predicate : Test :=
  pred ← pred1;
  pattern ← query_leaf "pred1" [PAccountRef (str "param1"); PInline (str "param2")];
  result ← matches pred pattern;
  a ← addr "/address1";
  captured result "param1" (MAddress a);; captured result "param2" (MBytes (bstr "someval")).

Definition test_matching_single_predicate_any : Test :=
  pred ← pred1;
  pattern ← query_leaf "pred1" [PAny; PInline (str "param2")];
  result ← matches pred pattern;
  captured result "param2" (MBytes (bstr "someval")).

Definition test_matching_single_predicate_negative : Test :=
  pred ← pred1;
  pattern ← query_leaf "pred2" [PAny; PInline (str "param2")];
  assert_eq (matches pred pattern) None.

Definition test_matching_predicate_tree : Test :=
  l ← pred1; r ← pred2;
  ql ← query_leaf "pred1" [PAccountRef (str "param1"); PInline (str "param2")];
  qr ← query_leaf "pred2" [PAccountRef (str "param3"); PInline (str "param4")];
  result ← matches (And l r) (And ql qr);
  a1 ← addr "/address1"; a2 ← addr "/address2";
  captured result "param1" (MAddress a1);; captured result "param3" (MAddress a2);;
  captured result "param2" (MBytes (bstr "someval"));; captured result "param4" (MBytes (bstr "someval2")).

Definition test_matching_predicate_tree_any : Test :=
  l ← pred1; r ← pred2;
  ql ← query_leaf "pred1" [PAccountRef (str "param1"); PAny];
  qr ← query_leaf "pred2" [PAccountRef (str "param3"); PInline (str "param4")];
  result ← matches (And l r) (And ql qr);
  a1 ← addr "/address1"; a2 ← addr "/address2";
  captured result "param1" (MAddress a1);; captured result "param3" (MAddress a2);;
  captured result "param4" (MBytes (bstr "someval2")).

Definition test_matching_predicate_tree_negative : Test :=
  l ← pred1; r ← pred2;
  ql ← query_leaf "pred1" [PAccountRef (str "param1")];
  qr ← query_leaf "pred2" [PAccountRef (str "param3"); PInline (str "param4")];
  _ ← assert_eq (matches (And l r) (And ql qr)) None;
  ql' ← query_leaf "pred1" [PAccountRef (str "param1"); PAny];
  assert_eq (matches (And l r) (Or ql' qr)) None.

Definition unit_tests : list Test := [
  test_construction; test_ancestors; test_combine; test_predicate_tree_map; test_statediff_smoke;
  test_statediff_merge; test_matching_single_predicate; test_matching_single_predicate_any;
  test_matching_single_predicate_negative; test_matching_predicate_tree;
  test_matching_predicate_tree_any; test_matching_predicate_tree_negative].

(** The definitions pass all the unit tests of the code. *)
Theorem unit_tests_pass : Forall (λ t, t = Some tt) unit_tests.
Proof. repeat constructor. Qed.
