(* ===== verification/TokenOps.v ===== *)
(** The token of the integration tests: [vm/tests/common/mod.rs] and [token_ops.rs].

    The helpers install the standard library and the token program, create the token
    "usdx", and build the transactions that mint and transfer it.  A builder returns
    [Some (Err e)] when an address does not parse ([?]), and [None] where it panics.
    The tests run them in the virtual machine; [TokenTests] has what comes of it. *)
From S2P Require Import Prelude Address Predicate State Extern Chain Sandbox ChainProps Collect.
From S2P Require Import Execution ExecutionProps Stdpred Library Query Pgqf PgqfProps.

Section token_ops.
Context `{!MultihashCrate, !Bs58Crate, !RmpU64, !Rmp bool, !Rmp Address, !Rmp Multihash,
  !Rmp (PredicateTree Basic), !Ed25519, !Ed25519Signing, !Rmp PublicKey}.
Context (stdpred_wasm token_wasm : bytes).

(** [s.parse().unwrap()] *)
Definition parse (s : rstring) : option Address := result_ok (from_str s).

(** The account of bytecode that is neither changed nor given other predicates. *)
Definition bytecode_account (stdaddr addr : Address) (bytecode : bytes) : Account :=
  mkAccount bytecode
    (And (call stdaddr (str "immutable_state") [Inline (to_vec addr)])
         (call stdaddr (str "immutable_predicates") [Inline (to_vec addr)])).

(** [install_standard_library], [install_token_bytecode] *)
Definition install_standard_library : option StateDiff :=
  stdaddr ← parse (str "/stdpred/v1");
  Some (set empty_diff stdaddr (bytecode_account stdaddr stdaddr stdpred_wasm)).2.
Definition install_token_bytecode : option StateDiff :=
  stdaddr ← parse (str "/stdpred/v1");
  tokenaddr ← parse (str "/token");
  self ← parse (str "/token");
  Some (set empty_diff self (bytecode_account stdaddr tokenaddr token_wasm)).2.

(** [create_usdx_token]: the predicates of the token account, and the account. *)
Definition usdx_predicates (tokenaddr : Address) (mint_authority : PublicKey) : option BasicTree :=
  token ← parse (str "/token");
  stdpred ← parse (str "/stdpred/v1");
  Some (And (call token (str "predicate")
               [Inline (to_vec tokenaddr); Inline (to_vec mint_authority); AccountRef tokenaddr])
            (call stdpred (str "constant") [Inline (to_vec false)])).
Definition create_usdx_token (mint_authority : PublicKey) : option StateDiff :=
  tokenaddr ← parse (str "/token/usdx");
  self ← parse (str "/token/usdx");
  predicates ← usdx_predicates tokenaddr mint_authority;
  Some (set empty_diff self (mkAccount (u64_to_vec 0) predicates)).2.

(** [create_initial_blockchain_state] *)
Definition create_initial_blockchain_state (mint_authority : PublicKey) : option StateDiff :=
  stdlib ← install_standard_library;
  state ← apply empty_diff stdlib;
  token ← install_token_bytecode;
  state ← apply state token;
  usdx ← create_usdx_token mint_authority;
  apply state usdx.

(** [precache_predicates_bytecode]: the code has to be there and to compile. *)
Definition precache_predicates_bytecode `{!Wasmer, !WasmerSerialize} (state : dyn_state) (addr : Address) :
    option StateDiff :=
  acc ← dyn_get state addr;
  m ← result_ok (module_from_binary store_new (acc_state acc));
  compiled ← result_ok (module_serialize m);
  key ← result_ok (cachekey_of (acc_state acc));
  Some (set empty_diff key (mkAccount compiled (Id (mkPredicate (CodeInline []) [])))).2.

(** ** Transactions *)

(** What [?] returns: an address that does not parse, or a state that is no integer. *)
Inductive OpsError := OpsAddress (e : AddressError) | OpsDecode.
Definition parsed {A B} (r : Result A AddressError) (k : A → option (Result B OpsError)) :
    option (Result B OpsError) :=
  match r with Ok x => k x | Err e => Some (Err (OpsAddress e)) end.

(** The predicates of a wallet that is created: a signature to spend. *)
Definition new_wallet (greater_lib signature_lib recipient : Address) (pubkey : PublicKey) : BasicTree :=
  Or (call greater_lib (str "uint_greater_than_equal") [ProposalRef recipient; AccountRef recipient])
     (call signature_lib (str "require_ed25519_signature") [Inline (public_key_as_bytes pubkey)]).

(** [state.get(addr).map(|acc| from_slice(&acc.state).unwrap())] *)
Definition read_u64 (state : dyn_state) (addr : Address) : option (option Z) :=
  match dyn_get state addr with
  | Some acc => Some <$> u64_from_slice (acc_state acc)
  | None => Some None
  end.

(** The signature that is put into the calldata of an intent. *)
Definition sign_intent (kp : Keypair) (intent : Intent Basic) : Intent Basic :=
  let '(h, intent) := signing_hash intent in
  calldata_insert intent (calldata_key kp) (signature_to_bytes (sign kp (to_bytes h))).

(** The change of the recipient's account. *)
Definition recipient_change (create : bool) (recipient : Address) (pubkey : PublicKey) (balance : Z) :
    Result AccountChange AddressError :=
  if create then
    let? greater_lib := from_str (str "/stdpred/v1") in
    let? signature_lib := from_str (str "/stdpred/v1") in
    Ok (CreateAccount (mkAccount (u64_to_vec balance) (new_wallet greater_lib signature_lib recipient pubkey)))
  else Ok (ReplaceState (u64_to_vec balance)).

(** [mint] *)
Definition mint (prof : Profile) (amount : Z) (recipient : Address) (recipient_pubkey : PublicKey)
    (auth_keypair : Keypair) (recent_blockhash : Multihash) (state : dyn_state) :
    option (Result (Transaction Basic) OpsError) :=
  parsed (from_str (str "/token/usdx")) (λ usdx,
  supply ← read_u64 state usdx;
  new_supply ← u64_add prof (default 0%Z supply) amount;
  held ← read_u64 state recipient;
  new_balance ← u64_add prof (default 0%Z held) amount;
  parsed (from_str (str "/stdpred/v1")) (λ stdpred,
  let mint_intent := intent_new (R := Basic) recent_blockhash
    (And (call stdpred (str "uint_equal") [ProposalRef usdx; Inline (u64_to_vec new_supply)])
         (call stdpred (str "uint_equal") [ProposalRef recipient; Inline (u64_to_vec new_balance)])) in
  let create := match dyn_get state recipient with Some _ => false | None => true end in
  parsed (recipient_change create recipient recipient_pubkey new_balance) (λ change,
  Some (Ok (transaction_new (R := Basic) [sign_intent auth_keypair mint_intent] (collect_map
    [(recipient, change); (usdx, ReplaceState (u64_to_vec new_supply))])))))).

(** What the two kinds of transfers have in common. *)
Definition transfer_transaction (expectations : BasicTree) (sender : Address) (sender_keypair : Keypair)
    (sender_balance : Z) (recipient : Address) (recipient_pubkey : PublicKey) (recipient_balance : Z)
    (create : bool) (recent_blockhash : Multihash) : option (Result (Transaction Basic) OpsError) :=
  let transfer_intent := intent_new (R := Basic) recent_blockhash expectations in
  parsed (recipient_change create recipient recipient_pubkey recipient_balance) (λ change,
  Some (Ok (transaction_new (R := Basic) [sign_intent sender_keypair transfer_intent] (collect_map
    [(recipient, change); (sender, ReplaceState (u64_to_vec sender_balance))])))).

(** [checked_sub], [checked_add] with [expect] *)
Definition checked_sub (x y : Z) : option Z := if (y <=? x)%Z then Some (x - y)%Z else None.
Definition checked_add (x y : Z) : option Z := if (x + y <=? u64_max)%Z then Some (x + y)%Z else None.

(** [transfer] *)
Definition transfer (amount : Z) (sender : Address) (sender_keypair : Keypair) (recipient : Address)
    (recipient_pubkey : PublicKey) (recent_blockhash : Multihash) (state : dyn_state) :
    option (Result (Transaction Basic) OpsError) :=
  sender_acc ← dyn_get state sender;
  parsed (from_str (str "/stdpred/v1")) (λ stdpred,
  let expectations :=
    And (call stdpred (str "uint_less_than_by")
           [ProposalRef sender; AccountRef sender; Inline (u64_to_vec amount)])
        (call stdpred (str "uint_greater_than_equal")
           [ProposalRef recipient; Inline (u64_to_vec amount)]) in
  match u64_from_slice (acc_state sender_acc) with
  | None => Some (Err OpsDecode)
  | Some sender_balance =>
  new_sender_balance ← checked_sub sender_balance amount;
  held ← read_u64 state recipient;
  new_recipient_balance ← match held with Some b => checked_add b amount | None => Some amount end;
  let create := match dyn_get state recipient with Some _ => false | None => true end in
  transfer_transaction expectations sender sender_keypair new_sender_balance recipient recipient_pubkey
    new_recipient_balance create recent_blockhash
  end).

(** [transfer_unchecked] *)
Definition transfer_unchecked (sender : Address) (sender_keypair : Keypair) (sender_new_balance : Z)
    (recipient : Address) (recipient_pubkey : PublicKey) (recipient_new_balance : Z)
    (recipient_create_account : bool) (recent_blockhash : Multihash) :
    option (Result (Transaction Basic) OpsError) :=
  parsed (from_str (str "/stdpred/v1")) (λ stdpred,
  transfer_transaction
    (And (call stdpred (str "uint_equal") [ProposalRef sender; Inline (u64_to_vec sender_new_balance)])
         (call stdpred (str "uint_equal") [ProposalRef recipient; Inline (u64_to_vec recipient_new_balance)]))
    sender sender_keypair sender_new_balance recipient recipient_pubkey recipient_new_balance
    recipient_create_account recent_blockhash).
End token_ops.
