(* ===== verification/TokenTests.v ===== *)
(** What the integration tests of the virtual machine find: [vm/tests/token_mint.rs],
    [token_transfer.rs] and [many_transfers.rs], over the definitions of [TokenOps].

    The token account that the tests create ends in a constant that rejects, so every
    transaction of the tests is refused; with the predicates that [token_mint.rs] expects
    of the account the same transactions are accepted, inside the virtual machine of
    [Machine] with the modules of the standard library and of the token program. *)
From S2P Require Import Prelude Address Predicate State Extern Chain Sandbox ChainProps Collect.
From S2P Require Import Execution ExecutionProps Stdpred Library Token Query Pgqf PgqfProps PgqfExamples Guest Machine TokenOps.

Definition stdv1_addr : Address := mkAddress (str "/stdpred/v1").
Definition usdx_addr : Address := mkAddress (str "/token/usdx").

Section frozen.
Context `{!MultihashCrate, !RmpU64, !Rmp bool, !Rmp Address, !Rmp (gmap bytes bytes), !Rmp (gset bytes),
  !Rmp Multihash, !Rmp (PredicateTree Basic), !Ed25519, !Ed25519Signing, !Rmp PublicKey, !Bs58Crate,
  !Wasmer, !Rmp PredicateContext, !Rmp (list ExpandedParam), !MultihashLaws, !Bs58Laws,
  !HashOrder Address, !Rmp (IntentContent Basic)} {RA : Rayon} `{StateLaws St}.
Context (wasm : bytes) `{!StdpredModule wasm} (token_wasm : bytes).

(** The addresses that the helpers parse. *)
Lemma parses : parse (str "/stdpred/v1") = Some stdv1_addr ∧ parse (str "/token") = Some (mkAddress (str "/token")) ∧
  parse (str "/token/usdx") = Some usdx_addr ∧ from_str (str "/stdpred/v1") = Ok stdv1_addr ∧
  from_str (str "/token/usdx") = Ok usdx_addr.
Proof. by vm_compute. Qed.

Lemma merge_one d a acc :
  merge d (set empty_diff a acc).2 = mkDiff (<[a := acc]> (upserts d)) (deletes d ∖ {[a]}).
Proof.
  assert (upserts (merge d (set empty_diff a acc).2) = <[a := acc]> (upserts d)) as Hu.
  { apply map_eq. intros b. rewrite upserts_merge_lookup. simpl. rewrite decide_False by set_solver.
    destruct (decide (a = b)) as [<-|Hne]; [by rewrite !lookup_insert_eq|by rewrite !lookup_insert_ne]. }
  assert (deletes (merge d (set empty_diff a acc).2) = deletes d ∖ {[a]}) as Hd.
  { rewrite deletes_merge. simpl. rewrite dom_insert_L. set_solver. }
  destruct (merge d _) as [u e]. simpl in *. by subst.
Qed.

(** The token account of the tests. *)
Definition usdx_tree (pk : PublicKey) : BasicTree :=
  And (call (mkAddress (str "/token")) (str "predicate")
         [Inline (to_vec usdx_addr); Inline (to_vec pk); AccountRef usdx_addr])
      (call stdv1_addr (str "constant") [Inline (to_vec false)]).

(** The accounts of the initial state. *)
Lemma initial_accounts pk :
  create_initial_blockchain_state wasm token_wasm pk = Some (mkDiff
    (<[usdx_addr := mkAccount (u64_to_vec 0) (usdx_tree pk)]>
    (<[mkAddress (str "/token") := bytecode_account stdv1_addr (mkAddress (str "/token")) token_wasm]>
    {[stdv1_addr := bytecode_account stdv1_addr stdv1_addr wasm]})) ∅).
Proof.
  unfold create_initial_blockchain_state, install_standard_library, install_token_bytecode, create_usdx_token,
    usdx_predicates.
  destruct parses as (-> & -> & -> & _). cbn [mbind option_bind apply StateDiff_State].
  rewrite !merge_one. reflexivity.
Qed.

(** No transaction that proposes anything for the token or for an account below it is
    accepted. *)
Lemma test_token_frozen pk d (st0 st : St) cache (tx : Transaction Basic) a :
  create_initial_blockchain_state wasm token_wasm pk = Some d → apply st0 d = Some st →
  cache_faithful wasm cache → RmpLaws bool → tx_valid tx →
  a ∈ dom (proposals tx : gmap Address AccountChange) → a = usdx_addr ∨ is_parent_of usdx_addr a = true →
  ∀ d', execute tx (Dyn st) cache ≠ Some (Ok d').
Proof.
  rewrite initial_accounts. intros [= <-] Hst Hcache Hrmp Hv Ha Hcov d' Hd.
  assert (∀ b, get st b = after (mkDiff _ ∅) b (get st0 b)) as Hget by (intros b; by apply get_apply).
  assert (dyn_get (Dyn st) usdx_addr = Some (mkAccount (u64_to_vec 0) (usdx_tree pk))) as Husdx.
  { simpl. rewrite Hget. unfold after. rewrite decide_False by set_solver. simpl.
    by rewrite lookup_insert_eq. }
  assert (acc_state <$> dyn_get (Dyn st) stdv1_addr = Some wasm) as Hlib.
  { simpl. rewrite Hget. unfold after. rewrite decide_False by set_solver. simpl.
    by rewrite !lookup_insert_ne, lookup_singleton_eq by done. }
  destruct (accepted_says (Dyn st) cache tx d' Hv Hd) as (ctx & _ & _ & _ & Hall).
  assert (covered tx usdx_addr) as Hc.
  { exists a. split; [done|]. destruct Hcov as [->|Hp]; [by left|right; split; [|done]].
    apply (new_valid (str "/token/usdx")). reflexivity. }
  destruct (says_and _ _ _ _ _ _ (Hall usdx_addr _ Hc Husdx eq_refl)) as [_ Hs].
  apply (says_call wasm (Dyn st) cache Hcache Hlib) in Hs as (eps & Hps & Hcall).
  apply Forall2_cons_inv_l in Hps as (p1 & eps1 & Hp1 & ->%Forall2_nil_inv_l & ->).
  inversion Hp1; subst. change (from_slice (to_vec false) = Some true) in Hcall.
  by rewrite from_slice_to_vec in Hcall.
Qed.

(** What the builders propose. *)
Lemma proposals_two (i : list (Intent Basic)) a b c1 c2 x :
  x ∈ dom (proposals (transaction_new (R := Basic) i (collect_map [(a, c1); (b, c2)])) : gmap Address AccountChange) ↔
  x = a ∨ x = b.
Proof.
  change (x ∈ dom (<[b := c2]> (<[a := c1]> (∅ : gmap Address AccountChange))) ↔ x = a ∨ x = b).
  rewrite !dom_insert_L. set_solver.
Qed.

Lemma mint_proposes prof amount recipient rpk kp bh s tx :
  mint prof amount recipient rpk kp bh s = Some (Ok tx) →
  ∀ x, x ∈ dom (proposals tx : gmap Address AccountChange) ↔ x = recipient ∨ x = usdx_addr.
Proof.
  unfold mint. destruct parses as (_ & _ & _ & -> & ->). cbn [parsed].
  intros (? & _ & (? & _ & (? & _ & (n & _ & Hm)%bind_Some)%bind_Some)%bind_Some)%bind_Some.
  destruct (recipient_change _ recipient rpk n) as [c|e]; [|done]. cbn [parsed] in Hm.
  injection Hm as <-. intros y. apply proposals_two.
Qed.

Lemma transfer_transaction_proposes t sender kp sb recipient rpk rb create bh tx :
  transfer_transaction t sender kp sb recipient rpk rb create bh = Some (Ok tx) →
  ∀ x, x ∈ dom (proposals tx : gmap Address AccountChange) ↔ x = recipient ∨ x = sender.
Proof.
  unfold transfer_transaction. destruct (recipient_change create recipient rpk rb) as [c|e]; [|done].
  cbn [parsed]. intros [= <-]. intros y. apply proposals_two.
Qed.

Lemma transfer_proposes amount sender kp recipient rpk bh s tx :
  transfer amount sender kp recipient rpk bh s = Some (Ok tx) →
  ∀ x, x ∈ dom (proposals tx : gmap Address AccountChange) ↔ x = recipient ∨ x = sender.
Proof.
  unfold transfer. destruct parses as (_ & _ & _ & -> & _). cbn [parsed].
  intros (acc & _ & Ht)%bind_Some. destruct (u64_from_slice (acc_state acc)) as [b|]; [|done].
  apply bind_Some in Ht as (? & _ & (? & _ & (? & _ & Ht)%bind_Some)%bind_Some).
  by eapply transfer_transaction_proposes.
Qed.

(** C32: the token of the tests cannot be used.  The tests mint and transfer tokens on the
    state that [create_initial_blockchain_state] makes.  On every store that has it, and
    for all amounts, wallets, keys and signatures, no virtual machine with the standard
    library accepts a transaction that [mint], [transfer] or [transfer_unchecked] builds
    for it: all of the tests fail. *)
Theorem token_tests_refused pk d (st0 st : St) cache :
  create_initial_blockchain_state wasm token_wasm pk = Some d → apply st0 d = Some st →
  cache_faithful wasm cache → RmpLaws bool →
  (∀ prof amount recipient rpk kp bh s tx d', valid recipient →
    mint prof amount recipient rpk kp bh s = Some (Ok tx) → execute tx (Dyn st) cache ≠ Some (Ok d')) ∧
  (∀ amount sender kp recipient rpk bh s tx d', valid sender → valid recipient → is_parent_of usdx_addr sender = true →
    (transfer amount sender kp recipient rpk bh s = Some (Ok tx) ∨
     ∃ b1 b2 create, transfer_unchecked sender kp b1 recipient rpk b2 create bh = Some (Ok tx)) →
    execute tx (Dyn st) cache ≠ Some (Ok d')).
Proof.
  intros Hd Hst Hcache Hrmp. split.
  - intros prof amount recipient rpk kp bh s tx d' Hr Hm. pose proof (mint_proposes _ _ _ _ _ _ _ _ Hm) as Hp.
    apply (test_token_frozen pk d st0 st cache tx usdx_addr Hd Hst Hcache Hrmp).
    + intros y [->|Hy]%Hp; [exact Hr|]. subst y. apply (new_valid (str "/token/usdx")). reflexivity.
    + apply Hp. by right.
    + by left.
  - intros amount sender kp recipient rpk bh s tx d' Hvs Hvr Hpar Ht.
    assert (∀ x, x ∈ dom (proposals tx : gmap Address AccountChange) ↔ x = recipient ∨ x = sender) as Hp.
    { destruct Ht as [Ht|(b1 & b2 & create & Ht)]; [by eapply transfer_proposes|].
      unfold transfer_unchecked in Ht. rewrite (proj1 (proj2 (proj2 (proj2 parses)))) in Ht. cbn [parsed] in Ht.
      by eapply transfer_transaction_proposes. }
    apply (test_token_frozen pk d st0 st cache tx sender Hd Hst Hcache Hrmp).
    + intros y [->|Hy]%Hp; [exact Hvr|]. by subst y.
    + apply Hp. by right.
    + by right.
Qed.
End frozen.

(** The keys and wallets of the examples. *)
Definition authority : Keypair := Byte.x6d.
Definition alice : Keypair := Byte.x61.
Definition bob : Keypair := Byte.x62.
Definition alice_address : Address := mkAddress (str "/token/usdx/alice.eth").
Definition bob_address : Address := mkAddress (str "/token/usdx/bob.eth").

Section refused.
#[local] Existing Instance library_rmp_context.
#[local] Existing Instance library_wasmer.
#[local] Instance refused_order : HashOrder Address := map_order Address.
#[local] Instance refused_schedule : Rayon := sequential.

Lemma store_applies (st : InMemoryStateStore) d : apply st d = Some (store_apply st d).
Proof. done. Qed.

(** The first transaction of [mint_tokens]. *)
Definition first_mint (st : InMemoryStateStore) : option (Result (Transaction Basic) OpsError) :=
  mint Debug 1000 alice_address (keypair_public alice) authority (bstr "test1") (Dyn st).

Lemma token_tests_refused_witness :
  ∃ d tx, create_initial_blockchain_state library_code (bstr "token") (keypair_public authority) = Some d ∧
    first_mint (store_apply (mkStore ∅) d) = Some (Ok tx) ∧
    ∀ d', execute tx (Dyn (store_apply (mkStore ∅) d)) (Dyn empty_diff) ≠ Some (Ok d').
Proof.
  eexists. assert (∀ d, create_initial_blockchain_state library_code (bstr "token") (keypair_public authority) = Some d →
    is_Some (first_mint (store_apply (mkStore ∅) d) ≫= result_ok)) as Hbuilt.
  { intros d. rewrite initial_accounts. intros [= <-]. apply (bool_decide_unpack _). vm_compute. exact I. }
  specialize (Hbuilt _ (initial_accounts library_code (bstr "token") (keypair_public authority))).
  destruct (first_mint _) as [[tx|e]|] eqn:Hm; [|destruct Hbuilt; discriminate..].
  exists tx. split; [apply initial_accounts|]. split; [exact Hm|]. intros d'.
  destruct (token_tests_refused library_code (bstr "token") (keypair_public authority) _ (mkStore ∅)
    (store_apply (mkStore ∅) _) (Dyn empty_diff)
    (initial_accounts library_code (bstr "token") (keypair_public authority)) (store_applies _ _)) as [Hmint _].
  - apply empty_cache_faithful.
  - exact (rmp_countable_laws bool).
  - unfold first_mint in Hm. eapply Hmint; [|exact Hm]. apply (new_valid (str "/token/usdx/alice.eth")). reflexivity.
Defined.
End refused.

(** ** The token that the tests expect, in the virtual machine *)

#[local] Existing Instance compact_rmp_context.
#[local] Existing Instance sdk_machine.
#[local] Instance tests_order : HashOrder Address := map_order Address.
#[local] Instance tests_schedule : Rayon := sequential.


(** The predicates that [mint_tokens] asserts of the token account, and a state in which
    the account has them. *)
Definition expected_tree : BasicTree :=
  And (call (mkAddress (str "/token")) (str "predicate")
         [Inline (to_vec usdx_addr); Inline (to_vec (keypair_public authority)); AccountRef usdx_addr])
      (call stdv1_addr (str "immutable_predicates") [Inline (to_vec usdx_addr)]).
Definition initial_store (expected : bool) : InMemoryStateStore :=
  match create_initial_blockchain_state library_code token_code (keypair_public authority) with
  | Some d =>
      let st := store_apply (mkStore ∅) d in
      if expected then mkStore (<[usdx_addr := mkAccount (u64_to_vec 0) expected_tree]> (store_data st)) else st
  | None => mkStore ∅
  end.

(** [store.apply(anoma_vm::execute(tx?, &store, &cache)?)] *)
Definition run_on (st : InMemoryStateStore)
    (tx : dyn_state → option (Result (Transaction Basic) OpsError)) : option InMemoryStateStore :=
  match tx (Dyn st) with
  | Some (Ok tx) =>
      match execute tx (Dyn st) (Dyn empty_diff) with
      | Some (Ok d) => apply st d
      | _ => None
      end
  | _ => None
  end.
Definition mint_by (authority : Keypair) (st : dyn_state) : option (Result (Transaction Basic) OpsError) :=
  mint Debug 1000 alice_address (keypair_public alice) authority (bstr "test3") st.
Definition test_steps : list (dyn_state → option (Result (Transaction Basic) OpsError)) := [
  mint_by authority; transfer 400 alice_address alice bob_address (keypair_public bob) (bstr "test3")].
Definition balances (st : InMemoryStateStore) : list (option Z) :=
  balance_at (Dyn st) <$> [usdx_addr; alice_address; bob_address].

Definition outcome (expected : bool) (steps : list (dyn_state → option (Result (Transaction Basic) OpsError))) :
    option (list (option Z)) :=
  balances <$> foldM run_on (initial_store expected) steps.

(** The token that the tests expect works.  When the token account has the predicates
    that [mint_tokens] asserts, the transactions of [transfer_token] are accepted one
    after the other and leave the supply and the balances that the test asserts, while
    minting and transferring with the signature of somebody else is refused; with the
    account as the tests create it minting is refused in any case. *)
Theorem expected_token_works :
  outcome true test_steps = Some [Some 1000%Z; Some 600%Z; Some 400%Z] ∧
  outcome true [mint_by bob] = None ∧
  outcome true [mint_by authority;
    transfer 400 alice_address bob bob_address (keypair_public bob) (bstr "test3")] = None ∧
  outcome false [mint_by authority] = None.
Proof. do 3 (split; [vm_compute; reflexivity|]). vm_compute. reflexivity. Qed.
