(* ===== verification/Builder.v ===== *)
(** Accumulating blocks: [sdk/offchain/src/builder.rs] and the mempool of the
    development node, [sdk/devnode/src/mempool.rs].

    A builder checks that a block continues the chain, executes its transactions
    and applies their changes to the account state and to the cache of compiled
    modules.  Both stores are accessed through the [State] interface only; the
    theorems are proved against its laws. *)
From S2P Require Import Prelude Address Predicate State Extern Chain Sandbox ChainProps Collect.
From S2P Require Import Execution ExecutionProps Schedule Forest ScheduleProps.

Section builder.
Context `{!MultihashCrate, !Bs58Crate, !Wasmer, !WasmerSerialize, !HashOrder Address,
  !Rmp (IntentContent Basic), !Rmp (TxContent Basic), !Rmp BlockContent, !Rmp PredicateContext,
  !Rmp (list ExpandedParam), !Petgraph} `{State St, State Ca}.
Context (RA : nat → Rayon) (prof : Profile).

(** [pub enum Error] *)
Inductive BuilderError :=
| InvalidBlockHeight (height expected : Z)
| InvalidBlockParent (parent expected : Multihash)
| NoInitialBlocks.

(** [pub struct BlockStateBuilder]; the front of the deque is the head. *)
Record BlockStateBuilder := mkBuilder {
  history_len : nat;
  state : St;
  codecache : Ca;
  recent : list Block;
}.

(** [impl State for BlockStateBuilder]: [apply] is [unimplemented!]. *)
#[global] Instance BlockStateBuilder_State : State BlockStateBuilder := {|
  get self address := get (state self) address;
  apply self _ := None;
|}.

(** [BlockStateBuilder::new] *)
Definition builder_new (history_len : nat) (state : St) (codecache : Ca) (recent : list Block) :
    Result BlockStateBuilder BuilderError :=
  match recent with
  | [] => Err NoInitialBlocks
  | _ => Ok (mkBuilder history_len state codecache recent)
  end.

(** [BlockStateBuilder::last]; [None] is the panic of [expect]. *)
Definition last (self : BlockStateBuilder) : option Block := head (recent self).

(** [self.last().hash()], which may fill the cell of the last block. *)
Definition last_hash (self : BlockStateBuilder) : option (Multihash * BlockStateBuilder) :=
  match recent self with
  | [] => None
  | b :: bs =>
      let '(h, b) := block_hash b in
      Some (h, mkBuilder (history_len self) (state self) (codecache self) (b :: bs))
  end.

(** [self.recent.push_front(block)] and the [pop_back] beyond the length kept. *)
Definition push_recent (self : BlockStateBuilder) (block : Block) : list Block :=
  let recent := block :: recent self in
  if (history_len self <? length recent)%nat then removelast recent else recent.

(** [results.filter_map(ok).reduce(merge).unwrap_or_default()] *)
Definition merge_results (results : list (Result StateDiff ExecError)) : StateDiff :=
  match omap result_ok results with
  | [] => empty_diff
  | d :: ds => foldl merge d ds
  end.

Definition WASM_SIG : bytes := [Byte.x00; Byte.x61; Byte.x73; Byte.x6d].

(** The body of the loop of [try_precompile_predicates]; [None] is the panic of
    [expect] on the key. *)
Definition precompile_change (output : StateDiff) (e : Address * option Account) :
    option StateDiff :=
  match e.2 with
  | Some change =>
      if starts_with (acc_state change) WASM_SIG then
        match module_from_binary store_new (acc_state change) with
        | Ok compiled =>
            let codehash := sha3_256 (acc_state change) in
            match module_serialize compiled with
            | Ok serialized =>
                match from_str (str "/predcache/" ++ bs58_encode (to_bytes codehash)) with
                | Ok key =>
                    Some (set output key
                      (mkAccount serialized (Id (mkPredicate (CodeInline []) [])))).2
                | Err _ => None
                end
            | Err _ => Some output
            end
        | Err _ => Some output
        end
      else Some output
  | None => Some output
  end.

(** [try_precompile_predicates] *)
Definition try_precompile_predicates (diff : StateDiff) : option StateDiff :=
  foldM precompile_change empty_diff (iter diff).

(** The transactions of the block once [tx.hash()] has filled their cells. *)
Definition hashed_transactions (block : Block) : list (Transaction Basic) :=
  (λ tx, (tx_hash tx).2) <$> transactions block.

(** [BlockStateBuilder::consume] *)
Definition consume (self : BlockStateBuilder) (block : Block) :
    option (Result unit BuilderError * BlockStateBuilder) :=
  last ← last self;
  let prev_height := height last in
  '(prev_hash, self) ← last_hash self;
  if negb (bool_decide (prev_hash = parent block))
  then Some (Err (InvalidBlockParent (parent block) prev_hash), self)
  else
    next ← u64_add prof prev_height 1;
    if negb (next =? height block)%Z
    then Some (Err (InvalidBlockHeight (height block) next), self)
    else
      let recent := push_recent self block in
      results ← execute_many RA (Dyn (state self)) (Dyn (codecache self))
        (hashed_transactions block);
      let statediff := merge_results results in
      compiled ← try_precompile_predicates statediff;
      codecache' ← apply (codecache self) compiled;
      state' ← apply (state self) statediff;
      Some (Ok tt, mkBuilder (history_len self) state' codecache' recent).

(** ** The mempool *)

(** [pub struct Mempool] *)
Record Mempool := mkMempool { txs : list (Transaction Basic); blocks : BlockStateBuilder }.

(** [Mempool::new], [Mempool::consume] *)
Definition mempool_new (block_consumer : BlockStateBuilder) : Mempool :=
  mkMempool [] block_consumer.
Definition mempool_consume (self : Mempool) (tx : Transaction Basic) : Mempool :=
  mkMempool (txs self ++ [tx]) (blocks self).

(** [Mempool::produce]; [Block::new] hashes the parent in place. *)
Definition produce (self : Mempool) : option (Block * Mempool) :=
  parent ← last (blocks self);
  block ← block_new prof parent (txs self);
  '(_, blocks) ← last_hash (blocks self);
  '(r, blocks) ← consume blocks block;
  match r with
  | Ok _ => Some (block, mkMempool [] blocks)
  | Err _ => None
  end.

(** ** The changes of a block *)

(** What the results say about an account, in the order of the transactions. *)
Definition after_results (results : list (Result StateDiff ExecError)) (a : Address)
    (before : option Account) : option Account :=
  foldl (λ acc r, match r with Ok d => after d a acc | Err _ => acc end) before results.

Lemma after_empty a before : after empty_diff a before = before.
Proof. unfold after. rewrite decide_False by set_solver. simpl. by rewrite lookup_empty. Qed.

Lemma after_merge_list d ds a before :
  after (foldl merge d ds) a before = foldl (λ acc d, after d a acc) (after d a before) ds.
Proof.
  revert d. induction ds as [|d' ds IH]; intros d; simpl; [done|]. by rewrite IH, after_merge.
Qed.

Lemma after_merge_results results a before :
  after (merge_results results) a before = after_results results a before.
Proof.
  assert (after_results results a before =
    foldl (λ acc d, after d a acc) before (omap result_ok results)) as ->.
  { unfold after_results. revert before.
    induction results as [|[d|e] rs IH]; intros before; simpl; [done|apply IH..]. }
  unfold merge_results. destruct (omap result_ok results) as [|d ds]; simpl;
    [apply after_empty|apply after_merge_list].
Qed.

Lemma upserts_merge_results results a acc :
  upserts (merge_results results) !! a = Some acc →
  ∃ d, Ok d ∈ results ∧ upserts d !! a = Some acc.
Proof.
  assert (∀ ds d, upserts (foldl merge d ds) !! a = Some acc →
    ∃ d', d' ∈ d :: ds ∧ upserts d' !! a = Some acc) as Hf.
  { induction ds as [|d' ds IH]; intros d; simpl; [exists d; split; [by left|done]|].
    intros (d'' & [-> | Hin]%elem_of_cons & Hd)%IH; [|exists d''; split; [by right; right|done]].
    rewrite upserts_merge_lookup in Hd. repeat case_decide; simplify_eq;
      destruct (upserts d' !! a) as [acc'|] eqn:Hd'; simplify_eq.
    - exists d'. split; [set_solver|done].
    - exists d. split; [set_solver|done]. }
  unfold merge_results. destruct (omap result_ok results) as [|d ds] eqn:Ho; simpl.
  { by rewrite lookup_empty. }
  intros (d' & Hin & Hd)%Hf. exists d'. split; [|done]. rewrite <-Ho in Hin.
  apply list_elem_of_omap in Hin as ([d0|e] & Hin & Heq); by simplify_eq/=.
Qed.
End builder.

Section precompile.
Context `{!MultihashCrate, !Bs58Crate, !MultihashLaws, !Bs58Laws, !Wasmer, !WasmerSerialize}.

(** The key and the bytes that compiling the code [c] puts into the cache. *)
Definition precompiled (c : bytes) (key : Address) (val : bytes) : Prop :=
  starts_with c WASM_SIG = true ∧ cachekey_of c = Ok key ∧
  ∃ m, module_from_binary store_new c = Ok m ∧ module_serialize m = Ok val.

Lemma precompile_change_spec out e :
  ∃ out', precompile_change out e = Some out' ∧ deletes out' ⊆ deletes out ∧
    (∀ key, (∃ acc, e.2 = Some acc ∧ ∃ val, precompiled (acc_state acc) key val ∧
        acc_state <$> upserts out' !! key = Some val) ∨
      (upserts out' !! key = upserts out !! key ∧
        ∀ acc val, e.2 = Some acc → ¬ precompiled (acc_state acc) key val)).
Proof.
  unfold precompile_change. destruct e as [a [acc|]]; cbn [snd].
  2: { exists out. split; [done|]. split; [done|]. by right. }
  destruct (starts_with (acc_state acc) WASM_SIG) eqn:Hs.
  2: { exists out. split; [done|]. split; [done|]. right. split; [done|].
       intros ? ? [= <-] [Hs' _]. congruence. }
  destruct (module_from_binary store_new (acc_state acc)) as [m|] eqn:Hm.
  2: { exists out. split; [done|]. split; [done|]. right. split; [done|].
       intros ? ? [= <-] (_ & _ & m & Hm' & _). congruence. }
  destruct (module_serialize m) as [val|] eqn:Hv.
  2: { exists out. split; [done|]. split; [done|]. right. split; [done|].
       intros ? ? [= <-] (_ & _ & m' & Hm' & Hv'). congruence. }
  destruct (cachekey_ok (acc_state acc)) as [Hkey _]. unfold from_str.
  unfold cachekey_of in Hkey. rewrite Hkey. eexists. split; [done|]. simpl.
  split; [set_solver|]. intros key.
  destruct (decide (key = mkAddress (str "/predcache/" ++
    bs58_encode (to_bytes (sha3_256 (acc_state acc)))))) as [->|Hne].
  - left. exists acc. split; [done|]. exists val. rewrite lookup_insert_eq. split; [|done].
    split; [done|]. split; [done|]. by exists m.
  - right. rewrite lookup_insert_ne by done. split; [done|].
    intros ? ? [= <-] (_ & Hkey' & _). unfold cachekey_of in Hkey'. congruence.
Qed.

Lemma precompile_spec diff :
  ∃ out, try_precompile_predicates diff = Some out ∧ deletes out = ∅ ∧
    (∀ key val, upserts out !! key = Some val →
      ∃ a acc, upserts diff !! a = Some acc ∧ precompiled (acc_state acc) key (acc_state val)) ∧
    (∀ a acc key val, upserts diff !! a = Some acc → precompiled (acc_state acc) key val →
      is_Some (upserts out !! key)).
Proof.
  assert (∀ l out, ∃ out', foldM precompile_change out l = Some out' ∧
    deletes out' ⊆ deletes out ∧
    (∀ key val, upserts out' !! key = Some val → upserts out !! key = Some val ∨
      ∃ a acc, (a, Some acc) ∈ l ∧ precompiled (acc_state acc) key (acc_state val)) ∧
    (∀ key, is_Some (upserts out !! key) → is_Some (upserts out' !! key)) ∧
    (∀ a acc key val, (a, Some acc) ∈ l → precompiled (acc_state acc) key val →
      is_Some (upserts out' !! key))) as Hl.
  { induction l as [|[a ch] l IH]; intros out; cbn [foldM].
    - exists out. split; [done|]. split; [done|]. split; [by left|]. split; [done|].
      by intros ? ? ? ? ?%elem_of_nil.
    - destruct (precompile_change_spec out (a, ch)) as (o1 & -> & Hd1 & Hstep). cbn [mbind option_bind].
      destruct (IH o1) as (o2 & -> & Hd2 & Hfrom & Hkeep & Hall). exists o2.
      split; [done|]. split; [set_solver|]. simpl in Hstep. split; [|split].
      + intros key val Hk. destruct (Hfrom key val Hk) as [Ho1|(a' & acc & Hin & Hp)].
        2: { right. exists a', acc. split; [by right|done]. }
        destruct (Hstep key) as [(acc & -> & v & Hp & Hv)|[Heq _]].
        * right. exists a, acc. split; [by left|]. rewrite Ho1 in Hv. by injection Hv as ->.
        * left. congruence.
      + intros key Hk. apply Hkeep. destruct (Hstep key) as [(acc & _ & v & _ & Hv)|[-> _]]; [|done].
        by apply fmap_Some in Hv as (? & -> & _).
      + intros a' acc key val [[= -> <-]|Hin]%elem_of_cons Hp; [|by eapply Hall].
        apply Hkeep. destruct (Hstep key) as [(acc' & _ & v & _ & Hv)|[_ Hno]].
        * by apply fmap_Some in Hv as (? & -> & _).
        * by destruct (Hno acc val eq_refl). }
  destruct (Hl (iter diff) empty_diff) as (out & Hout & Hd & Hfrom & _ & Hall).
  exists out. split; [done|]. split; [set_solver|].
  assert (∀ a acc, (a, Some acc) ∈ iter diff ↔ upserts diff !! a = Some acc) as Hiter.
  { apply elem_of_iter_some. }
  split.
  - intros key val Hk. destruct (Hfrom key val Hk) as [He|(a & acc & Hin & Hp)].
    + simpl in He. by rewrite lookup_empty in He.
    + exists a, acc. by rewrite <-Hiter.
  - intros a acc key val Ha. apply Hall with (a := a). by apply Hiter.
Qed.
End precompile.

Section consume.
Context `{!MultihashCrate, !Bs58Crate, !MultihashLaws, !Bs58Laws, !Wasmer, !WasmerSerialize,
  !HashOrder Address, !Rmp (IntentContent Basic), !Rmp (TxContent Basic), !Rmp BlockContent,
  !Rmp PredicateContext, !Rmp (list ExpandedParam), !Petgraph, !PetgraphLaws}
  `{StateLaws St, StateLaws Ca}.
Context (RA : nat → Rayon) (prof : Profile).
Implicit Types (self : BlockStateBuilder (St := St) (Ca := Ca)) (b block : Block).

(** The hash of a block whose cell is empty or right. *)
Definition content_hash b : Multihash := sha3_256 (to_vec (block_content b)).

(** The height after that of [b]; in a debug build there must be one. *)
Definition next_height b : Z := ((height b + 1) mod u64_modulus)%Z.
Definition has_next b : Prop := is_u64 (height b) ∧ (prof = Debug → height b < u64_max)%Z.

Lemma next_height_add b :
  is_u64 (height b) →
  (has_next b → u64_add prof (height b) 1 = Some (next_height b)) ∧
  ∀ next, u64_add prof (height b) 1 = Some next → next = next_height b.
Proof.
  unfold has_next, u64_add, next_height, is_u64. rewrite u64_modulus_max. intros Hr.
  destruct (Z.leb_spec (height b + 1) u64_max).
  - rewrite Z.mod_small by lia. split; [done|congruence].
  - destruct prof; split; [done|congruence| |done]. intros [_ Hd]. specialize (Hd eq_refl). lia.
Qed.

Lemma next_height_range b : is_u64 (next_height b).
Proof.
  unfold next_height, is_u64. pose proof (Z.mod_pos_bound (height b + 1) u64_modulus).
  rewrite u64_modulus_max in *. unfold u64_max in *. lia.
Qed.

Lemma same_content b b' :
  block_content b' = block_content b →
  content_hash b' = content_hash b ∧ height b' = height b ∧ parent b' = parent b.
Proof. unfold content_hash. intros Hc. rewrite Hc. by injection Hc. Qed.

Lemma last_hash_spec self b bs :
  recent self = b :: bs → block_cache_ok b →
  ∃ b', block_content b' = block_content b ∧ block_cache_ok b' ∧
    last_hash self = Some (content_hash b,
      mkBuilder (history_len self) (state self) (codecache self) (b' :: bs)).
Proof.
  intros Hr Hb. unfold last_hash. rewrite Hr. destruct (block_hash_ok b Hb) as [Hh Hok].
  pose proof (block_hash_content b) as Hc. destruct (block_hash b) as [h b']. simpl in *.
  exists b'. rewrite Hh. done.
Qed.

Lemma hashed_valid block :
  (∀ tx, tx ∈ transactions block → tx_valid tx) →
  ∀ tx, tx ∈ hashed_transactions block → tx_valid tx.
Proof.
  intros Hv tx (tx0 & -> & Hin)%list_elem_of_fmap. intros p Hp. apply (Hv tx0 Hin p).
  unfold tx_hash in Hp. by destruct (get_or_init _ _).
Qed.

(** What [consume] does in each of its three cases. *)
Definition accepted self block self' : Prop :=
  ∃ results out,
    execute_many RA (Dyn (state self)) (Dyn (codecache self)) (hashed_transactions block) =
      Some results ∧
    (∀ a, get (state self') a = after_results results a (get (state self) a)) ∧
    try_precompile_predicates (merge_results results) = Some out ∧
    apply (codecache self) out = Some (codecache self').

Lemma consume_cases self block b bs :
  recent self = b :: bs → block_cache_ok b → is_u64 (height b) →
  ∃ b', block_content b' = block_content b ∧ block_cache_ok b' ∧
  let self1 := mkBuilder (history_len self) (state self) (codecache self) (b' :: bs) in
  (parent block ≠ content_hash b →
    consume RA prof self block =
      Some (Err (InvalidBlockParent (parent block) (content_hash b)), self1)) ∧
  (parent block = content_hash b → height block ≠ next_height b →
    consume RA prof self block = None ∨
    consume RA prof self block =
      Some (Err (InvalidBlockHeight (height block) (next_height b)), self1)) ∧
  (parent block = content_hash b → height block = next_height b →
    consume RA prof self block = None ∨
    ∃ self', consume RA prof self block = Some (Ok tt, self') ∧
      history_len self' = history_len self ∧ recent self' = push_recent self1 block ∧
      accepted self block self') ∧
  (has_next b → (∀ tx, tx ∈ transactions block → tx_valid tx) →
    consume RA prof self block ≠ None).
Proof.
  intros Hr Hb Hh. destruct (last_hash_spec self b bs Hr Hb) as (b' & Hc & Hok & Hl).
  destruct (next_height_add b Hh) as [Hadd Hnext].
  exists b'. split; [done|]. split; [done|]. cbv zeta. unfold consume, last. rewrite Hl, Hr.
  cbn [head mbind option_bind].
  case_bool_decide as Hp; cbn [negb].
  2: { split; [done|]. split; [congruence|]. split; [congruence|done]. }
  split; [congruence|].
  destruct (u64_add prof (height b) 1) as [next|] eqn:Hn; cbn [mbind option_bind].
  2: { split; [by left|]. split; [by left|]. intros Hhas. by specialize (Hadd Hhas). }
  rewrite (Hnext next eq_refl) in *.
  destruct (Z.eqb_spec (next_height b) (height block)) as [Heq|Hne]; cbn [negb].
  2: { split; [by right|]. split; [congruence|done]. }
  split; [congruence|]. cbn [state codecache history_len].
  destruct (execute_many RA (Dyn (state self)) (Dyn (codecache self)) (hashed_transactions block))
    as [results|] eqn:Hrun; cbn [mbind option_bind].
  2: { split; [by left|]. intros _ Hv. exfalso.
       destruct (all_refs (Dyn (state self)) (hashed_transactions block)) as [refs Hrefs];
         [by apply hashed_valid|].
       destruct (execute_many_run RA (Dyn (state self)) (Dyn (codecache self)) _ refs
         (hashed_valid block Hv) Hrefs) as (g & rs & _ & _ & Hrs & _). congruence. }
  destruct (precompile_spec (merge_results results)) as (out & Hout & _). rewrite Hout.
  cbn [mbind option_bind].
  destruct (apply_total (codecache self) out) as [cc Hcc].
  destruct (apply_total (state self) (merge_results results)) as [st Hst].
  rewrite Hcc. cbn [mbind option_bind]. rewrite Hst. cbn [mbind option_bind]. split; [|done].
  right. eexists. split; [done|]. split; [done|]. split; [done|].
  exists results, out. split; [done|]. split; [|done].
  intros a. simpl. by rewrite (get_apply _ _ _ _ Hst), after_merge_results.
Qed.

(** A chain of blocks, the newest first. *)
Fixpoint linked (bs : list Block) : Prop :=
  match bs with
  | b :: ((p :: _) as bs) =>
      parent b = content_hash p ∧ height b = next_height p ∧ linked bs
  | _ => True
  end.

(** The invariant of a builder that starts from a chain. *)
Definition chain_ok self : Prop :=
  recent self ≠ [] ∧ linked (recent self) ∧
  Forall block_cache_ok (recent self) ∧ Forall (λ b, is_u64 (height b)) (recent self).

Lemma linked_removelast bs : linked bs → linked (removelast bs).
Proof.
  induction bs as [|b [|p [|q bs]] IH]; [done..|]. intros (Hp & Hh & Hl).
  split; [done|]. split; [done|]. by apply IH.
Qed.

Lemma Forall_removelast {A} (P : A → Prop) l : Forall P l → Forall P (removelast l).
Proof.
  induction 1 as [|x l Hx Hl IH]; simpl; [constructor|]. destruct l; [constructor|by constructor].
Qed.

Lemma length_removelast {A} (l : list A) : length (removelast l) = length l - 1.
Proof.
  induction l as [|x l IH]; simpl; [done|]. destruct l; [done|]. simpl in *. lia.
Qed.

Lemma push_recent_ok self block b bs :
  chain_ok self → recent self = b :: bs → block_cache_ok block →
  parent block = content_hash b → height block = next_height b →
  ∃ k, push_recent self block = block :: k ∧ linked (block :: k) ∧
    Forall block_cache_ok (block :: k) ∧ Forall (λ b, is_u64 (height b)) (block :: k) ∧
    length (block :: k) ≤ Nat.max (history_len self) (length (recent self)).
Proof.
  intros (_ & Hl & Hc & Hu) Hr Hb Hp Hh. rewrite Hr in *.
  assert (linked (block :: b :: bs)) as Hl' by done.
  assert (Forall block_cache_ok (block :: b :: bs)) as Hc' by by constructor.
  assert (Forall (λ b, is_u64 (height b)) (block :: b :: bs)) as Hu'.
  { constructor; [rewrite Hh; apply next_height_range|done]. }
  unfold push_recent. rewrite Hr.
  destruct (Nat.ltb_spec (history_len self) (length (block :: b :: bs))).
  - exists (removelast (b :: bs)). change (block :: removelast (b :: bs)) with
      (removelast (block :: b :: bs)).
    split; [done|]. split; [by apply linked_removelast|].
    split; [by apply Forall_removelast|]. split; [by apply Forall_removelast|].
    rewrite length_removelast. simpl. lia.
  - exists (b :: bs). simpl in *. repeat (split; [done|]). lia.
Qed.
End consume.

Section properties.
Context `{!MultihashCrate, !Bs58Crate, !MultihashLaws, !Bs58Laws, !Wasmer, !WasmerSerialize,
  !HashOrder Address, !Rmp (IntentContent Basic), !Rmp (TxContent Basic), !Rmp BlockContent,
  !Rmp PredicateContext, !Rmp (list ExpandedParam), !Petgraph, !PetgraphLaws}
  `{StateLaws St, StateLaws Ca}.
Context (RA : nat → Rayon) (prof : Profile).
Implicit Types (self : BlockStateBuilder (St := St) (Ca := Ca)) (b block : Block).

(** C24: a builder takes exactly the blocks that continue its chain.  If the height
    has a successor and the addresses in the block were built by the constructor,
    [consume] does not panic.  A block that does not name the last one as its
    parent is refused for that, one that does with a wrong height for that, and a
    refused block changes nothing.  Every other block is taken: it becomes the
    last one, and each account is what it was before, changed by the diff of each
    of the block's transactions that succeeded, in their order. *)
Theorem consume_spec self block b bs :
  recent self = b :: bs → block_cache_ok b → has_next prof b →
  (∀ tx, tx ∈ transactions block → tx_valid tx) →
  ∃ r self', consume RA prof self block = Some (r, self') ∧
  history_len self' = history_len self ∧
  (r ≠ Ok tt → state self' = state self ∧ codecache self' = codecache self ∧
    block_content <$> recent self' = block_content <$> recent self) ∧
  (parent block ≠ content_hash b → r = Err (InvalidBlockParent (parent block) (content_hash b))) ∧
  (parent block = content_hash b → height block ≠ next_height b →
    r = Err (InvalidBlockHeight (height block) (next_height b))) ∧
  (parent block = content_hash b → height block = next_height b →
    r = Ok tt ∧ head (recent self') = Some block ∧
    ∃ results, execute_many RA (Dyn (state self)) (Dyn (codecache self))
        (hashed_transactions block) = Some results ∧
      ∀ a, get (state self') a = after_results results a (get (state self) a)).
Proof.
  intros Hr Hb Hn Hv.
  destruct (consume_cases RA prof self block b bs Hr Hb (proj1 Hn)) as
    (b' & Hc & Hok & Hpar & Hhei & Hacc & Htot). specialize (Htot Hn Hv).
  destruct (decide (parent block = content_hash b)) as [Hp|Hp].
  2: { eexists _, _. split; [by apply Hpar|]. split; [done|].
       split; [intros _; simpl; by rewrite Hr, !fmap_cons, Hc|]. done. }
  destruct (decide (height block = next_height b)) as [Hh|Hh].
  - destruct (Hacc Hp Hh) as [|(self' & Hcons & Hhl & Hrec & results & out & Hrun & Hget & _)];
      [done|].
    exists (Ok tt), self'. split; [done|]. split; [done|]. split; [done|]. split; [done|].
    split; [done|]. intros _ _. split; [done|]. split; [|by exists results].
    rewrite Hrec. unfold push_recent. cbn [recent history_len]. by destruct (_ <? _)%nat.
  - destruct (Hhei Hp Hh) as [|Hcons]; [done|]. eexists _, _. split; [done|]. split; [done|].
    split; [intros _; simpl; by rewrite Hr, !fmap_cons, Hc|]. done.
Qed.

(** Whatever blocks a builder is given, taken or refused, what it remembers is
    a chain: every block names the hash of the one before it and has the next
    height; the newest one is never forgotten, and the length stays bounded. *)
Theorem builder_chain self self' (bs : list Block) :
  chain_ok self → Forall block_cache_ok bs →
  foldM (λ s b, snd <$> consume RA prof s b) self bs = Some self' →
  chain_ok self' ∧ length (recent self') ≤ Nat.max (history_len self) (length (recent self)).
Proof.
  intros Hok Hbs. revert self Hok. induction Hbs as [|block bs Hb _ IH]; intros self Hok;
    cbn [foldM]; [intros [= <-]; split; [done|lia]|].
  intros (self1 & (p & Hcons & ->)%fmap_Some & Hrest)%bind_Some.
  assert (chain_ok p.2 ∧ history_len p.2 = history_len self ∧
    length (recent p.2) ≤ Nat.max (history_len self) (length (recent self))) as (Hok1 & Hhl & Hlen).
  { destruct (recent self) as [|l ls] eqn:Hr; [by destruct (proj1 Hok)|].
    destruct Hok as (Hne & Hlk & Hcs & Hus). rewrite Hr in *.
    apply Forall_cons in Hcs as [Hl Hls]. apply Forall_cons in Hus as [Hul Huls].
    destruct (consume_cases RA prof self block l ls Hr Hl Hul) as
      (l' & Hc & Hokl & Hpar & Hhei & Hacc & _).
    destruct (same_content l l' Hc) as (Hch & Hht & Hpt).
    assert (linked (l' :: ls)) as Hlk'.
    { destruct ls as [|q ls]; [done|]. destruct Hlk as (Hq & Hqh & Hlk). split; [congruence|].
      split; [|done]. congruence. }
    assert (chain_ok (mkBuilder (history_len self) (state self) (codecache self) (l' :: ls)))
      as Hok1.
    { split; [done|]. split; [done|]. split; [by constructor|]. constructor; [|done].
      by rewrite Hht. }
    destruct (decide (parent block = content_hash l)) as [Hp|Hp].
    2: { rewrite (Hpar Hp) in Hcons. injection Hcons as <-. split; [done|]. split; [done|].
         simpl. lia. }
    destruct (decide (height block = next_height l)) as [Hh|Hh].
    2: { destruct (Hhei Hp Hh) as [Hn|Hn]; rewrite Hn in Hcons; [done|]. injection Hcons as <-.
         split; [done|]. split; [done|]. simpl. lia. }
    destruct (Hacc Hp Hh) as [Hn|(self2 & Hn & Hhl & Hrec & _)]; rewrite Hn in Hcons; [done|].
    injection Hcons as <-. simpl.
    destruct (push_recent_ok _ block l' ls Hok1 eq_refl Hb) as (k & Hk & Hlink & Hcs & Hus & Hlen);
      [congruence|by unfold next_height in *; rewrite Hht|].
    assert (recent self2 = block :: k) as Hr2 by congruence. unfold chain_ok. rewrite Hr2.
    split; [done|]. split; [done|exact Hlen]. }
  destruct (IH p.2 Hok1 Hrest) as [Hok' Hlen']. split; [done|]. rewrite Hhl in Hlen'. lia.
Qed.

(** The cache of compiled modules stays right.  If the entry for a code is what
    compiling the code gives before a block is taken, and the block stores no
    other code with the same key, the entry is right afterwards, too.  Every
    module that the merged changes store and that compiles gets an entry. *)
Theorem consume_cache `{!WasmerSerializeLaws} self block b bs self' (c : bytes) :
  recent self = b :: bs → block_cache_ok b → is_u64 (height b) →
  consume RA prof self block = Some (Ok tt, self') →
  ∃ results, execute_many RA (Dyn (state self)) (Dyn (codecache self))
      (hashed_transactions block) = Some results ∧
  (cache_faithful c (Dyn (codecache self)) →
    (∀ d a acc, Ok d ∈ results → upserts d !! a = Some acc →
      cachekey_of (acc_state acc) = cachekey_of c → acc_state acc = c) →
    cache_faithful c (Dyn (codecache self'))) ∧
  ∀ a acc key val, upserts (merge_results results) !! a = Some acc →
    precompiled (acc_state acc) key val → is_Some (get (codecache self') key).
Proof.
  intros Hr Hb Hu Hcons.
  destruct (consume_cases RA prof self block b bs Hr Hb Hu) as
    (b' & _ & _ & Hpar & Hhei & Hacc & _).
  destruct (decide (parent block = content_hash b)) as [Hp|Hp];
    [|by rewrite (Hpar Hp) in Hcons].
  destruct (decide (height block = next_height b)) as [Hh|Hh];
    [|by destruct (Hhei Hp Hh) as [Hn|Hn]; rewrite Hn in Hcons].
  destruct (Hacc Hp Hh) as [Hn|(self1 & Hn & _ & _ & results & out & Hrun & _ & Hpre & Happ)];
    rewrite Hn in Hcons; [done|]. injection Hcons as <-.
  exists results. split; [done|].
  destruct (precompile_spec (merge_results results)) as (out' & Hout & Hdel & Hfrom & Hall).
  assert (out' = out) as -> by congruence.
  assert (∀ key, get (codecache self1) key =
    match upserts out !! key with Some acc => Some acc | None => get (codecache self) key end)
    as Hget.
  { intros key. rewrite (get_apply _ _ _ _ Happ). unfold after.
    by rewrite decide_False by (rewrite Hdel; set_solver). }
  split.
  - intros Hf Hcoll key val m Hkey Hval Hm. simpl in Hval. rewrite Hget in Hval.
    destruct (upserts out !! key) as [acc|] eqn:Ho; [|by eapply Hf].
    injection Hval as ->.
    destruct (Hfrom key val Ho) as (a & acc & Ha & _ & Hk & m' & Hm' & Hs).
    apply upserts_merge_results in Ha as (d & Hd & Ha).
    assert (acc_state acc = c) as <- by (eapply Hcoll; [done..|congruence]).
    by rewrite (deserialize_serialize m' _ m Hs Hm).
  - intros a acc key val Ha Hp'. rewrite Hget.
    destruct (Hall a acc key val Ha Hp') as [v ->]. by eexists.
Qed.

(** The mempool always produces.  The block carries the transactions collected
    since the last one, in their order of arrival, continues the chain, is taken
    by the node's own builder, and the pool is empty afterwards. *)
Theorem produce_spec (m : Mempool (St := St) (Ca := Ca)) b bs :
  recent (blocks m) = b :: bs → block_cache_ok b → has_next prof b →
  (∀ tx, tx ∈ txs m → tx_valid tx) →
  ∃ block m', produce RA prof m = Some (block, m') ∧
    transactions block = txs m ∧ parent block = content_hash b ∧ height block = next_height b ∧
    txs m' = [] ∧ head (recent (blocks m')) = Some block ∧ block_cache_ok block.
Proof.
  intros Hr Hb Hn Hv. unfold produce, last. rewrite Hr. cbn [head mbind option_bind].
  destruct (last_hash_spec (blocks m) b bs Hr Hb) as (b1 & Hc1 & Hok1 & Hl).
  destruct (same_content b b1 Hc1) as (Hch & Hht & _).
  destruct (next_height_add prof b (proj1 Hn)) as [Hadd _].
  unfold block_new. rewrite (Hadd Hn), Hl. cbn [fmap option_fmap option_map mbind option_bind].
  destruct (block_hash_ok b Hb) as [Hh _]. rewrite Hh. fold (content_hash b).
  set (block := mkBlock _ _ _ _).
  set (self1 := mkBuilder _ _ _ _).
  assert (is_u64 (height b1)) as Hu1 by (rewrite Hht; apply Hn).
  assert (has_next prof b1) as Hn1 by (unfold has_next in *; by rewrite Hht).
  destruct (consume_cases RA prof self1 block b1 bs eq_refl Hok1 Hu1) as
    (b' & Hc & Hok & _ & _ & Hacc & Htot).
  destruct Hacc as [Hnone|(self' & Hcons & _ & Hrec & _)]; [done|..].
  { unfold next_height. by rewrite Hht. }
  { by destruct (Htot Hn1 Hv). }
  rewrite Hcons. cbn [mbind option_bind]. exists block, (mkMempool [] self').
  repeat (split; [done|]). split; [|by left]. simpl. rewrite Hrec. unfold push_recent.
  cbn [recent history_len]. by destruct (_ <? _)%nat.
Qed.
End properties.

(** ** Examples *)

Definition genesis_builder : BlockStateBuilder (St := InMemoryStateStore) (Ca := InMemoryStateStore) :=
  mkBuilder 2 (mkStore ∅) (mkStore ∅) [block_zero].
Definition wasm_account : Account := mkAccount WASM_SIG (acc_predicates example_account).
Definition deploy_tx : Transaction Basic :=
  transaction_new (R := Basic) [] {[mkAddress (str "/a") := CreateAccount wasm_account]}.
Definition deploy_block : Block := mkBlock 1 (block_hash block_zero).1 [deploy_tx] None.

Lemma genesis_next prof : has_next prof block_zero.
Proof. split; [unfold is_u64; simpl; unfold u64_max; lia|]. intros _. simpl. unfold u64_max. lia. Qed.

Lemma deploy_valid tx : tx ∈ [deploy_tx] → tx_valid tx.
Proof.
  intros ->%list_elem_of_singleton p Hp. unfold deploy_tx in Hp. simpl in Hp.
  rewrite dom_singleton_L in Hp. apply elem_of_singleton in Hp as ->. by apply example_valid.
Qed.

Lemma consume_spec_witness :
  let _ := map_order Address in
  ∃ self', consume every_sequential Debug genesis_builder deploy_block = Some (Ok tt, self') ∧
    get (state self') (mkAddress (str "/a")) = Some wasm_account.
Proof.
  intros HO.
  destruct (consume_spec every_sequential Debug genesis_builder deploy_block block_zero []
    eq_refl (or_introl eq_refl) (genesis_next Debug) deploy_valid)
    as (r & self' & Hc & _ & _ & _ & _ & Hok).
  assert (parent deploy_block = content_hash block_zero) as Hp by (vm_compute; reflexivity).
  assert (height deploy_block = next_height block_zero) as Hh by (vm_compute; reflexivity).
  destruct (Hok Hp Hh) as (-> & _ & results & Hrun & Hget).
  exists self'. split; [exact Hc|]. rewrite Hget. vm_compute in Hrun. injection Hrun as <-.
  vm_compute. reflexivity.
Defined.

Lemma builder_chain_witness :
  let _ := map_order Address in
  ∃ self', foldM (λ s b, snd <$> consume every_sequential Debug s b) genesis_builder
      [deploy_block; deploy_block] = Some self' ∧ chain_ok self' ∧ length (recent self') ≤ 2.
Proof.
  intros HO.
  assert (match foldM (λ s b, snd <$> consume every_sequential Debug s b) genesis_builder
    [deploy_block; deploy_block] with Some _ => true | _ => false end = true) as Hb
    by (vm_compute; reflexivity).
  destruct (foldM (λ s b, snd <$> consume every_sequential Debug s b) genesis_builder
    [deploy_block; deploy_block]) as [self'|] eqn:Hf; [clear Hb|discriminate Hb].
  exists self'. split; [reflexivity|].
  apply (builder_chain every_sequential Debug genesis_builder self' [deploy_block; deploy_block]).
  - split; [discriminate|]. split; [exact I|]. split; [constructor; [left; reflexivity|constructor]|].
    constructor; [exact (proj1 (genesis_next Debug))|constructor].
  - constructor; [left; reflexivity|]. constructor; [left; reflexivity|constructor].
  - exact Hf.
Defined.

Lemma consume_cache_witness :
  let _ := map_order Address in
  ∃ self' key, consume every_sequential Debug genesis_builder deploy_block = Some (Ok tt, self') ∧
    cachekey_of WASM_SIG = Ok key ∧ is_Some (get (codecache self') key) ∧
    cache_faithful WASM_SIG (Dyn (codecache self')).
Proof.
  intros HO.
  assert (match consume every_sequential Debug genesis_builder deploy_block with
    | Some (Ok _, _) => true | _ => false end = true) as Hb by (vm_compute; reflexivity).
  destruct (consume every_sequential Debug genesis_builder deploy_block)
    as [[[[]|e] self']|] eqn:Hc; [clear Hb|discriminate Hb..].
  destruct (cachekey_ok WASM_SIG) as [Hkey _].
  exists self'. eexists. split; [reflexivity|]. split; [exact Hkey|].
  destruct (consume_cache every_sequential Debug genesis_builder deploy_block block_zero [] self'
    WASM_SIG eq_refl (or_introl eq_refl) (proj1 (genesis_next Debug)) Hc)
    as (results & Hrun & Hfaith & Hall).
  vm_compute in Hrun. injection Hrun as <-. split.
  - apply (Hall (mkAddress (str "/a")) wasm_account _ WASM_SIG).
    + vm_compute. reflexivity.
    + split; [reflexivity|]. split; [exact Hkey|]. exists WASM_SIG. split; reflexivity.
  - apply Hfaith.
    + intros key val m _ Hv. simpl in Hv. rewrite lookup_empty in Hv. discriminate Hv.
    + intros d a acc Hd Ha _. apply list_elem_of_singleton in Hd. injection Hd as ->.
      cbn [upserts] in Ha.
      change (({[mkAddress (str "/a") := wasm_account]} : gmap Address Account) !! a = Some acc) in Ha.
      apply lookup_singleton_Some in Ha as [_ <-]. reflexivity.
Defined.

Lemma produce_spec_witness :
  let _ := map_order Address in
  let m := mempool_consume (mempool_new genesis_builder) deploy_tx in
  ∃ block m', produce every_sequential Debug m = Some (block, m') ∧
    transactions block = [deploy_tx] ∧ height block = 1%Z ∧ txs m' = [].
Proof.
  intros HO m.
  destruct (produce_spec every_sequential Debug m block_zero [] eq_refl (or_introl eq_refl)
    (genesis_next Debug) deploy_valid) as (block & m' & Hp & Ht & _ & Hh & He & _).
  exists block, m'. split; [exact Hp|]. split; [exact Ht|]. split; [|exact He].
  rewrite Hh. vm_compute. reflexivity.
Defined.
