(* ===== verification/Watcher.v ===== *)
(** Waiting for chain events: [sdk/offchain/src/watcher.rs].

    A spawned task takes blocks from a stream, looks every transaction, intent and
    changed account of a block up in a watch list, signals who waits for it, and
    hands the block to a [BlockStateBuilder].  Other tasks insert into the watch
    list at any time: the model is a transition system whose steps are the atomic
    accesses to the list, in any interleaving.

    A oneshot channel is a number.  What is ghost is only the bookkeeping of the
    channels: which key each was made for, what was sent, which senders were
    dropped.  Signals carry the block or transaction as it was received: that
    hashing fills hash cells in place is left out here. *)
From stdpp Require Import relations.
From S2P Require Import Prelude Address Predicate State Extern Chain Sandbox ChainProps Collect.
From S2P Require Import Execution ExecutionProps Schedule Forest ScheduleProps Builder.

Section watcher.
Context `{!MultihashCrate, !Bs58Crate, !Wasmer, !WasmerSerialize, !HashOrder Address,
  !Rmp (IntentContent Basic), !Rmp (TxContent Basic), !Rmp BlockContent, !Rmp PredicateContext,
  !Rmp (list ExpandedParam), !Petgraph} `{State St, State Ca}.
Context (RA : nat → Rayon) (prof : Profile).

(** [enum WatchlistKey] *)
Inductive WatchlistKey :=
| KIntent (h : Multihash)
| KTransaction (h : Multihash)
| KAccountChange (a : Address).

#[global] Instance WatchlistKey_eq_dec : EqDecision WatchlistKey.
Proof. solve_decision. Defined.
#[global] Instance WatchlistKey_countable : Countable WatchlistKey.
Proof.
  refine (inj_countable'
    (λ k, match k with KIntent h => inl (inl h) | KTransaction h => inl (inr h)
          | KAccountChange a => inr a end)
    (λ s, match s with inl (inl h) => KIntent h | inl (inr h) => KTransaction h
          | inr a => KAccountChange a end) _).
  by intros [].
Defined.

(** [enum WatchlistValue] *)
Inductive WatchlistValue :=
| VIntent (tx : Transaction Basic)
| VTransaction (block : Block)
| VAccountChange (tx : Transaction Basic).

(** The lookups for one transaction of a block, in order: its hash, its intents,
    the addresses of its proposals. *)
Definition tx_lookups (block : Block) (tx : Transaction Basic) :
    list (WatchlistKey * WatchlistValue) :=
  (KTransaction (tx_hash tx).1, VTransaction block) ::
  ((λ intent, (KIntent (intent_hash intent).1, VIntent tx)) <$> intents tx) ++
  ((λ a, (KAccountChange a, VAccountChange tx)) <$> btree_keys (proposals tx)).

Definition block_lookups (block : Block) : list (WatchlistKey * WatchlistValue) :=
  transactions block ≫= tx_lookups block.

(** Where the spawned task is: at [stream.next().await]; in the loops over a block;
    ended with the stream or dead of a panic. *)
Inductive TaskPhase :=
| Waiting
| Probing (block : Block) (todo : list (WatchlistKey * WatchlistValue))
| Ended.

(** [pub struct BlockchainWatcher] and its task; channel [i] was made for the key
    [asked !! i]. *)
Record World := mkWorld {
  watchlist : gmap WatchlistKey nat;
  state_builder : BlockStateBuilder (St := St) (Ca := Ca);
  phase : TaskPhase;
  asked : list WatchlistKey;
  sent : list (nat * WatchlistValue);
  dropped : list nat;
}.

(** [BlockchainWatcher::new] *)
Definition watcher_new (history_len : nat) (state : St) (codecache : Ca) (recent : list Block) :
    Result World BuilderError :=
  let? state_builder := builder_new history_len state codecache recent in
  Ok (mkWorld ∅ state_builder Waiting [] [] []).

(** What happens next: the stream gives a block or ends, the task makes its next
    lookup or hands the block to the builder, a caller starts to wait. *)
Inductive Event := NextBlock (block : Block) | StreamEnd | Lookup | Consume | Await (key : WatchlistKey).

(** [watchlist.remove(&key)] and [signal.send(value)]. *)
Definition signal (w : World) (key : WatchlistKey) (value : WatchlistValue) (ph : TaskPhase) : World :=
  match watchlist w !! key with
  | Some ch => mkWorld (delete key (watchlist w)) (state_builder w) ph (asked w)
                 (sent w ++ [(ch, value)]) (dropped w)
  | None => mkWorld (watchlist w) (state_builder w) ph (asked w) (sent w) (dropped w)
  end.

(** [let (tx, rx) = oneshot::channel(); self.watchlist.insert(key, tx);]: a sender
    that was there is dropped. *)
Definition await_ (w : World) (key : WatchlistKey) : World :=
  let ch := length (asked w) in
  mkWorld (<[key := ch]> (watchlist w)) (state_builder w) (phase w) (asked w ++ [key]) (sent w)
    (match watchlist w !! key with Some old => dropped w ++ [old] | None => dropped w end).

Definition with_phase (w : World) (b : BlockStateBuilder (St := St) (Ca := Ca)) (ph : TaskPhase) :
    World :=
  mkWorld (watchlist w) b ph (asked w) (sent w) (dropped w).

(** One atomic step; [None] when the event cannot happen now. *)
Definition watcher_step (w : World) (e : Event) : option World :=
  match e, phase w with
  | Await key, _ => Some (await_ w key)
  | NextBlock block, Waiting =>
      Some (with_phase w (state_builder w) (Probing block (block_lookups block)))
  | StreamEnd, Waiting => Some (with_phase w (state_builder w) Ended)
  | Lookup, Probing block ((key, value) :: todo) => Some (signal w key value (Probing block todo))
  | Consume, Probing block [] =>
      Some match consume RA prof (state_builder w) block with
           | Some (_, b) => with_phase w b Waiting   (** an error is only logged *)
           | None => with_phase w (state_builder w) Ended
           end
  | _, _ => None
  end.

Definition wstep (w w' : World) : Prop := ∃ e, watcher_step w e = Some w'.

(** What a caller makes of its signal ([rx.await.map(..)]); [None] is the panic on
    an incompatible one. *)
Definition await_intent_result (v : WatchlistValue) : option (Transaction Basic) :=
  match v with VIntent tx => Some tx | _ => None end.
Definition await_transaction_result (v : WatchlistValue) : option Block :=
  match v with VTransaction block => Some block | _ => None end.
Definition await_account_change_result (v : WatchlistValue) : option (Transaction Basic) :=
  match v with VAccountChange tx => Some tx | _ => None end.

(** The signal [v] answers who waits for [key]. *)
Definition answers (key : WatchlistKey) (v : WatchlistValue) : Prop :=
  match key with
  | KIntent h => ∃ tx, await_intent_result v = Some tx ∧
      ∃ i, i ∈ intents tx ∧ (intent_hash i).1 = h
  | KTransaction h => ∃ block, await_transaction_result v = Some block ∧
      ∃ tx, tx ∈ transactions block ∧ (tx_hash tx).1 = h
  | KAccountChange a => ∃ tx, await_account_change_result v = Some tx ∧
      is_Some ((proposals tx : gmap Address AccountChange) !! a)
  end.

Lemma lookups_answer block key v : (key, v) ∈ block_lookups block → answers key v.
Proof.
  intros (tx & Hin & Htx)%list_elem_of_bind. unfold tx_lookups in Hin.
  apply elem_of_cons in Hin as [[= -> ->]|[Hin|Hin]%elem_of_app].
  - exists block. split; [done|]. by exists tx.
  - apply list_elem_of_fmap in Hin as (i & [= -> ->] & Hi). exists tx. split; [done|]. by exists i.
  - apply list_elem_of_fmap in Hin as (a & [= -> ->] & Ha). exists tx. split; [done|].
    by apply elem_of_btree_keys.
Qed.

(** ** The invariant *)

(** A channel waits in the list under its key, or was signalled, or dropped. *)
Definition fates (w : World) : list nat :=
  (map_to_list (watchlist w)).*2 ++ (sent w).*1 ++ dropped w.

Record world_ok (w : World) : Prop := {
  wo_keys : ∀ key ch, watchlist w !! key = Some ch → asked w !! ch = Some key;
  wo_fates : fates w ≡ₚ seq 0 (length (asked w));
  wo_sent : ∀ ch v, (ch, v) ∈ sent w → ∃ key, asked w !! ch = Some key ∧ answers key v;
  wo_dropped : ∀ ch, ch ∈ dropped w → ∃ key ch', ch < ch' ∧
    asked w !! ch = Some key ∧ asked w !! ch' = Some key;
  wo_todo : ∀ block todo, phase w = Probing block todo →
    ∀ key v, (key, v) ∈ todo → answers key v;
}.

Lemma signal_ok w key v ph :
  world_ok w → answers key v →
  (∀ block todo, ph = Probing block todo → ∀ key v, (key, v) ∈ todo → answers key v) →
  world_ok (signal w key v ph).
Proof.
  intros [Hk Hf Hs Hd Ht] Ha Hph. unfold signal. destruct (watchlist w !! key) as [ch|] eqn:Hch.
  2: { by split. }
  split; simpl; [| | |done|done].
  - intros k c [_ Hc]%lookup_delete_Some. by apply Hk.
  - rewrite <-Hf. unfold fates. simpl. rewrite <-(map_to_list_delete _ _ _ Hch). simpl.
    rewrite fmap_app. simpl. solve_Permutation.
  - intros c v' [Hin|[= -> ->]%list_elem_of_singleton]%elem_of_app; [by apply Hs|].
    exists key. split; [by apply Hk|done].
Qed.

Lemma await_ok w key : world_ok w → world_ok (await_ w key).
Proof.
  intros [Hk Hf Hs Hd Ht]. assert (∀ ch k, asked w !! ch = Some k → (asked w ++ [key]) !! ch = Some k)
    as Hup by (intros; by apply lookup_app_l_Some).
  split; simpl; [| | | |done].
  - intros k c [[-> <-]|[_ Hc]]%lookup_insert_Some; [by apply list_lookup_middle|].
    by apply Hup, Hk.
  - rewrite length_app. simpl. rewrite seq_app. simpl. rewrite <-Hf. unfold fates. simpl.
    destruct (watchlist w !! key) as [old|] eqn:Hold.
    + rewrite <-insert_delete_eq.
      rewrite map_to_list_insert by apply lookup_delete_eq. rewrite <-(map_to_list_delete _ _ _ Hold).
      simpl. solve_Permutation.
    + rewrite map_to_list_insert by done. simpl. solve_Permutation.
  - intros ch v Hin. destruct (Hs ch v Hin) as (k & Hkk & Ha). exists k. split; [by apply Hup|done].
  - intros ch Hin. assert (ch ∈ dropped w ∨ watchlist w !! key = Some ch) as [Hin'|Hch].
    { destruct (watchlist w !! key) as [old|]; [|by left].
      apply elem_of_app in Hin as [Hin| ->%list_elem_of_singleton]; [by left|by right]. }
    + destruct (Hd ch Hin') as (k & ch' & Hlt & Ha1 & Ha2). exists k, ch'. auto.
    + exists key, (length (asked w)). apply Hk in Hch.
      split; [by eapply lookup_lt_Some|]. split; [by apply Hup|]. by apply list_lookup_middle.
Qed.

Lemma wstep_ok w w' : world_ok w → wstep w w' → world_ok w'.
Proof.
  intros Hok [[block| | | |key] He]; unfold watcher_step in He;
    destruct (phase w) as [|block' [|[k v] todo]|] eqn:Hph; simplify_eq;
    try (by apply await_ok).
  - destruct Hok as [Hk Hf Hs Hd Ht]. split; simpl; [done..|].
    intros b todo [= <- <-]. apply lookups_answer.
  - destruct Hok as [Hk Hf Hs Hd Ht]. by split.
  - apply signal_ok; [done| |].
    + eapply wo_todo; [done..|by left].
    + intros b t [= <- <-] k' v' Hin. eapply wo_todo; [done..|by right].
  - destruct Hok as [Hk Hf Hs Hd Ht].
    destruct (consume RA prof (state_builder w) block') as [[r b]|]; by split.
Qed.

Lemma reachable_ok w w' : world_ok w → rtc wstep w w' → world_ok w'.
Proof. intros Hok Hrun. induction Hrun; [done|]. eauto using wstep_ok. Qed.

Lemma watcher_new_ok hl st cc rs w : watcher_new hl st cc rs = Ok w → world_ok w.
Proof.
  unfold watcher_new. destruct (builder_new hl st cc rs); [|done]. intros [= <-].
  split; simpl; [by intros ? ?|done|by intros ? ? ?%elem_of_nil|by intros ? ?%elem_of_nil|done].
Qed.

(** A channel that is signalled or dropped stays so. *)
Lemma wstep_fate w w' : wstep w w' →
  (∀ ch, ch ∈ (sent w).*1 → ch ∈ (sent w').*1) ∧ (∀ ch, ch ∈ dropped w → ch ∈ dropped w').
Proof.
  intros [[block| | | |key] He]; unfold watcher_step in He;
    destruct (phase w) as [|block' [|[k v] todo]|]; simplify_eq; simpl; try done;
    try (split; [done|]; intros ch Hch; destruct (watchlist w !! key); [|done];
         by apply elem_of_app; left).
  - unfold signal. destruct (watchlist w !! k); simpl; [|done].
    split; [|done]. intros ch Hch. rewrite fmap_app. by apply elem_of_app; left.
  - by destruct (consume RA prof (state_builder w) block') as [[r b]|].
Qed.

(** While a block is handled, a waiter whose key is still to be looked up waits, is
    signalled, or replaced. *)
Definition handled (block : Block) (key : WatchlistKey) (ch : nat) (w : World) : Prop :=
  ch ∈ (sent w).*1 ∨ ch ∈ dropped w ∨
  (watchlist w !! key = Some ch ∧ ∃ todo, phase w = Probing block todo ∧ key ∈ todo.*1).

Lemma wstep_handled block key ch w w' :
  handled block key ch w → wstep w w' → handled block key ch w'.
Proof.
  intros [Hs|[Hd|(Hw & todo & Hph & Hin)]] Hstep.
  { left. by eapply wstep_fate. }
  { right. left. by eapply wstep_fate. }
  destruct Hstep as [[b| | | |k] He]; unfold watcher_step in He; rewrite ?Hph in He.
  - done.
  - done.
  - destruct todo as [|[k v] todo]; [done|]. injection He as <-. unfold signal.
    destruct (decide (k = key)) as [->|Hne].
    + rewrite Hw. left. simpl. rewrite fmap_app. set_solver.
    + right. right. apply elem_of_cons in Hin as [->|Hin]; [done|].
      destruct (watchlist w !! k); simpl; [rewrite lookup_delete_ne by done|]; eauto.
  - by destruct todo; [apply elem_of_nil in Hin|].
  - injection He as <-. destruct (decide (k = key)) as [->|Hne].
    + right. left. simpl. rewrite Hw. set_solver.
    + right. right. simpl. rewrite lookup_insert_ne by done. eauto.
Qed.

(** Who waits when the block with the key comes is signalled or replaced by the time
    the watcher is done with it. *)
Lemma block_handled block key ch w w1 w2 :
  watchlist w !! key = Some ch → key ∈ (block_lookups block).*1 →
  watcher_step w (NextBlock block) = Some w1 → rtc (wstep) w1 w2 →
  (∀ todo, phase w2 ≠ Probing block todo) → ch ∈ (sent w2).*1 ∨ ch ∈ dropped w2.
Proof.
  intros Hw Hin Hstep Hrun Hph.
  assert (handled block key ch w1) as Hh.
  { unfold watcher_step in Hstep. destruct (phase w); simplify_eq. right. right. simpl. eauto. }
  assert (handled block key ch w2) as [|[|(_ & todo & Hph' & _)]]; [|by left|by right|].
  - clear -Hh Hrun. induction Hrun; [done|]. eauto using wstep_handled.
  - by destruct (Hph todo).
Qed.

(** The events of a block that nothing else interleaves with. *)
Definition handling (block : Block) : list Event :=
  NextBlock block :: replicate (length (block_lookups block)) Lookup ++ [Consume].

Lemma lookups_run block todo w :
  phase w = Probing block todo →
  ∃ w', foldM watcher_step w (replicate (length todo) Lookup) = Some w' ∧
    phase w' = Probing block [] ∧ state_builder w' = state_builder w ∧ dropped w' = dropped w ∧
    ∀ key ch, watchlist w !! key = Some ch → key ∈ todo.*1 → ch ∈ (sent w').*1.
Proof.
  revert w. induction todo as [|[k v] todo IH]; intros w Hph; simpl.
  { exists w. repeat (split; [done|]). by intros ? ? _ ?%elem_of_nil. }
  rewrite Hph. cbn [mbind option_bind]. destruct (IH (signal w k v (Probing block todo)))
    as (w' & Hrun & Hph' & Hb & Hd & Hall); [by unfold signal; destruct (watchlist w !! k)|].
  exists w'. split; [done|]. split; [done|].
  split; [rewrite Hb; by unfold signal; destruct (watchlist w !! k)|].
  split; [rewrite Hd; by unfold signal; destruct (watchlist w !! k)|].
  assert (∀ ch, ch ∈ (sent (signal w k v (Probing block todo))).*1 → ch ∈ (sent w').*1) as Hkeep.
  { clear -Hrun Hph. revert Hrun. generalize (signal w k v (Probing block todo)) as w1.
    generalize (replicate (length todo) Lookup) as es. induction es as [|e es IH]; intros w1; simpl.
    - by intros [= <-].
    - intros (w2 & Hw2 & Hrun)%bind_Some ch Hch. apply (IH w2 Hrun).
      apply (wstep_fate w1 w2); [by exists e|done]. }
  intros key ch Hw [->|Hin]%elem_of_cons.
  - apply Hkeep. unfold signal. simpl in Hw. rewrite Hw. simpl. rewrite fmap_app. set_solver.
  - unfold signal in Hkeep, Hall. destruct (decide (k = key)) as [->|Hne].
    + apply Hkeep. rewrite Hw. simpl. rewrite fmap_app. set_solver.
    + apply (Hall key ch); [|done].
      destruct (watchlist w !! k); simpl; [by rewrite lookup_delete_ne|done].
Qed.
End watcher.

Section properties.
Context `{!MultihashCrate, !Bs58Crate, !MultihashLaws, !Bs58Laws, !Wasmer, !WasmerSerialize,
  !HashOrder Address, !Rmp (IntentContent Basic), !Rmp (TxContent Basic), !Rmp BlockContent,
  !Rmp PredicateContext, !Rmp (list ExpandedParam), !Petgraph, !PetgraphLaws}
  `{StateLaws St, StateLaws Ca}.
Context (RA : nat → Rayon) (prof : Profile).

(** C36: signals.  However the accesses to the watch list interleave, every caller
    that ever waited is in exactly one of three situations: still in the list
    under its key, signalled once, or dropped because somebody asked for the same
    key after it.  A signal is of the kind the caller expects - so the panics on an
    incompatible signal are unreachable - and holds a block or transaction with
    what was asked for.  A caller in the list when a block with its key arrives is
    signalled or replaced by the time the task is done with that block. *)
Theorem watcher_signals hl st cc rs (w0 w : World (St := St) (Ca := Ca)) :
  watcher_new hl st cc rs = Ok w0 → rtc (wstep RA prof) w0 w →
  fates w ≡ₚ seq 0 (length (asked w)) ∧
  (∀ key ch, watchlist w !! key = Some ch → asked w !! ch = Some key) ∧
  (∀ ch v, (ch, v) ∈ sent w → ∃ key, asked w !! ch = Some key ∧ answers key v) ∧
  (∀ ch, ch ∈ dropped w → ∃ key ch', ch < ch' ∧
    asked w !! ch = Some key ∧ asked w !! ch' = Some key) ∧
  (∀ block key ch w1 w2, watchlist w !! key = Some ch → key ∈ (block_lookups block).*1 →
    watcher_step RA prof w (NextBlock block) = Some w1 → rtc (wstep RA prof) w1 w2 →
    (∀ todo, phase w2 ≠ Probing block todo) → ch ∈ (sent w2).*1 ∨ ch ∈ dropped w2).
Proof.
  intros Hnew Hrun. apply watcher_new_ok in Hnew.
  destruct (reachable_ok RA prof w0 w Hnew Hrun) as [Hk Hf Hs Hd _].
  repeat (split; [done|]). intros block key ch w1 w2. apply block_handled.
Qed.

(** A signal does not mean that the block was taken.  The task signals before
    it hands the block to the builder, so a block that does not continue the chain
    resolves every wait for its transactions, intents and accounts although the
    builder then refuses it and the account state stays as it is. *)
Theorem watcher_trusts_blocks (w : World (St := St) (Ca := Ca)) block b bs :
  phase w = Waiting → recent (state_builder w) = b :: bs → block_cache_ok b →
  is_u64 (height b) → parent block ≠ content_hash b →
  ∃ w', foldM (watcher_step RA prof) w (handling block) = Some w' ∧ phase w' = Waiting ∧
    state (state_builder w') = state (state_builder w) ∧
    ∀ key ch, watchlist w !! key = Some ch → key ∈ (block_lookups block).*1 →
      ch ∈ (sent w').*1.
Proof.
  intros Hph Hr Hb Hu Hp. unfold handling. cbn [foldM].
  assert (watcher_step RA prof w (NextBlock block) =
    Some (with_phase w (state_builder w) (Probing block (block_lookups block)))) as Hfirst
    by (unfold watcher_step; by rewrite Hph).
  rewrite Hfirst. cbn [mbind option_bind].
  destruct (lookups_run RA prof block (block_lookups block)
    (with_phase w (state_builder w) (Probing block (block_lookups block))) eq_refl)
    as (w1 & Hrun & Hph1 & Hsb & _ & Hall).
  destruct (consume_cases RA prof (state_builder w) block b bs Hr Hb Hu)
    as (b' & _ & _ & Hpar & _).
  exists (with_phase w1 (mkBuilder (history_len (state_builder w)) (state (state_builder w))
    (codecache (state_builder w)) (b' :: bs)) Waiting).
  split; [|split; [done|split; [done|exact Hall]]].
  rewrite foldM_app, Hrun. cbn [foldM mbind option_bind]. unfold watcher_step. rewrite Hph1, Hsb.
  simpl in *. by rewrite (Hpar Hp).
Qed.
End properties.

(** ** Examples *)

Definition waiting_for_deploy : World (St := InMemoryStateStore) (Ca := InMemoryStateStore) :=
  await_ (mkWorld ∅ genesis_builder Waiting [] [] []) (KTransaction (tx_hash deploy_tx).1).

(** A block that does not know the chain. *)
Definition stray_block : Block := mkBlock 7 (sha3_256 (bstr "nowhere")) [deploy_tx] None.

Lemma watcher_signals_witness :
  let _ := map_order Address in
  fates waiting_for_deploy ≡ₚ [0] ∧ sent waiting_for_deploy = [].
Proof.
  intros HO.
  destruct (watcher_signals every_sequential Debug 2 (mkStore ∅) (mkStore ∅) [block_zero]
    (mkWorld ∅ genesis_builder Waiting [] [] []) waiting_for_deploy eq_refl) as (Hf & _).
  - apply rtc_once. exists (Await (KTransaction (tx_hash deploy_tx).1)). reflexivity.
  - split; [exact Hf|reflexivity].
Defined.

Lemma watcher_trusts_blocks_witness :
  let _ := map_order Address in
  ∃ w', foldM (watcher_step every_sequential Debug) waiting_for_deploy (handling stray_block) =
      Some w' ∧ 0 ∈ (sent w').*1 ∧ state (state_builder w') = mkStore ∅.
Proof.
  intros HO.
  destruct (watcher_trusts_blocks every_sequential Debug waiting_for_deploy stray_block block_zero [])
    as (w' & Hrun & _ & Hst & Hsent).
  - reflexivity.
  - reflexivity.
  - left. reflexivity.
  - exact (proj1 (genesis_next Debug)).
  - vm_compute. discriminate.
  - exists w'. split; [exact Hrun|]. split; [|exact Hst].
    apply (Hsent (KTransaction (tx_hash deploy_tx).1)).
    + vm_compute. reflexivity.
    + apply (bool_decide_unpack _). vm_compute. reflexivity.
Defined.
