(* ===== verification/Cache.v ===== *)
(** Collections whose entries expire: [network/src/cache.rs].

    The clock is explicit: every operation takes the instant at which it runs, a
    number of nanoseconds, and reads it once. *)
From S2P Require Import Prelude.

(** [Instant] and [Duration] *)
Notation Instant := Z.
Notation Duration := Z.

(** [Instant::elapsed] at [now]; it saturates at zero. *)
Definition elapsed (now t : Instant) : Duration := Z.max 0 (now - t).

Section map.
Context `{Countable K} {V : Type}.

(** [struct Timestamped<T>(T, Instant)] and [pub struct ExpiringMap<K, V>] *)
Record ExpiringMap := mkExpiringMap { lifespan : Duration; em_data : gmap K (V * Instant) }.

Definition with_data (self : ExpiringMap) (d : gmap K (V * Instant)) : ExpiringMap :=
  mkExpiringMap (lifespan self) d.

(** [ExpiringMap::new] *)
Definition em_new (lifespan : Duration) : ExpiringMap := mkExpiringMap lifespan ∅.

(** [len], [is_empty]: expired entries count until they are pruned. *)
Definition em_len (self : ExpiringMap) : nat := size (em_data self).
Definition em_is_empty (self : ExpiringMap) : bool := bool_decide (em_data self = ∅).

(** An entry that has not expired. *)
Definition unexpired (now : Instant) (lifespan : Duration) (e : V * Instant) : option V :=
  if (lifespan <? elapsed now e.2)%Z then None else Some e.1.

(** [ExpiringMap::insert] *)
Definition em_insert (now : Instant) (self : ExpiringMap) (key : K) (value : V) :
    option V * ExpiringMap :=
  (em_data self !! key ≫= unexpired now (lifespan self),
   with_data self (<[key := (value, now)]> (em_data self))).

(** [ExpiringMap::get], [contains_key] *)
Definition em_get (now : Instant) (self : ExpiringMap) (key : K) : option V :=
  em_data self !! key ≫= unexpired now (lifespan self).
Definition em_contains_key (now : Instant) (self : ExpiringMap) (key : K) : bool :=
  bool_decide (is_Some (em_get now self key)).

(** [ExpiringMap::remove] *)
Definition em_remove (now : Instant) (self : ExpiringMap) (key : K) : option V * ExpiringMap :=
  (em_data self !! key ≫= unexpired now (lifespan self),
   with_data self (delete key (em_data self))).

(** [ExpiringMap::prune_expired] *)
Definition em_prune_expired (now : Instant) (self : ExpiringMap) : ExpiringMap :=
  with_data self (filter (λ e, (elapsed now e.2.2 < lifespan self)%Z) (em_data self)).
End map.
Arguments ExpiringMap K {_ _} V.

(** [pub struct ExpiringSet<T>]: a map to the unit. *)
Section set.
Context `{Countable T}.

Definition ExpiringSet : Type := ExpiringMap T unit.

Definition es_new (lifespan : Duration) : ExpiringSet := em_new lifespan.
Definition es_is_empty (self : ExpiringSet) : bool := em_is_empty self.

(** [insert] answers whether the key was there, [remove] too. *)
Definition es_insert (now : Instant) (self : ExpiringSet) (key : T) : bool * ExpiringSet :=
  let '(old, self) := em_insert now self key tt in (bool_decide (is_Some old), self).
Definition es_contains (now : Instant) (self : ExpiringSet) (key : T) : bool :=
  bool_decide (is_Some (em_get now self key)).
Definition es_remove (now : Instant) (self : ExpiringSet) (key : T) : bool * ExpiringSet :=
  let '(old, self) := em_remove now self key in (bool_decide (is_Some old), self).
Definition es_prune_expired (now : Instant) (self : ExpiringSet) : ExpiringSet :=
  em_prune_expired now self.
End set.
Arguments ExpiringSet T {_ _}.

(** ** What a collection holds at an instant *)

Section laws.
Context `{Countable K} {V : Type}.
Implicit Types (m : ExpiringMap K V).

Lemma unexpired_Some now l (e : V * Instant) v :
  unexpired now l e = Some v ↔ e.1 = v ∧ (elapsed now e.2 ≤ l)%Z.
Proof.
  unfold unexpired. destruct (Z.ltb_spec l (elapsed now e.2)).
  - split; [done|]. lia.
  - split; [intros [= <-]; split; [done|lia]|by intros [-> _]].
Qed.

Lemma em_get_Some now m k v :
  em_get now m k = Some v ↔ ∃ t, em_data m !! k = Some (v, t) ∧ (elapsed now t ≤ lifespan m)%Z.
Proof.
  unfold em_get. rewrite bind_Some. setoid_rewrite unexpired_Some. split.
  - intros ([v' t] & Hk & <- & Hl). by exists t.
  - intros (t & Hk & Hl). by exists (v, t).
Qed.

(** What an expiring map holds.  An insertion is visible, to [get] and under any
    other key it changes nothing, until more than the lifespan has passed; the
    operations return what [get] saw before; a removed key is gone.  Pruning is
    invisible to everything that comes later: it removes only entries that no
    later read would return.  (At the very instant of the pruning an entry that is
    exactly as old as the lifespan is still returned by [get], but pruned.) *)
Theorem expiring_map_spec now now' m k k' v :
  (now ≤ now')%Z → (∀ w t, em_data m !! k = Some (w, t) → t ≤ now)%Z →
  em_get now' (em_insert now m k v).2 k' =
    (if decide (k' = k) then if (now' - now <=? lifespan m)%Z then Some v else None
     else em_get now' m k') ∧
  em_get now' (em_remove now m k).2 k' = (if decide (k' = k) then None else em_get now' m k') ∧
  (em_insert now m k v).1 = em_get now m k ∧ (em_remove now m k).1 = em_get now m k ∧
  ((now < now')%Z → em_get now' (em_prune_expired now m) k = em_get now' m k) ∧
  (em_get now (em_prune_expired now m) k ≠ em_get now m k →
    ∃ v t, em_data m !! k = Some (v, t) ∧ elapsed now t = lifespan m).
Proof.
  intros Hle Hpast. assert (∀ n, (now ≤ n)%Z → em_get n (em_prune_expired now m) k = em_get n m k ∨
    ∃ v t, em_data m !! k = Some (v, t) ∧ (elapsed n t ≤ lifespan m ≤ elapsed now t)%Z) as Hp.
  { intros n Hn. unfold em_prune_expired, em_get. simpl. rewrite map_lookup_filter.
    destruct (em_data m !! k) as [[w t]|]; simpl; [|by left].
    destruct (decide (elapsed now t < lifespan m)%Z); simpl;
      [left; by rewrite option_guard_True|].
    rewrite option_guard_False by done. simpl. unfold unexpired. simpl.
    destruct (Z.ltb_spec (lifespan m) (elapsed n t)); [by left|]. right. exists w, t.
    split; [done|lia]. }
  unfold elapsed in *. split; [|split; [|split; [done|split; [done|split]]]].
  - unfold em_get, em_insert. simpl. destruct (decide (k' = k)) as [->|Hne].
    + rewrite lookup_insert_eq. simpl. unfold unexpired, elapsed. simpl.
      rewrite Z.max_r by lia.
      destruct (Z.ltb_spec (lifespan m) (now' - now)), (Z.leb_spec (now' - now) (lifespan m));
        done || lia.
    + by rewrite lookup_insert_ne by done.
  - unfold em_get, em_remove. simpl. destruct (decide (k' = k)) as [->|Hne].
    + by rewrite lookup_delete_eq.
    + by rewrite lookup_delete_ne by done.
  - intros Hlt. destruct (Hp now' Hle) as [|(w & t & Hw & Ht)]; [done|].
    specialize (Hpast w t Hw). lia.
  - intros Hne. destruct (Hp now ltac:(lia)) as [|(w & t & Hw & Ht)]; [done|]. exists w, t.
    split; [done|lia].
Qed.
End laws.

Definition example_cache : ExpiringMap nat nat := mkExpiringMap 15 {[7%nat := (1%nat, 100%Z)]}.

Lemma expiring_map_spec_witness :
  em_get 115 example_cache 7 = Some 1 ∧
  em_get 116 (em_prune_expired 115 example_cache) 7 = em_get 116 example_cache 7.
Proof.
  split; [reflexivity|].
  apply (expiring_map_spec 115 116 example_cache 7 7 1); [lia| |lia].
  intros w t Hw. cbn [example_cache em_data] in Hw. apply lookup_singleton_Some in Hw as [_ Hw].
  injection Hw as <- <-. lia.
Defined.
