(* ===== verification/Wire.v ===== *)
(** What peers exchange and how a node is configured: [network/src/wire.rs],
    [network/src/config.rs] and the IP addresses of [network/src/muxer.rs].

    The sizes of the configuration are computed in floating point by the code and
    exactly here; both agree as long as the logarithms are not within rounding
    error of a boundary, which holds for every network size below 2^50.

    A hash set is serialised in the order in which it is iterated.  [to_vec] stands
    for one such order, so equal messages have equal encodings here; nothing is
    concluded from that for messages that carry sets. *)
From Stdlib Require QArith.
From S2P Require Import Prelude Extern Chain Sandbox Cache.

Section wire.
Context `{!MultihashCrate, !Libp2p}.

(** [pub struct AddressablePeer]; it compares and hashes by its identity, so that a
    [HashSet<AddressablePeer>] is a map from identities to addresses. *)
Record AddressablePeer := mkPeer { peer_id : PeerId; addresses : gset Multiaddr }.
Definition peer_eq (self other : AddressablePeer) : bool :=
  bool_decide (peer_id self = peer_id other).
Definition peer_from (value : PeerId) : AddressablePeer := mkPeer value ∅.
Notation PeerSet := (gmap PeerId (gset Multiaddr)).

(** The messages; [hop] is a 16-bit counter. *)
Record Join := mkJoin { join_node : AddressablePeer }.
Record ForwardJoin := mkForwardJoin { fj_hop : Z; fj_node : AddressablePeer }.
Record Neighbour := mkNeighbour { nb_peer : AddressablePeer; high_priority : bool }.
Record Shuffle := mkShuffle { sh_hop : Z; sh_origin : AddressablePeer; sh_peers : PeerSet }.
Record ShuffleReply := mkShuffleReply { sr_peers : PeerSet }.

(** [pub enum Action] *)
Inductive Action :=
| AJoin (join : Join)
| AForwardJoin (fj : ForwardJoin)
| ANeighbour (n : Neighbour)
| AShuffle (s : Shuffle)
| AShuffleReply (sr : ShuffleReply)
| AGossip (b : bytes).

(** [pub struct Message], with the cell of its hash *)
Record Message := mkMessage { msg_topic : rstring; action : Action; hash_cache : option Multihash }.

#[global] Instance AddressablePeer_eq_dec : EqDecision AddressablePeer.
Proof. solve_decision. Defined.
#[global] Instance AddressablePeer_countable : Countable AddressablePeer.
Proof.
  refine (inj_countable' (λ p, (peer_id p, addresses p)) (λ s, mkPeer s.1 s.2) _). by intros [].
Defined.

(** An action as a sum of what its constructors carry. *)
Definition action_sum (a : Action) :
    AddressablePeer + (Z * AddressablePeer) + (AddressablePeer * bool) +
    (Z * AddressablePeer * PeerSet) + PeerSet + bytes :=
  match a with
  | AJoin j => inl (inl (inl (inl (inl (join_node j)))))
  | AForwardJoin f => inl (inl (inl (inl (inr (fj_hop f, fj_node f)))))
  | ANeighbour n => inl (inl (inl (inr (nb_peer n, high_priority n))))
  | AShuffle s => inl (inl (inr (sh_hop s, sh_origin s, sh_peers s)))
  | AShuffleReply r => inl (inr (sr_peers r))
  | AGossip b => inr b
  end.
Definition sum_action s : Action :=
  match s with
  | inl (inl (inl (inl (inl j)))) => AJoin (mkJoin j)
  | inl (inl (inl (inl (inr (h, p))))) => AForwardJoin (mkForwardJoin h p)
  | inl (inl (inl (inr (p, h)))) => ANeighbour (mkNeighbour p h)
  | inl (inl (inr (h, o, ps))) => AShuffle (mkShuffle h o ps)
  | inl (inr ps) => AShuffleReply (mkShuffleReply ps)
  | inr b => AGossip b
  end.
Lemma sum_action_sum a : sum_action (action_sum a) = a.
Proof. by destruct a as [[]|[]|[]|[]|[]|]. Qed.

#[global] Instance Action_eq_dec : EqDecision Action.
Proof.
  intros a b. destruct (decide (action_sum a = action_sum b)) as [He|He].
  - left. rewrite <-(sum_action_sum a), <-(sum_action_sum b). by f_equal.
  - right. congruence.
Defined.
#[global] Instance Action_countable : Countable Action := inj_countable' _ _ sum_action_sum.

(** [Message::new], [Message::hash] *)
Definition message_new (topic : rstring) (action : Action) : Message := mkMessage topic action None.
Definition message_hash `{!Rmp (rstring * Action)} (self : Message) : Multihash * Message :=
  let '(h, c) := get_or_init (hash_cache self) (sha3_256 (to_vec (msg_topic self, action self))) in
  (h, mkMessage (msg_topic self) (action self) c).

(** [pub struct Config] *)
Record Config := mkConfig {
  network_size : nat;
  active_view_constant : nat;
  active_view_starve_factor : QArith_base.Q;
  passive_view_factor : nat;
  max_transmit_size : nat;
  shuffle_interval : Duration;
  shuffle_probability : QArith_base.Q;
  listen_addrs : list Multiaddr;
  dedupe_interval : option Duration;
  pending_timeout : Duration;
  maintenance_tick_interval : Duration;
}.

(** [Config::default], given the parsed listen addresses; durations are in
    nanoseconds. *)
Definition config_default (listen_addrs : list Multiaddr) : Config := {|
  network_size := 100;
  active_view_constant := 1;
  active_view_starve_factor := QArith_base.Qmake 3 4;
  passive_view_factor := 6;
  shuffle_probability := QArith_base.Qmake 3 10;
  shuffle_interval := 180 * 10 ^ 9;
  maintenance_tick_interval := 5 * 10 ^ 9;
  pending_timeout := 15 * 10 ^ 9;
  dedupe_interval := Some (5 * 10 ^ 9)%Z;
  max_transmit_size := Nat.pow 2 20;
  listen_addrs := listen_addrs;
|}.

(** [log2(n).round()], half way up: [n^2] is compared with odd powers of two. *)
Definition log2_round (n : nat) : nat := (Nat.log2 (n * n) + 1) / 2.

(** [Config::optimal_active_view_size]; the logarithm of zero is minus infinity,
    which the conversion to an integer turns into zero. *)
Definition optimal_active_view_size (self : Config) : nat :=
  if (network_size self =? 0)%nat then 0
  else log2_round (network_size self) + active_view_constant self.

(** [Config::min_active_view_size]: the product, rounded up. *)
Definition min_active_view_size (self : Config) : nat :=
  let q := active_view_starve_factor self in
  Z.to_nat (- ((- (Z.of_nat (optimal_active_view_size self) * QArith_base.Qnum q))
    / Z.pos (QArith_base.Qden q))).

(** [Config::max_passive_view_size] *)
Definition max_passive_view_size (self : Config) : nat :=
  optimal_active_view_size self * passive_view_factor self.

(** [Config::random_walk_length]: the least [k] with [10^k] not below the size. *)
Fixpoint log10_ceil (fuel : nat) (pow n : Z) (k : nat) : nat :=
  match fuel with
  | 0 => k
  | S fuel => if (n <=? pow)%Z then k else log10_ceil fuel (10 * pow) n (S k)
  end.
Definition random_walk_length (self : Config) : nat :=
  log10_ceil (network_size self) 1 (Z.of_nat (network_size self)) 0.

(** [Config::shuffle_sample_size] *)
Definition shuffle_sample_size (self : Config) : nat := max_passive_view_size self / 2.

(** [IpAddress::try_from(&Multiaddr)] *)
Definition ip_address (addr : Multiaddr) : option Protocol :=
  match protocols addr with
  | Ip4 a :: _ => Some (Ip4 a)
  | Ip6 a :: _ => Some (Ip6 a)
  | _ => None
  end.

(** The fuel of the logarithm is enough: a power of ten outgrows its exponent. *)
Lemma log10_ceil_spec fuel pow n k :
  (0 < pow)%Z → (n ≤ pow * 10 ^ Z.of_nat fuel)%Z →
  let r := log10_ceil fuel pow n k in
  k ≤ r ∧ (n ≤ pow * 10 ^ Z.of_nat (r - k))%Z ∧
  (k < r → (pow * 10 ^ Z.of_nat (r - k - 1) < n)%Z).
Proof.
  revert pow k. induction fuel as [|fuel IH]; intros pow k Hpow Hn; simpl.
  { rewrite Nat.sub_diag. simpl in *. split; [lia|]. split; [lia|lia]. }
  destruct (Z.leb_spec n pow) as [Hle|Hlt].
  { rewrite Nat.sub_diag. simpl. split; [lia|]. split; [lia|lia]. }
  destruct (IH (10 * pow)%Z (S k)) as (Hk & Hhi & Hlo); [lia| |].
  { rewrite Nat2Z.inj_succ, Z.pow_succ_r in Hn by lia. lia. }
  set (r := log10_ceil fuel (10 * pow) n (S k)) in *. split; [lia|].
  assert (∀ j, (10 * pow * 10 ^ Z.of_nat j = pow * 10 ^ Z.of_nat (S j))%Z) as Hs.
  { intros j. rewrite Nat2Z.inj_succ, Z.pow_succ_r by lia. lia. }
  rewrite Hs in Hhi. replace (S (r - S k)) with (r - k) in Hhi by lia. split; [done|].
  intros _. destruct (decide (r = S k)) as [->|Hne].
  - replace (S k - k - 1) with 0 by lia. simpl. lia.
  - specialize (Hlo ltac:(lia)). rewrite Hs in Hlo.
    by replace (S (r - S k - 1)) with (r - k - 1) in Hlo by lia.
Qed.

(** A shuffle or join travels [k] hops in a network of more than [10^(k-1)] and at
    most [10^k] nodes. *)
Lemma random_walk_length_spec self :
  (Z.of_nat (network_size self) ≤ 10 ^ Z.of_nat (random_walk_length self))%Z ∧
  (0 < random_walk_length self →
    (10 ^ Z.of_nat (random_walk_length self - 1) < Z.of_nat (network_size self))%Z).
Proof.
  unfold random_walk_length.
  destruct (log10_ceil_spec (network_size self) 1 (Z.of_nat (network_size self)) 0)
    as (_ & Hhi & Hlo); [lia| |].
  - rewrite Z.mul_1_l. pose proof (Z.pow_gt_lin_r 10 (Z.of_nat (network_size self))). lia.
  - rewrite Nat.sub_0_r in *. rewrite Z.mul_1_l in *. done.
Qed.
End wire.
Notation PeerSet := (gmap PeerId (gset Multiaddr)).

(** The encoding of messages in the examples. *)
#[global] Instance sandbox_rmp_action : Rmp (rstring * Action) := rmp_countable (rstring * Action).
#[global] Instance sandbox_rmp_action_laws : RmpLaws (rstring * Action) :=
  rmp_countable_laws (rstring * Action).
