(* ===== verification/Behaviour.v ===== *)
(** The network behaviour: [network/src/behaviour.rs].

    The behaviour sits between libp2p's swarm and the network object.  It queues
    what the swarm reports and what the network object asks for, and hands the
    swarm one action each time it is polled.  Its three channels are lists, the
    oldest item first; since a behaviour owns both ends of them, none is closed. *)
From S2P Require Import Prelude Extern Chain Sandbox Cache Wire.

(** [Channel::poll_recv] of a channel that is open. *)
Definition poll_recv {A} (queue : list A) : option (A * list A) :=
  match queue with
  | [] => None
  | x :: queue => Some (x, queue)
  end.

Section behaviour.
Context `{!MultihashCrate, !Libp2p}.

(** [behaviour::Event] *)
Inductive BehaviourEvent :=
| NewLocalAddress (addr : Multiaddr)
| ConnectionEstablished (peer : AddressablePeer) (endpoint : ConnectedPoint)
    (connection_id : ConnectionId)
| ConnectionClosed (peer : PeerId) (connection_id : ConnectionId)
| WireMessage (peer : PeerId) (connection_id : ConnectionId) (msg : Message).

(** [pub struct Behaviour] *)
Record Behaviour := mkBehaviour {
  bh_config : Config;
  bh_events : list BehaviourEvent;
  bh_disconnects : list (PeerId * ConnectionId);
  bh_outmsgs : list (PeerId * ConnectionId * Message);
}.

(** [Behaviour::new], [send_to], [disconnect_from] *)
Definition behaviour_new (config : Config) : Behaviour := mkBehaviour config [] [] [].
Definition send_to (self : Behaviour) (peer : PeerId) (connection : ConnectionId) (msg : Message) :
    Behaviour :=
  mkBehaviour (bh_config self) (bh_events self) (bh_disconnects self)
    (bh_outmsgs self ++ [(peer, connection, msg)]).
Definition disconnect_from (self : Behaviour) (peer : PeerId) (connection : ConnectionId) :
    Behaviour :=
  mkBehaviour (bh_config self) (bh_events self) (bh_disconnects self ++ [(peer, connection)])
    (bh_outmsgs self).
Definition bh_emit (self : Behaviour) (event : BehaviourEvent) : Behaviour :=
  mkBehaviour (bh_config self) (bh_events self ++ [event]) (bh_disconnects self) (bh_outmsgs self).

(** [is_local_address]: 127.0.0.1 and 0.0.0.0, ::1 and ::. *)
Definition is_local_address (addr : Multiaddr) : bool :=
  existsb (λ p, match p with
    | Ip4 a => (a =? 2130706433)%N || (a =? 0)%N
    | Ip6 a => (a =? 1)%N || (a =? 0)%N
    | Tcp _ | OtherProtocol => false
    end) (protocols addr).

(** The callbacks of [NetworkBehaviour] *)
Definition bh_inject_event (self : Behaviour) (peer_id : PeerId) (connection : ConnectionId)
    (event : Message) : Behaviour :=
  bh_emit self (WireMessage peer_id connection event).
Definition inject_connection_established (self : Behaviour) (peer_id : PeerId)
    (connection_id : ConnectionId) (endpoint : ConnectedPoint) : Behaviour :=
  bh_emit self (ConnectionEstablished (mkPeer peer_id {[get_remote_address endpoint]}) endpoint
    connection_id).
Definition inject_connection_closed (self : Behaviour) (peerid : PeerId)
    (connection_id : ConnectionId) : Behaviour :=
  bh_emit self (ConnectionClosed peerid connection_id).
Definition inject_new_listen_addr (self : Behaviour) (addr : Multiaddr) : Behaviour :=
  if negb (is_local_address addr) then bh_emit self (NewLocalAddress addr) else self.

(** [NetworkBehaviourAction], as far as this behaviour uses it: the event for the
    network object, a connection to close, a message for the handler of a
    connection. *)
Inductive NetworkBehaviourAction :=
| GenerateEvent (event : BehaviourEvent)
| CloseConnection (peer_id : PeerId) (connection : ConnectionId)
| NotifyHandler (peer_id : PeerId) (connection : ConnectionId) (event : Message).

(** [poll]: [None] is [Poll::Pending]. *)
Definition bh_poll (self : Behaviour) : option (NetworkBehaviourAction * Behaviour) :=
  match poll_recv (bh_events self) with
  | Some (event, q) =>
      Some (GenerateEvent event,
        mkBehaviour (bh_config self) q (bh_disconnects self) (bh_outmsgs self))
  | None =>
      match poll_recv (bh_disconnects self) with
      | Some ((peer_id, connection), q) =>
          Some (CloseConnection peer_id connection,
            mkBehaviour (bh_config self) (bh_events self) q (bh_outmsgs self))
      | None =>
          match poll_recv (bh_outmsgs self) with
          | Some ((peer, connection, msg), q) =>
              Some (NotifyHandler peer connection msg,
                mkBehaviour (bh_config self) (bh_events self) (bh_disconnects self) q)
          | None => None
          end
      end
  end.

(** The swarm polls until nothing is left to do: its actions, with fuel. *)
Fixpoint bh_drain (fuel : nat) (self : Behaviour) : option (list NetworkBehaviourAction) :=
  match fuel with
  | 0 => None
  | S fuel =>
      match bh_poll self with
      | None => Some []
      | Some (action, self) => cons action <$> bh_drain fuel self
      end
  end.

(** What is left to do, in the order in which it will be done. *)
Definition agenda (self : Behaviour) : list NetworkBehaviourAction :=
  (GenerateEvent <$> bh_events self) ++
  ((λ d, CloseConnection d.1 d.2) <$> bh_disconnects self) ++
  ((λ m, NotifyHandler m.1.1 m.1.2 m.2) <$> bh_outmsgs self).

Lemma bh_poll_agenda self :
  match agenda self with
  | [] => bh_poll self = None
  | a :: rest => ∃ self', bh_poll self = Some (a, self') ∧ agenda self' = rest
  end.
Proof.
  destruct self as [cfg [|e es] [|[p c] ds] [|[[p' c'] m] ms]]; cbn; try done; eauto.
Qed.

Lemma bh_drain_S fuel self :
  bh_drain (S fuel) self =
    match bh_poll self with
    | None => Some []
    | Some (action, self) => cons action <$> bh_drain fuel self
    end.
Proof. done. Qed.

(** The behaviour loses nothing and ends: polled one time more often than items
    are queued, it reports every event in the order the swarm injected them, then
    closes every connection, then hands over every message, in the order asked
    for.  A queued message that a later [disconnect_from] of the same connection
    follows is thus handed over only after the connection was closed. *)
Theorem behaviour_drains self peer connection msg :
  bh_drain (S (length (agenda self))) self = Some (agenda self) ∧
  agenda (disconnect_from (send_to self peer connection msg) peer connection) =
    (GenerateEvent <$> bh_events self) ++
    ((λ d, CloseConnection d.1 d.2) <$> bh_disconnects self) ++ [CloseConnection peer connection] ++
    ((λ m, NotifyHandler m.1.1 m.1.2 m.2) <$> bh_outmsgs self) ++ [NotifyHandler peer connection msg].
Proof.
  split.
  - remember (agenda self) as l eqn:Hl. revert self Hl.
    induction l as [|a l IH]; intros self Hl; pose proof (bh_poll_agenda self) as Hp;
      rewrite <-Hl in Hp; rewrite bh_drain_S.
    + by rewrite Hp.
    + destruct Hp as (self' & -> & Hr). simpl length. by rewrite (IH self').
  - unfold agenda. cbn. by rewrite !fmap_app, <-!app_assoc.
Qed.
End behaviour.

Section local.
Context `{!MultihashCrate}.

(** Loopback and unspecified addresses are not announced, others are. *)
Example local_addresses cfg :
  bh_events (inject_new_listen_addr (behaviour_new cfg) (2130706433%N : @Multiaddr sandbox_libp2p)) = [] ∧
  bh_events (inject_new_listen_addr (behaviour_new cfg) (134744072%N : @Multiaddr sandbox_libp2p)) =
    [NewLocalAddress 134744072%N].
Proof. split; reflexivity. Qed.
End local.
