(* ===== verification/Muxer.v ===== *)
(** The connection multiplexer: [network/src/muxer.rs].

    The multiplexer knows which topic every connection to a peer belongs to, which
    connections have not revealed their topic yet, and which addresses are being
    dialed for which topic.  Part of the state are maps of maps; the code inserts
    into the inner map or creates it, and drops it when its last entry goes, which
    [nested_insert] and [nested_remove] say once. *)
From stdpp Require Import functions.
From S2P Require Import Prelude Extern Chain Sandbox Cache Wire.

(** ** Maps of maps *)

Section nested.
Context `{Countable K, Countable J} {V : Type}.
Implicit Types (m : gmap K (gmap J V)).

Definition nested_lookup m (x : K * J) : option V := m !! x.1 ≫= lookup x.2.
Definition nested_insert (k : K) (j : J) (v : V) m : gmap K (gmap J V) :=
  match m !! k with
  | Some inner => <[k := <[j := v]> inner]> m
  | None => <[k := {[j := v]}]> m
  end.
Definition nested_remove (k : K) (j : J) m : gmap K (gmap J V) :=
  match m !! k with
  | Some inner =>
      let inner := delete j inner in
      if bool_decide (inner = ∅) then delete k m else <[k := inner]> m
  | None => m
  end.
(** No inner map is empty. *)
Definition no_empty m : Prop := map_Forall (λ _ inner, inner ≠ ∅) m.

Lemma nested_lookup_insert k j v m x :
  nested_lookup (nested_insert k j v m) x = <[(k, j) := Some v]> (nested_lookup m) x.
Proof.
  destruct x as [k' j']. unfold nested_lookup, nested_insert. simpl.
  destruct (decide ((k, j) = (k', j'))) as [[= <- <-]|Hne].
  { rewrite fn_lookup_insert.
    destruct (m !! k) as [inner|] eqn:Hk; rewrite lookup_insert_eq; simpl.
    - apply lookup_insert_eq.
    - apply lookup_singleton_eq. }
  rewrite fn_lookup_insert_ne by done. simpl. destruct (decide (k = k')) as [<-|Hk].
  - destruct (m !! k) as [inner|] eqn:Hk; rewrite lookup_insert_eq; simpl.
    + apply lookup_insert_ne. congruence.
    + apply lookup_singleton_ne. congruence.
  - destruct (m !! k); by rewrite lookup_insert_ne by done.
Qed.

Lemma nested_lookup_remove k j m x :
  nested_lookup (nested_remove k j m) x = <[(k, j) := None]> (nested_lookup m) x.
Proof.
  destruct x as [k' j']. unfold nested_lookup, nested_remove. simpl.
  assert (∀ inner, m !! k = Some inner → k = k' → j ≠ j' → delete j inner = ∅ → inner !! j' = None)
    as Hempty.
  { intros inner _ _ Hj He. rewrite <-(lookup_delete_ne inner j j') by done. by rewrite He. }
  destruct (decide ((k, j) = (k', j'))) as [[= <- <-]|Hne].
  { rewrite fn_lookup_insert. destruct (m !! k) as [inner|] eqn:Hk; [|by rewrite Hk].
    case_bool_decide; [by rewrite lookup_delete_eq|]. rewrite lookup_insert_eq. simpl.
    apply lookup_delete_eq. }
  rewrite fn_lookup_insert_ne by done. simpl. destruct (decide (k = k')) as [<-|Hk].
  - destruct (m !! k) as [inner|] eqn:Hk; [|by rewrite Hk]. assert (j ≠ j') by congruence. simpl.
    case_bool_decide as He; [rewrite lookup_delete_eq; simpl; by rewrite Hempty|].
    rewrite lookup_insert_eq. simpl. by apply lookup_delete_ne.
  - destruct (m !! k) as [inner|]; [|done].
    case_bool_decide; [by rewrite lookup_delete_ne|by rewrite lookup_insert_ne].
Qed.

Lemma no_empty_insert k j v m : no_empty m → no_empty (nested_insert k j v m).
Proof.
  intros Hm. unfold nested_insert. destruct (m !! k); apply map_Forall_insert_2; try done.
  apply insert_non_empty.
Qed.

Lemma no_empty_remove k j m : no_empty m → no_empty (nested_remove k j m).
Proof.
  intros Hm. unfold nested_remove. destruct (m !! k); [|done]. cbv zeta.
  case_bool_decide; [by apply map_Forall_delete|by apply map_Forall_insert_2].
Qed.
End nested.

(** ** The multiplexer *)

Section muxer.
Context `{!MultihashCrate, !Libp2p, !HashOrder Multiaddr, !HashOrder Protocol, !HashOrder rstring}.

(** [pub struct Muxer]; an [IpAddress] is the first protocol of an address. *)
Record Muxer := mkMuxer {
  assigned : gmap PeerId (gmap ConnectionId rstring);
  unassigned : gmap PeerId (AddressablePeer * gset ConnectionId);
  requested_dials : gmap Protocol (gmap rstring Multiaddr);
  ongoing_dials : ExpiringMap Protocol rstring;
}.

Definition with_assigned a (m : Muxer) := mkMuxer a (unassigned m) (requested_dials m) (ongoing_dials m).
Definition with_unassigned u (m : Muxer) := mkMuxer (assigned m) u (requested_dials m) (ongoing_dials m).
Definition with_requested r (m : Muxer) := mkMuxer (assigned m) (unassigned m) r (ongoing_dials m).
Definition with_ongoing o (m : Muxer) := mkMuxer (assigned m) (unassigned m) (requested_dials m) o.

(** [Muxer::new] *)
Definition muxer_new (config : Config) : Muxer := mkMuxer ∅ ∅ ∅ (em_new (pending_timeout config)).

(** [Muxer::register]: the addresses of the first connection are kept. *)
Definition register (from : AddressablePeer) (id : ConnectionId) (self : Muxer) : Muxer :=
  match unassigned self !! peer_id from with
  | Some (peer, conns) =>
      with_unassigned (<[peer_id from := (peer, {[id]} ∪ conns)]> (unassigned self)) self
  | None => with_unassigned (<[peer_id from := (from, {[id]})]> (unassigned self)) self
  end.

(** What is left of a peer that loses an unassigned connection. *)
Definition forget_unassigned (peer : PeerId) (addrpeer : AddressablePeer) (conns : gset ConnectionId)
    (self : Muxer) : Muxer :=
  if bool_decide (conns = ∅) then with_unassigned (delete peer (unassigned self)) self
  else with_unassigned (<[peer := (addrpeer, conns)]> (unassigned self)) self.

(** [Muxer::disconnect] *)
Definition mux_disconnect (peer : PeerId) (connection : ConnectionId) (self : Muxer) : Muxer :=
  match assigned self !! peer with
  | Some _ => with_assigned (nested_remove peer connection (assigned self)) self
  | None =>
      match unassigned self !! peer with
      | Some (addrpeer, peer_conns) =>
          forget_unassigned peer addrpeer (peer_conns ∖ {[connection]}) self
      | None => self
      end
  end.

(** [Muxer::put_dial]: an address that is no IP address is dropped. *)
Definition put_dial (addr : Multiaddr) (topic : rstring) (self : Muxer) : Muxer :=
  match ip_address addr with
  | Some ip => with_requested (nested_insert ip topic addr (requested_dials self)) self
  | None => self
  end.

(** [Muxer::poll_dial]: the first topic of the first address, in the order of the
    hash maps. *)
Definition poll_dial (self : Muxer) : option (rstring * Multiaddr) :=
  '(_, dial) ← head (hash_iter (requested_dials self)); head (hash_iter dial).

(** [Muxer::next_dial] *)
Definition next_dial (now : Instant) (addr : Multiaddr) (topic : rstring) (self : Muxer) :
    bool * Muxer :=
  match ip_address addr with
  | None => (false, self)
  | Some ip =>
      if em_contains_key now (ongoing_dials self) ip then (false, self)
      else match nested_lookup (requested_dials self) (ip, topic) with
      | None => (false, self)
      | Some _ =>
          let self := with_requested (nested_remove ip topic (requested_dials self)) self in
          (true, with_ongoing (em_insert now (ongoing_dials self) ip topic).2 self)
      end
  end.

(** [Muxer::match_dial]: looks for a dial of one of the addresses, in the order of
    the hash set. *)
Fixpoint match_dial_loop (now : Instant) (addrs : list Multiaddr) (self : Muxer) :
    option rstring * Muxer :=
  match addrs with
  | [] => (None, self)
  | addr :: addrs =>
      match ip_address addr with
      | None => match_dial_loop now addrs self
      | Some ip =>
          let '(topic, ongoing) := em_remove now (ongoing_dials self) ip in
          let self := with_ongoing ongoing self in
          match topic with
          | Some topic => (Some topic, self)
          | None => match_dial_loop now addrs self
          end
      end
  end.
Definition match_dial (now : Instant) (peer : AddressablePeer) (connection : ConnectionId)
    (self : Muxer) : option rstring * Muxer :=
  match match_dial_loop now (hash_elems (addresses peer)) self with
  | (Some topic, self) =>
      (Some topic, with_assigned (nested_insert (peer_id peer) connection topic (assigned self)) self)
  | (None, self) => (None, self)
  end.

(** [Muxer::assign] *)
Definition assign (peer : PeerId) (connection_id : ConnectionId) (topic : rstring) (self : Muxer) :
    option AddressablePeer * Muxer :=
  match unassigned self !! peer with
  | Some (addrpeer, conns) =>
      if bool_decide (connection_id ∈ conns) then
        let self := with_assigned (nested_insert peer connection_id topic (assigned self)) self in
        (Some addrpeer, forget_unassigned peer addrpeer (conns ∖ {[connection_id]}) self)
      else (None, self)
  | None => (None, self)
  end.

(** [Muxer::resolve_topic], [assigned_count], [unassigned_count], [prune_expired] *)
Definition resolve_topic (peer : PeerId) (connection : ConnectionId) (self : Muxer) : option rstring :=
  nested_lookup (assigned self) (peer, connection).
Definition assigned_count (self : Muxer) : nat := size (assigned self).
Definition unassigned_count (self : Muxer) : nat := size (unassigned self).
Definition mux_prune_expired (now : Instant) (self : Muxer) : Muxer :=
  with_ongoing (em_prune_expired now (ongoing_dials self)) self.

(** *** What the multiplexer knows of a connection *)

Inductive Link := Unassigned | AssignedTo (topic : rstring).

(** The unassigned connections of a peer. *)
Definition waiting (m : Muxer) (p : PeerId) : gset ConnectionId :=
  match unassigned m !! p with Some (_, conns) => conns | None => ∅ end.

(** An assigned connection counts as assigned. *)
Definition link (m : Muxer) (x : PeerId * ConnectionId) : option Link :=
  match nested_lookup (assigned m) x with
  | Some topic => Some (AssignedTo topic)
  | None => if bool_decide (x.2 ∈ waiting m x.1) then Some Unassigned else None
  end.

(** The well-formed multiplexers: no entry is empty, a peer is filed under its
    identity, no connection is assigned and unassigned at once, and a requested
    address is filed under its IP address. *)
Record mux_ok (m : Muxer) : Prop := {
  ok_assigned : no_empty (assigned m);
  ok_unassigned : map_Forall (λ p u, peer_id u.1 = p ∧ u.2 ≠ ∅) (unassigned m);
  ok_disjoint : ∀ x, is_Some (nested_lookup (assigned m) x) → x.2 ∉ waiting m x.1;
  ok_requested : no_empty (requested_dials m);
  ok_addresses : ∀ ip t a, nested_lookup (requested_dials m) (ip, t) = Some a → ip_address a = Some ip;
}.

Lemma waiting_insert p a cs m q :
  waiting (with_unassigned (<[p := (a, cs)]> (unassigned m)) m) q =
    if decide (q = p) then cs else waiting m q.
Proof.
  unfold waiting. simpl. destruct (decide (q = p)) as [->|Hq].
  - by rewrite lookup_insert_eq.
  - by rewrite lookup_insert_ne.
Qed.

Lemma waiting_forget p a cs m q :
  waiting (forget_unassigned p a cs m) q = if decide (q = p) then cs else waiting m q.
Proof.
  unfold forget_unassigned. case_bool_decide as He; [|apply waiting_insert].
  unfold waiting. simpl. destruct (decide (q = p)) as [->|Hq].
  - by rewrite lookup_delete_eq.
  - by rewrite lookup_delete_ne.
Qed.

Lemma assigned_forget p a cs m : assigned (forget_unassigned p a cs m) = assigned m.
Proof. unfold forget_unassigned. by case_bool_decide. Qed.

Lemma requested_forget p a cs m : requested_dials (forget_unassigned p a cs m) = requested_dials m.
Proof. unfold forget_unassigned. by case_bool_decide. Qed.

(** The unassigned connections stay well-formed. *)
Lemma unassigned_forget_ok p a cs m :
  map_Forall (λ p u, peer_id u.1 = p ∧ u.2 ≠ ∅) (unassigned m) → peer_id a = p →
  map_Forall (λ p u, peer_id u.1 = p ∧ u.2 ≠ ∅) (unassigned (forget_unassigned p a cs m)).
Proof.
  intros Hm Ha. unfold forget_unassigned. case_bool_decide.
  - by apply map_Forall_delete.
  - by apply map_Forall_insert_2.
Qed.

Lemma link_AssignedTo m x t : link m x = Some (AssignedTo t) ↔ nested_lookup (assigned m) x = Some t.
Proof. unfold link. destruct (nested_lookup _ _); [naive_solver|]. by case_bool_decide. Qed.

Lemma link_Unassigned m x : mux_ok m → link m x = Some Unassigned ↔ x.2 ∈ waiting m x.1.
Proof.
  intros Hok. unfold link. destruct (nested_lookup _ _) as [t|] eqn:Ha.
  - split; [done|]. intros Hc. destruct (ok_disjoint m Hok x); eauto.
  - by case_bool_decide.
Qed.

Lemma link_None m x :
  link m x = None ↔ nested_lookup (assigned m) x = None ∧ x.2 ∉ waiting m x.1.
Proof. unfold link. destruct (nested_lookup _ _); [naive_solver|]. case_bool_decide; naive_solver. Qed.

(** A well-formed multiplexer whose connection [x] is now known as [l], and whose
    dials may have changed. *)
Definition relinked (m : Muxer) (x : PeerId * ConnectionId) (l : option Link) (m' : Muxer) : Prop :=
  mux_ok m' ∧ ∀ y, link m' y = <[x := l]> (link m) y.

Lemma relinked_id m x : mux_ok m → relinked m x (link m x) m.
Proof.
  intros Hok. split; [done|]. intros y. destruct (decide (x = y)) as [<-|Hy].
  - by rewrite fn_lookup_insert.
  - by rewrite fn_lookup_insert_ne.
Qed.

(** It is enough to look at the assignments and the unassigned connections. *)
Lemma relinked_intro m x l m' :
  mux_ok m → no_empty (assigned m') →
  map_Forall (λ p u, peer_id u.1 = p ∧ u.2 ≠ ∅) (unassigned m') →
  requested_dials m' = requested_dials m →
  (∀ y, nested_lookup (assigned m') y =
    <[x := match l with Some (AssignedTo t) => Some t | _ => None end]> (nested_lookup (assigned m)) y) →
  (∀ y, y.2 ∈ waiting m' y.1 ↔
    if decide (y = x) then l = Some Unassigned else y.2 ∈ waiting m y.1) →
  relinked m x l m'.
Proof.
  intros Hok Ha Hu Hr Hla Hlu. split.
  - destruct Hok as [_ _ Hdis Hreq Haddr]. split; rewrite ?Hr; try done.
    intros y [t Ht]. rewrite Hla in Ht. rewrite Hlu. destruct (decide (y = x)) as [->|Hy].
    + rewrite fn_lookup_insert in Ht. by destruct l as [[]|].
    + rewrite fn_lookup_insert_ne in Ht by done. eauto.
  - intros y. specialize (Hlu y). unfold link. rewrite Hla. destruct (decide (y = x)) as [->|Hy].
    + rewrite !fn_lookup_insert. destruct l as [[]|]; [|done|]; case_bool_decide; naive_solver.
    + rewrite !fn_lookup_insert_ne by done. destruct (nested_lookup _ _); [done|].
      by rewrite (bool_decide_ext _ _ Hlu).
Qed.

(** An assignment that did not exist does not change. *)
Lemma nested_lookup_None (m : gmap PeerId (gmap ConnectionId rstring)) x y :
  nested_lookup m x = None → nested_lookup m y = <[x := None]> (nested_lookup m) y.
Proof.
  intros Hx. destruct (decide (x = y)) as [<-|Hy].
  - by rewrite fn_lookup_insert.
  - by rewrite fn_lookup_insert_ne.
Qed.

Lemma register_eq a c m : mux_ok m → ∃ b, peer_id b = peer_id a ∧
  register a c m =
    with_unassigned (<[peer_id a := (b, {[c]} ∪ waiting m (peer_id a))]> (unassigned m)) m.
Proof.
  intros Hok. unfold register, waiting.
  destruct (unassigned m !! peer_id a) as [[b cs]|] eqn:Hp.
  - exists b. split; [by apply (ok_unassigned m Hok _ _ Hp)|done].
  - exists a. split; [done|]. by rewrite (right_id_L ∅ (∪)).
Qed.

Lemma relinked_register a c m :
  mux_ok m → link m (peer_id a, c) = None → relinked m (peer_id a, c) (Some Unassigned) (register a c m).
Proof.
  intros Hok [Hn _]%link_None. pose proof Hok as [Ha Hu _ _ _].
  destruct (register_eq a c m Hok) as (b & Hb & ->). apply relinked_intro; try done.
  - apply map_Forall_insert_2; [|done]. split; [done|]. simpl. intros He.
    apply (non_empty_inhabited_L (C:=gset ConnectionId) c) in He; [done|]. set_solver.
  - intros y. by apply nested_lookup_None.
  - intros [q d]. rewrite waiting_insert. simpl. destruct (decide (q = peer_id a)) as [->|Hq].
    + destruct (decide _) as [[= ->]|Hd]; [set_solver|].
      rewrite elem_of_union, elem_of_singleton. naive_solver.
    + rewrite decide_False by congruence. done.
Qed.

Lemma relinked_assign p c t m a m' :
  mux_ok m → assign p c t m = (a, m') →
  match a with
  | Some a => link m (p, c) = Some Unassigned ∧ peer_id a = p ∧ relinked m (p, c) (Some (AssignedTo t)) m'
  | None => link m (p, c) ≠ Some Unassigned ∧ m' = m
  end.
Proof.
  intros Hok. pose proof (link_Unassigned m (p, c) Hok) as Hl. pose proof Hok as [Ha Hu _ _ _].
  unfold assign. unfold waiting in Hl. simpl in Hl.
  destruct (unassigned m !! p) as [[b cs]|] eqn:Hp; [|intros [= <- <-]; split; [set_solver|done]].
  case_bool_decide as Hc; intros [= <- <-]; [|split; [by rewrite Hl|done]].
  destruct (Hu _ _ Hp) as [Hb _]. split; [by apply Hl|]. split; [done|].
  apply relinked_intro; rewrite ?assigned_forget, ?requested_forget; try done.
  - by apply no_empty_insert.
  - by apply unassigned_forget_ok.
  - intros y. simpl. by rewrite nested_lookup_insert.
  - intros [q d]. rewrite waiting_forget. simpl. destruct (decide (q = p)) as [->|Hq].
    + unfold waiting. rewrite Hp. destruct (decide _) as [[= ->]|Hd]; set_solver.
    + by rewrite decide_False by congruence.
Qed.

Lemma relinked_disconnect p c m :
  mux_ok m →
  relinked m (p, c)
    (match link m (p, c), assigned m !! p with Some Unassigned, Some _ => Some Unassigned | _, _ => None end)
    (mux_disconnect p c m).
Proof.
  intros Hok. pose proof Hok as [Ha Hu Hd _ _]. unfold mux_disconnect.
  destruct (assigned m !! p) as [inner|] eqn:Hp; [|destruct (unassigned m !! p) as [[a cs]|] eqn:Hup].
  - apply relinked_intro; simpl; try done.
    + by apply no_empty_remove.
    + intros y. rewrite nested_lookup_remove. by destruct (link m (p, c)) as [[]|].
    + intros y. destruct (decide (y = (p, c))) as [->|]; [|done].
      pose proof (link_Unassigned m (p, c) Hok) as Hl. simpl in *. rewrite <-Hl.
      destruct (link m (p, c)) as [[]|]; naive_solver.
  - assert (nested_lookup (assigned m) (p, c) = None) as Hn by (unfold nested_lookup; simpl; by rewrite Hp).
    match goal with |- relinked _ _ ?l _ =>
      replace l with (@None Link) by (by destruct (link m (p, c)) as [[]|]) end.
    apply relinked_intro; rewrite ?assigned_forget, ?requested_forget; try done.
    + by apply unassigned_forget_ok, (Hu _ _ Hup).
    + intros y. by apply nested_lookup_None.
    + intros [q d]. rewrite waiting_forget. simpl. destruct (decide (q = p)) as [->|Hq].
      * unfold waiting. rewrite Hup. destruct (decide _) as [[= ->]|?]; set_solver.
      * by rewrite decide_False by congruence.
  - assert (link m (p, c) = None) as Hl.
    { apply link_None. unfold nested_lookup, waiting. simpl. rewrite Hp, Hup. set_solver. }
    rewrite Hl. rewrite <-Hl at 1. by apply relinked_id.
Qed.

(** *** Dials *)

(** The topic that an IP address is being dialed for, and that of the first address
    of a peer that is. *)
Definition dialing (now : Instant) (m : Muxer) (addr : Multiaddr) : option rstring :=
  ip_address addr ≫= em_get now (ongoing_dials m).
Definition dial_of (now : Instant) (m : Muxer) (peer : AddressablePeer) : option rstring :=
  head (omap (dialing now m) (hash_elems (addresses peer))).

Lemma match_dial_loop_spec now addrs m r m' :
  match_dial_loop now addrs m = (r, m') →
  r = head (omap (dialing now m) addrs) ∧ assigned m' = assigned m ∧ unassigned m' = unassigned m ∧
  requested_dials m' = requested_dials m ∧ em_data (ongoing_dials m') ⊆ em_data (ongoing_dials m).
Proof.
  revert m. induction addrs as [|a addrs IH]; intros m; cbn [match_dial_loop omap list_omap].
  { by intros [= <- <-]. }
  unfold dialing at 1. destruct (ip_address a) as [ip|]; simpl; [|apply IH].
  fold (em_get now (ongoing_dials m) ip). destruct (em_get _ _ _) as [t|] eqn:Ht.
  { intros [= <- <-]. split; [done|]. split; [done|]. split; [done|]. split; [done|].
    apply delete_subseteq. }
  intros (-> & Ha & Hu & Hr & Hd)%IH. simpl in *. split; [|split; [done|split; [done|split; [done|]]]].
  - f_equal. apply list_omap_ext, Forall2_same_length_lookup_2; [done|].
    intros i x y Hx Hy. assert (x = y) as -> by congruence. unfold dialing.
    destruct (ip_address y) as [ip'|]; simpl; [|done]. unfold em_get at 1. simpl.
    destruct (decide (ip = ip')) as [<-|Hne].
    + by rewrite lookup_delete_eq.
    + by rewrite lookup_delete_ne.
  - etrans; [done|]. apply delete_subseteq.
Qed.

Lemma relinked_match_dial now a c m r m' :
  mux_ok m → link m (peer_id a, c) = None → match_dial now a c m = (r, m') →
  r = dial_of now m a ∧ relinked m (peer_id a, c) (AssignedTo <$> r) m' ∧
  em_data (ongoing_dials m') ⊆ em_data (ongoing_dials m).
Proof.
  intros Hok [Hn Hw]%link_None. unfold match_dial, dial_of.
  destruct (match_dial_loop _ _ _) as [r0 m0] eqn:Hl.
  apply match_dial_loop_spec in Hl as (-> & Ha & Hu & Hr & Hd).
  assert (∀ y, waiting m0 y = waiting m y) as Hwait by (intros y; unfold waiting; by rewrite Hu).
  pose proof Hok as [Hoa Hou _ _ _].
  destruct (head _) as [t|]; intros [= <- <-]; (split; [done|]; split; [|done]);
    apply relinked_intro; simpl; rewrite ?Ha, ?Hu, ?Hr; try done.
  - by apply no_empty_insert.
  - intros y. by rewrite nested_lookup_insert.
  - intros y. trans (y.2 ∈ waiting m0 y.1); [done|]. rewrite Hwait.
    destruct (decide _) as [->|]; naive_solver.
  - intros y. by apply nested_lookup_None.
  - intros y. rewrite Hwait. destruct (decide _) as [->|]; naive_solver.
Qed.

Lemma mux_ok_dials m m' :
  mux_ok m → assigned m' = assigned m → unassigned m' = unassigned m → no_empty (requested_dials m') →
  (∀ ip t a, nested_lookup (requested_dials m') (ip, t) = Some a → ip_address a = Some ip) → mux_ok m'.
Proof.
  intros [Ha Hu Hd _ _] Hae Hue Hr Haddr. split; rewrite ?Hae, ?Hue; try done.
  intros x. unfold waiting. rewrite Hue. apply Hd.
Qed.

Lemma put_dial_ok addr t m : mux_ok m → mux_ok (put_dial addr t m).
Proof.
  intros Hok. unfold put_dial. destruct (ip_address addr) as [ip|] eqn:Hip; [|done].
  apply (mux_ok_dials m); try done; simpl.
  - apply no_empty_insert, Hok.
  - intros ip' t' a. rewrite nested_lookup_insert.
    destruct (decide ((ip, t) = (ip', t'))) as [[= <- <-]|Hne].
    + rewrite fn_lookup_insert. by intros [= <-].
    + rewrite fn_lookup_insert_ne by done. apply Hok.
Qed.

Lemma next_dial_ok now addr t m : mux_ok m → mux_ok (next_dial now addr t m).2.
Proof.
  intros Hok. unfold next_dial. destruct (ip_address addr) as [ip|]; [|done].
  destruct (em_contains_key _ _ _); [done|]. destruct (nested_lookup _ _); [|done].
  apply (mux_ok_dials m); try done; simpl.
  - apply no_empty_remove, Hok.
  - intros ip' t' a. rewrite nested_lookup_remove. destruct (decide ((ip, t) = (ip', t'))) as [[= <- <-]|Hne].
    + by rewrite fn_lookup_insert.
    + rewrite fn_lookup_insert_ne by done. apply Hok.
Qed.

Lemma mux_prune_ok now m : mux_ok m → mux_ok (mux_prune_expired now m).
Proof. intros Hok. apply (mux_ok_dials m); try done; apply Hok. Qed.

(** What [next_dial] does, in terms of the dials that are requested and under way. *)
Lemma next_dial_eq now addr t m :
  next_dial now addr t m =
    match ip_address addr with
    | Some ip =>
        match dialing now m addr, nested_lookup (requested_dials m) (ip, t) with
        | None, Some _ =>
            (true, with_ongoing (em_insert now (ongoing_dials m) ip t).2
              (with_requested (nested_remove ip t (requested_dials m)) m))
        | _, _ => (false, m)
        end
    | None => (false, m)
    end.
Proof.
  unfold next_dial, dialing. destruct (ip_address addr) as [ip|]; [|done]. simpl.
  fold (em_get now (ongoing_dials m) ip). unfold em_contains_key.
  by destruct (em_get now (ongoing_dials m) ip).
Qed.

Lemma poll_dial_Some m t a :
  mux_ok m → poll_dial m = Some (t, a) →
  ∃ ip, ip_address a = Some ip ∧ nested_lookup (requested_dials m) (ip, t) = Some a.
Proof.
  intros Hok. unfold poll_dial. rewrite bind_Some. intros ([ip inner] & Hip & Hta).
  apply head_Some_elem_of, elem_of_hash_iter in Hip, Hta.
  assert (nested_lookup (requested_dials m) (ip, t) = Some a) as Hl.
  { unfold nested_lookup. simpl. by rewrite Hip. }
  exists ip. split; [|done]. by apply Hok in Hl.
Qed.

Lemma poll_dial_None m : mux_ok m → poll_dial m = None ↔ requested_dials m = ∅.
Proof.
  intros Hok. unfold poll_dial. split; [|intros ->].
  - destruct (decide (requested_dials m = ∅)) as [|Hne]; [done|]. intros Hn. exfalso.
    apply hash_iter_nil in Hne. destruct (hash_iter (requested_dials m)) as [|[ip inner] l] eqn:Hl; [done|].
    simpl in Hn. assert (requested_dials m !! ip = Some inner) as Hip.
    { apply elem_of_hash_iter. rewrite Hl. by left. }
    apply (ok_requested m Hok), hash_iter_nil in Hip. by destruct (hash_iter inner).
  - destruct (hash_iter ∅) as [|x l] eqn:Hl; [done|].
    assert (x ∈ hash_iter (∅ : gmap Protocol (gmap rstring Multiaddr))) as Hx by (rewrite Hl; by left).
    destruct x as [ip i]. apply elem_of_hash_iter in Hx. by rewrite lookup_empty in Hx.
Qed.

(** C29: the multiplexer keeps a table of connections.  On a well-formed multiplexer
    every operation leaves a well-formed one and changes what is known of the
    connection it is called for, and of no other: [register] makes a new connection
    unassigned, [match_dial] gives it to the topic that dialed the first of the
    peer's addresses under way, [assign] gives an unassigned one to a topic and
    touches nothing else, [resolve_topic] reads the table.  [disconnect] forgets the
    connection - except that an unassigned connection of a peer that also has
    assigned ones stays in the table for ever. *)
Theorem muxer_links now m peer a c t :
  mux_ok m →
  (link m (peer_id a, c) = None →
    relinked m (peer_id a, c) (Some Unassigned) (register a c m) ∧
    let '(r, m') := match_dial now a c m in
    r = dial_of now m a ∧ relinked m (peer_id a, c) (AssignedTo <$> r) m') ∧
  (let '(r, m') := assign peer c t m in
   match r with
   | Some b => link m (peer, c) = Some Unassigned ∧ peer_id b = peer ∧
       relinked m (peer, c) (Some (AssignedTo t)) m'
   | None => link m (peer, c) ≠ Some Unassigned ∧ m' = m
   end) ∧
  relinked m (peer, c)
    (match link m (peer, c), assigned m !! peer with Some Unassigned, Some _ => Some Unassigned | _, _ => None end)
    (mux_disconnect peer c m) ∧
  ∀ t', resolve_topic peer c m = Some t' ↔ link m (peer, c) = Some (AssignedTo t').
Proof.
  intros Hok. split; [|split; [|split]].
  - intros Hl. split; [by apply relinked_register|]. destruct (match_dial now a c m) as [r m'] eqn:Hm.
    by destruct (relinked_match_dial now a c m r m') as (? & ? & _).
  - destruct (assign peer c t m) as [r m'] eqn:Hm. by apply (relinked_assign peer c t).
  - by apply relinked_disconnect.
  - intros t'. by rewrite link_AssignedTo.
Qed.

(** Dials are kept per IP address.  A request is recorded under the IP address
    and the topic - replacing the topic's earlier request for another port of that
    address - unless the address is no IP address.  [next_dial] starts a dial only
    if none to that IP address is under way and the topic has requested one; the
    request is then dropped and the dial is under way for that topic, whatever the
    port.  [poll_dial] finds a request as long as there is one, and that request
    can be started exactly if no dial to its IP address is under way. *)
Theorem muxer_dials now addr t m :
  mux_ok m → (0 ≤ lifespan (ongoing_dials m))%Z →
  (mux_ok (put_dial addr t m) ∧ ∀ x, nested_lookup (requested_dials (put_dial addr t m)) x =
    match ip_address addr with
    | Some ip => <[(ip, t) := Some addr]> (nested_lookup (requested_dials m)) x
    | None => nested_lookup (requested_dials m) x
    end) ∧
  (let '(started, m') := next_dial now addr t m in
   mux_ok m' ∧
   if started then ∃ ip a, ip_address addr = Some ip ∧ dialing now m addr = None ∧
     nested_lookup (requested_dials m) (ip, t) = Some a ∧ dialing now m' addr = Some t ∧
     (∀ x, nested_lookup (requested_dials m') x = <[(ip, t) := None]> (nested_lookup (requested_dials m)) x)
   else m' = m) ∧
  match poll_dial m with
  | Some (t', a) => (next_dial now a t' m).1 = bool_decide (dialing now m a = None)
  | None => requested_dials m = ∅
  end.
Proof.
  intros Hok Hl. split; [|split].
  - split; [by apply put_dial_ok|]. intros x. unfold put_dial. destruct (ip_address addr); [|done].
    apply nested_lookup_insert.
  - pose proof (next_dial_ok now addr t m Hok) as Hn. revert Hn. rewrite next_dial_eq.
    destruct (ip_address addr) as [ip|] eqn:Hip; [|by intros]. destruct (dialing now m addr) eqn:Hd; [by intros|].
    destruct (nested_lookup _ _) as [a|] eqn:Hr; [|by intros]. intros Hn. split; [done|].
    exists ip, a. split; [done|]. split; [done|]. split; [done|]. split.
    + unfold dialing. rewrite Hip. apply em_get_Some. exists now. simpl. split; [apply lookup_insert_eq|].
      unfold elapsed. lia.
    + intros x. apply nested_lookup_remove.
  - destruct (poll_dial m) as [[t' a]|] eqn:Hp; [|by apply poll_dial_None].
    apply poll_dial_Some in Hp as (ip & Hip & Hr); [|done]. rewrite next_dial_eq, Hip, Hr.
    by destruct (dialing now m a).
Qed.
End muxer.

(** *** A multiplexer with two dials requested for ports of one IP address *)

Section example.
#[local] Existing Instance sandbox_libp2p.

Definition busy_addr : Multiaddr := 10%N.
Definition busy_muxer : Muxer := mkMuxer
  {[7 := {[1 := str "t"]}]} {[7 := (mkPeer 7 {[10%N]}, {[2]})]}
  {[Ip4 10 := {[str "t" := 10%N]}]} (em_new 15).

Lemma busy_muxer_ok : mux_ok busy_muxer.
Proof.
  split.
  - by apply map_Forall_singleton.
  - by apply map_Forall_singleton.
  - intros [p c] [t Ht]. unfold nested_lookup, waiting in *. simpl in *. revert Ht.
    destruct (decide (p = 7)) as [->|]; [|by rewrite lookup_singleton_ne]. 
    rewrite !lookup_singleton_eq. simpl. destruct (decide (c = 1)) as [->|]; [set_solver|].
    by rewrite lookup_singleton_ne.
  - by apply map_Forall_singleton.
  - intros ip t a. unfold nested_lookup. simpl.
    destruct (decide (ip = Ip4 10)) as [->|]; [|by rewrite lookup_singleton_ne].
    rewrite lookup_singleton_eq. simpl. intros [_ <-]%lookup_singleton_Some. done.
Qed.

(** The unassigned connection 2 of peer 7 outlives its end. *)
Lemma muxer_links_witness : link (mux_disconnect 7 2 busy_muxer) (7, 2) = Some Unassigned.
Proof.
  destruct (muxer_links 0 busy_muxer 7 (@mkPeer sandbox_libp2p 8 ∅) 2 (str "t") busy_muxer_ok)
    as (_ & _ & (_ & Hl) & _).
  rewrite Hl. reflexivity.
Defined.

Lemma muxer_dials_witness :
  (next_dial 0 busy_addr (str "t") busy_muxer).1 = true ∧ mux_ok (next_dial 0 busy_addr (str "t") busy_muxer).2.
Proof.
  destruct (muxer_dials 0 busy_addr (str "t") busy_muxer busy_muxer_ok) as (_ & Hn & _); [done|].
  split; [reflexivity|]. revert Hn. destruct (next_dial _ _ _ _) as [b m']. by intros [Hm _].
Defined.
End example.
