(* ===== verification/Topic.v ===== *)
(** The membership protocol of a topic: [network/src/topic.rs].

    A topic keeps an active view - the peers it has a link to and gossips with -
    and a passive view of peers to fall back on, and reacts to events of the
    network layer.  Each handler is a function on the state of the topic; the
    commands it sends and the messages it delivers are appended to the state.  A
    handler reads the clock once ([now]); every use of a random generator takes the
    next draw.  Logging and metrics are left out. *)
From Stdlib Require QArith.
From S2P Require Import Prelude Extern Chain Cache Wire Behaviour.

Section topic.
Context `{!MultihashCrate, !Libp2p, !Rand, !HashOrder PeerId, !HashOrder Multiaddr}.
Context (prof : Profile).

(** [topic::Error], [topic::Config], [topic::Event] *)
Inductive TopicError := MessageTooLarge | NoConnectedPeers.
Record TopicConfig := mkTopicConfig { name : rstring; bootstrap : gset Multiaddr }.
Inductive TopicEvent :=
| MessageReceived (peer : PeerId) (msg : Message) (connection : ConnectionId)
| LocalAddressDiscovered (addr : Multiaddr)
| PeerConnected (peer : AddressablePeer) (connection : ConnectionId)
| PeerDisconnected (peer : PeerId) (connection : ConnectionId)
| Tick.

(** [network::Command]; topics send the first four, the background runloop the last. *)
Inductive Command :=
| Connect (addr : Multiaddr) (topic : rstring)
| Disconnect (peer : PeerId) (connection : ConnectionId)
| SendMessage (peer : PeerId) (connection : ConnectionId) (msg : Message)
| BanPeer (peer : PeerId)
| InjectEvent (event : BehaviourEvent).

Notation ActivePeers := (gmap PeerId (ConnectionId * gset Multiaddr)).

(** The collections of pending operations of [struct TopicInner]. *)
Record Pending := mkPending {
  pending_dials : ExpiringSet Protocol;
  pending_neighbours : ExpiringSet PeerId;
  pending_joins : ExpiringSet PeerId;
  pending_shuffle_replies : ExpiringMap PeerId ShuffleReply;
  pending_disconnects : ExpiringSet PeerId;
}.

(** [struct TopicInner]; [cmds] is what went into [cmdtx], [outmsgs] what was
    delivered, [draws] how often random generators were used. *)
Record TopicInner := mkTopic {
  topic_config : TopicConfig;
  network_config : Config;
  last_shuffle : Instant;
  this_node : AddressablePeer;
  outmsgs : list bytes;
  cmds : list Command;
  active_peers : ActivePeers;
  passive_peers : PeerSet;
  pending : Pending;
  draws : nat;
}.

(** *** Updates of single fields *)

Definition with_active (a : ActivePeers) (s : TopicInner) : TopicInner :=
  mkTopic (topic_config s) (network_config s) (last_shuffle s) (this_node s) (outmsgs s) (cmds s)
    a (passive_peers s) (pending s) (draws s).
Definition with_passive (p : PeerSet) (s : TopicInner) : TopicInner :=
  mkTopic (topic_config s) (network_config s) (last_shuffle s) (this_node s) (outmsgs s) (cmds s)
    (active_peers s) p (pending s) (draws s).
Definition with_pending (p : Pending) (s : TopicInner) : TopicInner :=
  mkTopic (topic_config s) (network_config s) (last_shuffle s) (this_node s) (outmsgs s) (cmds s)
    (active_peers s) (passive_peers s) p (draws s).
Definition with_last_shuffle (t : Instant) (s : TopicInner) : TopicInner :=
  mkTopic (topic_config s) (network_config s) t (this_node s) (outmsgs s) (cmds s)
    (active_peers s) (passive_peers s) (pending s) (draws s).
Definition with_this_node (n : AddressablePeer) (s : TopicInner) : TopicInner :=
  mkTopic (topic_config s) (network_config s) (last_shuffle s) n (outmsgs s) (cmds s)
    (active_peers s) (passive_peers s) (pending s) (draws s).
(** [self.cmdtx.send(command)] and [self.outmsgs.send(msg)]: the receivers outlive the
    topic. *)
Definition command (c : Command) (s : TopicInner) : TopicInner :=
  mkTopic (topic_config s) (network_config s) (last_shuffle s) (this_node s) (outmsgs s)
    (cmds s ++ [c]) (active_peers s) (passive_peers s) (pending s) (draws s).
Definition deliver (b : bytes) (s : TopicInner) : TopicInner :=
  mkTopic (topic_config s) (network_config s) (last_shuffle s) (this_node s) (outmsgs s ++ [b])
    (cmds s) (active_peers s) (passive_peers s) (pending s) (draws s).
(** A use of a random generator: its number. *)
Definition draw (s : TopicInner) : nat * TopicInner :=
  (draws s, mkTopic (topic_config s) (network_config s) (last_shuffle s) (this_node s) (outmsgs s)
    (cmds s) (active_peers s) (passive_peers s) (pending s) (S (draws s))).

Definition with_dials (d : ExpiringSet Protocol) (s : TopicInner) : TopicInner :=
  let p := pending s in
  with_pending (mkPending d (pending_neighbours p) (pending_joins p) (pending_shuffle_replies p)
    (pending_disconnects p)) s.
Definition with_neighbours (n : ExpiringSet PeerId) (s : TopicInner) : TopicInner :=
  let p := pending s in
  with_pending (mkPending (pending_dials p) n (pending_joins p) (pending_shuffle_replies p)
    (pending_disconnects p)) s.
Definition with_joins (j : ExpiringSet PeerId) (s : TopicInner) : TopicInner :=
  let p := pending s in
  with_pending (mkPending (pending_dials p) (pending_neighbours p) j (pending_shuffle_replies p)
    (pending_disconnects p)) s.
Definition with_replies (r : ExpiringMap PeerId ShuffleReply) (s : TopicInner) : TopicInner :=
  let p := pending s in
  with_pending (mkPending (pending_dials p) (pending_neighbours p) (pending_joins p) r
    (pending_disconnects p)) s.
Definition with_disconnects (d : ExpiringSet PeerId) (s : TopicInner) : TopicInner :=
  let p := pending s in
  with_pending (mkPending (pending_dials p) (pending_neighbours p) (pending_joins p)
    (pending_shuffle_replies p) d) s.

(** *** Commands *)

(** [send_message] with a message of this topic. *)
Definition send_message (peer : PeerId) (connection : ConnectionId) (a : Action)
    (self : TopicInner) : TopicInner :=
  command (SendMessage peer connection (message_new (name (topic_config self)) a)) self.

(** A message to every active peer, or every one but the sender. *)
Definition send_to_active (skip : PeerId → bool) (a : Action) (self : TopicInner) : TopicInner :=
  foldl (λ s '(peer, (connection, _)),
    if skip peer then s else send_message peer connection a s) self (hash_iter (active_peers self)).

(** [disconnect] *)
Definition disconnect (now : Instant) (peer : PeerId) (connection : ConnectionId)
    (self : TopicInner) : TopicInner :=
  let '(known, d) := es_insert now (pending_disconnects (pending self)) peer in
  let self := with_disconnects d self in
  if known then self else command (Disconnect peer connection) self.

(** [dial_addr] *)
Definition dial_addr (now : Instant) (addr : Multiaddr) (self : TopicInner) : TopicInner :=
  match ip_address addr with
  | Some sockaddr =>
      let '(known, d) := es_insert now (pending_dials (pending self)) sockaddr in
      let self := with_dials d self in
      if known then self else command (Connect addr (name (topic_config self))) self
  | None => self
  end.

Definition dial_all (now : Instant) (addrs : gset Multiaddr) (self : TopicInner) : TopicInner :=
  foldl (λ s addr, dial_addr now addr s) self (hash_elems addrs).

(** [is_pending_dial] *)
Definition is_pending_dial (now : Instant) (peer : AddressablePeer) (self : TopicInner) : bool :=
  existsb (λ addr,
    match ip_address addr with
    | Some ip => es_contains now (pending_dials (pending self)) ip
    | None => false
    end) (hash_elems (addresses peer)).

(** *** Views *)

(** [is_active], [active_view_starved], [active_view_full], [active_view_overconnected] *)
Definition is_active (peer : PeerId) (self : TopicInner) : bool :=
  bool_decide (is_Some (active_peers self !! peer)).
Definition active_view_starved (self : TopicInner) : bool :=
  (size (active_peers self) <? min_active_view_size (network_config self))%nat.
Definition active_view_full (self : TopicInner) : bool :=
  (optimal_active_view_size (network_config self) <=? size (active_peers self))%nat.
Definition active_view_overconnected (self : TopicInner) : bool :=
  (optimal_active_view_size (network_config self) <? size (active_peers self))%nat.

(** [remove_from_passive_view], [add_to_passive_view]; [None] is the panic of
    [expect] on the random choice. *)
Definition remove_from_passive_view (peer : PeerId) (self : TopicInner) : TopicInner :=
  with_passive (delete peer (passive_peers self)) self.
Definition add_to_passive_view (peer : AddressablePeer) (self : TopicInner) : option TopicInner :=
  let known := passive_peers self !! peer_id peer in
  let self := with_passive (<[peer_id peer := addresses peer]> (passive_peers self)) self in
  match known with
  | Some _ => Some self
  | None =>
      if (max_passive_view_size (network_config self) <? size (passive_peers self))%nat then
        let '(d, self) := draw self in
        random ← choose d (hash_keys (passive_peers self));
        Some (remove_from_passive_view random self)
      else Some self
  end.

(** [ban] *)
Definition ban (peer : PeerId) (self : TopicInner) : TopicInner :=
  command (BanPeer peer)
    (remove_from_passive_view peer (with_active (delete peer (active_peers self)) self)).

(** [add_to_active_view] *)
Definition add_to_active_view (peer : AddressablePeer) (connection : ConnectionId)
    (self : TopicInner) : TopicInner :=
  if is_active (peer_id peer) self then self
  else if bool_decide (peer_id peer = peer_id (this_node self)) then self
  else
    remove_from_passive_view (peer_id peer)
      (with_active (<[peer_id peer := (connection, addresses peer)]> (active_peers self)) self).

(** [move_active_to_passive] *)
Definition move_active_to_passive (peer : PeerId) (self : TopicInner) : option TopicInner :=
  match active_peers self !! peer with
  | Some (_, addrs) =>
      add_to_passive_view (mkPeer peer addrs)
        (with_active (delete peer (active_peers self)) self)
  | None => Some self
  end.

(** [try_neighbouring_with] *)
Definition try_neighbouring_with (now : Instant) (peer : AddressablePeer) (self : TopicInner) :
    bool * TopicInner :=
  if is_active (peer_id peer) self || is_pending_dial now peer self then (false, self)
  else
    let '(known, n) := es_insert now (pending_neighbours (pending self)) (peer_id peer) in
    let self := with_neighbours n self in
    if known then (false, self) else (true, dial_all now (addresses peer) self).

(** A random entry of the active view; [None] is the panic of [expect]. *)
Definition random_active (self : TopicInner) :
    option (PeerId * (ConnectionId * gset Multiaddr) * TopicInner) :=
  let '(d, self) := draw self in
  e ← choose d (hash_iter (active_peers self)); Some (e, self).

(** [try_stabilize_active_view] *)
Definition try_stabilize_active_view (now : Instant) (self : TopicInner) : option TopicInner :=
  if active_view_starved self && es_is_empty (pending_dials (pending self))
     && es_is_empty (pending_neighbours (pending self))
  then
    let '(d, self) := draw self in
    match choose d (hash_iter (passive_peers self)) with
    | Some (peer, addrs) => Some (try_neighbouring_with now (mkPeer peer addrs) self).2
    | None =>
        if es_is_empty (pending_dials (pending self)) && es_is_empty (pending_joins (pending self))
        then Some (dial_all now (bootstrap (topic_config self)) self)
        else Some self
    end
  else if active_view_overconnected self && es_is_empty (pending_disconnects (pending self))
  then
    '(peerid, (connection, _), self) ← random_active self;
    Some (disconnect now peerid connection self)
  else Some self.

(** *** Protocol messages *)

(** [consume_join] *)
Definition consume_join (now : Instant) (sender : PeerId) (msg : Join) (connection : ConnectionId)
    (self : TopicInner) : option TopicInner :=
  if bool_decide (sender ≠ peer_id (join_node msg)) then Some (ban sender self)
  else if is_active sender self then Some self
  else
    let self := send_to_active (λ _, false) (AForwardJoin (mkForwardJoin 1 (join_node msg))) self in
    let self := disconnect now sender connection self in
    let self :=
      if negb (active_view_full self) then (try_neighbouring_with now (join_node msg) self).2
      else self in
    add_to_passive_view (join_node msg) self.

(** [hop + 1] on 16 bits *)
Definition u16_succ (hop : Z) : option Z :=
  if (hop <? 65535)%Z then Some (hop + 1)%Z
  else match prof with Release => Some 0%Z | Debug => None end.

(** A message with the next hop count to every active peer but the sender; the count
    is computed for each of them. *)
Definition forward (sender : PeerId) (hop : Z) (a : Z → Action) (self : TopicInner) :
    option TopicInner :=
  foldM (λ s '(peer, (connection, _)),
    if bool_decide (peer ≠ sender)
    then next ← u16_succ hop; Some (send_message peer connection (a next) s)
    else Some s) self (hash_iter (active_peers self)).

(** [consume_forward_join] *)
Definition consume_forward_join (now : Instant) (sender : PeerId) (msg : ForwardJoin)
    (self : TopicInner) : option TopicInner :=
  if negb (is_active sender self) then Some self
  else if bool_decide (sender = peer_id (fj_node msg)) then Some self
  else if bool_decide (peer_id (fj_node msg) = peer_id (this_node self)) then Some self
  else
    self ← add_to_passive_view (fj_node msg) self;
    if (Z.of_nat (random_walk_length (network_config self)) <=? fj_hop msg)%Z then
      if negb (es_contains now (pending_neighbours (pending self)) (peer_id (fj_node msg))) then
        self ←
          (if active_view_full self then
            '(random_id, (rand_conn, _), self) ← random_active self;
            let self := disconnect now random_id rand_conn self in
            '(_, addrs) ← active_peers self !! random_id;
            add_to_passive_view (mkPeer random_id addrs) self
          else Some self);
        Some (try_neighbouring_with now (fj_node msg) self).2
      else Some self
    else
      let self :=
        if negb (active_view_full self) then (try_neighbouring_with now (fj_node msg) self).2
        else self in
      forward sender (fj_hop msg) (λ hop, AForwardJoin (mkForwardJoin hop (fj_node msg))) self.

(** [consume_neighbor] *)
Definition consume_neighbor (now : Instant) (sender : PeerId) (msg : Neighbour)
    (connection : ConnectionId) (self : TopicInner) : option TopicInner :=
  if is_active sender self then Some self
  else if bool_decide (sender ≠ peer_id (nb_peer msg)) then Some (ban sender self)
  else
    self ←
      (if active_view_full self && high_priority msg then
        '(random_id, (rand_conn, _), self) ← random_active self;
        Some (disconnect now random_id rand_conn self)
      else Some self);
    if negb (active_view_full self) then Some (add_to_active_view (nb_peer msg) connection self)
    else Some (disconnect now sender connection self).

(** The macro [collect_peer_addrs!]; [None] is the panic of its [expect]s. *)
Definition collect_peer_addrs (msg_peers : PeerSet) (self : TopicInner) (id : PeerId) :
    option (gset Multiaddr) :=
  match passive_peers self !! id with
  | Some addrs => Some addrs
  | None =>
      match active_peers self !! id with
      | Some (_, addrs) => Some addrs
      | None => msg_peers !! id
      end
  end.

(** [.map(|id| (id, addresses)).collect()] into a map. *)
Definition collect_peers (f : PeerId → option (gset Multiaddr)) (ids : list PeerId) : option PeerSet :=
  list_to_map <$> mapM (λ id, addrs ← f id; Some (id, addrs)) ids.

(** [consume_shuffle] *)
Definition consume_shuffle (now : Instant) (sender : PeerId) (msg : Shuffle) (self : TopicInner) :
    option TopicInner :=
  if negb (is_active sender self) then Some self
  else
    let '(d, self) := draw self in
    let recv_peer_ids : gset PeerId := list_to_set
      (choose_multiple d (hash_keys (sh_peers msg)) (shuffle_sample_size (network_config self))) in
    let local_peer_ids : gset PeerId := dom (active_peers self) ∪ dom (passive_peers self) in
    let resp_unique_peers := local_peer_ids ∖ recv_peer_ids in
    let new_peers := recv_peer_ids ∖ local_peer_ids in
    let collect := collect_peer_addrs (sh_peers msg) self in
    reply ← collect_peers collect (hash_elems resp_unique_peers);
    let shuffle_reply := mkShuffleReply reply in
    let '(d, self) := draw self in
    passive ← collect_peers collect
      (choose_multiple d (hash_elems local_peer_ids ++ hash_elems new_peers)
        (max_passive_view_size (network_config self)));
    let self := with_passive passive self in
    let self :=
      match active_peers self !! peer_id (sh_origin msg) with
      | Some (connection, _) =>
          send_message (peer_id (sh_origin msg)) connection (AShuffleReply shuffle_reply) self
      | None =>
          let '(_, r) := em_insert now (pending_shuffle_replies (pending self))
            (peer_id (sh_origin msg)) shuffle_reply in
          dial_all now (addresses (sh_origin msg)) (with_replies r self)
      end in
    if (sh_hop msg <? Z.of_nat (random_walk_length (network_config self)))%Z
    then forward sender (sh_hop msg)
      (λ hop, AShuffle (mkShuffle hop (sh_origin msg) (sh_peers msg))) self
    else Some self.

(** [consume_shuffle_reply] *)
Definition consume_shuffle_reply (now : Instant) (sender : PeerId) (msg : ShuffleReply)
    (connection : ConnectionId) (self : TopicInner) : option TopicInner :=
  let new_peers : gset PeerId := dom (passive_peers self) ∖ dom (sr_peers msg) in
  let '(d, self) := draw self in
  passive ← collect_peers
    (λ id, match passive_peers self !! id with
           | Some addrs => Some addrs
           | None => sr_peers msg !! id
           end)
    (choose_multiple d (hash_keys (passive_peers self) ++ hash_elems new_peers)
      (max_passive_view_size (network_config self)));
  let self := with_passive passive self in
  Some (if negb (is_active sender self) then disconnect now sender connection self else self).

(** [consume_gossip] *)
Definition consume_gossip (now : Instant) (sender : PeerId) (msg : bytes)
    (connection : ConnectionId) (self : TopicInner) : TopicInner :=
  if negb (is_active sender self) then disconnect now sender connection self
  else deliver msg (send_to_active (λ peer, bool_decide (peer = sender)) (AGossip msg) self).

(** [initiate_shuffle] *)
Definition initiate_shuffle (now : Instant) (self : TopicInner) : option TopicInner :=
  let self := with_last_shuffle now self in
  let '(d, self) := draw self in
  if negb (QArith_base.Qle_bool (QArith_base.Qminus (QArith_base.inject_Z 1) (toss d))
      (shuffle_probability (network_config self)))
  then Some self
  else
    let '(d, self) := draw self in
    let peers_sample := choose_multiple d
      (hash_keys (active_peers self) ++ hash_keys (passive_peers self))
      (shuffle_sample_size (network_config self)) in
    let '(d, self) := draw self in
    match choose d (hash_iter (active_peers self)) with
    | Some (peer, (connection, _)) =>
        peers ← collect_peers
          (λ id, match active_peers self !! id with
                 | Some (_, addrs) => Some addrs
                 | None => passive_peers self !! id
                 end) peers_sample;
        Some (send_message peer connection (AShuffle (mkShuffle 1 (this_node self) peers)) self)
    | None => Some self
    end.

(** *** Event handlers *)

(** [handle_new_local_address] *)
Definition handle_new_local_address (addr : Multiaddr) (self : TopicInner) : TopicInner :=
  with_this_node (mkPeer (peer_id (this_node self)) ({[addr]} ∪ addresses (this_node self))) self.

(** [handle_message_received]; [None] is the panic on a foreign topic, too. *)
Definition handle_message_received (now : Instant) (sender : PeerId) (msg : Message)
    (connection : ConnectionId) (self : TopicInner) : option TopicInner :=
  if bool_decide (msg_topic msg ≠ name (topic_config self)) then None
  else
    match action msg with
    | AJoin join => consume_join now sender join connection self
    | AForwardJoin fj => consume_forward_join now sender fj self
    | ANeighbour n => consume_neighbor now sender n connection self
    | AShuffle s => consume_shuffle now sender s self
    | AShuffleReply sr => consume_shuffle_reply now sender sr connection self
    | AGossip b => Some (consume_gossip now sender b connection self)
    end.

(** [handle_pending_neighbours] *)
Definition handle_pending_neighbours (now : Instant) (peer : AddressablePeer)
    (connection : ConnectionId) (self : TopicInner) : TopicInner :=
  let '(known, n) := es_remove now (pending_neighbours (pending self)) (peer_id peer) in
  let self := with_neighbours n self in
  if known then
    let self := send_message (peer_id peer) connection
      (ANeighbour (mkNeighbour (this_node self) (bool_decide (active_peers self = ∅)))) self in
    add_to_active_view peer connection self
  else self.

(** [handle_pending_shuffle_replies] *)
Definition handle_pending_shuffle_replies (now : Instant) (peer : AddressablePeer)
    (connection : ConnectionId) (self : TopicInner) : TopicInner :=
  let '(reply, r) := em_remove now (pending_shuffle_replies (pending self)) (peer_id peer) in
  let self := with_replies r self in
  match reply with
  | Some reply =>
      let self := send_message (peer_id peer) connection (AShuffleReply reply) self in
      if negb (is_active (peer_id peer) self) then disconnect now (peer_id peer) connection self
      else self
  | None => self
  end.

(** [handle_non_pending_connects] *)
Definition handle_non_pending_connects (now : Instant) (peer : AddressablePeer)
    (connection : ConnectionId) (self : TopicInner) : TopicInner :=
  if negb (active_view_full self) && is_pending_dial now peer self
     && negb (es_contains now (pending_joins (pending self)) (peer_id peer))
     && negb (es_contains now (pending_neighbours (pending self)) (peer_id peer))
     && negb (em_contains_key now (pending_shuffle_replies (pending self)) (peer_id peer))
  then
    let self := send_message (peer_id peer) connection (AJoin (mkJoin (this_node self))) self in
    with_joins (es_insert now (pending_joins (pending self)) (peer_id peer)).2 self
  else self.

(** [handle_peer_connected] *)
Definition handle_peer_connected (now : Instant) (peer : AddressablePeer)
    (connection : ConnectionId) (self : TopicInner) : TopicInner :=
  let self := handle_non_pending_connects now peer connection self in
  let self := handle_pending_neighbours now peer connection self in
  let self := handle_pending_shuffle_replies now peer connection self in
  foldl (λ s addr,
    match ip_address addr with
    | Some ip => with_dials (es_remove now (pending_dials (pending s)) ip).2 s
    | None => s
    end) self (hash_elems (addresses peer)).

(** [handle_peer_disconnected] *)
Definition handle_peer_disconnected (now : Instant) (peer : PeerId) (self : TopicInner) :
    option TopicInner :=
  self ← move_active_to_passive peer self;
  let self := with_replies (em_remove now (pending_shuffle_replies (pending self)) peer).2 self in
  Some (with_disconnects (es_remove now (pending_disconnects (pending self)) peer).2 self).

(** [handle_tick] *)
Definition handle_tick (now : Instant) (self : TopicInner) : option TopicInner :=
  let p := pending self in
  let self := with_pending (mkPending
    (es_prune_expired now (pending_dials p)) (es_prune_expired now (pending_neighbours p))
    (es_prune_expired now (pending_joins p)) (em_prune_expired now (pending_shuffle_replies p))
    (es_prune_expired now (pending_disconnects p))) self in
  self ←
    (if (shuffle_interval (network_config self) <? elapsed now (last_shuffle self))%Z
     then initiate_shuffle now self else Some self);
  if negb (active_view_full self) && es_is_empty (pending_dials (pending self))
     && es_is_empty (pending_neighbours (pending self))
  then try_stabilize_active_view now self
  else Some self.

(** [Topic::inject_event] *)
Definition inject_event (now : Instant) (event : TopicEvent) (self : TopicInner) :
    option TopicInner :=
  match event with
  | LocalAddressDiscovered addr => Some (handle_new_local_address addr self)
  | PeerConnected peer connection => Some (handle_peer_connected now peer connection self)
  | PeerDisconnected peer _ => handle_peer_disconnected now peer self
  | MessageReceived peer msg connection => handle_message_received now peer msg connection self
  | Tick => handle_tick now self
  end.

(** [Topic::gossip] *)
Definition gossip (data : bytes) (self : TopicInner) : Result unit TopicError * TopicInner :=
  if (max_transmit_size (network_config self) <? length data)%nat then (Err MessageTooLarge, self)
  else if bool_decide (active_peers self = ∅) then (Err NoConnectedPeers, self)
  else (Ok tt, send_to_active (λ _, false) (AGossip data) self).

(** [Topic::new]: dials every bootstrap node, also those whose address is no IP. *)
Definition topic_new (now : Instant) (topic_config : TopicConfig) (network_config : Config)
    (this_node : AddressablePeer) : TopicInner :=
  let timeout := pending_timeout network_config in
  let self := mkTopic topic_config network_config now this_node [] [] ∅ ∅
    (mkPending (es_new timeout) (es_new timeout) (es_new timeout) (em_new timeout) (es_new timeout))
    0 in
  foldl (λ s addr,
    let s := command (Connect addr (name topic_config)) s in
    match ip_address addr with
    | Some ip => with_dials (es_insert now (pending_dials (pending s)) ip).2 s
    | None => s
    end) self (hash_elems (bootstrap topic_config)).
End topic.
