(* ===== verification/TopicProps.v ===== *)
(** What the handlers of a topic guarantee, over the definitions of [Topic]. *)
From S2P Require Import Prelude Extern Chain Sandbox Cache Wire Topic.

Lemma size_list_to_map `{Countable K} {V} (l : list (K * V)) :
  size (list_to_map l : gmap K V) ≤ length l.
Proof.
  induction l as [|[k v] l IH]; [by rewrite list_to_map_nil, map_size_empty|].
  rewrite list_to_map_cons, map_size_insert. cbn [length].
  destruct ((list_to_map l : gmap K V) !! k); unfold id; lia.
Qed.

Lemma size_list_to_set_le `{Countable K} (l : list K) : size (list_to_set l : gset K) ≤ length l.
Proof.
  induction l as [|x l IH]; [done|]. rewrite list_to_set_cons, size_union_alt, size_singleton.
  cbn [length]. etrans; [|apply le_n_S, IH].
  assert (size (list_to_set l ∖ {[x]} : gset K) ≤ size (list_to_set l : gset K)) by
    (apply subseteq_size; set_solver). lia.
Qed.

Section topic.
Context `{!MultihashCrate, !Libp2p, !Rand, !RandLaws, !HashOrder PeerId, !HashOrder Multiaddr}.
Context (prof : Profile) (now : Instant).
Implicit Types (s self : TopicInner).

(** ** What an operation leaves alone *)

(** Everything but the commands, the pending operations and the draws. *)
Definition views s :=
  (topic_config s, network_config s, this_node s, outmsgs s, active_peers s, passive_peers s).

Lemma views_eq s s' : views s = views s' →
  topic_config s = topic_config s' ∧ network_config s = network_config s' ∧
  this_node s = this_node s' ∧ outmsgs s = outmsgs s' ∧ active_peers s = active_peers s' ∧
  passive_peers s = passive_peers s'.
Proof. unfold views. intros [= ? ? ? ? ? ?]. done. Qed.

Lemma foldl_views {A} (f : TopicInner → A → TopicInner) l s :
  (∀ s x, views (f s x) = views s) → views (foldl f s l) = views s.
Proof. intros Hf. revert s. induction l as [|x l IH]; intros s; simpl; [done|]. by rewrite IH, Hf. Qed.

Lemma foldM_views {A} (f : TopicInner → A → option TopicInner) l s s' :
  (∀ s x s', f s x = Some s' → views s' = views s) → foldM f s l = Some s' → views s' = views s.
Proof.
  intros Hf. revert s. induction l as [|x l IH]; intros s; simpl; [by intros [= <-]|].
  intros (s1 & Hs1 & Hs')%bind_Some. by rewrite (IH s1 Hs'), (Hf s x s1 Hs1).
Qed.

Lemma views_send_to_active skip a s : views (send_to_active skip a s) = views s.
Proof. apply foldl_views. intros s1 [p [c ?]]. by destruct (skip p). Qed.

Lemma views_disconnect p c s : views (disconnect now p c s) = views s.
Proof. unfold disconnect. by destruct (es_insert _ _ _) as [[] ?]. Qed.

Lemma views_dial_all addrs s : views (dial_all now addrs s) = views s.
Proof.
  apply foldl_views. intros s1 x. unfold dial_addr. destruct (ip_address x); [|done].
  by destruct (es_insert _ _ _) as [[] ?].
Qed.

Lemma views_try_neighbouring p s : views (try_neighbouring_with now p s).2 = views s.
Proof.
  unfold try_neighbouring_with. destruct (_ || _); [done|].
  destruct (es_insert _ _ _) as [[] ?]; [done|]. simpl. by rewrite views_dial_all.
Qed.

Lemma views_forward sender hop a s s' : forward prof sender hop a s = Some s' → views s' = views s.
Proof.
  apply foldM_views. intros s1 [p [c ?]] s2. case_bool_decide; [|by intros [= <-]].
  by intros (n & _ & [= <-])%bind_Some.
Qed.

Lemma random_active_Some s :
  active_peers s ≠ ∅ →
  ∃ p c a s', random_active s = Some (p, (c, a), s') ∧ views s' = views s ∧
    active_peers s !! p = Some (c, a).
Proof.
  intros Hne. unfold random_active, draw. cbv beta iota zeta.
  destruct (choose_Some (draws s) (hash_iter (active_peers s))) as ([p [c a]] & Hc & Hin).
  { by apply hash_iter_nil. }
  exists p, c, a. eexists. cbn [active_peers]. rewrite Hc. split; [done|]. split; [done|].
  by apply elem_of_hash_iter.
Qed.

(** ** The invariant *)

(** The node is not its own neighbour, and the passive view is bounded. *)
Definition topic_ok s : Prop :=
  peer_id (this_node s) ∉ dom (active_peers s) ∧
  size (passive_peers s) ≤ max_passive_view_size (network_config s).

(** What no event changes, and what it keeps. *)
Definition keeps s s' : Prop :=
  topic_config s' = topic_config s ∧ network_config s' = network_config s ∧
  peer_id (this_node s') = peer_id (this_node s) ∧ (topic_ok s → topic_ok s').

Lemma keeps_refl s : keeps s s.
Proof. by repeat (split; [done|]). Qed.

Lemma keeps_trans s1 s2 s3 : keeps s1 s2 → keeps s2 s3 → keeps s1 s3.
Proof.
  intros (? & ? & ? & Hok) (? & ? & ? & Hok'). repeat (split; [congruence|]). auto.
Qed.

Lemma keeps_views s s' : views s' = views s → keeps s s'.
Proof.
  intros (Hc & Hn & Ht & _ & Ha & Hp)%views_eq. repeat (split; [congruence|]).
  unfold topic_ok. by rewrite Ha, Hp, Ht, Hn.
Qed.

Lemma add_to_passive_keeps p s :
  ∃ s', add_to_passive_view p s = Some s' ∧ keeps s s' ∧ active_peers s' = active_peers s.
Proof.
  unfold add_to_passive_view.
  destruct (passive_peers s !! peer_id p) as [a|] eqn:Hp.
  { eexists. split; [done|]. split; [|done]. repeat (split; [done|]). intros [Ha Hs].
    split; [done|]. simpl. by rewrite map_size_insert, Hp. }
  destruct (Nat.ltb_spec (max_passive_view_size (network_config s))
    (size (<[peer_id p := addresses p]> (passive_peers s)))) as [Hlt|Hge]; simpl.
  2: { rewrite (proj2 (Nat.ltb_ge _ _)) by done. eexists. split; [done|]. split; [|done].
       repeat (split; [done|]). by intros [Ha Hs]. }
  rewrite (proj2 (Nat.ltb_lt _ _)) by done.
  destruct (choose_Some (draws s) (hash_keys (<[peer_id p := addresses p]> (passive_peers s))))
    as (r & -> & Hr).
  { unfold hash_keys. intros Hnil%fmap_nil_inv. revert Hnil. apply hash_iter_nil, insert_non_empty. }
  eexists. split; [done|]. split; [|done]. repeat (split; [done|]). intros [Ha Hs]. split; [done|].
  simpl. apply elem_of_hash_keys, elem_of_dom in Hr as [v Hr].
  rewrite map_size_delete, Hr, map_size_insert, Hp. simpl. lia.
Qed.

Lemma add_to_active_keeps p c s : keeps s (add_to_active_view p c s).
Proof.
  unfold add_to_active_view. destruct (is_active _ _); [apply keeps_refl|].
  case_bool_decide as Hself; [apply keeps_refl|]. repeat (split; [done|]). intros [Ha Hs]. split; simpl.
  - rewrite dom_insert. set_solver.
  - rewrite map_size_delete. destruct (passive_peers s !! peer_id p); simpl; lia.
Qed.

Lemma ban_keeps p s : keeps s (ban p s).
Proof.
  repeat (split; [done|]). intros [Ha Hs]. split; simpl.
  - rewrite dom_delete. set_solver.
  - rewrite map_size_delete. destruct (passive_peers s !! p); simpl; lia.
Qed.

Lemma collect_peers_total f (ids : list PeerId) :
  (∀ id, id ∈ ids → is_Some (f id)) →
  ∃ m, collect_peers f ids = Some m ∧ size m ≤ length ids ∧
    (∀ id a, m !! id = Some a → id ∈ ids ∧ f id = Some a) ∧ (∀ id, id ∈ ids → is_Some (m !! id)).
Proof.
  intros Hf. destruct (mapM_is_Some_2 (λ id, a ← f id; Some (id, a)) ids) as [l Hl].
  { apply Forall_forall. intros id Hid. destruct (Hf id Hid) as [a Ha]. exists (id, a). simpl. by rewrite Ha. }
  unfold collect_peers. rewrite Hl. simpl. eexists. split; [done|].
  pose proof (length_mapM _ _ _ Hl) as Hlen. apply mapM_Some in Hl.
  split; [rewrite Hlen; apply size_list_to_map|].
  assert (l.*1 = ids) as Hids.
  { clear Hf Hlen. induction Hl as [|id e ids l (a & Ha & [= <-])%bind_Some _ IH]; [done|].
    rewrite fmap_cons. by f_equal. }
  split.
  - intros id a Hm. apply elem_of_list_to_map_2 in Hm.
    split; [rewrite <-Hids; apply list_elem_of_fmap; by exists (id, a)|].
    apply list_elem_of_lookup in Hm as [i Hi].
    destruct (Forall2_lookup_r _ _ _ _ _ Hl Hi) as (id' & _ & (a' & Ha' & [= -> ->])%bind_Some).
    done.
  - intros id Hid. rewrite <-Hids in Hid. apply list_elem_of_fmap in Hid as ([id' a] & -> & Hin).
    destruct ((list_to_map l : PeerSet) !! id') eqn:Hno; [by eexists|].
    apply not_elem_of_list_to_map in Hno. destruct Hno. apply list_elem_of_fmap. by exists (id', a).
Qed.

(** ** The handlers, one by one *)

(** The view is not meant to be empty, and the hop counter can count the longest
    walk: so for every network of two nodes or more that has no more than
    [10^65535] of them. *)
Definition config_ok (c : Config) : Prop :=
  1 ≤ optimal_active_view_size c ∧ (Z.of_nat (random_walk_length c) ≤ 65535)%Z.

(** An operation that cannot fail, keeps the invariant, and makes the active view
    [a]. *)
Definition runs s (o : option TopicInner) (a : gmap PeerId (ConnectionId * gset Multiaddr)) : Prop :=
  ∃ s', o = Some s' ∧ keeps s s' ∧ active_peers s' = a.

Lemma runs_views s s' a : views s' = views s → active_peers s = a → runs s (Some s') a.
Proof.
  intros Hv Ha. exists s'. split; [done|]. split; [by apply keeps_views|].
  apply views_eq in Hv as (_ & _ & _ & _ & Hv & _). congruence.
Qed.

Lemma runs_add_passive s s1 p a :
  keeps s s1 → active_peers s1 = a → runs s (add_to_passive_view p s1) a.
Proof.
  intros Hk Ha. destruct (add_to_passive_keeps p s1) as (s2 & -> & Hk2 & Ha2).
  exists s2. split; [done|]. split; [by eapply keeps_trans|congruence].
Qed.

(** What follows a first operation. *)
Lemma runs_bind s o (f : TopicInner → option TopicInner) a b :
  runs s o a → (∀ s1, keeps s s1 → active_peers s1 = a → runs s1 (f s1) b) → runs s (o ≫= f) b.
Proof.
  intros (s1 & -> & Hk & Ha) Hf. destruct (Hf s1 Hk Ha) as (s2 & Hs2 & Hk2 & Hb). simpl.
  exists s2. split; [done|]. split; [by eapply keeps_trans|done].
Qed.

Lemma views_active s s' : views s' = views s → active_peers s' = active_peers s.
Proof. by intros (_ & _ & _ & _ & ? & _)%views_eq. Qed.

Lemma forward_runs sender hop a s :
  (hop < 65535)%Z → runs s (forward prof sender hop a s) (active_peers s).
Proof.
  intros Hh. assert (∃ s', forward prof sender hop a s = Some s') as [s' Hs'].
  { assert (u16_succ prof hop = Some (hop + 1)%Z) as Hu.
    { unfold u16_succ. by rewrite (proj2 (Z.ltb_lt _ _)). }
    unfold forward. rewrite Hu. generalize s at 1 as s0. induction (hash_iter (active_peers s)) as
      [|[p [c x]] l IH]; intros s0; cbn [foldM]; [by eexists|].
    case_bool_decide; apply IH. }
  rewrite Hs'. apply runs_views; [by eapply views_forward|done].
Qed.

Lemma consume_join_runs sender msg c s :
  runs s (consume_join now sender msg c s)
    (if decide (sender = peer_id (join_node msg)) then active_peers s
     else delete sender (active_peers s)).
Proof.
  unfold consume_join. case_bool_decide as Hs.
  { rewrite decide_False by done. eexists. split; [done|]. split; [apply ban_keeps|done]. }
  rewrite decide_True by done. destruct (is_active sender s); [by apply runs_views|].
  set (s1 := disconnect _ _ _ _).
  assert (views s1 = views s) as Hv1 by (unfold s1; by rewrite views_disconnect, views_send_to_active).
  set (s2 := if negb (active_view_full s1) then _ else _).
  assert (views s2 = views s) as Hv2.
  { unfold s2. destruct (negb _); [by rewrite views_try_neighbouring|done]. }
  apply runs_add_passive; [by apply keeps_views|by apply views_active].
Qed.

Lemma full_nonempty s :
  config_ok (network_config s) → active_view_full s = true → active_peers s ≠ ∅.
Proof.
  intros [Ho _] Hf Hnil. unfold active_view_full in Hf. rewrite Hnil, map_size_empty in Hf.
  apply Nat.leb_le in Hf. lia.
Qed.

Lemma consume_forward_join_runs sender msg s :
  config_ok (network_config s) →
  runs s (consume_forward_join prof now sender msg s) (active_peers s).
Proof.
  intros Hcfg. unfold consume_forward_join.
  destruct (is_active sender s); [|by apply runs_views]. cbn [negb].
  case_bool_decide; [by apply runs_views|]. case_bool_decide; [by apply runs_views|].
  eapply runs_bind; [by apply runs_add_passive; [apply keeps_refl|]|]. intros s1 Hk1 Ha1.
  assert (config_ok (network_config s1)) as Hcfg1 by by destruct Hk1 as (_ & -> & _).
  rewrite <-Ha1. clear Hk1 Ha1.
  destruct (Z.leb_spec (Z.of_nat (random_walk_length (network_config s1))) (fj_hop msg)) as [_|Hhop].
  - destruct (negb _); [|by apply runs_views].
    eapply runs_bind with (a := active_peers s1).
    + destruct (active_view_full s1) eqn:Hfull; [|by apply runs_views].
      destruct (random_active_Some s1) as (p & cn & a & s2 & -> & Hv2 & Hp); [by apply full_nonempty|].
      cbn [mbind option_bind].
      assert (views (disconnect now p cn s2) = views s1) as Hv3 by by rewrite views_disconnect.
      pose proof (views_active _ _ Hv3) as Ha3. rewrite Ha3, Hp. cbn [mbind option_bind].
      apply runs_add_passive; [by apply keeps_views|done].
    + intros s2 _ Ha2. rewrite <-Ha2. apply runs_views; [apply views_try_neighbouring|done].
  - set (s2 := if negb (active_view_full s1) then _ else _).
    assert (views s2 = views s1) as Hv2.
    { unfold s2. destruct (negb _); [by rewrite views_try_neighbouring|done]. }
    destruct (forward_runs sender (fj_hop msg) (λ hop, AForwardJoin (mkForwardJoin hop (fj_node msg))) s2)
      as (s3 & Hs3 & Hk & Ha).
    { destruct Hcfg1. lia. }
    exists s3. split; [done|]. split; [eapply keeps_trans; [by apply keeps_views|done]|].
    rewrite Ha. by apply views_active.
Qed.

(** The view after a NEIGHBOUR message. *)
Definition enter_view (p : AddressablePeer) (c : ConnectionId) s :
    gmap PeerId (ConnectionId * gset Multiaddr) :=
  if is_active (peer_id p) s || bool_decide (peer_id p = peer_id (this_node s)) then active_peers s
  else <[peer_id p := (c, addresses p)]> (active_peers s).

Lemma add_to_active_runs p c s s1 :
  views s1 = views s → runs s (Some (add_to_active_view p c s1)) (enter_view p c s).
Proof.
  intros Hv. eexists. split; [done|]. split.
  - eapply keeps_trans; [by apply keeps_views|apply add_to_active_keeps].
  - apply views_eq in Hv as (_ & _ & Ht & _ & Ha & _).
    unfold add_to_active_view, enter_view, is_active. rewrite Ha, Ht.
    case_bool_decide; simpl; [done|]. by case_bool_decide.
Qed.

Lemma consume_neighbor_runs sender msg c s :
  config_ok (network_config s) →
  runs s (consume_neighbor now sender msg c s)
    (if bool_decide (sender = peer_id (nb_peer msg)) && negb (active_view_full s)
     then enter_view (nb_peer msg) c s else active_peers s).
Proof.
  intros Hcfg. unfold consume_neighbor. destruct (is_active sender s) eqn:Hact.
  { apply runs_views; [done|]. case_bool_decide as Heq; [|done].
    unfold enter_view. rewrite <-Heq, Hact. by destruct (active_view_full s). }
  destruct (decide (sender = peer_id (nb_peer msg))) as [Heq|Hne].
  2: { rewrite bool_decide_true, (bool_decide_false (sender = _)) by done. eexists.
       split; [done|]. split; [apply ban_keeps|]. apply delete_id.
       unfold is_active in Hact. apply bool_decide_eq_false in Hact.
       by apply eq_None_not_Some. }
  rewrite bool_decide_false, (bool_decide_true (sender = _)) by naive_solver. cbn [andb].
  assert (∃ s1, (if active_view_full s && high_priority msg then
      '(random_id, (rand_conn, _), self) ← random_active s;
      Some (disconnect now random_id rand_conn self)
    else Some s) = Some s1 ∧ views s1 = views s) as (s1 & -> & Hv1).
  { destruct (active_view_full s) eqn:Hfull; cbn [andb]; [|by eexists].
    destruct (high_priority msg); [|by eexists].
    destruct (random_active_Some s) as (p & cn & a & s2 & -> & Hv2 & Hp); [by apply full_nonempty|].
    eexists. split; [done|]. by rewrite views_disconnect. }
  cbn [mbind option_bind].
  assert (active_view_full s1 = active_view_full s) as ->.
  { unfold active_view_full. apply views_eq in Hv1 as (_ & Hn & _ & _ & Ha & _). congruence. }
  destruct (active_view_full s); cbn [negb].
  - apply runs_views; [by rewrite views_disconnect|done].
  - by apply add_to_active_runs.
Qed.

Lemma dom_union_peers s id :
  id ∈ dom (active_peers s) ∪ dom (passive_peers s) → is_Some (collect_peer_addrs ∅ s id).
Proof.
  rewrite elem_of_union, !elem_of_dom. unfold collect_peer_addrs.
  intros [[[c a] ->]|[a ->]]; [destruct (passive_peers s !! id)|]; by eexists.
Qed.

Lemma collect_peer_addrs_known m s id :
  id ∈ dom (active_peers s) ∪ dom (passive_peers s) ∪ dom m → is_Some (collect_peer_addrs m s id).
Proof.
  rewrite !elem_of_union, !elem_of_dom. unfold collect_peer_addrs.
  destruct (passive_peers s !! id) as [a|]; [by eexists|].
  destruct (active_peers s !! id) as [[c a]|]; [by eexists|].
  intros [[[? [=]]|[? [=]]]|?]. done.
Qed.

(** A new passive view of bounded size. *)
Lemma keeps_passive s s1 p :
  views s1 = views s → size p ≤ max_passive_view_size (network_config s) →
  keeps s (with_passive p s1).
Proof.
  intros (Hc & Hn & Ht & _ & Ha & _)%views_eq Hp. split; [done|]. split; [done|].
  split; [simpl; congruence|]. intros [Hself _]. split; simpl; congruence.
Qed.

(** The two random samples of a shuffle, and what is computed from them. *)
Lemma consume_shuffle_eq sender msg s :
  is_active sender s = true →
  ∃ recv : gset PeerId, ∃ reply passive s1,
    (∀ id, id ∈ recv → id ∈ dom (sh_peers msg)) ∧
    size recv ≤ shuffle_sample_size (network_config s) ∧
    (∀ id, id ∈ dom reply ↔ id ∈ (dom (active_peers s) ∪ dom (passive_peers s)) ∖ recv) ∧
    (∀ id a, reply !! id = Some a → collect_peer_addrs (sh_peers msg) s id = Some a) ∧
    size passive ≤ max_passive_view_size (network_config s) ∧
    (∀ id a, passive !! id = Some a → collect_peer_addrs (sh_peers msg) s id = Some a ∧
      id ∈ dom (active_peers s) ∪ dom (passive_peers s) ∪ recv) ∧
    views s1 = views s ∧
    consume_shuffle prof now sender msg s =
      let self := with_passive passive s1 in
      let self :=
        match active_peers s !! peer_id (sh_origin msg) with
        | Some (connection, _) =>
            send_message (peer_id (sh_origin msg)) connection (AShuffleReply (mkShuffleReply reply)) self
        | None =>
            dial_all now (addresses (sh_origin msg)) (with_replies
              (em_insert now (pending_shuffle_replies (pending self))
                (peer_id (sh_origin msg)) (mkShuffleReply reply)).2 self)
        end in
      if (sh_hop msg <? Z.of_nat (random_walk_length (network_config s)))%Z
      then forward prof sender (sh_hop msg)
        (λ hop, AShuffle (mkShuffle hop (sh_origin msg) (sh_peers msg))) self
      else Some self.
Proof.
  intros Hact. unfold consume_shuffle. rewrite Hact. cbn [negb]. unfold draw.
  cbn -[choose_multiple shuffle_sample_size em_insert].
  set (recv := list_to_set (choose_multiple (draws s) _ _) : gset PeerId).
  set (local := dom (active_peers s) ∪ dom (passive_peers s)).
  assert (∀ id, id ∈ recv → id ∈ dom (sh_peers msg)) as Hrecv.
  { intros id Hid. apply elem_of_list_to_set, elem_of_choose_multiple in Hid.
    by apply elem_of_hash_keys. }
  set (s0 := mkTopic _ _ _ _ _ _ _ _ _ (S (draws s))).
  change (collect_peer_addrs (sh_peers msg) s0) with (collect_peer_addrs (sh_peers msg) s).
  destruct (collect_peers_total (collect_peer_addrs (sh_peers msg) s) (hash_elems (local ∖ recv)))
    as (reply & -> & _ & Hreply & Hreply').
  { intros id Hid%elem_of_hash_elems. apply collect_peer_addrs_known. set_solver. }
  cbn [mbind option_bind].
  destruct (collect_peers_total (collect_peer_addrs (sh_peers msg) s)
    (choose_multiple (S (draws s)) (hash_elems local ++ hash_elems (recv ∖ local))
       (max_passive_view_size (network_config s)))) as (passive & -> & Hsize & Hpassive & _).
  { intros id Hid%elem_of_choose_multiple. apply collect_peer_addrs_known.
    apply elem_of_app in Hid as [?%elem_of_hash_elems|?%elem_of_hash_elems]; set_solver. }
  rewrite length_choose_multiple in Hsize. cbn [mbind option_bind].
  set (s1 := mkTopic _ _ _ _ _ _ _ _ _ (S (S (draws s)))).
  exists recv, reply, passive, s1. split; [done|]. split.
  { etrans; [apply size_list_to_set_le|]. rewrite length_choose_multiple. lia. }
  split.
  { intros id. rewrite elem_of_dom, <-elem_of_hash_elems. split; [|apply Hreply'].
    intros [a Ha]. by apply (Hreply id a). }
  split; [intros id a Ha; by apply Hreply|]. split; [lia|]. split.
  { intros id a Ha. destruct (Hpassive id a Ha) as [Hid Hc]. split; [done|].
    apply elem_of_choose_multiple, elem_of_app in Hid as [?%elem_of_hash_elems|?%elem_of_hash_elems];
      set_solver. }
  split; [done|]. cbv zeta. cbn -[em_insert with_passive dial_all with_replies send_message].
  destruct (em_insert _ _ _ _) as [old r]. cbn [snd].
  set (self := match active_peers s !! _ with Some _ => _ | None => _ end).
  assert (network_config self = network_config s) as ->; [|done].
  unfold self. destruct (active_peers s !! _) as [[c a]|]; [done|].
  by pose proof (views_eq _ _ (views_dial_all (addresses (sh_origin msg))
    (with_replies r (with_passive passive s1)))) as (_ & -> & _).
Qed.

Lemma consume_shuffle_runs sender msg s :
  config_ok (network_config s) →
  runs s (consume_shuffle prof now sender msg s) (active_peers s).
Proof.
  intros Hcfg. destruct (is_active sender s) eqn:Hact.
  2: { unfold consume_shuffle. rewrite Hact. by apply runs_views. }
  destruct (consume_shuffle_eq sender msg s Hact) as
    (recv & reply & passive & s1 & _ & _ & _ & _ & Hsize & _ & Hv & ->). cbv zeta.
  set (s2 := match active_peers s !! _ with Some _ => _ | None => _ end).
  assert (views s2 = views (with_passive passive s1)) as Hv2.
  { unfold s2. destruct (active_peers s !! _) as [[c a]|]; [done|]. by rewrite views_dial_all. }
  assert (keeps s s2) as Hk.
  { eapply keeps_trans; [by apply keeps_passive|by apply keeps_views]. }
  assert (active_peers s2 = active_peers s) as Ha.
  { rewrite (views_active _ _ Hv2). by apply views_active in Hv. }
  destruct (Z.ltb_spec (sh_hop msg) (Z.of_nat (random_walk_length (network_config s)))) as [Hh|_].
  - destruct (forward_runs sender (sh_hop msg)
      (λ hop, AShuffle (mkShuffle hop (sh_origin msg) (sh_peers msg))) s2) as (s3 & -> & Hk3 & Ha3).
    { destruct Hcfg. lia. }
    exists s3. split; [done|]. split; [by eapply keeps_trans|congruence].
  - by exists s2.
Qed.

Lemma consume_shuffle_reply_eq sender msg c s :
  ∃ s', consume_shuffle_reply now sender msg c s = Some s' ∧ keeps s s' ∧
    active_peers s' = active_peers s ∧ passive_peers s' ⊆ passive_peers s.
Proof.
  unfold consume_shuffle_reply, draw. cbn -[choose_multiple disconnect with_passive].
  set (f := λ id, match passive_peers s !! id with Some a => Some a | None => sr_peers msg !! id end).
  assert (∀ id, id ∈ hash_keys (passive_peers s) ++
    hash_elems (dom (passive_peers s) ∖ dom (sr_peers msg)) → is_Some (passive_peers s !! id)) as Hin.
  { intros id [Hid|Hid]%elem_of_app.
    - by apply elem_of_hash_keys, elem_of_dom in Hid.
    - apply elem_of_hash_elems, elem_of_difference in Hid as [Hid _]. by apply elem_of_dom. }
  destruct (collect_peers_total f (choose_multiple (draws s) (hash_keys (passive_peers s) ++
    hash_elems (dom (passive_peers s) ∖ dom (sr_peers msg))) (max_passive_view_size (network_config s))))
    as (passive & -> & Hsize & Hp & _).
  { intros id Hid%elem_of_choose_multiple. unfold f. by destruct (Hin id Hid) as [a ->]. }
  rewrite length_choose_multiple in Hsize. cbn [mbind option_bind].
  assert (passive ⊆ passive_peers s) as Hsub.
  { apply map_subseteq_spec. intros id a Ha. destruct (Hp id a Ha) as [Hid Hf].
    apply elem_of_choose_multiple in Hid. unfold f in Hf. by destruct (Hin id Hid) as [b Hb]; rewrite Hb in *. }
  eexists. split; [done|].
  match goal with |- context [with_passive passive ?s0] => set (s1 := with_passive passive s0) end.
  assert (keeps s s1) as Hk by (apply keeps_passive; [done|lia]).
  destruct (negb (is_active sender s1)); [|done].
  pose proof (views_disconnect sender c s1) as Hv.
  split; [eapply keeps_trans; [done|by apply keeps_views]|].
  apply views_eq in Hv as (_ & _ & _ & _ & -> & ->). done.
Qed.

Lemma initiate_shuffle_runs s : runs s (initiate_shuffle now s) (active_peers s).
Proof.
  unfold initiate_shuffle, draw. cbn -[choose_multiple choose QArith_base.Qle_bool].
  destruct (negb _); [by apply runs_views|].
  destruct (choose _ (hash_iter (active_peers s))) as [[p [c a]]|]; [|by apply runs_views].
  match goal with |- context [collect_peers ?f ?l] =>
    destruct (collect_peers_total f l) as (m & -> & _) end; [|by apply runs_views].
  intros id [Hid|Hid]%elem_of_choose_multiple%elem_of_app; apply elem_of_hash_keys, elem_of_dom in Hid.
  - destruct Hid as [[cc aa] ->]. by eexists.
  - destruct (active_peers s !! id) as [[cc aa]|]; [by eexists|done].
Qed.

Lemma try_stabilize_runs s :
  active_view_full s = false → runs s (try_stabilize_active_view now s) (active_peers s).
Proof.
  intros Hfull. unfold try_stabilize_active_view.
  assert (active_view_overconnected s = false) as ->.
  { unfold active_view_full, active_view_overconnected in *. apply Nat.leb_gt in Hfull.
    apply Nat.ltb_ge. lia. }
  destruct (_ && _); [|by apply runs_views].
  unfold draw. cbv beta iota zeta. set (s1 := mkTopic _ _ _ _ _ _ _ _ _ _).
  assert (views s1 = views s) as Hv1 by done.
  destruct (choose _ _) as [[p a]|]; [apply runs_views; [by rewrite views_try_neighbouring|done]|].
  destruct (_ && _); apply runs_views; try done. by rewrite views_dial_all.
Qed.

Lemma handle_tick_runs s : runs s (handle_tick now s) (active_peers s).
Proof.
  unfold handle_tick. set (s0 := with_pending _ s).
  assert (views s0 = views s) as Hv0 by done.
  eapply runs_bind with (a := active_peers s).
  - destruct (_ <? _)%Z; [|by apply runs_views].
    destruct (initiate_shuffle_runs s0) as (s1 & -> & Hk & Ha). exists s1. split; [done|].
    split; [eapply keeps_trans; [by apply keeps_views|done]|done].
  - intros s1 _ Ha. rewrite <-Ha. destruct (active_view_full s1) eqn:Hfull; [by apply runs_views|].
    cbn [negb andb]. destruct (_ && _); [|by apply runs_views]. by apply try_stabilize_runs.
Qed.

(** The view after a connection was established. *)
Lemma handle_peer_connected_runs p c s :
  runs s (Some (handle_peer_connected now p c s))
    (if es_contains now (pending_neighbours (pending s)) (peer_id p) then enter_view p c s
     else active_peers s).
Proof.
  unfold handle_peer_connected.
  set (s1 := handle_non_pending_connects now p c s).
  assert (views s1 = views s ∧ pending_neighbours (pending s1) = pending_neighbours (pending s))
    as [Hv1 Hn1].
  { unfold s1, handle_non_pending_connects. by destruct (_ && _). }
  assert (runs s (Some (handle_pending_neighbours now p c s1))
    (if es_contains now (pending_neighbours (pending s)) (peer_id p) then enter_view p c s
     else active_peers s)) as (s2 & Hs2 & Hk2 & Ha2).
  { unfold handle_pending_neighbours, es_remove, es_contains, em_remove, em_get. rewrite Hn1.
    cbv zeta beta iota. case_bool_decide; [|by apply runs_views].
    by apply add_to_active_runs. }
  injection Hs2 as ->. set (s3 := handle_pending_shuffle_replies now p c s2).
  assert (views s3 = views s2) as Hv3.
  { unfold s3, handle_pending_shuffle_replies. destruct (em_remove _ _ _) as [[r|] m]; [|done].
    destruct (negb _); [|done]. by rewrite views_disconnect. }
  match goal with |- runs _ (Some ?s) _ => assert (views s = views s2) as Hv end.
  { rewrite <-Hv3. apply foldl_views. intros s4 x. by destruct (ip_address x). }
  eexists. split; [done|]. split; [eapply keeps_trans; [done|by apply keeps_views]|].
  rewrite <-Ha2. by apply views_active.
Qed.

Lemma handle_peer_disconnected_runs p s :
  runs s (handle_peer_disconnected now p s) (delete p (active_peers s)).
Proof.
  unfold handle_peer_disconnected.
  eapply runs_bind with (a := delete p (active_peers s)).
  - unfold move_active_to_passive. destruct (active_peers s !! p) as [[c a]|] eqn:Hp.
    + apply runs_add_passive; [|done]. split; [done|]. split; [done|]. split; [done|].
      intros [Hself Hs]. split; [simpl; rewrite dom_delete; set_solver|done].
    + apply runs_views; [done|]. by rewrite delete_id.
  - intros s1 _ <-. by apply runs_views.
Qed.

Lemma dial_all_replies addrs s :
  pending_shuffle_replies (pending (dial_all now addrs s)) = pending_shuffle_replies (pending s).
Proof.
  unfold dial_all. generalize (hash_elems addrs) as l. intros l. revert s.
  induction l as [|x l IH]; intros s; simpl; [done|]. rewrite IH. unfold dial_addr.
  destruct (ip_address x); [|done]. by destruct (es_insert _ _ _) as [[] ?].
Qed.

Lemma forward_only_sends sender hop a s s' :
  forward prof sender hop a s = Some s' → cmds s `prefix_of` cmds s' ∧ pending s' = pending s.
Proof.
  unfold forward. generalize (hash_iter (active_peers s)) as l. intros l. revert s.
  induction l as [|[p [c x]] l IH]; intros s; cbn [foldM]; [by intros [= <-]|].
  case_bool_decide; [|apply IH].
  destruct (u16_succ prof hop) as [next|]; cbn [mbind option_bind]; [|done].
  intros [Hpre ->]%IH. split; [|done]. etrans; [|done]. by eexists.
Qed.
End topic.

(** ** Theorems *)

Section properties.
Context `{!MultihashCrate, !Libp2p, !Rand, !RandLaws, !HashOrder PeerId, !HashOrder Multiaddr}.
Context (prof : Profile).
Implicit Types (s self : TopicInner) (e : TopicEvent).

(** The message is for this topic, as the network layer makes sure. *)
Definition own_topic (tc : TopicConfig) e : Prop :=
  match e with MessageReceived _ msg _ => msg_topic msg = name tc | _ => True end.

(** The active view after an event. *)
Definition active_after (now : Instant) e s : gmap PeerId (ConnectionId * gset Multiaddr) :=
  match e with
  | MessageReceived sender msg c =>
      match action msg with
      | AJoin j => if decide (sender = peer_id (join_node j)) then active_peers s
                   else delete sender (active_peers s)
      | ANeighbour n => if bool_decide (sender = peer_id (nb_peer n)) && negb (active_view_full s)
                        then enter_view (nb_peer n) c s else active_peers s
      | _ => active_peers s
      end
  | PeerConnected p c =>
      if es_contains now (pending_neighbours (pending s)) (peer_id p) then enter_view p c s
      else active_peers s
  | PeerDisconnected p _ => delete p (active_peers s)
  | _ => active_peers s
  end.

Lemma inject_event_runs now e s :
  config_ok (network_config s) → own_topic (topic_config s) e →
  runs s (inject_event prof now e s) (active_after now e s).
Proof.
  intros Hcfg Hown. destruct e as [sender msg c|addr|p c|p c|]; simpl.
  - unfold handle_message_received. simpl in Hown. rewrite bool_decide_false by naive_solver.
    destruct (action msg) as [j|fj|n|sh|sr|b].
    + apply consume_join_runs.
    + by apply consume_forward_join_runs.
    + by apply consume_neighbor_runs.
    + by apply consume_shuffle_runs.
    + destruct (consume_shuffle_reply_eq now sender sr c s) as (s' & -> & Hk & Ha & _).
      by exists s'.
    + unfold consume_gossip. destruct (is_active sender s); cbn [negb].
      * eexists. split; [done|].
        pose proof (views_send_to_active (λ peer, bool_decide (peer = sender)) (AGossip b) s) as Hv.
        apply views_eq in Hv as (Hc & Hn & Ht & _ & Ha & Hp). split; [|done].
        split; [done|]. split; [done|]. split; [by simpl; rewrite Ht|].
        intros [Hself Hsz]. split; simpl; rewrite ?Ha, ?Hp, ?Ht, ?Hn; done.
      * apply runs_views; [by rewrite views_disconnect|done].
  - eexists. split; [done|]. by split.
  - apply handle_peer_connected_runs.
  - apply handle_peer_disconnected_runs.
  - apply handle_tick_runs.
Qed.

(** C15: a topic survives every sequence of events.  If the active view is not meant
    to be empty, no handler panics on whatever peers send - each of the [expect]s
    and [unwrap]s is justified, with any outcome of the random choices and any
    order of the hash maps -, the node never becomes its own neighbour, and the
    passive view stays within its bound. *)
Theorem topic_survives now0 tc nc node (events : list (Instant * TopicEvent)) :
  config_ok nc → (∀ now e, (now, e) ∈ events → own_topic tc e) →
  ∃ s, foldM (λ s '(now, e), inject_event prof now e s) (topic_new now0 tc nc node) events = Some s ∧
    peer_id (this_node s) = peer_id node ∧ peer_id node ∉ dom (active_peers s) ∧
    size (passive_peers s) ≤ max_passive_view_size nc.
Proof.
  intros Hcfg Hown.
  assert (∀ s, topic_config s = tc → network_config s = nc → ∃ s',
    foldM (λ s '(now, e), inject_event prof now e s) s events = Some s' ∧ keeps s s') as Hrun.
  { induction events as [|[now e] events IH]; intros s Htc Hnc; cbn [foldM].
    { exists s. split; [done|apply keeps_refl]. }
    destruct (inject_event_runs now e s) as (s1 & -> & Hk & _).
    { by rewrite Hnc. } { rewrite Htc. apply (Hown now). by left. }
    destruct (IH ltac:(intros now1 e1 Hin; apply (Hown now1); by right) s1) as (s2 & Hs2 & Hk2).
    { by destruct Hk as (-> & _). } { by destruct Hk as (_ & -> & _). }
    exists s2. split; [done|by eapply keeps_trans]. }
  set (s0 := topic_new now0 tc nc node).
  assert (views s0 = (tc, nc, node, [], ∅, ∅)) as Hv.
  { unfold s0, topic_new. cbv zeta. rewrite foldl_views; [done|].
    intros s1 x. by destruct (ip_address x). }
  unfold views in Hv. injection Hv as Htc Hnc Hnode _ Ha Hp.
  destruct (Hrun s0 Htc Hnc) as (s & Hs & _ & Hn & Ht & Hok). exists s. split; [done|].
  rewrite Ht, Hnode. split; [done|]. destruct Hok as [Hself Hsz].
  - split; [rewrite Ha; set_solver|rewrite Hp, map_size_empty; lia].
  - rewrite Ht, Hnode, Hn, Hnc in *. done.
Qed.

(** C27: the ways into and out of the active view.  A peer enters it only by its own
    NEIGHBOUR message, in its own name and while the view is not full, or when a
    connection to it is established that was opened to become its neighbour.  It
    leaves it only when it disconnects, or when it is banned for a JOIN in the
    name of another.  In particular a NEIGHBOUR message with high priority does
    not make room on a full view: its sender is turned away like any other. *)
Theorem active_view_changes now e s :
  config_ok (network_config s) → own_topic (topic_config s) e →
  ∃ s', inject_event prof now e s = Some s' ∧ ∀ p,
    (∀ c a, active_peers s' !! p = Some (c, a) → active_peers s !! p = Some (c, a) ∨
      (active_peers s !! p = None ∧ p ≠ peer_id (this_node s) ∧
       ((∃ msg n, e = MessageReceived p msg c ∧ action msg = ANeighbour n ∧
           nb_peer n = mkPeer p a ∧ active_view_full s = false) ∨
        (e = PeerConnected (mkPeer p a) c ∧
           es_contains now (pending_neighbours (pending s)) p = true)))) ∧
    (is_Some (active_peers s !! p) → active_peers s' !! p = None →
      (∃ c, e = PeerDisconnected p c) ∨
      (∃ msg c j, e = MessageReceived p msg c ∧ action msg = AJoin j ∧ peer_id (join_node j) ≠ p)).
Proof.
  intros Hcfg Hown. destruct (inject_event_runs now e s Hcfg Hown) as (s' & Hs' & _ & Ha).
  exists s'. split; [done|]. intros p. rewrite Ha. clear Hs' Ha s'.
  assert (∀ q c0 c a, enter_view q c0 s !! p = Some (c, a) → active_peers s !! p = Some (c, a) ∨
    (active_peers s !! p = None ∧ p ≠ peer_id (this_node s) ∧ q = mkPeer p a ∧ c0 = c)) as Hin.
  { intros q c0 c a. unfold enter_view, is_active. case_bool_decide as Hq; [by left|].
    case_bool_decide as Hself; [by left|]. cbn [orb].
    intros [[<- [= -> <-]]|[_ Hp]]%lookup_insert_Some; [|by left]. right.
    split; [by apply eq_None_not_Some|]. split; [done|]. by destruct q. }
  assert (∀ q c0, is_Some (active_peers s !! p) → enter_view q c0 s !! p = None → False) as Hout.
  { intros q c0 [x Hx]. unfold enter_view. destruct (_ || _); [congruence|].
    intros [??]%lookup_insert_None. congruence. }
  assert (is_Some (active_peers s !! p) → active_peers s !! p = None → False) as Hsame
    by by intros [? ->].
  destruct e as [sender msg c0|addr|q c0|q c0|]; simpl; try (split; [by left|by intros ? ?; destruct Hsame]).
  - destruct (action msg) as [j|fj|n|sh|sr|b] eqn:Hact; try (split; [by left|by intros ? ?; destruct Hsame]).
    + destruct (decide _); [split; [by left|by intros ? ?; destruct Hsame]|].
      split; [intros c a [_ Hp]%lookup_delete_Some; by left|].
      intros [x Hx] [->|Hp]%lookup_delete_None; [|congruence]. right. naive_solver.
    + destruct (decide (sender = peer_id (nb_peer n))) as [Hs|Hs];
        [rewrite bool_decide_true by done|rewrite bool_decide_false by done; split; [by left|by intros ? ?; destruct Hsame]].
      destruct (active_view_full s) eqn:Hfull; cbn [negb andb]; [split; [by left|by intros ? ?; destruct Hsame]|].
      split; [|by intros ? ?%Hout].
      intros c a [Hp|(Hp & Hself & Hq & ->)]%Hin; [by left|]. right. split; [done|]. split; [done|].
      left. exists msg, n. rewrite Hq in Hs. simpl in Hs. by subst.
  - destruct (es_contains _ _ _) eqn:Hc; [|split; [by left|by intros ? ?; destruct Hsame]].
    split; [|by intros ? ?%Hout].
    intros c a [Hp|(Hp & Hself & -> & ->)]%Hin; [by left|]. right. split; [done|]. split; [done|].
    by right.
  - split; [intros c a [_ Hp]%lookup_delete_Some; by left|].
    intros [x Hx] [->|Hp]%lookup_delete_None; [|congruence]. left. by eexists.
Qed.

Lemma foldl_skip_cmds (skip : PeerId → bool) a (l : list (PeerId * (ConnectionId * gset Multiaddr))) s :
  cmds (foldl (λ s '(peer, (connection, _)),
    if skip peer then s else send_message peer connection a s) s l) =
  cmds s ++ ((λ '(peer, (connection, _)),
    SendMessage peer connection (message_new (name (topic_config s)) a)) <$>
    filter (λ x, skip x.1 = false) l).
Proof.
  revert s. induction l as [|[p [c x]] l IH]; intros s; simpl; [by rewrite app_nil_r|].
  destruct (skip p) eqn:Hp.
  - rewrite IH. f_equal. by rewrite filter_cons_False by (simpl; congruence).
  - rewrite IH, filter_cons_True by done. simpl. by rewrite <-app_assoc.
Qed.

Lemma foldl_skip_pending (skip : PeerId → bool) a (l : list (PeerId * (ConnectionId * gset Multiaddr))) s :
  pending (foldl (λ s '(peer, (connection, _)),
    if skip peer then s else send_message peer connection a s) s l) = pending s.
Proof.
  revert s. induction l as [|[p [c x]] l IH]; intros s; simpl; [done|]. rewrite IH. by destruct (skip p).
Qed.

(** What [send_to_active] sends: one message to each active peer that is not skipped. *)
Lemma send_to_active_cmds skip act s :
  ∃ sent, cmds (send_to_active skip act s) = cmds s ++ sent ∧ NoDup sent ∧
    ∀ cmd, cmd ∈ sent ↔ ∃ p cn a, active_peers s !! p = Some (cn, a) ∧ skip p = false ∧
      cmd = SendMessage p cn (message_new (name (topic_config s)) act).
Proof.
  unfold send_to_active. rewrite foldl_skip_cmds. eexists. split; [done|]. split.
  - assert (NoDup (filter (λ x, skip x.1 = false) (hash_iter (active_peers s))).*1) as Hkeys.
    { eapply sublist_NoDup; [|apply fmap_sublist, sublist_filter].
      rewrite hash_iter_perm. apply NoDup_fst_map_to_list. }
    induction (filter _ _) as [|[p [cn x]] l IH]; [constructor|].
    apply NoDup_cons in Hkeys as [Hp Hl]. rewrite fmap_cons. apply NoDup_cons. split; [|by apply IH].
    intros ([q [cq y]] & [= <- <-] & Hq)%list_elem_of_fmap. apply Hp. apply list_elem_of_fmap.
    by exists (p, (cn, y)).
  - intros cmd. rewrite list_elem_of_fmap. split.
    + intros ([p [cn a]] & -> & [Hs Hp%elem_of_hash_iter]%list_elem_of_filter). by exists p, cn, a.
    + intros (p & cn & a & Hp & Hs & ->). exists (p, (cn, a)). split; [done|].
      apply list_elem_of_filter. by rewrite elem_of_hash_iter.
Qed.

(** Gossip.  What an active peer gossips is delivered to the listeners of the
    topic once, and passed on to exactly the other active peers, each on its own
    connection, once; nothing else changes.  What anybody else sends is neither
    delivered nor passed on: that peer is disconnected, unless it is already
    waiting to be.  A message of this node goes to every active peer, provided it
    is not too large and there is one. *)
Theorem gossip_spec now sender b c s :
  (is_Some (active_peers s !! sender) →
    ∃ sent, let s' := consume_gossip now sender b c s in
      outmsgs s' = outmsgs s ++ [b] ∧ cmds s' = cmds s ++ sent ∧ NoDup sent ∧
      (∀ cmd, cmd ∈ sent ↔ ∃ p cn a, active_peers s !! p = Some (cn, a) ∧ p ≠ sender ∧
        cmd = SendMessage p cn (message_new (name (topic_config s)) (AGossip b))) ∧
      active_peers s' = active_peers s ∧ passive_peers s' = passive_peers s ∧ pending s' = pending s) ∧
  (active_peers s !! sender = None →
    views (consume_gossip now sender b c s) = views s ∧
    cmds (consume_gossip now sender b c s) = cmds s ++
      if es_contains now (pending_disconnects (pending s)) sender then [] else [Disconnect sender c]) ∧
  (match gossip b s with
   | (Err MessageTooLarge, s') => s' = s ∧ max_transmit_size (network_config s) < length b
   | (Err NoConnectedPeers, s') => s' = s ∧ active_peers s = ∅
   | (Ok _, s') => active_peers s ≠ ∅ ∧ ∃ sent, cmds s' = cmds s ++ sent ∧ NoDup sent ∧
      ∀ cmd, cmd ∈ sent ↔ ∃ p cn a, active_peers s !! p = Some (cn, a) ∧
        cmd = SendMessage p cn (message_new (name (topic_config s)) (AGossip b))
   end).
Proof.
  split; [|split].
  - intros Hact. unfold consume_gossip, is_active. rewrite bool_decide_true by done. cbn [negb].
    set (skip := λ peer : PeerId, bool_decide (peer = sender)).
    destruct (send_to_active_cmds skip (AGossip b) s) as (sent & Hsent & Hnd & Hin).
    pose proof (views_eq _ _ (views_send_to_active skip (AGossip b) s)) as (_ & _ & _ & Ho & Ha & Hp).
    exists sent. split; [simpl; by rewrite Ho|]. split; [done|]. split; [done|].
    split; [|split; [done|split; [done|apply foldl_skip_pending]]].
    intros cmd. rewrite Hin. unfold skip. setoid_rewrite bool_decide_eq_false. done.
  - intros Hno. unfold consume_gossip, is_active. rewrite Hno, bool_decide_false by (by intros [? [=]]).
    cbn [negb]. split; [apply views_disconnect|]. unfold disconnect, es_insert, es_contains, em_insert, em_get.
    case_bool_decide; simpl; [by rewrite app_nil_r|done].
  - unfold gossip. destruct (Nat.ltb_spec (max_transmit_size (network_config s)) (length b)); [done|].
    case_bool_decide as Hne; [done|]. split; [done|].
    destruct (send_to_active_cmds (λ _, false) (AGossip b) s) as (sent & Hsent & Hnd & Hin).
    exists sent. split; [done|]. split; [done|]. intros cmd. rewrite Hin. naive_solver.
Qed.

(** The answer to a SHUFFLE, once the views are updated. *)
Lemma shuffle_reply_sent now (origin : AddressablePeer) reply s :
  let s' :=
    match active_peers s !! peer_id origin with
    | Some (cn, _) => send_message (peer_id origin) cn (AShuffleReply reply) s
    | None => dial_all now (addresses origin)
        (with_replies (em_insert now (pending_shuffle_replies (pending s)) (peer_id origin) reply).2 s)
    end in
  views s' = views s ∧
  match active_peers s !! peer_id origin with
  | Some (cn, _) => SendMessage (peer_id origin) cn
      (message_new (name (topic_config s)) (AShuffleReply reply)) ∈ cmds s'
  | None => em_data (pending_shuffle_replies (pending s')) !! peer_id origin = Some (reply, now)
  end.
Proof.
  destruct (active_peers s !! peer_id origin) as [[cn a]|]; cbv zeta.
  - split; [done|]. apply elem_of_app. right. by left.
  - rewrite views_dial_all, dial_all_replies. split; [done|]. simpl. by rewrite lookup_insert_eq.
Qed.

(** Forwarding a SHUFFLE only sends messages. *)
Lemma shuffle_forwarded sender msg s :
  config_ok (network_config s) →
  ∃ s', (if (sh_hop msg <? Z.of_nat (random_walk_length (network_config s)))%Z
    then forward prof sender (sh_hop msg)
      (λ hop, AShuffle (mkShuffle hop (sh_origin msg) (sh_peers msg))) s
    else Some s) = Some s' ∧ views s' = views s ∧ cmds s `prefix_of` cmds s' ∧ pending s' = pending s.
Proof.
  intros Hcfg. destruct (Z.ltb_spec (sh_hop msg) (Z.of_nat (random_walk_length (network_config s))))
    as [Hh|_]; [|by exists s].
  destruct (forward_runs prof sender (sh_hop msg)
    (λ hop, AShuffle (mkShuffle hop (sh_origin msg) (sh_peers msg))) s) as (s' & Hs' & _).
  { destruct Hcfg. lia. }
  exists s'. split; [done|]. split; [by eapply views_forward|by eapply forward_only_sends].
Qed.

Lemma known_addrs (m : PeerSet) s id a :
  collect_peer_addrs m s id = Some a → id ∈ dom (active_peers s) ∪ dom (passive_peers s) →
  passive_peers s !! id = Some a ∨ ∃ cn, active_peers s !! id = Some (cn, a).
Proof.
  unfold collect_peer_addrs. destruct (passive_peers s !! id) as [a'|] eqn:Hp; [intros [= ->]; by left|].
  destruct (active_peers s !! id) as [[cn a']|] eqn:Ha; [intros [= ->]; right; by exists cn|].
  intros _ [[? ?]%elem_of_dom|[? ?]%elem_of_dom]%elem_of_union; congruence.
Qed.

(** Shuffling.  An active peer's SHUFFLE is answered - over the link if the
    originator is an active peer, and otherwise once it is connected - with
    exactly the known peers that are not in the sample taken of the message, with
    the addresses they are known by; and the new passive view is a bounded
    sample of the known peers and of that sample.  From the answer to its own
    SHUFFLE, however, a node learns nothing: a SHUFFLEREPLY leaves it with a part
    of its passive view, whatever peers it names. *)
Theorem shuffle_spec now sender msg s :
  config_ok (network_config s) → is_Some (active_peers s !! sender) →
  let known := dom (active_peers s) ∪ dom (passive_peers s) in
  (∃ (recv : gset PeerId) reply s', consume_shuffle prof now sender msg s = Some s' ∧
    recv ⊆ dom (sh_peers msg) ∧ size recv ≤ shuffle_sample_size (network_config s) ∧
    dom reply = known ∖ recv ∧
    (∀ id a, reply !! id = Some a → passive_peers s !! id = Some a ∨
      ∃ cn, active_peers s !! id = Some (cn, a)) ∧
    (match active_peers s !! peer_id (sh_origin msg) with
     | Some (cn, _) => SendMessage (peer_id (sh_origin msg)) cn
         (message_new (name (topic_config s)) (AShuffleReply (mkShuffleReply reply))) ∈ cmds s'
     | None => em_data (pending_shuffle_replies (pending s')) !! peer_id (sh_origin msg) =
         Some (mkShuffleReply reply, now)
     end) ∧
    dom (passive_peers s') ⊆ known ∪ recv ∧
    size (passive_peers s') ≤ max_passive_view_size (network_config s)) ∧
  ∀ sr c, ∃ s', consume_shuffle_reply now sender sr c s = Some s' ∧ passive_peers s' ⊆ passive_peers s.
Proof.
  intros Hcfg Hact known. split.
  2: { intros sr c. destruct (consume_shuffle_reply_eq now sender sr c s) as (s' & Hs' & _ & _ & Hsub).
       by exists s'. }
  destruct (consume_shuffle_eq prof now sender msg s) as
    (recv & reply & passive & s1 & Hrecv & Hsz & Hreply & Haddr & Hpsz & Hp & Hv & ->).
  { by apply bool_decide_eq_true. }
  apply views_eq in Hv as (Htc & Hnc & _ & _ & Ha & _).
  destruct (shuffle_reply_sent now (sh_origin msg) (mkShuffleReply reply) (with_passive passive s1))
    as [Hv2 Hsent].
  cbn [active_peers with_passive] in Hv2, Hsent. rewrite Ha in Hv2, Hsent. cbv zeta.
  set (s2 := match active_peers s !! _ with Some _ => _ | None => _ end) in *.
  apply views_eq in Hv2 as (_ & Hnc2 & _ & _ & _ & Hp2).
  assert (network_config s2 = network_config s) as Hn2 by by rewrite Hnc2.
  destruct (shuffle_forwarded sender msg s2) as (s' & Hs' & Hv' & Hpre & Hpend); [by rewrite Hn2|].
  apply views_eq in Hv' as (_ & _ & _ & _ & _ & Hp'). rewrite Hn2 in Hs'.
  exists recv, reply, s'. split; [done|]. split; [intros id; apply Hrecv|]. split; [done|].
  split; [apply set_eq; exact Hreply|]. split.
  { intros id a Hid. apply (known_addrs (sh_peers msg)); [by apply Haddr|].
    apply elem_of_dom_2, Hreply in Hid. set_solver. }
  split.
  { destruct (active_peers s !! peer_id (sh_origin msg)) as [[cn a]|]; [|by rewrite Hpend].
    destruct Hpre as [k ->]. cbn [topic_config with_passive] in Hsent. rewrite Htc in Hsent.
    apply elem_of_app. by left. }
  rewrite Hp', Hp2. split; [|done]. intros id [a Hid]%elem_of_dom. by apply (Hp id a).
Qed.
End properties.

(** ** Examples *)

Definition peer (n : nat) : @PeerId sandbox_libp2p := n.
Definition conn (n : nat) : @ConnectionId sandbox_libp2p := n.
Definition maddr (n : N) : @Multiaddr sandbox_libp2p := n.
Definition example_node (id : nat) : AddressablePeer := mkPeer (peer id) {[maddr (N.of_nat id)]}.
Definition example_topic : TopicConfig := mkTopicConfig (str "txs") {[maddr 7]}.
Definition from_peer (id : nat) (a : Action) : TopicEvent :=
  MessageReceived (peer id) (message_new (str "txs") a) (conn id).
Definition hello (id : nat) : TopicEvent := from_peer id (ANeighbour (mkNeighbour (example_node id) false)).
Definition two_neighbours : TopicInner :=
  let s := topic_new 0 example_topic (config_default []) (example_node 0) in
  with_active {[peer 1 := (conn 1, {[maddr 1]}); peer 2 := (conn 2, {[maddr 2]})]} s.

Lemma default_config_ok : config_ok (config_default []).
Proof. split; [apply Nat.leb_le; reflexivity|apply Z.leb_le; reflexivity]. Qed.

Lemma topic_survives_witness :
  ∃ s, foldM (λ s '(now, e), inject_event Debug now e s)
      (topic_new 0 example_topic (config_default []) (example_node 0))
      [(1, hello 1); (2, hello 2); (3, Tick)]%Z = Some s ∧ size (passive_peers s) ≤ 48.
Proof.
  destruct (topic_survives Debug 0 example_topic (config_default []) (example_node 0)
    [(1, hello 1); (2, hello 2); (3, Tick)]%Z default_config_ok) as (s & Hs & _ & _ & Hsz).
  - intros now e He. apply elem_of_cons in He as [He|He]; [injection He as -> ->; reflexivity|].
    apply elem_of_cons in He as [He|He]; [injection He as -> ->; reflexivity|].
    apply elem_of_cons in He as [He|He]; [injection He as -> ->; exact I|].
    apply elem_of_nil in He. destruct He.
  - exists s. split; [exact Hs|exact Hsz].
Defined.

Lemma active_view_changes_witness :
  ∃ s', inject_event Debug 1 (hello 3) two_neighbours = Some s' ∧
    ∀ c a, active_peers s' !! (peer 9) ≠ Some (c, a).
Proof.
  destruct (active_view_changes Debug 1 (hello 3) two_neighbours default_config_ok eq_refl)
    as (s' & Hs' & Hall).
  exists s'. split; [exact Hs'|]. intros c a Hp.
  destruct (Hall (peer 9)) as [Hin _]. destruct (Hin c a Hp) as [Hno|(_ & _ & [He|He])].
  - discriminate Hno.
  - destruct He as (msg & n & He & _). discriminate He.
  - destruct He as [He _]. discriminate He.
Defined.

Lemma shuffle_spec_witness :
  ∃ s', consume_shuffle Debug 1 (peer 1)
      (mkShuffle 1 (example_node 2) {[peer 5 := {[maddr 5]}]}) two_neighbours = Some s' ∧
    size (passive_peers s') ≤ 48.
Proof.
  destruct (shuffle_spec Debug 1 (peer 1)
    (mkShuffle 1 (example_node 2) {[peer 5 := {[maddr 5]}]}) two_neighbours
    default_config_ok) as [(recv & reply & s' & Hs' & _ & _ & _ & _ & _ & _ & Hsz) _].
  - exists (conn 1, {[maddr 1]}). reflexivity.
  - exists s'. split; [exact Hs'|exact Hsz].
Defined.

Lemma gossip_spec_witness :
  cmds (consume_gossip 1 (peer 1) (bstr "x") (conn 1) two_neighbours) =
    cmds two_neighbours ++
      [SendMessage (peer 2) (conn 2) (message_new (str "txs") (AGossip (bstr "x")))] ∧
  outmsgs (consume_gossip 1 (peer 1) (bstr "x") (conn 1) two_neighbours) =
    [bstr "x"].
Proof.
  split; [vm_compute; reflexivity|].
  destruct (gossip_spec 1 (peer 1) (bstr "x") (conn 1) two_neighbours) as [Ha _].
  destruct Ha as (sent & Ho & _); [exists (conn 1, {[maddr 1]}); reflexivity|exact Ho].
Defined.
