(* ===== verification/TopicCommands.v ===== *)
(** What a topic asks of the network layer: its commands concern its own topic.

    This is what the network object relies on when it takes the commands of its
    topics from a channel they all share. *)
From S2P Require Import Prelude Extern Chain Sandbox Cache Wire Behaviour Topic.

Section commands.
Context `{!MultihashCrate, !Libp2p, !Rand, !HashOrder PeerId, !HashOrder Multiaddr}.
Context (prof : Profile) (now : Instant) (n : rstring).
Implicit Types (s self : TopicInner).

(** A command that topic [n] may send. *)
Definition own_command (c : Command) : Prop :=
  match c with
  | Connect _ topic => topic = n
  | SendMessage _ _ msg => msg_topic msg = n
  | InjectEvent _ => False
  | Disconnect _ _ | BanPeer _ => True
  end.

(** A topic of that name that sent nothing else; a handler keeps that. *)
Definition owns s : Prop := name (topic_config s) = n ∧ Forall own_command (cmds s).
Definition owns_opt (o : option TopicInner) : Prop := ∀ s, o = Some s → owns s.

Lemma owns_Some s : owns s → owns_opt (Some s).
Proof. by intros Hs s' [= <-]. Qed.
Lemma owns_None : owns_opt None.
Proof. done. Qed.
Lemma owns_bind o f : owns_opt o → (∀ s, owns s → owns_opt (f s)) → owns_opt (o ≫= f).
Proof. intros Ho Hf s (s1 & Hs1 & Hs)%bind_Some. exact (Hf s1 (Ho s1 Hs1) s Hs). Qed.
Lemma owns_bind_any {A} (o : option A) f : (∀ x, owns_opt (f x)) → owns_opt (o ≫= f).
Proof. intros Hf s (x & _ & Hs)%bind_Some. exact (Hf x s Hs). Qed.

Lemma owns_command c s : owns s → own_command c → owns (command c s).
Proof. intros [Hn Hc] Hown. split; [done|]. simpl. by apply Forall_app, (conj Hc), Forall_singleton. Qed.

Lemma owns_send_message p c a s : owns s → owns (send_message p c a s).
Proof. intros Hs. apply owns_command; [done|]. apply Hs. Qed.

Lemma owns_disconnect p c s : owns s → owns (disconnect now p c s).
Proof. intros Hs. unfold disconnect. destruct (es_insert _ _ _) as [[] ?]; [done|]. by apply owns_command. Qed.

Lemma owns_dial_addr a s : owns s → owns (dial_addr now a s).
Proof.
  intros Hs. unfold dial_addr. destruct (ip_address a); [|done].
  destruct (es_insert _ _ _) as [[] ?]; [done|]. apply owns_command; [done|]. apply Hs.
Qed.

Lemma owns_foldl {A} (f : TopicInner → A → TopicInner) l s :
  (∀ s x, owns s → owns (f s x)) → owns s → owns (foldl f s l).
Proof. intros Hf. revert s. induction l as [|x l IH]; intros s Hs; simpl; auto. Qed.

Lemma owns_foldM {A} (f : TopicInner → A → option TopicInner) l s :
  (∀ s x, owns s → owns_opt (f s x)) → owns s → owns_opt (foldM f s l).
Proof.
  intros Hf. revert s. induction l as [|x l IH]; intros s Hs; simpl; [by apply owns_Some|].
  apply owns_bind; [by apply Hf|auto].
Qed.

Lemma owns_dial_all l s : owns s → owns (dial_all now l s).
Proof. apply owns_foldl. intros. by apply owns_dial_addr. Qed.

Lemma owns_send_to_active skip a s : owns s → owns (send_to_active skip a s).
Proof. apply owns_foldl. intros s1 [p [c ?]] Hs. destruct (skip p); [done|]. by apply owns_send_message. Qed.

Lemma owns_random_active s f :
  owns s → (∀ x s', owns s' → owns_opt (f (x, s'))) → owns_opt (random_active s ≫= f).
Proof.
  intros Hs Hf. unfold random_active, draw. cbv beta iota zeta.
  destruct (choose _ _) as [x|]; [|done]. by apply Hf.
Qed.

#[local] Hint Resolve owns_Some owns_None owns_send_message owns_disconnect owns_dial_all
  owns_send_to_active : own.

Lemma owns_passive p s : owns s → owns_opt (add_to_passive_view p s).
Proof.
  intros Hs. unfold add_to_passive_view. destruct (passive_peers s !! _); [by apply owns_Some|].
  destruct (_ <? _)%nat; [|by apply owns_Some].
  apply owns_bind_any. intros r. by apply owns_Some.
Qed.

Lemma owns_neighbouring p s : owns s → owns (try_neighbouring_with now p s).2.
Proof.
  intros Hs. unfold try_neighbouring_with. destruct (_ || _); [done|].
  destruct (es_insert _ _ _) as [[] ?]; [done|]. by apply owns_dial_all.
Qed.

Lemma owns_active p c s : owns s → owns (add_to_active_view p c s).
Proof. intros Hs. unfold add_to_active_view. destruct (is_active _ _); [done|]. by case_bool_decide. Qed.

Lemma owns_ban p s : owns s → owns (ban p s).
Proof. intros Hs. by apply owns_command. Qed.

Lemma owns_forward sender hop a s : owns s → owns_opt (forward prof sender hop a s).
Proof.
  apply owns_foldM. intros s1 [p [c ?]] Hs. case_bool_decide; [|by apply owns_Some].
  apply owns_bind_any. auto with own.
Qed.

#[local] Hint Resolve owns_passive owns_neighbouring owns_active owns_ban owns_forward : own.

Lemma owns_join sender msg c s : owns s → owns_opt (consume_join now sender msg c s).
Proof.
  intros Hs. unfold consume_join. case_bool_decide; [auto with own|].
  destruct (is_active _ _); [auto with own|]. cbv zeta. destruct (negb _); auto with own.
Qed.

Lemma owns_forward_join sender msg s : owns s → owns_opt (consume_forward_join prof now sender msg s).
Proof.
  intros Hs. unfold consume_forward_join. destruct (negb _); [auto with own|].
  do 2 (case_bool_decide; [auto with own|]). apply owns_bind; [auto with own|].
  intros s1 Hs1. destruct (_ <=? _)%Z; cbv zeta.
  - destruct (negb _); [|auto with own]. apply owns_bind; [|auto with own].
    destruct (active_view_full s1); [|auto with own]. apply owns_random_active; [done|].
    intros [p [c a]] s2 Hs2. apply owns_bind_any. intros [? ?]. auto with own.
  - destruct (negb _); auto with own.
Qed.

Lemma owns_neighbor sender msg c s : owns s → owns_opt (consume_neighbor now sender msg c s).
Proof.
  intros Hs. unfold consume_neighbor. destruct (is_active _ _); [auto with own|].
  case_bool_decide; [auto with own|]. apply owns_bind.
  - destruct (_ && _); [|auto with own]. apply owns_random_active; [done|]. intros [p [c' a]]. auto with own.
  - intros s1 Hs1. destruct (negb _); auto with own.
Qed.

Lemma owns_shuffle sender msg s : owns s → owns_opt (consume_shuffle prof now sender msg s).
Proof.
  intros Hs. unfold consume_shuffle, draw. destruct (negb _); [auto with own|]. cbv zeta beta iota.
  apply owns_bind_any. intros reply. apply owns_bind_any. intros passive.
  assert (∀ s1, owns s1 → owns_opt
    (if (sh_hop msg <? Z.of_nat (random_walk_length (network_config s1)))%Z then
       forward prof sender (sh_hop msg) (λ hop, AShuffle (mkShuffle hop (sh_origin msg) (sh_peers msg))) s1
     else Some s1)) as Hf.
  { intros s1 Hs1. destruct (_ <? _)%Z; auto with own. }
  cbn -[forward]. destruct (active_peers s !! _) as [[c a]|]; apply Hf; auto with own.
Qed.

Lemma owns_shuffle_reply sender msg c s : owns s → owns_opt (consume_shuffle_reply now sender msg c s).
Proof.
  intros Hs. unfold consume_shuffle_reply, draw. cbv zeta beta iota. apply owns_bind_any. intros p.
  destruct (negb _); auto with own.
Qed.

Lemma owns_message sender msg c s : owns s → owns_opt (handle_message_received prof now sender msg c s).
Proof.
  intros Hs. unfold handle_message_received. case_bool_decide; [auto with own|].
  destruct (action msg).
  - by apply owns_join.
  - by apply owns_forward_join.
  - by apply owns_neighbor.
  - by apply owns_shuffle.
  - by apply owns_shuffle_reply.
  - unfold consume_gossip. destruct (negb _); auto with own.
    apply owns_Some. by apply (owns_send_to_active (λ peer, bool_decide (peer = sender)) (AGossip b)) in Hs.
Qed.

Lemma owns_connected p c s : owns s → owns (handle_peer_connected now p c s).
Proof.
  intros Hs. unfold handle_peer_connected. cbv zeta. apply owns_foldl.
  { intros s1 x Hs1. by destruct (ip_address x). }
  assert (owns (handle_non_pending_connects now p c s)) as Hc1.
  { unfold handle_non_pending_connects. destruct (_ && _); [|done]. by apply owns_send_message. }
  assert (owns (handle_pending_neighbours now p c (handle_non_pending_connects now p c s))) as Hc2.
  { unfold handle_pending_neighbours. destruct (es_remove _ _ _) as [[] ?]; [|done].
    by apply owns_active, owns_send_message. }
  revert Hc2. generalize (handle_pending_neighbours now p c (handle_non_pending_connects now p c s)).
  intros s1 Hs1. unfold handle_pending_shuffle_replies. destruct (em_remove _ _ _) as [[reply|] r]; [|done].
  destruct (negb _); [apply owns_disconnect|]; by apply owns_send_message.
Qed.

Lemma owns_tick s : owns s → owns_opt (handle_tick now s).
Proof.
  intros Hs. unfold handle_tick. apply owns_bind.
  - destruct (_ <? _)%Z; [|auto with own]. unfold initiate_shuffle, draw. cbv zeta beta iota.
    destruct (negb _); [by apply owns_Some|]. cbn -[send_message]. destruct (choose _ _) as [[p [c a]]|]; [|by apply owns_Some].
    apply owns_bind_any. intros peers. by apply owns_Some, owns_send_message.
  - intros s1 Hs1. destruct (_ && _); [|auto with own]. unfold try_stabilize_active_view, draw.
    destruct (_ && _); cbv zeta beta iota.
    + cbn -[dial_all try_neighbouring_with]. destruct (choose _ _) as [[p a]|]; [by apply owns_Some, owns_neighbouring|].
      destruct (_ && _); apply owns_Some; [by apply owns_dial_all|done].
    + destruct (_ && _); [|auto with own]. apply owns_random_active; [done|]. intros [p [c a]]. auto with own.
Qed.

(** Every handler of a topic sends commands of its own topic only. *)
Lemma owns_inject_event e s : owns s → owns_opt (Topic.inject_event prof now e s).
Proof.
  intros Hs. destruct e; simpl.
  - by apply owns_message.
  - by apply owns_Some.
  - by apply owns_Some, owns_connected.
  - unfold handle_peer_disconnected. apply owns_bind; [|intros s1 Hs1; by apply owns_Some].
    unfold move_active_to_passive. destruct (active_peers s !! peer) as [[c a]|]; [|by apply owns_Some].
    by apply owns_passive.
  - by apply owns_tick.
Qed.

Lemma owns_gossip data s : owns s → owns (gossip data s).2.
Proof.
  intros Hs. unfold gossip. destruct (_ <? _)%nat; [done|]. case_bool_decide; [done|].
  by apply owns_send_to_active.
Qed.

Lemma owns_topic_new tc nc node : name tc = n → owns (topic_new now tc nc node).
Proof.
  intros Hn. unfold topic_new. cbv zeta. apply owns_foldl; [|by split].
  intros s a Hs. assert (owns (command (Connect a (name tc)) s)) by by apply owns_command.
  by destruct (ip_address a).
Qed.
End commands.
