(* ===== verification/Network.v ===== *)
(** The network object: [network/src/network.rs] and the commands of
    [network/src/runloop.rs].

    The network object owns the topics and the multiplexer, and handles one command
    at a time from a channel into which its topics and the background runloop
    write.  Handles to a topic share the topic's state, which is kept here under its
    name; what a topic writes into the channel while it handles an event is appended
    to [commands] when the event was handled.  A panic is [None]. *)
From stdpp Require Import functions.
From S2P Require Import Prelude Extern Chain Sandbox Cache Wire Behaviour Muxer Topic TopicProps.

Section network.
Context `{!MultihashCrate, !Libp2p, !Rand, !HashOrder PeerId, !HashOrder Multiaddr,
  !HashOrder Protocol, !HashOrder rstring, !Rmp (rstring * Action)}.
Context (prof : Profile).

(** [network::Error], as far as [join] returns it; [runloop::Command] *)
Inductive NetworkError := TopicAlreadyJoined (topic : rstring).
Inductive RunloopCommand :=
| RConnect (addr : Multiaddr)
| RDisconnect (peer : PeerId) (connection : ConnectionId)
| RBanPeer (peer : PeerId)
| RSendMessage (peer : PeerId) (connection : ConnectionId) (msg : Message).

(** [pub struct Network]; [runloop] is what was sent to the background runloop, and
    whether the interval [tick] is ready is an input of [poll_next]. *)
Record Network := mkNetwork {
  config : Config;
  this : AddressablePeer;
  runloop : list RunloopCommand;
  commands : list Command;
  topics : gmap rstring TopicInner;
  muxer : Muxer;
  history : option (ExpiringSet Multihash);
}.

Definition with_muxer (m : Muxer) (self : Network) : Network :=
  mkNetwork (config self) (this self) (runloop self) (commands self) (topics self) m (history self).
Definition with_history (h : option (ExpiringSet Multihash)) (self : Network) : Network :=
  mkNetwork (config self) (this self) (runloop self) (commands self) (topics self) (muxer self) h.
Definition with_this (t : AddressablePeer) (self : Network) : Network :=
  mkNetwork (config self) t (runloop self) (commands self) (topics self) (muxer self) (history self).
Definition with_commands (q : list Command) (self : Network) : Network :=
  mkNetwork (config self) (this self) (runloop self) q (topics self) (muxer self) (history self).

(** [Runloop::send_command]: the runloop outlives the network object. *)
Definition send_command (c : RunloopCommand) (self : Network) : Network :=
  mkNetwork (config self) (this self) (runloop self ++ [c]) (commands self) (topics self)
    (muxer self) (history self).

(** The state of a topic after it ran, and what it wrote into the channel. *)
Definition drained (t : TopicInner) : TopicInner :=
  mkTopic (topic_config t) (network_config t) (last_shuffle t) (this_node t) (outmsgs t) []
    (active_peers t) (passive_peers t) (pending t) (draws t).
Definition sync_topic (n : rstring) (t : TopicInner) (self : Network) : Network :=
  mkNetwork (config self) (this self) (runloop self) (commands self ++ cmds t)
    (<[n := drained t]> (topics self)) (muxer self) (history self).

(** An event for a topic that the code looks up with [expect] or [unwrap]. *)
Definition topic_event (now : Instant) (n : rstring) (e : TopicEvent) (self : Network) :
    option Network :=
  t ← topics self !! n; t ← Topic.inject_event prof now e t; Some (sync_topic n t self).

(** [for topic in self.topics.values_mut() { topic.inject_event(e) }] *)
Definition all_topics_event (now : Instant) (e : TopicEvent) (self : Network) : option Network :=
  foldM (λ self n, topic_event now n e self) self (hash_keys (topics self)).

(** [Network::new], given the identity of the key pair. *)
Definition network_new (config : Config) (peer_id : PeerId) : Network :=
  mkNetwork config (mkPeer peer_id ∅) [] [] ∅ (muxer_new config) (es_new <$> dedupe_interval config).

(** [Network::join]: the name stands for the handle to the topic. *)
Definition join (now : Instant) (cfg : TopicConfig) (self : Network) :
    Result rstring NetworkError * Network :=
  match topics self !! name cfg with
  | Some _ => (Err (TopicAlreadyJoined (name cfg)), self)
  | None => (Ok (name cfg), sync_topic (name cfg) (topic_new now cfg (config self) (this self)) self)
  end.

(** [Topic::gossip] through a handle. *)
Definition gossip_on (n : rstring) (data : bytes) (self : Network) :
    option (Result unit TopicError * Network) :=
  t ← topics self !! n; let '(r, t) := gossip data t in Some (r, sync_topic n t self).

(** [Network::ban_peer] *)
Definition ban_peer (peer : PeerId) (self : Network) : Network := send_command (RBanPeer peer) self.

(** [Network::begin_connect] *)
Definition begin_connect (now : Instant) (addr : Multiaddr) (topic : rstring) (self : Network) :
    Network :=
  let self := with_muxer (put_dial addr topic (muxer self)) self in
  let '(started, m) := next_dial now addr topic (muxer self) in
  let self := with_muxer m self in
  if started then send_command (RConnect addr) self else self.

(** The loop of [complete_connect] over the addresses of a dialed peer. *)
Fixpoint redial (now : Instant) (addrs : list Multiaddr) (topic : rstring) (self : Network) :
    Network :=
  match addrs with
  | [] => self
  | addr :: addrs =>
      let '(started, m) := next_dial now addr topic (muxer self) in
      let self := with_muxer m self in
      if started then send_command (RConnect addr) self else redial now addrs topic self
  end.

(** [Network::complete_connect] *)
Definition complete_connect (now : Instant) (peer : AddressablePeer) (connection : ConnectionId)
    (endpoint : ConnectedPoint) (self : Network) : option Network :=
  if is_dialer endpoint then
    let '(topic, m) := match_dial now peer connection (muxer self) in
    let self := with_muxer m self in
    match topic with
    | Some topic =>
        let self := redial now (hash_elems (addresses peer)) topic self in
        topic_event now topic (PeerConnected peer connection) self
    | None => None
    end
  else Some (with_muxer (register peer connection (muxer self)) self).

(** [Network::begin_disconnect], [Network::complete_disconnect] *)
Definition begin_disconnect (peer : PeerId) (connection : ConnectionId) (self : Network) : Network :=
  send_command (RDisconnect peer connection) self.
Definition complete_disconnect (now : Instant) (peer : PeerId) (connection : ConnectionId)
    (self : Network) : option Network :=
  self ← match resolve_topic peer connection (muxer self) with
         | Some topic => topic_event now topic (PeerDisconnected peer connection) self
         | None => Some self
         end;
  Some (with_muxer (mux_disconnect peer connection (muxer self)) self).

(** [Network::append_local_address] *)
Definition append_local_address (now : Instant) (address : Multiaddr) (self : Network) :
    option Network :=
  let self := with_this (mkPeer (peer_id (this self)) ({[address]} ∪ addresses (this self))) self in
  all_topics_event now (LocalAddressDiscovered address) self.

(** The lookup in the history of [accept_message]: whether the message is a
    duplicate, the message with its hash. *)
Definition deduplicate (now : Instant) (msg : Message) (self : Network) : bool * Message * Network :=
  match history self with
  | Some h =>
      let '(hash, msg) := message_hash msg in
      let '(known, h) := es_insert now h hash in
      (known, msg, with_history (Some h) self)
  | None => (false, msg, self)
  end.

(** [Network::accept_message] *)
Definition accept_message (now : Instant) (from : PeerId) (connection : ConnectionId)
    (msg : Message) (self : Network) : option Network :=
  match topics self !! msg_topic msg with
  | None => Some (send_command (RDisconnect from connection) self)
  | Some _ =>
      let '(duplicate, msg, self) := deduplicate now msg self in
      if duplicate : bool then Some self
      else
        let '(peer, m) := assign from connection (msg_topic msg) (muxer self) in
        let self := with_muxer m self in
        self ← match peer with
               | Some peer => topic_event now (msg_topic msg) (PeerConnected peer connection) self
               | None => Some self
               end;
        topic_name ← resolve_topic from connection (muxer self);
        if bool_decide (topic_name = msg_topic msg)
        then topic_event now (msg_topic msg) (MessageReceived from msg connection) self
        else Some (ban_peer from self)
  end.

(** [Network::inject_event] *)
Definition net_inject_event (now : Instant) (event : BehaviourEvent) (self : Network) :
    option Network :=
  match event with
  | WireMessage from conn msg => accept_message now from conn msg self
  | NewLocalAddress addr => append_local_address now addr self
  | ConnectionEstablished peer endpoint connection_id =>
      complete_connect now peer connection_id endpoint self
  | ConnectionClosed peer connection_id => complete_disconnect now peer connection_id self
  end.

(** The body of [poll_next] for a command, and for a tick. *)
Definition handle_command (now : Instant) (c : Command) (self : Network) : option Network :=
  match c with
  | Connect addr topic => Some (begin_connect now addr topic self)
  | Disconnect peer connection => Some (begin_disconnect peer connection self)
  | SendMessage peer connection msg => Some (send_command (RSendMessage peer connection msg) self)
  | BanPeer peer => Some (ban_peer peer self)
  | InjectEvent event => net_inject_event now event self
  end.
Definition handle_net_tick (now : Instant) (self : Network) : option Network :=
  self ← all_topics_event now Tick self;
  let self := with_muxer (mux_prune_expired now (muxer self)) self in
  let self := with_history (es_prune_expired now <$> history self) self in
  Some match poll_dial (muxer self) with
       | Some (topic, addr) =>
           let '(started, m) := next_dial now addr topic (muxer self) in
           let self := with_muxer m self in
           if started then send_command (RConnect addr) self else self
       | None => self
       end.

(** [Network::poll_next]: whether it was ready, at an instant when the interval was
    ready or not. *)
Definition poll_next (now : Instant) (tick_ready : bool) (self : Network) : option (bool * Network) :=
  if tick_ready then self ← handle_net_tick now self; Some (true, self)
  else
    match poll_recv (commands self) with
    | Some (command, q) => self ← handle_command now command (with_commands q self); Some (true, self)
    | None => Some (false, self)
    end.
End network.
