(* ===== verification/NetworkProps.v ===== *)
(** What the network object guarantees, over the definitions of [Network]: the
    composition of the topics, the multiplexer and the channel of commands. *)
From stdpp Require Import functions.
From S2P Require Import Prelude Extern Chain Sandbox Cache Wire Behaviour Muxer Topic TopicProps TopicCommands Network.

(** ** The topics that a multiplexer refers to *)

Section mux_topics.
Context `{!MultihashCrate, !Libp2p, !HashOrder Multiaddr, !HashOrder Protocol, !HashOrder rstring}.
Context (known : rstring → Prop).
Implicit Types (m : Muxer).

Record mux_topics m : Prop := {
  mt_links : ∀ x n, link m x = Some (AssignedTo n) → known n;
  mt_requested : ∀ ip n a, nested_lookup (requested_dials m) (ip, n) = Some a → known n;
  mt_ongoing : ∀ ip n t, em_data (ongoing_dials m) !! ip = Some (n, t) → known n;
}.

Lemma mux_topics_relinked m x l m' :
  mux_topics m → relinked m x l m' → (∀ n, l = Some (AssignedTo n) → known n) →
  requested_dials m' = requested_dials m → em_data (ongoing_dials m') ⊆ em_data (ongoing_dials m) →
  mux_topics m'.
Proof.
  intros [Hl Hr Ho] [_ Hre] Hn Hreq Hsub. split.
  - intros y n. rewrite Hre. destruct (decide (x = y)) as [<-|Hy].
    + rewrite fn_lookup_insert. apply Hn.
    + rewrite fn_lookup_insert_ne by done. apply Hl.
  - rewrite Hreq. apply Hr.
  - intros ip n t Hip. eapply Ho, lookup_weaken; done.
Qed.

Lemma register_topics a c m :
  mux_ok m → link m (peer_id a, c) = None → mux_topics m → mux_topics (register a c m).
Proof.
  intros Hok Hl Hm. eapply mux_topics_relinked; [done|by apply relinked_register|done| |];
    unfold register; by destruct (unassigned m !! peer_id a) as [[??]|].
Qed.

Lemma assign_topics p c n m : mux_ok m → known n → mux_topics m → mux_topics (assign p c n m).2.
Proof.
  intros Hok Hn Hm. destruct (assign p c n m) as [r m'] eqn:Ha.
  pose proof (relinked_assign p c n m r m' Hok Ha) as Hr. destruct r; [|by destruct Hr as [_ ->]].
  destruct Hr as (_ & _ & Hr). revert Ha. unfold assign.
  destruct (unassigned m !! p) as [[b cs]|]; [|done]. case_bool_decide; [|done]. intros [= _ <-].
  eapply mux_topics_relinked; [done|done|by intros ? [= <-]| |]; simpl;
    [by rewrite requested_forget|].
  unfold forget_unassigned. simpl. by case_bool_decide.
Qed.

Lemma disconnect_topics p c m : mux_ok m → mux_topics m → mux_topics (mux_disconnect p c m).
Proof.
  intros Hok Hm. eapply mux_topics_relinked; [done|by apply relinked_disconnect| | |].
  - intros n. destruct (link m (p, c)) as [[]|]; [|done|done]. by destruct (assigned m !! p).
  - unfold mux_disconnect. destruct (assigned m !! p); [done|].
    destruct (unassigned m !! p) as [[b cs]|]; [|done]. by rewrite requested_forget.
  - unfold mux_disconnect. destruct (assigned m !! p); [done|].
    destruct (unassigned m !! p) as [[b cs]|]; [|done]. unfold forget_unassigned. by case_bool_decide.
Qed.

Lemma dial_of_topics now m a n : mux_topics m → dial_of now m a = Some n → known n.
Proof.
  intros Hm Hd%head_Some_elem_of. apply list_elem_of_omap in Hd as (addr & _ & Hd).
  unfold dialing in Hd. apply bind_Some in Hd as (ip & _ & Hd). apply em_get_Some in Hd as (t & Ht & _).
  by eapply mt_ongoing.
Qed.

Lemma match_dial_topics now a c m :
  mux_ok m → link m (peer_id a, c) = None → mux_topics m → mux_topics (match_dial now a c m).2.
Proof.
  intros Hok Hl Hm. destruct (match_dial now a c m) as [r m'] eqn:Hd.
  destruct (relinked_match_dial now a c m r m' Hok Hl Hd) as (-> & Hr & Hsub).
  eapply mux_topics_relinked; [done|done| | |done].
  - intros n [? [? [= <-]]]%fmap_Some. by eapply dial_of_topics.
  - revert Hd. unfold match_dial. destruct (match_dial_loop _ _ _) as [r0 m0] eqn:Hl0.
    apply match_dial_loop_spec in Hl0 as (-> & _ & _ & Hreq & _). by destruct (head _); intros [= _ <-].
Qed.

Lemma put_dial_topics addr n m : known n → mux_topics m → mux_topics (put_dial addr n m).
Proof.
  intros Hn [Hl Hr Ho]. unfold put_dial. destruct (ip_address addr) as [ip|]; [|by split].
  split; [done| |done]. intros ip' n' a. simpl. rewrite nested_lookup_insert.
  destruct (decide ((ip, n) = (ip', n'))) as [[= <- <-]|Hne]; [done|].
  rewrite fn_lookup_insert_ne by done. apply Hr.
Qed.

Lemma next_dial_topics now addr n m : mux_topics m → mux_topics (next_dial now addr n m).2.
Proof.
  intros Hm. pose proof Hm as [Hl Hr Ho]. rewrite next_dial_eq. destruct (ip_address addr) as [ip|]; [|done].
  destruct (dialing _ _ _); [done|]. destruct (nested_lookup _ _) as [a|] eqn:Ha; [|done]. split; simpl.
  - done.
  - intros ip' n' a'. rewrite nested_lookup_remove. destruct (decide ((ip, n) = (ip', n'))) as [[= <- <-]|Hne].
    + by rewrite fn_lookup_insert.
    + rewrite fn_lookup_insert_ne by done. apply Hr.
  - intros ip' n' t. destruct (decide (ip = ip')) as [<-|Hne].
    + rewrite lookup_insert_eq. intros [= <- _]. by eapply Hr.
    + rewrite lookup_insert_ne by done. apply Ho.
Qed.

Lemma prune_topics now m : mux_topics m → mux_topics (mux_prune_expired now m).
Proof.
  intros [Hl Hr Ho]. split; [done|done|]. intros ip n t [Hip _]%map_lookup_filter_Some. by eapply Ho.
Qed.

(** Dialing changes no connection. *)
Lemma link_put_dial addr n m x : link (put_dial addr n m) x = link m x.
Proof. unfold put_dial. by destruct (ip_address addr). Qed.
Lemma link_next_dial now addr n m x : link (next_dial now addr n m).2 x = link m x.
Proof.
  rewrite next_dial_eq. destruct (ip_address addr); [|done]. destruct (dialing _ _ _); [done|].
  by destruct (nested_lookup _ _).
Qed.
End mux_topics.

Section network.
Context `{!MultihashCrate, !Libp2p, !Rand, !RandLaws, !HashOrder PeerId, !HashOrder Multiaddr,
  !HashOrder Protocol, !HashOrder rstring, !Rmp (rstring * Action)}.
Context (prof : Profile).
Implicit Types (self : Network).

(** ** The invariant *)

(** A topic under its name: it has the node's configuration, sent everything it had
    to send, and its views are well-formed. *)
Definition topic_state_ok (c : Config) (n : rstring) (t : TopicInner) : Prop :=
  name (topic_config t) = n ∧ network_config t = c ∧ cmds t = [] ∧ topic_ok t.
Definition joined self (n : rstring) : Prop := is_Some (topics self !! n).

Record net_ok self : Prop := {
  nk_config : config_ok (config self);
  nk_topics : ∀ n t, topics self !! n = Some t → topic_state_ok (config self) n t;
  nk_mux : mux_ok (muxer self);
  nk_names : mux_topics (joined self) (muxer self);
  nk_queue : ∀ a n, Connect a n ∈ commands self → joined self n;
}.

(** What a handler leaves behind: the commands of topics at the end of the channel,
    commands to the runloop, and the same topics. *)
Definition from_topic (c : Command) : Prop := match c with InjectEvent _ => False | _ => True end.
Record extends self self' : Prop := {
  ex_config : config self' = config self;
  ex_joined : ∀ n, joined self' n ↔ joined self n;
  ex_commands : ∃ new, commands self' = commands self ++ new ∧ Forall from_topic new;
  ex_runloop : runloop self `prefix_of` runloop self';
}.

#[export] Instance extends_preorder : PreOrder extends.
Proof.
  split.
  - intros self. split; try done. exists []. by rewrite app_nil_r.
  - intros s1 s2 s3 [C1 J1 (n1 & Q1 & F1) R1] [C2 J2 (n2 & Q2 & F2) R2]. split.
    + congruence.
    + intros n. by rewrite J2, J1.
    + exists (n1 ++ n2). rewrite Q2, Q1, app_assoc. split; [done|]. by apply Forall_app.
    + by etrans.
Qed.

(** What concerns neither topics nor commands. *)
Lemma extends_same self self' :
  config self' = config self → topics self' = topics self → commands self' = commands self →
  runloop self `prefix_of` runloop self' → extends self self'.
Proof.
  intros Hc Ht Hq Hr. split; try done.
  - intros n. unfold joined. by rewrite Ht.
  - exists []. by rewrite app_nil_r.
Qed.

Lemma net_ok_same self self' :
  net_ok self → config self' = config self → topics self' = topics self →
  commands self' = commands self → mux_ok (muxer self') → mux_topics (joined self) (muxer self') →
  net_ok self'.
Proof.
  intros [Hc Ht _ _ Hq] Hce Hte Hqe Hm Hn. split; unfold joined in *; rewrite ?Hce, ?Hte, ?Hqe; try done.
Qed.

Lemma mux_topics_mono (P Q : rstring → Prop) m : (∀ n, P n → Q n) → mux_topics P m → mux_topics Q m.
Proof. intros HPQ [Hl Hr Ho]. split; naive_solver. Qed.

(** ** Events for topics *)

Lemma sync_topic_ok self n t t' :
  net_ok self → topics self !! n = Some t → keeps t t' → owns n t' →
  net_ok (sync_topic n t' self) ∧ extends self (sync_topic n t' self).
Proof.
  intros [Hc Ht Hm Hn Hq] Hnt Hk [Hname Hcmds].
  assert (∀ n', joined (sync_topic n t' self) n' ↔ joined self n') as Hj.
  { intros n'. unfold joined. simpl. destruct (decide (n = n')) as [<-|Hne].
    - rewrite lookup_insert_eq, Hnt. split; by eexists.
    - by rewrite lookup_insert_ne. }
  split; [split|split]; try done.
  - intros n' u. simpl. destruct (decide (n = n')) as [<-|Hne].
    + rewrite lookup_insert_eq. intros [= <-]. destruct (Ht n t Hnt) as (_ & Hcfg & _ & Htop).
      destruct Hk as (_ & Hnc & _ & Hok). split; [done|]. split; [by simpl; rewrite Hnc|].
      split; [done|]. exact (Hok Htop).
    + rewrite lookup_insert_ne by done. apply Ht.
  - eapply mux_topics_mono; [|done]. intros n'. apply Hj.
  - intros a n' [Hin|Hin]%elem_of_app; apply Hj; [by eapply Hq|].
    rewrite Forall_forall in Hcmds. specialize (Hcmds _ Hin). simpl in Hcmds. rewrite Hcmds. by eexists.
  - exists (cmds t'). split; [done|]. eapply Forall_impl; [done|]. by intros [].
Qed.

(** An event of its own reaches a joined topic, and is handled. *)
Lemma topic_event_ok now n e self :
  net_ok self → joined self n →
  match e with MessageReceived _ msg _ => msg_topic msg = n | _ => True end →
  ∃ self', topic_event prof now n e self = Some self' ∧ net_ok self' ∧ extends self self' ∧
    muxer self' = muxer self.
Proof.
  intros Hok [t Ht] Hown. destruct (nk_topics self Hok n t Ht) as (Hname & Hcfg & Hcmds & _).
  destruct (inject_event_runs prof now e t) as (t' & He & Hk & _).
  { rewrite Hcfg. apply Hok. } { destruct e; simpl; by rewrite ?Hname. }
  unfold topic_event. rewrite Ht. simpl. rewrite He. simpl. eexists. split; [done|].
  assert (owns n t') as Hown'.
  { eapply (owns_inject_event prof now n e t); [|done]. split; [done|]. by rewrite Hcmds. }
  by destruct (sync_topic_ok self n t t' Hok Ht Hk Hown').
Qed.

Lemma all_topics_event_ok now e self :
  net_ok self → match e with MessageReceived _ _ _ => False | _ => True end →
  ∃ self', all_topics_event prof now e self = Some self' ∧ net_ok self' ∧ extends self self' ∧
    muxer self' = muxer self.
Proof.
  intros Hok He. unfold all_topics_event.
  assert (∀ n, n ∈ hash_keys (topics self) → joined self n) as Hin.
  { intros n Hn. by apply elem_of_hash_keys, elem_of_dom in Hn. }
  revert Hin. generalize (hash_keys (topics self)) as ns. intros ns. revert self Hok.
  induction ns as [|n ns IH]; intros self Hok Hin; cbn [foldM]; [by exists self|].
  destruct (topic_event_ok now n e self Hok) as (s1 & -> & Hok1 & Hex1 & Hm1).
  { apply Hin. by left. } { by destruct e. }
  destruct (IH s1 Hok1) as (s2 & Hs2 & Hok2 & Hex2 & Hm2).
  { intros n' Hn'. apply Hex1, Hin. by right. }
  exists s2. split; [done|]. split; [done|]. split; [by etrans|congruence].
Qed.

(** ** Connections as the swarm announces them *)

(** The connections announced so far, and those of them that are open. *)
Definition Announced : Type := gset (PeerId * ConnectionId) * gset (PeerId * ConnectionId).

(** The swarm's contract: a connection is established under a new number, and
    messages come from, and ends are reported of, open connections only. *)
Definition announce (g : Announced) (e : BehaviourEvent) : option Announced :=
  let '(used, open) := g in
  match e with
  | NewLocalAddress _ => Some g
  | ConnectionEstablished p _ c =>
      if decide ((peer_id p, c) ∈ used) then None
      else Some ({[(peer_id p, c)]} ∪ used, {[(peer_id p, c)]} ∪ open)
  | ConnectionClosed p c => if decide ((p, c) ∈ open) then Some (used, open ∖ {[(p, c)]}) else None
  | WireMessage p c _ => if decide ((p, c) ∈ open) then Some g else None
  end.

(** The multiplexer knows the open connections, and no connection of the future. *)
Definition linked (g : Announced) (m : Muxer) : Prop :=
  (∀ x, link m x ≠ None → x ∈ g.1) ∧ (∀ x, x ∈ g.2 → link m x ≠ None).

Lemma linked_same g m m' : (∀ x, link m' x = link m x) → linked g m → linked g m'.
Proof. intros Hl [Hu Ho]. split; intros x; rewrite Hl; auto. Qed.

Lemma linked_relinked g m m' x l :
  linked g m → relinked m x (Some l) m' → linked ({[x]} ∪ g.1, {[x]} ∪ g.2) m'.
Proof.
  intros [Hu Ho] [_ Hl]. split; intros y; rewrite Hl; simpl; (destruct (decide (x = y)) as [<-|Hy];
    [rewrite fn_lookup_insert|rewrite fn_lookup_insert_ne by done]); set_solver.
Qed.

(** A connection that is known stays known under another link. *)
Lemma linked_update g m m' x l :
  linked g m → link m x ≠ None → relinked m x (Some l) m' → linked g m'.
Proof.
  intros [Hu Ho] Hx [_ Hl]. split; intros y; rewrite Hl; (destruct (decide (x = y)) as [<-|Hy];
    [rewrite fn_lookup_insert|rewrite fn_lookup_insert_ne by done]); auto.
Qed.

Lemma linked_forget g m m' x l :
  linked g m → relinked m x l m' → (l ≠ None → link m x ≠ None) → linked (g.1, g.2 ∖ {[x]}) m'.
Proof.
  intros [Hu Ho] [_ Hl] Hlx. split; intros y; rewrite Hl; simpl; (destruct (decide (x = y)) as [<-|Hy];
    [rewrite fn_lookup_insert|rewrite fn_lookup_insert_ne by done]); set_solver.
Qed.

(** ** The handlers *)

Lemma send_command_ok c self : net_ok self → net_ok (send_command c self) ∧ extends self (send_command c self).
Proof.
  intros Hok. split; [by apply (net_ok_same self); try done; apply Hok|].
  apply extends_same; try done. by eexists.
Qed.

Lemma with_muxer_ok m self :
  net_ok self → mux_ok m → mux_topics (joined self) m →
  net_ok (with_muxer m self) ∧ extends self (with_muxer m self).
Proof. intros Hok Hm Hn. split; [by apply (net_ok_same self)|by apply extends_same]. Qed.

(** Starting a dial, and telling the runloop which address to connect to. *)
Lemma start_dial_ok now addr n a self :
  net_ok self →
  let '(started, m) := next_dial now addr n (muxer self) in
  let self' := with_muxer m self in
  let self' := if started : bool then send_command (RConnect a) self' else self' in
  net_ok self' ∧ extends self self' ∧ ∀ x, link (muxer self') x = link (muxer self) x.
Proof.
  intros Hok. pose proof (next_dial_ok now addr n _ (nk_mux self Hok)) as Hm.
  pose proof (next_dial_topics (joined self) now addr n _ (nk_names self Hok)) as Hn.
  pose proof (link_next_dial now addr n (muxer self)) as Hl.
  destruct (next_dial now addr n (muxer self)) as [started m]. simpl in *.
  destruct (with_muxer_ok m self Hok Hm Hn) as [Hok1 Hex1]. destruct started; [|done].
  destruct (send_command_ok (RConnect a) _ Hok1) as [Hok2 Hex2]. split; [done|]. split; [by etrans|done].
Qed.

Lemma begin_connect_ok now addr n self :
  net_ok self → joined self n →
  net_ok (begin_connect now addr n self) ∧ extends self (begin_connect now addr n self) ∧
  ∀ x, link (muxer (begin_connect now addr n self)) x = link (muxer self) x.
Proof.
  intros Hok Hj. unfold begin_connect. cbv zeta.
  destruct (with_muxer_ok (put_dial addr n (muxer self)) self Hok) as [Hok1 Hex1].
  { by apply put_dial_ok, Hok. } { by apply put_dial_topics, Hok. }
  pose proof (start_dial_ok now addr n addr _ Hok1) as Hs. destruct (next_dial _ _ _ _) as [started m].
  destruct Hs as (Hok2 & Hex2 & Hl2). split; [done|]. split; [by etrans|].
  intros x. rewrite Hl2. apply link_put_dial.
Qed.

Lemma redial_ok now addrs n self :
  net_ok self → net_ok (redial now addrs n self) ∧ extends self (redial now addrs n self) ∧
  ∀ x, link (muxer (redial now addrs n self)) x = link (muxer self) x.
Proof.
  revert self. induction addrs as [|addr addrs IH]; intros self Hok; simpl; [done|].
  pose proof (start_dial_ok now addr n addr self Hok) as Hs.
  destruct (next_dial _ _ _ _) as [[] m]; [done|]. destruct Hs as (Hok1 & Hex1 & Hl1).
  destruct (IH _ Hok1) as (Hok2 & Hex2 & Hl2). split; [done|]. split; [by etrans|].
  intros x. by rewrite Hl2, Hl1.
Qed.

(** A handler that succeeds from [self], and leaves the connections [g] behind. *)
Definition succeeds (g : Announced) self (o : option Network) : Prop :=
  ∃ self', o = Some self' ∧ net_ok self' ∧ extends self self' ∧ linked g (muxer self').

(** The completion of a dial that is not, or no longer, known. *)
Definition lost_dial (now : Instant) (e : BehaviourEvent) self : bool :=
  match e with
  | ConnectionEstablished p endpoint _ =>
      is_dialer endpoint && bool_decide (dial_of now (muxer self) p = None)
  | _ => false
  end.

Lemma complete_connect_ok now p c endpoint g g' self :
  net_ok self → linked g (muxer self) → announce g (ConnectionEstablished p endpoint c) = Some g' →
  if lost_dial now (ConnectionEstablished p endpoint c) self
  then complete_connect prof now p c endpoint self = None
  else succeeds g' self (complete_connect prof now p c endpoint self).
Proof.
  intros Hok Hg Ha. destruct g as [u o]. simpl in Ha.
  destruct (decide ((peer_id p, c) ∈ u)) as [|Hnew]; [done|]. injection Ha as <-.
  assert (link (muxer self) (peer_id p, c) = None) as Hl.
  { apply dec_stable. intros Hl. apply Hnew. by apply Hg. }
  pose proof Hok as [_ _ Hm Hn _]. unfold lost_dial, complete_connect, succeeds.
  destruct (is_dialer endpoint); cbn [andb]; cycle 1.
  { eexists. split; [done|].
    destruct (with_muxer_ok (register p c (muxer self)) self Hok) as [Hok1 Hex1].
    { by apply relinked_register. } { by apply register_topics. }
    split; [done|]. split; [done|]. eapply (linked_relinked (u, o)); [done|by apply relinked_register]. }
  pose proof (match_dial_topics (joined self) now p c _ Hm Hl Hn) as Hn1.
  destruct (match_dial now p c (muxer self)) as [r m] eqn:Hd.
  destruct (relinked_match_dial now p c _ r m Hm Hl Hd) as (-> & Hr & _). simpl in Hn1.
  destruct (dial_of now (muxer self) p) as [n|] eqn:Hdial; cbn [fmap option_fmap option_map] in Hr.
  2: { by rewrite bool_decide_true. }
  rewrite bool_decide_false by done.
  destruct (with_muxer_ok m self Hok (proj1 Hr) Hn1) as [Hok1 Hex1].
  destruct (redial_ok now (hash_elems (addresses p)) n _ Hok1) as (Hok2 & Hex2 & Hl2).
  destruct (topic_event_ok now n (PeerConnected p c) _ Hok2) as (s3 & Hs3 & Hok3 & Hex3 & Hm3); [|done|].
  { apply (ex_joined _ _ Hex2), (ex_joined _ _ Hex1).
    exact (dial_of_topics (joined self) now _ p n Hn Hdial). }
  exists s3. split; [exact Hs3|]. split; [done|]. split; [exact (transitivity Hex1 (transitivity Hex2 Hex3))|].
  rewrite Hm3. eapply linked_same; [exact Hl2|]. by eapply (linked_relinked (u, o)).
Qed.

Lemma complete_disconnect_ok now p c g g' self :
  net_ok self → linked g (muxer self) → announce g (ConnectionClosed p c) = Some g' →
  succeeds g' self (complete_disconnect prof now p c self).
Proof.
  intros Hok Hg Ha. destruct g as [u o]. simpl in Ha. destruct (decide _) as [Hin|]; [|done].
  injection Ha as <-. unfold complete_disconnect.
  assert (∃ s1, match resolve_topic p c (muxer self) with
      | Some topic => topic_event prof now topic (PeerDisconnected p c) self
      | None => Some self
      end = Some s1 ∧ net_ok s1 ∧ extends self s1 ∧ muxer s1 = muxer self) as (s1 & -> & Hok1 & Hex1 & Hm1).
  { destruct (resolve_topic p c (muxer self)) as [n|] eqn:Hr; [|by exists self].
    apply topic_event_ok; [done| |done]. eapply (mt_links _ _ (nk_names self Hok)).
    by apply link_AssignedTo. }
  pose proof Hok1 as [_ _ Hm Hn _]. cbn [mbind option_bind]. eexists. split; [done|].
  destruct (with_muxer_ok (mux_disconnect p c (muxer s1)) s1 Hok1) as [Hok2 Hex2].
  { by apply relinked_disconnect. } { by apply disconnect_topics. }
  split; [done|]. split; [by etrans|]. simpl. rewrite Hm1 in *.
  eapply (linked_forget (u, o)); [done|by apply relinked_disconnect|].
  destruct (link (muxer self) (p, c)) as [[]|]; naive_solver.
Qed.

Lemma deduplicate_spec now msg self :
  let '(known, msg', self') := deduplicate now msg self in
  msg_topic msg' = msg_topic msg ∧ action msg' = action msg ∧
  (net_ok self → net_ok self') ∧ extends self self' ∧ muxer self' = muxer self.
Proof.
  unfold deduplicate. destruct (history self) as [h|]; [|done].
  unfold message_hash. destruct (get_or_init _ _) as [hash cell]. destruct (es_insert _ _ _) as [known h'].
  split; [done|]. split; [done|]. split; [|split; [by apply extends_same|done]].
  intros Hok. apply (net_ok_same self); try done; apply Hok.
Qed.

(** After [assign] an open connection has a topic. *)
Lemma assign_resolves p c n g (m : Muxer) :
  mux_ok m → linked g m → (p, c) ∈ g.2 →
  let m' := (assign p c n m).2 in
  mux_ok m' ∧ linked g m' ∧ ∃ n', nested_lookup (assigned m') (p, c) = Some n'.
Proof.
  intros Hok Hg Hin. destruct (assign p c n m) as [r m'] eqn:Has. simpl.
  pose proof (relinked_assign p c n m r m' Hok Has) as Hr. destruct r as [b|].
  - destruct Hr as (Hl & _ & Hr). split; [apply Hr|]. split.
    { eapply linked_update; [done| |done]. by rewrite Hl. }
    exists n. apply link_AssignedTo. by rewrite (proj2 Hr), fn_lookup_insert.
  - destruct Hr as [Hl ->]. split; [done|]. split; [done|].
    destruct Hg as [_ Hopen]. specialize (Hopen (p, c) Hin).
    destruct (link m (p, c)) as [[|n']|] eqn:Hlm; [done| |done]. exists n'. by apply link_AssignedTo.
Qed.

Lemma accept_message_ok now p c msg g g' self :
  net_ok self → linked g (muxer self) → announce g (WireMessage p c msg) = Some g' →
  succeeds g' self (accept_message prof now p c msg self).
Proof.
  intros Hok Hg Ha. destruct g as [u o]. simpl in Ha. destruct (decide _) as [Hin|]; [|done].
  injection Ha as <-. unfold accept_message, succeeds.
  destruct (topics self !! msg_topic msg) as [t|] eqn:Ht.
  2: { eexists. split; [done|]. by destruct (send_command_ok (RDisconnect p c) self Hok). }
  pose proof (deduplicate_spec now msg self) as Hded. destruct (deduplicate now msg self) as [[known msg'] s0].
  destruct Hded as (Hmt & _ & Hok0 & Hex0 & Hm0). specialize (Hok0 Hok). rewrite <-Hm0 in Hg.
  destruct known; [by exists s0|].
  assert (joined s0 (msg_topic msg')) as Hj.
  { apply (ex_joined _ _ Hex0). rewrite Hmt. by eexists. }
  pose proof (assign_topics (joined s0) p c _ _ (nk_mux s0 Hok0) Hj (nk_names s0 Hok0)) as Hn1.
  destruct (assign p c (msg_topic msg') (muxer s0)) as [r m] eqn:Has. simpl in Hn1.
  destruct (assign_resolves p c (msg_topic msg') (u, o) _ (nk_mux s0 Hok0) Hg Hin) as (Hm & Hgm & n & Hlm).
  rewrite Has in Hm, Hgm, Hlm. simpl in Hm, Hgm, Hlm.
  destruct (with_muxer_ok m s0 Hok0 Hm Hn1) as [Hok1 Hex1].
  assert (∃ s2, match r with
      | Some peer => topic_event prof now (msg_topic msg') (PeerConnected peer c) (with_muxer m s0)
      | None => Some (with_muxer m s0)
      end = Some s2 ∧ net_ok s2 ∧ extends (with_muxer m s0) s2 ∧ muxer s2 = m)
    as (s2 & -> & Hok2 & Hex2 & Hm2).
  { destruct r as [b|]; [|by eexists]. apply topic_event_ok; try done. }
  cbn [mbind option_bind]. unfold resolve_topic. rewrite Hm2, Hlm.
  cbn [mbind option_bind]. case_bool_decide as Hn.
  - destruct (topic_event_ok now (msg_topic msg') (MessageReceived p msg' c) s2 Hok2)
      as (s3 & -> & Hok3 & Hex3 & Hm3); [by apply (ex_joined _ _ Hex2)|done|].
    exists s3. split; [done|]. split; [done|]. split; [exact (transitivity Hex0 (transitivity Hex1 (transitivity Hex2 Hex3)))|]. by rewrite Hm3, Hm2.
  - destruct (send_command_ok (RBanPeer p) s2 Hok2) as [Hok3 Hex3]. eexists. split; [done|].
    split; [done|]. split; [exact (transitivity Hex0 (transitivity Hex1 (transitivity Hex2 Hex3)))|]. simpl. by rewrite Hm2.
Qed.

Lemma net_inject_event_ok now e g g' self :
  net_ok self → linked g (muxer self) → announce g e = Some g' →
  if lost_dial now e self then net_inject_event prof now e self = None
  else succeeds g' self (net_inject_event prof now e self).
Proof.
  intros Hok Hg Ha. destruct e as [a|p ep c|p c|p c msg].
  - destruct g as [u o]. simpl in *. injection Ha as <-.
    set (s0 := with_this (mkPeer (peer_id (this self)) ({[a]} ∪ addresses (this self))) self).
    assert (net_ok s0) as Hok0 by (by apply (net_ok_same self); try done; apply Hok).
    assert (extends self s0) as Hex0 by by apply extends_same.
    destruct (all_topics_event_ok now (LocalAddressDiscovered a) s0 Hok0 I) as (s1 & Hs1 & Hok1 & Hex1 & Hm1).
    exists s1. split; [exact Hs1|]. split; [done|]. split; [exact (transitivity Hex0 Hex1)|]. by rewrite Hm1.
  - by apply (complete_connect_ok now p c ep g).
  - by apply (complete_disconnect_ok now p c g).
  - by apply (accept_message_ok now p c msg g).
Qed.

(** ** Polling *)

Definition queued_events (q : list Command) : list BehaviourEvent :=
  omap (λ c, match c with InjectEvent e => Some e | _ => None end) q.

(** The network is well-formed, and the announcements [g] are those it has handled
    followed by those in the channel. *)
Definition net_inv (g : Announced) self : Prop :=
  net_ok self ∧ ∃ g0, linked g0 (muxer self) ∧ foldM announce g0 (queued_events (commands self)) = Some g.

Definition lost_dial_next (now : Instant) self : bool :=
  match commands self with InjectEvent e :: _ => lost_dial now e self | _ => false end.

Lemma queued_events_app q new : Forall from_topic new → queued_events (q ++ new) = queued_events q.
Proof.
  intros Hnew. unfold queued_events. rewrite omap_app.
  assert (omap (λ c, match c with InjectEvent e => Some e | _ => None end) new = []) as ->.
  { induction Hnew as [|c new Hc _ IH]; [done|]. by destruct c. }
  by rewrite app_nil_r.
Qed.

Lemma handle_command_ok now c q g g' self :
  net_ok self → commands self = c :: q → linked g (muxer self) →
  match c with InjectEvent e => announce g e = Some g' | _ => g' = g end →
  let self := with_commands q self in
  if match c with InjectEvent e => lost_dial now e self | _ => false end
  then handle_command prof now c self = None else succeeds g' self (handle_command prof now c self).
Proof.
  intros Hok Hq Hg Ha. cbv zeta. assert (net_ok (with_commands q self)) as Hok1.
  { destruct Hok as [Hc Ht Hm Hn Hcmd]. split; try done. intros a n Hin. apply (Hcmd a n). rewrite Hq.
    by right. }
  destruct c as [a n|p c|p c msg|p|e]; [| | | |by apply (net_inject_event_ok now e g)]; subst g';
    (eexists; split; [done|]).
  2-4: by apply and_assoc; split; [by apply send_command_ok|].
  destruct (begin_connect_ok now a n _ Hok1) as (Hok2 & Hex2 & Hl).
  { unfold joined. simpl. apply (nk_queue self Hok a n). rewrite Hq. by left. }
  split; [done|]. split; [done|]. by eapply linked_same.
Qed.

Lemma handle_net_tick_ok now g self :
  net_ok self → linked g (muxer self) → succeeds g self (handle_net_tick prof now self).
Proof.
  intros Hok Hg. unfold handle_net_tick, succeeds.
  destruct (all_topics_event_ok now Tick self Hok I) as (s1 & -> & Hok1 & Hex1 & Hm1). cbn [mbind option_bind].
  destruct (with_muxer_ok (mux_prune_expired now (muxer s1)) s1 Hok1) as [Hok2 Hex2].
  { apply mux_prune_ok, Hok1. } { apply prune_topics, Hok1. }
  set (s2 := with_muxer _ s1) in *. set (s3 := with_history _ s2). rewrite <-Hm1 in Hg.
  assert (net_ok s3) as Hok3 by (by apply (net_ok_same s2); try done; apply Hok2).
  assert (extends self s3) as Hex3.
  { etrans; [exact Hex1|]. etrans; [exact Hex2|]. by apply extends_same. }
  assert (linked g (muxer s3)) as Hg3 by done.
  cbv zeta. destruct (poll_dial (muxer s3)) as [[n a]|]; [|by exists s3].
  pose proof (start_dial_ok now a n a s3 Hok3) as Hs. destruct (next_dial _ _ _ _) as [started m].
  destruct Hs as (Hok4 & Hex4 & Hl4). eexists. split; [done|]. split; [done|].
  split; [exact (transitivity Hex3 Hex4)|]. by eapply linked_same.
Qed.

(** One poll: it fails in one case only, and otherwise takes the first command from
    the channel, or leaves the channel alone at a tick. *)
Lemma poll_next_ok now tick g self :
  net_inv g self →
  if negb tick && lost_dial_next now self then poll_next prof now tick self = None
  else ∃ ready self' new, poll_next prof now tick self = Some (ready, self') ∧ net_inv g self' ∧
    commands self' = (if tick then commands self else tail (commands self)) ++ new ∧
    runloop self `prefix_of` runloop self' ∧ config self' = config self.
Proof.
  intros [Hok (g0 & Hg & Hev)]. unfold poll_next, lost_dial_next. destruct tick; cbn [negb andb].
  - destruct (handle_net_tick_ok now g0 self Hok Hg) as (s1 & -> & Hok1 & [Hc _ (new & Hq & Hnew) Hr] & Hg1).
    eexists _, s1, new. split; [done|]. split; [|done]. split; [done|]. exists g0. split; [done|].
    by rewrite Hq, queued_events_app.
  - destruct (commands self) as [|c q] eqn:Hq; cbn [poll_recv].
    { eexists _, self, []. split; [done|]. rewrite Hq. split; [|done]. split; [done|].
      exists g0. by rewrite Hq. }
    assert (∃ g1, match c with InjectEvent e => announce g0 e = Some g1 | _ => g1 = g0 end ∧
      foldM announce g1 (queued_events q) = Some g) as (g1 & Ha & Hev1).
    { destruct c; try by exists g0. simpl in Hev. by apply bind_Some in Hev. }
    pose proof (handle_command_ok now c q g0 g1 self Hok Hq Hg Ha) as Hh. cbv zeta in Hh.
    change (match c with InjectEvent e => lost_dial now e (with_commands q self) | _ => false end)
      with (match c with InjectEvent e => lost_dial now e self | _ => false end) in Hh.
    destruct (match c with InjectEvent e => lost_dial now e self | _ => false end); [by rewrite Hh|].
    destruct Hh as (s1 & -> & Hok1 & [Hc _ (new & Hq1 & Hnew) Hr] & Hg1). simpl in Hq1.
    eexists _, s1, new. split; [done|]. split; [|done]. split; [done|]. exists g1. split; [done|].
    by rewrite Hq1, queued_events_app.
Qed.

(** ** The network among its topics, users and the swarm *)

(** The network polls, the background runloop reports an event of the swarm, a user
    joins a topic, or gossips on one. *)
Inductive net_step : Announced * Network → Announced * Network → Prop :=
| step_poll g self now tick ready self' :
    poll_next prof now tick self = Some (ready, self') → net_step (g, self) (g, self')
| step_swarm g g' self e :
    announce g e = Some g' → net_step (g, self) (g', with_commands (commands self ++ [InjectEvent e]) self)
| step_join g self now cfg : net_step (g, self) (g, (join now cfg self).2)
| step_gossip g self n data r self' :
    gossip_on n data self = Some (r, self') → net_step (g, self) (g, self').

Definition network_start (cfg : Config) (id : PeerId) : Announced * Network :=
  (∅, ∅, network_new cfg id).

Lemma foldM_snoc {S A} (f : S → A → option S) s l x : foldM f s (l ++ [x]) = s' ← foldM f s l; f s' x.
Proof.
  rewrite foldM_app. destruct (foldM f s l) as [s'|]; [|done]. simpl. by destruct (f s' x).
Qed.

Lemma muxer_new_ok cfg : mux_ok (muxer_new cfg).
Proof.
  split; try apply map_Forall_empty; [|by intros ip n a]. by intros x [t Ht].
Qed.

Lemma net_inv_start cfg id : config_ok cfg → net_inv (∅, ∅) (network_new cfg id).
Proof.
  intros Hc. assert (∀ x, link (muxer_new cfg) x = None) as Hl by done.
  split; [|exists (∅, ∅); split; [split; intros x; set_solver|done]]. split; [done|..].
  - intros n t. simpl. by rewrite lookup_empty.
  - apply muxer_new_ok.
  - split; [by intros x n; rewrite Hl|by intros ip n a|by intros ip n t; simpl; rewrite lookup_empty].
  - by intros a n ?%elem_of_nil.
Qed.

Lemma net_inv_sync g self n t t' :
  net_inv g self → topics self !! n = Some t → keeps t t' → owns n t' → net_inv g (sync_topic n t' self).
Proof.
  intros [Hok (g0 & Hg & Hev)] Ht Hk Hown. destruct (sync_topic_ok self n t t' Hok Ht Hk Hown) as [Hok1 [_ _ (new & Hq & Hnew) _]].
  split; [done|]. exists g0. split; [done|]. by rewrite Hq, queued_events_app.
Qed.

Lemma topic_new_views now tc nc node : views (topic_new now tc nc node) = (tc, nc, node, [], ∅, ∅).
Proof.
  unfold topic_new. cbv zeta. rewrite foldl_views; [done|]. intros s1 x. by destruct (ip_address x).
Qed.

Lemma net_inv_join now cfg g self : net_inv g self → net_inv g (join now cfg self).2.
Proof.
  intros Hinv. unfold join. destruct (topics self !! name cfg) as [|] eqn:Hn; [done|]. simpl.
  destruct Hinv as [[Hc Ht Hm Hnm Hq] (g0 & Hg & Hev)].
  set (t := topic_new now cfg (config self) (this self)).
  destruct (owns_topic_new now (name cfg) cfg (config self) (this self) eq_refl) as [_ Hcmds]. fold t in Hcmds.
  assert (∀ n, joined self n → joined (sync_topic (name cfg) t self) n) as Hj.
  { intros n Hjn. unfold joined. simpl. rewrite lookup_insert_ne; [done|]. intros <-. destruct Hjn. congruence. }
  split; [|exists g0; split; [done|]; simpl; rewrite queued_events_app; [done|]].
  2: { eapply Forall_impl; [exact Hcmds|]. by intros []. }
  split; try done.
  - intros n u. simpl. destruct (decide (name cfg = n)) as [<-|Hne].
    + rewrite lookup_insert_eq. intros [= <-].
      pose proof (topic_new_views now cfg (config self) (this self)) as Hv. unfold views in Hv.
      injection Hv as Htc Hnc Hnode _ Ha Hp. fold t in Htc, Hnc, Hnode, Ha, Hp.
      split; [by simpl; rewrite Htc|]. split; [done|]. split; [done|].
      unfold topic_ok. simpl. rewrite Ha, Hp, map_size_empty. split; [by rewrite dom_empty_L|lia].
    + rewrite lookup_insert_ne by done. apply Ht.
  - by eapply mux_topics_mono.
  - intros a n [Hin|Hin]%elem_of_app; [by eapply Hj, Hq|].
    rewrite Forall_forall in Hcmds. specialize (Hcmds _ Hin). simpl in Hcmds. rewrite Hcmds.
    unfold joined. simpl. rewrite lookup_insert_eq. by eexists.
Qed.

Lemma net_inv_step x y : net_step x y → net_inv x.1 x.2 → net_inv y.1 y.2.
Proof.
  intros Hs. destruct Hs as [g self now tick ready self' Hp|g g' self e He|g self now cfg|g self n data r self' Hg];
    simpl; intros Hinv.
  - pose proof (poll_next_ok now tick g self Hinv) as Hok.
    destruct (negb tick && lost_dial_next now self); [congruence|].
    destruct Hok as (ready1 & s1 & new & Hp1 & Hinv1 & _). congruence.
  - destruct Hinv as [[Hc Ht Hm Hn Hq] (g0 & Hg & Hev)]. split.
    + split; try done. intros a n [Hin|Hin]%elem_of_app; [by eapply Hq|].
      by apply list_elem_of_singleton in Hin.
    + exists g0. split; [done|]. simpl. unfold queued_events. rewrite omap_app. simpl.
      fold (queued_events (commands self)). by rewrite foldM_snoc, Hev.
  - by apply net_inv_join.
  - unfold gossip_on in Hg. destruct (topics self !! n) as [t|] eqn:Ht; [|done]. simpl in Hg.
    destruct (gossip data t) as [r1 t'] eqn:Hgo. injection Hg as <- <-. pose proof Hinv as [Hok _].
    destruct (nk_topics self Hok n t Ht) as (Hname & _ & Hcmds & _).
    apply (net_inv_sync g self n t); [done|done| |].
    + assert (t' = (gossip data t).2) as -> by by rewrite Hgo. apply keeps_views. unfold gossip.
      destruct (_ <? _)%nat; [done|]. case_bool_decide; [done|]. apply views_send_to_active.
    + assert (t' = (gossip data t).2) as -> by by rewrite Hgo. apply owns_gossip. split; [done|]. by rewrite Hcmds.
Qed.

Lemma net_inv_reachable cfg id g self :
  config_ok cfg → rtc net_step (network_start cfg id) (g, self) → net_inv g self.
Proof.
  intros Hc Hr. change (net_inv (g, self).1 (g, self).2).
  assert (net_inv (network_start cfg id).1 (network_start cfg id).2) as Hstart by by apply net_inv_start.
  revert Hstart. induction Hr as [|x y z Hxy _ IH]; [done|]. intros Hx. apply IH.
  by eapply net_inv_step.
Qed.

(** C16: the network object survives whatever its topics, its users and the swarm
    do, but for one race.  In every reachable state all topics have the
    node's configuration and well-formed views, the multiplexer is well-formed, and
    a connection that the swarm reports open, with nothing in the channel left to
    handle, is known to the multiplexer.  So a message is always resolved to a
    joined topic, and [poll_next] panics exactly when the next command completes a
    dial of this node of which no record is left, because it expired while the dial
    was under way. *)
Theorem network_survives cfg id g self now tick :
  config_ok cfg → rtc net_step (network_start cfg id) (g, self) →
  (poll_next prof now tick self = None ↔ tick = false ∧ ∃ p endpoint c q,
    commands self = InjectEvent (ConnectionEstablished p endpoint c) :: q ∧
    is_dialer endpoint = true ∧ dial_of now (muxer self) p = None) ∧
  (∀ n t, topics self !! n = Some t → topic_state_ok (config self) n t) ∧
  mux_ok (muxer self) ∧
  (queued_events (commands self) = [] → ∀ x, x ∈ g.2 → link (muxer self) x ≠ None).
Proof.
  intros Hc Hr. pose proof (net_inv_reachable cfg id g self Hc Hr) as Hinv.
  pose proof (poll_next_ok now tick g self Hinv) as Hp. split; [|destruct Hinv as [Hok (g0 & Hg & Hev)]; split; [apply Hok|]].
  - split.
    + intros Hnone. destruct (negb tick && lost_dial_next now self) eqn:Hl.
      2: { destruct Hp as (? & ? & ? & Hp & _). congruence. }
      apply andb_true_iff in Hl as [Ht Hl]. split; [by destruct tick|]. unfold lost_dial_next in Hl.
      destruct (commands self) as [|[| | | |[|p ep c| |]] q]; try done.
      apply andb_true_iff in Hl as [Hd Hl]. exists p, ep, c, q. by apply bool_decide_eq_true in Hl.
    + intros (-> & p & ep & c & q & Hq & Hd & Hno).
      unfold lost_dial_next in Hp. rewrite Hq in Hp. simpl in Hp. by rewrite Hd, bool_decide_true in Hp.
  - split; [apply Hok|]. intros Hnil. rewrite Hnil in Hev. injection Hev as <-. apply Hg.
Qed.

(** ** Commands are carried out *)

(** What the background runloop is told for a command. *)
Definition runloop_command (c : Command) : option RunloopCommand :=
  match c with
  | Disconnect p conn => Some (RDisconnect p conn)
  | SendMessage p conn msg => Some (RSendMessage p conn msg)
  | BanPeer p => Some (RBanPeer p)
  | Connect _ _ | InjectEvent _ => None
  end.
(** A command that cannot complete a dial. *)
Definition no_dial (c : Command) : Prop :=
  match c with InjectEvent (ConnectionEstablished _ endpoint _) => is_dialer endpoint = false | _ => True end.
(** The loop of [Network::runloop] for a while: when it polled, and whether the
    interval was ready. *)
Definition poll_for (self : Network) (polls : list (Instant * bool)) : option Network :=
  foldM (λ s '(now, tick), '(_, s) ← poll_next prof now tick s; Some s) self polls.
Definition turns (polls : list (Instant * bool)) : nat := length (filter (λ p, p.2 = false) polls).

Lemma no_dial_next now c self : no_dial c → head (commands self) = Some c → lost_dial_next now self = false.
Proof.
  intros Hc Hq. unfold lost_dial_next. destruct (commands self) as [|c' q]; [done|].
  injection Hq as ->. destruct c as [| | | |[|p ep conn| |]]; try done. simpl in *. by rewrite Hc.
Qed.

Lemma poll_sends now c q r self self' ready :
  commands self = c :: q → runloop_command c = Some r → poll_next prof now false self = Some (ready, self') →
  r ∈ runloop self'.
Proof.
  intros Hq Hr. unfold poll_next. rewrite Hq. simpl.
  destruct c; simpl in *; try done; intros [= <- <-]; injection Hr as <-; simpl;
    apply elem_of_app; right; by apply list_elem_of_singleton.
Qed.

End network.
