(* ===== verification/NetworkSpec.v ===== *)
(** What single operations of the network object do, over the definitions of
    [Network], and examples of its runs. *)
From stdpp Require Import functions.
From S2P Require Import Prelude Extern Chain Sandbox Cache Wire Behaviour Muxer Topic TopicProps TopicCommands Network NetworkProps.

Section network.
Context `{!MultihashCrate, !Libp2p, !Rand, !HashOrder PeerId, !HashOrder Multiaddr,
  !HashOrder Protocol, !HashOrder rstring, !Rmp (rstring * Action)}.
Context (prof : Profile).
Implicit Types (self : Network).

(** An event for a topic changes the topics and the channel only. *)
Lemma topic_event_rest now n e self self' :
  topic_event prof now n e self = Some self' →
  muxer self' = muxer self ∧ history self' = history self ∧ runloop self' = runloop self ∧
  (∀ n', joined self n' → joined self' n').
Proof.
  unfold topic_event. intros (t & Ht & (t' & _ & [= <-])%bind_Some)%bind_Some.
  split; [done|]. split; [done|]. split; [done|]. intros n'. unfold joined. simpl.
  destruct (decide (n = n')) as [<-|Hne]; [rewrite lookup_insert_eq; by eexists|by rewrite lookup_insert_ne].
Qed.

(** ** Messages *)

(** The hash under which a message is remembered. *)
Definition hash_of (msg : Message) : Multihash := (message_hash msg).1.
Definition seen (now : Instant) (msg : Message) self : bool :=
  match history self with Some h => es_contains now h (hash_of msg) | None => false end.
(** The network and the message after the lookup in the history. *)
Definition noted (now : Instant) (msg : Message) self : Network :=
  match history self with
  | Some h => with_history (Some (es_insert now h (hash_of msg)).2) self
  | None => self
  end.
Definition hashed (msg : Message) self : Message :=
  match history self with Some _ => (message_hash msg).2 | None => msg end.

Lemma deduplicate_eq now msg self :
  deduplicate now msg self = (seen now msg self, hashed msg self, noted now msg self).
Proof.
  unfold deduplicate, seen, hashed, noted, hash_of. destruct (history self) as [h|]; [|done].
  by destruct (message_hash msg) as [hash msg'].
Qed.

Lemma noted_rest now msg self :
  topics (noted now msg self) = topics self ∧ muxer (noted now msg self) = muxer self ∧
  runloop (noted now msg self) = runloop self ∧ commands (noted now msg self) = commands self.
Proof. unfold noted. by destruct (history self). Qed.

Lemma hashed_same msg self : msg_topic (hashed msg self) = msg_topic msg ∧ action (hashed msg self) = action msg.
Proof. unfold hashed, message_hash. destruct (history self); [|done]. by destruct (get_or_init _ _). Qed.

(** What becomes of a message.  On an unknown topic its sender is disconnected.
    If a message of the same content came within the window, it is dropped, even
    if it is the first on its connection.  Otherwise it is delivered to its topic
    if the connection belongs to the topic; its sender is banned if the connection
    belongs to another one; and if the connection has not shown its topic yet, it
    is given to the topic of the message, which hears of the peer before it gets
    the message.  Only a connection nobody registered makes the code panic. *)
Theorem accept_message_spec now p c msg self :
  mux_ok (muxer self) →
  let n := msg_topic msg in
  let s0 := noted now msg self in
  let deliver s := topic_event prof now n (MessageReceived p (hashed msg self) c) s in
  accept_message prof now p c msg self =
    if bool_decide (¬ joined self n) then Some (send_command (RDisconnect p c) self)
    else if seen now msg self then Some s0
    else match link (muxer self) (p, c) with
    | Some (AssignedTo n') => if bool_decide (n' = n) then deliver s0 else Some (ban_peer p s0)
    | Some Unassigned =>
        '(a, m) ← (let '(a, m) := assign p c n (muxer self) in a ← a; Some (a, m));
        topic_event prof now n (PeerConnected a c) (with_muxer m s0) ≫= deliver
    | None => None
    end.
Proof.
  intros Hok. cbv zeta. unfold accept_message, joined.
  destruct (topics self !! msg_topic msg) as [t|] eqn:Ht; cycle 1.
  { rewrite bool_decide_true; [done|]. by intros [? ?]. }
  rewrite bool_decide_false by (intros []; by eexists). rewrite deduplicate_eq.
  destruct (seen now msg self); [done|]. destruct (hashed_same msg self) as [-> _].
  destruct (noted_rest now msg self) as (_ & Hm & _). rewrite Hm.
  destruct (assign p c (msg_topic msg) (muxer self)) as [r m] eqn:Ha.
  pose proof (relinked_assign p c _ _ r m Hok Ha) as Hr. destruct r as [a|]; simpl.
  - destruct Hr as (-> & _ & _ & Hl).
    destruct (topic_event prof now (msg_topic msg) (PeerConnected a c) _) as [s1|] eqn:He; [|done]. simpl.
    destruct (topic_event_rest _ _ _ _ _ He) as (Hm1 & _). rewrite Hm1. simpl.
    specialize (Hl (p, c)). rewrite fn_lookup_insert in Hl. apply link_AssignedTo in Hl.
    unfold resolve_topic. rewrite Hl. simpl. by rewrite bool_decide_true.
  - destruct Hr as [Hl ->]. unfold resolve_topic.
    destruct (nested_lookup (assigned (muxer self)) (p, c)) as [n'|] eqn:Hn.
    + rewrite (proj2 (link_AssignedTo _ _ n')) by done. simpl. case_bool_decide; [|by rewrite <-Hm].
      rewrite <-Hm. by destruct (noted now msg self).
    + destruct (link (muxer self) (p, c)) as [[|n']|] eqn:Hlk; [done| |done].
      apply link_AssignedTo in Hlk. congruence.
Qed.

Lemma accept_history now p c msg self s1 :
  joined self (msg_topic msg) → accept_message prof now p c msg self = Some s1 →
  history s1 = history (noted now msg self) ∧ joined s1 (msg_topic msg).
Proof.
  intros Hj. unfold accept_message. pose proof Hj as [t ->]. rewrite deduplicate_eq.
  destruct (hashed_same msg self) as [-> _]. destruct (noted_rest now msg self) as (Ht & _).
  assert (joined (noted now msg self) (msg_topic msg)) as Hj0 by (unfold joined; by rewrite Ht).
  destruct (seen now msg self); [by intros [= <-]|].
  destruct (assign p c (msg_topic msg) _) as [r m]. intros (s2 & Hs2 & Hs1)%bind_Some.
  assert (history s2 = history (noted now msg self) ∧ joined s2 (msg_topic msg)) as [Hh Hj2].
  { destruct r as [a|]; [|by injection Hs2 as <-].
    apply topic_event_rest in Hs2 as (_ & Hh & _ & Hj2). split; [done|]. by apply Hj2. }
  apply bind_Some in Hs1 as (n & _ & Hs1). case_bool_decide.
  - apply topic_event_rest in Hs1 as (_ & Hh1 & _ & Hj1). split; [congruence|auto].
  - by injection Hs1 as <-.
Qed.

(** Gossip is delivered once per window.  If a gossip message was accepted on a
    topic and the node remembers messages, then a message of the same content that
    comes within the window - from whichever peer, on whichever connection -
    changes nothing but the time until which it is remembered.  (The other messages
    carry hash sets, which are serialised in an order of their own, so that the same
    content need not have the same hash.) *)
Theorem duplicate_dropped now now' p p' c c' msg msg' self s1 h data :
  joined self (msg_topic msg) → history self = Some h →
  accept_message prof now p c msg self = Some s1 →
  msg_topic msg' = msg_topic msg → action msg = AGossip data → action msg' = AGossip data →
  hash_cache msg = None → hash_cache msg' = None → (now ≤ now' ≤ now + lifespan h)%Z →
  accept_message prof now' p' c' msg' s1 = Some (noted now' msg' s1) ∧
  topics (noted now' msg' s1) = topics s1 ∧ muxer (noted now' msg' s1) = muxer s1 ∧
  runloop (noted now' msg' s1) = runloop s1 ∧ commands (noted now' msg' s1) = commands s1.
Proof.
  intros Hj Hh Ha Ht Hac Hac' Hc Hc' Hnow. split; [|apply noted_rest].
  destruct (accept_history now p c msg self s1 Hj Ha) as [Hh1 [t Ht1]].
  unfold accept_message. rewrite Ht, Ht1, deduplicate_eq.
  assert (hash_of msg' = hash_of msg) as Hhash.
  { unfold hash_of, message_hash. by rewrite Hc, Hc', Ht, Hac, Hac'. }
  assert (seen now' msg' s1 = true) as ->; [|done].
  unfold seen. rewrite Hh1. unfold noted. rewrite Hh. simpl. apply bool_decide_eq_true.
  exists tt. apply em_get_Some. exists now. rewrite Hhash. simpl. split; [apply lookup_insert_eq|].
  unfold elapsed. lia.
Qed.

(** ** Dials *)

(** A dial that a topic asks for.  Nothing happens for an address that does not
    begin with an IP address, such as a DNS name.  If the IP address is being
    dialed the request waits; otherwise the dial is under way for the topic and the
    runloop is told the address. *)
Theorem begin_connect_spec now addr n self :
  (0 ≤ lifespan (ongoing_dials (muxer self)))%Z →
  let self' := begin_connect now addr n self in
  match ip_address addr with
  | None => self' = self
  | Some ip =>
      runloop self' = runloop self ++ (if dialing now (muxer self) addr then [] else [RConnect addr]) ∧
      nested_lookup (requested_dials (muxer self')) (ip, n) =
        (if dialing now (muxer self) addr then Some addr else None) ∧
      dialing now (muxer self') addr =
        (if dialing now (muxer self) addr then dialing now (muxer self) addr else Some n)
  end.
Proof.
  intros Hl. unfold begin_connect, put_dial. cbv zeta.
  destruct (ip_address addr) as [ip|] eqn:Hip.
  2: { rewrite next_dial_eq, Hip. by destruct self as [? ? ? ? ? [] ?]. }
  rewrite next_dial_eq, Hip. unfold dialing. rewrite Hip. simpl.
  destruct (em_get now (ongoing_dials (muxer self)) ip) as [t|] eqn:Ht; simpl.
  - rewrite app_nil_r, nested_lookup_insert, fn_lookup_insert. done.
  - rewrite nested_lookup_insert, fn_lookup_insert. simpl. split; [done|].
    rewrite nested_lookup_remove, fn_lookup_insert. split; [done|].
    apply em_get_Some. exists now. simpl. split; [apply lookup_insert_eq|]. unfold elapsed. lia.
Qed.

(** A dial that completes.  The connection is given to the topic that dialed the
    address, and the topic hears of the peer.  If that topic has a further request
    for the same IP address, the request is dropped and the address dialed is that
    of the peer just connected, and not the address [b] of the request. *)
Theorem complete_connect_spec now p c endpoint a ip n self :
  mux_ok (muxer self) → link (muxer self) (peer_id p, c) = None → is_dialer endpoint = true →
  (0 ≤ lifespan (ongoing_dials (muxer self)))%Z → addresses p = {[a]} →
  ip_address a = Some ip → dialing now (muxer self) a = Some n →
  ∃ m, complete_connect prof now p c endpoint self =
      topic_event prof now n (PeerConnected p c)
        (foldl (λ s r, send_command r s) (with_muxer m self)
          (if nested_lookup (requested_dials (muxer self)) (ip, n) is Some b then [RConnect a] else [])) ∧
    link m (peer_id p, c) = Some (AssignedTo n) ∧
    nested_lookup (requested_dials m) (ip, n) = None ∧
    dialing now m a = if nested_lookup (requested_dials (muxer self)) (ip, n) then Some n else None.
Proof.
  intros Hok Hl Hd Hlife Hp Hip Hdial. unfold complete_connect. rewrite Hd, Hp.
  assert (hash_elems ({[a]} : gset Multiaddr) = [a]) as Helems.
  { apply Permutation_singleton_r. by rewrite hash_elems_perm, elements_singleton. }
  unfold match_dial. rewrite Hp, Helems. simpl. rewrite Hip. unfold dialing in Hdial. rewrite Hip in Hdial.
  simpl in Hdial. fold (em_get now (ongoing_dials (muxer self)) ip). rewrite Hdial. simpl.
  rewrite next_dial_eq, Hip. unfold dialing. rewrite Hip. simpl. unfold em_get at 1. simpl.
  rewrite lookup_delete_eq. simpl.
  destruct (nested_lookup (requested_dials (muxer self)) (ip, n)) as [b|] eqn:Hb.
  - eexists. split; [reflexivity|]. rewrite link_AssignedTo. simpl.
    rewrite nested_lookup_insert, nested_lookup_remove, !fn_lookup_insert. split; [done|]. split; [done|].
    apply em_get_Some. exists now. simpl. split; [apply lookup_insert_eq|]. unfold elapsed. lia.
  - eexists. split; [reflexivity|]. rewrite link_AssignedTo. simpl.
    rewrite nested_lookup_insert, fn_lookup_insert. split; [done|]. split; [done|].
    unfold em_get. simpl. by rewrite lookup_delete_eq.
Qed.
End network.

(** ** A node with one topic, to which peers connect *)

Notation state := (Announced * Network)%type.
Definition node0 : state := network_start (config_default []) (peer 0).
Definition do_join (s : state) : state := (s.1, (join 0 example_topic s.2).2).
Definition do_event (e : BehaviourEvent) (s : state) : state :=
  (default s.1 (announce s.1 e), with_commands (commands s.2 ++ [InjectEvent e]) s.2).
Definition do_poll (now : Instant) (s : state) : state :=
  (s.1, if poll_next Debug now false s.2 is Some (_, self) then self else s.2).

Lemma do_join_step s : net_step Debug s (do_join s).
Proof. destruct s as [g self]. apply (step_join Debug g self 0 example_topic). Qed.
Lemma do_event_step e s : bool_decide (is_Some (announce s.1 e)) = true → net_step Debug s (do_event e s).
Proof.
  destruct s as [g self]. intros [g' Hg]%bool_decide_eq_true. unfold do_event. simpl in *. rewrite Hg.
  by apply step_swarm.
Qed.
Lemma do_poll_step now s :
  match poll_next Debug now false s.2 with Some _ => true | None => false end = true →
  net_step Debug s (do_poll now s).
Proof.
  destruct s as [g self]. unfold do_poll. cbn [fst snd]. destruct (poll_next Debug now false self) as [[r self']|] eqn:Hp; [|done].
  intros _. by apply (step_poll Debug g self now false r).
Qed.

(** Peer 1 connects and joins in the name of another peer, and the node learns one of
    its addresses. *)
Definition hello1 : BehaviourEvent := ConnectionEstablished (example_node 1) (false, 1%N) (conn 1).
Definition forged : Message := message_new (str "txs") (AJoin (mkJoin (example_node 5))).
Definition node1 : state :=
  do_poll 3 (do_event (NewLocalAddress (maddr 8)) (do_poll 2 (do_poll 1
    (do_event (WireMessage (peer 1) (conn 1) forged) (do_event hello1 (do_join node0)))))).
(** A dial completes that the node knows nothing of. *)
Definition node2 : state :=
  do_poll 1 (do_event (ConnectionEstablished (example_node 9) (true, 9%N) (conn 1)) (do_join node0)).

Lemma node1_reachable : rtc (net_step Debug) node0 (node1.1, node1.2).
Proof.
  rewrite <-surjective_pairing.
  eapply rtc_l; [apply do_join_step|]. eapply rtc_l; [by apply (do_event_step hello1)|].
  eapply rtc_l; [by apply (do_event_step (WireMessage (peer 1) (conn 1) forged))|].
  eapply rtc_l; [apply (do_poll_step 1); by vm_compute|].
  eapply rtc_l; [apply (do_poll_step 2); by vm_compute|].
  eapply rtc_l; [by apply (do_event_step (NewLocalAddress (maddr 8)))|].
  eapply rtc_l; [apply (do_poll_step 3); by vm_compute|]. apply rtc_refl.
Qed.

Lemma node2_reachable : rtc (net_step Debug) node0 (node2.1, node2.2).
Proof.
  rewrite <-surjective_pairing.
  eapply rtc_l; [apply do_join_step|].
  eapply rtc_l; [by apply (do_event_step (ConnectionEstablished (example_node 9) (true, 9%N) (conn 1)))|].
  eapply rtc_l; [apply (do_poll_step 1); by vm_compute|]. apply rtc_refl.
Qed.

Lemma network_survives_witness : poll_next Debug 2 false node2.2 = None.
Proof.
  apply (network_survives Debug (config_default []) (peer 0) node2.1 node2.2 2 false default_config_ok).
  - exact node2_reachable.
  - split; [reflexivity|]. exists (example_node 9), (true, 9%N), (conn 1), [].
    split; [vm_compute; reflexivity|]. split; [reflexivity|]. vm_compute. reflexivity.
Defined.


(** Peer 1 is connected; the bootstrap node is being dialed. *)
Definition node3 : state := do_poll 2 (do_poll 1 (do_event hello1 (do_join node0))).
Definition self3 : Network := node3.2.
Definition news : Message := message_new (str "txs") (AGossip (bstr "x")).

Lemma node3_reachable : rtc (net_step Debug) node0 (node3.1, node3.2).
Proof.
  rewrite <-surjective_pairing.
  eapply rtc_l; [apply do_join_step|]. eapply rtc_l; [by apply (do_event_step hello1)|].
  eapply rtc_l; [apply (do_poll_step 1); by vm_compute|].
  eapply rtc_l; [apply (do_poll_step 2); by vm_compute|]. apply rtc_refl.
Qed.

Lemma self3_ok : net_ok self3.
Proof. by destruct (net_inv_reachable Debug _ _ _ _ default_config_ok node3_reachable). Qed.

Lemma self3_joined : joined self3 (str "txs").
Proof.
  assert (bool_decide (is_Some (topics self3 !! str "txs")) = true) as Hj by (vm_compute; reflexivity).
  exact (bool_decide_eq_true_1 _ Hj).
Qed.
Lemma self3_history : history self3 = Some (es_new (5 * 10 ^ 9)%Z).
Proof. reflexivity. Qed.

(** A first message on an unknown topic, and one on an unknown connection. *)
Lemma accept_message_spec_witness :
  accept_message Debug 3 (peer 1) (conn 1) (message_new (str "y") (AGossip [])) self3 =
    Some (send_command (RDisconnect (peer 1) (conn 1)) self3) ∧
  accept_message Debug 3 (peer 1) (conn 2) news self3 = None.
Proof.
  split.
  - rewrite (accept_message_spec Debug 3 (peer 1) (conn 1) _ self3 (nk_mux _ self3_ok)).
    rewrite bool_decide_true; [reflexivity|].
    assert (bool_decide (¬ is_Some (topics self3 !! str "y")) = true) as Hj by (vm_compute; reflexivity).
    exact (bool_decide_eq_true_1 _ Hj).
  - rewrite (accept_message_spec Debug 3 (peer 1) (conn 2) _ self3 (nk_mux _ self3_ok)).
    vm_compute. reflexivity.
Defined.

Lemma duplicate_dropped_witness :
  ∃ s1, accept_message Debug 3 (peer 1) (conn 1) news self3 = Some s1 ∧
    accept_message Debug 100 (peer 2) (conn 7) news s1 = Some (noted 100 news s1).
Proof.
  assert (match accept_message Debug 3 (peer 1) (conn 1) news self3 with Some _ => true | None => false end
    = true) as Hsome by (vm_compute; reflexivity).
  destruct (accept_message Debug 3 (peer 1) (conn 1) news self3) as [s1|] eqn:Ha; [|discriminate Hsome].
  exists s1. split; [reflexivity|].
  destruct (duplicate_dropped Debug 3 100 (peer 1) (peer 2) (conn 1) (conn 7) news news self3 s1
    (es_new (5 * 10 ^ 9)%Z) (bstr "x")) as [Hd _]; [..|exact Hd].
  - exact self3_joined.
  - exact self3_history.
  - exact Ha.
  - reflexivity.
  - reflexivity.
  - reflexivity.
  - reflexivity.
  - reflexivity.
  - split; vm_compute; discriminate.
Defined.

Lemma begin_connect_spec_witness :
  runloop (begin_connect 3 (maddr 9) (str "txs") self3) = runloop self3 ++ [RConnect (maddr 9)].
Proof.
  destruct (begin_connect_spec 3 (maddr 9) (str "txs") self3) as [Hr _]; [vm_compute; discriminate|].
  rewrite Hr. vm_compute. reflexivity.
Defined.

(** While the bootstrap node is dialed, another dial to its IP address waits. *)
Definition self4 : Network := begin_connect 3 (maddr 7) (str "txs") self3.

Lemma complete_connect_spec_witness :
  ∃ m, complete_connect Debug 4 (mkPeer (peer 7) {[maddr 7]}) (conn 2) (true, 7%N) self4 =
      topic_event Debug 4 (str "txs") (PeerConnected (mkPeer (peer 7) {[maddr 7]}) (conn 2))
        (send_command (RConnect (maddr 7)) (with_muxer m self4)).
Proof.
  destruct (complete_connect_spec Debug 4 (mkPeer (peer 7) {[maddr 7]}) (conn 2) (true, 7%N) (maddr 7)
    (Ip4 7) (str "txs") self4) as (m & Hm & _).
  - apply (begin_connect_ok 3 (maddr 7) (str "txs") self3 self3_ok). exact self3_joined.
  - vm_compute. reflexivity.
  - reflexivity.
  - vm_compute. discriminate.
  - reflexivity.
  - reflexivity.
  - vm_compute. reflexivity.
  - exists m. exact Hm.
Defined.
