(* ===== verification/Codec.v ===== *)
(** The codec of the wire: [network/src/codec.rs] and the errors of
    [network/src/upgrade.rs].

    A message travels as its MessagePack bytes behind a varint of their length.  The
    length prefix is that of the crate unsigned-varint: an interface here, with what
    its documentation promises as laws. *)
From S2P Require Import Prelude Extern Chain Sandbox Cache Wire.

(** [std::io::ErrorKind], as far as the code tells kinds apart. *)
Inductive ErrorKind := PermissionDenied | BrokenPipe | OtherKind.

(** [upgrade::Error] *)
Inductive UpgradeError :=
| MaxTransmissionSizeExceeded
| IoError (kind : ErrorKind)
| SerializationError
| DeserializationError.

(** [unsigned_varint::codec::UviBytes]: encoding appends a frame to a buffer, and
    fails only if the item is too long; decoding takes a frame from the front of
    a buffer, if there is a whole one. *)
Class UviCrate := {
  UviBytes : Type;
  uvi_with_max_len : nat → UviBytes;
  uvi_encode : UviBytes → bytes → bytes → option bytes;
  uvi_decode : UviBytes → bytes → Result (option bytes) ErrorKind * (UviBytes * bytes);
}.
Class UviLaws `{!UviCrate} := {
  uvi_frame : bytes → bytes;
  uvi_frame_nonempty : ∀ b, uvi_frame b ≠ [];
  uvi_encode_spec : ∀ max b dst, uvi_encode (uvi_with_max_len max) b dst =
    if (length b <=? max)%nat then Some (dst ++ uvi_frame b) else None;
  uvi_decode_frame : ∀ max b rest, length b ≤ max →
    uvi_decode (uvi_with_max_len max) (uvi_frame b ++ rest) = (Ok (Some b), (uvi_with_max_len max, rest));
  uvi_decode_too_long : ∀ max b rest, max < length b →
    (uvi_decode (uvi_with_max_len max) (uvi_frame b ++ rest)).1 = Err PermissionDenied;
  (** A part of a frame is kept, and decoding goes on when more has arrived. *)
  uvi_decode_partial : ∀ max b p q, uvi_frame b = p ++ q → q ≠ [] → length b ≤ max →
    ∃ u buf, uvi_decode (uvi_with_max_len max) p = (Ok None, (u, buf)) ∧
      ∀ more, uvi_decode u (buf ++ more) = uvi_decode (uvi_with_max_len max) (p ++ more);
}.

Section codec.
Context `{!MultihashCrate, !Libp2p, !Rmp (rstring * Action), !UviCrate}.

(** [pub struct Codec], [Codec::new] *)
Record Codec := mkCodec { length_prefix : UviBytes }.
Definition codec_new (max_message_len : nat) : Codec := mkCodec (uvi_with_max_len max_message_len).

(** What serde derives for a message: the cell of the hash is skipped. *)
Definition message_to_vec (m : Message) : bytes := to_vec (msg_topic m, action m).
Definition message_from_slice (b : bytes) : option Message :=
  '(topic, action) ← from_slice b; Some (message_new topic action).

(** [<Codec as Encoder>::encode] *)
Definition encode (self : Codec) (item : Message) (dst : bytes) : Result bytes UpgradeError :=
  ok_or (uvi_encode (length_prefix self) (message_to_vec item) dst) MaxTransmissionSizeExceeded.

(** [<Codec as Decoder>::decode] *)
Definition decode_error (e : ErrorKind) : UpgradeError :=
  match e with
  | PermissionDenied => MaxTransmissionSizeExceeded
  | _ => IoError e
  end.
Definition decode (self : Codec) (src : bytes) :
    Result (option Message) UpgradeError * (Codec * bytes) :=
  let '(packet, (u, src)) := uvi_decode (length_prefix self) src in
  (match map_err decode_error packet with
   | Ok (Some p) =>
       match message_from_slice p with
       | Some m => Ok (Some m)
       | None => Err DeserializationError
       end
   | Ok None => Ok None
   | Err e => Err e
   end, (mkCodec u, src)).

(** Messages encoded one after the other into a buffer. *)
Fixpoint encode_all (self : Codec) (items : list Message) (dst : bytes) : Result bytes UpgradeError :=
  match items with
  | [] => Ok dst
  | item :: items => result_bind (encode self item dst) (encode_all self items)
  end.

(** What the reader of a stream does: it decodes until no whole frame is left, and
    again when a chunk of bytes has arrived. *)
Fixpoint decode_all (fuel : nat) (self : Codec) (src : bytes) :
    list (Result Message UpgradeError) * (Codec * bytes) :=
  match fuel with
  | 0 => ([], (self, src))
  | S fuel =>
      match decode self src with
      | (Ok (Some m), (self, src)) =>
          let '(ms, st) := decode_all fuel self src in (Ok m :: ms, st)
      | (Ok None, st) => ([], st)
      | (Err e, st) => ([Err e], st)
      end
  end.
Fixpoint read_chunks (st : Codec * bytes) (chunks : list bytes) : list (Result Message UpgradeError) :=
  match chunks with
  | [] => []
  | chunk :: chunks =>
      let src := st.2 ++ chunk in
      let '(ms, st) := decode_all (S (length src)) st.1 src in ms ++ read_chunks st chunks
  end.
End codec.

Section properties.
Context `{!MultihashCrate, !Libp2p, !Rmp (rstring * Action), !UviCrate, !UviLaws}.

(** The frame of a message, and whether it may be sent. *)
Definition frame_of (m : Message) : bytes := uvi_frame (message_to_vec m).
Definition fits (max : nat) (m : Message) : bool := (length (message_to_vec m) <=? max)%nat.
(** The message as it arrives: with an empty cell. *)
Definition arrived (m : Message) : Message := message_new (msg_topic m) (action m).

Lemma encode_spec max m dst :
  encode (codec_new max) m dst =
    if fits max m then Ok (dst ++ frame_of m) else Err MaxTransmissionSizeExceeded.
Proof. unfold encode, fits. simpl. rewrite uvi_encode_spec. by destruct (_ <=? _)%nat. Qed.

Lemma encode_all_spec max ms dst :
  forallb (fits max) ms = true → encode_all (codec_new max) ms dst = Ok (dst ++ concat (frame_of <$> ms)).
Proof.
  revert dst. induction ms as [|m ms IH]; intros dst Hms; simpl; [by rewrite app_nil_r|].
  apply andb_true_iff in Hms as [Hm Hms]. rewrite encode_spec, Hm. simpl. by rewrite IH, <-app_assoc.
Qed.

Context `{!RmpLaws (rstring * Action)}.

Lemma decode_frame max m rest :
  fits max m = true →
  decode (codec_new max) (frame_of m ++ rest) = (Ok (Some (arrived m)), (codec_new max, rest)).
Proof.
  intros Hm%Nat.leb_le. unfold decode, frame_of. simpl. rewrite uvi_decode_frame by done. simpl.
  unfold message_from_slice, message_to_vec. by rewrite from_slice_to_vec.
Qed.

(** A reader that holds the bytes [p] of an unfinished frame. *)
Definition holds (max : nat) (st : Codec * bytes) (p : bytes) : Prop :=
  ∀ more, decode st.1 (st.2 ++ more) = decode (codec_new max) (p ++ more).

Lemma decode_partial max m p q :
  frame_of m = p ++ q → q ≠ [] → fits max m = true →
  ∃ st, decode (codec_new max) p = (Ok None, st) ∧ holds max st p.
Proof.
  intros Hf Hq Hm%Nat.leb_le. destruct (uvi_decode_partial max _ p q Hf Hq Hm) as (u & buf & Hd & Hmore).
  exists (mkCodec u, buf). unfold holds, decode. simpl. rewrite Hd. split; [done|]. intros more.
  by rewrite Hmore.
Qed.

Notation stream := (λ ms, concat (frame_of <$> ms)).

(** [p] is what arrived of the first of the messages [ms] to come. *)
Definition unfinished (p : bytes) (ms : list Message) : Prop :=
  match ms with
  | [] => p = []
  | m :: _ => ∃ q, q ≠ [] ∧ frame_of m = p ++ q
  end.

Lemma decode_unfinished max p ms :
  unfinished p ms → forallb (fits max) ms = true →
  ∃ st, decode (codec_new max) p = (Ok None, st) ∧ holds max st p.
Proof.
  destruct ms as [|m ms]; simpl.
  - intros -> _. destruct (uvi_decode_partial max [] [] (uvi_frame [])) as (u & buf & Hd & Hmore);
      [done|apply uvi_frame_nonempty|simpl; lia|].
    exists (mkCodec u, buf). unfold holds, decode. simpl. rewrite Hd. split; [done|]. intros more.
    by rewrite Hmore.
  - intros (q & Hq & Hf) [Hm _]%andb_true_iff. by eapply decode_partial.
Qed.

(** The whole frames at the front of a buffer are decoded, the rest is held. *)
Lemma decode_all_spec max ms ms' p fuel :
  forallb (fits max) (ms ++ ms') = true → unfinished p ms' → length ms < fuel →
  ∃ st, decode_all fuel (codec_new max) (stream ms ++ p) = (Ok ∘ arrived <$> ms, st) ∧ holds max st p.
Proof.
  revert fuel. induction ms as [|m ms IH]; intros [|fuel] Hfit Hp Hfuel; simpl in Hfit, Hfuel; try lia.
  - cbn [decode_all fmap list_fmap concat app].
    destruct (decode_unfinished max p ms' Hp Hfit) as (st & Hd & Hst). exists st. by rewrite Hd.
  - apply andb_true_iff in Hfit as [Hm Hfit]. destruct (IH fuel Hfit Hp) as (st & Hd & Hst); [lia|].
    exists st. cbn [decode_all]. rewrite !fmap_cons, concat_cons, <-app_assoc, decode_frame by done.
    cbn beta iota in *. by rewrite Hd.
Qed.

(** Every part of a stream of frames ends within a frame. *)
Lemma stream_split ms x y :
  x ++ y = stream ms → ∃ ms1 ms2 p, ms = ms1 ++ ms2 ∧ x = stream ms1 ++ p ∧ p ++ y = stream ms2 ∧
    unfinished p ms2.
Proof.
  revert x. induction ms as [|m ms IH]; intros x Hxy; simpl in Hxy.
  - apply app_nil in Hxy as [-> ->]. by exists [], [], [].
  - apply app_eq_app in Hxy as (l & [[Hx Hy]|[Hx Hy]]).
    + destruct (IH l (eq_sym Hy)) as (ms1 & ms2 & p & -> & -> & Hp & Hu).
      exists (m :: ms1), ms2, p. simpl. by rewrite Hx, app_assoc.
    + destruct (decide (l = [])) as [->|Hl].
      * destruct (IH [] Hy) as (ms1 & ms2 & p & -> & Hnil & Hp & Hu).
        exists (m :: ms1), ms2, p. cbn beta in *. rewrite fmap_cons, concat_cons, <-app_assoc, <-Hnil.
        rewrite !app_nil_r in *. done.
      * exists [], (m :: ms), x. simpl. split; [done|]. split; [done|].
        split; [by rewrite Hx, <-app_assoc, <-Hy|]. by exists l.
Qed.

Lemma length_stream ms : length ms ≤ length (stream ms).
Proof.
  induction ms as [|m ms IH]; [done|]. cbn beta. rewrite fmap_cons, concat_cons, length_app.
  assert (length (frame_of m) ≠ 0) as Hm by (intros Hn%length_zero_iff_nil; by apply uvi_frame_nonempty in Hn).
  cbn [length]. lia.
Qed.

(** The decoder only sees what the buffer holds. *)
Lemma decode_all_holds max st p more fuel :
  holds max st p →
  decode_all (S fuel) st.1 (st.2 ++ more) = decode_all (S fuel) (codec_new max) (p ++ more).
Proof. intros Hst. simpl. by rewrite Hst. Qed.

Lemma read_chunks_spec max ms p st chunks :
  forallb (fits max) ms = true → unfinished p ms → holds max st p → p ++ concat chunks = stream ms →
  read_chunks st chunks = Ok ∘ arrived <$> ms.
Proof.
  revert ms p st. induction chunks as [|chunk chunks IH]; intros ms p st Hfit Hp Hst Hs; simpl in Hs.
  - rewrite app_nil_r in Hs. destruct ms as [|m ms]; [done|]. simpl in Hs, Hp.
    destruct Hp as (q & Hq & Hf). rewrite Hf, <-app_assoc in Hs. apply (f_equal length) in Hs.
    rewrite !length_app in Hs. destruct q; [done|]. simpl in Hs. lia.
  - rewrite app_assoc in Hs. destruct (stream_split ms _ _ Hs) as (ms1 & ms2 & p' & -> & Hx & Hs' & Hp').
    cbn [read_chunks]. rewrite decode_all_holds with (p := p) (max := max) by done. rewrite Hx.
    destruct (decode_all_spec max ms1 ms2 p' (S (length (st.2 ++ chunk))) Hfit Hp') as (st' & -> & Hst').
    + rewrite length_app. destruct ms1 as [|m ms1]; [simpl; lia|]. destruct Hp as (q & Hq & Hf).
      apply (f_equal length) in Hx. rewrite fmap_cons, concat_cons, Hf, !length_app in Hx.
      pose proof (length_stream ms1). destruct q; [done|]. cbn [length] in *. lia.
    + rewrite forallb_app in Hfit. apply andb_true_iff in Hfit as [_ Hfit].
      rewrite (IH ms2 p' st'), fmap_app by done. done.
Qed.

(** A stream of frames is read back from any chunks of it. *)
Lemma read_stream max ms chunks :
  forallb (fits max) ms = true → concat chunks = stream ms →
  read_chunks (codec_new max, []) chunks = Ok ∘ arrived <$> ms.
Proof.
  intros Hfit Hc. apply (read_chunks_spec max ms []); [done| |by intros more|done].
  destruct ms as [|m ms]; [done|]. exists (frame_of m). split; [apply uvi_frame_nonempty|done].
Qed.

(** C22: the codec round trip.  Messages that are not longer than the limit are encoded
    without error, and whoever reads the bytes, in whatever chunks they arrive,
    decodes the same messages in the same order, their hashes not yet computed. *)
Theorem codec_roundtrip max ms :
  forallb (fits max) ms = true →
  ∃ b, encode_all (codec_new max) ms [] = Ok b ∧
    ∀ chunks, concat chunks = b → read_chunks (codec_new max, []) chunks = Ok ∘ arrived <$> ms.
Proof.
  intros Hfit. exists (stream ms). split; [by apply encode_all_spec|]. intros chunks Hc.
  by apply read_stream.
Qed.

(** Messages over the limit are refused on both sides, with the same error: the
    encoder appends nothing, and the decoder reports a longer frame of a peer whose
    limit is higher. *)
Theorem codec_limit max max' m dst rest :
  fits max m = false →
  encode (codec_new max) m dst = Err MaxTransmissionSizeExceeded ∧
  (fits max' m = true → encode (codec_new max') m dst = Ok (dst ++ frame_of m) ∧
    (decode (codec_new max) (frame_of m ++ rest)).1 = Err MaxTransmissionSizeExceeded).
Proof.
  intros Hm. rewrite !encode_spec, Hm. split; [done|]. intros ->. split; [done|].
  apply Nat.leb_gt in Hm. pose proof (uvi_decode_too_long max (message_to_vec m) rest Hm) as Hd.
  unfold decode, frame_of. simpl. destruct (uvi_decode _ _) as [r [u buf]]. simpl in *. by rewrite Hd.
Qed.
End properties.

(** ** A toy length prefix: the length in unary *)

Fixpoint unary (src : bytes) : option (nat * bytes) :=
  match src with
  | [] => None
  | Byte.x01 :: src => '(n, rest) ← unary src; Some (S n, rest)
  | _ :: src => Some (0, src)
  end.
Definition unary_frame (b : bytes) : bytes := repeat Byte.x01 (length b) ++ Byte.x00 :: b.
Definition unary_decode (max : nat) (src : bytes) : Result (option bytes) ErrorKind * (nat * bytes) :=
  match unary src with
  | None => (Ok None, (max, src))
  | Some (n, rest) =>
      if (max <? n)%nat then (Err PermissionDenied, (max, src))
      else if (length rest <? n)%nat then (Ok None, (max, src))
      else (Ok (Some (take n rest)), (max, drop n rest))
  end.
#[global] Instance sandbox_uvi : UviCrate := {|
  UviBytes := nat; uvi_with_max_len max := max;
  uvi_encode max b dst := if (length b <=? max)%nat then Some (dst ++ unary_frame b) else None;
  uvi_decode := unary_decode;
|}.

Lemma unary_repeat n src : unary (repeat Byte.x01 n ++ Byte.x00 :: src) = Some (n, src).
Proof. induction n as [|n IH]; simpl; [done|]. by rewrite IH. Qed.

(** A part of a frame has no length yet, or less than its bytes. *)
Lemma unary_partial n b p q :
  repeat Byte.x01 n ++ Byte.x00 :: b = p ++ q → q ≠ [] →
  unary p = None ∨ ∃ rest, unary p = Some (n, rest) ∧ rest ++ q = b.
Proof.
  revert p. induction n as [|n IH]; intros [|x p] Hp Hq; simpl in Hp; try by left.
  - injection Hp as <- Hp. right. by exists p.
  - injection Hp as <- Hp. simpl. destruct (IH p Hp Hq) as [->|(rest & -> & Hr)]; [by left|].
    right. by exists rest.
Qed.

#[global] Instance sandbox_uvi_laws : UviLaws.
Proof.
  refine {| uvi_frame := unary_frame |}; simpl.
  - intros b. unfold unary_frame. by destruct (repeat _ _).
  - done.
  - intros max b rest Hb. unfold unary_decode, unary_frame. rewrite <-app_assoc. simpl.
    rewrite unary_repeat. destruct (Nat.ltb_spec max (length b)); [lia|]. rewrite length_app.
    destruct (Nat.ltb_spec (length b + length rest) (length b)); [lia|].
    by rewrite take_app_length, drop_app_length.
  - intros max b rest Hb. unfold unary_decode, unary_frame. rewrite <-app_assoc. simpl.
    rewrite unary_repeat. by destruct (Nat.ltb_spec max (length b)); [|lia].
  - intros max b p q Hp Hq Hb. exists max, p. split; [|done]. unfold unary_decode.
    destruct (unary_partial _ _ _ _ Hp Hq) as [->|(rest & -> & Hr)]; [done|].
    destruct (Nat.ltb_spec max (length b)); [lia|].
    destruct (Nat.ltb_spec (length rest) (length b)) as [|Hge]; [done|]. exfalso.
    apply (f_equal length) in Hr. rewrite length_app in Hr. destruct q; [done|]. simpl in Hr. lia.
Qed.

Section example.
#[local] Existing Instance sandbox_libp2p.

Definition hello : Message := message_new (str "t") (AGossip (bstr "hi")).
Definition bye : Message := message_new (str "u") (AGossip (bstr "x")).

Lemma codec_roundtrip_witness :
  ∃ b, encode_all (codec_new 100) [hello; bye] [] = Ok b ∧
    read_chunks (codec_new 100, []) [take 3 b; drop 3 b] = [Ok hello; Ok bye].
Proof.
  destruct (codec_roundtrip 100 [hello; bye]) as (b & Hb & Hread); [vm_compute; reflexivity|].
  exists b. split; [exact Hb|]. rewrite Hread; [reflexivity|]. simpl. rewrite app_nil_r. apply take_drop.
Defined.

Lemma codec_limit_witness :
  (decode (codec_new 2) (frame_of hello ++ [])).1 = Err MaxTransmissionSizeExceeded.
Proof.
  destruct (codec_limit 2 100 hello [] []) as [_ Hl]; [vm_compute; reflexivity|].
  apply Hl. vm_compute. reflexivity.
Defined.
End example.
