(* ===== verification/Stream.v ===== *)
(** The handler of a connection: [network/src/stream.rs] and the protocol upgrade of
    [network/src/upgrade.rs].

    The handler reads messages from an inbound substream and writes its queue of
    messages to an outbound one.  Both are state machines that run whenever the
    swarm polls the handler, until they have something to report or must wait.  The
    substreams are framed by asynchronous-codec: an interface, in which a poll may
    be ready or pending as it likes. *)
From S2P Require Import Prelude Extern Chain Sandbox Cache Wire Behaviour Codec.

(** [std::task::Poll] *)
Inductive Poll (A : Type) := Ready (a : A) | Pending.
Arguments Ready {A} a.
Arguments Pending {A}.

(** [asynchronous_codec::Framed] over a negotiated substream, with the codec of the
    wire: [poll_next], [poll_ready], [start_send], [poll_flush], [poll_close]. *)
Class Framed `{!MultihashCrate, !Libp2p, !Rmp (rstring * Action), !UviCrate} := {
  Socket : Type;
  Substream : Type;
  framed_new : Socket → Codec → Substream;
  poll_next : Substream → Poll (option (Result Message UpgradeError)) * Substream;
  poll_ready : Substream → Poll (Result unit UpgradeError) * Substream;
  start_send : Substream → Message → Result unit UpgradeError * Substream;
  poll_flush : Substream → Poll (Result unit UpgradeError) * Substream;
  poll_close : Substream → Poll (Result unit UpgradeError) * Substream;
}.

(** What a framed sink does with an item: it encodes it behind the bytes it has
    accepted so far; waiting and flushing accept nothing. *)
Class FramedLaws `{Framed} := {
  framed_codec : Substream → Codec;
  accepted : Substream → bytes;
  framed_new_spec : ∀ socket c, framed_codec (framed_new socket c) = c ∧ accepted (framed_new socket c) = [];
  poll_ready_spec : ∀ s, let s' := (poll_ready s).2 in
    framed_codec s' = framed_codec s ∧ accepted s' = accepted s;
  poll_flush_spec : ∀ s, let s' := (poll_flush s).2 in
    framed_codec s' = framed_codec s ∧ accepted s' = accepted s;
  start_send_spec : ∀ s m, let '(r, s') := start_send s m in
    framed_codec s' = framed_codec s ∧
    match encode (framed_codec s) m (accepted s) with
    | Ok b => r = Ok tt ∧ accepted s' = b
    | Err e => r = Err e ∧ accepted s' = accepted s
    end;
}.

Section stream.
Context `{!MultihashCrate, !Libp2p, !Rmp (rstring * Action), !UviCrate, !Framed}.

(** [pub struct ProtocolUpgrade]: [new], [protocol_info], [upgrade_inbound],
    [upgrade_outbound]. *)
Record ProtocolUpgrade := mkUpgrade { upgrade_max_transmit_size : nat }.
Definition protocol_info (self : ProtocolUpgrade) : list bytes := [bstr "/anoma/gossip/1.0"].
Definition upgrade_inbound (self : ProtocolUpgrade) (socket : Socket) : Result Substream UpgradeError :=
  Ok (framed_new socket (codec_new (upgrade_max_transmit_size self))).
Definition upgrade_outbound (self : ProtocolUpgrade) (socket : Socket) : Result Substream UpgradeError :=
  Ok (framed_new socket (codec_new (upgrade_max_transmit_size self))).

(** [enum InboundSubstreamState], [enum OutboundSubstreamState] *)
Inductive InboundSubstreamState :=
| AwaitingRead (substream : Substream)
| InClosing (substream : Substream)
| InPoisoned.
Inductive OutboundSubstreamState :=
| SubstreamRequested
| AwaitingWrite (substream : Substream)
| PendingWrite (substream : Substream) (msg : Message)
| PendingFlush (substream : Substream)
| OutClosing (substream : Substream)
| OutPoisoned.

(** [libp2p::swarm::KeepAlive], as far as it is used; [ConnectionHandlerEvent] *)
Inductive KeepAlive := KeepYes | KeepNo.
Inductive HandlerEvent :=
| OutboundSubstreamRequest (protocol : ProtocolUpgrade)
| Close (e : UpgradeError)
| Custom (msg : Message).

(** [pub struct SubstreamHandler] *)
Record SubstreamHandler := mkHandler {
  listen_protocol : ProtocolUpgrade;
  inbound_stream : option InboundSubstreamState;
  outbound_stream : option OutboundSubstreamState;
  keep_alive : KeepAlive;
  outbound_messages : list Message;
}.

Definition with_inbound (i : option InboundSubstreamState) (self : SubstreamHandler) :=
  mkHandler (listen_protocol self) i (outbound_stream self) (keep_alive self) (outbound_messages self).
Definition with_outbound (o : option OutboundSubstreamState) (self : SubstreamHandler) :=
  mkHandler (listen_protocol self) (inbound_stream self) o (keep_alive self) (outbound_messages self).
Definition with_keep_alive (k : KeepAlive) (self : SubstreamHandler) :=
  mkHandler (listen_protocol self) (inbound_stream self) (outbound_stream self) k (outbound_messages self).
Definition with_queue (q : list Message) (self : SubstreamHandler) :=
  mkHandler (listen_protocol self) (inbound_stream self) (outbound_stream self) (keep_alive self) q.

(** [SubstreamHandler::new], [connection_keep_alive] and the callbacks *)
Definition handler_new (config : Config) : SubstreamHandler :=
  mkHandler (mkUpgrade (max_transmit_size config)) None None KeepYes [].
Definition connection_keep_alive (self : SubstreamHandler) : KeepAlive := keep_alive self.
Definition inject_fully_negotiated_inbound (substream : Substream) (self : SubstreamHandler) :=
  with_inbound (Some (AwaitingRead substream)) self.
Definition inject_fully_negotiated_outbound (substream : Substream) (self : SubstreamHandler) :=
  with_outbound (Some (AwaitingWrite substream)) self.
Definition handler_inject_event (event : Message) (self : SubstreamHandler) :=
  with_queue (outbound_messages self ++ [event]) self.
Definition inject_dial_upgrade_error (self : SubstreamHandler) :=
  with_outbound (Some OutPoisoned) (with_inbound (Some InPoisoned) self).

(** One turn of the loop of [process_inbound_poll]: [Some] leaves the loop with what
    the poll returns ([break] leaves it with [Poll::Pending]). *)
Definition inbound_turn (self : SubstreamHandler) : option (Poll HandlerEvent) * SubstreamHandler :=
  let state := inbound_stream self in
  let self := with_inbound (Some InPoisoned) self in
  match state with
  | Some (AwaitingRead substream) =>
      match poll_next substream with
      | (Ready (Some (Ok message)), substream) =>
          (Some (Ready (Custom message)), with_inbound (Some (AwaitingRead substream)) self)
      | (Ready (Some (Err _)), _) => (None, self)
      | (Ready None, substream) => (None, with_inbound (Some (InClosing substream)) self)
      | (Pending, substream) => (Some Pending, with_inbound (Some (AwaitingRead substream)) self)
      end
  | Some (InClosing substream) =>
      match poll_close substream with
      | (Ready _, _) =>
          let self := with_inbound None self in
          (Some Pending,
           match outbound_stream self with None => with_keep_alive KeepNo self | Some _ => self end)
      | (Pending, substream) => (Some Pending, with_inbound (Some (InClosing substream)) self)
      end
  | Some InPoisoned => (Some Pending, with_keep_alive KeepNo self)
  | None => (Some Pending, with_inbound None self)
  end.

(** One turn of the loop of [process_outbound_poll]. *)
Definition outbound_turn (self : SubstreamHandler) : option (Poll HandlerEvent) * SubstreamHandler :=
  let state := outbound_stream self in
  let self := with_outbound (Some OutPoisoned) self in
  match state with
  | Some (AwaitingWrite substream) =>
      match poll_recv (outbound_messages self) with
      | Some (msg, q) => (None, with_outbound (Some (PendingWrite substream msg)) (with_queue q self))
      | None => (Some Pending, with_outbound (Some (AwaitingWrite substream)) self)
      end
  | Some (PendingWrite substream message) =>
      match poll_ready substream with
      | (Ready (Ok _), substream) =>
          match start_send substream message with
          | (Ok _, substream) => (None, with_outbound (Some (PendingFlush substream)) self)
          | (Err MaxTransmissionSizeExceeded, substream) =>
              (None, with_outbound (Some (AwaitingWrite substream)) self)
          | (Err e, substream) => (Some (Ready (Close e)), with_outbound (Some (OutClosing substream)) self)
          end
      | (Ready (Err e), substream) => (Some (Ready (Close e)), with_outbound (Some (OutClosing substream)) self)
      | (Pending, substream) =>
          (Some Pending, with_outbound (Some (PendingWrite substream message)) (with_keep_alive KeepYes self))
      end
  | Some (PendingFlush substream) =>
      match poll_flush substream with
      | (Ready (Ok _), substream) => (None, with_outbound (Some (AwaitingWrite substream)) self)
      | (Ready (Err e), substream) => (Some (Ready (Close e)), with_outbound (Some (OutClosing substream)) self)
      | (Pending, substream) =>
          (Some Pending, with_outbound (Some (PendingFlush substream)) (with_keep_alive KeepYes self))
      end
  | Some (OutClosing substream) =>
      match poll_close substream with
      | (Ready (Ok _), _) =>
          let self := with_outbound None self in
          (Some Pending,
           match inbound_stream self with None => with_keep_alive KeepNo self | Some _ => self end)
      | (Ready (Err _), _) => (Some (Ready (Close (IoError BrokenPipe))), self)
      | (Pending, substream) =>
          (Some Pending, with_outbound (Some (OutClosing substream)) (with_keep_alive KeepNo self))
      end
  | Some SubstreamRequested => (Some Pending, with_outbound (Some SubstreamRequested) self)
  | Some OutPoisoned => (Some Pending, with_keep_alive KeepNo self)
  | None =>
      (Some (Ready (OutboundSubstreamRequest (listen_protocol self))),
       with_outbound (Some SubstreamRequested) self)
  end.

(** [loop { .. }], with fuel. *)
Fixpoint poll_loop (turn : SubstreamHandler → option (Poll HandlerEvent) * SubstreamHandler)
    (fuel : nat) (self : SubstreamHandler) : option (Poll HandlerEvent * SubstreamHandler) :=
  match fuel with
  | 0 => None
  | S fuel =>
      match turn self with
      | (Some r, self) => Some (r, self)
      | (None, self) => poll_loop turn fuel self
      end
  end.

(** The fuel: reading takes two turns, a message three, and closing two. *)
Definition process_inbound_poll (self : SubstreamHandler) : option (Poll HandlerEvent * SubstreamHandler) :=
  poll_loop inbound_turn 2 self.
Definition process_outbound_poll (self : SubstreamHandler) : option (Poll HandlerEvent * SubstreamHandler) :=
  poll_loop outbound_turn (3 * length (outbound_messages self) + 4) self.

(** [poll]: inbound events go first. *)
Definition handler_poll (self : SubstreamHandler) : option (Poll HandlerEvent * SubstreamHandler) :=
  '(inbound_poll, self) ← process_inbound_poll self;
  match inbound_poll with
  | Ready _ => Some (inbound_poll, self)
  | Pending => process_outbound_poll self
  end.
End stream.
