(* ===== verification/StreamProps.v ===== *)
(** What the handler of a connection guarantees, over the definitions of [Stream]:
    its loops end, messages are written in order, and with the codec on both ends
    they arrive. *)
From S2P Require Import Prelude Extern Chain Sandbox Cache Wire Behaviour Codec Stream.

Section stream.
Context `{!MultihashCrate, !Libp2p, !Rmp (rstring * Action), !UviCrate, !Framed}.
Implicit Types (self h : SubstreamHandler).

(** ** The loops end *)

(** How many more turns a loop takes at most. *)
Definition inbound_turns self : nat :=
  match inbound_stream self with Some (AwaitingRead _) => 2 | _ => 1 end.
Definition outbound_turns self : nat :=
  3 * length (outbound_messages self) +
  match outbound_stream self with Some (PendingWrite _ _) => 3 | Some (PendingFlush _) => 2 | _ => 1 end.

Lemma poll_loop_total turn (measure : SubstreamHandler → nat) fuel self :
  (∀ h h', turn h = (None, h') → measure h' < measure h) → measure self ≤ fuel → 0 < measure self →
  (∀ h h', turn h = (None, h') → 0 < measure h') →
  is_Some (poll_loop turn fuel self).
Proof.
  intros Hdec Hle Hpos Hpos'. revert self Hle Hpos.
  induction fuel as [|fuel IH]; intros self Hle Hpos; [lia|]. simpl.
  destruct (turn self) as [[r|] h'] eqn:Ht; [by eexists|]. apply IH; [|by eapply Hpos'].
  specialize (Hdec _ _ Ht). lia.
Qed.

Lemma inbound_turn_decreases h h' : inbound_turn h = (None, h') → inbound_turns h' < inbound_turns h.
Proof.
  unfold inbound_turn, inbound_turns. destruct (inbound_stream h) as [[s|s|]|] eqn:Hi; [| |done|done].
  - destruct (poll_next s) as [[[[m|e]|]|] s']; intros [=]; subst; simpl; lia.
  - destruct (poll_close s) as [[r|] s']; intros [=].
Qed.

Lemma outbound_turn_decreases h h' : outbound_turn h = (None, h') → outbound_turns h' < outbound_turns h.
Proof.
  unfold outbound_turn, outbound_turns.
  destruct (outbound_stream h) as [[|s|s m|s|s|]|] eqn:Ho; try done; simpl.
  - destruct (outbound_messages h) as [|m q] eqn:Hq; [done|]. intros [= <-]. simpl. lia.
  - destruct (poll_ready s) as [[[u|e]|] s']; [|done|done].
    destruct (start_send s' m) as [[u'|[]] s'']; intros [= <-]; simpl; lia.
  - destruct (poll_flush s) as [[[u|e]|] s']; [|done|done]. intros [= <-]. simpl. lia.
  - destruct (poll_close s) as [[[u|e]|] s']; done.
Qed.

(** A poll of the handler ends: the fuel of both loops is enough, whatever the
    substreams answer. *)
Theorem handler_poll_total self : is_Some (handler_poll self).
Proof.
  unfold handler_poll, process_inbound_poll, process_outbound_poll.
  destruct (poll_loop_total inbound_turn inbound_turns 2 self) as [[r self1] ->].
  - apply inbound_turn_decreases.
  - unfold inbound_turns. destruct (inbound_stream self) as [[]|]; lia.
  - unfold inbound_turns. destruct (inbound_stream self) as [[]|]; lia.
  - intros h h' _. unfold inbound_turns. destruct (inbound_stream h') as [[]|]; lia.
  - simpl. destruct r; [by eexists|]. apply (poll_loop_total outbound_turn outbound_turns).
    + apply outbound_turn_decreases.
    + unfold outbound_turns. destruct (outbound_stream self1) as [[]|]; lia.
    + unfold outbound_turns. destruct (outbound_stream self1) as [[]|]; lia.
    + intros h h' _. unfold outbound_turns. destruct (outbound_stream h') as [[]|]; lia.
Qed.
End stream.

Section order.
Context `{!MultihashCrate, !Libp2p, !Rmp (rstring * Action), !UviCrate, !UviLaws, !Framed, !FramedLaws}.
Context (max : nat).
Implicit Types (self h : SubstreamHandler).

(** ** Messages are written in order *)

(** The outbound substream while it can be written to. *)
Definition out_substream (o : option OutboundSubstreamState) : option Substream :=
  match o with
  | Some (AwaitingWrite s) | Some (PendingWrite s _) | Some (PendingFlush s) => Some s
  | _ => None
  end.
(** The messages that are not written yet. *)
Definition unwritten h : list Message :=
  match outbound_stream h with Some (PendingWrite _ m) => [m] | _ => [] end ++ outbound_messages h.
(** The bytes of those of the messages that are not too long. *)
Definition frames (ms : list Message) : bytes := concat (frame_of <$> List.filter (fits max) ms).

(** Messages [done] were written from [h] to [h'], after the bytes [b]. *)
Definition wrote (b : bytes) (done : list Message) h h' : Prop :=
  unwritten h = done ++ unwritten h' ∧
  ∃ s, out_substream (outbound_stream h') = Some s ∧ framed_codec s = codec_new max ∧
    accepted s = b ++ frames done.
(** As before, but then writing failed, which cost one message at most. *)
Definition wrote_and_failed (b : bytes) (done : list Message) h h' : Prop :=
  ∃ lost s, unwritten h = done ++ lost ++ unwritten h' ∧ length lost ≤ 1 ∧
    outbound_stream h' = Some (OutClosing s) ∧ accepted s = b ++ frames done.
Definition writes (b : bytes) h (r : Poll HandlerEvent) h' : Prop :=
  ∃ done, match r with
  | Pending => wrote b done h h'
  | Ready (Close _) => wrote_and_failed b done h h'
  | Ready _ => False
  end.

Lemma wrote_nothing b h h' s :
  unwritten h = unwritten h' → out_substream (outbound_stream h') = Some s →
  framed_codec s = codec_new max → accepted s = b → wrote b [] h h'.
Proof. intros Hu Hs Hc Ha. split; [done|]. exists s. by rewrite Ha, app_nil_r. Qed.

Lemma failed_nothing b h h' s lost :
  unwritten h = lost ++ unwritten h' → length lost ≤ 1 → outbound_stream h' = Some (OutClosing s) →
  accepted s = b → wrote_and_failed b [] h h'.
Proof. intros Hu Hl Hs Ha. exists lost, s. by rewrite Ha, app_nil_r. Qed.

(** One turn on a substream that accepted the bytes [b]. *)
Definition turn_writes (b : bytes) h (r : option (Poll HandlerEvent)) h' : Prop :=
  match r with
  | None => ∃ done, wrote b done h h'
  | Some r => writes b h r h'
  end.

Lemma pending_write_writes s m h r h' :
  outbound_stream h = Some (PendingWrite s m) → framed_codec s = codec_new max →
  outbound_turn h = (r, h') → turn_writes (accepted s) h r h'.
Proof.
  intros Ho Hc. unfold outbound_turn. rewrite Ho.
  assert (unwritten h = m :: outbound_messages h) as Hu by (unfold unwritten; by rewrite Ho).
  pose proof (poll_ready_spec s) as [Hcr Har]. destruct (poll_ready s) as [[[u|e]|] s1]; simpl in Hcr, Har.
  - pose proof (start_send_spec s1 m) as Hs. rewrite Hcr, Hc, Har, encode_spec in Hs.
    destruct (start_send s1 m) as [r1 s2]. destruct Hs as [Hc2 Hs].
    destruct (fits max m) eqn:Hfit; destruct Hs as [-> Ha2]; intros [= <- <-]; exists [m];
      (split; [by rewrite Hu|]); exists s2; (split; [done|]); (split; [done|]);
      rewrite Ha2; unfold frames; simpl; rewrite Hfit; simpl; by rewrite app_nil_r.
  - intros [= <- <-]. exists []. by apply (failed_nothing _ _ _ s1 [m]).
  - intros [= <- <-]. exists []. apply (wrote_nothing _ _ _ s1); [done|done|congruence|done].
Qed.

Lemma outbound_turn_writes s h r h' :
  out_substream (outbound_stream h) = Some s → framed_codec s = codec_new max →
  outbound_turn h = (r, h') → turn_writes (accepted s) h r h'.
Proof.
  intros Ho Hc. destruct (outbound_stream h) as [[|s0|s0 m|s0|s0|]|] eqn:Hs; try done; injection Ho as ->.
  - unfold outbound_turn. rewrite Hs. simpl.
    assert (unwritten h = outbound_messages h) as Hu by (unfold unwritten; by rewrite Hs).
    destruct (outbound_messages h) as [|m q] eqn:Hq; simpl; intros [= <- <-]; exists [];
      apply (wrote_nothing _ _ _ s); try done; rewrite Hu; unfold unwritten; simpl; by rewrite ?Hq.
  - by apply (pending_write_writes s m).
  - unfold outbound_turn. rewrite Hs.
    assert (unwritten h = outbound_messages h) as Hu by (unfold unwritten; by rewrite Hs).
    pose proof (poll_flush_spec s) as [Hcf Haf].
    destruct (poll_flush s) as [[[u|e]|] s1]; simpl in Hcf, Haf; intros [= <- <-]; exists [].
    + apply (wrote_nothing _ _ _ s1); [done|done|congruence|done].
    + apply (failed_nothing _ _ _ s1 []); [done|simpl; lia|done|done].
    + apply (wrote_nothing _ _ _ s1); [done|done|congruence|done].
Qed.

Lemma frames_app l l' : frames (l ++ l') = frames l ++ frames l'.
Proof. unfold frames. by rewrite List.filter_app, fmap_app, concat_app. Qed.

Lemma writes_after b done h h1 r h' s :
  wrote b done h h1 → out_substream (outbound_stream h1) = Some s → writes (accepted s) h1 r h' →
  writes b h r h'.
Proof.
  intros [Hu (s0 & Hs0 & _ & Ha)] Hs [done' Hw]. assert (s0 = s) as -> by congruence. exists (done ++ done').
  destruct r as [[p|e|m]|]; try done.
  - destruct Hw as (lost & s' & Hu' & Hl & Hs' & Ha'). exists lost, s'. rewrite Hu, Hu', Ha', Ha, frames_app.
    by rewrite <-!app_assoc.
  - destruct Hw as [Hu' (s' & Hs' & Hc' & Ha')]. split; [by rewrite Hu, Hu', <-app_assoc|].
    exists s'. by rewrite Ha', Ha, frames_app, <-app_assoc.
Qed.

Lemma poll_loop_writes fuel s h r h' :
  out_substream (outbound_stream h) = Some s → framed_codec s = codec_new max →
  poll_loop outbound_turn fuel h = Some (r, h') → writes (accepted s) h r h'.
Proof.
  revert s h. induction fuel as [|fuel IH]; intros s h Hs Hc; simpl; [done|].
  destruct (outbound_turn h) as [r1 h1] eqn:Ht. pose proof (outbound_turn_writes s h r1 h1 Hs Hc Ht) as Hw.
  destruct r1 as [r1|]; [by intros [= <- <-]|]. destruct Hw as [done Hw]. intros Hl.
  pose proof Hw as [_ (s1 & Hs1 & Hc1 & _)]. eapply writes_after; [done|done|]. by apply IH.
Qed.

(** Messages are written in the order in which they were injected.  A poll on a
    substream with the handler's limit writes a prefix of what is unwritten - leaving
    out just the messages that are too long for the peer - behind what the
    substream accepted before, and keeps the rest; only when writing fails, and the
    connection is closed, one message may be lost between the two. *)
Theorem outbound_order s h r h' :
  out_substream (outbound_stream h) = Some s → framed_codec s = codec_new max →
  process_outbound_poll h = Some (r, h') → writes (accepted s) h r h'.
Proof. apply poll_loop_writes. Qed.

(** ** Messages are written eventually *)

(** The network takes whatever the handler writes. *)
Definition responsive : Prop :=
  ∀ s, (∃ s', poll_ready s = (Ready (Ok tt), s')) ∧ (∃ s', poll_flush s = (Ready (Ok tt), s')).

Lemma responsive_turn s h r h' :
  responsive → out_substream (outbound_stream h) = Some s → framed_codec s = codec_new max →
  outbound_turn h = (Some r, h') →
  r = Pending ∧ outbound_messages h' = [] ∧ ∃ s', outbound_stream h' = Some (AwaitingWrite s').
Proof.
  intros Hresp Ho Hc. destruct (Hresp s) as [[s1 Hready] [s2 Hflush]]. unfold outbound_turn.
  destruct (outbound_stream h) as [[|s0|s0 m|s0|s0|]|] eqn:Hs; try done; injection Ho as ->; simpl.
  - destruct (outbound_messages h) as [|m q] eqn:Hq; [|done]. intros [= <- <-]. by eauto.
  - pose proof (poll_ready_spec s) as [Hcr Har]. rewrite Hready in *. simpl in Hcr, Har.
    pose proof (start_send_spec s1 m) as Hsend. rewrite Hcr, Hc, encode_spec in Hsend.
    destruct (start_send s1 m) as [r1 s3]. destruct Hsend as [_ Hsend].
    by destruct (fits max m); destruct Hsend as [-> _].
  - by rewrite Hflush.
Qed.

Lemma responsive_loop fuel s h r h' :
  responsive → out_substream (outbound_stream h) = Some s → framed_codec s = codec_new max →
  poll_loop outbound_turn fuel h = Some (r, h') →
  r = Pending ∧ outbound_messages h' = [] ∧ ∃ s', outbound_stream h' = Some (AwaitingWrite s').
Proof.
  intros Hresp. revert s h. induction fuel as [|fuel IH]; intros s h Hs Hc; simpl; [done|].
  destruct (outbound_turn h) as [r1 h1] eqn:Ht. destruct r1 as [r1|].
  - intros [= <- <-]. by apply (responsive_turn s h).
  - pose proof (outbound_turn_writes s h None h1 Hs Hc Ht) as [done [_ (s1 & Hs1 & Hc1 & _)]].
    by apply (IH s1).
Qed.

(** Reading leaves the outbound side alone. *)
Lemma inbound_loop_outbound fuel h r h' :
  poll_loop inbound_turn fuel h = Some (r, h') →
  outbound_stream h' = outbound_stream h ∧ outbound_messages h' = outbound_messages h.
Proof.
  revert h. induction fuel as [|fuel IH]; intros h; simpl; [done|].
  destruct (inbound_turn h) as [r1 h1] eqn:Ht.
  assert (outbound_stream h1 = outbound_stream h ∧ outbound_messages h1 = outbound_messages h) as [Hs Hq].
  { revert Ht. unfold inbound_turn. destruct (inbound_stream h) as [[s|s|]|].
    - by destruct (poll_next s) as [[[[m|e]|]|] s']; intros [= _ <-].
    - destruct (poll_close s) as [[c|] s']; intros [= _ <-]; [|done]. simpl.
      by destruct (outbound_stream h) eqn:Ho; simpl.
    - by intros [= _ <-].
    - by intros [= _ <-]. }
  destruct r1 as [r1|]; [by intros [= <- <-]|]. intros [Hs' Hq']%IH. by rewrite Hs', Hq'.
Qed.

Context `{!RmpLaws (rstring * Action)}.

End order.

Section keep_alive.
Context `{!MultihashCrate, !Libp2p, !Rmp (rstring * Action), !UviCrate, !Framed}.
Implicit Types (self h : SubstreamHandler).

(** ** When a connection is given up *)

(** The handler waits for the network to take a message. *)
Definition write_waits h : bool :=
  match outbound_stream h with Some (PendingWrite _ _) | Some (PendingFlush _) => true | _ => false end.

Lemma outbound_turn_keep_alive h r h' :
  outbound_turn h = (Some r, h') → keep_alive h = KeepNo →
  inbound_stream h' = inbound_stream h ∧ keep_alive h' = if write_waits h' then KeepYes else KeepNo.
Proof.
  unfold outbound_turn, write_waits. intros Ht Hk.
  destruct (outbound_stream h) as [[|s|s m|s|s|]|] eqn:Ho; simpl in Ht; try (by simplify_eq/=).
  - destruct (outbound_messages h); by simplify_eq/=.
  - destruct (poll_ready s) as [[[u|e]|] s']; [|by simplify_eq/=|by simplify_eq/=].
    destruct (start_send s' m) as [[u'|[]] s'']; try done; by simplify_eq/=.
  - destruct (poll_flush s) as [[[u|e]|] s']; try done; by simplify_eq/=.
  - destruct (poll_close s) as [[[u|e]|] s']; simplify_eq/=; try done.
    by destruct (inbound_stream h) eqn:Hi; simpl.
Qed.

Lemma outbound_turn_goes_on h h' :
  outbound_turn h = (None, h') → inbound_stream h' = inbound_stream h ∧ keep_alive h' = keep_alive h.
Proof.
  unfold outbound_turn. intros Ht.
  destruct (outbound_stream h) as [[|s|s m|s|s|]|] eqn:Ho; simpl in Ht; try done.
  - destruct (outbound_messages h); by simplify_eq/=.
  - destruct (poll_ready s) as [[[u|e]|] s']; try done.
    destruct (start_send s' m) as [[u'|[]] s'']; by simplify_eq/=.
  - destruct (poll_flush s) as [[[u|e]|] s']; by simplify_eq/=.
  - by destruct (poll_close s) as [[[u|e]|] s'].
Qed.

(** A connection whose inbound side broke is given up, unless writing has to wait.
    After a read error every poll leaves the inbound side broken and asks for the
    connection to be closed - but if the outbound side waits for the peer to take a
    message, it asks for the connection to be kept instead, each time, so that a peer
    that sends garbage and does not read is never disconnected by the handler. *)
Theorem broken_connection h r h' :
  inbound_stream h = Some InPoisoned ∨
    (∃ s e s', inbound_stream h = Some (AwaitingRead s) ∧ poll_next s = (Ready (Some (Err e)), s')) →
  handler_poll h = Some (r, h') →
  inbound_stream h' = Some InPoisoned ∧ keep_alive h' = if write_waits h' then KeepYes else KeepNo.
Proof.
  intros Hin. unfold handler_poll, process_outbound_poll.
  assert (process_inbound_poll h = Some (Pending, with_keep_alive KeepNo (with_inbound (Some InPoisoned) h)))
    as ->.
  { unfold process_inbound_poll. cbn [poll_loop]. unfold inbound_turn.
    destruct Hin as [Hi|(s & e & s' & Hi & Hp)]; rewrite Hi; [done|]. by rewrite Hp. }
  cbn [mbind option_bind].
  set (h1 := with_keep_alive KeepNo _). generalize (3 * length (outbound_messages h1) + 4). intros fuel.
  assert (inbound_stream h1 = Some InPoisoned) as Hi by done.
  assert (keep_alive h1 = KeepNo) as Hk by done. clearbody h1. clear Hin.
  revert h1 Hi Hk. induction fuel as [|fuel IH]; intros h1 Hi Hk; simpl; [done|].
  destruct (outbound_turn h1) as [[r1|] h2] eqn:Ht.
  - intros [= <- <-]. destruct (outbound_turn_keep_alive _ _ _ Ht Hk) as [-> ->]. done.
  - destruct (outbound_turn_goes_on _ _ Ht) as [Hi2 Hk2]. apply IH; congruence.
Qed.
End keep_alive.
