(* ===== verification/Delivery.v ===== *)
(** From a topic's gossip to the peer's topic: the composition of [Topic], the handler
    of the connection and the codec, with examples for [StreamProps]. *)
From S2P Require Import Prelude Extern Chain Sandbox Cache Wire Behaviour Topic TopicProps Codec Stream StreamProps.

Section delivery.
Context `{!MultihashCrate, !Libp2p, !Rand, !HashOrder PeerId, !HashOrder Multiaddr,
  !Rmp (rstring * Action), !UviCrate, !UviLaws, !Framed, !FramedLaws}.

(** A gossip message that [Topic::gossip] accepts can be dropped without a trace.
    [gossip] compares the length of the data with the limit, but the codec compares
    the length of the whole message, with its topic: for data in between, [gossip]
    reports success and sends the message to every active peer, and the handler of
    each connection takes it from its queue and writes nothing. *)
Theorem oversized_gossip data s substream h m :
  length data ≤ max_transmit_size (network_config s) → active_peers s ≠ ∅ →
  m = message_new (name (topic_config s)) (AGossip data) →
  fits (max_transmit_size (network_config s)) m = false →
  framed_codec substream = codec_new (max_transmit_size (network_config s)) →
  outbound_stream h = Some (AwaitingWrite substream) → outbound_messages h = [m] →
  (∃ s', poll_ready substream = (Ready (Ok tt), s')) →
  (gossip data s).1 = Ok tt ∧
  cmds (gossip data s).2 =
    cmds s ++ ((λ p, SendMessage p.1 p.2.1 m) <$> hash_iter (active_peers s)) ∧
  ∃ s', process_outbound_poll h =
      Some (Pending, with_outbound (Some (AwaitingWrite s')) (with_queue [] h)) ∧
    accepted s' = accepted substream.
Proof.
  intros Hlen Hact Hm Hfit Hcodec Ho Hq [s1 Hready]. split; [|split].
  - unfold gossip. destruct (Nat.ltb_spec (max_transmit_size (network_config s)) (length data)); [lia|].
    by rewrite bool_decide_false.
  - unfold gossip. destruct (Nat.ltb_spec (max_transmit_size (network_config s)) (length data)); [lia|].
    rewrite bool_decide_false by done. simpl. unfold send_to_active. subst m. clear Hq Hfit Hact.
    assert (∀ l s0, topic_config s0 = topic_config s → cmds (foldl (λ s '(peer, (connection, _)),
      send_message peer connection (AGossip data) s) s0 l) = cmds s0 ++
        ((λ p : PeerId * (ConnectionId * gset Multiaddr),
          SendMessage p.1 p.2.1 (message_new (name (topic_config s)) (AGossip data))) <$> l)) as Hfold.
    { induction l as [|[p [c a]] l IH]; intros s0 Hs0; simpl; [by rewrite app_nil_r|].
      rewrite IH by done. simpl. by rewrite <-app_assoc, Hs0. }
    by apply Hfold.
  - unfold process_outbound_poll. rewrite Hq. cbn [length Nat.mul Nat.add poll_loop].
    unfold outbound_turn at 1. rewrite Ho. simpl. rewrite Hq. cbn [poll_recv].
    unfold outbound_turn at 1. simpl. rewrite Hready.
    pose proof (poll_ready_spec substream) as [Hc Ha]. rewrite Hready in Hc, Ha. simpl in Hc, Ha.
    pose proof (start_send_spec s1 m) as Hsend. rewrite Hc, Hcodec, encode_spec, Hfit in Hsend.
    destruct (start_send s1 m) as [r s2]. destruct Hsend as [_ [-> Ha2]].
    exists s2. split; [|congruence]. unfold outbound_turn at 1. by simpl.
Qed.
End delivery.

(** ** A substream that takes everything, with a given inbox *)

Record ToySubstream := mkToy {
  toy_codec : Codec;
  toy_accepted : bytes;
  toy_inbox : list (Result (@Message sandbox_multihash sandbox_libp2p) UpgradeError);
}.
#[global] Instance sandbox_framed : Framed := {|
  Socket := list (Result Message UpgradeError);
  Substream := ToySubstream;
  framed_new inbox c := mkToy c [] inbox;
  poll_next s := match toy_inbox s with
    | [] => (Pending, s)
    | x :: inbox => (Ready (Some x), mkToy (toy_codec s) (toy_accepted s) inbox)
    end;
  poll_ready s := (Ready (Ok tt), s);
  start_send s m := match encode (toy_codec s) m (toy_accepted s) with
    | Ok b => (Ok tt, mkToy (toy_codec s) b (toy_inbox s))
    | Err e => (Err e, s)
    end;
  poll_flush s := (Ready (Ok tt), s);
  poll_close s := (Ready (Ok tt), s);
|}.
#[global] Instance sandbox_framed_laws : FramedLaws.
Proof.
  refine {| framed_codec := toy_codec; accepted := toy_accepted |}; simpl; try done.
  intros s m. by destruct (encode _ _ _).
Defined.

Definition toy_handler (s : ToySubstream) (ms : list Message) : SubstreamHandler :=
  mkHandler (mkUpgrade 64) None (Some (AwaitingWrite s)) KeepYes ms.
Definition toy_socket : ToySubstream := mkToy (codec_new 64) [] [].

Lemma outbound_order_witness :
  ∃ r h', process_outbound_poll (toy_handler toy_socket [hello; bye]) = Some (r, h') ∧
    writes 64 [] (toy_handler toy_socket [hello; bye]) r h'.
Proof.
  assert (match process_outbound_poll (toy_handler toy_socket [hello; bye]) with
    | Some _ => true | None => false end = true) as Hsome by (vm_compute; reflexivity).
  destruct (process_outbound_poll (toy_handler toy_socket [hello; bye])) as [[r h']|] eqn:Hp;
    [|discriminate Hsome].
  exists r, h'. split; [reflexivity|].
  exact (outbound_order 64 toy_socket (toy_handler toy_socket [hello; bye]) r h' eq_refl eq_refl Hp).
Defined.


Lemma broken_connection_witness :
  keep_alive (with_inbound (Some InPoisoned) (with_keep_alive KeepNo (toy_handler toy_socket []))) = KeepNo.
Proof.
  set (h := with_inbound (Some InPoisoned) (toy_handler toy_socket [])).
  destruct (broken_connection h Pending
    (with_inbound (Some InPoisoned) (with_keep_alive KeepNo (toy_handler toy_socket [])))) as [_ Hk].
  - left. reflexivity.
  - reflexivity.
  - rewrite Hk. reflexivity.
Defined.

(** Data of 40 bytes under a limit of 40 bytes. *)
Definition small_config : Config :=
  mkConfig 100 1 (QArith_base.Qmake 3 4) 6 40 0 (QArith_base.Qmake 3 10) [] None 0 0.
Definition small_topic : TopicInner :=
  with_active {[peer 1 := (conn 1, {[maddr 1]})]} (topic_new 0 example_topic small_config (example_node 0)).
Definition small_socket : @Substream _ _ _ _ sandbox_framed := mkToy (codec_new 40) [] [].
Definition long_data : bytes := repeat Byte.x41 40.

Lemma oversized_gossip_witness :
  (gossip long_data small_topic).1 = Ok tt ∧
  ∃ s', process_outbound_poll (toy_handler small_socket
      [message_new (str "txs") (AGossip long_data)]) =
    Some (Pending, toy_handler s' []) ∧ toy_accepted s' = [].
Proof.
  destruct (oversized_gossip long_data small_topic small_socket
    (toy_handler small_socket [message_new (str "txs") (AGossip long_data)])
    (message_new (str "txs") (AGossip long_data))) as (Hok & _ & s' & Hs' & Ha).
  - apply Nat.leb_le. reflexivity.
  - intros He. apply (f_equal size) in He. vm_compute in He. discriminate He.
  - reflexivity.
  - vm_compute. reflexivity.
  - reflexivity.
  - reflexivity.
  - reflexivity.
  - eexists. reflexivity.
  - split; [exact Hok|]. exists s'. split; [exact Hs'|exact Ha].
Defined.
