(* ===== verification/Broadcast.v ===== *)
(** Gossip across an overlay of nodes: the composition of [network/src/network.rs],
    [topic.rs], [cache.rs] and [codec.rs] on many nodes at once.

    Every node runs its network object.  Between two ticks, and while no connection
    comes or goes, a node handles its channel command by command, and what it hands to
    its runloop arrives, encoded and decoded, in the channel of the peer; the nodes
    take their steps in any interleaving, and users gossip at any time.  The theorems
    say that such a wave of gossip comes to an end, and where the data is then. *)
From stdpp Require Import functions relations.
From S2P Require Import Prelude Extern Chain Sandbox Cache Wire Behaviour Muxer Topic TopicProps TopicCommands Network NetworkProps NetworkSpec Codec.

(** The sum of a measure over nodes, when one of them changes. *)
Lemma sum_list_ext {A} (f g : A → nat) l :
  (∀ x, x ∈ l → f x = g x) → sum_list_with f l = sum_list_with g l.
Proof.
  induction l as [|x l IH]; intros Hfg; simpl; [done|].
  rewrite Hfg by left. f_equal. apply IH. intros y Hy. apply Hfg. by right.
Qed.
Lemma sum_list_insert `{EqDecision K} {A} (f : K → A → nat) (l : list K) (g : K → A) k a :
  NoDup l → k ∈ l →
  sum_list_with (λ i, f i (<[k := a]> g i)) l + f k (g k) = sum_list_with (λ i, f i (g i)) l + f k a.
Proof.
  intros Hnd. induction Hnd as [|x l Hx Hnd IH]; [by intros ?%elem_of_nil|].
  rewrite elem_of_cons. intros [->|Hk]; simpl.
  - rewrite fn_lookup_insert, (sum_list_ext _ (λ i, f i (g i))); [lia|].
    intros i Hi. rewrite fn_lookup_insert_ne; [done|]. by intros <-.
  - rewrite fn_lookup_insert_ne by (intros <-; done). specialize (IH Hk). lia.
Qed.

Section broadcast.
Context `{!MultihashCrate, !Libp2p, !Rand, !HashOrder PeerId, !HashOrder Multiaddr,
  !HashOrder Protocol, !HashOrder rstring, !Rmp (rstring * Action), !RmpLaws (rstring * Action),
  !UviCrate, !UviLaws}.
Context (prof : Profile).

(** The topic, the limit of the codec, the time at which the wave begins and how long
    nodes remember messages; the nodes, what each calls its connection to another, and
    their active views; and the data that users gossip. *)
Context (n : rstring) (max : nat) (T : Instant) (L : Duration).
Context (ids : list PeerId) (conn : PeerId → PeerId → ConnectionId) 
  (view : PeerId → gmap PeerId (ConnectionId * gset Multiaddr)).
Context (D : list bytes).

Definition gmsg (d : bytes) : Message := message_new n (AGossip d).
(** A link of the overlay. *)
Definition edge (p q : PeerId) : Prop := is_Some (view p !! q).
(** What the listeners of the topic at a node received. *)
Definition out (s : Network) : list bytes :=
  match topics s !! n with Some t => outmsgs t | None => [] end.
Definition in_time (now : Instant) : Prop := (T ≤ now ≤ T + L)%Z.

(** A message of a connection as it comes out at the other end. *)
Definition carried (m : Message) : list Message :=
  match encode (codec_new max) m [] with
  | Ok b => omap result_ok (read_chunks (codec_new max, []) [b])
  | Err _ => []
  end.

(** ** The overlay *)

Record Overlay := mkOverlay { nodes : PeerId → Network; said : list (PeerId * bytes) }.
Definition with_nodes (f : PeerId → Network) (o : Overlay) : Overlay := mkOverlay f (said o).
Definition with_runloop (l : list RunloopCommand) (s : Network) : Network :=
  mkNetwork (config s) (this s) l (commands s) (topics s) (muxer s) (history s).

(** What arrives at [q] of a message that [p] sent on its connection to [q]. *)
Definition arrivals (p q : PeerId) (m : Message) : list Command :=
  (λ m, InjectEvent (WireMessage p (conn q p) m)) <$> carried m.
Definition push (cs : list Command) (s : Network) : Network := with_commands (commands s ++ cs) s.

(** A node polls its network object and finds something to do, or the first message
    that it gave to its runloop arrives. *)
Inductive calm_step (o : Overlay) : Overlay → Prop :=
| node_polls p now s :
    p ∈ ids → in_time now → poll_next prof now false (nodes o p) = Some (true, s) →
    calm_step o (with_nodes (<[p := s]> (nodes o)) o)
| message_arrives p q m r :
    p ∈ ids → q ∈ ids → p ≠ q → runloop (nodes o p) = RSendMessage q (conn p q) m :: r →
    calm_step o (with_nodes (<[p := with_runloop r (nodes o p)]>
      (<[q := push (arrivals p q m) (nodes o q)]> (nodes o))) o).

(** Or a user of a node gossips. *)
Inductive wave_step (o : Overlay) : Overlay → Prop :=
| wave_calm o' : calm_step o o' → wave_step o o'
| user_gossips p d s :
    p ∈ ids → d ∈ D → gossip_on n d (nodes o p) = Some (Ok tt, s) →
    wave_step o (mkOverlay (<[p := s]> (nodes o)) (said o ++ [(p, d)])).

(** ** A node *)

(** A node that takes part: its connections to the peers in its active view belong to the
    topic, and what it remembers is either of this wave or forgotten when the wave begins. *)
Record node_ok (p : PeerId) (s : Network) : Prop := {
  no_mux : mux_ok (muxer s);
  no_links : ∀ q, edge p q → link (muxer s) (q, conn p q) = Some (AssignedTo n);
  no_history : ∃ h, history s = Some h ∧ lifespan h = L ∧
    ∀ d t, d ∈ D → em_data h !! hash_of (gmsg d) = Some (tt, t) → (T ≤ t ∨ t + L < T)%Z;
  no_topic : ∃ t, topics s !! n = Some t ∧ name (topic_config t) = n ∧ cmds t = [] ∧
    active_peers t = view p;
  no_limit : max_transmit_size (config s) = max;
}.
Definition views_ok : Prop := ∀ p q, p ∈ ids → edge p q →
  q ∈ ids ∧ p ≠ q ∧ edge q p ∧ ∃ a, view p !! q = Some (conn p q, a).
(** No two of the messages have the same hash, and the codec takes them all. *)
Definition data_ok : Prop := (∀ d d', d ∈ D → d' ∈ D → hash_of (gmsg d) = hash_of (gmsg d') → d = d') ∧
  ∀ d, d ∈ D → fits max (gmsg d) = true.
(** Whether a node remembers the data. *)
Definition known (s : Network) (d : bytes) : bool := seen T (gmsg d) s.

Context (HL : (0 ≤ L)%Z) (Hviews : views_ok) (Hdata : data_ok).
Implicit Types (s : Network) (o : Overlay).

Lemma seen_in_time p s d now : node_ok p s → d ∈ D → in_time now → seen now (gmsg d) s = known s d.
Proof.
  intros [_ _ (h & Hh & Hl & Ht) _ _] Hd Hnow. unfold known, seen, es_contains. rewrite Hh.
  apply bool_decide_ext. unfold is_Some. setoid_rewrite em_get_Some. unfold elapsed, in_time in *.
  split; intros ([] & t & Hk & Hle); exists tt, t; specialize (Ht _ _ Hd Hk); (split; [done|lia]).
Qed.

(** What stays when a node takes note of a message. *)
Lemma noted_ok p s d now : node_ok p s → in_time now → node_ok p (noted now (gmsg d) s).
Proof.
  intros [Hm Hl (h & Hh & Hlife & Ht) Htop Hmax] Hnow.
  destruct (noted_rest now (gmsg d) s) as (Htops & Hmux & _ & _).
  split; [by rewrite Hmux|by rewrite Hmux| |by rewrite Htops|].
  2: { rewrite <-Hmax. unfold noted. by rewrite Hh. }
  unfold noted. rewrite Hh. eexists. split; [done|]. split; [done|]. simpl. intros d' t Hd'.
  destruct (decide (hash_of (gmsg d') = hash_of (gmsg d))) as [->|Hne].
  - rewrite lookup_insert_eq. intros [= <-]. unfold in_time in Hnow. lia.
  - rewrite lookup_insert_ne by done. by apply Ht.
Qed.

Lemma noted_known p s d d' now :
  node_ok p s → in_time now → d ∈ D → d' ∈ D →
  known (noted now (gmsg d) s) d' = known s d' || bool_decide (d' = d).
Proof.
  intros [_ _ (h & Hh & Hl & Ht) _ _] Hnow Hd Hd'. unfold known, seen, noted. rewrite Hh. simpl.
  unfold es_contains, em_get. simpl. destruct (decide (d' = d)) as [->|Hne].
  - rewrite lookup_insert_eq, (bool_decide_true (d = d)), orb_true_r by done. apply bool_decide_eq_true.
    exists tt. apply unexpired_Some. unfold elapsed, in_time in *. simpl. split; [done|lia].
  - rewrite lookup_insert_ne, (bool_decide_false (d' = d)), orb_false_r; [done..|].
    intros He. by apply Hne, (proj1 Hdata).
Qed.

(** What a message makes a node do: nothing new if it remembers the data, and otherwise
    the listeners get the data, and all links but the one it came from get it on. *)
Record took (p q : PeerId) (d : bytes) (s s' : Network) (sent : list Command) : Prop := {
  tk_ok : node_ok p s';
  tk_runloop : runloop s' = runloop s;
  tk_commands : commands s' = commands s ++ sent;
  tk_out : out s' = out s ++ if known s d then [] else [d];
  tk_known : ∀ d', d' ∈ D → known s' d' = known s d' || bool_decide (d' = d);
  tk_NoDup : NoDup sent;
  tk_sent : ∀ c, c ∈ sent ↔ known s d = false ∧
    ∃ r, edge p r ∧ r ≠ q ∧ c = SendMessage r (conn p r) (gmsg d);
}.

Lemma view_conn p q c a : p ∈ ids → view p !! q = Some (c, a) → c = conn p q.
Proof. intros Hp Hq. destruct (Hviews p q Hp) as (_ & _ & _ & a' & Ha); [by eexists|]. congruence. Qed.

Lemma known_history s s' d : history s' = history s → known s' d = known s d.
Proof. intros Hh. unfold known, seen. by rewrite Hh. Qed.

Lemma topic_consume_gossip now q d c t : topic_config (consume_gossip now q d c t) = topic_config t.
Proof.
  unfold consume_gossip. destruct (negb _).
  - by apply (views_eq _ _ (views_disconnect now q c t)).
  - by apply (views_eq _ _ (views_send_to_active (λ r, bool_decide (r = q)) (AGossip d) t)).
Qed.

Lemma take_message p q d now s :
  p ∈ ids → d ∈ D → edge p q → in_time now → node_ok p s →
  ∃ s' sent, accept_message prof now q (conn p q) (gmsg d) s = Some s' ∧ took p q d s s' sent.
Proof.
  intros Hp Hd He Hnow Hok. pose proof (noted_ok p s d now Hok Hnow) as Hok0.
  pose proof (λ d', noted_known p s d d' now Hok Hnow Hd) as Hkn.
  destruct (noted_rest now (gmsg d) s) as (Ht0 & Hm0 & Hr0 & Hc0).
  pose proof (accept_message_spec prof now q (conn p q) (gmsg d) s (no_mux p s Hok)) as Hacc.
  cbv zeta in Hacc. rewrite Hacc. clear Hacc. change (msg_topic (gmsg d)) with n.
  pose proof Hok as [_ Hl _ (t & Ht & Hn & Hcm & Ha) _].
  rewrite bool_decide_false by (intros []; by eexists). rewrite (seen_in_time p s d now Hok Hd Hnow).
  destruct (known s d) eqn:Hk.
  { eexists _, []. split; [done|]. split; try done.
    - by rewrite app_nil_r.
    - unfold out. rewrite Ht0, Hk. by rewrite app_nil_r.
    - constructor.
    - intros c. rewrite Hk. split; [by intros ?%elem_of_nil|by intros [? _]]. }
  rewrite (Hl q He), bool_decide_true by done. unfold topic_event. rewrite Ht0, Ht. cbn [mbind option_bind].
  destruct (hashed_same (gmsg d) s) as [Hmt Hma]. simpl Topic.inject_event. unfold handle_message_received.
  rewrite Hmt, Hma, Hn, (bool_decide_false (msg_topic (gmsg d) ≠ n)) by (intros Hne; by apply Hne). simpl.
  destruct (gossip_spec now q d (conn p q) t) as [Hg _].
  destruct Hg as (sent & Ho & Hcs & Hnd & Hin & Hact & _ & _); [by rewrite Ha|].
  eexists _, sent. split; [done|]. rewrite Hcm in Hcs.
  destruct Hok0 as [Hm1 Hl1 Hh1 _ Hmax1]. split; try done.
  - split; [done|done|done| |done]. eexists. simpl. rewrite lookup_insert_eq. split; [done|].
    simpl. by rewrite Hact, topic_consume_gossip.
  - simpl. by rewrite Hc0, Hcs.
  - unfold out. simpl. rewrite lookup_insert_eq, Ht, Hk. simpl. exact Ho.
  - intros c. rewrite Hin, Hn, Ha, Hk. split.
    + intros (r & c1 & a1 & Hr & Hne & ->). split; [done|]. exists r. split; [by eexists|].
      by rewrite <-(view_conn p r c1 a1 Hp Hr).
    + intros (_ & r & [[c1 a1] Hr] & Hne & ->). exists r, c1, a1. split; [done|].
      by rewrite (view_conn p r c1 a1 Hp Hr).
Qed.

(** ** The invariant of a wave *)

(** A node has the data, or its user gossiped them; some node from which a path leads here
    gossiped them; a message with them is on the way from one node to another. *)
Definition informed (o : Overlay) (p : PeerId) (d : bytes) : Prop :=
  known (nodes o p) d = true ∨ (p, d) ∈ said o.
Definition sourced (o : Overlay) (p : PeerId) (d : bytes) : Prop :=
  ∃ q, (q, d) ∈ said o ∧ rtc edge q p.
Definition in_flight (o : Overlay) (p q : PeerId) (d : bytes) : Prop :=
  SendMessage q (conn p q) (gmsg d) ∈ commands (nodes o p) ∨
  RSendMessage q (conn p q) (gmsg d) ∈ runloop (nodes o p) ∨
  InjectEvent (WireMessage p (conn q p) (gmsg d)) ∈ commands (nodes o q).

(** What the channel of a node holds during a wave, and what its runloop is given: data
    go from nodes that have them along links. *)
Inductive queued (o : Overlay) (p : PeerId) : Command → Prop :=
| queued_send q d : d ∈ D → edge p q → informed o p d →
    queued o p (SendMessage q (conn p q) (gmsg d))
| queued_event q d : d ∈ D → edge p q → informed o q d →
    queued o p (InjectEvent (WireMessage q (conn p q) (gmsg d))).
Inductive leaving (o : Overlay) (p : PeerId) : RunloopCommand → Prop :=
| leaving_send q d : d ∈ D → edge p q → informed o p d →
    leaving o p (RSendMessage q (conn p q) (gmsg d)).

Record wave_ok (o0 o : Overlay) : Prop := {
  wv_node : ∀ p, p ∈ ids → node_ok p (nodes o p);
  wv_commands : ∀ p, p ∈ ids → Forall (queued o p) (commands (nodes o p));
  wv_runloop : ∀ p, p ∈ ids → Forall (leaving o p) (runloop (nodes o p));
  wv_out : ∀ p, p ∈ ids → ∃ l, out (nodes o p) = out (nodes o0 p) ++ l ∧ NoDup l ∧
    ∀ d, d ∈ l ↔ d ∈ D ∧ known (nodes o p) d = true;
  wv_sourced : ∀ p d, p ∈ ids → d ∈ D → known (nodes o p) d = true → sourced o p d;
  wv_said : ∀ p d, (p, d) ∈ said o → p ∈ ids ∧ d ∈ D;
  wv_spread : ∀ p q d, p ∈ ids → d ∈ D → edge p q → informed o p d → informed o q d ∨ in_flight o p q d;
}.

(** A node changes.  It may forget nothing; what it learns, it was sent and delivers once; and
    for each link, what it knows is known at the other end or on the way there. *)
Record change_ok (o : Overlay) (p : PeerId) (s' : Network) (o' : Overlay) : Prop := {
  ch_node : node_ok p s';
  ch_commands : Forall (queued o' p) (commands s');
  ch_runloop : Forall (leaving o' p) (runloop s');
  ch_known : ∀ d, d ∈ D → known (nodes o p) d = true → known s' d = true;
  ch_out : ∃ l, out s' = out (nodes o p) ++ l ∧ NoDup l ∧
    ∀ d, d ∈ l ↔ d ∈ D ∧ known (nodes o p) d = false ∧ known s' d = true;
  ch_sourced : ∀ d, d ∈ D → known s' d = true → known (nodes o p) d = true ∨ sourced o' p d;
  ch_sends : ∀ q d, d ∈ D → edge p q → informed o' p d →
    informed o' q d ∨ in_flight o' p q d;
  ch_receives : ∀ q d, q ∈ ids → d ∈ D → edge q p → in_flight o q p d → informed o' p d ∨ in_flight o' q p d;
}.

Lemma sourced_mono o o' p d : said o ⊆ said o' → sourced o p d → sourced o' p d.
Proof. intros Hs (q & Hq & Hr). exists q. auto. Qed.

Lemma wave_change o0 o p s' sd :
  let o' := mkOverlay (<[p := s']> (nodes o)) sd in
  wave_ok o0 o → p ∈ ids → said o ⊆ sd → (∀ q d, (q, d) ∈ sd → q ∈ ids ∧ d ∈ D) →
  (∀ q d, q ≠ p → (q, d) ∈ sd → (q, d) ∈ said o) → change_ok o p s' o' → wave_ok o0 o'.
Proof.
  intros o' [W1 W2 W3 W4 W5 W6 W7] Hp Hsd Hin Hold [C1 C2 C3 C4 (k & Hk & Hknd & Hkin) C6 C7 C8].
  assert (∀ q, q ≠ p → nodes o' q = nodes o q) as Hne.
  { intros q Hq. apply fn_lookup_insert_ne. congruence. }
  assert (nodes o' p = s') as He by apply fn_lookup_insert.
  assert (∀ q d, d ∈ D → informed o q d → informed o' q d) as Hinf.
  { intros q d Hd. unfold informed. destruct (decide (q = p)) as [->|Hq].
    - rewrite He. intros [Hkn|Hs]; [by left; apply C4|right; by apply Hsd].
    - rewrite Hne by done. intros [Hkn|Hs]; [by left|right; by apply Hsd]. }
  assert (∀ q x, queued o q x → queued o' q x) as Hqueued.
  { intros q x []; constructor; auto. }
  assert (∀ q x, leaving o q x → leaving o' q x) as Hleaving.
  { intros q x []; constructor; auto. }
  split.
  - intros q Hq. destruct (decide (q = p)) as [->|Hqp]; [by rewrite He|rewrite Hne by done; auto].
  - intros q Hq. destruct (decide (q = p)) as [->|Hqp]; [by rewrite He|rewrite Hne by done].
    eapply Forall_impl; [by apply W2|]. apply Hqueued.
  - intros q Hq. destruct (decide (q = p)) as [->|Hqp]; [by rewrite He|rewrite Hne by done].
    eapply Forall_impl; [by apply W3|]. apply Hleaving.
  - intros q Hq. destruct (W4 q Hq) as (l & Hl & Hnd & Hlin).
    destruct (decide (q = p)) as [->|Hqp]; [rewrite He|rewrite Hne by done; by exists l].
    exists (l ++ k). rewrite Hk, Hl, app_assoc. split; [done|]. split.
    + apply NoDup_app. split; [done|]. split; [|done]. intros d Hd Hd'.
      apply Hlin in Hd as [_ Hd]. apply Hkin in Hd' as (_ & Hd' & _). congruence.
    + intros d. rewrite elem_of_app, Hlin, Hkin. split; [naive_solver|]. intros [Hd Hd'].
      destruct (known (nodes o p) d); auto.
  - intros q d Hq Hd. destruct (decide (q = p)) as [->|Hqp]; [rewrite He|rewrite Hne by done].
    + intros Hkn. destruct (C6 d Hd Hkn); [|done]. eapply sourced_mono; [done|]. by apply W5.
    + intros Hkn. eapply sourced_mono; [done|]. by apply W5.
  - apply Hin.
  - intros q r d Hq Hd Hqr Hinfq. destruct (decide (q = p)) as [->|Hqp].
    + by apply C7.
    + assert (informed o q d) as Hiq.
      { revert Hinfq. unfold informed. rewrite Hne by done. intros [|Hs]; [by left|]. right. by apply Hold. }
      destruct (W7 q r d Hq Hd Hqr Hiq) as [Hi|Hf]; [left; by apply Hinf|].
      destruct (decide (r = p)) as [->|Hrp]; [by apply C8|]. right. revert Hf. unfold in_flight.
      by rewrite !Hne.
Qed.

(** ** The steps of a wave *)

Lemma node_ok_same p s s' :
  muxer s' = muxer s → history s' = history s → topics s' = topics s → config s' = config s →
  node_ok p s → node_ok p s'.
Proof.
  intros Hm Hh Ht Hc [O1 O2 O3 O4 O5].
  split; [by rewrite Hm|by rewrite Hm|by rewrite Hh|by rewrite Ht|by rewrite Hc].
Qed.

(** A node whose queues change only. *)
Lemma change_queues o0 o p s' :
  let o' := mkOverlay (<[p := s']> (nodes o)) (said o) in
  wave_ok o0 o → p ∈ ids →
  muxer s' = muxer (nodes o p) → history s' = history (nodes o p) → topics s' = topics (nodes o p) →
  config s' = config (nodes o p) → Forall (queued o p) (commands s') → Forall (leaving o p) (runloop s') →
  (∀ q d, d ∈ D → edge p q → in_flight o p q d → in_flight o' p q d) →
  (∀ q d, q ∈ ids → d ∈ D → edge q p → in_flight o q p d → in_flight o' q p d) →
  wave_ok o0 o'.
Proof.
  intros o' W Hp Hm Hh Ht Hcfg Hc Hr Hs Hv.
  assert (∀ d, known s' d = known (nodes o p) d) as Hk by (intros d; by apply known_history).
  assert (∀ q d, informed o' q d ↔ informed o q d) as Hi.
  { intros q d. unfold informed. simpl. destruct (decide (q = p)) as [->|Hq].
    - by rewrite fn_lookup_insert, Hk.
    - by rewrite fn_lookup_insert_ne. }
  apply wave_change; [done..|apply W|done|]. split.
  - by apply (node_ok_same p (nodes o p)), W.
  - eapply Forall_impl; [exact Hc|]. intros x []; constructor; try done; by apply Hi.
  - eapply Forall_impl; [exact Hr|]. intros x []; constructor; try done; by apply Hi.
  - intros d _. by rewrite Hk.
  - exists []. unfold out. rewrite Ht, app_nil_r. split; [done|]. split; [constructor|].
    intros d. rewrite Hk. split; [by intros ?%elem_of_nil|]. intros (_ & ? & ?). congruence.
  - intros d _. rewrite Hk. by left.
  - intros q d Hd He Hin. apply Hi in Hin. destruct (wv_spread o0 o W p q d Hp Hd He Hin) as [|Hf].
    + left. by apply Hi.
    + right. by apply Hs.
  - intros q d Hq Hd He Hf. right. by apply Hv.
Qed.

Lemma gmsg_inj d d' : gmsg d = gmsg d' → d = d'.
Proof. by intros [= ->]. Qed.

Lemma edge_ne p q : p ∈ ids → edge p q → q ∈ ids ∧ q ≠ p ∧ edge q p.
Proof. intros Hp He. destruct (Hviews p q Hp He) as (? & ? & ? & _). auto. Qed.

(** A node hands a message to its runloop. *)
Lemma wave_send o0 o p c r now ready s' :
  wave_ok o0 o → p ∈ ids → commands (nodes o p) = c :: r → (∀ e, c ≠ InjectEvent e) →
  poll_next prof now false (nodes o p) = Some (ready, s') →
  wave_ok o0 (mkOverlay (<[p := s']> (nodes o)) (said o)).
Proof.
  intros W Hp Hc Hno Hpoll. pose proof (wv_commands o0 o W p Hp) as Hq. rewrite Hc in Hq.
  inversion Hq as [|? ? Hhead Htail]; subst. inversion Hhead as [q d Hd He Hi|]; subst; [|by edestruct Hno].
  unfold poll_next in Hpoll. rewrite Hc in Hpoll. injection Hpoll as _ <-.
  apply (change_queues o0); try done; simpl.
  - apply Forall_app. split; [by apply (wv_runloop o0 o W)|]. apply Forall_singleton. by constructor.
  - intros q' d' Hd' He'. destruct (edge_ne p q' Hp He') as (_ & Hne & _). unfold in_flight. simpl.
    rewrite !fn_lookup_insert, fn_lookup_insert_ne by done. simpl. rewrite Hc, elem_of_cons, elem_of_app.
    intros [[Heq|Hin]|[Hin|Hin]]; auto. right. left. right. apply list_elem_of_singleton. by simplify_eq.
  - intros q' d' Hq' Hd' He'. destruct (edge_ne q' p Hq' He') as (_ & Hne & _). unfold in_flight. simpl.
    rewrite !fn_lookup_insert, fn_lookup_insert_ne by done. simpl. rewrite Hc, elem_of_cons.
    intros [Hin|[Hin|[Heq|Hin]]]; [auto..|done|auto].
Qed.

Lemma carried_gmsg d : d ∈ D → carried (gmsg d) = [gmsg d].
Proof.
  intros Hd. unfold carried. rewrite encode_spec, (proj2 Hdata d Hd). cbn [app].
  rewrite (read_stream max [gmsg d] [frame_of (gmsg d)]); [done| |done]. simpl. by rewrite (proj2 Hdata d Hd).
Qed.

(** A message arrives. *)
Lemma wave_arrive o0 o p q m r :
  wave_ok o0 o → p ∈ ids → q ∈ ids → p ≠ q → runloop (nodes o p) = RSendMessage q (conn p q) m :: r →
  wave_ok o0 (with_nodes (<[p := with_runloop r (nodes o p)]>
    (<[q := push (arrivals p q m) (nodes o q)]> (nodes o))) o).
Proof.
  intros W Hp Hq Hpq Hr. pose proof (wv_runloop o0 o W p Hp) as Hall. rewrite Hr in Hall.
  inversion Hall as [|? ? Hhead Htail]; subst. inversion Hhead as [? d Hd He Hi]; subst.
  destruct (edge_ne p q Hp He) as (_ & Hne & He').
  set (s1 := push (arrivals p q (gmsg d)) (nodes o q)).
  set (o1 := mkOverlay (<[q := s1]> (nodes o)) (said o)).
  assert (commands s1 = commands (nodes o q) ++ [InjectEvent (WireMessage p (conn q p) (gmsg d))]) as Hs1.
  { unfold s1, push, arrivals. by rewrite carried_gmsg. }
  assert (∀ r', r' ≠ q → nodes o1 r' = nodes o r') as Hno.
  { intros r' Hr'. by apply fn_lookup_insert_ne. }
  assert (nodes o1 p = nodes o p) as Hnp by by apply Hno.
  assert (nodes o1 q = s1) as Hnq by apply fn_lookup_insert.
  assert (wave_ok o0 o1) as W1.
  { apply (change_queues o0); try done; [| |intros r' d' ? _|intros r' d' ? ? He1].
    - rewrite Hs1. apply Forall_app. split; [by apply (wv_commands o0 o W)|]. apply Forall_singleton.
      by constructor.
    - by apply (wv_runloop o0 o W).
    - intros Hf. change (in_flight o1 q r' d'). revert Hf. unfold in_flight. rewrite Hnq, Hs1, elem_of_app.
      destruct (decide (r' = q)) as [->|Hr']; [rewrite Hnq, Hs1, elem_of_app|rewrite Hno by done]; simpl; tauto.
    - intros Hf. change (in_flight o1 r' q d'). revert Hf. unfold in_flight. rewrite Hnq, Hs1, elem_of_app.
      destruct (decide (r' = q)) as [->|Hr']; [rewrite Hnq, Hs1, elem_of_app|rewrite Hno by done]; simpl; tauto. }
  assert (with_nodes (<[p := with_runloop r (nodes o p)]> (<[q := s1]> (nodes o))) o =
    mkOverlay (<[p := with_runloop r (nodes o p)]> (nodes o1)) (said o1)) as -> by done.
  clearbody o1 s1. set (o2 := mkOverlay _ _).
  assert (∀ r', r' ≠ p → nodes o2 r' = nodes o1 r') as Hno2.
  { intros r' Hr'. by apply fn_lookup_insert_ne. }
  assert (nodes o2 p = with_runloop r (nodes o p)) as Hnp2 by apply fn_lookup_insert.
  apply (change_queues o0); [done..|by rewrite Hnp|by rewrite Hnp|by rewrite Hnp|by rewrite Hnp| | | |].
  - simpl. rewrite <-Hnp. by apply (wv_commands o0 o1 W1).
  - pose proof (wv_runloop o0 o1 W1 p Hp) as Hall1. rewrite Hnp, Hr in Hall1. by apply Forall_cons in Hall1 as [_ ?].
  - intros r' d' Hd' He1 Hf. change (in_flight o2 p r' d'). destruct (edge_ne p r' Hp He1) as (_ & Hne1 & _).
    revert Hf. unfold in_flight. rewrite Hnp2, Hno2, Hnp, Hr, elem_of_cons by done. simpl.
    intros [Hin|[[Heq|Hin]|Hin]]; auto. injection Heq as -> _ Hdd. right. right. rewrite Hnq, Hs1, Hdd.
    apply elem_of_app. right. by left.
  - intros r' d' Hr' Hd' He1 Hf. change (in_flight o2 r' p d'). destruct (edge_ne r' p Hr' He1) as (_ & Hne1 & _).
    revert Hf. unfold in_flight. rewrite Hnp2, Hno2, Hnp by done. done.
Qed.

Lemma informed_sourced o0 o p d : wave_ok o0 o → p ∈ ids → d ∈ D → informed o p d → sourced o p d.
Proof. intros W Hp Hd [Hk|Hs]; [by apply (wv_sourced o0 o W)|]. exists p. split; [done|apply rtc_refl]. Qed.

Lemma queued_mono o o' p x : (∀ q d, d ∈ D → informed o q d → informed o' q d) → queued o p x → queued o' p x.
Proof. intros Hi []; constructor; auto. Qed.
Lemma leaving_mono o o' p x : (∀ q d, d ∈ D → informed o q d → informed o' q d) → leaving o p x → leaving o' p x.
Proof. intros Hi []; constructor; auto. Qed.

(** A node takes a message. *)
Lemma wave_take o0 o p q d r s' sent :
  wave_ok o0 o → p ∈ ids → d ∈ D → edge p q → informed o q d →
  commands (nodes o p) = InjectEvent (WireMessage q (conn p q) (gmsg d)) :: r →
  took p q d (with_commands r (nodes o p)) s' sent →
  wave_ok o0 (mkOverlay (<[p := s']> (nodes o)) (said o)).
Proof.
  intros W Hp Hd He Hi Hc [K1 K2 K3 K4 K5 K6 K7]. set (o' := mkOverlay _ _).
  change (known (with_commands r (nodes o p))) with (known (nodes o p)) in *.
  change (out (with_commands r (nodes o p))) with (out (nodes o p)) in *. simpl in K2, K3.
  destruct (edge_ne p q Hp He) as (Hq & Hqp & He').
  assert (nodes o' p = s') as Hnp by apply fn_lookup_insert.
  assert (∀ q', q' ≠ p → nodes o' q' = nodes o q') as Hno by (intros; by apply fn_lookup_insert_ne).
  assert (known s' d = true) as Hkd by (rewrite K5, bool_decide_true, orb_true_r by done; done).
  assert (∀ q' d', d' ∈ D → informed o q' d' → informed o' q' d') as Hinf.
  { intros q' d' Hd' [Hk|Hs]; [left|by right]. destruct (decide (q' = p)) as [->|Hne]; [|by rewrite Hno].
    by rewrite Hnp, K5, Hk. }
  pose proof (wv_commands o0 o W p Hp) as Hall. rewrite Hc in Hall. apply Forall_cons in Hall as [_ Hall].
  apply wave_change; [done..|apply W|done|]. fold o'. split.
  - done.
  - rewrite K3. apply Forall_app. split; [eapply Forall_impl; [done|intros x; by apply queued_mono]|].
    apply Forall_forall. intros x (_ & q' & He1 & _ & ->)%K7. constructor; [done..|]. left. by rewrite Hnp.
  - rewrite K2. eapply Forall_impl; [by apply (wv_runloop o0 o W)|]. intros x. by apply leaving_mono.
  - intros d' Hd' Hk. by rewrite K5, Hk.
  - eexists. split; [done|]. destruct (known (nodes o p) d) eqn:Hk; (split; [constructor; [by intros ?%elem_of_nil|constructor]||constructor|]).
    + intros d'. split; [by intros ?%elem_of_nil|]. intros (Hd' & Hk' & Hs'). rewrite K5, Hk' in Hs' by done.
      apply bool_decide_eq_true in Hs' as ->. congruence.
    + intros d'. rewrite list_elem_of_singleton. split; [by intros ->|]. intros (Hd' & Hk' & Hs').
      rewrite K5, Hk' in Hs' by done. by apply bool_decide_eq_true in Hs'.
  - intros d' Hd'. rewrite K5 by done. destruct (known (nodes o p) d'); [by left|].
    intros ->%bool_decide_eq_true. right. destruct (informed_sourced o0 o q d W Hq Hd Hi) as (f & Hf & Hr).
    exists f. split; [done|]. eapply rtc_r; [exact Hr|done].
  - intros q' d' Hd' He1 Hin. destruct (edge_ne p q' Hp He1) as (_ & Hne & _).
    assert (informed o p d' ∨ d' = d ∧ known (nodes o p) d = false) as [Hio|[-> Hnew]].
    { destruct Hin as [Hin|Hin]; [|by left; right]. rewrite Hnp, K5 in Hin by done.
      destruct (known (nodes o p) d') eqn:Hk; [by left; left|]. apply bool_decide_eq_true in Hin as ->. by right. }
    + destruct (wv_spread o0 o W p q' d' Hp Hd' He1 Hio) as [|Hf]; [left; by apply Hinf|right].
      revert Hf. unfold in_flight. rewrite Hnp, Hno, K2, K3, Hc, elem_of_cons, elem_of_app by done.
      intros [[|]|[|]]; [done|auto..].
    + destruct (decide (q' = q)) as [->|Hqq]; [left; by apply Hinf|]. right. left. rewrite Hnp, K3.
      apply elem_of_app. right. apply K7. split; [done|]. by exists q'.
  - intros q' d' Hq' Hd' He1. destruct (edge_ne q' p Hq' He1) as (_ & Hne & _). unfold in_flight.
    rewrite Hnp, Hno, K3, Hc, elem_of_cons, elem_of_app by done. intros [|[|[Heq|]]]; auto.
    injection Heq as -> _ ->. left. left. by rewrite Hnp.
Qed.

(** What a user's gossip does to the node: a message on every link. *)
Lemma gossip_effect p d s s' :
  p ∈ ids → node_ok p s → gossip_on n d s = Some (Ok tt, s') →
  node_ok p s' ∧ (∀ d', known s' d' = known s d') ∧ out s' = out s ∧ runloop s' = runloop s ∧
  ∃ sent, commands s' = commands s ++ sent ∧
    ∀ c, c ∈ sent ↔ ∃ r, edge p r ∧ c = SendMessage r (conn p r) (gmsg d).
Proof.
  intros Hp [O1 O2 O3 (t & Ht & Hn & Hc & Ha) O5] Hg. unfold gossip_on in Hg. rewrite Ht in Hg. simpl in Hg.
  destruct (gossip_spec 0 p d (conn p p) t) as (_ & _ & Hspec).
  destruct (gossip d t) as [res t'] eqn:Hgo. injection Hg as -> <-.
  destruct Hspec as (Hne & sent & Hcm & _ & Hin).
  assert (views t' = views t) as Hv.
  { unfold gossip in Hgo. destruct (_ <? _)%nat; [done|]. case_bool_decide; [done|]. injection Hgo as <-.
    apply views_send_to_active. }
  apply views_eq in Hv as (Hv1 & _ & _ & Hv2 & Hv3 & _).
  split; [split; [done..| |done]|split; [done|split; [|split; [done|]]]].
  - exists (drained t'). simpl. rewrite lookup_insert_eq, Hv1, Hv3. done.
  - unfold out. simpl. by rewrite lookup_insert_eq, Ht.
  - exists sent. simpl. rewrite Hcm, Hc. split; [done|]. intros c. rewrite Hin, Hn, Ha. split.
    + intros (r & c1 & a1 & Hr & ->). exists r. split; [by eexists|]. by rewrite <-(view_conn p r c1 a1 Hp Hr).
    + intros (r & [[c1 a1] Hr] & ->). exists r, c1, a1. split; [done|]. by rewrite (view_conn p r c1 a1 Hp Hr).
Qed.

Lemma wave_gossip o0 o p d s' :
  wave_ok o0 o → p ∈ ids → d ∈ D → gossip_on n d (nodes o p) = Some (Ok tt, s') →
  wave_ok o0 (mkOverlay (<[p := s']> (nodes o)) (said o ++ [(p, d)])).
Proof.
  intros W Hp Hd Hg. set (o' := mkOverlay _ _).
  destruct (gossip_effect p d _ s' Hp (wv_node o0 o W p Hp) Hg) as (Hok & Hk & Ho & Hr & sent & Hc & Hin).
  assert (nodes o' p = s') as Hnp by apply fn_lookup_insert.
  assert (∀ q', q' ≠ p → nodes o' q' = nodes o q') as Hno by (intros; by apply fn_lookup_insert_ne).
  assert (∀ q' d', informed o' q' d' ↔ informed o q' d' ∨ q' = p ∧ d' = d) as Hinf.
  { intros q' d'. unfold informed. simpl said. rewrite elem_of_app, list_elem_of_singleton.
    destruct (decide (q' = p)) as [->|Hne]; [rewrite Hnp, Hk|rewrite Hno by done]; naive_solver. }
  assert (∀ q' d', d' ∈ D → informed o q' d' → informed o' q' d') as Hmono.
  { intros q' d' _ ?. apply Hinf. by left. }
  apply wave_change; [done..|set_solver| | |].
  - intros q' d' [Hs|[= -> ->]%list_elem_of_singleton]%elem_of_app; [by apply (wv_said o0 o W)|done].
  - intros q' d' Hne [Hs|[= -> ->]%list_elem_of_singleton]%elem_of_app; done.
  - fold o'. split.
    + done.
    + rewrite Hc. apply Forall_app. split.
      * eapply Forall_impl; [by apply (wv_commands o0 o W)|]. intros x. by apply queued_mono.
      * apply Forall_forall. intros x (q' & He & ->)%Hin. constructor; [done..|]. apply Hinf. by right.
    + rewrite Hr. eapply Forall_impl; [by apply (wv_runloop o0 o W)|]. intros x. by apply leaving_mono.
    + intros d' _. by rewrite Hk.
    + exists []. rewrite Ho, app_nil_r. split; [done|]. split; [constructor|].
      intros d'. rewrite Hk. split; [by intros ?%elem_of_nil|]. intros (_ & ? & ?). congruence.
    + intros d' _. rewrite Hk. by left.
    + intros q' d' Hd' He Hi. destruct (edge_ne p q' Hp He) as (_ & Hne & _). apply Hinf in Hi as [Hi|[_ ->]].
      * destruct (wv_spread o0 o W p q' d' Hp Hd' He Hi) as [|Hf]; [left; by apply Hmono|right].
        revert Hf. unfold in_flight. rewrite Hnp, Hno, Hr, Hc, elem_of_app by done. tauto.
      * right. left. rewrite Hnp, Hc. apply elem_of_app. right. apply Hin. by exists q'.
    + intros q' d' Hq' Hd' He. destruct (edge_ne q' p Hq' He) as (_ & Hne & _). unfold in_flight.
      rewrite Hnp, Hno, Hc, elem_of_app by done. tauto.
Qed.

(** ** Progress *)

(** Whatever is in a channel, the node takes it: polling neither panics nor waits. *)
Lemma poll_wave o0 o p c r now :
  wave_ok o0 o → p ∈ ids → commands (nodes o p) = c :: r → in_time now →
  ∃ s', poll_next prof now false (nodes o p) = Some (true, s') ∧
  match c with
  | SendMessage q k m => s' = send_command (RSendMessage q k m) (with_commands r (nodes o p))
  | InjectEvent (WireMessage q k m) => ∃ d sent, k = conn p q ∧ m = gmsg d ∧ d ∈ D ∧ edge p q ∧
      informed o q d ∧ took p q d (with_commands r (nodes o p)) s' sent
  | _ => False
  end.
Proof.
  intros W Hp Hc Hnow. pose proof (wv_commands o0 o W p Hp) as Hall. rewrite Hc in Hall.
  apply Forall_cons in Hall as [Hhead _]. unfold poll_next. rewrite Hc. cbn [poll_recv].
  inversion Hhead as [q d Hd He Hi|q d Hd He Hi]; subst; simpl.
  - by eexists.
  - destruct (take_message p q d now (with_commands r (nodes o p)) Hp Hd He Hnow) as (s' & sent & Ha & Ht).
    { by apply (node_ok_same p (nodes o p)), W. }
    rewrite Ha. eexists. split; [done|]. by exists d, sent.
Qed.

Lemma wave_poll o0 o p now s' :
  wave_ok o0 o → p ∈ ids → in_time now → poll_next prof now false (nodes o p) = Some (true, s') →
  wave_ok o0 (with_nodes (<[p := s']> (nodes o)) o).
Proof.
  intros W Hp Hnow Hpoll. destruct (commands (nodes o p)) as [|c r] eqn:Hc.
  { unfold poll_next in Hpoll. by rewrite Hc in Hpoll. }
  destruct (poll_wave o0 o p c r now W Hp Hc Hnow) as (s1 & Hs1 & Hcase).
  rewrite Hpoll in Hs1. injection Hs1 as <-. destruct c as [| | |?|[]]; try done.
  - by apply (wave_send o0 o p _ r now true s' W Hp Hc).
  - destruct Hcase as (d & sent & -> & -> & Hd & He & Hi & Ht). by eapply wave_take.
Qed.

Lemma wave_calm_step o0 o o' : wave_ok o0 o → calm_step o o' → wave_ok o0 o'.
Proof. intros W []; [by eapply wave_poll|by apply wave_arrive]. Qed.

Lemma wave_invariant o0 o o' : wave_ok o0 o → rtc wave_step o o' → wave_ok o0 o'.
Proof.
  intros W Hr. induction Hr as [|o1 o2 o3 Hs _ IH]; [done|]. apply IH.
  destruct Hs; [by eapply wave_calm_step|by apply wave_gossip].
Qed.

(** *** How much is left to do *)

Definition command_weight (c : Command) : nat := match c with InjectEvent _ => 1 | _ => 3 end.
(** A message takes three steps from the channel of its sender to that of its receiver and
    through it, and data that a node does not know yet may become a message on each link. *)
Definition weight (p : PeerId) (s : Network) : nat :=
  sum_list_with command_weight (commands s) + 2 * length (runloop s) +
  sum_list_with (λ d, if known s d then 0 else 3 * size (view p)) D.
Definition work (o : Overlay) : nat := sum_list_with (λ p, weight p (nodes o p)) ids.

Lemma sum_list_le {A} (f g : A → nat) (l : list A) :
  (∀ x, x ∈ l → f x ≤ g x) → sum_list_with f l ≤ sum_list_with g l.
Proof.
  induction l as [|x l IH]; intros Hfg; simpl; [done|]. apply Nat.add_le_mono; [apply Hfg; by left|].
  apply IH. intros y Hy. apply Hfg. by right.
Qed.
Lemma sum_list_drop {A} (f g : A → nat) (l : list A) x k :
  x ∈ l → (∀ y, y ∈ l → f y ≤ g y) → f x + k ≤ g x → sum_list_with f l + k ≤ sum_list_with g l.
Proof.
  intros Hx Hfg Hk. induction l as [|y l IH]; [by apply elem_of_nil in Hx|]. simpl.
  assert (f y ≤ g y) by (apply Hfg; by left).
  apply elem_of_cons in Hx as [->|Hx].
  - assert (sum_list_with f l ≤ sum_list_with g l) by (apply sum_list_le; intros; apply Hfg; by right). lia.
  - assert (sum_list_with f l + k ≤ sum_list_with g l) by (apply IH; [done|intros; apply Hfg; by right]). lia.
Qed.

(** A node sends a message on each of its links at most. *)
Lemma sent_links p q d s s' sent : took p q d s s' sent →
  sum_list_with command_weight sent ≤ if known s d then 0 else 3 * size (view p).
Proof.
  intros [_ _ _ _ _ Hnd Hin].
  assert (sum_list_with command_weight sent = 3 * length sent) as ->.
  { assert (∀ c, c ∈ sent → command_weight c = 3) as Hw by (intros c (_ & r & _ & _ & ->)%Hin; done).
    clear Hnd Hin. induction sent as [|c sent IH]; simpl; [done|]. rewrite Hw by left.
    rewrite IH; [lia|]. intros x Hx. apply Hw. by right. }
  destruct (known s d) eqn:Hk.
  - destruct sent as [|c sent]; [done|]. assert (c ∈ c :: sent) as [? _]%Hin by left. congruence.
  - apply Nat.mul_le_mono_l. rewrite <-length_map_to_list,
      <-(length_fmap (λ x, SendMessage x.1 (conn p x.1) (gmsg d)) (map_to_list (view p))).
    apply submseteq_length, NoDup_submseteq; [done|]. intros c (_ & r & [a Ha] & _ & ->)%Hin.
    apply list_elem_of_fmap. exists (r, a). split; [done|]. by apply elem_of_map_to_list.
Qed.

Lemma weight_take p q d s s' sent : d ∈ D → took p q d s s' sent → weight p s' ≤ weight p s.
Proof.
  intros Hd Htk. pose proof (sent_links p q d s s' sent Htk) as Hs. destruct Htk as [_ K2 K3 _ K5 _ _].
  unfold weight. rewrite K2, K3, sum_list_with_app.
  assert (sum_list_with (λ d', if known s' d' then 0 else 3 * size (view p)) D +
      (if known s d then 0 else 3 * size (view p)) ≤
    sum_list_with (λ d', if known s d' then 0 else 3 * size (view p)) D); [|lia].
  apply (sum_list_drop _ _ D d); [done| |].
  - intros d' Hd'. rewrite K5 by done. destruct (known s d'); simpl; [done|]. case_bool_decide; lia.
  - rewrite K5, bool_decide_true, orb_true_r by done. lia.
Qed.

Lemma work_step o0 o o' : NoDup ids → wave_ok o0 o → calm_step o o' → work o' < work o.
Proof.
  intros Hids W Hs. unfold work. destruct Hs as [p now s' Hp Hnow Hpoll|p q m r Hp Hq Hpq Hr]; simpl.
  - pose proof (sum_list_insert weight ids (nodes o) p s' Hids Hp) as Hsum.
    enough (weight p s' < weight p (nodes o p)) by lia.
    destruct (commands (nodes o p)) as [|c r] eqn:Hc.
    { unfold poll_next in Hpoll. by rewrite Hc in Hpoll. }
    destruct (poll_wave o0 o p c r now W Hp Hc Hnow) as (s1 & Hs1 & Hcase).
    rewrite Hpoll in Hs1. injection Hs1 as <-. destruct c as [| |q k m|?|[]]; try done.
    + subst s'. unfold weight. simpl. rewrite Hc, length_app. simpl.
      change (known _) with (known (nodes o p)). lia.
    + destruct Hcase as (d & sent & -> & -> & Hd & _ & _ & Ht). apply weight_take in Ht; [|done].
      unfold weight in *. rewrite Hc. simpl in Ht. simpl sum_list_with at 3.
      change (known (with_commands r (nodes o p))) with (known (nodes o p)) in Ht. simpl. lia.
  - pose proof (wv_runloop o0 o W p Hp) as Hall. rewrite Hr in Hall. apply Forall_cons in Hall as [Hhead _].
    inversion Hhead as [? d Hd He Hi]; subst.
    set (s1 := push (arrivals p q (gmsg d)) (nodes o q)).
    pose proof (sum_list_insert weight ids (nodes o) q s1 Hids Hq) as Hsum.
    pose proof (sum_list_insert weight ids (<[q := s1]> (nodes o)) p (with_runloop r (nodes o p)) Hids Hp) as Hsum'.
    rewrite fn_lookup_insert_ne in Hsum' by done.
    assert (weight q s1 = weight q (nodes o q) + 1) as Hq1.
    { unfold weight, s1, push, arrivals. rewrite carried_gmsg by done. simpl.
      rewrite sum_list_with_app. simpl. change (known _) with (known (nodes o q)). lia. }
    assert (weight p (with_runloop r (nodes o p)) + 2 = weight p (nodes o p)) as Hp1.
    { unfold weight. rewrite Hr. simpl. change (known _) with (known (nodes o p)). lia. }
    lia.
Qed.

(** ** What becomes of gossip *)

Definition quiet (o : Overlay) : Prop :=
  ∀ p, p ∈ ids → commands (nodes o p) = [] ∧ runloop (nodes o p) = [].
(** Before the wave: nothing is on the way, and nobody remembers the data. *)
Record calm (o : Overlay) : Prop := {
  cm_node : ∀ p, p ∈ ids → node_ok p (nodes o p);
  cm_quiet : quiet o;
  cm_fresh : ∀ p d, p ∈ ids → d ∈ D → known (nodes o p) d = false;
  cm_said : said o = [];
}.

Lemma wave_start o : calm o → wave_ok o o.
Proof.
  intros [C1 C2 C3 C4]. split.
  - done.
  - intros p Hp. by rewrite (proj1 (C2 p Hp)).
  - intros p Hp. by rewrite (proj2 (C2 p Hp)).
  - intros p Hp. exists []. rewrite app_nil_r. split; [done|]. split; [constructor|]. intros d.
    split; [by intros ?%elem_of_nil|]. intros [Hd Hk]. rewrite C3 in Hk; done.
  - intros p d Hp Hd. by rewrite C3.
  - intros p d. rewrite C4. by intros ?%elem_of_nil.
  - intros p q d Hp Hd _ [Hk|Hs]; [by rewrite C3 in Hk|]. rewrite C4 in Hs. by apply elem_of_nil in Hs.
Qed.

Lemma quiet_spread o0 o p q d :
  wave_ok o0 o → quiet o → d ∈ D → p ∈ ids → informed o p d → rtc edge p q → q ∈ ids ∧ informed o q d.
Proof.
  intros W Hqu Hd Hp Hi Hr. induction Hr as [p|p x q He _ IH]; [done|].
  destruct (edge_ne p x Hp He) as (Hx & _ & _). apply IH; [done|].
  destruct (wv_spread o0 o W p x d Hp Hd He Hi) as [|Hf]; [done|]. exfalso. revert Hf. unfold in_flight.
  destruct (Hqu p Hp) as [-> ->]. destruct (Hqu x Hx) as [-> _].
  by intros [?%elem_of_nil|[?%elem_of_nil|?%elem_of_nil]].
Qed.

Lemma nf_quiet o0 o : wave_ok o0 o → nf calm_step o ↔ quiet o.
Proof.
  intros W. split.
  - intros Hnf p Hp. split.
    + destruct (commands (nodes o p)) as [|c r] eqn:Hc; [done|]. exfalso. apply Hnf.
      assert (in_time T) as Hnow by (unfold in_time; lia).
      destruct (poll_wave o0 o p c r T W Hp Hc Hnow) as (s' & Hs' & _). eexists. by eapply node_polls.
    + destruct (runloop (nodes o p)) as [|c r] eqn:Hr; [done|]. exfalso. apply Hnf.
      pose proof (wv_runloop o0 o W p Hp) as Hall. rewrite Hr in Hall. apply Forall_cons in Hall as [Hhead _].
      inversion Hhead as [q d Hd He Hi]; subst. destruct (edge_ne p q Hp He) as (Hq & Hne & _).
      eexists. apply (message_arrives o p q (gmsg d) r); [done..|congruence|done].
  - intros Hqu [o' Hs]. destruct Hs as [p now s' Hp _ Hpoll|p q m r Hp _ _ Hr].
    + unfold poll_next in Hpoll. by rewrite (proj1 (Hqu p Hp)) in Hpoll.
    + by rewrite (proj2 (Hqu p Hp)) in Hr.
Qed.

(** C13: a wave of gossip comes to an end.  Whatever users gossiped and however far it has
    spread, once they pause, the nodes take [work] more steps at most, in whichever order,
    at whichever instants of the window in which they remember; and the only
    states in which no step is possible are those in which nothing is on its way: until
    then no node panics or gets stuck on what it is sent. *)
Theorem gossip_settles o0 o :
  NoDup ids → calm o0 → rtc wave_step o0 o →
  (∀ k o', nsteps calm_step k o o' → k + work o' ≤ work o) ∧
  (∀ o', rtc calm_step o o' → nf calm_step o' ↔ quiet o').
Proof.
  intros Hids Hcalm Hr. pose proof (wave_invariant o0 o0 o (wave_start o0 Hcalm) Hr) as W. split.
  - intros k o' Hk. induction Hk as [o|k o o1 o' Hs _ IH]; [done|].
    pose proof (work_step o0 o o1 Hids W Hs).
    specialize (IH (rtc_r _ _ _ Hr (wave_calm _ _ Hs)) (wave_calm_step o0 o o1 W Hs)). lia.
  - intros o' Hr'. apply (nf_quiet o0). induction Hr' as [|o o1 o' Hs _ IH]; [done|].
    apply IH; [by eapply rtc_r, wave_calm|by eapply wave_calm_step].
Qed.

(** C12: gossip reaches everyone, once.  At any time the listeners at a node have received,
    after what they had before, each data at most once and only what the user of a node gossiped
    from which links lead to it.  When nothing is on its way any more, all that was gossiped
    at a node has been received at every node that links lead to from there, but
    possibly where the user gossiped the very same. *)
Theorem gossip_reaches o0 o p :
  calm o0 → rtc wave_step o0 o → p ∈ ids →
  ∃ l, out (nodes o p) = out (nodes o0 p) ++ l ∧ NoDup l ∧
    (∀ d, d ∈ l → ∃ q, (q, d) ∈ said o ∧ rtc edge q p) ∧
    (quiet o → ∀ q d, (q, d) ∈ said o → rtc edge q p → d ∈ l ∨ (p, d) ∈ said o).
Proof.
  intros Hcalm Hr Hp. pose proof (wave_invariant o0 o0 o (wave_start o0 Hcalm) Hr) as W.
  destruct (wv_out o0 o W p Hp) as (l & Hl & Hnd & Hin). exists l. split; [done|]. split; [done|]. split.
  - intros d [Hd Hk]%Hin. by apply (wv_sourced o0 o W).
  - intros Hqu q d Hs Hqp. destruct (wv_said o0 o W q d Hs) as [Hq Hd].
    destruct (quiet_spread o0 o q p d W Hqu Hd Hq (or_intror Hs) Hqp) as [_ [Hk|Hi]]; [left|by right].
    by apply Hin.
Qed.
End broadcast.
