(* ===== verification/Triangle.v ===== *)
(** Three nodes that know each other, and runs of gossip among them: an overlay for
    [Broadcast], grown by the membership protocol itself. *)
From stdpp Require Import functions relations.
From S2P Require Import Prelude Extern Chain Sandbox Cache Wire Behaviour Muxer Topic TopicProps Network NetworkProps NetworkSpec Codec Broadcast.

Definition txs : rstring := str "txs".
Definition word : bytes := bstr "x".
Definition members : list (@PeerId sandbox_libp2p) := [peer 0; peer 1; peer 2].
Definition conn_to (p q : @PeerId sandbox_libp2p) : @ConnectionId sandbox_libp2p := conn q.

(** Another node connects and asks to be a neighbour. *)
Definition meet (j : nat) (s : state) : state :=
  do_event (WireMessage (peer j) (conn j) (message_new txs (ANeighbour (mkNeighbour (example_node j) false))))
    (do_event (ConnectionEstablished (example_node j) (false, N.of_nat j) (conn j)) s).
Definition do_polls (k : nat) (s : state) : state := Nat.iter k (do_poll 0) s.
Definition grown (i : nat) : state :=
  do_polls 12 (foldr meet (do_join (network_start (config_default []) (peer i)))
    (filter (λ j, j ≠ i) [0; 1; 2])).
(** The node, after its runloop took all that it was given. *)
Definition member (i : nat) : Network := with_runloop [] (grown i).2.
(** The active view of a node. *)
Definition view_of (s : Network) :
    gmap (@PeerId sandbox_libp2p) (@ConnectionId sandbox_libp2p * gset (@Multiaddr sandbox_libp2p)) :=
  match topics s !! txs with Some t => active_peers t | None => ∅ end.
Definition members_view (p : @PeerId sandbox_libp2p) :
    gmap (@PeerId sandbox_libp2p) (@ConnectionId sandbox_libp2p * gset (@Multiaddr sandbox_libp2p)) :=
  view_of (member p).
Definition triangle : Overlay := mkOverlay member [].

(** *** They make up a calm overlay *)

Lemma do_poll_reachable now s : rtc (net_step Debug) s (do_poll now s).
Proof.
  destruct s as [g self]. unfold do_poll. cbn [fst snd].
  destruct (poll_next Debug now false self) as [[r self']|] eqn:Hp; [|apply rtc_refl].
  apply rtc_once. by apply (step_poll Debug g self now false r).
Qed.
Lemma do_polls_reachable k s : rtc (net_step Debug) s (do_polls k s).
Proof.
  induction k as [|k IH]; [apply rtc_refl|]. etrans; [exact IH|]. apply do_poll_reachable.
Qed.
(** An event that is announced as the swarm does. *)
Definition announced (e : BehaviourEvent) (s : state) : bool := bool_decide (is_Some (announce s.1 e)).

Lemma meet_reachable j s :
  announced (ConnectionEstablished (example_node j) (false, N.of_nat j) (conn j)) s &&
  announced (WireMessage (peer j) (conn j) (message_new txs (ANeighbour (mkNeighbour (example_node j) false))))
    (do_event (ConnectionEstablished (example_node j) (false, N.of_nat j) (conn j)) s) = true →
  rtc (net_step Debug) s (meet j s).
Proof.
  intros [H1 H2]%andb_true_iff. eapply rtc_l; [by apply (do_event_step _ _ H1)|].
  apply rtc_once. by apply (do_event_step _ _ H2).
Qed.

Lemma grown_reachable i : i ∈ [0; 1; 2] → rtc (net_step Debug) (network_start (config_default []) (peer i)) (grown i).
Proof.
  intros Hi. etrans; [|apply do_polls_reachable].
  eapply rtc_l; [apply do_join_step|].
  assert (∀ j k, [j; k] = filter (λ j, j ≠ i) [0; 1; 2] →
    let s := do_join (network_start (config_default []) (peer i)) in
    rtc (net_step Debug) s (meet j (meet k s))) as Hmeet.
  { intros j k Hjk s. etrans; apply meet_reachable;
      repeat (apply elem_of_cons in Hi as [->|Hi]; [by injection Hjk as -> ->; vm_compute|]);
      by apply elem_of_nil in Hi. }
  repeat (apply elem_of_cons in Hi as [->|Hi]; [by apply Hmeet|]). by apply elem_of_nil in Hi.
Qed.

Notation T0 := 1%Z.
Notation L0 := (5 * 10 ^ 9)%Z.
(** One mebibyte. *)
Definition max0 : nat := Nat.pow 2 20.
#[local] Opaque max0.

#[local] Instance Link_eq_dec : EqDecision Link.
Proof. solve_decision. Defined.

(** What can be checked of a view and of a node by evaluation. *)
Definition view_check (p : @PeerId sandbox_libp2p) : bool :=
  forallb (λ x, bool_decide (x.1 ∈ members) && bool_decide (p ≠ x.1) &&
    bool_decide (is_Some (members_view x.1 !! p)) && bool_decide (x.2.1 = conn_to p x.1) &&
    bool_decide (link (muxer (member p)) (x.1, conn_to p x.1) = Some (AssignedTo txs)))
    (map_to_list (members_view p)).
Definition node_check (s : Network) : bool :=
  match commands s, history s, topics s !! txs with
  | [], Some h, Some t =>
      bool_decide (lifespan h = L0) && bool_decide (em_data h !! hash_of (gmsg txs word) = None) &&
      bool_decide (name (topic_config t) = txs) && bool_decide (cmds t = []) &&
      bool_decide (max_transmit_size (config s) = max0)
  | _, _, _ => false
  end.
Lemma views_checked : forallb view_check members = true.
Proof. vm_compute. reflexivity. Qed.
Lemma nodes_checked : forallb (λ p, node_check (member p)) members = true.
Proof. vm_compute. reflexivity. Qed.

Lemma view_checked p q : p ∈ members → edge members_view p q →
  q ∈ members ∧ p ≠ q ∧ edge members_view q p ∧ (∃ a, members_view p !! q = Some (conn_to p q, a)) ∧
  link (muxer (member p)) (q, conn_to p q) = Some (AssignedTo txs).
Proof.
  intros Hp [[c a] Hq]. pose proof views_checked as Hv. rewrite forallb_forall in Hv.
  specialize (Hv p (proj1 (list_elem_of_In _ _) Hp)). unfold view_check in Hv. rewrite forallb_forall in Hv.
  specialize (Hv (q, (c, a))). rewrite <-list_elem_of_In, elem_of_map_to_list in Hv. specialize (Hv Hq).
  cbn [fst snd] in Hv. rewrite !andb_true_iff, !bool_decide_eq_true in Hv. destruct Hv as [[[[H1 H2] H3] H4] H5].
  split; [done|]. split; [done|]. split; [done|]. split; [|done]. exists a. by rewrite Hq, H4.
Qed.

Lemma triangle_views : views_ok members conn_to members_view.
Proof. intros p q Hp He. destruct (view_checked p q Hp He) as (? & ? & ? & ? & _). done. Qed.

Lemma triangle_data : data_ok txs max0 [word].
Proof.
  split.
  - by intros d d' ->%list_elem_of_singleton ->%list_elem_of_singleton.
  - intros d ->%list_elem_of_singleton. vm_compute. reflexivity.
Qed.

Lemma checked_ok p view (s : Network) :
  mux_ok (muxer s) → node_check s = true → view p = view_of s →
  (∀ q, edge view p q → link (muxer s) (q, conn_to p q) = Some (AssignedTo txs)) →
  node_ok txs max0 T0 L0 conn_to view [word] p s ∧ commands s = [] ∧ known txs T0 s word = false.
Proof.
  intros Hm Hn Hv Hl. unfold node_check, view_of in *.
  destruct (commands s) eqn:Hc; [|done]. destruct (history s) as [h|] eqn:Hh; [|done].
  destruct (topics s !! txs) as [t|] eqn:Ht; [|done].
  rewrite !andb_true_iff, !bool_decide_eq_true in Hn. destruct Hn as [[[[H1 H2] H3] H4] H5].
  split; [split; [done|done| | |done]|split; [done|]].
  - exists h. split; [done|]. split; [done|]. intros d t' ->%list_elem_of_singleton. by rewrite H2.
  - by exists t.
  - unfold known, seen, es_contains, em_get. by rewrite Hh, H2.
Qed.

Lemma mux_flushed l (s : Network) : net_ok s → mux_ok (muxer (with_runloop l s)).
Proof. intros Hok. exact (nk_mux s Hok). Qed.

Lemma member_mux p : p ∈ members → mux_ok (muxer (member p)).
Proof.
  intros Hp. pose proof (grown_reachable p Hp) as Hr. rewrite (surjective_pairing (grown p)) in Hr.
  apply net_inv_reachable in Hr as [Hok _]; [|exact default_config_ok]. exact (mux_flushed [] _ Hok).
Qed.

Lemma member_ok p : p ∈ members →
  node_ok txs max0 T0 L0 conn_to members_view [word] p (member p) ∧ commands (member p) = [] ∧
  known txs T0 (member p) word = false.
Proof.
  intros Hp. apply checked_ok; [by apply member_mux| |done|].
  - pose proof nodes_checked as Hn. rewrite forallb_forall in Hn.
    exact (Hn p (proj1 (list_elem_of_In _ _) Hp)).
  - intros q He. by destruct (view_checked p q Hp He) as (_ & _ & _ & _ & ?).
Qed.

Lemma triangle_calm : calm txs max0 T0 L0 members conn_to members_view [word] triangle.
Proof.
  split.
  - intros p Hp. by apply member_ok.
  - intros p Hp. split; [|done]. by apply member_ok.
  - intros p d Hp ->%list_elem_of_singleton. by apply member_ok.
  - done.
Qed.

(** ** Runs *)

Notation tri_calm := (calm_step Debug max0 T0 L0 members conn_to).
Notation tri_wave := (wave_step Debug txs max0 T0 L0 members conn_to [word]).

(** A node polls; the first message that a node gave to its runloop arrives. *)
Inductive Turn := Poll (p : nat) | Arrive (p : nat).
Definition turn (o : Overlay) (t : Turn) : Overlay :=
  match t with
  | Poll p =>
      match poll_next Debug T0 false (nodes o p) with
      | Some (true, s) => if bool_decide (p ∈ members) then with_nodes (<[p := s]> (nodes o)) o else o
      | _ => o
      end
  | Arrive p =>
      match runloop (nodes o p) with
      | RSendMessage q c m :: r =>
          if bool_decide (p ∈ members) && bool_decide (q ∈ members) && bool_decide (p ≠ q) &&
            bool_decide (c = conn_to p q)
          then with_nodes (<[p := with_runloop r (nodes o p)]>
            (<[q := push (arrivals max0 conn_to p q m) (nodes o q)]> (nodes o))) o
          else o
      | _ => o
      end
  end.
Definition turns (l : list Turn) (o : Overlay) : Overlay := foldl turn o l.
Definition quiet_check (o : Overlay) : bool :=
  forallb (λ p, match commands (nodes o p), runloop (nodes o p) with [], [] => true | _, _ => false end) members.

Lemma turn_calm o t : rtc tri_calm o (turn o t).
Proof.
  destruct t as [p|p]; unfold turn.
  - destruct (poll_next Debug T0 false (nodes o p)) as [[[] s]|] eqn:Hp; [|apply rtc_refl..].
    case_bool_decide as Hin; [|apply rtc_refl]. apply rtc_once.
    apply (node_polls _ _ _ _ _ _ o p T0 s Hin); [split; [done|]|done]. by apply Z.leb_le.
  - destruct (runloop (nodes o p)) as [|[| | |q c m] r] eqn:Hr; try apply rtc_refl.
    destruct (_ && _) eqn:Hb; [|apply rtc_refl]. rewrite !andb_true_iff, !bool_decide_eq_true in Hb.
    destruct Hb as [[[? ?] ?] ->]. apply rtc_once. by apply message_arrives.
Qed.
Lemma turns_calm l o : rtc tri_calm o (turns l o).
Proof.
  revert o. induction l as [|t l IH]; intros o; simpl; [apply rtc_refl|].
  etrans; [apply turn_calm|apply IH].
Qed.
Lemma turns_wave l o : rtc tri_wave o (turns l o).
Proof.
  pose proof (turns_calm l o) as Hr. induction Hr as [|o1 o2 o3 Hs _ IH]; [apply rtc_refl|].
  eapply rtc_l; [by apply wave_calm|done].
Qed.
Lemma quiet_checked o : quiet_check o = true → quiet members o.
Proof.
  unfold quiet_check. rewrite forallb_forall. intros Hq p Hp%list_elem_of_In. specialize (Hq p Hp).
  cbn beta in Hq. destruct (commands (nodes o p)); [|done]. by destruct (runloop (nodes o p)).
Qed.

(** Node 0 gossips. *)
Definition spoken : Overlay :=
  match gossip_on txs word (member 0) with
  | Some (Ok tt, s) => mkOverlay (<[peer 0 := s]> member) [(peer 0, word)]
  | _ => triangle
  end.
Lemma spoken_wave : rtc tri_wave triangle spoken.
Proof.
  apply rtc_once. unfold spoken.
  assert (match gossip_on txs word (member 0) with Some (Ok tt, _) => true | _ => false end = true) as Hg
    by (vm_compute; reflexivity).
  destruct (gossip_on txs word (member 0)) as [[[[]|] s]|] eqn:He; [|discriminate Hg..].
  apply (user_gossips _ _ _ _ _ _ _ _ triangle (peer 0) word s); [by left|by left|exact He].
Qed.

(** Both links of node 0 are equally fast; its link to node 1 is slow, so that the message comes
    to node 1, and back to node 0, by node 2. *)
Definition fast : list Turn :=
  [Poll 0; Poll 0; Arrive 0; Arrive 0; Poll 1; Poll 2; Poll 1; Poll 2; Arrive 1; Arrive 2; Poll 1; Poll 2].
Definition slow : list Turn :=
  [Poll 0; Poll 0; Arrive 0; Poll 2; Poll 2; Arrive 2; Poll 1; Poll 1; Arrive 1; Poll 0; Poll 0; Arrive 0;
   Arrive 0; Poll 1; Poll 2].
Definition heard (o : Overlay) : list (list bytes) := (λ p, out txs (nodes o p)) <$> members.


Lemma members_NoDup : NoDup members.
Proof. apply (bool_decide_unpack _). vm_compute. exact I. Qed.

Lemma gossip_settles_witness :
  (∀ k o', nsteps tri_calm k spoken o' → k ≤ 24) ∧ nf tri_calm (turns slow spoken).
Proof.
  destruct (gossip_settles Debug txs max0 T0 L0 members conn_to members_view [word] ltac:(discriminate)
    triangle_views triangle_data triangle spoken members_NoDup triangle_calm spoken_wave) as [Hk Hn].
  split.
  - intros k o' Hs. specialize (Hk k o' Hs).
    assert (work txs T0 members members_view [word] spoken = 24) as Hw by (vm_compute; reflexivity).
    rewrite Hw in Hk. etransitivity; [apply Nat.le_add_r|exact Hk].
  - apply Hn; [apply turns_calm|]. apply quiet_checked. vm_compute. reflexivity.
Defined.

Lemma gossip_reaches_witness :
  ∃ l, out txs (nodes (turns slow spoken) (peer 1)) = l ∧ NoDup l ∧ word ∈ l.
Proof.
  assert (rtc tri_wave triangle (turns slow spoken)) as Hr by (etrans; [exact spoken_wave|apply turns_wave]).
  destruct (gossip_reaches Debug txs max0 T0 L0 members conn_to members_view [word] ltac:(discriminate)
    triangle_views triangle_data triangle (turns slow spoken) (peer 1) triangle_calm Hr) as (l & Hl & Hnd & _ & Hq).
  { right. left. }
  exists l. split; [rewrite Hl; vm_compute; reflexivity|]. split; [exact Hnd|].
  assert (said (turns slow spoken) = [(peer 0, word)]) as Hs by (vm_compute; reflexivity).
  destruct (Hq ltac:(apply quiet_checked; vm_compute; reflexivity) (peer 0) word) as [Hin|Hin].
  - rewrite Hs. left.
  - apply rtc_once. unfold edge. apply (bool_decide_unpack _). vm_compute. exact I.
  - exact Hin.
  - rewrite Hs in Hin. apply list_elem_of_singleton in Hin. discriminate Hin.
Defined.
