(* ===== verification/Start.v ===== *)
(** How the programs join the network: [sdk/examples/pgqf/src/settings.rs] and
    [start_network] of [io.rs] there, and [sdk/devnode/src/settings.rs] and
    [start_network] of [main.rs] there.

    Reading the command line is left out: the settings are what was read.  The network
    object is the one of [Network]; that its background thread could be started is
    assumed, since otherwise there is nothing to join.  The joins happen at the times
    [t1], [t2] and [t3]. *)
From S2P Require Import Prelude Extern Chain Sandbox Cache Wire Muxer Topic TopicProps Network NetworkProps.

(** [IpAddr] and [SocketAddr] of the standard library. *)
Inductive IpAddr := V4 (addr : N) | V6 (addr : N).
Record SocketAddr := mkSocketAddr { sock_ip : IpAddr; sock_port : Z }.

(** [Ipv4Addr::UNSPECIFIED], [Ipv6Addr::UNSPECIFIED] *)
Definition unspecified : list IpAddr := [V4 0; V6 0].

(** [match addr { V4(addr) => Protocol::Ip4(addr), V6(addr) => Protocol::Ip6(addr) }] *)
Definition ip_protocol (addr : IpAddr) : Protocol :=
  match addr with V4 a => Ip4 a | V6 a => Ip6 a end.

(** [pub struct SystemSettings] of the client and solver, with its defaults. *)
Record SystemSettings := mkSettings {
  network_id : rstring;
  p2p_port : Z;
  ip : list IpAddr;
  peer_addrs : list SocketAddr;
}.
Definition settings_default : SystemSettings := mkSettings (str "localnet") 44667 unspecified [].

(** [pub struct SystemSettings] of the development node; the block time in
    nanoseconds. *)
Record DevnodeSettings := mkDevnodeSettings {
  dn_network_id : rstring;
  dn_p2p_port : Z;
  dn_rpc_port : Z;
  dn_ip : list IpAddr;
  dn_block_time : Z;
}.
Definition devnode_default : DevnodeSettings :=
  mkDevnodeSettings (str "localnet") 44668 8080 unspecified (2 * 10 ^ 9).

(** [_rpc_addrs] *)
Definition rpc_addrs (self : DevnodeSettings) : list SocketAddr :=
  (λ addr, mkSocketAddr addr (dn_rpc_port self)) <$> dn_ip self.

Section start.
Context `{!MultihashCrate, !Libp2p, !MultiaddrBuild, !HashOrder PeerId, !HashOrder Multiaddr,
  !HashOrder Protocol, !HashOrder rstring}.

(** An address of an IP address and a port. *)
Definition tcp_multiaddr (addr : IpAddr) (port : Z) : Multiaddr :=
  let maddr := multiaddr_empty in
  let maddr := multiaddr_push maddr (ip_protocol addr) in
  multiaddr_push maddr (Tcp port).

(** [SystemSettings::peers], [SystemSettings::p2p_addrs]; the same of the node. *)
Definition peers (self : SystemSettings) : gset Multiaddr :=
  list_to_set ((λ addr, tcp_multiaddr (sock_ip addr) (sock_port addr)) <$> peer_addrs self).
Definition p2p_addrs (self : SystemSettings) : list Multiaddr :=
  (λ addr, tcp_multiaddr addr (p2p_port self)) <$> ip self.
Definition dn_p2p_addrs (self : DevnodeSettings) : list Multiaddr :=
  (λ addr, tcp_multiaddr addr (dn_p2p_port self)) <$> dn_ip self.

(** [format!("/{}/transactions", network_id)] *)
Definition topic_name (network_id : rstring) (suffix : rstring) : rstring :=
  str "/" ++ network_id ++ str "/" ++ suffix.

(** [start_network] of the client: the handles are the names of the topics. *)
Definition start_network (t1 t2 t3 : Instant) (settings : SystemSettings) (keypair : PeerId) :
    Result (rstring * rstring * rstring * Network) NetworkError :=
  let network := network_new (config_default (p2p_addrs settings)) keypair in
  let '(txs_topic, network) := join t1
    (mkTopicConfig (topic_name (network_id settings) (str "transactions")) (peers settings)) network in
  let? txs_topic := txs_topic in
  let '(blocks_topic, network) := join t2
    (mkTopicConfig (topic_name (network_id settings) (str "blocks")) (peers settings)) network in
  let? blocks_topic := blocks_topic in
  let '(intents_topic, network) := join t3
    (mkTopicConfig (topic_name (network_id settings) (str "intents")) (peers settings)) network in
  let? intents_topic := intents_topic in
  Ok (txs_topic, blocks_topic, intents_topic, network).

(** [start_network] of the development node: no peers to begin with. *)
Definition dn_start_network (t1 t2 : Instant) (settings : DevnodeSettings) (keypair : PeerId) :
    Result (rstring * rstring * Network) NetworkError :=
  let network := network_new (config_default (dn_p2p_addrs settings)) keypair in
  let '(txs_topic, network) := join t1
    (mkTopicConfig (topic_name (dn_network_id settings) (str "transactions")) ∅) network in
  let? txs_topic := txs_topic in
  let '(blocks_topic, network) := join t2
    (mkTopicConfig (topic_name (dn_network_id settings) (str "blocks")) ∅) network in
  let? blocks_topic := blocks_topic in
  Ok (txs_topic, blocks_topic, network).
End start.

(** ** What has happened when the programs start *)

Section properties.
Context `{!MultihashCrate, !Libp2p, !Rand, !MultiaddrBuild, !MultiaddrBuildLaws, !HashOrder PeerId,
  !HashOrder Multiaddr, !HashOrder Protocol, !HashOrder rstring, !Rmp (rstring * Action)}.
Context (prof : Profile).

Lemma topic_name_inj id s1 s2 : topic_name id s1 = topic_name id s2 → s1 = s2.
Proof. unfold topic_name. by intros ?%app_inv_head%app_inv_head%app_inv_head. Qed.

Lemma hash_elems_empty : hash_elems (∅ : gset Multiaddr) = [].
Proof. apply Permutation_nil_r. by rewrite hash_elems_perm, elements_empty. Qed.

(** The commands of a new topic: a connection to every bootstrap peer. *)
Lemma topic_new_cmds now tc nc node :
  cmds (topic_new now tc nc node) = (λ addr, Connect addr (name tc)) <$> hash_elems (bootstrap tc).
Proof.
  unfold topic_new. cbv zeta. set (s0 := mkTopic _ _ _ _ _ _ _ _ _ _).
  change (cmds ?s = ?l) with (cmds s = cmds s0 ++ l). generalize s0. clear s0.
  induction (hash_elems (bootstrap tc)) as [|a l IH]; intros s; [by rewrite app_nil_r|].
  cbn [foldl]. rewrite IH, fmap_cons, (cons_middle _ _ (_ <$> l)), app_assoc. f_equal.
  by destruct (ip_address a).
Qed.

(** A join of a topic that is new. *)
Lemma join_new now cfg self :
  topics self !! name cfg = None →
  ∃ t, join now cfg self = (Ok (name cfg), mkNetwork (config self) (this self) (runloop self)
      (commands self ++ ((λ addr, Connect addr (name cfg)) <$> hash_elems (bootstrap cfg)))
      (<[name cfg := t]> (topics self)) (muxer self) (history self)) ∧ active_peers t = ∅.
Proof.
  intros Hn. unfold join. rewrite Hn. eexists. unfold sync_topic. rewrite topic_new_cmds. split; [done|].
  pose proof (topic_new_views now cfg (config self) (this self)) as Hv. unfold views in Hv.
  by injection Hv.
Qed.

(** The address of a peer starts with its IP address, so that it can be dialed. *)
Lemma tcp_multiaddr_ip addr port : ip_address (tcp_multiaddr addr port) = Some (ip_protocol addr).
Proof.
  unfold ip_address, tcp_multiaddr. rewrite !protocols_push, protocols_empty. by destruct addr.
Qed.

(** The requests to connect that the joins of the client leave for the network: each
    peer of the settings, once for every topic. *)
Definition bootstrap_commands (settings : SystemSettings) (n : rstring) : list Command :=
  (λ addr, Connect addr n) <$> hash_elems (peers settings).

Lemma topic_names_distinct id :
  NoDup [topic_name id (str "transactions"); topic_name id (str "blocks"); topic_name id (str "intents")].
Proof.
  change (NoDup (topic_name id <$> [str "transactions"; str "blocks"; str "intents"])).
  apply NoDup_fmap_2; [intros s1 s2; apply topic_name_inj|].
  apply (bool_decide_unpack _). by vm_compute.
Qed.

(** Three joins of different topics, one after the other. *)
Lemma join_thrice t1 t2 t3 n1 n2 n3 bs self :
  NoDup [n1; n2; n3] → topics self = ∅ → commands self = [] →
  ∃ s1 s2 s3, join t1 (mkTopicConfig n1 bs) self = (Ok n1, s1) ∧
    join t2 (mkTopicConfig n2 bs) s1 = (Ok n2, s2) ∧ join t3 (mkTopicConfig n3 bs) s2 = (Ok n3, s3) ∧
    dom (topics s2) = {[n1; n2]} ∧ dom (topics s3) = {[n1; n2; n3]} ∧
    (∀ n t, topics s3 !! n = Some t → active_peers t = ∅) ∧
    commands s2 = [n1; n2] ≫= (λ n, (λ addr, Connect addr n) <$> hash_elems bs) ∧
    commands s3 = [n1; n2; n3] ≫= (λ n, (λ addr, Connect addr n) <$> hash_elems bs) ∧
    rtc (net_step prof) (∅, ∅, self) (∅, ∅, s2) ∧ rtc (net_step prof) (∅, ∅, self) (∅, ∅, s3).
Proof.
  intros Hnd Ht Hc. rewrite !NoDup_cons, !elem_of_cons in Hnd. destruct Hnd as (Hn1 & Hn2 & _).
  destruct (join_new t1 (mkTopicConfig n1 bs) self) as (x1 & E1 & Ha1); [by rewrite Ht|].
  destruct (join t1 (mkTopicConfig n1 bs) self) as [r1 s1] eqn:J1. injection E1 as -> E1.
  destruct (join_new t2 (mkTopicConfig n2 bs) s1) as (x2 & E2 & Ha2).
  { rewrite E1. cbn [topics name]. rewrite lookup_insert_ne by naive_solver. by rewrite Ht. }
  destruct (join t2 (mkTopicConfig n2 bs) s1) as [r2 s2] eqn:J2. injection E2 as -> E2.
  destruct (join_new t3 (mkTopicConfig n3 bs) s2) as (x3 & E3 & Ha3).
  { rewrite E2, E1. cbn [topics name]. rewrite !lookup_insert_ne by naive_solver. by rewrite Ht. }
  destruct (join t3 (mkTopicConfig n3 bs) s2) as [r3 s3] eqn:J3. injection E3 as -> E3.
  exists s1, s2, s3. repeat (split; [done|]). cbn [name bootstrap] in *.
  assert (rtc (net_step prof) (∅, ∅, self) (∅, ∅, s2)) as Hs2.
  { eapply rtc_l; [apply (step_join prof _ self t1)|]. rewrite J1. cbn [snd].
    apply rtc_once. pose proof (step_join prof (∅, ∅) s1 t2 (mkTopicConfig n2 bs)) as Hj.
    by rewrite J2 in Hj. }
  split; [rewrite E2, E1; cbn [topics]; rewrite Ht, !dom_insert_L; set_solver|].
  split; [rewrite E3, E2, E1; cbn [topics]; rewrite Ht, !dom_insert_L; set_solver|].
  split.
  { intros n t. rewrite E3, E2, E1. cbn [topics]. rewrite Ht, !lookup_insert_Some, lookup_empty.
    naive_solver. }
  split; [rewrite E2, E1; cbn [commands]; rewrite Hc; simpl; by rewrite app_nil_r|].
  split; [rewrite E3, E2, E1; cbn [commands]; rewrite Hc; simpl; by rewrite app_nil_r, app_assoc|].
  split; [done|]. etrans; [exact Hs2|]. apply rtc_once.
  pose proof (step_join prof (∅, ∅) s2 t3 (mkTopicConfig n3 bs)) as Hj. by rewrite J3 in Hj.
Qed.

(** How the programs start.  The three topics of a client have different names, so
    that every join succeeds, whatever the settings; all of them start without active
    peers, and what is waiting in the channel of the network is to dial every peer of the
    settings once for each topic, at an address that names its IP address.  The node joins
    its two topics, which have the names of those of a client with the same network
    identifier, and dials nobody.  Both networks satisfy what [network_survives] needs. *)
Theorem start_network_spec t1 t2 t3 settings id dsettings did :
  let ntx := topic_name (network_id settings) (str "transactions") in
  let nbl := topic_name (network_id settings) (str "blocks") in
  let nin := topic_name (network_id settings) (str "intents") in
  (∃ network, start_network t1 t2 t3 settings id = Ok (ntx, nbl, nin, network) ∧
    NoDup [ntx; nbl; nin] ∧ dom (topics network) = {[ntx; nbl; nin]} ∧
    (∀ n t, topics network !! n = Some t → active_peers t = ∅) ∧
    commands network = [ntx; nbl; nin] ≫= bootstrap_commands settings ∧
    (∀ a n, Connect a n ∈ commands network →
      ∃ p, p ∈ peer_addrs settings ∧ ip_address a = Some (ip_protocol (sock_ip p))) ∧
    rtc (net_step prof) (network_start (config_default (p2p_addrs settings)) id) (∅, ∅, network)) ∧
  (dn_network_id dsettings = network_id settings →
    ∃ network, dn_start_network t1 t2 dsettings did = Ok (ntx, nbl, network) ∧
      dom (topics network) = {[ntx; nbl]} ∧ commands network = [] ∧
      rtc (net_step prof) (network_start (config_default (dn_p2p_addrs dsettings)) did)
        (∅, ∅, network)).
Proof.
  intros ntx nbl nin. pose proof (topic_names_distinct (network_id settings)) as Hnd. split.
  - destruct (join_thrice t1 t2 t3 ntx nbl nin (peers settings)
      (network_new (config_default (p2p_addrs settings)) id) Hnd eq_refl eq_refl)
      as (s1 & s2 & s3 & J1 & J2 & J3 & _ & Hdom & Hact & _ & Hcmds & _ & Hrun).
    exists s3. split; [|split; [done|split; [done|split; [done|split; [done|split; [|done]]]]]].
    + unfold start_network. fold ntx. rewrite J1. cbn [result_bind]. fold nbl. rewrite J2.
      cbn [result_bind]. fold nin. by rewrite J3.
    + intros a n. rewrite Hcmds. intros (m & Hin & _)%list_elem_of_bind.
      apply list_elem_of_fmap in Hin as (a' & [= -> ->] & Ha).
      apply elem_of_hash_elems, elem_of_list_to_set, list_elem_of_fmap in Ha as (p & -> & Hp).
      exists p. split; [done|apply tcp_multiaddr_ip].
  - intros Hid. destruct (join_thrice t1 t2 t3 ntx nbl nin ∅
      (network_new (config_default (dn_p2p_addrs dsettings)) did) Hnd eq_refl eq_refl)
      as (s1 & s2 & _ & J1 & J2 & _ & Hdom & _ & _ & Hcmds & _ & Hrun & _).
    exists s2. split; [|split; [done|split; [|done]]].
    + unfold dn_start_network. rewrite Hid. fold ntx. rewrite J1. cbn [result_bind]. fold nbl.
      by rewrite J2.
    + rewrite Hcmds, hash_elems_empty. done.
Qed.
End properties.

(** ** Example

    Addresses as lists of protocols. *)
#[local] Instance list_libp2p : Libp2p := {|
  PeerId := nat; ConnectionId := nat; Multiaddr := list Protocol; protocols a := a;
  ConnectedPoint := bool * list Protocol; is_dialer e := e.1; get_remote_address e := e.2;
|}.
#[local] Instance list_multiaddr : MultiaddrBuild := {|
  multiaddr_empty := [] : list Protocol; multiaddr_push (a : list Protocol) p := a ++ [p];
|}.
#[local] Instance list_multiaddr_laws : MultiaddrBuildLaws.
Proof. by split. Qed.

(** The solver of the example network, which knows the address of the validator. *)
Definition solver_settings : SystemSettings :=
  mkSettings (str "localnet") 44667 unspecified [mkSocketAddr (V4 2887057666) 44668].

Definition list_peer (id : nat) : @PeerId list_libp2p := id.

Lemma start_network_spec_witness :
  let _ := map_order nat in let _ := map_order (list Protocol) in let _ := map_order Protocol in
  ∀ (Rm : Rmp (rstring * @Action list_libp2p)),
  (∃ network, dn_start_network 1 2 devnode_default (list_peer 0) =
      Ok (str "/localnet/transactions", str "/localnet/blocks", network) ∧ commands network = []) ∧
  (∃ network, start_network 1 2 3 solver_settings (list_peer 1) =
      Ok (str "/localnet/transactions", str "/localnet/blocks", str "/localnet/intents", network) ∧
    commands network = (λ n, Connect ([Ip4 2887057666; Tcp 44668] : list Protocol) n) <$>
      [str "/localnet/transactions"; str "/localnet/blocks"; str "/localnet/intents"]).
Proof.
  intros HO1 HO2 HO3 Rm.
  destruct (start_network_spec Debug 1 2 3 solver_settings (list_peer 1)
    devnode_default (list_peer 0))
    as [(network & Hs & _ & _ & _ & Hc & _) Hdn].
  destruct (Hdn eq_refl) as (dnetwork & Hd & _ & Hdc & _). split.
  - exists dnetwork. split; [exact Hd|exact Hdc].
  - exists network. split; [exact Hs|]. rewrite Hc. reflexivity.
Defined.
