(* ===== verification/Devnode.v ===== *)
(** The development node, [sdk/devnode/src/main.rs], and those who follow it.

    The node has one loop: a transaction that arrives goes to the mempool, a tick of
    the timer makes a block, which is gossiped.  What arrives, and the topic of the
    blocks at each tick, which the network changes in between, are the input of the
    model.  A follower is the builder of a watcher ([offchain/watcher.rs]) that is fed
    with the blocks as a client decodes them. *)
From S2P Require Import Prelude Address Predicate State Extern Chain Sandbox ChainProps Collect.
From S2P Require Import Execution ExecutionProps Schedule Forest ScheduleProps Builder.
From S2P Require Import Cache Wire Topic TopicProps.

Section devnode.
Context `{!MultihashCrate, !Bs58Crate, !Wasmer, !WasmerSerialize, !HashOrder Address,
  !Rmp (IntentContent Basic), !Rmp (TxContent Basic), !Rmp BlockContent, !Rmp PredicateContext,
  !Rmp (list ExpandedParam), !Petgraph} `{State St, State Ca}.
Context `{!Libp2p, !Rand, !HashOrder PeerId, !HashOrder Multiaddr}.
Context (RA : nat → Rayon) (prof : Profile).

(** What the loop of [main] waits for. *)
Inductive NodeEvent :=
| TxArrived (data : bytes)
| IntervalTick (blocks_topic : TopicInner).

(** What a tick did: the bytes of the block, what [gossip] answered, and the topic
    afterwards. *)
Record Publication := mkPublication {
  pub_data : bytes;
  pub_result : Result unit TopicError;
  pub_topic : TopicInner;
}.

(** The start of [main]. *)
Definition node_start (state_store : St) (code_cache : Ca) :
    Result (Mempool (St := St) (Ca := Ca)) BuilderError :=
  result_map mempool_new (builder_new 64 state_store code_cache [block_zero]).

(** One turn of the loop: bytes that are no transaction are skipped, and a failure
    to gossip is only logged. *)
Definition node_step (mempool : Mempool (St := St) (Ca := Ca)) (e : NodeEvent) :
    option (list Publication * Mempool (St := St) (Ca := Ca)) :=
  match e with
  | TxArrived data =>
      match tx_from_slice (R := Basic) data with
      | Some tx => Some ([], mempool_consume mempool tx)
      | None => Some ([], mempool)
      end
  | IntervalTick blocks_topic =>
      '(block, mempool) ← produce RA prof mempool;
      let '(r, topic) := gossip (block_to_vec block) blocks_topic in
      Some ([mkPublication (block_to_vec block) r topic], mempool)
  end.

Fixpoint node_run (mempool : Mempool (St := St) (Ca := Ca)) (es : list NodeEvent) :
    option (list Publication * Mempool (St := St) (Ca := Ca)) :=
  match es with
  | [] => Some ([], mempool)
  | e :: es =>
      '(p1, mempool) ← node_step mempool e;
      '(p2, mempool) ← node_run mempool es;
      Some (p1 ++ p2, mempool)
  end.

(** The stream of blocks of a client, and what its watcher does with each: bytes
    that are no block are skipped, an error is only logged. *)
Definition follow_step (self : BlockStateBuilder (St := St) (Ca := Ca)) (data : bytes) :
    option (BlockStateBuilder (St := St) (Ca := Ca)) :=
  match block_from_slice data with
  | Some block => snd <$> consume RA prof self block
  | None => Some self
  end.
Definition follow (self : BlockStateBuilder (St := St) (Ca := Ca)) (l : list bytes) :
    option (BlockStateBuilder (St := St) (Ca := Ca)) :=
  foldM follow_step self l.

(** ** What the node is to do *)

(** The transactions of each block, and those that still wait. *)
Fixpoint batches (pool : list (Transaction Basic)) (es : list NodeEvent) :
    list (list (Transaction Basic)) * list (Transaction Basic) :=
  match es with
  | [] => ([], pool)
  | TxArrived data :: es => batches (pool ++ option_list (tx_from_slice (R := Basic) data)) es
  | IntervalTick _ :: es => let '(bs, rest) := batches [] es in (pool :: bs, rest)
  end.
Definition ticks (es : list NodeEvent) : nat := length (batches [] es).1.

(** The transactions that arrive have addresses that the constructor accepts. *)
Definition arrival_valid (e : NodeEvent) : Prop :=
  match e with
  | TxArrived data => ∀ tx, tx_from_slice data = Some tx → tx_valid tx
  | IntervalTick _ => True
  end.
Definition arrivals_valid (es : list NodeEvent) : Prop := Forall arrival_valid es.

(** The topic of the blocks at every tick. *)
Definition tick_topics (es : list NodeEvent) : list TopicInner :=
  omap (λ e, match e with IntervalTick t => Some t | TxArrived _ => None end) es.

(** The blocks [bs] continue the chain that ends with [b], the oldest first. *)
Fixpoint continues (b : Block) (bs : list Block) : Prop :=
  match bs with
  | [] => True
  | c :: bs => parent c = content_hash b ∧ height c = (height b + 1)%Z ∧ continues c bs
  end.
End devnode.

Lemma last_default {A} (x y : A) l : List.last (x :: l) y = List.last l x.
Proof.
  revert x y. induction l as [|z l IH]; intros x y; [done|].
  change (List.last (z :: l) y = List.last (z :: l) x). by rewrite !IH.
Qed.

(** A list of images is the image of a list. *)
Lemma elem_of_fmap_list {A B} (h : A → B) (l : list A) (k : list B) :
  (∀ y, y ∈ k → y ∈ h <$> l) → ∃ l', k = h <$> l' ∧ Forall (.∈ l) l'.
Proof.
  induction k as [|y k IH]; intros Hk; [by exists []|].
  destruct (proj1 (list_elem_of_fmap _ _ _) (Hk y ltac:(by left))) as (x & -> & Hx).
  destruct IH as (l' & -> & Hl'); [intros z Hz; apply Hk; by right|].
  exists (x :: l'). split; [done|by constructor].
Qed.

Section run.
Context `{!MultihashCrate, !Bs58Crate, !MultihashLaws, !Bs58Laws, !Wasmer, !WasmerSerialize,
  !HashOrder Address, !Rmp (IntentContent Basic), !Rmp (TxContent Basic), !Rmp BlockContent,
  !RmpLaws BlockContent, !Rmp PredicateContext, !Rmp (list ExpandedParam), !Petgraph, !PetgraphLaws}
  `{StateLaws St, StateLaws Ca}.
Context `{!Libp2p, !Rand, !HashOrder PeerId, !HashOrder Multiaddr}.
Context (RA : nat → Rayon) (prof : Profile).
Implicit Types (m : Mempool (St := St) (Ca := Ca)) (f : BlockStateBuilder (St := St) (Ca := Ca)).
Implicit Types (b block : Block) (es : list NodeEvent).

(** How many batches there are does not depend on what waits. *)
Lemma batches_length pool es : length (batches pool es).1 = ticks es.
Proof.
  unfold ticks. generalize (@nil (Transaction Basic)). revert pool.
  induction es as [|[data|t] es IH]; intros pool pool'; cbn [batches]; [done|apply IH|].
  by destruct (batches [] es).
Qed.

Lemma continues_height b bs i c :
  continues b bs → bs !! i = Some c → height c = (height b + 1 + Z.of_nat i)%Z.
Proof.
  revert b i. induction bs as [|d bs IH]; intros b i; [done|]. intros (_ & Hh & Hc).
  destruct i as [|i]; simpl; [intros [= ->]; lia|]. intros Hi. rewrite (IH d i Hc Hi). lia.
Qed.

Lemma continues_app b bs1 bs2 :
  continues b (bs1 ++ bs2) → continues b bs1 ∧ continues (List.last bs1 b) bs2.
Proof.
  revert b. induction bs1 as [|c bs1 IH]; intros b; [done|]. intros (Hp & Hh & [Hc1 Hc2]%IH).
  split; [by split; [|split]|]. by rewrite last_default.
Qed.

Lemma continues_last b bs :
  continues b bs → height (List.last bs b) = (height b + Z.of_nat (length bs))%Z.
Proof.
  revert b. induction bs as [|c bs IH]; intros b; [simpl; lia|]. intros (_ & Hh & Hc).
  rewrite last_default, (IH c Hc). simpl. lia.
Qed.

Lemma next_height_small b : (0 ≤ height b < u64_max)%Z → next_height b = (height b + 1)%Z.
Proof. intros Hb. unfold next_height. rewrite Z.mod_small; [done|]. rewrite u64_modulus_max. lia. Qed.

Lemma has_next_small b : (0 ≤ height b < u64_max)%Z → has_next prof b.
Proof. unfold has_next, is_u64. lia. Qed.

(** Where a node or a builder is: the last block, as far as it is observable. *)
Definition ends_with f b : Prop :=
  ∃ b' bs, recent f = b' :: bs ∧ block_cache_ok b' ∧ block_content b' = block_content b.

(** Everything that waits came off the wire and has proper addresses. *)
Definition pool_ok (txs : list (Transaction Basic)) : Prop :=
  Forall (λ tx, tx_fresh tx ∧ tx_valid tx) txs.

Lemma pool_ok_snoc txs data :
  (∀ tx, tx_from_slice data = Some tx → tx_valid tx) → pool_ok txs →
  pool_ok (txs ++ option_list (tx_from_slice (R := Basic) data)).
Proof.
  intros Hv Hok. apply Forall_app. split; [done|].
  destruct (tx_from_slice data) as [tx|] eqn:Htx; [|constructor]. simpl. constructor; [|done].
  split; [by eapply tx_decoded_fresh|by apply Hv].
Qed.

Lemma pool_fresh txs : pool_ok txs → Forall tx_fresh txs.
Proof. intros Hp. eapply Forall_impl; [exact Hp|]. by intros tx [? _]. Qed.

(** A tick of a node in good shape. *)
Lemma produce_ends m b :
  ends_with (blocks m) b → (0 ≤ height b < u64_max)%Z → pool_ok (txs m) →
  ∃ block m', produce RA prof m = Some (block, m') ∧ transactions block = txs m ∧
    parent block = content_hash b ∧ height block = (height b + 1)%Z ∧
    txs m' = [] ∧ ends_with (blocks m') block.
Proof.
  intros (b' & bs & Hr & Hok & Hc) Hh Hp. destruct (same_content b b' Hc) as (Hch & Hht & _).
  rewrite <-Hht in Hh. destruct (produce_spec RA prof m b' bs Hr Hok (has_next_small b' Hh))
    as (block & m' & Hprod & Htxs & Hpar & Hhei & He & Hlast & Hcache).
  { intros tx Htx. apply (proj1 (Forall_forall _ _) Hp tx Htx). }
  exists block, m'. rewrite Hprod, <-Hch, <-Hht, <-next_height_small by done.
  repeat (split; [done|]). destruct (recent (blocks m')) as [|c cs] eqn:Hr'; [done|].
  injection Hlast as ->. by exists block, cs.
Qed.

Lemma node_run_blocks es m b :
  ends_with (blocks m) b → (0 ≤ height b)%Z →
  (height b + Z.of_nat (length (batches (txs m) es).1) ≤ u64_max)%Z →
  pool_ok (txs m) → arrivals_valid es →
  ∃ pubs m' bs, node_run RA prof m es = Some (pubs, m') ∧
    pub_data <$> pubs = block_to_vec <$> bs ∧
    Forall2 (λ p t, gossip (pub_data p) t = (pub_result p, pub_topic p)) pubs (tick_topics es) ∧
    batches (txs m) es = (transactions <$> bs, txs m') ∧ continues b bs ∧
    Forall (λ c, pool_ok (transactions c)) bs ∧ ends_with (blocks m') (List.last bs b).
Proof.
  revert m b. induction es as [|[data|topic] es IH]; intros m b He Hh Hlen Hp Hv;
    cbn [node_run node_step batches] in *; [|apply Forall_cons in Hv as [Hv1 Hv]..].
  - exists [], m, []. repeat (split; [done|]). done.
  - set (m1 := match tx_from_slice data with Some tx => mempool_consume m tx | None => m end).
    assert (txs m1 = txs m ++ option_list (tx_from_slice (R := Basic) data)) as Htxs.
    { unfold m1. destruct (tx_from_slice data); simpl; [done|by rewrite app_nil_r]. }
    assert (blocks m1 = blocks m) as Hbl by (unfold m1; by destruct (tx_from_slice data)).
    destruct (IH m1 b) as (pubs & m' & bs & Hrun & Hspec).
    + by rewrite Hbl.
    + done.
    + by rewrite Htxs.
    + rewrite Htxs. by apply pool_ok_snoc.
    + done.
    + exists pubs, m', bs. rewrite Htxs in Hspec. split; [|exact Hspec].
      unfold m1 in Hrun. destruct (tx_from_slice data); cbn [mbind option_bind]; by rewrite Hrun.
  - destruct (batches [] es) as [bss rest] eqn:Hb. cbn [fst length] in Hlen.
    destruct (produce_ends m b He ltac:(lia) Hp) as
      (block & m1 & Hprod & Htxs & Hpar & Hhei & Hnil & He1).
    destruct (IH m1 block He1 ltac:(lia)) as (pubs & m' & bs & Hrun & Hdata & Hgos & Hbat & Hcont & Hall & Hlast).
    + rewrite Hnil, Hb. simpl. lia.
    + rewrite Hnil. constructor.
    + done.
    + destruct (gossip (block_to_vec block) topic) as [r topic'] eqn:Hg.
      exists (mkPublication (block_to_vec block) r topic' :: pubs), m', (block :: bs).
      rewrite Hprod. cbn [mbind option_bind]. rewrite Hg. cbn [mbind option_bind]. rewrite Hrun.
      split; [done|]. rewrite !fmap_cons, Hdata. split; [done|]. split; [by constructor|].
      rewrite Hnil, Hb in Hbat. injection Hbat as -> ->. rewrite Htxs.
      split; [done|]. split; [done|]. split; [constructor; [by rewrite Htxs|done]|].
      by rewrite last_default.
Qed.

(** ** Followers *)

(** What a follower makes of a block of the node: [consume] of that block, but for the
    cell. *)
Lemma follow_block f c :
  Forall tx_fresh (transactions c) →
  follow_step RA prof f (block_to_vec c) =
    snd <$> consume RA prof f (mkBlock (height c) (parent c) (transactions c) None).
Proof. intros Hp. unfold follow_step. by rewrite block_decode. Qed.

(** A follower takes the block that continues its chain. *)
Lemma follow_next f b c :
  ends_with f b → (0 ≤ height b < u64_max)%Z → continues b [c] → pool_ok (transactions c) →
  ∃ f', follow_step RA prof f (block_to_vec c) = Some f' ∧ ends_with f' c.
Proof.
  intros (b' & bs & Hr & Hok & Hc) Hh (Hpar & Hhei & _) Hp.
  destruct (same_content b b' Hc) as (Hch & Hht & _). rewrite <-Hht in Hh, Hhei. rewrite <-Hch in Hpar.
  rewrite follow_block by (by apply pool_fresh). set (c' := mkBlock _ _ _ _).
  destruct (consume_cases RA prof f c' b' bs Hr Hok ltac:(unfold is_u64; lia))
    as (b1 & _ & _ & _ & _ & Hacc & Htot).
  destruct Hacc as [Hn|(f' & Hf & _ & Hrec & _)]; [done|by rewrite next_height_small|..].
  { destruct Htot; [by apply has_next_small| |done].
    intros tx Htx. apply (proj1 (Forall_forall _ _) Hp tx Htx). }
  exists f'. rewrite Hf. split; [done|]. unfold push_recent in Hrec. cbn [recent history_len] in Hrec.
  destruct (_ <? _)%nat; [|exists c', (b1 :: bs); split; [done|split; [by left|done]]].
  exists c', (removelast (b1 :: bs)). split; [done|]. split; [by left|done].
Qed.

Lemma follow_all f b bs :
  ends_with f b → (0 ≤ height b)%Z → (height b + Z.of_nat (length bs) ≤ u64_max)%Z →
  continues b bs → Forall (λ c, pool_ok (transactions c)) bs →
  ∃ f', follow RA prof f (block_to_vec <$> bs) = Some f' ∧ ends_with f' (List.last bs b).
Proof.
  revert f b. induction bs as [|c bs IH]; intros f b He Hh Hlen Hc Hp; [by exists f|].
  destruct Hc as (Hpar & Hhei & Hc). apply Forall_cons in Hp as [Hp1 Hp]. simpl in Hlen.
  destruct (follow_next f b c He ltac:(lia)) as (f1 & Hf1 & He1); [done..|].
  destruct (IH f1 c He1 ltac:(lia) ltac:(lia) Hc Hp) as (f' & Hf' & He').
  exists f'. rewrite fmap_cons, last_default. unfold follow. cbn [foldM]. by rewrite Hf1.
Qed.

(** A follower refuses a block that is not the next one in height. *)
Lemma follow_stale f b c :
  ends_with f b → (0 ≤ height b < u64_max)%Z → height c ≠ (height b + 1)%Z →
  pool_ok (transactions c) →
  ∃ f', follow_step RA prof f (block_to_vec c) = Some f' ∧ ends_with f' b ∧
    state f' = state f ∧ codecache f' = codecache f ∧
    block_content <$> recent f' = block_content <$> recent f.
Proof.
  intros (b' & bs & Hr & Hok & Hc) Hh Hne Hp.
  destruct (same_content b b' Hc) as (Hch & Hht & _). rewrite <-Hht in Hh, Hne.
  rewrite follow_block by (by apply pool_fresh). set (c' := mkBlock _ _ _ _).
  destruct (consume_cases RA prof f c' b' bs Hr Hok ltac:(unfold is_u64; lia))
    as (b1 & Hc1 & Hok1 & Hpar & Hhei & _ & Htot).
  assert (∃ e, consume RA prof f c' = Some (Err e,
    mkBuilder (history_len f) (state f) (codecache f) (b1 :: bs))) as (e & ->).
  { destruct (decide (parent c' = content_hash b')) as [Heq|]; [|by eexists; apply Hpar].
    destruct (Hhei Heq) as [Hn|Hn]; [by rewrite next_height_small| |by eexists].
    destruct Htot; [by apply has_next_small| |done].
    intros tx Htx. apply (proj1 (Forall_forall _ _) Hp tx Htx). }
  eexists. split; [done|]. split; [|simpl; by rewrite Hr, !fmap_cons, Hc1].
  exists b1, bs. split; [done|]. split; [done|]. congruence.
Qed.

Lemma follow_all_stale f b (l : list Block) :
  ends_with f b → (0 ≤ height b < u64_max)%Z →
  Forall (λ c, height c ≠ (height b + 1)%Z ∧ pool_ok (transactions c)) l →
  ∃ f', follow RA prof f (block_to_vec <$> l) = Some f' ∧
    state f' = state f ∧ codecache f' = codecache f ∧
    block_content <$> recent f' = block_content <$> recent f.
Proof.
  intros He Hh Hl. revert f He. induction Hl as [|c l [Hne Hp] _ IH]; intros f He; [by exists f|].
  destruct (follow_stale f b c He Hh Hne Hp) as (f1 & Hf1 & He1 & Hs & Hcc & Hrec).
  destruct (IH f1 He1) as (f' & Hf' & Hs' & Hcc' & Hrec').
  exists f'. rewrite fmap_cons. unfold follow. cbn [foldM]. rewrite Hf1. split; [done|].
  rewrite Hs', Hcc', Hrec'. done.
Qed.
End run.

Section replica.
Context `{!MultihashCrate, !Bs58Crate, !MultihashLaws, !Bs58Laws, !Wasmer, !WasmerSerialize,
  !HashOrder Address, !Rmp (IntentContent Basic), !Rmp (TxContent Basic), !Rmp BlockContent,
  !RmpLaws BlockContent, !Rmp PredicateContext, !Rmp (list ExpandedParam), !Petgraph, !PetgraphLaws}
  `{StateLaws St, StateLaws Ca}.
Context `{!Libp2p, !Rand, !HashOrder PeerId, !HashOrder Multiaddr}.
Context (RA RA' : nat → Rayon) (prof : Profile).
(** The two machines come to the same changes, whatever their schedulers do. *)
Context (same_changes : ∀ st cc txs,
  merge_results <$> execute_many RA st cc txs = merge_results <$> execute_many RA' st cc txs).
Implicit Types (m : Mempool (St := St) (Ca := Ca)) (f g : BlockStateBuilder (St := St) (Ca := Ca)).

Definition agrees f g b : Prop :=
  ends_with f b ∧ ends_with g b ∧ state g = state f ∧ codecache g = codecache f.

(** [consume] depends on the last block and the two stores only. *)
Lemma consume_agrees f g b block f' :
  agrees f g b → block_cache_ok block → consume RA prof f block = Some (Ok tt, f') →
  ∃ g', consume RA' prof g block = Some (Ok tt, g') ∧ agrees f' g' block.
Proof.
  intros ((b1 & bs1 & Hr1 & Hok1 & Hc1) & (b2 & bs2 & Hr2 & Hok2 & Hc2) & Hst & Hcc) Hbl.
  destruct (same_content b b1 Hc1) as (Hch1 & Hht1 & _), (same_content b b2 Hc2) as (Hch2 & Hht2 & _).
  destruct (last_hash_spec f b1 bs1 Hr1 Hok1) as (b1' & Hc1' & Hok1' & Hl1).
  destruct (last_hash_spec g b2 bs2 Hr2 Hok2) as (b2' & Hc2' & Hok2' & Hl2).
  unfold consume, last. rewrite Hl1, Hl2, Hr1, Hr2. cbn [head mbind option_bind].
  rewrite Hch1, Hch2, Hht1, Hht2. destruct (negb _); [done|].
  destruct (u64_add prof (height b) 1) as [n|]; [|done]. cbn [mbind option_bind].
  destruct (negb _); [done|]. cbn [state codecache history_len]. rewrite Hst, Hcc.
  pose proof (same_changes (Dyn (state f)) (Dyn (codecache f)) (hashed_transactions block)) as Hsame.
  destruct (execute_many RA _ _ _) as [rs|]; [|done]. destruct (execute_many RA' _ _ _) as [rs'|]; [|done].
  injection Hsame as Hsame. cbn [mbind option_bind]. rewrite <-Hsame.
  destruct (try_precompile_predicates _) as [out|]; [|done]. cbn [mbind option_bind].
  destruct (apply (codecache f) out) as [cc|]; [|done]. cbn [mbind option_bind].
  destruct (apply (state f) _) as [st|]; [|done]. cbn [mbind option_bind]. intros [= <-].
  eexists. split; [done|]. repeat split; try done; unfold ends_with, push_recent; cbn [recent history_len].
  - destruct (_ <? _)%nat; [exists block, (removelast (b1' :: bs1))|exists block, (b1' :: bs1)]; done.
  - destruct (_ <? _)%nat; [exists block, (removelast (b2' :: bs2))|exists block, (b2' :: bs2)]; done.
Qed.

Lemma tick_agrees m g b block m' :
  agrees (blocks m) g b → Forall tx_fresh (txs m) → produce RA prof m = Some (block, m') →
  ∃ g', follow_step RA' prof g (block_to_vec block) = Some g' ∧ agrees (blocks m') g' block ∧
    txs m' = [].
Proof.
  intros (Hf & Hg & Hst & Hcc) Hfresh. pose proof Hf as (b1 & bs1 & Hr1 & Hok1 & Hc1).
  destruct (last_hash_spec (blocks m) b1 bs1 Hr1 Hok1) as (b1' & Hc1' & Hok1' & Hl1).
  unfold produce, last. rewrite Hr1. cbn [head mbind option_bind]. unfold block_new.
  destruct (u64_add prof (height b1) 1) as [n|]; [|done]. cbn [fmap option_fmap option_map mbind option_bind].
  rewrite Hl1. cbn [mbind option_bind]. set (block' := mkBlock _ _ _ _). set (f1 := mkBuilder _ _ _ _).
  destruct (consume RA prof f1 block') as [[[[]|e] f']|] eqn:Hcons; [|done..]. intros [= <- <-].
  destruct (consume_agrees f1 g b block' f') as (g' & Hcons' & Hag); [|by left|exact Hcons|].
  { split; [|done]. exists b1', bs1. split; [done|]. split; [done|]. congruence. }
  exists g'. rewrite follow_block by done. unfold block' in Hcons'. simpl in *. by rewrite Hcons'.
Qed.

Lemma node_run_agrees es m g b pubs m' :
  agrees (blocks m) g b → Forall tx_fresh (txs m) → node_run RA prof m es = Some (pubs, m') →
  ∃ g' b', follow RA' prof g (pub_data <$> pubs) = Some g' ∧ agrees (blocks m') g' b'.
Proof.
  revert m g b pubs. induction es as [|[data|topic] es IH]; intros m g b pubs Hag Hfresh;
    cbn [node_run node_step].
  - intros [= <- <-]. by exists g, b.
  - assert (∀ m1, blocks m1 = blocks m → Forall tx_fresh (txs m1) →
      ('(p2, m2) ← node_run RA prof m1 es; Some ([] ++ p2, m2)) = Some (pubs, m') →
      ∃ g' b', follow RA' prof g (pub_data <$> pubs) = Some g' ∧ agrees (blocks m') g' b') as Hgo.
    { intros m1 Hb Hf. destruct (node_run RA prof m1 es) as [[p2 m2]|] eqn:Hrun; [|done].
      intros [= <- <-]. eapply IH; [|done..]. by rewrite Hb. }
    destruct (tx_from_slice data) as [tx|] eqn:Htx; [|by apply Hgo].
    apply (Hgo (mempool_consume m tx)); [done|]. simpl. apply Forall_app. split; [done|].
    constructor; [by eapply tx_decoded_fresh|done].
  - destruct (produce RA prof m) as [[block m1]|] eqn:Hp; [|done]. cbn [mbind option_bind].
    destruct (gossip (block_to_vec block) topic) as [r t]. cbn [mbind option_bind].
    destruct (node_run RA prof m1 es) as [[p2 m2]|] eqn:Hrun; [|done]. intros [= <- <-].
    destruct (tick_agrees m g b block m1 Hag Hfresh Hp) as (g1 & Hg1 & Hag1 & Hnil).
    destruct (IH m1 g1 block p2 Hag1) as (g' & b' & Hg' & Hag'); [by rewrite Hnil|done|].
    exists g', b'. rewrite fmap_cons. unfold follow. cbn [foldM pub_data]. by rewrite Hg1.
Qed.
End replica.

Section properties.
Context `{!MultihashCrate, !Bs58Crate, !MultihashLaws, !Bs58Laws, !Wasmer, !WasmerSerialize,
  !HashOrder Address, !Rmp (IntentContent Basic), !Rmp (TxContent Basic), !Rmp BlockContent,
  !RmpLaws BlockContent, !Rmp PredicateContext, !Rmp (list ExpandedParam), !Petgraph, !PetgraphLaws}
  `{StateLaws St, StateLaws Ca}.
Context `{!Libp2p, !Rand, !HashOrder PeerId, !HashOrder Multiaddr}.
Context (RA : nat → Rayon) (prof : Profile).
Implicit Types (m : Mempool (St := St) (Ca := Ca)) (f : BlockStateBuilder (St := St) (Ca := Ca)).

Lemma node_start_ends st cc m :
  node_start st cc = Ok m → ends_with (blocks m) block_zero ∧ txs m = [].
Proof. intros [= <-]. split; [|done]. exists block_zero, []. split; [done|]. split; [by left|done]. Qed.

Lemma builder_new_ends hl st cc f :
  builder_new hl st cc [block_zero] = Ok f → ends_with f block_zero.
Proof. intros [= <-]. exists block_zero, []. split; [done|]. split; [by left|done]. Qed.

Lemma node_start_run st cc m es :
  node_start st cc = Ok m → arrivals_valid es → (Z.of_nat (ticks es) ≤ u64_max)%Z →
  ∃ pubs m' bs, node_run RA prof m es = Some (pubs, m') ∧
    pub_data <$> pubs = block_to_vec <$> bs ∧
    Forall2 (λ p t, gossip (pub_data p) t = (pub_result p, pub_topic p)) pubs (tick_topics es) ∧
    batches [] es = (transactions <$> bs, txs m') ∧ continues block_zero bs ∧
    Forall (λ c, pool_ok (transactions c)) bs.
Proof.
  intros [He Hnil]%node_start_ends Hv Hn.
  destruct (node_run_blocks RA prof es m block_zero He) as
    (pubs & m' & bs & Hrun & Hdata & Hgos & Hbat & Hcont & Hall & _); try done.
  - rewrite Hnil. simpl. exact Hn.
  - rewrite Hnil. constructor.
  - exists pubs, m', bs. rewrite Hnil in Hbat. done.
Qed.



(** A lost block.  The node goes on after a block that it could not gossip.  A
    follower that misses one block of the node, for whatever reason, refuses every
    later one, in whatever order and however often they arrive: its state stays as it
    is before the lost block for ever. *)
Theorem missed_block_stalls (RA' : nat → Rayon) st cc hl m f es pubs m' pre lost post later :
  node_start st cc = Ok m → builder_new hl st cc [block_zero] = Ok f →
  arrivals_valid es → (Z.of_nat (ticks es) ≤ u64_max)%Z →
  node_run RA prof m es = Some (pubs, m') → pub_data <$> pubs = pre ++ lost :: post →
  (∀ d, d ∈ later → d ∈ post) →
  ∃ f1 f2, follow RA' prof f pre = Some f1 ∧ follow RA' prof f1 later = Some f2 ∧
    state f2 = state f1 ∧ codecache f2 = codecache f1 ∧
    block_content <$> recent f2 = block_content <$> recent f1.
Proof.
  intros Hm Hf Hv Hn Hrun Hpubs Hlater.
  destruct (node_start_run st cc m es Hm Hv Hn) as
    (pubs' & m1 & bs & Hrun' & Hdata & _ & Hbat & Hcont & Hall).
  assert (pubs' = pubs) as -> by congruence. rewrite Hpubs in Hdata. symmetry in Hdata.
  assert (length bs = ticks es) as Hlen by (unfold ticks; rewrite Hbat; cbn [fst]; by rewrite length_fmap).
  apply fmap_app_inv in Hdata as (bs1 & bs2 & -> & Hd2 & ->). symmetry in Hd2.
  apply fmap_cons_inv in Hd2 as (c & bs3 & -> & -> & ->).
  apply elem_of_fmap_list in Hlater as (l & -> & Hl). rewrite length_app in Hlen. simpl in Hlen.
  apply continues_app in Hcont as Hcont'. destruct Hcont' as [Hcont1 _].
  apply Forall_app in Hall as [Hall1 [_ Hall3]%Forall_cons].
  destruct (follow_all RA' prof f block_zero bs1) as (f1 & Hf1 & He1);
    [by eapply builder_new_ends|done|simpl; lia|done..|].
  pose proof (continues_last block_zero bs1 Hcont1) as Hlast. cbn [height block_zero] in Hlast.
  destruct (follow_all_stale RA' prof f1 (List.last bs1 block_zero) l He1) as (f2 & Hf2 & Hspec).
  - rewrite Hlast. lia.
  - eapply Forall_impl; [exact Hl|]. intros d Hd. split; [|by eapply Forall_forall in Hall3].
    apply list_elem_of_lookup in Hd as [i Hi].
    rewrite (continues_height block_zero _ (length bs1 + S i) d Hcont).
    + rewrite Hlast. simpl. lia.
    + rewrite lookup_app_r by lia. by replace (length bs1 + S i - length bs1) with (S i) by lia.
  - by exists f1, f2.
Qed.
End properties.

(** ** Examples *)

(** A transaction arrives, then a tick, then bytes that mean nothing, and two ticks,
    while the topic has no peers. *)
Definition lonely_topic : TopicInner := topic_new 0 example_topic (config_default []) (example_node 0).
Definition example_events : list NodeEvent :=
  [TxArrived (tx_to_vec (R := Basic) deploy_tx); IntervalTick lonely_topic; TxArrived (bstr "junk");
   IntervalTick lonely_topic; IntervalTick lonely_topic].
Definition example_pool : Mempool (St := InMemoryStateStore) (Ca := InMemoryStateStore) :=
  mempool_new (mkBuilder 64 (mkStore ∅) (mkStore ∅) [block_zero]).

Lemma deploy_arrives tx : tx_from_slice (tx_to_vec (R := Basic) deploy_tx) = Some tx → tx_valid tx.
Proof.
  rewrite tx_decode. intros [= <-] p Hp. apply (deploy_valid deploy_tx); [by left|]. exact Hp.
Qed.

Lemma example_arrivals : arrivals_valid example_events.
Proof.
  constructor; [exact deploy_arrives|]. constructor; [exact I|]. constructor.
  - intros tx Htx. vm_compute in Htx. discriminate Htx.
  - constructor; [exact I|]. constructor; [exact I|]. constructor.
Qed.


(** The run of the example. *)
Lemma example_run :
  let _ := map_order Address in
  ∃ pubs m bs, node_run every_sequential Debug example_pool example_events = Some (pubs, m) ∧
    pub_data <$> pubs = block_to_vec <$> bs ∧ length bs = 3.
Proof.
  intros HO. destruct (node_start_run every_sequential Debug (mkStore ∅) (mkStore ∅) example_pool
    example_events eq_refl example_arrivals) as (pubs & m & bs & Hrun & Hdata & _ & Hbat & _).
  - by vm_compute.
  - exists pubs, m, bs. split; [done|]. split; [done|]. rewrite <-(length_fmap transactions bs).
    change (transactions <$> bs) with (transactions <$> bs, txs m).1. rewrite <-Hbat. by vm_compute.
Qed.

Definition example_follower : BlockStateBuilder (St := InMemoryStateStore) (Ca := InMemoryStateStore) :=
  mkBuilder 2 (mkStore ∅) (mkStore ∅) [block_zero].


(** The first block is lost: the follower never gets beyond the beginning. *)
Lemma missed_block_stalls_witness :
  let _ := map_order Address in
  ∃ lost post f, post ≠ [] ∧
    (∃ pubs m, node_run every_sequential Debug example_pool example_events = Some (pubs, m) ∧
      pub_data <$> pubs = lost :: post) ∧
    follow every_sequential Debug example_follower post = Some f ∧ state f = mkStore ∅.
Proof.
  intros HO. destruct example_run as (pubs & m & bs & Hrun & Hdata & Hlen).
  destruct bs as [|b bs]; [discriminate Hlen|]. destruct bs as [|c bs]; [discriminate Hlen|].
  destruct (missed_block_stalls every_sequential Debug every_sequential (mkStore ∅) (mkStore ∅) 2
    example_pool example_follower example_events pubs m [] (block_to_vec b)
    (block_to_vec <$> c :: bs) (block_to_vec <$> c :: bs) eq_refl eq_refl example_arrivals)
    as (f1 & f2 & Hf1 & Hf2 & Hst & _).
  - vm_compute. discriminate.
  - exact Hrun.
  - exact Hdata.
  - intros d Hd. exact Hd.
  - injection Hf1 as <-. exists (block_to_vec b), (block_to_vec <$> c :: bs), f2.
    split; [discriminate|]. split; [exists pubs, m; split; [exact Hrun|exact Hdata]|].
    split; [exact Hf2|exact Hst].
Defined.

(** A transaction for an address without a slash: the constructor refuses such a path,
    decoding does not call it. *)
Definition stray_tx : Transaction Basic :=
  transaction_new (R := Basic) [] {[mkAddress (str "a") := CreateAccount example_account]}.

Lemma stray_produce prof :
  let _ := map_order Address in
  produce every_sequential prof (mempool_consume example_pool stray_tx) = None.
Proof. intros HO. destruct prof; vm_compute; reflexivity. Qed.

(** One message stops the development node.  A transaction with a proposal for
    the address "a" decodes, although no address without a slash can be made by the
    constructor; a node that has received it panics at its next tick. *)
Theorem stray_address_stops_node :
  let _ := map_order Address in
  new (str "a") ≠ Ok (mkAddress (str "a")) ∧
  tx_from_slice (tx_to_vec stray_tx) = Some stray_tx ∧
  ∀ prof topic es, node_run every_sequential prof example_pool
    (TxArrived (tx_to_vec stray_tx) :: IntervalTick topic :: es) = None.
Proof.
  intros HO. split; [by vm_compute|].
  assert (tx_from_slice (tx_to_vec stray_tx) = Some stray_tx) as Hdec by by rewrite tx_decode.
  split; [exact Hdec|]. intros prof topic es. cbn [node_run node_step]. rewrite Hdec.
  cbn [mbind option_bind]. pose proof (stray_produce prof) as Hp. cbv zeta in Hp. fold HO in Hp.
  by rewrite Hp.
Qed.
