(* ===== verification/Client.v ===== *)
(** How a client sends and waits: [send_and_confirm_transaction] and
    [send_and_confirm_intents] of [sdk/examples/pgqf/src/io.rs].

    A client is a small state machine next to the task of its watcher ([Watcher]): a
    turn of the loop that gossips, with the topic as it is at that time; entering the
    watch list; waking up.  Nothing is assumed of how its steps and those of the task
    interleave.  What is sent goes to the node of [Devnode]. *)
From stdpp Require Import relations.
From S2P Require Import Prelude Address Predicate State Extern Chain Sandbox ChainProps Collect.
From S2P Require Import Execution ExecutionProps Schedule Forest ScheduleProps Builder Watcher.
From S2P Require Import Cache Wire Topic TopicProps Devnode.

Section client.
Context `{!MultihashCrate, !Bs58Crate, !Wasmer, !WasmerSerialize, !HashOrder Address,
  !Rmp (IntentContent Basic), !Rmp (TxContent Basic), !Rmp BlockContent, !Rmp PredicateContext,
  !Rmp (list ExpandedParam), !Petgraph} `{State St, State Ca}.
Context `{!Libp2p, !Rand, !HashOrder PeerId, !HashOrder Multiaddr}.
Context (RA : nat → Rayon) (prof : Profile).

(** What the functions return with [?]: [topic::Error] or [RecvError]. *)
Inductive SendError := GossipError (e : TopicError) | RecvError.

(** One turn of the loop [loop { match topic.gossip(..) { .. } }]: [None] is another
    turn, after a second. *)
Definition attempt (data : bytes) (topic : TopicInner) : option (Result unit SendError) :=
  match (gossip data topic).1 with
  | Ok _ => Some (Ok tt)
  | Err NoConnectedPeers => None
  | Err e => Some (Err (GossipError e))
  end.

(** The rest of [rx.await]: the value that was sent into the channel, or the error when
    the sender was dropped; [None] while there is neither. *)
Definition received (w : World (St := St) (Ca := Ca)) (ch : nat) : option (Result WatchlistValue unit) :=
  match list_find (λ s : nat * WatchlistValue, s.1 = ch) (sent w) with
  | Some (_, (_, v)) => Some (Ok v)
  | None => if bool_decide (ch ∈ dropped w) then Some (Err tt) else None
  end.

(** What happens next: the client's next turn with the topic as it is, its next entry
    into the watch list, its waking up; or a step of the watcher and its other users. *)
Inductive ClientEvent :=
| Attempt (topic : TopicInner)
| Register
| Wake
| WatcherDoes (e : Event).

(** [send_and_confirm_transaction] *)
Inductive TxPhase :=
| TxSending
| TxSent
| TxAwaiting (ch : nat)
| TxDone (r : Result Block SendError)
| TxPanicked.

Definition confirm_step (tx : Transaction Basic) (s : TxPhase * World (St := St) (Ca := Ca))
    (e : ClientEvent) : option (TxPhase * World (St := St) (Ca := Ca)) :=
  let '(ph, w) := s in
  match e, ph with
  | Attempt topic, TxSending =>
      match attempt (tx_to_vec tx) topic with
      | None => Some (TxSending, w)
      | Some (Ok _) => Some (TxSent, w)
      | Some (Err e) => Some (TxDone (Err e), w)
      end
  | Register, TxSent =>
      Some (TxAwaiting (length (asked w)), await_ w (KTransaction (tx_hash tx).1))
  | Wake, TxAwaiting ch =>
      match received w ch with
      | None => None
      | Some (Err _) => Some (TxDone (Err RecvError), w)
      | Some (Ok v) =>
          match await_transaction_result v with
          | Some block => Some (TxDone (Ok block), w)
          | None => Some (TxPanicked, w)
          end
      end
  | WatcherDoes e, _ => (λ w, (ph, w)) <$> watcher_step RA prof w e
  | _, _ => None
  end.

(** [send_and_confirm_intents]: all intents are sent before the first wait begins, since
    the futures do nothing until [join_all] polls them. *)
Inductive IntentsPhase :=
| ISending (todo : list (Intent Basic)) (hashes : list Multihash)
| IWaiting (hashes : list Multihash) (chs : list nat)
| IDone (r : Result (list (Transaction Basic)) SendError)
| IPanicked.

(** [for intent in intents] *)
Definition send_next (todo : list (Intent Basic)) (hashes : list Multihash) : IntentsPhase :=
  match todo with [] => IWaiting hashes [] | _ => ISending todo hashes end.

(** [intents.map(|i| ( *i.hash(), i)).unzip()] and what follows. *)
Definition intents_start (intents : list (Intent Basic)) : IntentsPhase :=
  send_next ((λ i, (intent_hash i).2) <$> intents) ((λ i, (intent_hash i).1) <$> intents).

(** [filter_map(|tr| tr.ok())] on what the waits return; [None] is a panic. *)
Definition join_results (rs : list (Result WatchlistValue unit)) : option (list (Transaction Basic)) :=
  mapM await_intent_result (omap result_ok rs).

Definition intents_step (s : IntentsPhase * World (St := St) (Ca := Ca)) (e : ClientEvent) :
    option (IntentsPhase * World (St := St) (Ca := Ca)) :=
  let '(ph, w) := s in
  match e, ph with
  | Attempt topic, ISending (i :: todo) hashes =>
      match attempt (intent_to_vec i) topic with
      | None => Some (ISending (i :: todo) hashes, w)
      | Some (Ok _) => Some (send_next todo hashes, w)
      | Some (Err e) => Some (IDone (Err e), w)
      end
  | Register, IWaiting (h :: hashes) chs =>
      Some (IWaiting hashes (chs ++ [length (asked w)]), await_ w (KIntent h))
  | Wake, IWaiting [] chs =>
      rs ← mapM (received w) chs;
      match join_results rs with
      | Some txs => Some (IDone (Ok txs), w)
      | None => Some (IPanicked, w)
      end
  | WatcherDoes e, _ => (λ w, (ph, w)) <$> watcher_step RA prof w e
  | _, _ => None
  end.
End client.

Section properties.
Context `{!MultihashCrate, !Bs58Crate, !MultihashLaws, !Bs58Laws, !Wasmer, !WasmerSerialize,
  !HashOrder Address, !Rmp (IntentContent Basic), !Rmp (TxContent Basic), !RmpLaws (TxContent Basic),
  !Rmp BlockContent, !RmpLaws BlockContent, !Rmp PredicateContext, !Rmp (list ExpandedParam),
  !Petgraph, !PetgraphLaws} `{StateLaws St, StateLaws Ca}.
Context `{!Libp2p, !Rand, !HashOrder PeerId, !HashOrder Multiaddr}.
Context (RA : nat → Rayon) (prof : Profile).
Implicit Types (w : World (St := St) (Ca := Ca)).

(** ** Channels *)

Lemma wstep_asked w w' : wstep RA prof w w' → asked w `prefix_of` asked w'.
Proof.
  intros [[block| | | |key] He]; unfold watcher_step in He;
    destruct (phase w) as [|block' [|[k v] todo]|]; simplify_eq; simpl; try done;
    try (by apply prefix_app_r).
  - unfold signal. by destruct (watchlist w !! k).
  - by destruct (consume RA prof (state_builder w) block') as [[r b]|].
Qed.

Lemma rtc_preserve_prefix w w' : rtc (wstep RA prof) w w' → asked w `prefix_of` asked w'.
Proof. induction 1; [done|]. etrans; [by eapply wstep_asked|done]. Qed.

Lemma received_sent w ch v : received w ch = Some (Ok v) → (ch, v) ∈ sent w.
Proof.
  unfold received. destruct (list_find _ (sent w)) as [[i [c v']]|] eqn:Hf.
  - apply list_find_Some in Hf as (Hi & Hc & _). simpl in Hc. subst c. intros [= ->].
    by eapply list_elem_of_lookup_2.
  - by case_bool_decide.
Qed.

Lemma sent_received w ch : ch ∈ (sent w).*1 → ∃ v, received w ch = Some (Ok v).
Proof.
  intros ([c v] & -> & Hin)%list_elem_of_fmap. unfold received. simpl.
  destruct (list_find_elem_of (λ s : nat * WatchlistValue, s.1 = c) (sent w) (c, v) Hin eq_refl)
    as [[i [c' v']] ->]. by exists v'.
Qed.

Lemma dropped_received w ch : ch ∈ dropped w → is_Some (received w ch).
Proof.
  intros Hd. unfold received. destruct (list_find _ (sent w)) as [[i [c v']]|]; [done|].
  by rewrite bool_decide_true.
Qed.

(** A channel in the watch list has no value yet. *)
Lemma waiting_not_received w key ch :
  world_ok w → watchlist w !! key = Some ch → received w ch = None.
Proof.
  intros [_ Hf _ _ _] Hw.
  assert (ch ∈ (map_to_list (watchlist w)).*2) as Hin.
  { apply list_elem_of_fmap. exists (key, ch). split; [done|]. by apply elem_of_map_to_list. }
  assert (NoDup (fates w)) as Hnd by (rewrite Hf; apply NoDup_seq).
  unfold fates in Hnd. apply NoDup_app in Hnd as (_ & Hno & _). specialize (Hno ch Hin).
  rewrite not_elem_of_app in Hno. destruct Hno as [Hs Hd].
  destruct (received w ch) as [[v|]|] eqn:Hr; [|..|done].
  - apply received_sent in Hr. destruct Hs. apply list_elem_of_fmap. by exists (ch, v).
  - unfold received in Hr. destruct (list_find _ _) as [[? [? ?]]|]; [done|]. by case_bool_decide.
Qed.

(** What a wait for [key] receives answers it. *)
Lemma received_answers w key ch v :
  world_ok w → asked w !! ch = Some key → received w ch = Some (Ok v) → answers key v.
Proof.
  intros Hok Ha Hr. apply received_sent in Hr. destruct (wo_sent w Hok ch v Hr) as (k & Hk & Hans).
  congruence.
Qed.

(** ** Transactions *)

(** The invariant of a client. *)
Definition confirm_ok (tx : Transaction Basic) (s : TxPhase * World (St := St) (Ca := Ca)) : Prop :=
  world_ok s.2 ∧
  match s.1 with
  | TxAwaiting ch => asked s.2 !! ch = Some (KTransaction (tx_hash tx).1)
  | TxDone (Ok block) => ∃ tx', tx' ∈ transactions block ∧ tx_eq tx' tx = true
  | TxPanicked => False
  | _ => True
  end.

Lemma confirm_step_ok tx s s' e :
  confirm_ok tx s → confirm_step RA prof tx s e = Some s' → confirm_ok tx s'.
Proof.
  destruct s as [ph w]. intros [Hok Hph]. unfold confirm_step.
  destruct e as [topic| | |e].
  - destruct ph; try done. destruct (attempt _ _) as [[[]|er]|]; intros [= <-]; by split.
  - destruct ph; try done. intros [= <-]. split; [by apply await_ok|].
    simpl. by apply list_lookup_middle.
  - destruct ph as [| |ch| |]; try done. simpl in *.
    destruct (received w ch) as [[v|]|] eqn:Hr; [|by intros [= <-]|done].
    destruct (received_answers w _ ch v Hok Hph Hr) as (block & -> & tx' & Hin & Hh). intros [= <-].
    split; [done|]. exists tx'. split; [done|]. unfold tx_eq. by apply bool_decide_eq_true.
  - intros (w' & Hw & ->)%fmap_Some. simpl.
    assert (wstep RA prof w w') as Hstep by by exists e. split; [by eapply wstep_ok|].
    destruct ph as [| |ch| |]; try done. simpl in *.
    by eapply prefix_lookup_Some, wstep_asked.
Qed.

(** ** Intents *)

(** A wait for the hash [h] that is still to be registered, or is registered and not
    answered. *)
Definition pending_wait (h : Multihash) (s : IntentsPhase * World (St := St) (Ca := Ca)) : Prop :=
  world_ok s.2 ∧
  (∀ block todo, phase s.2 = Probing block todo → KIntent h ∉ todo.*1) ∧
  match s.1 with
  | ISending _ hs => h ∈ hs
  | IWaiting hs chs => h ∈ hs ∨ ∃ ch, ch ∈ chs ∧ watchlist s.2 !! KIntent h = Some ch
  | IDone (Ok _) => False
  | _ => True
  end.

(** The watcher and its other users neither show a block with the intent nor wait for
    it. *)
Definition without (h : Multihash) (e : ClientEvent) : Prop :=
  match e with
  | WatcherDoes (NextBlock block) => KIntent h ∉ (block_lookups block).*1
  | WatcherDoes (Await key) => key ≠ KIntent h
  | _ => True
  end.

Lemma watcher_without h w w' e :
  without h (WatcherDoes e) → world_ok w → watcher_step RA prof w e = Some w' →
  (∀ block todo, phase w = Probing block todo → KIntent h ∉ todo.*1) →
  (∀ block todo, phase w' = Probing block todo → KIntent h ∉ todo.*1) ∧
  watchlist w' !! KIntent h = watchlist w !! KIntent h.
Proof.
  intros Hwo Hok He Hph. assert ((∃ key, e = Await key) ∨ ∀ key, e ≠ Await key) as [[key ->]|Hne].
  { destruct e; [right|right|right|right|left]; by eauto. }
  { injection He as <-. simpl in *. by rewrite lookup_insert_ne. }
  unfold watcher_step in He.
  destruct e as [block| | | |key], (phase w) as [|block' [|[k v] todo]|] eqn:Hp;
    simplify_eq; simpl in *; try done; try (by destruct (Hne key)).
  - split; [|done]. by intros b t [= <- <-].
  - specialize (Hph block' ((k, v) :: todo) eq_refl). rewrite fmap_cons, not_elem_of_cons in Hph.
    destruct Hph as [Hk Ht]. unfold signal.
    destruct (watchlist w !! k); simpl; (split; [by intros b t [= <- <-]|]); [|done].
    by rewrite lookup_delete_ne.
  - by destruct (consume RA prof (state_builder w) block') as [[r b]|].
Qed.

Lemma send_next_pending h todo hs w :
  world_ok w → (∀ block todo, phase w = Probing block todo → KIntent h ∉ todo.*1) → h ∈ hs →
  pending_wait h (send_next todo hs, w).
Proof. intros Hok Hph Hh. split; [done|]. split; [done|]. destruct todo; [by left|done]. Qed.

Lemma intents_step_pending h s s' e :
  without h e → pending_wait h s → intents_step RA prof s e = Some s' → pending_wait h s'.
Proof.
  destruct s as [ph w]. intros Hwo (Hok & Hpr & Hph). unfold intents_step. simpl in *.
  destruct e as [topic| | |e].
  - destruct ph as [[|i todo] hs| | |]; try done.
    destruct (attempt _ _) as [[[]|er]|]; intros [= <-]; [by apply send_next_pending|done..].
  - destruct ph as [|[|h' hs] chs| |]; try done. intros [= <-].
    split; [by apply await_ok|]. split; [done|]. simpl in *.
    destruct (decide (h' = h)) as [->|Hne].
    + right. exists (length (asked w)). rewrite lookup_insert_eq. split; [set_solver|done].
    + destruct Hph as [[->|Hin]%elem_of_cons|(ch & Hch & Hw)]; [done|by left|].
      right. exists ch. rewrite lookup_insert_ne by congruence. split; [set_solver|done].
  - destruct ph as [|[|h' hs] chs| |]; try done.
    destruct Hph as [[]%elem_of_nil|(ch & Hch & Hw)].
    destruct (mapM (received w) chs) as [rs|] eqn:Hrs; [|done].
    apply mapM_Some in Hrs. apply list_elem_of_lookup in Hch as [i Hi].
    destruct (Forall2_lookup_l _ _ _ _ _ Hrs Hi) as (r & _ & Hr).
    by rewrite (waiting_not_received w _ ch Hok Hw) in Hr.
  - intros (w' & Hw & ->)%fmap_Some. simpl in Hw.
    destruct (watcher_without h w w' e Hwo Hok Hw Hpr) as [Hpr' Hwl].
    split; [eapply wstep_ok; [done|by exists e]|]. split; [done|]. simpl in *. by rewrite Hwl.
Qed.

(** What the intents function returns are transactions with the intents. *)
Definition intents_ok (asked_for : list Multihash) (s : IntentsPhase * World (St := St) (Ca := Ca)) :
    Prop :=
  world_ok s.2 ∧
  match s.1 with
  | ISending _ hs => hs = asked_for
  | IWaiting hs chs => ∃ done_, asked_for = done_ ++ hs ∧
      Forall2 (λ h ch, asked s.2 !! ch = Some (KIntent h)) done_ chs
  | IDone (Ok txs) => Forall (λ tx, ∃ i, i ∈ intents tx ∧ (intent_hash i).1 ∈ asked_for) txs
  | IDone (Err _) => True
  | IPanicked => False
  end.

Lemma join_results_ok w hs chs rs :
  world_ok w → Forall2 (λ h ch, asked w !! ch = Some (KIntent h)) hs chs →
  mapM (received w) chs = Some rs →
  ∃ txs, join_results rs = Some txs ∧
    Forall (λ tx, ∃ i, i ∈ intents tx ∧ (intent_hash i).1 ∈ hs) txs.
Proof.
  intros Hok Hall. revert rs. induction Hall as [|h ch hs chs Ha _ IH]; intros rs.
  { intros [= <-]. by exists []. }
  cbn [mapM mbind option_bind]. destruct (received w ch) as [r|] eqn:Hr; [|done].
  cbn [mbind option_bind]. destruct (mapM (received w) chs) as [rs'|]; [|done]. intros [= <-].
  destruct (IH rs' eq_refl) as (txs & Htxs & Hin).
  assert (Forall (λ tx : Transaction Basic, ∃ i, i ∈ intents tx ∧ (intent_hash i).1 ∈ h :: hs) txs)
    as Hin'.
  { eapply Forall_impl; [exact Hin|]. intros tx (i & Hi & Hh). exists i. split; [done|by right]. }
  unfold join_results in *. destruct r as [v|[]]; [|by exists txs].
  destruct (received_answers w _ ch v Hok Ha Hr) as (tx & Htx & i & Hi & Hh).
  exists (tx :: txs). change (omap result_ok (Ok v :: rs')) with (v :: omap result_ok rs').
  cbn [mapM]. rewrite Htx. cbn [mbind option_bind]. rewrite Htxs. split; [done|].
  constructor; [|done]. exists i. split; [done|]. rewrite Hh. by left.
Qed.

Lemma intents_step_ok hs0 s s' e :
  intents_ok hs0 s → intents_step RA prof s e = Some s' → intents_ok hs0 s'.
Proof.
  destruct s as [ph w]. intros [Hok Hph]. unfold intents_step. simpl in *.
  destruct e as [topic| | |e].
  - destruct ph as [[|i todo] hs| | |]; try done. subst hs.
    destruct (attempt _ _) as [[[]|er]|]; intros [= <-]; [|by split..].
    split; [done|]. destruct todo; [|done]. by exists [].
  - destruct ph as [|[|h hs] chs| |]; try done. intros [= <-]. destruct Hph as (d & -> & Hall).
    split; [by apply await_ok|]. exists (d ++ [h]). rewrite <-app_assoc. split; [done|]. simpl.
    apply Forall2_app; [|constructor; [by apply list_lookup_middle|constructor]].
    eapply Forall2_impl; [exact Hall|]. intros h' ch. apply lookup_app_l_Some.
  - destruct ph as [|[|h hs] chs| |]; try done. destruct Hph as (d & -> & Hall). rewrite app_nil_r.
    destruct (mapM (received w) chs) as [rs|] eqn:Hrs; [|done]. cbn [mbind option_bind].
    destruct (join_results_ok w d chs rs Hok Hall Hrs) as (txs & -> & Hin). intros [= <-]. by split.
  - intros (w' & Hw & ->)%fmap_Some. simpl in Hw.
    assert (wstep RA prof w w') as Hstep by by exists e. split; [by eapply wstep_ok|]. simpl.
    destruct ph as [|hs chs| |]; try done. destruct Hph as (d & -> & Hall). exists d. split; [done|].
    eapply Forall2_impl; [exact Hall|]. intros h ch Ha. simpl in *.
    eapply prefix_lookup_Some; [exact Ha|]. by apply wstep_asked.
Qed.

Lemma Forall_always {A} (l : list A) : Forall (λ _, True) l.
Proof. by induction l; constructor. Qed.

Lemma confirm_run tx es w0 s :
  world_ok w0 → foldM (confirm_step RA prof tx) (TxSending, w0) es = Some s → confirm_ok tx s.
Proof.
  intros Hok. apply (foldM_invariant _ (confirm_ok tx) (λ _, True)); [|apply Forall_always|by split].
  intros s1 e s2 _. apply confirm_step_ok.
Qed.

(** The hashes that a client waits for. *)
Definition hashes_of (l : list (Intent Basic)) : list Multihash := (λ i, (intent_hash i).1) <$> l.

Lemma intents_run l es w0 s :
  world_ok w0 → foldM (intents_step RA prof) (intents_start l, w0) es = Some s →
  intents_ok (hashes_of l) s.
Proof.
  intros Hok. apply (foldM_invariant _ (intents_ok (hashes_of l)) (λ _, True)); [|apply Forall_always|].
  { intros s1 e s2 _. apply intents_step_ok. }
  split; [done|]. unfold intents_start, send_next. destruct l; [by exists []|done].
Qed.

(** ** From the client to the node and back *)

Lemma batches_head pool es :
  (∃ t, IntervalTick t ∈ es) →
  ∃ b bs rest, batches pool es = (b :: bs, rest) ∧ pool `prefix_of` b.
Proof.
  revert pool. induction es as [|[data|t] es IH]; intros pool [t0 Ht]; [by apply elem_of_nil in Ht|..];
    cbn [batches].
  - apply elem_of_cons in Ht as [|Ht]; [done|].
    destruct (IH (pool ++ option_list (tx_from_slice (R := Basic) data))) as (b & bs & rest & -> & Hp);
      [by exists t0|].
    exists b, bs, rest. split; [done|]. etrans; [by apply prefix_app_r|done].
  - destruct (batches [] es) as [bs rest]. by exists pool, bs, rest.
Qed.

(** The copy of a transaction that the node makes of the bytes. *)
Definition copy_of (tx : Transaction Basic) : Transaction Basic := tx_of_content (tx_content tx).

Lemma copy_of_hash tx : tx_cache tx = None → (tx_hash (copy_of tx)).1 = (tx_hash tx).1.
Proof.
  intros Hc. assert (tx_content (copy_of tx) = tx_content tx) as Heq by apply tx_of_content_content.
  unfold tx_hash. rewrite Hc, Heq. done.
Qed.

Lemma copy_of_valid tx : tx_valid tx → tx_valid (copy_of tx).
Proof. intros Hv. exact Hv. Qed.

(** The first block after a transaction arrived has it. *)
Lemma arrived_in_block m b tx es :
  ends_with (blocks m) b → (0 ≤ height b)%Z →
  (height b + Z.of_nat (ticks es) ≤ u64_max)%Z → pool_ok (txs m) → tx_valid tx → arrivals_valid es →
  (∃ t, IntervalTick t ∈ es) →
  ∃ p pubs m' block, node_run RA prof m (TxArrived (tx_to_vec tx) :: es) = Some (p :: pubs, m') ∧
    block_from_slice (pub_data p) = Some block ∧ copy_of tx ∈ transactions block.
Proof.
  intros He Hh Hn Hp Hv Hes Htick.
  assert (batches (txs m) (TxArrived (tx_to_vec tx) :: es) = batches (txs m ++ [copy_of tx]) es) as Hb.
  { cbn [batches]. by rewrite tx_decode. }
  destruct (batches_head (txs m ++ [copy_of tx]) es Htick) as (b1 & bs1 & rest & Hbat & [k Hk]).
  assert (length (batches (txs m ++ [copy_of tx]) es).1 = ticks es) as Hlen by apply batches_length.
  destruct (node_run_blocks RA prof (TxArrived (tx_to_vec tx) :: es) m b He Hh)
    as (pubs & m' & bs & Hrun & Hdata & _ & Hbs & _ & Hall & _); [by rewrite Hb, Hlen|done|..].
  { constructor; [|done]. intros tx'. rewrite tx_decode. intros [= <-]. by apply copy_of_valid. }
  rewrite Hb, Hbat in Hbs. injection Hbs as Hbs _. destruct bs as [|c bs]; [done|].
  injection Hbs as -> _. destruct pubs as [|p pubs]; [done|]. injection Hdata as Hpd _.
  apply Forall_cons in Hall as [Hc _].
  exists p, pubs, m', (mkBlock (height c) (parent c) (transactions c) None). split; [done|].
  split; [rewrite Hpd; by apply block_decode, pool_fresh|]. simpl. rewrite Hk. set_solver.
Qed.



(** Waking up too late.  The intents are all sent before the first wait begins.  If
    the watcher is done with the block that includes one of them while others are
    still being sent, and no later block includes it again, the client waits for ever,
    whatever happens: it never returns the transactions. *)
Theorem intent_waited_in_vain hl st cc rs w0 sent_intents i es1 todo hs w1 es2 ph w2 :
  watcher_new hl st cc rs = Ok w0 → i ∈ sent_intents →
  foldM (intents_step RA prof) (intents_start sent_intents, w0) es1 = Some (ISending todo hs, w1) →
  (∀ block rest, phase w1 = Probing block rest → KIntent (intent_hash i).1 ∉ rest.*1) →
  Forall (without (intent_hash i).1) es2 →
  foldM (intents_step RA prof) (ISending todo hs, w1) es2 = Some (ph, w2) →
  ∀ txs, ph ≠ IDone (Ok txs).
Proof.
  intros Hnew%watcher_new_ok Hi Hrun1 Hph1 Hwo Hrun2 txs ->.
  apply (intents_run _ es1 w0 _ Hnew) in Hrun1 as [Hok1 Hhs]. simpl in Hhs. subst hs.
  assert (pending_wait (intent_hash i).1 (ISending todo (hashes_of sent_intents), w1)) as Hpend.
  { split; [done|]. split; [done|]. apply list_elem_of_fmap. by exists i. }
  destruct (foldM_invariant _ (pending_wait (intent_hash i).1) (without (intent_hash i).1) es2 _ _
    (λ s e s' Ha Hs He, intents_step_pending _ s s' e Ha Hs He) Hwo Hpend Hrun2) as (_ & _ & []).
Qed.
End properties.

(** ** Examples *)

(** The topic with a peer; the world in which nothing has happened; a client that finds
    no peers at first, then sends, and waits before the block comes. *)
Definition crowded_topic : TopicInner := with_active {[peer 1 := (conn 1, {[maddr 1]})]} lonely_topic.
Definition quiet_world : World (St := InMemoryStateStore) (Ca := InMemoryStateStore) :=
  mkWorld ∅ genesis_builder Waiting [] [] [].
Definition watched (block : Block) (lookups : nat) : list ClientEvent :=
  WatcherDoes (NextBlock block) :: replicate lookups (WatcherDoes Lookup) ++ [WatcherDoes Consume].
Definition confirmed_events : list ClientEvent :=
  [Attempt lonely_topic; Attempt crowded_topic; Register] ++ watched deploy_block 2 ++ [Wake].

Definition second_intent : Intent Basic :=
  intent_new (R := Basic) (bstr "bh2") (Id (mkPredicate (CodeInline (bstr "c")) [])).
Definition intent_block : Block :=
  mkBlock 1 (block_hash block_zero).1 [transaction_new (R := Basic) [example_intent] ∅] None.



Lemma intent_waited_in_vain_witness :
  let _ := map_order Address in
  ∃ ph w, foldM (intents_step every_sequential Debug)
      (intents_start [example_intent; second_intent], quiet_world)
      (Attempt crowded_topic :: watched intent_block 2 ++ [Attempt crowded_topic; Register; Register]) =
      Some (ph, w) ∧ ∀ txs, ph ≠ IDone (Ok txs).
Proof.
  intros HO.
  set (es1 := Attempt crowded_topic :: watched intent_block 2).
  assert (match foldM (intents_step every_sequential Debug)
    (intents_start [example_intent; second_intent], quiet_world) es1 with
    | Some (ISending _ _, w) => match phase w with Waiting => true | _ => false end
    | _ => false end = true) as Hb by (vm_compute; reflexivity).
  destruct (foldM (intents_step every_sequential Debug)
    (intents_start [example_intent; second_intent], quiet_world) es1) as [[[todo hs| | |] w1]|] eqn:Hrun1;
    try discriminate Hb.
  assert (match foldM (intents_step every_sequential Debug)
    (intents_start [example_intent; second_intent], quiet_world)
    (es1 ++ [Attempt crowded_topic; Register; Register]) with Some _ => true | _ => false end = true) as Hb2
    by (vm_compute; reflexivity).
  rewrite foldM_app, Hrun1 in Hb2. cbn [mbind option_bind] in Hb2.
  change (Attempt crowded_topic :: watched intent_block 2 ++ [Attempt crowded_topic; Register; Register])
    with (es1 ++ [Attempt crowded_topic; Register; Register]).
  rewrite foldM_app, Hrun1. cbn [mbind option_bind].
  destruct (foldM (intents_step every_sequential Debug) (ISending todo hs, w1)
    [Attempt crowded_topic; Register; Register]) as [[ph w2]|] eqn:Hrun2; [|discriminate Hb2].
  exists ph, w2. split; [reflexivity|].
  apply (intent_waited_in_vain every_sequential Debug 2 (mkStore ∅) (mkStore ∅) [block_zero]
    quiet_world [example_intent; second_intent] example_intent es1 todo hs w1
    [Attempt crowded_topic; Register; Register] ph w2 eq_refl); [left|exact Hrun1| | |exact Hrun2].
  - intros block rest Hph. rewrite Hph in Hb. discriminate Hb.
  - repeat constructor.
Defined.
