(* ===== verification/Runloop.v ===== *)
(** The background thread: [network/src/runloop.rs], composed with the network object
    and the behaviour.

    The thread owns libp2p's swarm, which owns the behaviour.  It takes the commands
    that the network object sent, and puts the events that the swarm reports into the
    channel of the network object.  The swarm itself is libp2p's: what it does on its own
    are calls of the behaviour's callbacks, under the contract that [announce] states.
    That contract is about the callbacks here; that it holds for the events as the
    network object sees them, after the behaviour's queue and the channel, is proved. *)
From stdpp Require Import relations.
From S2P Require Import Prelude Extern Chain Sandbox Cache Wire Behaviour Muxer Topic TopicProps TopicCommands.
From S2P Require Import Network NetworkProps NetworkSpec.

(** libp2p: building the transport, and sockets to listen on. *)
Class SwarmCrate `{!Libp2p} := {
  TransportError : Type;
  build_swarm : Config → PeerId → Result unit TransportError;
  listen_on : Multiaddr → Result unit TransportError;
}.

Section runloop.
Context `{!MultihashCrate, !Libp2p, !Rand, !RandLaws, !HashOrder PeerId, !HashOrder Multiaddr,
  !HashOrder Protocol, !HashOrder rstring, !Rmp (rstring * Action)}.
Context (prof : Profile).

(** The thread with its swarm: the addresses it listens on, dials and bans, in order,
    and what the behaviour has told it to do with connections. *)
Record Thread := mkThread {
  th_behaviour : Behaviour;
  th_listening : list Multiaddr;
  th_dialed : list Multiaddr;
  th_banned : list PeerId;
  th_actions : list NetworkBehaviourAction;
  th_running : bool;
}.

Definition with_behaviour (b : Behaviour) (t : Thread) : Thread :=
  mkThread b (th_listening t) (th_dialed t) (th_banned t) (th_actions t) (th_running t).
Definition with_action (a : NetworkBehaviourAction) (t : Thread) : Thread :=
  mkThread (th_behaviour t) (th_listening t) (th_dialed t) (th_banned t) (th_actions t ++ [a])
    (th_running t).
Definition stopped (t : Thread) : Thread :=
  mkThread (th_behaviour t) (th_listening t) (th_dialed t) (th_banned t) (th_actions t) false.

(** [start_network_runloop], which [Runloop::new] calls: every address is listened on,
    or the first error is returned. *)
Definition start_network_runloop `{!SwarmCrate} (config : Config) (keypair : PeerId) :
    Result Thread TransportError :=
  let? _ := build_swarm config keypair in
  let? _ := try_map_list listen_on (listen_addrs config) in
  Ok (mkThread (behaviour_new config) (listen_addrs config) [] [] [] true).

(** The arm of the loop for a command; a dial that fails is only logged. *)
Definition thread_command (command : RunloopCommand) (t : Thread) : Thread :=
  match command with
  | RConnect addr =>
      mkThread (th_behaviour t) (th_listening t) (th_dialed t ++ [addr]) (th_banned t) (th_actions t)
        (th_running t)
  | RDisconnect peer connection =>
      with_behaviour (disconnect_from (th_behaviour t) peer connection) t
  | RSendMessage peer connection msg =>
      with_behaviour (send_to (th_behaviour t) peer connection msg) t
  | RBanPeer peer =>
      mkThread (th_behaviour t) (th_listening t) (th_dialed t) (th_banned t ++ [peer]) (th_actions t)
        (th_running t)
  end.

(** The swarm polls the behaviour: an event is reported by [swarm.next()], anything else
    the swarm does itself. *)
Definition swarm_next (t : Thread) : option (option BehaviourEvent * Thread) :=
  match bh_poll (th_behaviour t) with
  | None => None
  | Some (GenerateEvent event, b) => Some (Some event, with_behaviour b t)
  | Some (action, b) => Some (None, with_action action (with_behaviour b t))
  end.

(** The callbacks of the swarm. *)
Inductive Callback :=
| OnEstablished (peer : PeerId) (connection : ConnectionId) (endpoint : ConnectedPoint)
| OnClosed (peer : PeerId) (connection : ConnectionId)
| OnMessage (peer : PeerId) (connection : ConnectionId) (msg : Message)
| OnListenAddr (addr : Multiaddr).

Definition call_back (cb : Callback) (b : Behaviour) : Behaviour :=
  match cb with
  | OnEstablished peer connection endpoint => inject_connection_established b peer connection endpoint
  | OnClosed peer connection => inject_connection_closed b peer connection
  | OnMessage peer connection msg => bh_inject_event b peer connection msg
  | OnListenAddr addr => inject_new_listen_addr b addr
  end.

(** The contract of libp2p: connections are established under new numbers; messages
    come from, and ends are reported of, open connections. *)
Definition callback_ok (g : Announced) (cb : Callback) : option Announced :=
  match cb with
  | OnEstablished peer connection endpoint =>
      announce g (ConnectionEstablished (mkPeer peer {[get_remote_address endpoint]}) endpoint connection)
  | OnClosed peer connection => announce g (ConnectionClosed peer connection)
  | OnMessage peer connection msg => announce g (WireMessage peer connection msg)
  | OnListenAddr _ => Some g
  end.

(** The network object, or its last state when its task has panicked, and the thread
    with the number of commands it has taken. *)
Record System := mkSystem { alive : bool; net : Network; thread : Thread; taken : nat }.

Definition sys_start (cfg : Config) (id : PeerId) (t : Thread) : System :=
  mkSystem true (network_new cfg id) t 0.

(** The loop of the thread. *)
Inductive thread_step : System → System → Prop :=
| ts_command s command :
    th_running (thread s) = true → runloop (net s) !! taken s = Some command →
    thread_step s (mkSystem (alive s) (net s) (thread_command command (thread s)) (S (taken s)))
| ts_action s t :
    th_running (thread s) = true → swarm_next (thread s) = Some (None, t) →
    thread_step s (mkSystem (alive s) (net s) t (taken s))
| ts_event s event t :
    th_running (thread s) = true → alive s = true → swarm_next (thread s) = Some (Some event, t) →
    thread_step s (mkSystem true (with_commands (commands (net s) ++ [InjectEvent event]) (net s)) t (taken s))
| ts_break s event t :  (** the receiver is gone with the network object *)
    th_running (thread s) = true → alive s = false → swarm_next (thread s) = Some (Some event, t) →
    thread_step s (mkSystem false (net s) (stopped t) (taken s)).

(** The thread, the network object and its users, and the swarm. *)
Inductive sys_step : Announced * System → Announced * System → Prop :=
| ss_thread g s s' : thread_step s s' → sys_step (g, s) (g, s')
| ss_poll g s now tick ready self :
    alive s = true → poll_next prof now tick (net s) = Some (ready, self) →
    sys_step (g, s) (g, mkSystem true self (thread s) (taken s))
| ss_panic g s now tick :
    alive s = true → poll_next prof now tick (net s) = None →
    sys_step (g, s) (g, mkSystem false (net s) (thread s) (taken s))
| ss_join g s now cfg :
    alive s = true →
    sys_step (g, s) (g, mkSystem true (join now cfg (net s)).2 (thread s) (taken s))
| ss_gossip g s n data r self :
    alive s = true → gossip_on n data (net s) = Some (r, self) →
    sys_step (g, s) (g, mkSystem true self (thread s) (taken s))
| ss_callback g g' s cb :
    th_running (thread s) = true → callback_ok g cb = Some g' →
    sys_step (g, s) (g', mkSystem (alive s) (net s)
      (with_behaviour (call_back cb (th_behaviour (thread s))) (thread s)) (taken s)).

(** ** The parts *)

(** What the commands ask for, by kind. *)
Definition asked_dials (l : list RunloopCommand) : list Multiaddr :=
  omap (λ c, match c with RConnect a => Some a | _ => None end) l.
Definition asked_bans (l : list RunloopCommand) : list PeerId :=
  omap (λ c, match c with RBanPeer p => Some p | _ => None end) l.
Definition asked_closes (l : list RunloopCommand) : list (PeerId * ConnectionId) :=
  omap (λ c, match c with RDisconnect p c => Some (p, c) | _ => None end) l.
Definition asked_sends (l : list RunloopCommand) : list (PeerId * ConnectionId * Message) :=
  omap (λ c, match c with RSendMessage p c m => Some (p, c, m) | _ => None end) l.

(** What was done with connections, by kind. *)
Definition done_closes (l : list NetworkBehaviourAction) : list (PeerId * ConnectionId) :=
  omap (λ a, match a with CloseConnection p c => Some (p, c) | _ => None end) l.
Definition done_sends (l : list NetworkBehaviourAction) : list (PeerId * ConnectionId * Message) :=
  omap (λ a, match a with NotifyHandler p c m => Some (p, c, m) | _ => None end) l.

(** The thread has done what the commands it took ask for, or has it in the queues of the
    behaviour. *)
Record thread_ok (l : list RunloopCommand) (t : Thread) : Prop := {
  to_dials : th_dialed t = asked_dials l;
  to_bans : th_banned t = asked_bans l;
  to_closes : done_closes (th_actions t) ++ bh_disconnects (th_behaviour t) = asked_closes l;
  to_sends : done_sends (th_actions t) ++ bh_outmsgs (th_behaviour t) = asked_sends l;
}.

Lemma thread_command_ok l c t : thread_ok l t → thread_ok (l ++ [c]) (thread_command c t).
Proof.
  intros [Hd Hb Hc Hs]. destruct c; split; simpl;
    unfold asked_dials, asked_bans, asked_closes, asked_sends in *; rewrite ?omap_app, <-?Hd, <-?Hb, <-?Hc, <-?Hs;
    simpl; by rewrite ?app_nil_r, <-?app_assoc.
Qed.

(** A poll of the behaviour for something that the swarm does itself. *)
Lemma swarm_next_action t t' :
  swarm_next t = Some (None, t') →
  ∃ a, agenda (th_behaviour t) = a :: agenda (th_behaviour t') ∧
    bh_events (th_behaviour t') = bh_events (th_behaviour t) ∧ th_running t' = th_running t ∧
    ∀ l, thread_ok l t → thread_ok l t'.
Proof.
  destruct t as [[cfg [|e es] [|[p c] ds] [|[[p' c'] m] ms]] li di ba ac ru]; cbn; intros ?; simplify_eq;
    (eexists; split; [done|]; split; [done|]; split; [done|]; intros l [Hd Hb Hc Hs]; split; simpl in *; try done);
    unfold done_closes, done_sends in *; rewrite omap_app; simpl; rewrite <-?app_assoc; simpl; done.
Qed.

(** A poll for an event. *)
Lemma swarm_next_event t e t' :
  swarm_next t = Some (Some e, t') →
  bh_events (th_behaviour t) = e :: bh_events (th_behaviour t') ∧
  agenda (th_behaviour t) = GenerateEvent e :: agenda (th_behaviour t') ∧ th_running t' = th_running t ∧
  ∀ l, thread_ok l t → thread_ok l t' ∧ thread_ok l (stopped t').
Proof.
  destruct t as [[cfg [|e' es] ds ms] li di ba ac ru]; unfold swarm_next; cbn.
  - by destruct ds as [|[p c] ds], ms as [|[[p' c'] m] ms].
  - intros [= -> <-]. split; [done|]. split; [done|]. split; [done|]. intros l [Hd Hb Hc Hs]. by split; split.
Qed.

Lemma swarm_next_None t : swarm_next t = None → agenda (th_behaviour t) = [].
Proof.
  unfold swarm_next. pose proof (bh_poll_agenda (th_behaviour t)) as Hp.
  destruct (agenda (th_behaviour t)) as [|a rest]; [done|]. destruct Hp as (b & -> & _). by destruct a.
Qed.

Lemma agenda_nil b : agenda b = [] → bh_events b = [] ∧ bh_disconnects b = [] ∧ bh_outmsgs b = [].
Proof. by destruct b as [? [|??] [|??] [|??]]. Qed.

(** A callback queues the event that the contract speaks of, or none. *)
Lemma call_back_events g g' cb b :
  callback_ok g cb = Some g' →
  ∃ es, bh_events (call_back cb b) = bh_events b ++ es ∧ foldM announce g es = Some g' ∧
    bh_disconnects (call_back cb b) = bh_disconnects b ∧ bh_outmsgs (call_back cb b) = bh_outmsgs b.
Proof.
  destruct cb as [p c ep|p c|p c m|a]; cbn -[announce].
  1-3: intros Ha; (eexists [_]; split; [done|]; split; [|done]); cbn -[announce]; by rewrite Ha.
  intros [= ->]. unfold inject_new_listen_addr. destruct (is_local_address a); simpl.
  - exists []. by rewrite app_nil_r.
  - exists [NewLocalAddress a]. split; [done|]. split; [|done]. by destruct g'.
Qed.

(** ** The system *)

(** The network object is in a state that it reaches on its own under the contract for
    its events; the events on their way to it are announced after those; and the thread
    has taken some of its commands, from the first on. *)
Definition sys_inv (cfg : Config) (id : PeerId) (g : Announced) (s : System) : Prop :=
  (∃ g0, rtc (net_step prof) (network_start cfg id) (g0, net s) ∧
    (th_running (thread s) = true → foldM announce g0 (bh_events (th_behaviour (thread s))) = Some g)) ∧
  (alive s = true → th_running (thread s) = true) ∧
  taken s ≤ length (runloop (net s)) ∧
  thread_ok (take (taken s) (runloop (net s))) (thread s).

Lemma thread_taken l l' n t : n ≤ length l → l `prefix_of` l' → thread_ok (take n l) t →
  n ≤ length l' ∧ thread_ok (take n l') t.
Proof.
  intros Hn [k ->]. rewrite length_app, take_app_le by done. split; [lia|done].
Qed.

(** A step of the network object on its own account. *)
Lemma sys_inv_net cfg id g s self :
  sys_inv cfg id g s → alive s = true → runloop (net s) `prefix_of` runloop self →
  (∀ g0, net_step prof (g0, net s) (g0, self)) →
  sys_inv cfg id g (mkSystem true self (thread s) (taken s)).
Proof.
  intros ((g0 & Hr & Hg) & Hrun & Hn & Hok) Ha Hpre Hstep. split; [|split; [by intros _; apply Hrun|]].
  - exists g0. split; [|done]. by eapply rtc_r.
  - by apply (thread_taken (runloop (net s))).
Qed.

Lemma sys_inv_thread cfg id g s s' : sys_inv cfg id g s → thread_step s s' → sys_inv cfg id g s'.
Proof.
  intros ((g0 & Hr & Hg) & Hrun & Hn & Hok) Hs.
  destruct Hs as [s command Ht Hc|s t Ht Hsw|s e t Ht Ha Hsw|s e t Ht Ha Hsw].
  - apply lookup_lt_Some in Hc as Hlt. split; [|split; [by destruct command|split; [simpl; lia|]]].
    + exists g0. split; [done|]. simpl. by destruct command.
    + simpl. rewrite (take_S_r _ _ command) by done. by apply thread_command_ok.
  - apply swarm_next_action in Hsw as (a & _ & He & Hrn & Hl). split; [|split; [|split; [done|by apply Hl]]].
    + exists g0. split; [done|]. simpl. rewrite Hrn, He. by apply Hg.
    + simpl. by rewrite Hrn.
  - apply swarm_next_event in Hsw as (He & _ & Hrn & Hl). specialize (Hg Ht). rewrite He in Hg. cbn [foldM] in Hg.
    apply bind_Some in Hg as (g1 & Ha1 & Hg). split; [|split; [|split; [done|by apply Hl]]].
    + exists g1. split; [|done]. eapply rtc_r; [exact Hr|]. by apply step_swarm.
    + simpl. by rewrite Hrn.
  - apply swarm_next_event in Hsw as (_ & _ & _ & Hl). split; [|split; [done|split; [done|by apply Hl]]].
    by exists g0.
Qed.

Lemma sys_inv_step cfg id x y :
  config_ok cfg → sys_step x y → sys_inv cfg id x.1 x.2 → sys_inv cfg id y.1 y.2.
Proof.
  intros Hcfg Hs Hinv. destruct Hs as [g s s' Hs|g s now tick ready self Ha Hp|g s now tick Ha Hp|g s now c Ha
    |g s n data r self Ha Hgo|g g' s cb Ht Hcb]; simpl in *.
  - by eapply sys_inv_thread.
  - pose proof Hinv as ((g0 & Hr & _) & _). apply (net_inv_reachable prof cfg id _ _ Hcfg) in Hr.
    pose proof (poll_next_ok prof now tick _ _ Hr) as Hok. rewrite Hp in Hok.
    destruct (negb tick && lost_dial_next now (net s)); [done|].
    destruct Hok as (? & ? & ? & [= <- <-] & _ & _ & Hpre & _).
    eapply sys_inv_net; [done..|]. intros g1. by eapply step_poll.
  - destruct Hinv as ((g0 & Hr & Hg) & Hrun & Hn & Hok). split; [by exists g0|]. by split.
  - eapply sys_inv_net; [done..| |by intros g1; apply step_join].
    unfold join. by destruct (topics (net s) !! name c).
  - eapply sys_inv_net; [done..| |by intros g1; eapply step_gossip].
    unfold gossip_on in Hgo. apply bind_Some in Hgo as (t & _ & Hgo). destruct (gossip data t) as [r' t'].
    by injection Hgo as <- <-.
  - destruct Hinv as ((g0 & Hr & Hg) & Hrun & Hn & [Hd Hb Hc Hs]).
    destruct (call_back_events g g' cb (th_behaviour (thread s)) Hcb) as (es & He & Hes & Hds & Hms).
    split; [|split; [done|split; [done|split; simpl; rewrite ?Hds, ?Hms; done]]].
    exists g0. split; [done|]. intros _. simpl. by rewrite He, foldM_app, (Hg Ht).
Qed.

Lemma start_network_runloop_ok `{!SwarmCrate} cfg id t :
  start_network_runloop cfg id = Ok t → t = mkThread (behaviour_new cfg) (listen_addrs cfg) [] [] [] true.
Proof.
  unfold start_network_runloop. destruct (build_swarm cfg id); [|done]. simpl.
  destruct (try_map_list listen_on (listen_addrs cfg)); [|done]. by intros [= <-].
Qed.

Lemma sys_inv_reachable `{!SwarmCrate} cfg id t g s :
  config_ok cfg → start_network_runloop cfg id = Ok t →
  rtc sys_step (∅, ∅, sys_start cfg id t) (g, s) → sys_inv cfg id g s.
Proof.
  intros Hcfg ->%start_network_runloop_ok Hr. change (sys_inv cfg id (g, s).1 (g, s).2).
  match type of Hr with rtc _ ?x _ => assert (sys_inv cfg id x.1 x.2) as Hstart end.
  { split; [exists (∅, ∅); split; [apply rtc_refl|done]|]. split; [done|]. split; [simpl; lia|]. done. }
  revert Hstart. induction Hr as [|x y z Hxy _ IH]; [done|]. intros Hx. apply IH. by eapply sys_inv_step.
Qed.

(** C17: the thread keeps the swarm's contract on behalf of the network object.  In
    every reachable state of the two, with the swarm calling the behaviour back as it
    likes within its contract, the network object is in a state that it reaches when the
    swarm's contract holds for the events in its own channel; the events still in the
    queue of the behaviour continue them.  So once both are empty the network object
    knows every connection that the swarm has open, and its own channel never holds an
    event of a connection before the one that announces it. *)
Theorem runloop_refines `{!SwarmCrate} cfg id t g s :
  config_ok cfg → start_network_runloop cfg id = Ok t →
  rtc sys_step (∅, ∅, sys_start cfg id t) (g, s) → th_running (thread s) = true →
  ∃ g0, rtc (net_step prof) (network_start cfg id) (g0, net s) ∧
    foldM announce g0 (bh_events (th_behaviour (thread s))) = Some g ∧
    (queued_events (commands (net s)) = [] → bh_events (th_behaviour (thread s)) = [] →
     ∀ x, x ∈ g.2 → link (muxer (net s)) x ≠ None).
Proof.
  intros Hcfg Ht Hr Hrun. destruct (sys_inv_reachable cfg id t g s Hcfg Ht Hr) as ((g0 & Hr0 & Hg) & _).
  specialize (Hg Hrun). exists g0. split; [done|]. split; [done|]. intros Hq He x Hx.
  apply (net_inv_reachable prof cfg id _ _ Hcfg) in Hr0 as [_ (g1 & Hl & Hg1)].
  rewrite Hq in Hg1. rewrite He in Hg. injection Hg1 as ->. injection Hg as ->. by apply Hl.
Qed.

(** What the thread has left to do: a command may put an item on the agenda. *)
Definition left_to_do (s : System) : nat :=
  2 * (length (runloop (net s)) - taken s) + length (agenda (th_behaviour (thread s))).

Lemma thread_command_agenda c t :
  length (agenda (th_behaviour (thread_command c t))) <= S (length (agenda (th_behaviour t))) ∧
  bh_events (th_behaviour (thread_command c t)) = bh_events (th_behaviour t) ∧
  th_running (thread_command c t) = th_running t.
Proof.
  split; [|by destruct c]. unfold agenda. rewrite !length_app, !length_fmap.
  destruct c; simpl; rewrite ?length_app; simpl; lia.
Qed.

Lemma thread_step_less s s' : thread_step s s' → left_to_do s' < left_to_do s.
Proof.
  unfold left_to_do. intros [s0 c _ Hc|s0 t _ Hsw|s0 e t _ _ Hsw|s0 e t _ _ Hsw]; simpl.
  - apply lookup_lt_Some in Hc. pose proof (thread_command_agenda c (thread s0)) as [Ha _]. lia.
  - apply swarm_next_action in Hsw as (a & -> & _). simpl. lia.
  - apply swarm_next_event in Hsw as (_ & -> & _). simpl. lia.
  - apply swarm_next_event in Hsw as (_ & -> & _). simpl. lia.
Qed.

Lemma thread_sn s : sn thread_step s.
Proof.
  remember (left_to_do s) as n eqn:Hn. revert s Hn. induction (lt_wf n) as [n _ IH]. intros s ->.
  constructor. intros s' Hs. exact (IH _ (thread_step_less s s' Hs) s' eq_refl).
Qed.

(** The thread on its own, while the network object lives: the events it has taken from
    the behaviour are in the channel. *)
Lemma thread_steps_moved s s' :
  rtc thread_step s s' → alive s = true → th_running (thread s) = true →
  alive s' = true ∧ th_running (thread s') = true ∧ ∃ es,
    bh_events (th_behaviour (thread s)) = es ++ bh_events (th_behaviour (thread s')) ∧
    net s' = with_commands (commands (net s) ++ (InjectEvent <$> es)) (net s).
Proof.
  induction 1 as [s|s s1 s' Hs _ IH]; intros Ha Hrun.
  { split; [done|]. split; [done|]. exists []. split; [done|]. rewrite app_nil_r. by destruct (net s). }
  assert (alive s1 = true ∧ th_running (thread s1) = true ∧ ∃ es,
    bh_events (th_behaviour (thread s)) = es ++ bh_events (th_behaviour (thread s1)) ∧
    net s1 = with_commands (commands (net s) ++ (InjectEvent <$> es)) (net s)) as (Ha1 & Hr1 & es1 & He1 & Hn1).
  { destruct Hs as [s c _ Hc|s t _ Hsw|s e t _ _ Hsw|s e t _ Hd _]; simpl; [..|congruence].
    - pose proof (thread_command_agenda c (thread s)) as (_ & -> & ->). split; [done|]. split; [done|].
      exists []. split; [done|]. rewrite app_nil_r. by destruct (net s).
    - apply swarm_next_action in Hsw as (a & _ & -> & -> & _). split; [done|]. split; [done|].
      exists []. split; [done|]. rewrite app_nil_r. by destruct (net s).
    - apply swarm_next_event in Hsw as (-> & _ & -> & _). split; [done|]. split; [done|]. by exists [e]. }
  destruct (IH Ha1 Hr1) as (Ha2 & Hr2 & es2 & He2 & Hn2). split; [done|]. split; [done|].
  exists (es1 ++ es2). rewrite He1, He2, app_assoc. split; [done|].
  rewrite Hn2, Hn1. unfold with_commands. simpl. by rewrite fmap_app, app_assoc.
Qed.

(** C18: the thread catches up and loses nothing.  Left to itself from any reachable
    state, in whatever order [select!] takes its arms, it has nothing more to do after
    finitely many steps.  Then it has dialed and banned what the network object ever
    asked for, in that order; the swarm has closed the connections and passed on the
    messages asked for, each of the two in that order; and the events of the swarm are
    in the network object's channel, in the order in which they happened. *)
Theorem runloop_drains `{!SwarmCrate} cfg id t g s :
  config_ok cfg → start_network_runloop cfg id = Ok t →
  rtc sys_step (∅, ∅, sys_start cfg id t) (g, s) → alive s = true →
  sn thread_step s ∧ ∀ s', rtc thread_step s s' → nf thread_step s' →
  th_dialed (thread s') = asked_dials (runloop (net s)) ∧
  th_banned (thread s') = asked_bans (runloop (net s)) ∧
  done_closes (th_actions (thread s')) = asked_closes (runloop (net s)) ∧
  done_sends (th_actions (thread s')) = asked_sends (runloop (net s)) ∧
  commands (net s') = commands (net s) ++ (InjectEvent <$> bh_events (th_behaviour (thread s))).
Proof.
  intros Hcfg Ht Hr Ha. split; [apply thread_sn|]. intros s' Hs Hnf.
  pose proof (sys_inv_reachable cfg id t g s Hcfg Ht Hr) as Hinv. pose proof Hinv as (_ & Hrun & _).
  destruct (thread_steps_moved s s' Hs Ha (Hrun Ha)) as (Ha' & Hrun' & es & He & Hn).
  assert (sys_inv cfg id g s') as (_ & _ & Hlen & [Hd Hb Hc Hm]).
  { clear -Hinv Hs. induction Hs as [|s s1 s' Hs1 _ IH]; [done|]. by eapply IH, sys_inv_thread. }
  assert (taken s' = length (runloop (net s'))) as Htk.
  { destruct (runloop (net s') !! taken s') as [c|] eqn:Hl; [|apply lookup_ge_None in Hl; lia].
    destruct Hnf. eexists. by eapply ts_command. }
  assert (agenda (th_behaviour (thread s')) = []) as (He' & Hds & Hms)%agenda_nil.
  { destruct (swarm_next (thread s')) as [[[e|] t']|] eqn:Hsw; [| |by apply swarm_next_None];
      destruct Hnf; eexists; [by eapply ts_event|by eapply ts_action]. }
  rewrite Htk, firstn_all in Hd, Hb, Hc, Hm. rewrite Hds, app_nil_r in Hc. rewrite Hms, app_nil_r in Hm.
  rewrite He', app_nil_r in He. rewrite He. by rewrite Hn in *.
Qed.
End runloop.

(** ** A node that dials its bootstrap peer while another peer connects to it *)

#[global] Instance sandbox_swarm : @SwarmCrate sandbox_libp2p := {|
  TransportError := unit;
  build_swarm _ _ := Ok tt;
  listen_on _ := Ok tt;
|}.

Definition thread0 : Thread := mkThread (behaviour_new (config_default [])) [] [] [] [] true.
Definition sys0 : System := sys_start (config_default []) (peer 0) thread0.
Definition sys1 : System := mkSystem true (do_poll 1 (do_join node0)).2 thread0 0.
Definition sys2 : System :=
  mkSystem true (net sys1)
    (with_behaviour (call_back (OnEstablished (peer 1) (conn 1) (false, 1%N)) (th_behaviour thread0)) thread0) 0.
Definition open1 : Announced := ({[(peer 1, conn 1)]}, {[(peer 1, conn 1)]}).

Lemma do_poll_next now s :
  match poll_next Debug now false s.2 with Some _ => true | None => false end = true →
  ∃ ready, poll_next Debug now false s.2 = Some (ready, (do_poll now s).2).
Proof. unfold do_poll. destruct (poll_next Debug now false s.2) as [[r self]|]; [|done]. by exists r. Qed.

Lemma sys2_reachable : rtc (sys_step Debug) (∅, ∅, sys0) (open1, sys2).
Proof.
  destruct (do_poll_next 1 (do_join node0)) as [r Hp]; [by vm_compute|].
  eapply rtc_l; [apply (ss_join Debug _ sys0 0 example_topic); done|].
  eapply rtc_l; [eapply (ss_poll Debug _ _ 1 false); [done|exact Hp]|].
  eapply rtc_l; [eapply (ss_callback Debug _ open1 _ (OnEstablished (peer 1) (conn 1) (false, 1%N))); [done|]|].
  { vm_compute. reflexivity. }
  apply rtc_refl.
Qed.

Lemma runloop_refines_witness :
  ∃ g0, rtc (net_step Debug) node0 (g0, net sys2) ∧
    foldM announce g0 (bh_events (th_behaviour (thread sys2))) = Some open1.
Proof.
  destruct (runloop_refines Debug (config_default []) (peer 0) thread0 open1 sys2) as (g0 & Hr & Hg & _).
  - exact default_config_ok.
  - reflexivity.
  - exact sys2_reachable.
  - reflexivity.
  - by exists g0.
Defined.

(** The thread takes the command, then the event. *)
Definition sys3 : System :=
  mkSystem true (net sys2) (thread_command (RConnect (maddr 7)) (thread sys2)) 1.
Definition sys4 : System :=
  mkSystem true (with_commands (commands (net sys3) ++
      [InjectEvent (ConnectionEstablished (mkPeer (peer 1) {[1%N]}) (false, 1%N) (conn 1))]) (net sys3))
    (with_behaviour (behaviour_new (config_default [])) (thread sys3)) 1.

Lemma sys4_reached : rtc thread_step sys2 sys4.
Proof.
  eapply rtc_l; [eapply (ts_command sys2 (RConnect (maddr 7))); [done|vm_compute; reflexivity]|].
  eapply rtc_l; [eapply (ts_event sys3); [done..|reflexivity]|]. apply rtc_refl.
Qed.

Lemma sys4_idle : nf thread_step sys4.
Proof.
  intros [s' Hs]. inversion Hs as [? c _ Hc|? t _ Hsw|? e t _ _ Hsw|? e t _ Hd _]; subst; [|done..].
  apply lookup_lt_Some in Hc. assert (length (runloop (net sys4)) = 1) as Hl by (vm_compute; reflexivity).
  rewrite Hl in Hc. simpl in Hc. lia.
Qed.

Lemma runloop_drains_witness : th_dialed (thread sys4) = [maddr 7] ∧ length (commands (net sys4)) = 1.
Proof.
  destruct (runloop_drains Debug (config_default []) (peer 0) thread0 open1 sys2) as [_ Hd].
  - exact default_config_ok.
  - reflexivity.
  - exact sys2_reachable.
  - reflexivity.
  - destruct (Hd sys4 sys4_reached sys4_idle) as (-> & _ & _ & _ & ->). vm_compute. done.
Defined.
